(* ===== verification/_CoqProject ===== *)
-Q . S2P
Prelude.v
Codec.v
Crc.v
LogFormat.v
RaftLog.v
Recovery.v
Durable.v
Messages.v
Config.v
StateMachine.v
Io.v
Rng.v
Draw.v
Disk.v
DiskSafety.v
Faults.v
FaultRules.v
Scheduler.v
Net.v
Trace.v
World.v
WorldRules.v
Oracle.v
Persister.v
RaftState.v
Raft.v
RaftInv.v
RaftRecover.v
RaftSafety.v
VoteLoss.v
Ballot.v
Election.v
RaftRules.v
Reads.v
History.v
Linearizability.v
Locality.v
Server.v
ServerRules.v
Invariants.v
InvariantRules.v
Durability.v
Harness.v
Client.v
ClientRules.v
IoRules.v
Drain.v
Slots.v
Journal.v
Lent.v
Served.v
Cluster.v
ClusterRun.v
ClusterRules.v
RunRules.v
Elected.v
Blind.v
Replay.v
Sweep.v
Shrink.v
Cli.v
CliRules.v
CliStatus.v
