(* ===== verification/Prelude.v ===== *)
(** * simkv: a verification library

    [simkv] is a key-value store replicated with Raft, written so that nothing in
    it reads a clock, a disk or a socket by itself, together with the
    deterministic simulator that runs it and the checkers that judge each run.
    This library models both and proves what makes them correct.  It follows the
    code: one definition per type, function and handler, in the code's order,
    with its guards, its early returns and its panics.

    ** Conventions

    - Integers are [Z]; their widths are explicit.  Both build profiles check
      overflow, so [a + b] on u64 is [u64_add], which is [None], a panic, when
      the sum does not fit; [wrapping_*] and [saturating_*] are written out.
      [usize] values that count things are [nat], on a 64-bit target.
    - A byte is [Byte.byte], a string of the store's data [list byte], an ASCII
      name [string]; a BTreeMap is a [gmap] unless its order matters.
    - [option] is a computation that may panic; [Result] is the code's own.
      Stateful code runs in small monads: [RM] (a Raft node over its world), the
      server's and the client's likewise, [Draw] for what draws random numbers,
      and the driver's; errors are values there too.
    - The world is the class [Io] (Io.v), one method per method of the trait.  Node
      and client are proved correct against it for every instance, [env_io]
      records what was asked, and the simulator's world is one instance.

    ** The parts and where they are

    Storage and messages ([src/kvstore/lib.rs], [log.rs]):
    Codec (encoder, decoder, CRC-32, frames), Crc (what the checksum detects),
    LogFormat (operations, commands, entries), RaftLog (the log in memory),
    Recovery (reading a write-ahead file back), Durable (snapshots and hard-state
    slots), Messages (everything on the wire), StateMachine (the replicated map
    with its sessions, from [server.rs]).

    The node ([src/kvstore/raft.rs], [src/sim-io]):
    Config, Io, Persister (write, confirm, sync, confirm), RaftState, Raft (every
    handler, the injected defects included), RaftInv and RaftRecover (the
    invariant and that recovery and every handler keep it), RaftSafety (properties
    of all runs from recovery on), VoteLoss (a crash that takes back a vote), Ballot
    and Election (what one node's votes rest on, and any number of nodes: at most one
    leader for each term), RaftRules (the protocol's rules one by one), Reads (linearizable
    reads, from their acceptance to their release, over every run).

    The server ([src/kvstore/server.rs]): Server composes a Raft node with the
    state machine and the clients that wait; ServerRules follows requests through it,
    and Drain shows what is settled after every event.

    The simulator ([src/simcore]): Rng, Draw, Disk and DiskSafety (the page cache and
    what a crash leaves of it), Faults and FaultRules (the injector), Scheduler, Net,
    Trace (the log and the fingerprint), World and WorldRules (all of them together,
    and the [Io] a node is handed).

    The checkers ([src/checker]): Oracle (violations and reports), History,
    Linearizability and Locality (the search, what it decides about one key, and
    why key by key is enough), Invariants and InvariantRules (Raft's properties on
    the live cluster), Durability (what the disks say).

    The harness ([src/harness]): Harness (configuration and outcome), Client and
    ClientRules (the simulated clients of [workload.rs]), IoRules (a handler
    changes the world only through what it asks), Slots, Journal, Lent and Served
    (the hard state on a disk, torn writes included for one in flight, then without
    them followed from the image of a file to a node and its persister, its
    handlers, and a server with its crashes and restarts), Cluster and ClusterRun
    (the driver: events, faults, crashes, restarts, membership changes, oracles, loop
    and verdict of [cluster.rs]), ClusterRules and RunRules (what every run keeps
    and what its pass or failure means), Elected (one leader for each term of every run),
    Blind and Replay (logging changes nothing, so a seed
    replays), Sweep (threads that share a counter, as interleaved steps), Shrink
    (the search for a smaller failing configuration), Cli, CliRules and CliStatus
    (arguments, configuration, commands and exit statuses of [main.rs]).

    ** How they interact

    The driver hands each event to a server or a client through the world's [Io];
    what they ask of it becomes events, messages and disk operations of the
    simulated world, with delays and failures drawn from the one random source; the
    injector's decisions crash, cut and restart; after each event the checkers look
    at views of the nodes.  A crash drops the server, keeps what [Disk.crash_file]
    leaves and restarts from [Raft.recover] on those bytes.  So the disk's theorem
    (synced records are recovered), the recovery theorems and the invariant of the
    node meet in [RunRules.run_keeps_cluster_consistent].  The votes of all nodes meet
    in [Elected.simulated_election_safety]: [Ballot] says what a handler may reveal,
    [Election] keeps the ledger of votes cast for good, [Served] that the disk of a
    node holds every vote in the ledger when the node is down, and [Elected] that the
    network delivers nothing the ledger does not know of.

    ** What is shown

    - Data: codecs round-trip within their bounds and refuse any altered byte;
      recovery of any image returns the longest run of records it begins with; hard
      states survive a torn write of the other slot, and with one in flight a
      crash leaves it or the durable one; a snapshot restores the machine.
    - The node, over every run from any recovered state and in any world: no
      message carries a term that is not durable, and a vote is granted only to the
      candidate the durable state names; a vote never changes within a term; log, commit, applied and durable indices stay in
      order; commits need a majority and an entry of the leader's own term;
      membership changes keep majorities overlapping; a read is released only
      after a majority has confirmed the leader that accepted it, or at once when
      that leader knows of one member only ([Reads.removed_leader_serves_unconfirmed]
      shows what this allows).
    - Elections: over any network and any crashes that leave the last durable hard
      state or a later one, two elections of one term whose memberships have no
      disjoint majorities have the same winner ([Election.election_safety]).  A crash
      leaves such a state on a disk that loses, delays and reorders unsynced writes
      but does not tear them, so this holds of every run of the simulator on such
      disks ([Elected.simulated_election_safety]); with torn writes the code can
      lose a durable vote ([VoteLoss.two_unsynced_states_lose_a_vote]).
    - The server: no copy of a request is answered twice; after every event what is
      committed is applied, those who waited for it have their outcome, and nothing
      waits in vain; repeats leave the map as executing every operation once.
    - The simulator: events fire in order, cancelled ones never; a synced write
      survives; a crash is a power loss of one node, each unsynced write lost, torn or
      kept, and of nothing else; faults stay within their limits and the world heals
      once.
    - The checkers: the linearizability checker decides the existence of a
      linearization against the replicated store; election and term checks are
      exact; the verdict of a run is true, and its pass or failure stands for what
      the last state shows.
    - The harness: clients record definite answers to their own operations and send
      a bounded number of requests for each; a run ends within its budget of events;
      its history is well formed; trace levels and threads do not matter; shrinking ends at a
      failing configuration that no single candidate simplifies further; exit
      statuses of [replay], [sweep] and [bugs] are those of single runs.

    ** Bounds and fuel

    Loops that are not structural take fuel, and its sufficiency is proved:
    recovery by the length of the file ([Recovery.recover_log_total]); the
    checker's search by its budget of steps; the loop that skips cancelled events
    by the length of the queue; the driver's loop by the event budget and two
    ([RunRules.run_ends_within_budget]: more fuel changes nothing); shrinking by its
    budget and two; the interleavings of a sweep are bounded by four steps for each
    seed and two for each thread; walks over the log by its length
    ([RaftState.config_at_fuel], [RaftState.conflict_hint_fuel]) and over the
    parked ranges by their number ([RaftRules.advance_loop_total]).  The one
    exception is [Rng.rng_below], whose rejection loop has no bound in the code:
    128 draws are allowed, fewer than half of all words are refused
    ([Rng.below_is_unbiased]), and running out counts as a panic.  Theorems about
    runs assume what [RunRules.runnable] says: a positive retry back-off, fewer than
    2^32 events and at most 2^32 clients, so that the keys of the history stay
    apart.  Every configuration of the command line has such a back-off
    ([CliRules.config_runnable]).

    ** Not modelled

    - Texts for people: violations' details, [render], [describe], [summary], the
      usage text, the table of [bugs], progress lines and elapsed times.  Kinds and
      signatures of violations, which decide statuses, are modelled.
    - [Io::trace] and [Io::trace_enabled], whose calls in the handlers are left out, so
      that [Replay.tracing_changes_nothing] is about the trace the simulator itself
      keeps; the trace log's contents beyond its fingerprint in runs; the file
      [replay --out] writes; [divergence_report].
    - The operating system: threads and their number are the interleaving and a
      number given to a command; spawning, mutex poisoning and atomics beyond one
      step per access are not.
    - Independence of the random draws, and so how often a fault happens; liveness of
      Raft.
    - Unit tests, and the integration tests of the repository. *)
From stdpp Require Export prelude gmap list sorting.
From Stdlib Require Export ZArith Lia.
From Stdlib.Init Require Import Byte.

#[global] Open Scope Z_scope.

(** ** Results: [std::result::Result] with the error type left open. *)

Inductive Result (E A : Type) : Type :=
| Ok (a : A)
| Err (e : E).
Arguments Ok {E A} a.
Arguments Err {E A} e.

#[export] Instance Result_ret E : MRet (Result E) := fun A a => Ok a.
#[export] Instance Result_bind E : MBind (Result E) :=
  fun A B f m => match m with Ok a => f a | Err e => Err e end.

(** ** Machine integers: every unsigned value is a [Z]; the widths are explicit. *)

Definition U32_MAX : Z := 2 ^ 32 - 1.
Definition U64_MAX : Z := 2 ^ 64 - 1.

Definition is_u8 (z : Z) : Prop := 0 <= z < 2 ^ 8.
Definition is_u32 (z : Z) : Prop := 0 <= z < 2 ^ 32.
Definition is_u64 (z : Z) : Prop := 0 <= z < 2 ^ 64.

(** [wrapping_*] arithmetic and truncating [as] casts. *)
Definition wrap32 (z : Z) : Z := z mod 2 ^ 32.
Definition wrap64 (z : Z) : Z := z mod 2 ^ 64.

(** [a + b] on u64.  Both build profiles of the program check overflow, so a
    sum that does not fit is a panic ([None]). *)
Definition u64_add (a b : Z) : option Z :=
  if a + b <=? U64_MAX then Some (a + b) else None.

(** [saturating_sub], [saturating_add] and [saturating_mul] on u64. *)
Definition u64_saturating_sub (a b : Z) : Z := Z.max 0 (a - b).
Definition u64_saturating_add (a b : Z) : Z := Z.min U64_MAX (a + b).
Definition u64_saturating_mul (a b : Z) : Z := Z.min U64_MAX (a * b).

(** ** Bytes *)

Definition byte_to_Z (b : byte) : Z := Z.of_N (Byte.to_N b).

(** [v as u8]: the low eight bits. *)
Definition byte_of_Z (z : Z) : byte :=
  default Byte.x00 (Byte.of_N (Z.to_N (z mod 256))).

#[export] Instance byte_eq_dec : EqDecision byte := Byte.byte_eq_dec.

#[export] Instance byte_countable : Countable byte.
Proof.
  refine (inj_countable' Byte.to_N (fun n => default Byte.x00 (Byte.of_N n)) _).
  intros x. by rewrite Byte.of_to_N.
Defined.

(** [to_le_bytes] of an [n]-byte integer, and [from_le_bytes]. *)
Fixpoint to_le_bytes (n : nat) (z : Z) : list byte :=
  match n with
  | O => []
  | S n => byte_of_Z z :: to_le_bytes n (z / 256)
  end.

Fixpoint from_le_bytes (bs : list byte) : Z :=
  match bs with
  | [] => 0
  | b :: bs => byte_to_Z b + 256 * from_le_bytes bs
  end.

(** ** Automation *)

Create HintDb kv discriminated.

(** Split the hypotheses' conjunctions and existentials and clean equations. *)
Ltac kv_clean :=
  repeat match goal with
  | H : _ /\ _ |- _ => destruct H
  | H : exists _, _ |- _ => destruct H
  | H : Some _ = Some _ |- _ => injection H as H
  | H : Ok _ = Ok _ |- _ => injection H as H
  | H : (_, _) = (_, _) |- _ => injection H as H
  | H : Some _ = None |- _ => discriminate H
  | H : None = Some _ |- _ => discriminate H
  | H : Ok _ = Err _ |- _ => discriminate H
  | H : Err _ = Ok _ |- _ => discriminate H
  end; subst; simpl in * |-.

(** Turn boolean comparisons in hypotheses into propositions for [lia]. *)
Ltac kv_bool :=
  repeat match goal with
  | H : (_ && _)%bool = true |- _ => apply andb_true_iff in H as [? ?]
  | H : (_ || _)%bool = false |- _ => apply orb_false_iff in H as [? ?]
  | H : negb _ = true |- _ => apply negb_true_iff in H
  | H : negb _ = false |- _ => apply negb_false_iff in H
  end.

(** ** Shared lemmas: integers and bytes *)

Lemma byte_to_Z_range b : 0 <= byte_to_Z b < 256.
Proof.
  unfold byte_to_Z. pose proof (Byte.to_N_bounded b). lia.
Qed.

Lemma byte_of_to_Z b : byte_of_Z (byte_to_Z b) = b.
Proof.
  unfold byte_of_Z. rewrite Z.mod_small by apply byte_to_Z_range.
  unfold byte_to_Z. rewrite N2Z.id, Byte.of_to_N. done.
Qed.

Lemma byte_to_of_Z z : byte_to_Z (byte_of_Z z) = z mod 256.
Proof.
  unfold byte_of_Z, byte_to_Z.
  assert (Hb : 0 <= z mod 256 < 256) by (apply Z.mod_pos_bound; lia).
  destruct (Byte.of_N (Z.to_N (z mod 256))) as [b|] eqn:E.
  - apply Byte.to_of_N in E. simpl. rewrite E. lia.
  - apply Byte.of_N_None_iff in E. lia.
Qed.

Lemma byte_to_Z_inj a b : byte_to_Z a = byte_to_Z b -> a = b.
Proof. intros E. rewrite <- (byte_of_to_Z a), <- (byte_of_to_Z b). by rewrite E. Qed.

Lemma length_to_le_bytes n z : length (to_le_bytes n z) = n.
Proof. revert z; induction n; simpl; auto. Qed.

Lemma from_le_bytes_range bs : 0 <= from_le_bytes bs < 256 ^ Z.of_nat (length bs).
Proof.
  induction bs as [|b bs IH]; simpl length; [simpl; lia|].
  rewrite Nat2Z.inj_succ, Z.pow_succ_r by lia. simpl from_le_bytes.
  pose proof (byte_to_Z_range b). lia.
Qed.

Lemma from_to_le_bytes n z :
  0 <= z < 256 ^ Z.of_nat n -> from_le_bytes (to_le_bytes n z) = z.
Proof.
  revert z; induction n as [|n IH]; intros z Hz; [simpl in *; lia|].
  rewrite Nat2Z.inj_succ, Z.pow_succ_r in Hz by lia. simpl.
  rewrite byte_to_of_Z, IH.
  - pose proof (Z.div_mod z 256). lia.
  - split; [apply Z.div_pos; lia | apply Z.div_lt_upper_bound; lia].
Qed.

Lemma to_from_le_bytes bs : to_le_bytes (length bs) (from_le_bytes bs) = bs.
Proof.
  induction bs as [|b bs IH]; [done|]. simpl.
  pose proof (byte_to_Z_range b). f_equal.
  - apply byte_to_Z_inj. rewrite byte_to_of_Z.
    rewrite Z.mul_comm, Z_mod_plus_full. apply Z.mod_small; lia.
  - replace ((byte_to_Z b + 256 * from_le_bytes bs) / 256) with (from_le_bytes bs); [done|].
    rewrite Z.add_comm, Z.mul_comm, Z.div_add_l by lia.
    rewrite Z.div_small by lia. lia.
Qed.

Lemma from_le_bytes_inj a b :
  length a = length b -> from_le_bytes a = from_le_bytes b -> a = b.
Proof.
  intros Hl He. rewrite <- (to_from_le_bytes a), <- (to_from_le_bytes b). by rewrite Hl, He.
Qed.

Lemma u64_add_Some a b c : u64_add a b = Some c <-> c = a + b /\ a + b <= U64_MAX.
Proof.
  unfold u64_add. destruct (Z.leb_spec (a + b) U64_MAX); split; intros; kv_clean;
    try (split; [done|lia]); try done; lia.
Qed.

(** ** Shared lemmas: lists *)

(** The entries of a [BTreeMap], in the order of its keys. *)
Definition index_le {A} (x y : Z * A) : Prop := x.1 <= y.1.
#[export] Instance index_le_dec {A} (x y : Z * A) : Decision (index_le x y).
Proof. unfold index_le. apply _. Defined.
Definition by_index {A} (m : gmap Z A) : list (Z * A) := merge_sort index_le (map_to_list m).

Lemma by_index_elem {A} (m : gmap Z A) i x : (i, x) ∈ by_index m <-> m !! i = Some x.
Proof. unfold by_index. by rewrite (merge_sort_Permutation index_le), elem_of_map_to_list. Qed.

Lemma NoDup_fmap_filter {A B} (f : A -> B) (P : A -> bool) l :
  NoDup (f <$> l) -> NoDup (f <$> List.filter P l).
Proof.
  induction l as [|x l IH]; [done|]. rewrite fmap_cons. intros [Hx Hnd]%NoDup_cons. simpl.
  case_match; [|by apply IH]. rewrite fmap_cons. apply NoDup_cons. split; [|by apply IH].
  intros (y & Hy & Hin)%list_elem_of_fmap. apply Hx. apply list_elem_of_fmap. exists y.
  split; [done|]. apply list_elem_of_In, filter_In in Hin as [? _]. by apply list_elem_of_In.
Qed.

(** ** Record update

    [r ⟨ f := v ⟩] replaces one field.  A record's setters are made from its
    eta expansion: the occurrence of the field in it is abstracted. *)
Class Setter {R T} (proj : R -> T) : Type := set_field : (T -> T) -> R -> R.
#[global] Arguments set_field {R T} proj {_} f r.

Ltac build_setter eta :=
  lazymatch goal with
  | |- @Setter ?R ?T ?proj =>
      let f := fresh "f" in
      let r := fresh "r" in
      refine (fun (f : T -> T) (r : R) => _);
      let e := eval cbv beta delta [eta] in (eta r) in
      let e := eval pattern (proj r) in e in
      lazymatch e with
      | ?body _ => let e := eval cbv beta in (body (f (proj r))) in exact e
      end
  end.

Notation "r ⟨ f := v ⟩" := (set_field f (fun _ => v) r)
  (at level 1, left associativity, f at level 9, v at level 99,
   format "r ⟨ f  :=  v ⟩").

(** The function at the head of an application. *)
Ltac head_of m := lazymatch m with ?f _ => head_of f | _ => m end.
