(* ===== verification/Codec.v ===== *)
(** * Codec: the wire primitives of [kvstore/lib.rs]

    [mod codec] of the program: the encoder [Enc], the bounds-checked decoder
    [Dec], CRC-32, and the checksummed frame.  A decoder is a function from
    [Dec] to a [Result], exactly as the methods that return [Result<T>]; the
    [?] operator is the bind of that monad.  [reads] and [Wire] are the
    interface the message, log and snapshot formats are verified against. *)
From S2P Require Import Prelude.
From Stdlib.Init Require Import Byte.

(** Refuse to allocate for an implausible length field. *)
Definition MAX_FIELD : Z := Z.shiftl 1 20.

Inductive DecodeError : Type :=
| Truncated
| BadTag (t : Z)
| BadUtf8
| BadChecksum
| TooLong
| TrailingBytes.

(** A Rust [String] is its UTF-8 bytes. *)
Abbreviation RString := (list byte).

(** ** UTF-8 validation, as [std::str::from_utf8] decides it *)

Definition in_range (lo hi : Z) (b : byte) : bool :=
  (lo <=? byte_to_Z b) && (byte_to_Z b <=? hi).

Definition utf8_cont (b : byte) : bool := in_range 0x80 0xBF b.

(** The bounds on the second byte of a three- or four-byte sequence. *)
Definition utf8_second3 (b0 b1 : byte) : bool :=
  let x := byte_to_Z b0 in
  if x =? 0xE0 then in_range 0xA0 0xBF b1
  else if x =? 0xED then in_range 0x80 0x9F b1
  else utf8_cont b1.

Definition utf8_second4 (b0 b1 : byte) : bool :=
  let x := byte_to_Z b0 in
  if x =? 0xF0 then in_range 0x90 0xBF b1
  else if x =? 0xF4 then in_range 0x80 0x8F b1
  else utf8_cont b1.

Fixpoint utf8_valid (bs : list byte) : bool :=
  match bs with
  | [] => true
  | b0 :: r0 =>
      if in_range 0 0x7F b0 then utf8_valid r0
      else if in_range 0xC2 0xDF b0 then
        match r0 with
        | b1 :: r1 => utf8_cont b1 && utf8_valid r1
        | _ => false
        end
      else if in_range 0xE0 0xEF b0 then
        match r0 with
        | b1 :: b2 :: r2 => utf8_second3 b0 b1 && utf8_cont b2 && utf8_valid r2
        | _ => false
        end
      else if in_range 0xF0 0xF4 b0 then
        match r0 with
        | b1 :: b2 :: b3 :: r3 =>
            utf8_second4 b0 b1 && utf8_cont b2 && utf8_cont b3 && utf8_valid r3
        | _ => false
        end
      else false
  end.

(** ** Encoder: [Enc { buf }]; every method appends to the buffer *)

Abbreviation Enc := (list byte).

Definition enc_new : Enc := [].
Definition enc_u8 (v : Z) (e : Enc) : Enc := e ++ [byte_of_Z v].
Definition enc_u32 (v : Z) (e : Enc) : Enc := e ++ to_le_bytes 4 v.
Definition enc_u64 (v : Z) (e : Enc) : Enc := e ++ to_le_bytes 8 v.
(** [b.len() as u32]: [to_le_bytes 4] keeps the low 32 bits. *)
Definition enc_bytes (b : list byte) (e : Enc) : Enc :=
  enc_u32 (Z.of_nat (length b)) e ++ b.
Definition enc_str (s : RString) (e : Enc) : Enc := enc_bytes s e.
Definition enc_opt_str (s : option RString) (e : Enc) : Enc :=
  match s with
  | None => enc_u8 0 e
  | Some v => enc_str v (enc_u8 1 e)
  end.

(** Method chaining, [e.u8(1).str(key)]. *)
Notation "e |> f" := (f e) (at level 61, left associativity, only parsing).

(** [*b as u8] for a boolean. *)
Definition bool_as_u8 (b : bool) : Z := if b then 1 else 0.

(** ** Decoder *)

Record Dec : Type := mkDec { d_buf : list byte; d_pos : nat }.

Definition Decoder (A : Type) : Type := Dec -> Result DecodeError (A * Dec).

#[export] Instance Decoder_ret : MRet Decoder := fun A a d => Ok (a, d).
#[export] Instance Decoder_bind : MBind Decoder :=
  fun A B f p d => match p d with Ok (a, d') => f a d' | Err e => Err e end.

Definition dec_err {A} (err : DecodeError) : Decoder A := fun _ => Err err.

Definition dec_new (buf : list byte) : Dec := mkDec buf 0.

Definition dec_take (n : Z) : Decoder (list byte) := fun d =>
  if Z.of_nat (length (d_buf d)) <? Z.of_nat (d_pos d) + n then Err Truncated
  else Ok (take (Z.to_nat n) (drop (d_pos d) (d_buf d)),
           mkDec (d_buf d) (d_pos d + Z.to_nat n)%nat).

Definition dec_u8 : Decoder Z :=
  b ← dec_take 1; mret (from_le_bytes b).
Definition dec_u32 : Decoder Z :=
  b ← dec_take 4; mret (from_le_bytes b).
Definition dec_u64 : Decoder Z :=
  b ← dec_take 8; mret (from_le_bytes b).

Definition dec_bytes : Decoder (list byte) :=
  n ← dec_u32;
  if MAX_FIELD <? n then dec_err TooLong else dec_take n.

Definition dec_string : Decoder RString :=
  b ← dec_bytes;
  if utf8_valid b then mret b else dec_err BadUtf8.

Definition dec_opt_string : Decoder (option RString) :=
  t ← dec_u8;
  if t =? 0 then mret None
  else if t =? 1 then s ← dec_string; mret (Some s)
  else dec_err (BadTag t).

Definition dec_remaining (d : Dec) : nat := (length (d_buf d) - d_pos d)%nat.

Definition dec_finish : Decoder unit := fun d =>
  if decide (dec_remaining d = 0%nat) then Ok (tt, d) else Err TrailingBytes.

(** [for _ in 0..n { v.push(p(d)?) }] *)
Fixpoint dec_repeat {A} (n : nat) (p : Decoder A) : Decoder (list A) :=
  match n with
  | O => mret []
  | S n => a ← p; l ← dec_repeat n p; mret (a :: l)
  end.

(** ** CRC-32 (IEEE), bitwise *)

Definition CRC_POLY : Z := 0xEDB88320.

Definition crc_bit (crc : Z) : Z :=
  let mask := wrap32 (- Z.land crc 1) in
  Z.lxor (Z.shiftr crc 1) (Z.land CRC_POLY mask).

Definition crc_byte (crc : Z) (b : byte) : Z :=
  Nat.iter 8 crc_bit (Z.lxor crc (byte_to_Z b)).

Definition crc32 (data : list byte) : Z :=
  Z.lxor (foldl crc_byte 0xFFFFFFFF data) 0xFFFFFFFF.

(** ** Checksummed frame *)

Definition frame (payload : list byte) : list byte :=
  to_le_bytes 4 (crc32 payload) ++ payload.

Definition unframe (bytes : list byte) : Result DecodeError (list byte) :=
  if decide (length bytes < 4)%nat then Err Truncated
  else
    let expect := from_le_bytes (take 4 bytes) in
    let payload := drop 4 bytes in
    if crc32 payload =? expect then Ok payload else Err BadChecksum.

(** ** The interface between the primitives and the message formats *)

(** [reads p bs a]: wherever the bytes [bs] stand in a buffer, [p] placed at
    their start returns [a] and stops exactly at their end. *)
Definition reads {A} (p : Decoder A) (bs : list byte) (a : A) : Prop :=
  forall pre post,
    p (mkDec (pre ++ bs ++ post) (length pre))
    = Ok (a, mkDec (pre ++ bs ++ post) (length pre + length bs)).

(** [consumes p]: a successful [p] only moves its position forward, inside the
    buffer it was given. *)
Definition consumes {A} (p : Decoder A) : Prop :=
  forall d a d', (d_pos d <= length (d_buf d))%nat -> p d = Ok (a, d') ->
    d_buf d' = d_buf d /\ (d_pos d <= d_pos d' <= length (d_buf d))%nat.

(** What a wire format promises to those that embed it: it appends to the
    encoder, and its decoder recovers every value in its domain. *)
Class Wire (A : Type) := {
  wire_enc : A -> Enc -> Enc;
  wire_dec : Decoder A;
  wire_ok : A -> Prop;
  wire_bytes : A -> list byte;
  wire_app : forall a e, wire_enc a e = e ++ wire_bytes a;
  wire_reads : forall a, wire_ok a -> reads wire_dec (wire_bytes a) a;
  wire_consumes : consumes wire_dec;
}.

(** What each primitive appends. *)
Definition u8_bytes (v : Z) : list byte := enc_u8 v enc_new.
Definition u32_bytes (v : Z) : list byte := enc_u32 v enc_new.
Definition u64_bytes (v : Z) : list byte := enc_u64 v enc_new.
Definition blob_bytes (b : list byte) : list byte := enc_bytes b enc_new.
Definition opt_bytes (s : option RString) : list byte := enc_opt_str s enc_new.

Definition str_ok (s : RString) : Prop :=
  utf8_valid s = true /\ Z.of_nat (length s) <= MAX_FIELD.
Definition opt_str_ok (s : option RString) : Prop :=
  match s with None => True | Some v => str_ok v end.
Definition blob_ok (b : list byte) : Prop := Z.of_nat (length b) <= MAX_FIELD.

(** ** Lemmas: readers *)

Lemma reads_ret {A} (a : A) : reads (mret a) [] a.
Proof. intros pre post. simpl. by rewrite Nat.add_0_r. Qed.

Lemma reads_bind {A B} (p : Decoder A) (f : A -> Decoder B) bs bs' a b :
  reads p bs a -> reads (f a) bs' b -> reads (p ≫= f) (bs ++ bs') b.
Proof.
  intros Hp Hf pre post. unfold mbind, Decoder_bind.
  rewrite <- app_assoc, (Hp pre (bs' ++ post)).
  specialize (Hf (pre ++ bs) post). rewrite length_app, <- app_assoc in Hf.
  rewrite Hf, length_app, Nat.add_assoc. done.
Qed.

Lemma reads_bind_nil {A B} (p : Decoder A) (f : A -> Decoder B) bs a b :
  reads p bs a -> reads (f a) [] b -> reads (p ≫= f) bs b.
Proof. intros Hp Hf. rewrite <- (app_nil_r bs). by eapply reads_bind. Qed.

Lemma reads_take n bs : n = Z.of_nat (length bs) -> reads (dec_take n) bs bs.
Proof.
  intros -> pre post. unfold dec_take. simpl.
  rewrite !length_app, Nat2Z.id.
  destruct (Z.ltb_spec (Z.of_nat (length pre + (length bs + length post)))
              (Z.of_nat (length pre) + Z.of_nat (length bs))); [lia|].
  rewrite drop_app_length, take_app_length. done.
Qed.

Lemma reads_uint (p : Decoder Z) n v :
  p = (b ← dec_take (Z.of_nat n); mret (from_le_bytes b)) ->
  0 <= v < 256 ^ Z.of_nat n -> reads p (to_le_bytes n v) v.
Proof.
  intros -> Hv. eapply reads_bind_nil.
  - apply reads_take. by rewrite length_to_le_bytes.
  - rewrite from_to_le_bytes by done. apply reads_ret.
Qed.

Lemma reads_u8 v : is_u8 v -> reads dec_u8 (u8_bytes v) v.
Proof. intros H. apply (reads_uint dec_u8 1); [done|]. exact H. Qed.

Lemma reads_u32 v : is_u32 v -> reads dec_u32 (u32_bytes v) v.
Proof. intros H. by apply reads_uint. Qed.

Lemma reads_u64 v : is_u64 v -> reads dec_u64 (u64_bytes v) v.
Proof. intros H. by apply reads_uint. Qed.

Lemma reads_bytes b : blob_ok b -> reads dec_bytes (blob_bytes b) b.
Proof.
  unfold blob_ok. intros H. eapply reads_bind.
  - apply reads_u32. change MAX_FIELD with 1048576 in H. unfold is_u32. lia.
  - destruct (Z.ltb_spec MAX_FIELD (Z.of_nat (length b))); [lia|]. by apply reads_take.
Qed.

Lemma reads_string s : str_ok s -> reads dec_string (blob_bytes s) s.
Proof.
  intros [Hu Hl]. eapply reads_bind_nil; [by apply reads_bytes|].
  rewrite Hu. apply reads_ret.
Qed.

Lemma reads_opt_string s : opt_str_ok s -> reads dec_opt_string (opt_bytes s) s.
Proof.
  destruct s as [s|]; intros Hs.
  - replace (opt_bytes (Some s)) with (u8_bytes 1 ++ blob_bytes s) by done.
    eapply reads_bind; [apply reads_u8; done|]. cbn [Z.eqb Pos.eqb].
    eapply reads_bind_nil; [by apply reads_string|]. apply reads_ret.
  - eapply reads_bind_nil; [apply reads_u8; done|]. apply reads_ret.
Qed.

(** A length field above [MAX_FIELD] is refused whatever follows it. *)
Lemma dec_bytes_TooLong pre n post :
  is_u32 n -> MAX_FIELD < n ->
  dec_bytes (mkDec (pre ++ u32_bytes n ++ post) (length pre)) = Err TooLong.
Proof.
  intros Hn Hm. unfold dec_bytes, mbind, Decoder_bind.
  rewrite (reads_u32 n Hn pre post). by rewrite (proj2 (Z.ltb_lt _ _) Hm).
Qed.

Lemma reads_repeat {A} (p : Decoder A) (enc : A -> list byte) l :
  Forall (fun a => reads p (enc a) a) l ->
  reads (dec_repeat (length l) p) (concat (map enc l)) l.
Proof.
  induction 1 as [|a l Ha Hl IH]; simpl; [apply reads_ret|].
  eapply reads_bind; [exact Ha|].
  eapply reads_bind_nil; [exact IH|]. apply reads_ret.
Qed.

(** A reader that accounts for a whole buffer leaves nothing behind. *)
Lemma reads_whole {A} (p : Decoder A) bs a :
  reads p bs a -> p (dec_new bs) = Ok (a, mkDec bs (length bs)).
Proof. intros H. specialize (H [] []). by rewrite app_nil_r in H. Qed.

Lemma dec_finish_end bs : dec_finish (mkDec bs (length bs)) = Ok (tt, mkDec bs (length bs)).
Proof.
  unfold dec_finish, dec_remaining. simpl. rewrite decide_True by lia. done.
Qed.

(** ** Lemmas: a decoder never leaves its buffer *)

Lemma consumes_ret {A} (a : A) : consumes (mret a).
Proof. intros d a' d' Hd E. unfold mret, Decoder_ret in E. kv_clean. auto with lia. Qed.

Lemma consumes_err {A} e : consumes (dec_err e : Decoder A).
Proof. intros d a' d' _ E. done. Qed.

Lemma consumes_bind {A B} (p : Decoder A) (f : A -> Decoder B) :
  consumes p -> (forall a, consumes (f a)) -> consumes (p ≫= f).
Proof.
  intros Hp Hf d b d' Hd. unfold mbind, Decoder_bind.
  destruct (p d) as [[a d1]|] eqn:E; [|done].
  intros E2. destruct (Hp _ _ _ Hd E) as [Hb1 Hp1].
  destruct (Hf a d1 b d') as [Hb2 Hp2]; [rewrite Hb1; lia|done|].
  rewrite Hb1 in Hb2, Hp2. split; [done|lia].
Qed.

Lemma consumes_if {A} (c : bool) (p q : Decoder A) :
  consumes p -> consumes q -> consumes (if c then p else q).
Proof. by destruct c. Qed.

Lemma consumes_take n : consumes (dec_take n).
Proof.
  intros d a d' Hd. unfold dec_take.
  destruct (Z.ltb_spec (Z.of_nat (length (d_buf d))) (Z.of_nat (d_pos d) + n)); [done|].
  intros E. injection E as <- <-. simpl. split; [done|lia].
Qed.

Lemma consumes_repeat {A} n (p : Decoder A) : consumes p -> consumes (dec_repeat n p).
Proof.
  intros Hp. induction n; simpl; [apply consumes_ret|].
  apply consumes_bind; [done|]. intros a. apply consumes_bind; [done|].
  intros l. apply consumes_ret.
Qed.

Lemma consumes_finish : consumes dec_finish.
Proof.
  intros d a d' Hd. unfold dec_finish. case_decide; [|done]. intros E. kv_clean.
  split; [done|lia].
Qed.

#[export] Hint Resolve @consumes_ret @consumes_err @consumes_bind @consumes_if
  @consumes_take @consumes_repeat consumes_finish @wire_consumes : kv.

Lemma consumes_u8 : consumes dec_u8.
Proof. apply consumes_bind; auto with kv. Qed.
Lemma consumes_u32 : consumes dec_u32.
Proof. apply consumes_bind; auto with kv. Qed.
Lemma consumes_u64 : consumes dec_u64.
Proof. apply consumes_bind; auto with kv. Qed.
Lemma consumes_bytes : consumes dec_bytes.
Proof. apply consumes_bind; [apply consumes_u32|]. intros n. auto with kv. Qed.
Lemma consumes_string : consumes dec_string.
Proof. apply consumes_bind; [apply consumes_bytes|]. intros n. auto with kv. Qed.
Lemma consumes_opt_string : consumes dec_opt_string.
Proof.
  apply consumes_bind; [apply consumes_u8|]. intros t.
  repeat apply consumes_if; auto with kv.
  apply consumes_bind; [apply consumes_string|auto with kv].
Qed.

#[export] Hint Resolve consumes_u8 consumes_u32 consumes_u64 consumes_bytes
  consumes_string consumes_opt_string : kv.

(** Composite formats: split a decoder into its binds and branches. *)
Ltac consumes_tac :=
  repeat first
    [ apply consumes_if | progress auto with kv nocore
    | apply consumes_bind; [|intros ?] ].

Lemma is_u8_bool b : is_u8 (bool_as_u8 b).
Proof. by destruct b. Qed.

Lemma bool_as_u8_decode b : negb (bool_as_u8 b =? 0) = b.
Proof. by destruct b. Qed.

#[export] Hint Resolve reads_u8 reads_u32 reads_u64 reads_bytes reads_string
  reads_opt_string @reads_ret is_u8_bool @wire_reads : kv.
#[export] Hint Extern 4 (is_u8 _) => (split; reflexivity || lia) : kv.

(** ** Lemmas: encoders only append *)

Lemma enc_u8_app v e : enc_u8 v e = e ++ u8_bytes v.
Proof. done. Qed.
Lemma enc_u32_app v e : enc_u32 v e = e ++ u32_bytes v.
Proof. done. Qed.
Lemma enc_u64_app v e : enc_u64 v e = e ++ u64_bytes v.
Proof. done. Qed.
Lemma enc_bytes_app b e : enc_bytes b e = e ++ blob_bytes b.
Proof. unfold blob_bytes, enc_bytes, enc_u32. by rewrite <- app_assoc. Qed.
Lemma enc_str_app b e : enc_str b e = e ++ blob_bytes b.
Proof. apply enc_bytes_app. Qed.
Lemma enc_opt_str_app s e : enc_opt_str s e = e ++ opt_bytes s.
Proof.
  destruct s as [s|]; [|done]. unfold opt_bytes, enc_opt_str.
  rewrite !enc_str_app, enc_u8_app. by rewrite <- app_assoc.
Qed.

(** Encoding a list element by element. *)
Lemma enc_fold_app {A} (f : A -> Enc -> Enc) (bytes : A -> list byte) l e :
  (forall a e, f a e = e ++ bytes a) ->
  fold_left (fun e a => f a e) l e = e ++ concat (map bytes l).
Proof.
  intros Hf. revert e; induction l as [|a l IH]; simpl; intros e; [by rewrite app_nil_r|].
  by rewrite IH, Hf, app_assoc.
Qed.

Create Rewrite HintDb enc.
#[export] Hint Rewrite enc_u8_app enc_u32_app enc_u64_app enc_bytes_app enc_str_app
  enc_opt_str_app : enc.

Ltac enc_norm := autorewrite with enc; rewrite <- ?app_assoc; rewrite ?app_nil_l.

(** Prove a [reads] goal for a record format: normalise the bytes, then read
    one field at a time. *)
Ltac reads_start :=
  match goal with
  | |- reads _ ?bs _ => rewrite <- (app_nil_r bs)
  end; enc_norm; unfold enc_new; rewrite ?app_nil_l.

Ltac reads_step :=
  eapply reads_bind; [solve [eauto with kv]|cbv beta; cbn [Z.eqb Pos.eqb]; cbv iota].

Ltac reads_tac := reads_start; repeat reads_step; try apply reads_ret.

(** ** Lemmas: what a successful decoder has read *)

(** The bytes between two positions. *)
Definition slice (buf : list byte) (a b : nat) : list byte := take (b - a) (drop a buf).

(** [parses p R]: whenever [p] succeeds, it stays inside its buffer and its
    result is related by [R] to exactly the bytes it went over. *)
Definition parses {A} (p : Decoder A) (R : A -> list byte -> Prop) : Prop :=
  forall d a d', (d_pos d <= length (d_buf d))%nat -> p d = Ok (a, d') ->
    d_buf d' = d_buf d /\ (d_pos d <= d_pos d' <= length (d_buf d))%nat /\
    R a (slice (d_buf d) (d_pos d) (d_pos d')).

Lemma slice_app buf a b c :
  (a <= b <= c)%nat -> slice buf a b ++ slice buf b c = slice buf a c.
Proof.
  intros H. unfold slice.
  replace (drop b buf) with (drop (b - a) (drop a buf)) by (rewrite drop_drop; f_equal; lia).
  replace (c - a)%nat with ((b - a) + (c - b))%nat by lia.
  by rewrite take_take_drop.
Qed.

Lemma slice_nil buf a : slice buf a a = [].
Proof. unfold slice. by rewrite Nat.sub_diag. Qed.

Lemma parses_weaken {A} (p : Decoder A) (R S : A -> list byte -> Prop) :
  parses p R -> (forall a bs, R a bs -> S a bs) -> parses p S.
Proof. intros Hp HRS d a d' Hd E. destruct (Hp _ _ _ Hd E) as (? & ? & ?). auto. Qed.

Lemma parses_ret {A} (a : A) : parses (mret a) (fun b bs => b = a /\ bs = []).
Proof.
  intros d a' d' Hd E. unfold mret, Decoder_ret in E. injection E as <- <-.
  split_and!; auto using slice_nil.
Qed.

Lemma parses_err {A} e (R : A -> list byte -> Prop) : parses (dec_err e) R.
Proof. intros d a d' _ E. done. Qed.

Lemma parses_bind {A B} (p : Decoder A) (f : A -> Decoder B) R S :
  parses p R -> (forall a, parses (f a) (S a)) ->
  parses (p ≫= f) (fun b bs => exists a bs1 bs2, bs = bs1 ++ bs2 /\ R a bs1 /\ S a b bs2).
Proof.
  intros Hp Hf d b d' Hd. unfold mbind, Decoder_bind.
  destruct (p d) as [[a d1]|] eqn:E; [|done]. intros E2.
  destruct (Hp _ _ _ Hd E) as (Hb1 & Hp1 & HR).
  destruct (Hf a d1 b d') as (Hb2 & Hp2 & HS); [rewrite Hb1; lia|done|].
  rewrite Hb1 in *. split_and!; [done|lia|lia|].
  exists a, (slice (d_buf d) (d_pos d) (d_pos d1)), (slice (d_buf d) (d_pos d1) (d_pos d')).
  rewrite slice_app by lia. done.
Qed.

Lemma parses_if {A} (c : bool) (p q : Decoder A) R S :
  parses p R -> parses q S ->
  parses (if c then p else q) (fun a bs => if c then R a bs else S a bs).
Proof. by destruct c. Qed.

Lemma parses_take n :
  0 <= n -> parses (dec_take n) (fun a bs => a = bs /\ Z.of_nat (length bs) = n).
Proof.
  intros Hn d a d' Hd. unfold dec_take.
  destruct (Z.ltb_spec (Z.of_nat (length (d_buf d))) (Z.of_nat (d_pos d) + n)); [done|].
  intros E. injection E as <- <-. simpl. unfold slice.
  replace (d_pos d + Z.to_nat n - d_pos d)%nat with (Z.to_nat n) by lia.
  split_and!; [done|lia|lia|done|]. rewrite length_take, length_drop. lia.
Qed.

Lemma parses_uint n (p : Decoder Z) :
  p = (b ← dec_take (Z.of_nat n); mret (from_le_bytes b)) ->
  parses p (fun v bs => bs = to_le_bytes n v /\ 0 <= v < 256 ^ Z.of_nat n).
Proof.
  intros ->. eapply parses_weaken.
  - apply parses_bind; [apply parses_take; lia|intros b; apply parses_ret].
  - simpl. intros v bs (b & bs1 & bs2 & -> & [-> Hl] & -> & ->). rewrite app_nil_r.
    assert (Hn : length bs1 = n) by lia. rewrite <- Hn, to_from_le_bytes.
    split; [done|]. apply from_le_bytes_range.
Qed.

Lemma parses_u8 : parses dec_u8 (fun v bs => bs = u8_bytes v /\ is_u8 v).
Proof.
  eapply parses_weaken; [by apply (parses_uint 1)|]. intros v bs [-> Hv]. split; [done|exact Hv].
Qed.
Lemma parses_u32 : parses dec_u32 (fun v bs => bs = u32_bytes v /\ is_u32 v).
Proof. by apply (parses_uint 4). Qed.
Lemma parses_u64 : parses dec_u64 (fun v bs => bs = u64_bytes v /\ is_u64 v).
Proof. by apply (parses_uint 8). Qed.

Lemma parses_bytes : parses dec_bytes (fun b bs => bs = blob_bytes b /\ blob_ok b).
Proof.
  intros d b d' Hd. unfold dec_bytes, mbind, Decoder_bind.
  destruct (dec_u32 d) as [[n d1]|] eqn:E1; [|done].
  destruct (parses_u32 _ _ _ Hd E1) as (Hb1 & Hp1 & Hs & Hn).
  destruct (Z.ltb_spec MAX_FIELD n); [done|]. intros E2.
  destruct (parses_take n ltac:(unfold is_u32 in Hn; lia) d1 b d') as (Hb2 & Hp2 & -> & Hl);
    [rewrite Hb1; lia|done|].
  rewrite Hb1 in *. split_and!; [done|lia|lia| |unfold blob_ok; lia].
  rewrite <- (slice_app _ (d_pos d) (d_pos d1) (d_pos d')), Hs, <- Hl by lia. done.
Qed.

Lemma parses_string : parses dec_string (fun s bs => bs = blob_bytes s /\ str_ok s).
Proof.
  eapply parses_weaken.
  - apply parses_bind; [apply parses_bytes|]. intros b.
    apply parses_if; [apply parses_ret|apply (parses_err _ (fun _ _ => False))].
  - simpl. intros s bs (b & bs1 & bs2 & -> & [-> Hok] & Hif).
    destruct (utf8_valid b) eqn:Hu; [|done]. destruct Hif as [-> ->].
    rewrite app_nil_r. done.
Qed.

Lemma parses_opt_string : parses dec_opt_string (fun s bs => bs = opt_bytes s /\ opt_str_ok s).
Proof.
  eapply parses_weaken.
  - apply parses_bind; [apply parses_u8|]. intros t.
    apply parses_if; [apply parses_ret|]. apply parses_if.
    + apply parses_bind; [apply parses_string|]. intros s. apply parses_ret.
    + apply (parses_err _ (fun _ _ => False)).
  - simpl. intros s bs (t & bs1 & bs2 & -> & [-> Ht] & Hif).
    destruct (Z.eqb_spec t 0) as [->|]; [by destruct Hif as [-> ->]|].
    destruct (Z.eqb_spec t 1) as [->|]; [|done].
    destruct Hif as (v & bs3 & bs4 & -> & [-> Hv] & -> & ->). by rewrite app_nil_r.
Qed.

Lemma parses_repeat {A} n (p : Decoder A) (R : A -> list byte -> Prop) :
  parses p R ->
  parses (dec_repeat n p) (fun l bs => length l = n /\
    exists bss, bs = concat bss /\ Forall2 R l bss).
Proof.
  intros Hp. induction n as [|n IH]; simpl.
  - eapply parses_weaken; [apply parses_ret|]. intros l bs [-> ->].
    split; [done|]. by exists [].
  - eapply parses_weaken.
    { apply parses_bind; [exact Hp|]. intros a. apply parses_bind; [exact IH|].
      intros l. apply parses_ret. }
    simpl. intros l bs (a & bs1 & bs2 & -> & HR & l' & bs3 & bs4 & -> & (Hl & bss & -> & HF) & -> & ->).
    split; [simpl; lia|]. exists (bs1 :: bss). rewrite app_nil_r. auto.
Qed.
