(* ===== verification/Crc.v ===== *)
(** * Crc: what the checksum of [kvstore/lib.rs] detects

    CRC-32 as the program computes it is, for inputs of one length, injective in
    any single byte.  Hence the frame survives a round trip and no frame in
    which one byte was altered -- the corruption [simcore/net.rs] injects -- is
    ever accepted. *)
From S2P Require Import Prelude Codec.
From Stdlib.Init Require Import Byte.

Lemma lxor_u_range n a b :
  0 <= n -> 0 <= a < 2 ^ n -> 0 <= b < 2 ^ n -> 0 <= Z.lxor a b < 2 ^ n.
Proof.
  intros Hn Ha Hb.
  assert (H0 : 0 <= Z.lxor a b) by (apply Z.lxor_nonneg; lia).
  split; [done|]. destruct (Z.eq_dec (Z.lxor a b) 0) as [->|Hne]; [lia|].
  apply Z.log2_lt_pow2; [lia|].
  pose proof (Z.log2_lxor a b ltac:(lia) ltac:(lia)).
  assert (Hlog : forall x, 0 <= x < 2 ^ n -> Z.log2 x < n \/ x = 0).
  { intros x Hx. destruct (Z.eq_dec x 0); [by right|left].
    apply Z.log2_lt_pow2; lia. }
  pose proof (Z.log2_nonneg a). pose proof (Z.log2_nonneg b).
  destruct (Hlog a Ha) as [?| ->], (Hlog b Hb) as [?| ->];
    [lia|change (Z.log2 0) with 0 in *; lia..|done].
Qed.

Lemma crc_bit_alt c :
  is_u32 c -> crc_bit c = Z.lxor (c / 2) (if Z.odd c then CRC_POLY else 0).
Proof.
  intros Hc. unfold crc_bit. rewrite Z.shiftr_div_pow2 by lia. change (2 ^ 1) with 2.
  f_equal. change 1 with (Z.ones 1). rewrite Z.land_ones by lia. change (2 ^ 1) with 2.
  rewrite Zmod_odd. by destruct (Z.odd c).
Qed.

Lemma crc_bit_range c : is_u32 c -> is_u32 (crc_bit c).
Proof.
  unfold is_u32. intros Hc. rewrite crc_bit_alt by done.
  apply lxor_u_range; [lia| |destruct (Z.odd c); unfold CRC_POLY; lia].
  split; [apply Z.div_pos; lia|apply Z.div_lt_upper_bound; lia].
Qed.

(** The polynomial has its top bit set, so the top bit of the result tells
    which branch was taken: the step is injective. *)
Lemma crc_bit_top c : is_u32 c -> Z.testbit (crc_bit c) 31 = Z.odd c.
Proof.
  intros Hc. unfold is_u32 in Hc. rewrite crc_bit_alt, Z.lxor_spec by done.
  assert (Hh : Z.testbit (c / 2) 31 = false).
  { rewrite Z.testbit_odd, Z.shiftr_div_pow2, Z.div_div by lia.
    rewrite Z.div_small by lia. done. }
  rewrite Hh. by destruct (Z.odd c).
Qed.

Lemma crc_bit_inj a b : is_u32 a -> is_u32 b -> crc_bit a = crc_bit b -> a = b.
Proof.
  intros Ha Hb E.
  assert (Ho : Z.odd a = Z.odd b) by (rewrite <- !crc_bit_top by done; by rewrite E).
  rewrite !crc_bit_alt, Ho in E by done.
  apply (f_equal (fun x => Z.lxor x (if Z.odd b then CRC_POLY else 0))) in E.
  rewrite !Z.lxor_assoc, Z.lxor_nilpotent, !Z.lxor_0_r in E.
  rewrite (Z.div_mod a 2), (Z.div_mod b 2), !Zmod_odd by lia. by rewrite E, Ho.
Qed.

Lemma crc_bits_range n c : is_u32 c -> is_u32 (Nat.iter n crc_bit c).
Proof. intros Hc. induction n; simpl; [done|]. by apply crc_bit_range. Qed.

Lemma crc_bits_inj n a b :
  is_u32 a -> is_u32 b -> Nat.iter n crc_bit a = Nat.iter n crc_bit b -> a = b.
Proof.
  intros Ha Hb. induction n as [|n IH]; simpl; [done|]. intros E.
  apply IH, crc_bit_inj; auto using crc_bits_range.
Qed.

Lemma lxor_byte_range c b : is_u32 c -> is_u32 (Z.lxor c (byte_to_Z b)).
Proof.
  intros Hc. apply lxor_u_range; [lia|done|]. pose proof (byte_to_Z_range b). lia.
Qed.

Lemma crc_byte_range c b : is_u32 c -> is_u32 (crc_byte c b).
Proof. intros Hc. apply crc_bits_range. by apply lxor_byte_range. Qed.

Lemma lxor_cancel_r a b c : Z.lxor a c = Z.lxor b c -> a = b.
Proof.
  intros E. apply (f_equal (fun x => Z.lxor x c)) in E.
  by rewrite !Z.lxor_assoc, Z.lxor_nilpotent, !Z.lxor_0_r in E.
Qed.

Lemma crc_byte_inj_state a b x :
  is_u32 a -> is_u32 b -> crc_byte a x = crc_byte b x -> a = b.
Proof.
  intros Ha Hb. unfold crc_byte. generalize 8%nat. intros n E.
  apply crc_bits_inj in E; [|by apply lxor_byte_range..].
  by apply lxor_cancel_r in E.
Qed.

Lemma crc_byte_inj_byte c x y : is_u32 c -> crc_byte c x = crc_byte c y -> x = y.
Proof.
  intros Hc. unfold crc_byte. generalize 8%nat. intros n E.
  apply crc_bits_inj in E; [|by apply lxor_byte_range..].
  rewrite (Z.lxor_comm c), (Z.lxor_comm c) in E.
  apply lxor_cancel_r in E. by apply byte_to_Z_inj.
Qed.

Lemma crc_fold_range l c : is_u32 c -> is_u32 (foldl crc_byte c l).
Proof. revert c; induction l; simpl; intros; auto using crc_byte_range. Qed.

Lemma crc_fold_inj l a b :
  is_u32 a -> is_u32 b -> foldl crc_byte a l = foldl crc_byte b l -> a = b.
Proof.
  revert a b; induction l as [|x l IH]; simpl; intros a b Ha Hb E; [done|].
  apply IH in E; [|by apply crc_byte_range..]. by apply crc_byte_inj_state in E.
Qed.

Lemma crc_init_range : is_u32 0xFFFFFFFF.
Proof. done. Qed.

Lemma crc32_range l : is_u32 (crc32 l).
Proof.
  apply lxor_u_range; [lia|by apply crc_fold_range|lia].
Qed.

#[export] Hint Resolve crc32_range : kv.

Lemma crc32_one_byte pre x y post :
  crc32 (pre ++ x :: post) = crc32 (pre ++ y :: post) -> x = y.
Proof.
  unfold crc32. intros E. apply lxor_cancel_r in E.
  rewrite !foldl_app in E. simpl in E.
  assert (Hr : is_u32 (foldl crc_byte 0xFFFFFFFF pre)) by by apply crc_fold_range.
  apply crc_fold_inj in E; [|by apply crc_byte_range..].
  by apply crc_byte_inj_byte in E.
Qed.

Lemma insert_middle {A} (l : list A) i y :
  (i < length l)%nat ->
  exists pre x post, l = pre ++ x :: post /\ length pre = i /\ l !! i = Some x /\
    <[i := y]> l = pre ++ y :: post.
Proof.
  intros Hi. destruct (lookup_lt_is_Some_2 l i Hi) as [x Hx].
  exists (take i l), x, (drop (S i) l).
  assert (Hl : length (take i l) = i) by (rewrite length_take; lia).
  repeat split; [by rewrite take_drop_middle|done|done|].
  rewrite <- (take_drop_middle l i x Hx) at 1.
  rewrite insert_app_r_alt by lia. by rewrite Hl, Nat.sub_diag.
Qed.

(** Unframing a header and a payload. *)
Lemma unframe_split h p :
  length h = 4%nat ->
  unframe (h ++ p) = if crc32 p =? from_le_bytes h then Ok p else Err BadChecksum.
Proof.
  intros Hh. unfold unframe. rewrite length_app, decide_False by lia.
  rewrite <- Hh, take_app_length, drop_app_length. done.
Qed.

(** C-frame: a frame opens to the payload it was built from. *)
Lemma unframe_frame p : unframe (frame p) = Ok p.
Proof.
  unfold frame. rewrite unframe_split by by rewrite length_to_le_bytes.
  rewrite from_to_le_bytes by apply crc32_range. by rewrite Z.eqb_refl.
Qed.

(** What is accepted is a frame: the decoder has no other way to say yes. *)
Lemma unframe_Ok_frame bs p : unframe bs = Ok p -> bs = frame p.
Proof.
  unfold unframe. case_decide; [done|].
  destruct (Z.eqb_spec (crc32 (drop 4 bs)) (from_le_bytes (take 4 bs))) as [E|]; [|done].
  intros [= <-]. unfold frame. rewrite E.
  assert (Hl : length (take 4 bs) = 4%nat) by (rewrite length_take; lia).
  pose proof (to_from_le_bytes (take 4 bs)) as E2. rewrite Hl in E2.
  by rewrite E2, take_drop.
Qed.

Lemma unframe_corrupted (p : list byte) (i : nat) (x y : byte) :
  frame p !! i = Some x -> y <> x ->
  unframe (<[i := y]> (frame p)) = Err BadChecksum.
Proof.
  intros Hx Hne. assert (Hi : (i < length (frame p))%nat) by by eapply lookup_lt_Some.
  assert (Hh : length (to_le_bytes 4 (crc32 p)) = 4%nat) by apply length_to_le_bytes.
  unfold frame in *. destruct (decide (i < 4)%nat) as [Hlt|Hge].
  - rewrite insert_app_l by lia.
    rewrite lookup_app_l in Hx by lia.
    rewrite unframe_split by (by rewrite length_insert).
    destruct (Z.eqb_spec (crc32 p) (from_le_bytes (<[i:=y]> (to_le_bytes 4 (crc32 p)))))
      as [E|]; [|done].
    rewrite <- (from_to_le_bytes 4 (crc32 p)) in E at 1 by apply crc32_range.
    apply from_le_bytes_inj in E; [|by rewrite length_insert].
    rewrite E in Hx. rewrite list_lookup_insert_eq in Hx by lia. congruence.
  - rewrite insert_app_r_alt by lia. rewrite unframe_split by done.
    rewrite from_to_le_bytes by apply crc32_range.
    rewrite lookup_app_r in Hx by lia. rewrite Hh in Hx |- *.
    destruct (insert_middle p (i - 4) y) as (pre & x' & post & Hp & _ & Hx' & Hins);
      [rewrite length_app in Hi; lia|].
    rewrite Hins. rewrite Hx' in Hx. injection Hx as ->.
    destruct (Z.eqb_spec (crc32 (pre ++ y :: post)) (crc32 p)) as [E|]; [|done].
    rewrite Hp in E. apply crc32_one_byte in E. done.
Qed.

(** ** Properties *)

(** A frame in which any one byte, header or payload, was replaced by a
    different byte is refused with [BadChecksum]: the corruption the network
    model injects is always detected at the edge. *)
Theorem frame_detects_corruption (p : list byte) (i : nat) (x y : byte) :
  frame p !! i = Some x -> y <> x ->
  unframe (<[i := y]> (frame p)) = Err BadChecksum.
Proof. apply unframe_corrupted. Qed.

Lemma frame_detects_corruption_witness :
  frame [x01; x02] !! 5%nat = Some x02 /\
  unframe (<[5%nat := x06]> (frame [x01; x02])) = Err BadChecksum.
Proof.
  split; [by vm_compute|].
  apply (frame_detects_corruption [x01; x02] 5 x02 x06); [by vm_compute|done].
Defined.

(** The standard check value of CRC-32/IEEE: "123456789" gives 0xCBF43926. *)
Example crc32_check_value :
  crc32 [x31; x32; x33; x34; x35; x36; x37; x38; x39] = 0xCBF43926.
Proof. by vm_compute. Qed.
