(* ===== verification/LogFormat.v ===== *)
(** * LogFormat: operations, commands and entries of [kvstore/log.rs]

    The data that the replicated log carries, and the part of its wire and disk
    format that encodes one entry. *)
From S2P Require Import Prelude Codec.
From Stdlib.Init Require Import Byte.

Abbreviation NodeId := Z (only parsing).

(** Log indices are 1-based; 0 means "before the beginning". *)
Definition NO_INDEX : Z := 0.

(** A record longer than this is corruption, not data. *)
Definition MAX_RECORD : Z := Z.shiftl 1 20.

Inductive Op : Type :=
| Noop
| Get (key : RString)
| Put (key value : RString)
| Delete (key : RString)
| Cas (key : RString) (expect : option RString) (value : RString)
| SetMembers (members : list NodeId).

#[export] Instance Op_eq_dec : EqDecision Op.
Proof. solve_decision. Defined.

Definition op_key (o : Op) : option RString :=
  match o with
  | Noop | SetMembers _ => None
  | Get key | Put key _ | Delete key | Cas key _ _ => Some key
  end.

Definition op_is_read_only (o : Op) : bool :=
  match o with Get _ => true | _ => false end.

Definition op_encode_into (o : Op) (e : Enc) : Enc :=
  match o with
  | Noop => e |> enc_u8 0
  | Get key => e |> enc_u8 1 |> enc_str key
  | Put key value => e |> enc_u8 2 |> enc_str key |> enc_str value
  | Delete key => e |> enc_u8 3 |> enc_str key
  | Cas key expect value =>
      e |> enc_u8 4 |> enc_str key |> enc_opt_str expect |> enc_str value
  | SetMembers members =>
      fold_left (fun e m => enc_u32 m e) members
        (e |> enc_u8 5 |> enc_u32 (Z.of_nat (length members)))
  end.

Definition op_decode_from : Decoder Op :=
  t ← dec_u8;
  if t =? 0 then mret Noop
  else if t =? 1 then key ← dec_string; mret (Get key)
  else if t =? 2 then key ← dec_string; value ← dec_string; mret (Put key value)
  else if t =? 3 then key ← dec_string; mret (Delete key)
  else if t =? 4 then
    key ← dec_string; expect ← dec_opt_string; value ← dec_string;
    mret (Cas key expect value)
  else if t =? 5 then
    n ← dec_u32;
    if (n =? 0) || (256 <? n) then dec_err TooLong
    else members ← dec_repeat (Z.to_nat n) dec_u32; mret (SetMembers members)
  else dec_err (BadTag t).

(** A client operation with the identity that makes retries idempotent. *)
Record Command : Type := mkCommand { c_client : Z; c_seq : Z; c_op : Op }.

#[export] Instance Command_eq_dec : EqDecision Command.
Proof. solve_decision. Defined.

Definition command_noop : Command := mkCommand U32_MAX 0 Noop.

Definition command_is_noop (c : Command) : bool :=
  match c_op c with Noop => true | _ => false end.

(** The membership this entry installs, if it is a membership change. *)
Definition command_members (c : Command) : option (list NodeId) :=
  match c_op c with SetMembers members => Some members | _ => None end.

Definition command_encode_into (c : Command) (e : Enc) : Enc :=
  e |> enc_u32 (c_client c) |> enc_u64 (c_seq c) |> op_encode_into (c_op c).

Definition command_decode_from : Decoder Command :=
  client ← dec_u32; seq ← dec_u64; op ← op_decode_from; mret (mkCommand client seq op).

Record Entry : Type := mkEntry { e_term : Z; e_index : Z; e_cmd : Command }.

#[export] Instance Entry_eq_dec : EqDecision Entry.
Proof. solve_decision. Defined.

Definition entry_encode_into (en : Entry) (e : Enc) : Enc :=
  e |> enc_u64 (e_term en) |> enc_u64 (e_index en) |> command_encode_into (e_cmd en).

Definition entry_decode_from : Decoder Entry :=
  term ← dec_u64; index ← dec_u64; cmd ← command_decode_from; mret (mkEntry term index cmd).

(** A record: length, checksum, payload. *)
Definition record_of (payload : list byte) : list byte :=
  to_le_bytes 4 (Z.of_nat (length payload)) ++ to_le_bytes 4 (crc32 payload) ++ payload.

(** The full on-disk record, header included. *)
Definition entry_to_record (en : Entry) : list byte :=
  record_of (entry_encode_into en enc_new).

(** ** The values the format can carry *)

Definition op_ok (o : Op) : Prop :=
  match o with
  | Noop => True
  | Get key | Delete key => str_ok key
  | Put key value => str_ok key /\ str_ok value
  | Cas key expect value => str_ok key /\ opt_str_ok expect /\ str_ok value
  | SetMembers members =>
      (0 < length members <= 256)%nat /\ Forall is_u32 members
  end.

Definition command_ok (c : Command) : Prop :=
  is_u32 (c_client c) /\ is_u64 (c_seq c) /\ op_ok (c_op c).

Definition entry_ok (en : Entry) : Prop :=
  is_u64 (e_term en) /\ is_u64 (e_index en) /\ command_ok (e_cmd en).

(** An entry whose payload also fits the bound recovery puts on a record. *)
Definition record_ok (en : Entry) : Prop :=
  entry_ok en /\ Z.of_nat (length (entry_encode_into en enc_new)) <= MAX_RECORD.

Definition op_bytes (o : Op) : list byte := op_encode_into o enc_new.
Definition command_bytes (c : Command) : list byte := command_encode_into c enc_new.
Definition entry_bytes (en : Entry) : list byte := entry_encode_into en enc_new.

#[global] Arguments record_of : simpl never.
#[global] Arguments entry_to_record : simpl never.
#[global] Arguments op_bytes : simpl never.
#[global] Arguments command_bytes : simpl never.
#[global] Arguments entry_bytes : simpl never.

(** ** Lemmas *)

Lemma op_encode_app o e : op_encode_into o e = e ++ op_bytes o.
Proof.
  destruct o; unfold op_bytes; simpl op_encode_into;
    rewrite ?(enc_fold_app enc_u32 u32_bytes) by apply enc_u32_app;
    autorewrite with enc; unfold enc_new; by rewrite <- ?app_assoc.
Qed.
#[export] Hint Rewrite op_encode_app : enc.

Lemma command_encode_app c e : command_encode_into c e = e ++ command_bytes c.
Proof.
  unfold command_bytes, command_encode_into. autorewrite with enc.
  by rewrite <- ?app_assoc.
Qed.
#[export] Hint Rewrite command_encode_app : enc.

Lemma entry_encode_app en e : entry_encode_into en e = e ++ entry_bytes en.
Proof.
  unfold entry_bytes, entry_encode_into. autorewrite with enc.
  by rewrite <- ?app_assoc.
Qed.
#[export] Hint Rewrite entry_encode_app : enc.

Lemma op_reads o : op_ok o -> reads op_decode_from (op_bytes o) o.
Proof.
  intros Hok. unfold op_decode_from, op_bytes.
  destruct o as [|key|key value|key|key expect value|members]; simpl in *; kv_clean;
    [reads_tac..|].
  rewrite (enc_fold_app enc_u32 u32_bytes) by apply enc_u32_app.
  reads_start. reads_step.
  assert (Hn : is_u32 (Z.of_nat (length members))) by (unfold is_u32; lia).
  reads_step.
  destruct (Z.eqb_spec (Z.of_nat (length members)) 0); [lia|].
  destruct (Z.ltb_spec 256 (Z.of_nat (length members))); [lia|]. simpl.
  rewrite Nat2Z.id. eapply reads_bind; [|apply reads_ret].
  apply reads_repeat. eapply Forall_impl; [done|]. auto with kv.
Qed.

Lemma op_consumes : consumes op_decode_from.
Proof. unfold op_decode_from. consumes_tac. Qed.

#[export] Instance op_wire : Wire Op := {|
  wire_enc := op_encode_into; wire_dec := op_decode_from; wire_ok := op_ok;
  wire_bytes := op_bytes; wire_app := op_encode_app; wire_reads := op_reads;
  wire_consumes := op_consumes |}.
#[export] Hint Resolve op_reads op_consumes : kv.

Lemma command_reads c : command_ok c -> reads command_decode_from (command_bytes c) c.
Proof.
  destruct c as [client seq op]. intros (? & ? & ?). simpl in *.
  unfold command_decode_from, command_bytes, command_encode_into. reads_tac.
Qed.

Lemma command_consumes : consumes command_decode_from.
Proof. unfold command_decode_from. consumes_tac. Qed.

#[export] Instance command_wire : Wire Command := {|
  wire_enc := command_encode_into; wire_dec := command_decode_from; wire_ok := command_ok;
  wire_bytes := command_bytes; wire_app := command_encode_app; wire_reads := command_reads;
  wire_consumes := command_consumes |}.
#[export] Hint Resolve command_reads command_consumes : kv.

Lemma entry_reads en : entry_ok en -> reads entry_decode_from (entry_bytes en) en.
Proof.
  destruct en as [term index cmd]. intros (? & ? & ?). simpl in *.
  unfold entry_decode_from, entry_bytes, entry_encode_into. reads_tac.
Qed.

Lemma entry_consumes : consumes entry_decode_from.
Proof. unfold entry_decode_from. consumes_tac. Qed.

#[export] Instance entry_wire : Wire Entry := {|
  wire_enc := entry_encode_into; wire_dec := entry_decode_from; wire_ok := entry_ok;
  wire_bytes := entry_bytes; wire_app := entry_encode_app; wire_reads := entry_reads;
  wire_consumes := entry_consumes |}.
#[export] Hint Resolve entry_reads entry_consumes : kv.

Lemma length_record_of p : length (record_of p) = (8 + length p)%nat.
Proof. unfold record_of. rewrite !length_app, !length_to_le_bytes. lia. Qed.

(** ** The entry format is canonical: only encodings of valid values decode *)

Lemma op_parses : parses op_decode_from (fun o bs => bs = op_bytes o /\ op_ok o).
Proof.
  eapply parses_weaken.
  - apply parses_bind; [apply parses_u8|]. intros t.
    apply parses_if; [apply parses_ret|].
    apply parses_if; [apply parses_bind; [apply parses_string|intros; apply parses_ret]|].
    apply parses_if.
    { apply parses_bind; [apply parses_string|]. intros k.
      apply parses_bind; [apply parses_string|intros; apply parses_ret]. }
    apply parses_if; [apply parses_bind; [apply parses_string|intros; apply parses_ret]|].
    apply parses_if.
    { apply parses_bind; [apply parses_string|]. intros k.
      apply parses_bind; [apply parses_opt_string|]. intros x.
      apply parses_bind; [apply parses_string|intros; apply parses_ret]. }
    apply parses_if; [|apply (parses_err _ (fun _ _ => False))].
    apply parses_bind; [apply parses_u32|]. intros n.
    apply parses_if; [apply (parses_err _ (fun _ _ => False))|].
    apply parses_bind; [apply parses_repeat, parses_u32|]. intros m. apply parses_ret.
  - simpl. intros o bs (t & bs1 & bs2 & -> & [-> Ht] & Hif).
    repeat match type of Hif with
    | if ?a =? ?b then _ else _ => destruct (Z.eqb_spec a b) as [->|]
    end; [by kv_clean| | | | | |done]; kv_clean;
      try (unfold op_bytes; simpl op_encode_into; autorewrite with enc; unfold enc_new;
           rewrite ?app_nil_r, ?app_nil_l, <- ?app_assoc; by auto).
    match goal with H : context [(?n =? 0) || (256 <? ?n)] |- _ =>
      rename n into k; rename H into Hrest end.
    destruct ((k =? 0) || (256 <? k)) eqn:Hn; [done|].
    apply orb_false_iff in Hn as [Hn0%Z.eqb_neq Hn1%Z.ltb_ge].
    destruct Hrest as (ms & bs3 & bs4 & -> & (Hl & bss & -> & HF) & -> & ->).
    match goal with H : is_u32 k |- _ => pose proof H as Hk end. unfold is_u32 in Hk.
    assert (Hc : concat bss = concat (map u32_bytes ms) /\ Forall is_u32 ms).
    { clear -HF. induction HF as [|a b l l' [-> Hu] _ [IH1 IH2]]; simpl; [done|].
      rewrite IH1. auto. }
    destruct Hc as [-> Hu]. unfold op_bytes. simpl op_encode_into.
    rewrite (enc_fold_app enc_u32 u32_bytes) by apply enc_u32_app.
    replace (Z.of_nat (length ms)) with k by lia.
    rewrite app_nil_r, enc_u32_app, <- app_assoc. split; [done|]. simpl. split; [lia|done].
Qed.

Lemma command_parses :
  parses command_decode_from (fun c bs => bs = command_bytes c /\ command_ok c).
Proof.
  eapply parses_weaken.
  - apply parses_bind; [apply parses_u32|]. intros client.
    apply parses_bind; [apply parses_u64|]. intros seq.
    apply parses_bind; [apply op_parses|]. intros op. apply parses_ret.
  - simpl. intros c bs H. kv_clean. unfold command_bytes, command_encode_into, command_ok.
    simpl. autorewrite with enc. rewrite app_nil_r, <- !app_assoc. done.
Qed.

Lemma entry_parses : parses entry_decode_from (fun e bs => bs = entry_bytes e /\ entry_ok e).
Proof.
  eapply parses_weaken.
  - apply parses_bind; [apply parses_u64|]. intros term.
    apply parses_bind; [apply parses_u64|]. intros index.
    apply parses_bind; [apply command_parses|]. intros cmd. apply parses_ret.
  - simpl. intros c bs H. kv_clean. unfold entry_bytes, entry_encode_into, entry_ok.
    simpl. autorewrite with enc. rewrite app_nil_r, <- !app_assoc. done.
Qed.
