(* ===== verification/RaftLog.v ===== *)
(** * RaftLog: the in-memory replicated log of [kvstore/log.rs]

    [RaftLog] with every method of the source.  Methods that [assert!] or index
    a vector return an [option], [None] being the panic.  Lengths and byte
    offsets ([usize]) are [nat]; indices and terms ([u64]) are [Z]. *)
From S2P Require Import Prelude Codec LogFormat.

Record RaftLog : Type := mkRaftLog {
  l_entries : list Entry;
  (** Byte offset of each entry's record within the log region. *)
  l_offsets : list nat;
  l_end : nat;
  (** Last index covered by the snapshot, and its term. *)
  l_snapshot_index : Z;
  l_snapshot_term : Z;
}.

Definition log_new : RaftLog := mkRaftLog [] [] 0 0 0.

(** Lowest index still held as an entry. *)
Definition log_first_index (l : RaftLog) : Z := l_snapshot_index l + 1.

Definition log_last_index (l : RaftLog) : Z :=
  from_option e_index (l_snapshot_index l) (last (l_entries l)).

Definition log_last_term (l : RaftLog) : Z :=
  from_option e_term (l_snapshot_term l) (last (l_entries l)).

Definition log_is_empty (l : RaftLog) : bool :=
  match l_entries l with [] => true | _ => false end.

Definition log_len (l : RaftLog) : nat := length (l_entries l).

Definition log_get (l : RaftLog) (index : Z) : option Entry :=
  if (index <? log_first_index l) || (log_last_index l <? index) then None
  else l_entries l !! Z.to_nat (index - log_first_index l).

(** Term of the entry at [index], or [None] if the log cannot say. *)
Definition log_term_at (l : RaftLog) (index : Z) : option Z :=
  if index =? NO_INDEX then Some 0
  else if index =? l_snapshot_index l then Some (l_snapshot_term l)
  else e_term <$> log_get l index.

(** Raft's log matching check. *)
Definition log_matches (l : RaftLog) (index term : Z) : bool :=
  bool_decide (log_term_at l index = Some term).

(** [append]: the two [assert!]s, then the three pushes. *)
Definition log_append (l : RaftLog) (entry : Entry) : option RaftLog :=
  if negb (e_index entry =? log_last_index l + 1) then None
  else if e_term entry <? log_last_term l then None
  else
    let len := length (entry_to_record entry) in
    Some (mkRaftLog (l_entries l ++ [entry]) (l_offsets l ++ [l_end l]) (l_end l + len)
            (l_snapshot_index l) (l_snapshot_term l)).

Fixpoint log_append_all (l : RaftLog) (es : list Entry) : option RaftLog :=
  match es with
  | [] => Some l
  | e :: es => l' ← log_append l e; log_append_all l' es
  end.

(** A log that begins after a snapshot at [(index, term)]. *)
Definition log_from_snapshot (index term : Z) (entries : list Entry) : option RaftLog :=
  log_append_all (mkRaftLog [] [] 0 index term) entries.

Definition log_from_entries (entries : list Entry) : option RaftLog :=
  log_from_snapshot 0 0 entries.

(** [from_parts]; its two [debug_assert!]s are [log_wf] below. *)
Definition log_from_parts (snapshot_index snapshot_term : Z) (entries : list Entry)
    (offsets : list nat) (fin : nat) : RaftLog :=
  mkRaftLog entries offsets fin snapshot_index snapshot_term.

(** Discard every entry up to and including [index]. *)
Definition log_compact_to (l : RaftLog) (index term : Z) : RaftLog :=
  if (index <=? l_snapshot_index l) || (log_last_index l <? index) then l
  else
    let drop_count := Z.to_nat (index - l_snapshot_index l) in
    mkRaftLog (drop drop_count (l_entries l)) (drop drop_count (l_offsets l)) (l_end l)
      index term.

(** [is_well_formed]: contiguous indices, terms that never decrease. *)
Fixpoint contiguous_from (index : Z) (es : list Entry) : bool :=
  match es with
  | [] => true
  | e :: es => (e_index e =? index) && contiguous_from (index + 1) es
  end.

Fixpoint terms_ascend (es : list Entry) : bool :=
  match es with
  | a :: ((b :: _) as es') => (e_term a <=? e_term b) && terms_ascend es'
  | _ => true
  end.

Definition log_is_well_formed (l : RaftLog) : bool :=
  contiguous_from (l_snapshot_index l + 1) (l_entries l) && terms_ascend (l_entries l).

(** Discard [index] and everything after it; never cuts into the snapshot. *)
Definition log_truncate_from (l : RaftLog) (index : Z) : option RaftLog :=
  let index := Z.max index (log_first_index l) in
  if index <=? log_last_index l then
    let i := Z.to_nat (index - log_first_index l) in
    fin ← l_offsets l !! i;
    Some (mkRaftLog (take i (l_entries l)) (take i (l_offsets l)) fin
            (l_snapshot_index l) (l_snapshot_term l))
  else Some l.

(** Up to [max] entries starting at [index]. *)
Definition log_slice_from (l : RaftLog) (index : Z) (max : nat) : list Entry :=
  if (index <? log_first_index l) || (log_last_index l <? index) then []
  else
    let start := Z.to_nat (index - log_first_index l) in
    let fin := Nat.min (start + max) (length (l_entries l)) in
    take (fin - start) (drop start (l_entries l)).

(** The election restriction. *)
Definition log_is_up_to_date (l : RaftLog) (cand_last_index cand_last_term : Z) : bool :=
  let my_index := log_last_index l in
  let my_term := log_last_term l in
  (my_term <? cand_last_term)
  || ((cand_last_term =? my_term) && (my_index <=? cand_last_index)).

(** [slice::partition_point]: the length of the prefix on which the predicate
    holds (the standard library leaves unpartitioned slices unspecified). *)
Fixpoint partition_point {A} (p : A -> bool) (l : list A) : nat :=
  match l with
  | [] => 0
  | a :: l => if p a then S (partition_point p l) else 0
  end.

(** Highest index whose entry was created in term [term] or earlier. *)
Definition log_last_index_with_term_at_most (l : RaftLog) (term : Z) : Z :=
  l_snapshot_index l
  + Z.of_nat (partition_point (fun e => e_term e <=? term) (l_entries l)).

Definition log_byte_len (l : RaftLog) : nat := l_end l.

(** Byte offset at which the record for [index] begins. *)
Definition log_byte_offset_of (l : RaftLog) (index : Z) : nat :=
  if index <? log_first_index l then 0%nat
  else default (l_end l) (l_offsets l !! Z.to_nat (index - log_first_index l)).

(** ** The invariant *)

(** Records lie back to back: each starts where the one before it ends, and the
    last ends at [fin]. *)
Fixpoint layout (es : list Entry) (offs : list nat) (fin : nat) : Prop :=
  match es, offs with
  | [], [] => True
  | e :: es', o :: os' =>
      hd fin os' = (o + length (entry_to_record e))%nat /\ layout es' os' fin
  | _, _ => False
  end.

Record log_wf (l : RaftLog) : Prop := {
  wf_contiguous : contiguous_from (l_snapshot_index l + 1) (l_entries l) = true;
  wf_terms : terms_ascend (l_entries l) = true;
  wf_layout : layout (l_entries l) (l_offsets l) (l_end l);
}.

(** No entry is older than the snapshot below it. *)
Definition log_anchored (l : RaftLog) : Prop :=
  Forall (fun e => l_snapshot_term l <= e_term e) (l_entries l).

(** ** Lemmas on contiguous and ascending runs of entries *)

Lemma contiguous_lookup base es i e :
  contiguous_from base es = true -> es !! i = Some e -> e_index e = base + Z.of_nat i.
Proof.
  revert base i; induction es as [|a es IH]; intros base i; [done|].
  simpl. intros [Ha Hc]%andb_true_iff Hl. apply Z.eqb_eq in Ha.
  destruct i as [|i]; simpl in Hl; [injection Hl as <-; lia|].
  rewrite (IH (base + 1) i) by done. lia.
Qed.

Lemma contiguous_app base es es' :
  contiguous_from base (es ++ es')
  = contiguous_from base es && contiguous_from (base + Z.of_nat (length es)) es'.
Proof.
  revert base; induction es as [|a es IH]; intros base; simpl length.
  - simpl. f_equal. lia.
  - simpl. rewrite IH, andb_assoc. do 2 f_equal. lia.
Qed.

Lemma terms_ascend_cons a es :
  terms_ascend (a :: es) = true <->
  Forall (fun e => e_term a <= e_term e) es /\ terms_ascend es = true.
Proof.
  revert a; induction es as [|b es IH]; intros a; [simpl; naive_solver|].
  change (terms_ascend (a :: b :: es))
    with ((e_term a <=? e_term b) && terms_ascend (b :: es)).
  rewrite andb_true_iff, Z.leb_le. rewrite IH, Forall_cons.
  split; [|naive_solver]. intros (? & ? & ?). split_and!; try done.
  eapply Forall_impl; [done|]. simpl. lia.
Qed.

Lemma terms_ascend_app es es' :
  terms_ascend (es ++ es') = true <->
  terms_ascend es = true /\ terms_ascend es' = true /\
  Forall (fun a => Forall (fun b => e_term a <= e_term b) es') es.
Proof.
  induction es as [|a es IH]; [simpl; naive_solver|].
  rewrite <- app_comm_cons, !terms_ascend_cons, IH, Forall_app, Forall_cons. naive_solver.
Qed.

Lemma last_app_singleton {A} (l : list A) x : last (l ++ [x]) = Some x.
Proof. apply last_snoc. Qed.

Lemma layout_snoc es offs fin e :
  layout es offs fin ->
  layout (es ++ [e]) (offs ++ [fin]) (fin + length (entry_to_record e))%nat.
Proof.
  revert offs; induction es as [|a es IH]; intros [|o offs]; simpl; [done..|].
  intros [Hh Hl]. split; [|by apply IH].
  destruct offs; simpl in *; [|done]. destruct es; [done|contradiction].
Qed.

Lemma layout_length es offs fin : layout es offs fin -> length offs = length es.
Proof.
  revert offs; induction es as [|a es IH]; intros [|o offs]; simpl; try done.
  intros [_ H]. f_equal. eauto.
Qed.

Lemma layout_drop n es offs fin : layout es offs fin -> layout (drop n es) (drop n offs) fin.
Proof.
  revert es offs; induction n as [|n IH]; intros [|a es] [|o offs]; simpl; try done.
  intros [_ H]. auto.
Qed.

Lemma layout_take n es offs fin o :
  layout es offs fin -> offs !! n = Some o -> layout (take n es) (take n offs) o.
Proof.
  revert es offs; induction n as [|n IH]; intros [|a es] [|b offs]; simpl; try done.
  intros [Hh Hl] Ho. split; [|by apply IH].
  destruct n, offs; simpl in *; congruence.
Qed.

(** ** Lemmas: reading a well-formed log *)

Section Wf.
Context (l : RaftLog) (Hwf : log_wf l).

Lemma wf_last_index :
  log_last_index l = l_snapshot_index l + Z.of_nat (length (l_entries l)).
Proof.
  unfold log_last_index. destruct (last (l_entries l)) as [e|] eqn:E; simpl.
  - rewrite last_lookup in E. pose proof (lookup_lt_Some _ _ _ E).
    rewrite (contiguous_lookup _ _ _ _ (wf_contiguous l Hwf) E). lia.
  - apply last_None in E. rewrite E. simpl. lia.
Qed.

Lemma wf_offsets_length : length (l_offsets l) = length (l_entries l).
Proof. by eapply layout_length, wf_layout. Qed.

Lemma wf_get i :
  log_get l i
  = if i <=? l_snapshot_index l then None
    else l_entries l !! Z.to_nat (i - log_first_index l).
Proof.
  unfold log_get. rewrite wf_last_index. unfold log_first_index.
  destruct (Z.leb_spec i (l_snapshot_index l)), (Z.ltb_spec i (l_snapshot_index l + 1));
    simpl; try lia; [done|].
  case_match eqn:E; [|done]. symmetry. apply lookup_ge_None_2.
  apply Z.ltb_lt in E. lia.
Qed.

Lemma wf_get_index i e : log_get l i = Some e -> e_index e = i.
Proof.
  rewrite wf_get. destruct (Z.leb_spec i (l_snapshot_index l)); [done|].
  intros E. rewrite (contiguous_lookup _ _ _ _ (wf_contiguous l Hwf) E).
  unfold log_first_index. lia.
Qed.

Lemma wf_get_is_Some i :
  is_Some (log_get l i) <-> l_snapshot_index l < i <= log_last_index l.
Proof.
  rewrite wf_get, wf_last_index. unfold log_first_index.
  destruct (Z.leb_spec i (l_snapshot_index l)).
  - split; [by intros [? [=]]|lia].
  - rewrite lookup_lt_is_Some. lia.
Qed.

Lemma wf_get_In i e : log_get l i = Some e -> In e (l_entries l).
Proof.
  unfold log_get. case_match; [done|]. intros E. apply list_elem_of_In.
  by eapply list_elem_of_lookup_2.
Qed.

Lemma wf_last_term_ge i e : log_get l i = Some e -> e_term e <= log_last_term l.
Proof.
  rewrite wf_get. case_match; [done|]. intros E. unfold log_last_term.
  destruct (last (l_entries l)) as [z|] eqn:Ez; simpl.
  - rewrite last_lookup in Ez.
    pose proof (wf_terms l Hwf) as Ht.
    destruct (decide (Z.to_nat (i - log_first_index l) = pred (length (l_entries l)))) as [Hi|Hi];
      [rewrite Hi in E; replace z with e by congruence; lia|].
    pose proof (lookup_lt_Some _ _ _ E).
    rewrite <- (take_drop_middle _ _ _ E) in Ht.
    apply terms_ascend_app in Ht as (_ & Ht & _).
    apply terms_ascend_cons in Ht as [Ht _]. rewrite Forall_forall in Ht.
    apply Ht. eapply (list_elem_of_lookup_2 _ (pred (length (l_entries l)) - S (Z.to_nat (i - log_first_index l)))).
    rewrite lookup_drop. rewrite <- Ez. f_equal. lia.
  - apply last_None in Ez. by rewrite Ez in E.
Qed.

Lemma wf_term_at_last :
  log_last_index l <> 0 -> log_term_at l (log_last_index l) = Some (log_last_term l).
Proof.
  intros Hne. unfold log_term_at, NO_INDEX.
  destruct (Z.eqb_spec (log_last_index l) 0); [lia|].
  rewrite wf_get, wf_last_index. unfold log_first_index, log_last_term.
  remember (length (l_entries l)) as k eqn:Hk.
  destruct (Z.eqb_spec (l_snapshot_index l + Z.of_nat k) (l_snapshot_index l)) as [E|E].
  - by destruct (l_entries l); simpl in *; [|lia].
  - destruct (Z.leb_spec (l_snapshot_index l + Z.of_nat k) (l_snapshot_index l)); [lia|].
    rewrite last_lookup. rewrite <- Hk. replace (Z.to_nat _) with (pred k) by lia.
    destruct (l_entries l !! pred k) eqn:E2; [done|].
    apply lookup_ge_None in E2. lia.
Qed.

Lemma anchored_last : log_anchored l -> l_snapshot_term l <= log_last_term l.
Proof.
  unfold log_anchored, log_last_term. rewrite Forall_forall. intros Ha.
  destruct (last (l_entries l)) as [z|] eqn:Ez; simpl; [|lia].
  by apply Ha, last_Some_elem_of.
Qed.

End Wf.

(** ** Lemmas: the operations on a well-formed log *)

Lemma log_append_Some l e l' :
  log_append l e = Some l' <->
  e_index e = log_last_index l + 1 /\ log_last_term l <= e_term e /\
  l' = mkRaftLog (l_entries l ++ [e]) (l_offsets l ++ [l_end l])
         (l_end l + length (entry_to_record e)) (l_snapshot_index l) (l_snapshot_term l).
Proof.
  unfold log_append.
  destruct (Z.eqb_spec (e_index e) (log_last_index l + 1)); simpl;
    destruct (Z.ltb_spec (e_term e) (log_last_term l)); naive_solver lia.
Qed.

Lemma log_append_wf l e l' : log_wf l -> log_append l e = Some l' -> log_wf l'.
Proof.
  intros Hwf (Hi & Ht & ->)%log_append_Some.
  rewrite (wf_last_index l Hwf) in Hi. split; simpl.
  - rewrite contiguous_app, (wf_contiguous l Hwf). simpl.
    rewrite andb_true_r. apply Z.eqb_eq. lia.
  - apply terms_ascend_app. split_and!; [apply Hwf|done|].
    apply Forall_forall. intros a Ha. apply Forall_singleton.
    apply list_elem_of_lookup_1 in Ha as [i Hia].
    transitivity (log_last_term l); [|done].
    eapply (wf_last_term_ge l Hwf (log_first_index l + Z.of_nat i)).
    rewrite (wf_get l Hwf). unfold log_first_index.
    destruct (Z.leb_spec (l_snapshot_index l + 1 + Z.of_nat i) (l_snapshot_index l)); [lia|].
    rewrite <- Hia. f_equal. lia.
  - apply layout_snoc, Hwf.
Qed.

Lemma log_append_anchored l e l' :
  log_anchored l -> log_append l e = Some l' -> log_anchored l'.
Proof.
  intros Ha (_ & Ht & ->)%log_append_Some. unfold log_anchored. simpl.
  apply Forall_app. split; [done|]. apply Forall_singleton.
  pose proof (anchored_last l Ha). lia.
Qed.

Lemma log_append_facts l e l' :
  log_append l e = Some l' ->
  log_last_index l' = e_index e /\ log_last_term l' = e_term e /\
  l_snapshot_index l' = l_snapshot_index l /\ l_snapshot_term l' = l_snapshot_term l /\
  l_entries l' = l_entries l ++ [e].
Proof.
  intros (Hi & Ht & ->)%log_append_Some. unfold log_last_index, log_last_term. simpl.
  rewrite last_app_singleton. done.
Qed.

Lemma log_append_all_wf es l l' : log_wf l -> log_append_all l es = Some l' -> log_wf l'.
Proof.
  revert l; induction es as [|e es IH]; simpl; intros l Hwf E; [by simplify_eq|].
  destruct (log_append l e) as [l1|] eqn:E1; [|done]. simpl in E.
  eapply IH; [|done]. by eapply log_append_wf.
Qed.

Lemma log_append_all_facts es l l' :
  log_append_all l es = Some l' ->
  l_entries l' = l_entries l ++ es /\
  l_snapshot_index l' = l_snapshot_index l /\ l_snapshot_term l' = l_snapshot_term l.
Proof.
  revert l; induction es as [|e es IH]; simpl; intros l E.
  - simplify_eq. by rewrite app_nil_r.
  - destruct (log_append l e) as [l1|] eqn:E1; [|done]. simpl in E.
    apply log_append_facts in E1 as (_ & _ & Hs & Hst & He).
    destruct (IH _ E) as (IHe & IHs & IHst). rewrite He, <- app_assoc in IHe.
    rewrite Hs in IHs. rewrite Hst in IHst. done.
Qed.

(** When [append] in sequence does not panic. *)
Lemma log_append_all_total es l :
  log_wf l -> contiguous_from (log_last_index l + 1) es = true ->
  terms_ascend es = true -> Forall (fun e => log_last_term l <= e_term e) es ->
  is_Some (log_append_all l es).
Proof.
  revert l; induction es as [|e es IH]; simpl log_append_all; intros l Hwf Hc Ht Hl; [eauto|].
  simpl in Hc. apply andb_true_iff in Hc as [He Hc]. apply Z.eqb_eq in He.
  apply terms_ascend_cons in Ht as [Hte Ht]. apply Forall_cons in Hl as [Hle Hl].
  destruct (log_append l e) as [l1|] eqn:E.
  - simpl. pose proof (log_append_facts _ _ _ E) as (Hi1 & Ht1 & _).
    apply IH; [by eapply log_append_wf| |done|by rewrite Ht1].
    rewrite Hi1, He. done.
  - unfold log_append in E. rewrite He, Z.eqb_refl in E. simpl in E.
    destruct (Z.ltb_spec (e_term e) (log_last_term l)); [lia|done].
Qed.

Lemma log_empty_wf index term fin : log_wf (mkRaftLog [] [] fin index term).
Proof. split; simpl; auto. Qed.

Lemma log_truncate_total l i : log_wf l -> is_Some (log_truncate_from l i).
Proof.
  intros Hwf. unfold log_truncate_from.
  destruct (Z.leb_spec (Z.max i (log_first_index l)) (log_last_index l)) as [H|]; [|eauto].
  rewrite (wf_last_index l Hwf) in H. unfold log_first_index in *.
  destruct (lookup_lt_is_Some_2 (l_offsets l)
    (Z.to_nat (Z.max i (l_snapshot_index l + 1) - (l_snapshot_index l + 1)))) as [o Ho].
  { rewrite (wf_offsets_length l Hwf). lia. }
  rewrite Ho. simpl. eauto.
Qed.

Lemma log_truncate_wf l i l' : log_wf l -> log_truncate_from l i = Some l' -> log_wf l'.
Proof.
  intros Hwf. unfold log_truncate_from. case_match; [|by intros [= <-]].
  intros E. destruct (l_offsets l !! _) as [o|] eqn:Ho; [|done]. simpl in E.
  injection E as <-. split; simpl.
  - pose proof (wf_contiguous l Hwf) as Hc.
    rewrite <- (take_drop (Z.to_nat (Z.max i (log_first_index l) - log_first_index l)) (l_entries l)) in Hc.
    rewrite contiguous_app in Hc. by apply andb_true_iff in Hc as [? _].
  - pose proof (wf_terms l Hwf) as Ht.
    rewrite <- (take_drop (Z.to_nat (Z.max i (log_first_index l) - log_first_index l)) (l_entries l)) in Ht.
    by apply terms_ascend_app in Ht as [? _].
  - eapply layout_take; [apply Hwf|done].
Qed.

Lemma log_truncate_facts l i l' :
  log_wf l -> log_truncate_from l i = Some l' ->
  l_snapshot_index l' = l_snapshot_index l /\ l_snapshot_term l' = l_snapshot_term l /\
  log_last_index l' = Z.min (log_last_index l) (Z.max (i - 1) (l_snapshot_index l)) /\
  l_entries l' = take (Z.to_nat (i - log_first_index l)) (l_entries l).
Proof.
  intros Hwf E. pose proof (log_truncate_wf _ _ _ Hwf E) as Hwf'.
  rewrite (wf_last_index l' Hwf'), (wf_last_index l Hwf). revert E.
  unfold log_truncate_from, log_first_index. rewrite (wf_last_index l Hwf).
  case_match eqn:Hc.
  - intros E. destruct (l_offsets l !! _) as [o|] eqn:Ho; [|done]. simpl in E.
    injection E as <-. simpl. rewrite length_take.
    split_and!; [done|done|lia|f_equal; lia].
  - intros [= <-]. split_and!; [done|done|lia|]. rewrite take_ge; [done|lia].
Qed.

Lemma log_truncate_anchored l i l' :
  log_anchored l -> log_truncate_from l i = Some l' -> log_anchored l'.
Proof.
  intros Ha. unfold log_truncate_from. case_match; [|by intros [= <-]].
  destruct (l_offsets l !! _) as [o|]; [|done]. simpl. intros [= <-].
  apply Forall_take, Ha.
Qed.

Lemma log_compact_wf l i t : log_wf l -> log_wf (log_compact_to l i t).
Proof.
  intros Hwf. unfold log_compact_to. case_match eqn:Hc; [done|].
  apply orb_false_iff in Hc as [Hc1 Hc2]. apply Z.leb_gt in Hc1. apply Z.ltb_ge in Hc2.
  set (n := Z.to_nat (i - l_snapshot_index l)).
  pose proof (wf_last_index l Hwf) as Hlast.
  assert (Hn : (n <= length (l_entries l))%nat) by (unfold n; lia).
  split; simpl.
  - pose proof (wf_contiguous l Hwf) as Hk.
    rewrite <- (take_drop n (l_entries l)), contiguous_app in Hk.
    apply andb_true_iff in Hk as [_ Hk]. rewrite length_take, Nat.min_l in Hk by done.
    rewrite <- Hk. f_equal. unfold n. lia.
  - pose proof (wf_terms l Hwf) as Ht. rewrite <- (take_drop n (l_entries l)) in Ht.
    by apply terms_ascend_app in Ht as (_ & ? & _).
  - apply layout_drop, Hwf.
Qed.

(** Compaction at the term the log holds keeps entries above their snapshot. *)
Lemma log_compact_anchored l i t :
  log_wf l -> log_anchored l -> log_term_at l i = Some t -> 0 < i ->
  log_anchored (log_compact_to l i t).
Proof.
  intros Hwf Ha Hti Hi. unfold log_compact_to. case_match eqn:Hc; [done|].
  apply orb_false_iff in Hc as [Hc1 Hc2]. apply Z.leb_gt in Hc1. apply Z.ltb_ge in Hc2.
  unfold log_anchored. simpl. unfold log_term_at, NO_INDEX in Hti.
  destruct (Z.eqb_spec i 0); [lia|]. destruct (Z.eqb_spec i (l_snapshot_index l)); [lia|].
  apply fmap_Some in Hti as (e & He & ->). rewrite (wf_get l Hwf) in He.
  destruct (Z.leb_spec i (l_snapshot_index l)); [lia|]. unfold log_first_index in He.
  pose proof (wf_terms l Hwf) as Ht.
  rewrite <- (take_drop_middle _ _ _ He) in Ht.
  apply terms_ascend_app in Ht as (_ & Ht & _). apply terms_ascend_cons in Ht as [Ht _].
  replace (Z.to_nat (i - l_snapshot_index l))
    with (S (Z.to_nat (i - (l_snapshot_index l + 1)))) by lia. done.
Qed.

Lemma log_compact_last_index l i t :
  log_wf l -> log_last_index (log_compact_to l i t) = log_last_index l.
Proof.
  intros Hwf. unfold log_compact_to. case_match eqn:Hc; [done|].
  apply orb_false_iff in Hc as [Hc1 Hc2]. apply Z.leb_gt in Hc1. apply Z.ltb_ge in Hc2.
  pose proof (wf_last_index l Hwf) as Hlast.
  unfold log_last_index at 1. simpl.
  destruct (decide (Z.to_nat (i - l_snapshot_index l) < length (l_entries l))%nat) as [Hlt|Hge].
  - unfold log_last_index. rewrite !last_lookup, lookup_drop, length_drop.
    replace (_ + pred _)%nat with (pred (length (l_entries l))) by lia.
    destruct (l_entries l !! pred (length (l_entries l))) eqn:E; [done|].
    apply lookup_ge_None in E. lia.
  - rewrite drop_ge by lia. simpl. lia.
Qed.

Lemma layout_lookup_S es offs fin i o e :
  layout es offs fin -> offs !! i = Some o -> es !! i = Some e ->
  default fin (offs !! S i) = (o + length (entry_to_record e))%nat.
Proof.
  revert offs i; induction es as [|a es IH]; intros [|b offs] i; simpl; try done.
  intros [Hh Hl] Ho He. destruct i as [|i]; simpl in *; simplify_eq.
  - rewrite <- Hh. by destruct offs.
  - by apply IH.
Qed.

Lemma log_truncate_end l i l' :
  log_truncate_from l i = Some l' -> log_wf l ->
  l_end l' = log_byte_offset_of l (Z.max i (log_first_index l)).
Proof.
  intros E Hwf. revert E. unfold log_truncate_from, log_byte_offset_of.
  destruct (Z.ltb_spec (Z.max i (log_first_index l)) (log_first_index l)); [lia|].
  case_match eqn:Hc.
  - intros E. destruct (l_offsets l !! _) as [o|] eqn:Ho; [|done]. simpl in E.
    by injection E as <-.
  - intros [= <-]. apply Z.leb_gt in Hc. rewrite (wf_last_index l Hwf) in Hc.
    rewrite lookup_ge_None_2; [done|]. rewrite (wf_offsets_length l Hwf).
    unfold log_first_index in *. lia.
Qed.

Lemma partition_point_sorted (es : list Entry) t i e :
  terms_ascend es = true -> es !! i = Some e ->
  e_term e <= t <-> (i < partition_point (fun e => (e_term e <=? t)%Z) es)%nat.
Proof.
  revert i; induction es as [|a es IH]; intros i Ht Hi; [done|].
  apply terms_ascend_cons in Ht as [Ha Ht]. simpl.
  destruct (Z.leb_spec (e_term a) t) as [Hle|Hgt].
  - destruct i as [|i]; simpl in Hi; simplify_eq; [lia|].
    rewrite (IH i) by done. lia.
  - split; [|lia]. destruct i as [|i]; simpl in Hi; simplify_eq; [lia|].
    rewrite Forall_forall in Ha. pose proof (Ha e ltac:(by eapply list_elem_of_lookup_2)). lia.
Qed.

Lemma wf_get_app l e l' j :
  log_wf l -> log_append l e = Some l' ->
  log_get l' j = if j =? e_index e then Some e else log_get l j.
Proof.
  intros Hwf E. pose proof (log_append_wf _ _ _ Hwf E) as Hwf'.
  pose proof (log_append_facts _ _ _ E) as (Hl & _ & Hs & _ & He).
  apply log_append_Some in E as (Hi & _ & _).
  rewrite (wf_last_index l Hwf) in Hi.
  rewrite (wf_get l' Hwf'), (wf_get l Hwf), Hs, He. unfold log_first_index. rewrite Hs.
  destruct (Z.eqb_spec j (e_index e)) as [->|Hne].
  - destruct (Z.leb_spec (e_index e) (l_snapshot_index l)); [lia|].
    rewrite lookup_app_r by lia. rewrite Hi.
    replace (_ - _)%nat with 0%nat by lia. done.
  - destruct (Z.leb_spec j (l_snapshot_index l)); [done|].
    destruct (decide (Z.to_nat (j - (l_snapshot_index l + 1)) < length (l_entries l))%nat).
    + by rewrite lookup_app_l.
    + rewrite !lookup_ge_None_2; [done|lia|]. rewrite length_app. simpl. lia.
Qed.

(** ** Properties *)

(** Appending the next entry of the log, at a term not below its last, never
    panics: the result is well formed, holds the entry at its index, agrees
    with the old log everywhere else, and the record goes where the region
    ended. *)
Theorem log_append_correct (l : RaftLog) (e : Entry) :
  log_wf l -> e_index e = log_last_index l + 1 -> log_last_term l <= e_term e ->
  exists l', log_append l e = Some l' /\ log_wf l' /\
    log_last_index l' = e_index e /\ log_last_term l' = e_term e /\
    (forall j, log_get l' j = if j =? e_index e then Some e else log_get l j) /\
    log_byte_offset_of l' (e_index e) = log_byte_len l /\
    log_byte_len l' = (log_byte_len l + length (entry_to_record e))%nat.
Proof.
  intros Hwf Hi Ht. destruct (log_append l e) as [l'|] eqn:E.
  2:{ exfalso. assert (H : is_Some (log_append_all l [e])).
      { apply log_append_all_total; simpl; auto. by rewrite Hi, Z.eqb_refl. }
      simpl in H. rewrite E in H. by destruct H. }
  exists l'. pose proof (log_append_facts _ _ _ E) as (? & ? & Hs & _ & _).
  split_and!; [done|by eapply log_append_wf|done|done|by intros; apply wf_get_app| |].
  - apply log_append_Some in E as (_ & _ & ->). unfold log_byte_offset_of, log_first_index. simpl.
    rewrite (wf_last_index l Hwf) in Hi.
    destruct (Z.ltb_spec (e_index e) (l_snapshot_index l + 1)); [lia|].
    rewrite lookup_app_r by (rewrite (wf_offsets_length l Hwf); lia).
    rewrite (wf_offsets_length l Hwf). replace (_ - _)%nat with 0%nat by lia. done.
  - apply log_append_Some in E as (_ & _ & ->). done.
Qed.

(** Truncating a well-formed log never panics and removes exactly the
    entries at and above the given index: the snapshot boundary and every entry
    below it stay, and the byte length of the log becomes the offset at which
    the first removed record began. *)
Theorem log_truncate_correct (l : RaftLog) (i : Z) :
  log_wf l ->
  exists l', log_truncate_from l i = Some l' /\ log_wf l' /\
    l_snapshot_index l' = l_snapshot_index l /\ l_snapshot_term l' = l_snapshot_term l /\
    (forall j, log_get l' j = if j <? i then log_get l j else None) /\
    log_byte_len l' = log_byte_offset_of l (Z.max i (log_first_index l)).
Proof.
  intros Hwf. destruct (log_truncate_total l i Hwf) as [l' E]. exists l'.
  pose proof (log_truncate_wf _ _ _ Hwf E) as Hwf'.
  pose proof (log_truncate_facts _ _ _ Hwf E) as (Hs & Hst & _ & He).
  split_and!; [done..| |by eapply log_truncate_end].
  intros j. rewrite (wf_get l' Hwf'), (wf_get l Hwf), Hs, He. unfold log_first_index. rewrite Hs.
  destruct (Z.leb_spec j (l_snapshot_index l)); [by case_match|].
  destruct (Z.ltb_spec j i).
  - apply lookup_take_lt. lia.
  - apply lookup_take_ge. lia.
Qed.

(** Compaction to an index the log holds forgets the entries it covers and
    nothing else: terms at and above the boundary, entries and byte offsets
    above it, and the last index and term are what they were. *)
Theorem log_compact_correct (l : RaftLog) (i t : Z) :
  log_wf l -> 0 <= l_snapshot_index l -> l_snapshot_index l < i <= log_last_index l ->
  log_term_at l i = Some t ->
  let l' := log_compact_to l i t in
  log_wf l' /\ (log_anchored l -> log_anchored l') /\ l_snapshot_index l' = i /\
  log_last_index l' = log_last_index l /\ log_last_term l' = log_last_term l /\
  (forall j, i <= j -> log_term_at l' j = log_term_at l j) /\
  (forall j, log_get l' j = if j <=? i then None else log_get l j) /\
  (forall j, i < j -> log_byte_offset_of l' j = log_byte_offset_of l j).
Proof.
  intros Hwf H0 Hi Hti l'.
  assert (Hwf' : log_wf l') by (by apply log_compact_wf).
  assert (Hl' : l' = mkRaftLog (drop (Z.to_nat (i - l_snapshot_index l)) (l_entries l))
    (drop (Z.to_nat (i - l_snapshot_index l)) (l_offsets l)) (l_end l) i t).
  { unfold l', log_compact_to. destruct (Z.leb_spec i (l_snapshot_index l)); [lia|].
    destruct (Z.ltb_spec (log_last_index l) i); [lia|done]. }
  assert (Hs : l_snapshot_index l' = i) by (by rewrite Hl').
  assert (Hlast : log_last_index l' = log_last_index l) by by apply log_compact_last_index.
  assert (Hget : forall j, log_get l' j = if j <=? i then None else log_get l j).
  { intros j. rewrite (wf_get l' Hwf'), (wf_get l Hwf), Hs. unfold log_first_index. rewrite Hs.
    destruct (Z.leb_spec j i); [done|]. destruct (Z.leb_spec j (l_snapshot_index l)); [lia|].
    rewrite Hl'. simpl. rewrite lookup_drop. f_equal. lia. }
  assert (Hterm : forall j, i <= j -> log_term_at l' j = log_term_at l j).
  { intros j Hj. unfold log_term_at, NO_INDEX. rewrite Hs, Hget.
    destruct (Z.eqb_spec j 0); [done|]. destruct (Z.eqb_spec j (l_snapshot_index l)); [lia|].
    destruct (Z.eqb_spec j i) as [->|].
    - rewrite Hl'. simpl. rewrite <- Hti. unfold log_term_at, NO_INDEX.
      destruct (Z.eqb_spec i 0); [lia|]. by destruct (Z.eqb_spec i (l_snapshot_index l)); [lia|].
    - by destruct (Z.leb_spec j i); [lia|]. }
  split_and?; try done.
  - intros Ha. apply log_compact_anchored; [done..|lia].
  - pose proof (wf_term_at_last l Hwf ltac:(lia)) as E1.
    pose proof (wf_term_at_last l' Hwf' ltac:(lia)) as E2.
    rewrite Hterm, Hlast, E1 in E2 by lia. congruence.
  - intros j Hj. unfold log_byte_offset_of, log_first_index. rewrite Hs, Hl'. simpl.
    destruct (Z.ltb_spec j (i + 1)); [lia|]. destruct (Z.ltb_spec j (l_snapshot_index l + 1)); [lia|].
    rewrite lookup_drop. do 2 f_equal. lia.
Qed.

(** [slice_from] returns the entries at [i], [i + 1], ..., at most [max] of
    them and none missing. *)
Theorem log_slice_correct (l : RaftLog) (i : Z) (max k : nat) (e : Entry) :
  log_wf l -> l_snapshot_index l < i ->
  (log_slice_from l i max !! k = Some e <->
   (k < max)%nat /\ log_get l (i + Z.of_nat k) = Some e).
Proof.
  intros Hwf Hi. unfold log_slice_from. rewrite (wf_get l Hwf), (wf_last_index l Hwf).
  unfold log_first_index. destruct (Z.ltb_spec i (l_snapshot_index l + 1)); [lia|].
  destruct (Z.leb_spec (i + Z.of_nat k) (l_snapshot_index l)); [lia|]. simpl.
  set (st := Z.to_nat (i - (l_snapshot_index l + 1))).
  replace (Z.to_nat (i + Z.of_nat k - (l_snapshot_index l + 1))) with (st + k)%nat by lia.
  destruct (Z.ltb_spec (l_snapshot_index l + Z.of_nat (length (l_entries l))) i).
  - split; [done|]. intros [_ E%lookup_lt_Some]. lia.
  - split.
    + intros E. pose proof (lookup_lt_Some _ _ _ E) as Hk.
      rewrite length_take, length_drop in Hk.
      rewrite lookup_take_lt, lookup_drop in E by lia. split; [lia|done].
    + intros [Hk E]. pose proof (lookup_lt_Some _ _ _ E).
      rewrite lookup_take_lt, lookup_drop by lia. done.
Qed.

(** On a well-formed log [last_index_with_term_at_most t] is the boundary of
    term [t]: an entry has a term of at most [t] exactly when its index is at
    most the result. *)
Theorem log_term_boundary (l : RaftLog) (t i : Z) (e : Entry) :
  log_wf l -> log_get l i = Some e ->
  (e_term e <= t <-> i <= log_last_index_with_term_at_most l t).
Proof.
  intros Hwf E. rewrite (wf_get l Hwf) in E.
  destruct (Z.leb_spec i (l_snapshot_index l)); [done|].
  rewrite (partition_point_sorted _ t _ _ (wf_terms l Hwf) E).
  unfold log_last_index_with_term_at_most, log_first_index. lia.
Qed.

(** ** Witnesses *)

Definition demo_entry (term index : Z) : Entry := mkEntry term index (mkCommand 7 index Noop).

(** Snapshot through 2 at term 1, then entries 3, 4 and 5. *)
Definition demo_log : RaftLog :=
  let e := [demo_entry 1 3; demo_entry 2 4; demo_entry 4 5] in
  mkRaftLog e [100; 137; 174]%nat 211 2 1.

Lemma demo_log_wf : log_wf demo_log.
Proof.
  split; [by vm_compute..| |by vm_compute]. unfold demo_log. simpl.
  repeat (constructor; [simpl; lia|]). constructor.
Qed.

Lemma log_append_correct_witness :
  exists l', log_append demo_log (demo_entry 4 6) = Some l' /\ log_wf l' /\
    log_last_index l' = 6 /\ log_byte_offset_of l' 6 = 211%nat.
Proof.
  destruct (log_append_correct demo_log (demo_entry 4 6) demo_log_wf) as
    (l' & E & Hwf & Hi & _ & _ & Hoff & _); [by vm_compute|by vm_compute|].
  exists l'. split_and!; [exact E|exact Hwf|exact Hi|exact Hoff].
Defined.

Lemma log_truncate_correct_witness :
  exists l', log_truncate_from demo_log 4 = Some l' /\ log_get l' 3 = Some (demo_entry 1 3) /\
    log_get l' 4 = None /\ log_byte_len l' = 137%nat.
Proof.
  destruct (log_truncate_correct demo_log 4 demo_log_wf) as (l' & E & _ & _ & _ & Hg & Hb).
  exists l'. rewrite !Hg, Hb. split_and!; [exact E|by vm_compute..].
Defined.

Lemma log_compact_correct_witness :
  let l' := log_compact_to demo_log 4 2 in
  log_wf l' /\ log_term_at l' 4 = Some 2 /\ log_get l' 4 = None /\
  log_get l' 5 = Some (demo_entry 4 5).
Proof.
  destruct (log_compact_correct demo_log 4 2 demo_log_wf) as (Hwf & _ & _ & _ & _ & Ht & Hg & _);
    [by vm_compute|by vm_compute|by vm_compute|].
  split_and!; [exact Hwf|by vm_compute..].
Defined.

Lemma log_slice_correct_witness :
  log_slice_from demo_log 4 1 !! 0%nat = Some (demo_entry 2 4).
Proof. apply (log_slice_correct demo_log 4 1 0 _ demo_log_wf); [done|]. by vm_compute. Defined.

Lemma log_term_boundary_witness :
  log_last_index_with_term_at_most demo_log 3 = 4 /\ (2 <= 3 <-> 4 <= 4).
Proof.
  split; [by vm_compute|]. exact (log_term_boundary demo_log 3 4 _ demo_log_wf eq_refl).
Defined.
