(* ===== verification/Recovery.v ===== *)
(** * Recovery: reading the write-ahead file back ([kvstore/log.rs])

    [recover_log_from], [recover_log] and [recover_log_any_start].  The loop of
    the source is [recover_loop]; one turn of it is [recover_read].  Fuel is the
    number of turns; [recover_log_from] passes one more than the file has bytes
    and [recover_log_total] shows that this is always enough. *)
From S2P Require Import Prelude Codec Crc LogFormat RaftLog.
From Stdlib.Init Require Import Byte.

(** What survived on disk. *)
Record RecoveredLog : Type := mkRecovered {
  rl_entries : list Entry;
  rl_offsets : list nat;
  rl_valid_bytes : nat;
  rl_damaged : bool;
}.

(** One turn of the loop: the end of the file, a record that does not check
    out, or the next entry and the length of its payload. *)
Inductive RecordRead : Type :=
| ReadEnd
| ReadDamaged
| ReadEntry (e : Entry) (len : nat).

Definition le_u32_at (bytes : list byte) (pos : nat) : Z :=
  from_le_bytes (take 4 (drop pos bytes)).

(** [Entry::decode_from(&mut d).and_then(|e| d.finish().map(|_| e))] *)
Definition decode_entry_exact (payload : list byte) : Result DecodeError Entry :=
  match entry_decode_from (dec_new payload) with
  | Ok (e, d) => match dec_finish d with Ok _ => Ok e | Err x => Err x end
  | Err x => Err x
  end.

Definition recover_read (bytes : list byte) (first_index : Z) (entries : list Entry)
    (pos : nat) : RecordRead :=
  if decide (pos = length bytes) then ReadEnd
  else if decide (length bytes < pos + 8)%nat then ReadDamaged
  else
    let len := le_u32_at bytes pos in
    let crc := le_u32_at bytes (pos + 4) in
    if (len =? 0) || (MAX_RECORD <? len)
       || (Z.of_nat (length bytes) <? Z.of_nat pos + 8 + len) then ReadDamaged
    else
      let payload := take (Z.to_nat len) (drop (pos + 8) bytes) in
      if negb (crc32 payload =? crc) then ReadDamaged
      else
        match decode_entry_exact payload with
        | Err _ => ReadDamaged
        | Ok entry =>
            let expected := from_option (fun e => e_index e + 1) first_index (last entries) in
            if negb (e_index entry =? expected)
               || (e_term entry <? from_option e_term 0 (last entries))
            then ReadDamaged
            else ReadEntry entry (Z.to_nat len)
        end.

Fixpoint recover_loop (fuel : nat) (bytes : list byte) (first_index : Z)
    (entries : list Entry) (offsets : list nat) (pos : nat) : option RecoveredLog :=
  match fuel with
  | O => None
  | S fuel =>
      match recover_read bytes first_index entries pos with
      | ReadEnd => Some (mkRecovered entries offsets pos false)
      | ReadDamaged => Some (mkRecovered entries offsets pos true)
      | ReadEntry e len =>
          recover_loop fuel bytes first_index (entries ++ [e]) (offsets ++ [pos])
            (pos + 8 + len)
      end
  end.

Definition recover_log_from (bytes : list byte) (first_index : Z) : option RecoveredLog :=
  recover_loop (S (length bytes)) bytes first_index [] [] 0.

Definition recover_log (bytes : list byte) : option RecoveredLog :=
  recover_log_from bytes 1.

(** Read a log file whose first record may be at any index. *)
Definition recover_log_any_start (bytes : list byte) : option RecoveredLog :=
  if decide (length bytes < 8)%nat then recover_log_from bytes 1
  else
    let len := le_u32_at bytes 0 in
    let first :=
      if (16 <=? len) && bool_decide (8 + 16 <= length bytes)%nat
      then from_le_bytes (take 8 (drop 16 bytes)) else 1 in
    recover_log_from bytes (Z.max first 1).

(** The bytes of a run of records. *)
Definition records (es : list Entry) : list byte := concat (map entry_to_record es).

(** ** Lemmas: the loop terminates *)

Lemma recover_read_progress bytes first es pos e len :
  recover_read bytes first es pos = ReadEntry e len ->
  (pos + 8 + len <= length bytes)%nat.
Proof.
  unfold recover_read. case_decide; [done|]. case_decide; [done|].
  destruct ((_ =? 0) || _ || _) eqn:Hlen; [done|].
  apply orb_false_iff in Hlen as [_ Hb%Z.ltb_ge].
  destruct (negb (crc32 _ =? _)); [done|].
  destruct (decode_entry_exact _) as [e'|]; [|done].
  destruct (negb _ || _); [done|]. intros [= _ <-].
  pose proof (from_le_bytes_range (take 4 (drop pos bytes))) as Hr.
  fold (le_u32_at bytes pos) in Hr. lia.
Qed.

Lemma recover_loop_total fuel bytes first es offs pos :
  (pos <= length bytes)%nat -> (length bytes - pos < fuel)%nat ->
  is_Some (recover_loop fuel bytes first es offs pos).
Proof.
  revert es offs pos; induction fuel as [|fuel IH]; intros es offs pos Hp Hf; [lia|].
  simpl. destruct (recover_read bytes first es pos) as [| |e len] eqn:E; [eauto..|].
  apply recover_read_progress in E. apply IH; lia.
Qed.

Lemma recover_loop_fuel fuel fuel' bytes first es offs pos r :
  recover_loop fuel bytes first es offs pos = Some r -> (fuel <= fuel')%nat ->
  recover_loop fuel' bytes first es offs pos = Some r.
Proof.
  revert fuel' es offs pos; induction fuel as [|fuel IH]; intros fuel' es offs pos; [done|].
  intros E Hf. destruct fuel' as [|fuel']; [lia|]. simpl in *.
  destruct (recover_read bytes first es pos); [done..|]. apply IH; [done|lia].
Qed.

(** ** Lemmas: reading back what was written *)

Lemma length_entry_to_record e :
  length (entry_to_record e) = (8 + length (entry_bytes e))%nat.
Proof. apply length_record_of. Qed.

Lemma entry_bytes_ge16 e : (16 <= length (entry_bytes e))%nat.
Proof.
  unfold entry_bytes, entry_encode_into. autorewrite with enc. unfold enc_new.
  rewrite !length_app. unfold u64_bytes, enc_u64. rewrite !length_app, !length_to_le_bytes. lia.
Qed.

Lemma decode_entry_exact_bytes e : entry_ok e -> decode_entry_exact (entry_bytes e) = Ok e.
Proof.
  intros Hok. unfold decode_entry_exact.
  rewrite (reads_whole _ _ _ (entry_reads e Hok)). by rewrite dec_finish_end.
Qed.

Lemma drop_app_at {A} (pre l : list A) n : n = length pre -> drop n (pre ++ l) = l.
Proof. intros ->. apply drop_app_length. Qed.

Lemma take_app_at {A} (pre l : list A) n : n = length pre -> take n (pre ++ l) = pre.
Proof. intros ->. apply take_app_length. Qed.

(** The header fields of a record standing after [pre]. *)
Lemma record_header pre p post :
  Z.of_nat (length p) < 2 ^ 32 ->
  le_u32_at (pre ++ record_of p ++ post) (length pre) = Z.of_nat (length p) /\
  le_u32_at (pre ++ record_of p ++ post) (length pre + 4) = crc32 p /\
  take (length p) (drop (length pre + 8) (pre ++ record_of p ++ post)) = p.
Proof.
  intros Hp. unfold le_u32_at, record_of. rewrite <- !app_assoc.
  set (h := to_le_bytes 4 (Z.of_nat (length p))). set (c := to_le_bytes 4 (crc32 p)).
  assert (Hh : length h = 4%nat) by apply length_to_le_bytes.
  assert (Hc : length c = 4%nat) by apply length_to_le_bytes.
  split_and!.
  - rewrite drop_app_at, take_app_at by done. apply from_to_le_bytes. lia.
  - rewrite (app_assoc pre h), drop_app_at, take_app_at by (rewrite ?length_app; lia).
    apply from_to_le_bytes, crc32_range.
  - rewrite (app_assoc pre h), (app_assoc (pre ++ h) c).
    rewrite drop_app_at, take_app_at by (rewrite ?length_app; lia). done.
Qed.

(** The index and term the next record must carry. *)
Definition follows (first_index : Z) (es : list Entry) (e : Entry) : Prop :=
  e_index e = from_option (fun e => e_index e + 1) first_index (last es) /\
  from_option e_term 0 (last es) <= e_term e.

Lemma recover_read_record pre e post first es :
  record_ok e -> follows first es e ->
  recover_read (pre ++ entry_to_record e ++ post) first es (length pre)
  = ReadEntry e (length (entry_bytes e)).
Proof.
  intros [Hok Hmax] [Hi Ht]. pose proof (entry_bytes_ge16 e) as H16.
  fold (entry_bytes e) in Hmax. unfold entry_to_record. fold (entry_bytes e).
  destruct (record_header pre (entry_bytes e) post) as (Hlen & Hcrc & Hpay).
  { change MAX_RECORD with 1048576 in Hmax. lia. }
  unfold recover_read. rewrite Hlen, Hcrc, Nat2Z.id, Hpay.
  rewrite !length_app, length_record_of.
  rewrite decide_False by lia. rewrite decide_False by lia.
  destruct (Z.eqb_spec (Z.of_nat (length (entry_bytes e))) 0); [lia|].
  destruct (Z.ltb_spec MAX_RECORD (Z.of_nat (length (entry_bytes e)))); [lia|].
  destruct (Z.ltb_spec (Z.of_nat (length pre + (8 + length (entry_bytes e) + length post)))
    (Z.of_nat (length pre) + 8 + Z.of_nat (length (entry_bytes e)))); [lia|].
  rewrite Z.eqb_refl, decode_entry_exact_bytes by done. simpl.
  rewrite <- Hi, Z.eqb_refl. simpl.
  by rewrite (proj2 (Z.ltb_ge _ _) Ht).
Qed.

(** Offsets of a run of records that begins at [pos]. *)
Fixpoint offsets_from (pos : nat) (es : list Entry) : list nat :=
  match es with
  | [] => []
  | e :: es => pos :: offsets_from (pos + length (entry_to_record e)) es
  end.

(** A run of entries that continues [es]. *)
Fixpoint continues (first_index : Z) (es new : list Entry) : Prop :=
  match new with
  | [] => True
  | e :: new => record_ok e /\ follows first_index es e /\ continues first_index (es ++ [e]) new
  end.

Lemma records_cons e es : records (e :: es) = entry_to_record e ++ records es.
Proof. done. Qed.

Lemma records_app es es' : records (es ++ es') = records es ++ records es'.
Proof. unfold records. by rewrite map_app, concat_app. Qed.

Lemma recover_loop_records new : forall fuel pre post first es offs,
  continues first es new ->
  recover_loop (length new + fuel) (pre ++ records new ++ post) first es offs (length pre)
  = recover_loop fuel (pre ++ records new ++ post) first (es ++ new)
      (offs ++ offsets_from (length pre) new) (length pre + length (records new)).
Proof.
  induction new as [|e new IH]; intros fuel pre post first es offs Hc.
  - simpl. by rewrite !app_nil_r, Nat.add_0_r.
  - destruct Hc as (Hok & Hf & Hc). rewrite records_cons, <- app_assoc.
    cbn [length Nat.add recover_loop offsets_from]. rewrite recover_read_record by done.
    specialize (IH fuel (pre ++ entry_to_record e) post first (es ++ [e]) (offs ++ [length pre]) Hc).
    rewrite !length_app, length_entry_to_record, <- !app_assoc in IH.
    rewrite !length_app, length_entry_to_record.
    rewrite <- Nat.add_assoc, IH, <- !Nat.add_assoc. done.
Qed.

Lemma continues_run es : forall first pre,
  Forall record_ok es ->
  contiguous_from (from_option (fun e => e_index e + 1) first (last pre)) es = true ->
  terms_ascend es = true -> Forall (fun e => from_option e_term 0 (last pre) <= e_term e) es ->
  continues first pre es.
Proof.
  induction es as [|e es IH]; intros first pre Hok Hc Ht Hl; simpl; [done|].
  apply Forall_cons in Hok as [? Hok]. simpl in Hc. apply andb_true_iff in Hc as [Hi Hc].
  apply Z.eqb_eq in Hi. apply terms_ascend_cons in Ht as [Hte Ht].
  apply Forall_cons in Hl as [Hle _].
  split_and!; [done|by split|]. apply IH; rewrite ?last_app_singleton; simpl; try done.
  by rewrite Hi.
Qed.

Lemma run_continues es first :
  Forall record_ok es -> contiguous_from first es = true -> terms_ascend es = true ->
  continues first [] es.
Proof.
  intros Hok Hc Ht. apply continues_run; try done.
  eapply Forall_impl; [exact Hok|]. intros e [[[] _] _]. simpl. lia.
Qed.

(** ** Lemmas: what any recovered run satisfies *)

Lemma parses_exact payload e :
  decode_entry_exact payload = Ok e -> payload = entry_bytes e /\ entry_ok e.
Proof.
  unfold decode_entry_exact.
  destruct (entry_decode_from (dec_new payload)) as [[e' d]|] eqn:E; [|done].
  destruct (dec_finish d) as [[[] d']|] eqn:Ef; [|done]. intros [= ->].
  assert (H0 : (d_pos (dec_new payload) <= length (d_buf (dec_new payload)))%nat) by (simpl; lia).
  destruct (entry_parses _ _ _ H0 E) as (Hb & Hp & Hs & Hok).
  simpl in *. unfold dec_finish, dec_remaining in Ef. rewrite Hb in Ef.
  case_decide as Hd; [|done].
  unfold slice in Hs. simpl in Hs. rewrite Nat.sub_0_r, drop_0 in Hs.
  rewrite take_ge in Hs by lia. done.
Qed.

Lemma slice_take_drop (bytes : list byte) pos n :
  take (pos + n) bytes = take pos bytes ++ take n (drop pos bytes).
Proof.
  rewrite <- (take_drop pos (take (pos + n) bytes)).
  rewrite take_take, Nat.min_l by lia. f_equal.
  rewrite <- take_drop_commute. do 2 f_equal; lia.
Qed.

Lemma record_of_bytes (bytes : list byte) pos len :
  (pos + 8 + len <= length bytes)%nat -> Z.of_nat len = le_u32_at bytes pos ->
  crc32 (take len (drop (pos + 8) bytes)) = le_u32_at bytes (pos + 4) ->
  take (8 + len) (drop pos bytes) = record_of (take len (drop (pos + 8) bytes)).
Proof.
  intros Hb Hl Hc. unfold record_of.
  assert (Hlen : length (take len (drop (pos + 8) bytes)) = len)
    by (rewrite length_take, length_drop; lia).
  rewrite Hlen, Hl, Hc. unfold le_u32_at.
  assert (H4 : forall p, (p + 4 <= length bytes)%nat ->
    to_le_bytes 4 (from_le_bytes (take 4 (drop p bytes))) = take 4 (drop p bytes)).
  { intros p Hp. rewrite <- (to_from_le_bytes (take 4 (drop p bytes))) at 2.
    rewrite length_take, length_drop. f_equal. lia. }
  rewrite !H4 by lia.
  change (8 + len)%nat with (4 + (4 + len))%nat.
  rewrite !slice_take_drop, !drop_drop. do 2 f_equal.
  all: f_equal; f_equal; lia.
Qed.

Lemma recover_read_sound bytes first es pos e len :
  recover_read bytes first es pos = ReadEntry e len ->
  entry_ok e /\ len = length (entry_bytes e) /\ follows first es e /\
  (pos + 8 + len <= length bytes)%nat /\ Z.of_nat len <= MAX_RECORD /\
  take (8 + len) (drop pos bytes) = entry_to_record e.
Proof.
  intros E. pose proof (recover_read_progress _ _ _ _ _ _ E) as Hp. revert E.
  unfold recover_read. case_decide; [done|]. case_decide; [done|].
  destruct ((_ =? 0) || _ || _) eqn:Hlen; [done|].
  apply orb_false_iff in Hlen as [[Hz%Z.eqb_neq Hm%Z.ltb_ge]%orb_false_iff Hb%Z.ltb_ge].
  destruct (Z.eqb_spec (crc32 (take (Z.to_nat (le_u32_at bytes pos)) (drop (pos + 8) bytes)))
    (le_u32_at bytes (pos + 4))) as [Hcrc|]; [|done]. cbn [negb].
  destruct (decode_entry_exact _) as [e'|] eqn:Hd; [|done].
  destruct (negb _ || _) eqn:Hf; [done|]. intros [= <- <-].
  apply orb_false_iff in Hf as [Hi%negb_false_iff%Z.eqb_eq Ht%Z.ltb_ge].
  pose proof (from_le_bytes_range (take 4 (drop pos bytes))) as Hr.
  fold (le_u32_at bytes pos) in Hr.
  apply parses_exact in Hd as [Hpay Hok].
  rewrite record_of_bytes, Hpay; [|lia|lia|done].
  split_and?; [done| |done|lia|lia|done].
  rewrite <- Hpay, length_take, length_drop. lia.
Qed.

(** The state of the loop: what has been read so far is exactly the bytes up to
    [pos]. *)
Record loop_inv (bytes : list byte) (first : Z) (es : list Entry) (offs : list nat)
    (pos : nat) : Prop := {
  li_bytes : take pos bytes = records es;
  li_pos : (pos <= length bytes)%nat;
  li_ok : Forall record_ok es;
  li_contiguous : contiguous_from first es = true;
  li_terms : terms_ascend es = true;
  li_layout : layout es offs pos;
}.

Lemma contiguous_last first es :
  contiguous_from first es = true ->
  from_option (fun e => e_index e + 1) first (last es) = first + Z.of_nat (length es).
Proof.
  intros Hc. destruct (last es) as [z|] eqn:E; simpl.
  - rewrite last_lookup in E. rewrite (contiguous_lookup _ _ _ _ Hc E).
    pose proof (lookup_lt_Some _ _ _ E). lia.
  - apply last_None in E as ->. simpl. lia.
Qed.

Lemma terms_ascend_snoc es e :
  terms_ascend es = true -> from_option e_term (e_term e) (last es) <= e_term e ->
  terms_ascend (es ++ [e]) = true.
Proof.
  intros Ht Hl. apply terms_ascend_app. split_and!; [done|done|].
  apply Forall_forall. intros a Ha. apply Forall_singleton.
  destruct (last es) as [z|] eqn:E; simpl in Hl.
  - apply last_Some in E as [l' ->].
    apply terms_ascend_app in Ht as (_ & _ & Ht).
    apply elem_of_app in Ha as [Ha|Ha%list_elem_of_singleton]; [|by subst].
    rewrite Forall_forall in Ht. specialize (Ht a Ha). rewrite Forall_singleton in Ht. lia.
  - apply last_None in E as ->. by apply elem_of_nil in Ha.
Qed.

Lemma loop_inv_step bytes first es offs pos e len :
  loop_inv bytes first es offs pos -> recover_read bytes first es pos = ReadEntry e len ->
  loop_inv bytes first (es ++ [e]) (offs ++ [pos]) (pos + 8 + len).
Proof.
  intros [Hb Hp Hok Hc Ht Hl] E.
  apply recover_read_sound in E as (He & Hlen & [Hi Hte] & Hend & Hmax & Hrec).
  split.
  - rewrite <- Nat.add_assoc, slice_take_drop, Hb, Hrec.
    rewrite records_app, records_cons. by rewrite app_nil_r.
  - lia.
  - apply Forall_app. split; [done|]. apply Forall_singleton. split; [done|].
    fold (entry_bytes e). lia.
  - rewrite contiguous_app, Hc. simpl. rewrite Hi, contiguous_last by done.
    by rewrite Z.eqb_refl.
  - apply terms_ascend_snoc; [done|]. destruct (last es); simpl in *; lia.
  - replace (pos + 8 + len)%nat with (pos + length (entry_to_record e))%nat
      by (rewrite length_entry_to_record; lia).
    by apply layout_snoc.
Qed.

Lemma recover_loop_inv fuel bytes first es offs pos r :
  loop_inv bytes first es offs pos -> recover_loop fuel bytes first es offs pos = Some r ->
  loop_inv bytes first (rl_entries r) (rl_offsets r) (rl_valid_bytes r).
Proof.
  revert es offs pos; induction fuel as [|fuel IH]; intros es offs pos Hinv; [done|]. simpl.
  destruct (recover_read bytes first es pos) as [| |e len] eqn:E; [by intros [= <-]..|].
  apply IH. by eapply loop_inv_step.
Qed.

(** ** Lemmas: what stops the reader *)

(** What a crash leaves behind the last good record: nothing, a hole of zeros,
    or a record cut short. *)
Inductive dead_tail : list byte -> Prop :=
| dead_nil : dead_tail []
| dead_zeros n : dead_tail (replicate (S n) x00)
| dead_torn p k :
    Z.of_nat (length p) < 2 ^ 32 -> (0 < k < length (record_of p))%nat ->
    dead_tail (take k (record_of p)).

Lemma recover_read_end bytes first es : recover_read bytes first es (length bytes) = ReadEnd.
Proof. unfold recover_read. by rewrite decide_True. Qed.

Lemma le_u32_at_app pre t : le_u32_at (pre ++ t) (length pre) = from_le_bytes (take 4 t).
Proof. unfold le_u32_at. by rewrite drop_app_length. Qed.

(** A header that announces more than the file holds, or nothing, is damage. *)
Lemma recover_read_short pre t first es :
  t <> [] -> (8 <= length t)%nat -> 
  from_le_bytes (take 4 t) = 0 \/ Z.of_nat (length t) < 8 + from_le_bytes (take 4 t) ->
  recover_read (pre ++ t) first es (length pre) = ReadDamaged.
Proof.
  intros Ht H8 Hlen. unfold recover_read. rewrite length_app, le_u32_at_app.
  rewrite decide_False by (destruct t; simpl in *; [done|lia]).
  rewrite decide_False by lia.
  destruct Hlen as [-> | Hlen]; [done|].
  destruct (Z.ltb_spec (Z.of_nat (length pre + length t))
    (Z.of_nat (length pre) + 8 + from_le_bytes (take 4 t))); [|lia].
  by rewrite orb_true_r.
Qed.

Lemma recover_read_torn_header pre t first es :
  t <> [] -> (length t < 8)%nat ->
  recover_read (pre ++ t) first es (length pre) = ReadDamaged.
Proof.
  intros Ht H8. unfold recover_read. rewrite length_app.
  rewrite decide_False by (destruct t; simpl in *; [done|lia]).
  rewrite decide_True by lia. done.
Qed.

Lemma recover_read_dead pre t first es :
  dead_tail t ->
  recover_read (pre ++ t) first es (length pre)
  = match t with [] => ReadEnd | _ => ReadDamaged end.
Proof.
  intros Hd. destruct Hd as [|n|p k Hp Hk].
  - rewrite app_nil_r. apply recover_read_end.
  - change (match replicate (S n) x00 with [] => ReadEnd | _ => ReadDamaged end) with ReadDamaged.
    destruct (decide (length (replicate (S n) x00) < 8)%nat) as [H|H];
      [by apply recover_read_torn_header|].
    rewrite length_replicate in H.
    apply recover_read_short; [done|rewrite length_replicate; lia|left].
    rewrite take_replicate, Nat.min_l by lia. done.
  - assert (Hlen : length (take k (record_of p)) = k) by (rewrite length_take; lia).
    destruct (take k (record_of p)) as [|b t'] eqn:E; [simpl in Hlen; lia|]. rewrite <- E in *.
    destruct (decide (k < 8)%nat) as [H|H];
      [apply recover_read_torn_header; [by rewrite E|lia]|].
    rewrite length_record_of in Hk.
    apply recover_read_short; [by rewrite E|lia|right].
    rewrite Hlen, take_take, Nat.min_l by lia.
    unfold record_of. rewrite take_app_at by by rewrite length_to_le_bytes.
    rewrite from_to_le_bytes by lia. lia.
Qed.

(** A record whose checksum or payload had a byte altered. *)
Lemma recover_read_corrupt pre e post first es j x y :
  record_ok e -> (4 <= j)%nat -> entry_to_record e !! j = Some x -> y <> x ->
  recover_read (pre ++ <[j := y]> (entry_to_record e) ++ post) first es (length pre)
  = ReadDamaged.
Proof.
  intros [Hok Hmax] Hj Hx Hne. fold (entry_bytes e) in Hmax. change MAX_RECORD with 1048576 in Hmax.
  set (p := entry_bytes e) in *. set (h := to_le_bytes 4 (Z.of_nat (length p))).
  assert (Hh : length h = 4%nat) by apply length_to_le_bytes.
  assert (Hrec : entry_to_record e = h ++ frame p) by done.
  rewrite Hrec in Hx |- *. rewrite lookup_app_r in Hx by lia.
  rewrite insert_app_r_alt by lia. rewrite Hh in *.
  assert (Hf : unframe (<[(j - 4)%nat := y]> (frame p)) = Err BadChecksum)
    by by eapply unframe_corrupted.
  set (f := <[(j - 4)%nat := y]> (frame p)) in *.
  assert (Hlf : length f = (4 + length p)%nat)
    by (unfold f, frame; rewrite length_insert, length_app, length_to_le_bytes; lia).
  pose proof (entry_bytes_ge16 e) as H16. fold p in H16.
  unfold recover_read. rewrite <- app_assoc, !length_app, Hh, Hlf.
  rewrite decide_False by lia. rewrite decide_False by lia.
  assert (Hle : from_le_bytes h = Z.of_nat (length p)) by (apply from_to_le_bytes; lia).
  rewrite le_u32_at_app, take_app_at, Hle by done.
  case_match; [done|].
  replace (take (Z.to_nat (Z.of_nat (length p))) (drop (length pre + 8) (pre ++ h ++ f ++ post)))
    with (drop 4 f).
  2:{ rewrite <- (take_drop 4 f) at 2.
      rewrite <- app_assoc, (app_assoc pre h), (app_assoc (pre ++ h) (take 4 f)).
      rewrite drop_app_at, take_app_at; rewrite ?length_app, ?length_take, ?length_drop; try lia. done. }
  replace (le_u32_at (pre ++ h ++ f ++ post) (length pre + 4)) with (from_le_bytes (take 4 f)).
  2:{ unfold le_u32_at. rewrite (app_assoc pre h), drop_app_at by (rewrite length_app; lia).
      rewrite take_app_le by lia. done. }
  revert Hf. unfold unframe. rewrite decide_False by lia.
  by destruct (Z.eqb_spec (crc32 (drop 4 f)) (from_le_bytes (take 4 f))).
Qed.

Lemma length_records_ge es : (length es <= length (records es))%nat.
Proof.
  induction es as [|e es IH]; [done|]. rewrite records_cons, length_app, length_entry_to_record.
  simpl. lia.
Qed.

(** The first record tells where a file of records starts. *)
Lemma recover_any_start_from e0 es tail :
  record_ok e0 -> 1 <= e_index e0 ->
  recover_log_any_start (records (e0 :: es) ++ tail)
  = recover_log_from (records (e0 :: es) ++ tail) (e_index e0).
Proof.
  intros [[Ht0 [Hi0 Hc0]] Hmax] H1.
  fold (entry_bytes e0) in Hmax. change MAX_RECORD with 1048576 in Hmax.
  pose proof (entry_bytes_ge16 e0) as H16.
  unfold recover_log_any_start. rewrite records_cons.
  rewrite !length_app, length_entry_to_record, decide_False by lia.
  destruct (record_header [] (entry_bytes e0) (records es ++ tail) ltac:(lia)) as (Hlen & _ & Hpay).
  rewrite <- app_assoc. change (record_of (entry_bytes e0)) with (entry_to_record e0) in *.
  cbn [app length] in Hlen, Hpay. rewrite Hlen, (proj2 (Z.leb_le _ _)) by lia.
  rewrite bool_decide_true by lia. simpl andb. cbv iota.
  assert (Hidx : take 8 (drop 16 (entry_to_record e0 ++ records es ++ tail)) = u64_bytes (e_index e0)).
  { replace 16%nat with (8 + 8)%nat by done. rewrite <- drop_drop.
    unfold entry_to_record, record_of. rewrite <- !app_assoc.
    set (h := to_le_bytes 4 _). set (c := to_le_bytes 4 _).
    rewrite (app_assoc h), (drop_app_at (h ++ c)) by done.
    unfold entry_encode_into. autorewrite with enc. unfold enc_new.
    rewrite <- !app_assoc. rewrite app_nil_l.
    rewrite drop_app_at, take_app_at by done. done. }
  rewrite Hidx. change (u64_bytes (e_index e0)) with (to_le_bytes 8 (e_index e0)).
  rewrite from_to_le_bytes by exact Hi0. f_equal. lia.
Qed.

(** Reading on only adds entries. *)
Lemma recover_loop_extends fuel bytes first es offs pos r :
  recover_loop fuel bytes first es offs pos = Some r -> exists more, rl_entries r = es ++ more.
Proof.
  revert es offs pos; induction fuel as [|fuel IH]; intros es offs pos; [done|]. simpl.
  destruct (recover_read bytes first es pos) as [| |e len];
    [intros [= <-]; exists []; by rewrite app_nil_r..|].
  intros [more ->]%IH. exists (e :: more). by rewrite <-app_assoc.
Qed.

(** Whatever follows a run of records, the run is recovered. *)
Lemma recover_log_prefix first es tail :
  continues first [] es ->
  exists r more, recover_log_from (records es ++ tail) first = Some r /\ rl_entries r = es ++ more.
Proof.
  intros Hc. unfold recover_log_from.
  destruct (recover_loop_total (S (length (records es ++ tail))) (records es ++ tail) first [] [] 0)
    as [r Hr]; [lia|lia|].
  assert (Hf : (length es <= S (length (records es ++ tail)))%nat).
  { rewrite length_app. pose proof (length_records_ge es). lia. }
  pose proof Hr as Hr'. replace (S _) with (length es + (S (length (records es ++ tail)) - length es))%nat
    in Hr' by lia.
  pose proof (recover_loop_records es (S (length (records es ++ tail)) - length es) [] tail first [] [] Hc)
    as Hloop. cbn [app length] in Hloop. rewrite Hloop in Hr'.
  destruct (recover_loop_extends _ _ _ _ _ _ _ Hr') as [more Hm]. eauto.
Qed.

(** A run of records followed by bytes that stop the reader. *)
Lemma recover_log_run first es tail stop :
  continues first [] es ->
  recover_read (records es ++ tail) first es (length (records es)) = stop ->
  stop = ReadEnd \/ stop = ReadDamaged ->
  recover_log_from (records es ++ tail) first
  = Some (mkRecovered es (offsets_from 0 es) (length (records es))
      (match stop with ReadEnd => false | _ => true end)).
Proof.
  intros Hc Hstop Hs. unfold recover_log_from.
  eapply (recover_loop_fuel (length es + 1)).
  - pose proof (recover_loop_records es 1 [] tail first [] [] Hc) as E.
    cbn [app length Nat.add] in E. rewrite E. simpl. rewrite Hstop. destruct Hs as [-> | ->]; done.
  - rewrite length_app. pose proof (length_records_ge es). lia.
Qed.

Lemma loop_inv_init bytes first : loop_inv bytes first [] [] 0.
Proof. split; simpl; auto with lia. Qed.

Lemma recover_log_from_inv bytes first r :
  recover_log_from bytes first = Some r ->
  loop_inv bytes first (rl_entries r) (rl_offsets r) (rl_valid_bytes r).
Proof. intros E. eapply recover_loop_inv; [apply loop_inv_init|exact E]. Qed.

Lemma layout_offsets es : forall pos offs fin,
  layout es offs fin -> hd fin offs = pos -> offs = offsets_from pos es.
Proof.
  induction es as [|e es IH]; intros pos [|o offs] fin; try done.
  intros [Hh Hl] Ho. simpl in Ho. subst o. cbn [offsets_from]. f_equal. by eapply IH.
Qed.

Lemma recovered_continues bytes first r :
  recover_log_from bytes first = Some r -> continues first [] (rl_entries r).
Proof.
  intros E. apply recover_log_from_inv in E as [_ _ Hok Hc Ht _]. by apply run_continues.
Qed.

(** Damage is reported exactly when the file goes on. *)
Lemma recover_loop_damaged fuel bytes first es offs pos r :
  recover_loop fuel bytes first es offs pos = Some r -> (rl_damaged r = false <-> rl_valid_bytes r = length bytes).
Proof.
  revert es offs pos; induction fuel as [|fuel IH]; intros es offs pos; [done|]. simpl.
  destruct (recover_read bytes first es pos) as [| |e len] eqn:E; [| |apply IH]; intros [= <-]; simpl; unfold recover_read in E.
  - case_decide; [done|]. repeat (case_match; try done).
  - case_decide; [done|]. split; [done|]. intros. by subst.
Qed.

(** A run of acceptable records at the head of the file. *)
Definition run_at_head (bytes : list byte) (first : Z) (es : list Entry) : Prop :=
  Forall record_ok es /\ contiguous_from first es = true /\ terms_ascend es = true /\ records es `prefix_of` bytes.

Lemma recover_log_longest bytes first r es :
  recover_log_from bytes first = Some r -> run_at_head bytes first es -> es `prefix_of` rl_entries r.
Proof.
  intros E (Hok & Hc & Ht & tail & ->).
  destruct (recover_log_prefix first es tail) as (r' & more & E' & Hr'); [by apply run_continues|].
  rewrite E in E'. injection E' as <-. by exists more.
Qed.

(** ** Properties *)

(** Recovery always terminates: on every file contents and every expected
    first index the loop ends within the fuel it is given. *)
Theorem recover_log_total (bytes : list byte) (first : Z) :
  is_Some (recover_log_from bytes first).
Proof. apply recover_loop_total; lia. Qed.

(** C8. Whatever bytes are on the disk, recovery returns the longest run of records
    they begin with: records of well-formed entries whose indices go on without a
    gap from [first] and whose terms never decrease.  What it returns is such a run,
    and every such run is a beginning of it.  The bytes it calls valid are those of
    the run, the offsets are where its records begin, damage is reported exactly
    when the file goes on, and recovering the truncated file gives the same entries,
    undamaged. *)
Theorem recover_log_sound (bytes : list byte) (first : Z) (r : RecoveredLog) :
  recover_log_from bytes first = Some r ->
  run_at_head bytes first (rl_entries r) /\
  (forall es, run_at_head bytes first es -> es `prefix_of` rl_entries r) /\
  rl_valid_bytes r = length (records (rl_entries r)) /\
  layout (rl_entries r) (rl_offsets r) (rl_valid_bytes r) /\
  (rl_damaged r = false <-> rl_valid_bytes r = length bytes) /\
  recover_log_from (take (rl_valid_bytes r) bytes) first
  = Some (mkRecovered (rl_entries r) (offsets_from 0 (rl_entries r)) (rl_valid_bytes r) false).
Proof.
  intros E. pose proof (recovered_continues _ _ _ E) as Hcont.
  pose proof (fun es => recover_log_longest _ _ _ es E) as Hlong.
  pose proof (recover_loop_damaged _ _ _ _ _ _ _ E) as Hdam.
  apply recover_log_from_inv in E as [Hb Hp Hok Hc Ht Hl].
  assert (Hlen : rl_valid_bytes r = length (records (rl_entries r))) by (rewrite <- Hb, length_take; lia).
  split; [unfold run_at_head; split_and?; try done; rewrite <-Hb; apply prefix_take|]. split_and?; try done.
  rewrite Hb, <- (app_nil_r (records (rl_entries r))).
  rewrite (recover_log_run _ _ _ ReadEnd); [|done| |by left].
  - rewrite <- Hb, length_take. do 2 f_equal. lia.
  - rewrite app_nil_r. apply recover_read_end.
Qed.

(** What was written is recovered: from the records of a run of entries,
    followed by nothing, by a hole of zeros, or by a torn record, recovery
    returns exactly that run, reports its bytes as the valid prefix, and reports
    damage exactly when something followed. *)
Theorem recover_log_written (first : Z) (es : list Entry) (tail : list byte) :
  Forall record_ok es -> contiguous_from first es = true -> terms_ascend es = true ->
  dead_tail tail ->
  recover_log_from (records es ++ tail) first
  = Some (mkRecovered es (offsets_from 0 es) (length (records es))
      (match tail with [] => false | _ => true end)).
Proof.
  intros Hok Hc Ht Hd.
  rewrite (recover_log_run _ _ _ (match tail with [] => ReadEnd | _ => ReadDamaged end));
    [by destruct tail|by apply run_continues|by apply recover_read_dead|destruct tail; auto].
Qed.

(** A record with one altered byte in its checksum or payload is never
    accepted, and nothing after it is: recovery returns exactly the records
    before it, whatever follows. *)
Theorem recover_log_stops_at_corruption (first : Z) (es : list Entry) (e : Entry)
    (j : nat) (x y : byte) (rest : list byte) :
  Forall record_ok es -> contiguous_from first es = true -> terms_ascend es = true ->
  record_ok e -> (4 <= j)%nat -> entry_to_record e !! j = Some x -> y <> x ->
  recover_log_from (records es ++ <[j := y]> (entry_to_record e) ++ rest) first
  = Some (mkRecovered es (offsets_from 0 es) (length (records es)) true).
Proof.
  intros Hok Hc Ht He Hj Hx Hne.
  rewrite (recover_log_run first es _ ReadDamaged);
    [done|by apply run_continues|by eapply recover_read_corrupt|by right].
Qed.

(** A file that still begins with entries a snapshot has absorbed is read
    from wherever it starts: the records of a run beginning at any index are
    recovered whole, without being told that index. *)
Theorem recover_log_any_start_written (es : list Entry) (tail : list byte) (e0 : Entry) :
  head es = Some e0 -> 1 <= e_index e0 ->
  Forall record_ok es -> contiguous_from (e_index e0) es = true -> terms_ascend es = true ->
  dead_tail tail ->
  recover_log_any_start (records es ++ tail)
  = Some (mkRecovered es (offsets_from 0 es) (length (records es))
      (match tail with [] => false | _ => true end)).
Proof.
  intros Hh H1 Hok Hc Ht Hd.
  destruct es as [|e es]; [done|]. injection Hh as ->.
  rewrite recover_any_start_from by (done || by inversion Hok). by apply recover_log_written.
Qed.

(** ** Witnesses *)

Definition demo_run : list Entry :=
  [mkEntry 1 3 (mkCommand 7 1 (Put [x61] [x62]));
   mkEntry 2 4 (mkCommand 7 2 (Cas [x61] (Some [x62]) [x63]))].

Lemma demo_run_ok : Forall record_ok demo_run.
Proof.
  repeat (constructor; [split; [|by vm_compute]; unfold entry_ok, command_ok, is_u64, is_u32,
    op_ok, opt_str_ok, str_ok; simpl; repeat split; try lia; by vm_compute|]).
  constructor.
Qed.

Lemma recover_log_sound_witness :
  exists r, recover_log_from (records demo_run ++ [x01; x02]) 3 = Some r /\
    rl_entries r = demo_run /\ rl_valid_bytes r = length (records demo_run) /\
    forall es, run_at_head (records demo_run ++ [x01; x02]) 3 es -> es `prefix_of` demo_run.
Proof.
  eexists. split; [vm_compute; reflexivity|].
  edestruct (recover_log_sound (records demo_run ++ [x01; x02]) 3) as (_ & Hlong & Hb & _);
    [vm_compute; reflexivity|].
  split; [reflexivity|]. split; [exact Hb|]. exact Hlong.
Defined.

Lemma recover_log_written_witness :
  recover_log_from (records demo_run ++ replicate 9 x00) 3
  = Some (mkRecovered demo_run [0; 47]%nat 100 true).
Proof.
  rewrite (recover_log_written 3 demo_run (replicate 9 x00)).
  - by vm_compute.
  - exact demo_run_ok.
  - by vm_compute.
  - by vm_compute.
  - apply (dead_zeros 8).
Defined.

Lemma recover_log_stops_at_corruption_witness :
  recover_log_from
    (records (take 1 demo_run)
     ++ <[10%nat := xff]> (entry_to_record (mkEntry 2 4 (mkCommand 7 2 Noop))) ++ [x05]) 3
  = Some (mkRecovered (take 1 demo_run) [0%nat] 47 true).
Proof.
  rewrite (recover_log_stops_at_corruption 3 (take 1 demo_run) _ 10 x00 xff).
  - by vm_compute.
  - apply Forall_take, demo_run_ok.
  - by vm_compute.
  - by vm_compute.
  - split; [|by vm_compute]. unfold entry_ok, command_ok, is_u64, is_u32. simpl.
    repeat split; lia.
  - lia.
  - by vm_compute.
  - done.
Defined.

Lemma recover_log_any_start_written_witness :
  recover_log_any_start (records demo_run ++ [])
  = Some (mkRecovered demo_run [0; 47]%nat 100 false).
Proof.
  rewrite (recover_log_any_start_written demo_run [] (mkEntry 1 3 (mkCommand 7 1 (Put [x61] [x62])))).
  - by vm_compute.
  - reflexivity.
  - simpl. lia.
  - exact demo_run_ok.
  - by vm_compute.
  - by vm_compute.
  - constructor.
Defined.
