(* ===== verification/Durable.v ===== *)
(** * Durable: snapshot files and hard-state slots ([kvstore/log.rs])

    The two formats that are rewritten in place rather than appended: snapshots,
    in two alternating files, and hard state, in two alternating 64-byte slots
    at the head of the write-ahead file. *)
From S2P Require Import Prelude Codec Crc LogFormat RaftLog Recovery.
From Stdlib.Init Require Import Byte.

(** ** Snapshots *)

Record Snapshot : Type := mkSnapshot {
  sn_seq : Z;
  sn_index : Z;
  sn_term : Z;
  sn_data : list byte;
}.

(** A snapshot larger than this is corruption, not data. *)
Definition MAX_SNAPSHOT : Z := Z.shiftl 64 20.

Definition snapshot_payload (s : Snapshot) : list byte :=
  enc_new |> enc_u64 (sn_seq s) |> enc_u64 (sn_index s) |> enc_u64 (sn_term s)
  |> enc_bytes (sn_data s).

Definition snapshot_encode (s : Snapshot) : list byte := record_of (snapshot_payload s).

Definition snapshot_fields : Decoder Snapshot :=
  seq ← dec_u64; index ← dec_u64; term ← dec_u64; data ← dec_bytes;
  mret (mkSnapshot seq index term data).

(** [Snapshot::decode]: [None] if the file is absent or damaged. *)
Definition snapshot_decode (bytes : list byte) : option Snapshot :=
  if decide (length bytes < 8)%nat then None
  else
    let len := le_u32_at bytes 0 in
    let crc := le_u32_at bytes 4 in
    if (len =? 0) || (MAX_SNAPSHOT <? len) || (Z.of_nat (length bytes) <? 8 + len) then None
    else
      let payload := take (Z.to_nat len) (drop 8 bytes) in
      if negb (crc32 payload =? crc) then None
      else
        match snapshot_fields (dec_new payload) with
        | Ok (s, _) => Some s
        | Err _ => None
        end.

(** [(x.index, x.seq) >= (y.index, y.seq)] *)
Definition snapshot_ge (x y : Snapshot) : bool :=
  (sn_index y <? sn_index x)
  || ((sn_index x =? sn_index y) && (sn_seq y <=? sn_seq x)).

Definition pick_snapshot_with_source (a b : list byte) : option (Snapshot * Z) :=
  match snapshot_decode a, snapshot_decode b with
  | Some x, Some y => Some (if snapshot_ge x y then (x, 0) else (y, 1))
  | Some x, None => Some (x, 0)
  | None, Some y => Some (y, 1)
  | None, None => None
  end.

Definition pick_snapshot (a b : list byte) : option Snapshot :=
  match snapshot_decode a, snapshot_decode b with
  | Some x, Some y => Some (if snapshot_ge x y then x else y)
  | Some x, None => Some x
  | None, y => y
  end.

(** ** Hard state *)

Definition SLOT_SIZE : nat := 64.
Definition STATE_FILE_SIZE : nat := SLOT_SIZE * 2.
Definition NO_VOTE : Z := U32_MAX.

Record HardState : Type := mkHardState {
  hs_term : Z;
  hs_voted_for : option NodeId;
  hs_seq : Z;
}.

#[export] Instance HardState_eq_dec : EqDecision HardState.
Proof. solve_decision. Defined.

Definition hard_state_default : HardState := mkHardState 0 None 0.

Definition hard_state_body (h : HardState) : list byte :=
  enc_new |> enc_u64 (hs_seq h) |> enc_u64 (hs_term h)
  |> enc_u32 (default NO_VOTE (hs_voted_for h)).

(** [to_slot]: the body and its checksum at the head of 64 zeroed bytes. *)
Definition hard_state_to_slot (h : HardState) : list byte :=
  let body := hard_state_body h in
  body ++ to_le_bytes 4 (crc32 body)
  ++ replicate (SLOT_SIZE - (length body + 4)) x00.

Definition HARD_BODY : nat := 8 + 8 + 4.

Definition hard_state_fields : Decoder HardState :=
  seq ← dec_u64; term ← dec_u64; vote ← dec_u32;
  mret (mkHardState term (if vote =? NO_VOTE then None else Some vote) seq).

Definition hard_state_from_slot (slot : list byte) : option HardState :=
  if decide (length slot < SLOT_SIZE)%nat then None
  else
    let body := take HARD_BODY slot in
    let crc := le_u32_at slot HARD_BODY in
    if negb (crc32 body =? crc) then None
    else match hard_state_fields (dec_new body) with
         | Ok (h, _) => Some h
         | Err _ => None
         end.

(** Which slot the next write goes to. *)
Definition hard_state_slot_offset (seq : Z) : nat := Z.to_nat (seq mod 2) * SLOT_SIZE.

(** One turn of the loop of [recover_hard_state]. *)
Definition recover_slot (bytes : list byte) (best : HardState) (i : nat) : HardState :=
  let start := (i * SLOT_SIZE)%nat in
  if decide (length bytes < start + SLOT_SIZE)%nat then best
  else
    match hard_state_from_slot (take SLOT_SIZE (drop start bytes)) with
    | Some hs => if hs_seq best <=? hs_seq hs then hs else best
    | None => best
    end.

Definition recover_hard_state (bytes : list byte) : HardState :=
  foldl (recover_slot bytes) hard_state_default [0; 1]%nat.

(** ** Well-formed values *)

Definition snapshot_ok (s : Snapshot) : Prop :=
  is_u64 (sn_seq s) /\ is_u64 (sn_index s) /\ is_u64 (sn_term s).

Definition hard_state_ok (h : HardState) : Prop :=
  is_u64 (hs_seq h) /\ is_u64 (hs_term h) /\
  match hs_voted_for h with None => True | Some n => is_u32 n /\ n <> NO_VOTE end.

(** ** Lemmas *)

Lemma snapshot_payload_bytes s :
  snapshot_payload s
  = u64_bytes (sn_seq s) ++ u64_bytes (sn_index s) ++ u64_bytes (sn_term s)
    ++ blob_bytes (sn_data s).
Proof.
  unfold snapshot_payload. autorewrite with enc. unfold enc_new.
  by rewrite <- !app_assoc.
Qed.

Lemma length_u64_bytes v : length (u64_bytes v) = 8%nat.
Proof. apply length_to_le_bytes. Qed.

Lemma length_blob_bytes b : length (blob_bytes b) = (4 + length b)%nat.
Proof.
  unfold blob_bytes, enc_bytes, enc_u32, enc_new. rewrite !length_app, length_to_le_bytes. done.
Qed.

Lemma length_snapshot_payload s : length (snapshot_payload s) = (28 + length (sn_data s))%nat.
Proof.
  rewrite snapshot_payload_bytes, !length_app, !length_u64_bytes, length_blob_bytes. lia.
Qed.

(** The header and checksum of an encoded snapshot always pass, whatever
    follows it in the file: only its fields decide. *)
Lemma snapshot_decode_encode s rest :
  Z.of_nat (length (snapshot_payload s)) <= MAX_SNAPSHOT ->
  snapshot_decode (snapshot_encode s ++ rest)
  = match snapshot_fields (dec_new (snapshot_payload s)) with
    | Ok (s', _) => Some s'
    | Err _ => None
    end.
Proof.
  intros Hmax. pose proof (length_snapshot_payload s) as Hl.
  change MAX_SNAPSHOT with 67108864 in Hmax.
  destruct (record_header [] (snapshot_payload s) rest ltac:(lia)) as (Hlen & Hcrc & Hpay).
  cbn [app length Nat.add] in Hlen, Hcrc, Hpay.
  unfold snapshot_decode, snapshot_encode.
  rewrite Hlen, Hcrc, Nat2Z.id, Hpay, length_app, length_record_of.
  rewrite decide_False by lia.
  destruct (Z.eqb_spec (Z.of_nat (length (snapshot_payload s))) 0); [lia|].
  destruct (Z.ltb_spec MAX_SNAPSHOT (Z.of_nat (length (snapshot_payload s))));
    [change MAX_SNAPSHOT with 67108864 in *; lia|].
  destruct (Z.ltb_spec (Z.of_nat (8 + length (snapshot_payload s) + length rest))
    (8 + Z.of_nat (length (snapshot_payload s)))); [lia|].
  by rewrite Z.eqb_refl.
Qed.

Lemma snapshot_fields_reads s :
  snapshot_ok s -> blob_ok (sn_data s) -> reads snapshot_fields (snapshot_payload s) s.
Proof.
  destruct s as [seq index term data]. intros (? & ? & ?) ?. simpl in *.
  unfold snapshot_fields, snapshot_payload. reads_tac.
Qed.

Lemma length_hard_state_body h : length (hard_state_body h) = HARD_BODY.
Proof.
  unfold hard_state_body, enc_u64, enc_u32, enc_new.
  by rewrite !length_app, !length_to_le_bytes.
Qed.

Lemma length_hard_state_to_slot h : length (hard_state_to_slot h) = SLOT_SIZE.
Proof.
  unfold hard_state_to_slot.
  rewrite !length_app, length_to_le_bytes, length_replicate, length_hard_state_body. done.
Qed.

Lemma hard_state_fields_reads h :
  hard_state_ok h -> reads hard_state_fields (hard_state_body h) h.
Proof.
  destruct h as [term vote seq]. intros (Hs & Ht & Hv). simpl in *.
  assert (Hn : is_u32 (default NO_VOTE vote)).
  { destruct vote; simpl; [apply Hv|done]. }
  unfold hard_state_fields, hard_state_body. simpl hs_seq. simpl hs_term. simpl hs_voted_for.
  reads_start. reads_step. reads_step. reads_step.
  destruct vote as [n|]; simpl default.
  - destruct Hv as [_ Hv]. rewrite (proj2 (Z.eqb_neq _ _) Hv). apply reads_ret.
  - rewrite Z.eqb_refl. apply reads_ret.
Qed.

Lemma hard_state_slot_decodes h :
  hard_state_ok h -> hard_state_from_slot (hard_state_to_slot h) = Some h.
Proof.
  intros Hok. unfold hard_state_from_slot.
  rewrite length_hard_state_to_slot, decide_False by lia.
  unfold hard_state_to_slot. rewrite take_app_at by by rewrite length_hard_state_body.
  unfold le_u32_at. rewrite drop_app_at by by rewrite length_hard_state_body.
  rewrite take_app_at by by rewrite length_to_le_bytes.
  rewrite from_to_le_bytes by apply crc32_range. rewrite Z.eqb_refl. cbn [negb].
  by rewrite (reads_whole _ _ _ (hard_state_fields_reads h Hok)).
Qed.

(** Recovery of a state file given as its two slots. *)
Lemma recover_hard_state_slots s0 s1 rest :
  length s0 = SLOT_SIZE -> length s1 = SLOT_SIZE ->
  recover_hard_state (s0 ++ s1 ++ rest)
  = let b0 := match hard_state_from_slot s0 with
              | Some h => if 0 <=? hs_seq h then h else hard_state_default
              | None => hard_state_default end in
    match hard_state_from_slot s1 with
    | Some h => if hs_seq b0 <=? hs_seq h then h else b0
    | None => b0
    end.
Proof.
  intros H0 H1. unfold recover_hard_state. cbn [foldl]. unfold recover_slot.
  rewrite !length_app, H0, H1. rewrite !decide_False by (unfold SLOT_SIZE; lia).
  change (0 * SLOT_SIZE)%nat with 0%nat. rewrite drop_0, take_app_at by done.
  rewrite (drop_app_at s0), take_app_at by (rewrite ?H0; done). done.
Qed.

Lemma slot_seq_nonneg s h : hard_state_from_slot s = Some h -> 0 <= hs_seq h.
Proof.
  unfold hard_state_from_slot. case_decide; [done|]. destruct (negb _); [done|].
  unfold hard_state_fields.
  set (d := dec_new (take HARD_BODY s)).
  destruct (dec_u64 d) as [[seq d1]|] eqn:E1; unfold mbind, Decoder_bind; rewrite E1; [|done].
  destruct (dec_u64 d1) as [[term d2]|]; [|done].
  destruct (dec_u32 d2) as [[vote d3]|]; [|done]. simpl. intros [= <-]. simpl.
  assert (H0 : (d_pos d <= length (d_buf d))%nat) by (simpl; lia).
  destruct (parses_u64 _ _ _ H0 E1) as (_ & _ & _ & Hr). apply Hr.
Qed.

(** ** Properties *)

(** A snapshot image of at most [MAX_FIELD] bytes survives its file: it is
    decoded exactly, whatever bytes an earlier, longer snapshot left behind. *)
Theorem snapshot_roundtrip (s : Snapshot) (rest : list byte) :
  snapshot_ok s -> blob_ok (sn_data s) ->
  snapshot_decode (snapshot_encode s ++ rest) = Some s.
Proof.
  intros Hok Hb. rewrite snapshot_decode_encode.
  - by rewrite (reads_whole _ _ _ (snapshot_fields_reads s Hok Hb)).
  - rewrite length_snapshot_payload. unfold blob_ok in Hb.
    change MAX_FIELD with 1048576 in Hb. change MAX_SNAPSHOT with 67108864. lia.
Qed.

(** A snapshot whose image is larger than [MAX_FIELD] (1 MiB) is refused by
    the very decoder that bounds a snapshot at [MAX_SNAPSHOT] (64 MiB): an
    intact, synced snapshot of that size reads back as absent. *)
Theorem snapshot_above_field_bound_lost (s : Snapshot) (rest : list byte) :
  snapshot_ok s -> MAX_FIELD < Z.of_nat (length (sn_data s)) ->
  Z.of_nat (length (snapshot_payload s)) <= MAX_SNAPSHOT ->
  snapshot_decode (snapshot_encode s ++ rest) = None.
Proof.
  intros (Hs & Hi & Ht) Hbig Hmax. rewrite snapshot_decode_encode by done.
  rewrite length_snapshot_payload in Hmax. change MAX_SNAPSHOT with 67108864 in Hmax.
  set (len := Z.of_nat (length (sn_data s))) in *.
  assert (Hb : dec_bytes (mkDec
      ((u64_bytes (sn_seq s) ++ u64_bytes (sn_index s) ++ u64_bytes (sn_term s))
       ++ u32_bytes len ++ sn_data s)
      (length (u64_bytes (sn_seq s) ++ u64_bytes (sn_index s) ++ u64_bytes (sn_term s))))
    = Err TooLong).
  { apply dec_bytes_TooLong; [unfold is_u32; lia|done]. }
  assert (Hr : reads (a ← dec_u64; b ← dec_u64; c ← dec_u64; mret (a, b, c))
    (u64_bytes (sn_seq s) ++ u64_bytes (sn_index s) ++ u64_bytes (sn_term s))
    (sn_seq s, sn_index s, sn_term s)) by reads_tac.
  specialize (Hr [] (u32_bytes len ++ sn_data s)). revert Hr.
  rewrite snapshot_payload_bytes. change (blob_bytes (sn_data s)) with (u32_bytes len ++ sn_data s).
  rewrite !app_assoc in *. rewrite app_nil_l. change (length []) with 0%nat. rewrite Nat.add_0_l.
  unfold snapshot_fields, mbind, Decoder_bind, dec_new.
  destruct (dec_u64 _) as [[a d1]|]; [|done]. destruct (dec_u64 d1) as [[b d2]|]; [|done].
  destruct (dec_u64 d2) as [[c d3]|]; [|done]. intros E. injection E as _ _ _ Hd. rewrite Hd.
  match goal with |- context [dec_bytes ?d] => assert (E : dec_bytes d = Err TooLong) by exact Hb end.
  by rewrite E.
Qed.

(** Recovery uses the better of the two snapshot files: what it picks is an
    intact image from the file it names, no intact image in either file covers a
    higher index, and it finds nothing only when neither file is intact. *)
Theorem pick_snapshot_best (a b : list byte) :
  match pick_snapshot_with_source a b with
  | Some (s, src) =>
      pick_snapshot a b = Some s /\
      ((src = 0 /\ snapshot_decode a = Some s) \/ (src = 1 /\ snapshot_decode b = Some s)) /\
      (forall f s', f = a \/ f = b -> snapshot_decode f = Some s' ->
        sn_index s' < sn_index s \/ (sn_index s' = sn_index s /\ sn_seq s' <= sn_seq s))
  | None =>
      pick_snapshot a b = None /\ snapshot_decode a = None /\ snapshot_decode b = None
  end.
Proof.
  unfold pick_snapshot_with_source, pick_snapshot.
  destruct (snapshot_decode a) as [x|] eqn:Ea, (snapshot_decode b) as [y|] eqn:Eb; [|..|done].
  - unfold snapshot_ge.
    destruct (Z.ltb_spec (sn_index y) (sn_index x)), (Z.eqb_spec (sn_index x) (sn_index y)),
      (Z.leb_spec (sn_seq y) (sn_seq x)); simpl; (split; [done|split; [auto|]]);
      intros f s' [-> | ->] E; rewrite ?Ea, ?Eb in E; simplify_eq; lia.
  - split; [done|split; [auto|]]. intros f s' [-> | ->] E; rewrite ?Ea, ?Eb in E; simplify_eq; lia.
  - split; [done|split; [auto|]]. intros f s' [-> | ->] E; rewrite ?Ea, ?Eb in E; simplify_eq; lia.
Qed.

(** C9. Hard state survives an interrupted write.  With an intact slot holding
    [h] and any bytes at all in the other slot, recovery returns [h] unless the
    other slot is itself intact and at least as new, in which case it returns
    that one; and once the newer state is whole it is the one recovered. *)
Theorem hard_state_survives_torn_write (h : HardState) (other rest : list byte) (newer_first : bool) :
  hard_state_ok h -> length other = SLOT_SIZE ->
  let file := if newer_first then other ++ hard_state_to_slot h ++ rest
              else hard_state_to_slot h ++ other ++ rest in
  (recover_hard_state file = h \/
   exists o, hard_state_from_slot other = Some o /\ hs_seq h <= hs_seq o /\
     recover_hard_state file = o) /\
  (forall o, hard_state_from_slot other = Some o -> hs_seq h < hs_seq o ->
     recover_hard_state file = o).
Proof.
  intros Hok Hlen file. pose proof (length_hard_state_to_slot h) as Hl.
  pose proof (hard_state_slot_decodes h Hok) as Hd.
  assert (H0 : 0 <= hs_seq h) by apply Hok.
  destruct (hard_state_from_slot other) as [o|] eqn:Eo.
  - pose proof (slot_seq_nonneg _ _ Eo) as Ho.
    unfold file; destruct newer_first; rewrite recover_hard_state_slots by done; rewrite Eo, Hd;
      cbv zeta.
    + destruct (Z.leb_spec 0 (hs_seq o)); [|lia].
      destruct (Z.leb_spec (hs_seq o) (hs_seq h)); split; eauto with lia;
        intros o' [= <-]; [lia|done].
    + destruct (Z.leb_spec 0 (hs_seq h)); [|lia].
      destruct (Z.leb_spec (hs_seq h) (hs_seq o)); split; eauto with lia;
        intros o' [= <-]; [done|lia].
  - split; [left|done].
    unfold file; destruct newer_first; rewrite recover_hard_state_slots by done; rewrite Eo, Hd;
      cbv zeta; [simpl hs_seq|]; by destruct (Z.leb_spec 0 (hs_seq h)); [|lia].
Qed.

(** Consecutive hard-state writes go to different slots: the slot for
    [seq + 1] never overlaps the slot for [seq], and both lie inside the state
    region that precedes the log. *)
Theorem hard_state_slots_alternate (seq : Z) :
  (hard_state_slot_offset seq + SLOT_SIZE <= hard_state_slot_offset (seq + 1) \/
   hard_state_slot_offset (seq + 1) + SLOT_SIZE <= hard_state_slot_offset seq)%nat /\
  (hard_state_slot_offset seq + SLOT_SIZE <= STATE_FILE_SIZE)%nat.
Proof.
  unfold hard_state_slot_offset, STATE_FILE_SIZE, SLOT_SIZE.
  rewrite (Z.add_mod seq 1) by lia.
  assert (seq mod 2 = 0 \/ seq mod 2 = 1) as [-> | ->]
    by (pose proof (Z.mod_pos_bound seq 2); lia); simpl; lia.
Qed.

(** ** Witnesses *)

Lemma snapshot_roundtrip_witness :
  snapshot_decode (snapshot_encode (mkSnapshot 3 40 2 [x01; x02]) ++ [xff])
  = Some (mkSnapshot 3 40 2 [x01; x02]).
Proof.
  apply (snapshot_roundtrip (mkSnapshot 3 40 2 [x01; x02]) [xff]).
  - unfold snapshot_ok, is_u64. simpl. lia.
  - by vm_compute.
Defined.

Lemma snapshot_above_field_bound_lost_witness :
  snapshot_decode
    (snapshot_encode (mkSnapshot 1 40 2 (replicate (Z.to_nat 1048577) x00)) ++ []) = None.
Proof.
  apply (snapshot_above_field_bound_lost (mkSnapshot 1 40 2 (replicate (Z.to_nat 1048577) x00)) []).
  - unfold snapshot_ok, is_u64. simpl sn_seq. simpl sn_index. simpl sn_term. lia.
  - cbn [sn_data]. rewrite length_replicate, Z2Nat.id by lia. reflexivity.
  - rewrite length_snapshot_payload. cbn [sn_data]. rewrite length_replicate.
    rewrite Nat2Z.inj_add, Z2Nat.id by lia. by vm_compute.
Defined.

Lemma hard_state_survives_torn_write_witness :
  let h := mkHardState 5 (Some 2) 8 in
  recover_hard_state (hard_state_to_slot h ++ replicate 64 xff ++ []) = h.
Proof.
  destruct (hard_state_survives_torn_write (mkHardState 5 (Some 2) 8) (replicate 64 xff) [] false)
    as [[H|(o & Ho & _)] _].
  - unfold hard_state_ok, is_u64, is_u32. simpl. repeat split; try lia. done.
  - reflexivity.
  - exact H.
  - vm_compute in Ho. discriminate Ho.
Defined.
