(* ===== verification/Messages.v ===== *)
(** * Messages: everything that travels on the wire

    [RaftMsg] of [kvstore/raft.rs], [Outcome] and [ClientMsg] of
    [kvstore/server.rs], and the framed [Message] of [kvstore/lib.rs] that
    carries them, with their codecs. *)
From S2P Require Import Prelude Codec Crc LogFormat RaftLog.
From Stdlib.Init Require Import Byte.

(** ** Raft messages *)

Inductive RaftMsg : Type :=
| RequestVote (term : Z) (candidate : NodeId) (last_index last_term : Z)
| RequestVoteResp (term : Z) (granted : bool)
| AppendEntries (term : Z) (leader : NodeId) (prev_index prev_term : Z)
    (entries : list Entry) (leader_commit : Z)
| AppendEntriesResp (term : Z) (success : bool) (match_index conflict_index : Z)
| InstallSnapshot (term : Z) (leader : NodeId) (index index_term : Z) (data : list byte)
| InstallSnapshotResp (term index : Z)
| ReadProbe (term : Z) (leader : NodeId) (seq : Z)
| ReadProbeResp (term seq : Z)
| PreVote (term : Z) (candidate : NodeId) (last_index last_term : Z)
| PreVoteResp (term round : Z) (granted : bool).

#[export] Instance RaftMsg_eq_dec : EqDecision RaftMsg.
Proof. solve_decision. Defined.

Definition msg_term (m : RaftMsg) : Z :=
  match m with
  | RequestVote term _ _ _ | RequestVoteResp term _ | AppendEntries term _ _ _ _ _
  | AppendEntriesResp term _ _ _ | InstallSnapshot term _ _ _ _
  | InstallSnapshotResp term _ | ReadProbe term _ _ | ReadProbeResp term _
  | PreVote term _ _ _ | PreVoteResp term _ _ => term
  end.

Definition raft_msg_encode_into (m : RaftMsg) (e : Enc) : Enc :=
  match m with
  | RequestVote term candidate last_index last_term =>
      e |> enc_u8 1 |> enc_u64 term |> enc_u32 candidate |> enc_u64 last_index
      |> enc_u64 last_term
  | RequestVoteResp term granted =>
      e |> enc_u8 2 |> enc_u64 term |> enc_u8 (bool_as_u8 granted)
  | AppendEntries term leader prev_index prev_term entries leader_commit =>
      fold_left (fun e en => entry_encode_into en e) entries
        (e |> enc_u8 3 |> enc_u64 term |> enc_u32 leader |> enc_u64 prev_index
         |> enc_u64 prev_term |> enc_u64 leader_commit
         |> enc_u32 (Z.of_nat (length entries)))
  | AppendEntriesResp term success match_index conflict_index =>
      e |> enc_u8 4 |> enc_u64 term |> enc_u8 (bool_as_u8 success) |> enc_u64 match_index
      |> enc_u64 conflict_index
  | InstallSnapshot term leader index index_term data =>
      e |> enc_u8 5 |> enc_u64 term |> enc_u32 leader |> enc_u64 index |> enc_u64 index_term
      |> enc_bytes data
  | InstallSnapshotResp term index => e |> enc_u8 6 |> enc_u64 term |> enc_u64 index
  | ReadProbe term leader seq => e |> enc_u8 7 |> enc_u64 term |> enc_u32 leader |> enc_u64 seq
  | ReadProbeResp term seq => e |> enc_u8 8 |> enc_u64 term |> enc_u64 seq
  | PreVote term candidate last_index last_term =>
      e |> enc_u8 9 |> enc_u64 term |> enc_u32 candidate |> enc_u64 last_index
      |> enc_u64 last_term
  | PreVoteResp term round granted =>
      e |> enc_u8 10 |> enc_u64 term |> enc_u64 round |> enc_u8 (bool_as_u8 granted)
  end.

(** [d.u8()? != 0] *)
Definition dec_flag : Decoder bool := v ← dec_u8; mret (negb (v =? 0)).

Definition raft_msg_decode_from : Decoder RaftMsg :=
  t ← dec_u8;
  if t =? 1 then
    term ← dec_u64; candidate ← dec_u32; last_index ← dec_u64; last_term ← dec_u64;
    mret (RequestVote term candidate last_index last_term)
  else if t =? 2 then
    term ← dec_u64; granted ← dec_flag; mret (RequestVoteResp term granted)
  else if t =? 3 then
    term ← dec_u64; leader ← dec_u32; prev_index ← dec_u64; prev_term ← dec_u64;
    leader_commit ← dec_u64; count ← dec_u32;
    if 4096 <? count then dec_err TooLong
    else
      entries ← dec_repeat (Z.to_nat count) entry_decode_from;
      mret (AppendEntries term leader prev_index prev_term entries leader_commit)
  else if t =? 4 then
    term ← dec_u64; success ← dec_flag; match_index ← dec_u64; conflict_index ← dec_u64;
    mret (AppendEntriesResp term success match_index conflict_index)
  else if t =? 5 then
    term ← dec_u64; leader ← dec_u32; index ← dec_u64; index_term ← dec_u64;
    data ← dec_bytes; mret (InstallSnapshot term leader index index_term data)
  else if t =? 6 then
    term ← dec_u64; index ← dec_u64; mret (InstallSnapshotResp term index)
  else if t =? 7 then
    term ← dec_u64; leader ← dec_u32; seq ← dec_u64; mret (ReadProbe term leader seq)
  else if t =? 8 then
    term ← dec_u64; seq ← dec_u64; mret (ReadProbeResp term seq)
  else if t =? 9 then
    term ← dec_u64; candidate ← dec_u32; last_index ← dec_u64; last_term ← dec_u64;
    mret (PreVote term candidate last_index last_term)
  else if t =? 10 then
    term ← dec_u64; round ← dec_u64; granted ← dec_flag; mret (PreVoteResp term round granted)
  else dec_err (BadTag t).

(** ** Client messages *)

Inductive Outcome : Type :=
| OValue (v : option RString)
| Written
| OCas (ok : bool)
| NotLeader (hint : option NodeId)
| Dropped.

#[export] Instance Outcome_eq_dec : EqDecision Outcome.
Proof. solve_decision. Defined.

Definition outcome_is_definite (o : Outcome) : bool :=
  match o with OValue _ | Written | OCas _ => true | _ => false end.

Definition outcome_encode_into (o : Outcome) (e : Enc) : Enc :=
  match o with
  | OValue v => e |> enc_u8 0 |> enc_opt_str v
  | Written => e |> enc_u8 1
  | OCas ok => e |> enc_u8 2 |> enc_u8 (bool_as_u8 ok)
  | NotLeader hint => e |> enc_u8 3 |> enc_u32 (default U32_MAX hint)
  | Dropped => e |> enc_u8 4
  end.

Definition outcome_decode_from : Decoder Outcome :=
  t ← dec_u8;
  if t =? 0 then v ← dec_opt_string; mret (OValue v)
  else if t =? 1 then mret Written
  else if t =? 2 then ok ← dec_flag; mret (OCas ok)
  else if t =? 3 then
    n ← dec_u32; mret (NotLeader (if n =? U32_MAX then None else Some n))
  else if t =? 4 then mret Dropped
  else dec_err (BadTag t).

Inductive ClientMsg : Type :=
| Request (req_id client seq : Z) (op : Op)
| Reply (req_id : Z) (outcome : Outcome).

#[export] Instance ClientMsg_eq_dec : EqDecision ClientMsg.
Proof. solve_decision. Defined.

(** A request carries its client and sequence number twice: once itself, once
    inside the command it wraps. *)
Definition client_msg_encode_into (m : ClientMsg) (e : Enc) : Enc :=
  match m with
  | Request req_id client seq op =>
      e |> enc_u8 1 |> enc_u64 req_id |> enc_u32 client |> enc_u64 seq
      |> command_encode_into (mkCommand client seq op)
  | Reply req_id outcome => e |> enc_u8 2 |> enc_u64 req_id |> outcome_encode_into outcome
  end.

Definition client_msg_decode_from : Decoder ClientMsg :=
  t ← dec_u8;
  if t =? 1 then
    req_id ← dec_u64; client ← dec_u32; seq ← dec_u64; cmd ← command_decode_from;
    mret (Request req_id client seq (c_op cmd))
  else if t =? 2 then
    req_id ← dec_u64; outcome ← outcome_decode_from; mret (Reply req_id outcome)
  else dec_err (BadTag t).

(** ** Framed messages *)

Inductive Message : Type :=
| MRaft (m : RaftMsg)
| MClient (m : ClientMsg).

Definition message_payload (m : Message) : list byte :=
  match m with
  | MRaft m => enc_new |> enc_u8 1 |> raft_msg_encode_into m
  | MClient m => enc_new |> enc_u8 2 |> client_msg_encode_into m
  end.

Definition message_encode (m : Message) : list byte := frame (message_payload m).

Definition message_fields : Decoder Message :=
  t ← dec_u8;
  if t =? 1 then m ← raft_msg_decode_from; mret (MRaft m)
  else if t =? 2 then m ← client_msg_decode_from; mret (MClient m)
  else dec_err (BadTag t).

Definition message_decode (bytes : list byte) : Result DecodeError Message :=
  match unframe bytes with
  | Err e => Err e
  | Ok payload =>
      match message_fields (dec_new payload) with
      | Err e => Err e
      | Ok (msg, d) => match dec_finish d with Ok _ => Ok msg | Err e => Err e end
      end
  end.

(** ** The values the formats can carry *)

Definition raft_msg_ok (m : RaftMsg) : Prop :=
  match m with
  | RequestVote t c i lt | PreVote t c i lt => is_u64 t /\ is_u32 c /\ is_u64 i /\ is_u64 lt
  | RequestVoteResp t _ => is_u64 t
  | AppendEntries t l pi pt es lc =>
      is_u64 t /\ is_u32 l /\ is_u64 pi /\ is_u64 pt /\ is_u64 lc /\
      (length es <= 4096)%nat /\ Forall entry_ok es
  | AppendEntriesResp t _ m c => is_u64 t /\ is_u64 m /\ is_u64 c
  | InstallSnapshot t l i it d => is_u64 t /\ is_u32 l /\ is_u64 i /\ is_u64 it /\ blob_ok d
  | InstallSnapshotResp t i => is_u64 t /\ is_u64 i
  | ReadProbe t l s => is_u64 t /\ is_u32 l /\ is_u64 s
  | ReadProbeResp t s => is_u64 t /\ is_u64 s
  | PreVoteResp t r _ => is_u64 t /\ is_u64 r
  end.

Definition outcome_ok (o : Outcome) : Prop :=
  match o with
  | OValue v => opt_str_ok v
  | NotLeader (Some n) => is_u32 n /\ n <> U32_MAX
  | _ => True
  end.

Definition client_msg_ok (m : ClientMsg) : Prop :=
  match m with
  | Request r c s op => is_u64 r /\ is_u32 c /\ is_u64 s /\ op_ok op
  | Reply r o => is_u64 r /\ outcome_ok o
  end.

Definition message_ok (m : Message) : Prop :=
  match m with MRaft m => raft_msg_ok m | MClient m => client_msg_ok m end.

Definition raft_msg_bytes (m : RaftMsg) : list byte := raft_msg_encode_into m enc_new.
Definition outcome_bytes (o : Outcome) : list byte := outcome_encode_into o enc_new.
Definition client_msg_bytes (m : ClientMsg) : list byte := client_msg_encode_into m enc_new.
#[global] Arguments raft_msg_bytes : simpl never.
#[global] Arguments outcome_bytes : simpl never.
#[global] Arguments client_msg_bytes : simpl never.

(** ** Lemmas *)

Lemma reads_flag b : reads dec_flag (u8_bytes (bool_as_u8 b)) b.
Proof.
  eapply reads_bind_nil; [apply reads_u8, is_u8_bool|]. rewrite bool_as_u8_decode.
  apply reads_ret.
Qed.
Lemma consumes_flag : consumes dec_flag.
Proof. apply consumes_bind; auto with kv. Qed.
#[export] Hint Resolve reads_flag consumes_flag : kv.

Lemma raft_msg_encode_app m e : raft_msg_encode_into m e = e ++ raft_msg_bytes m.
Proof.
  unfold raft_msg_bytes. destruct m; cbn [raft_msg_encode_into];
    rewrite ?(enc_fold_app entry_encode_into entry_bytes) by apply entry_encode_app;
    autorewrite with enc; unfold enc_new; by rewrite <- ?app_assoc.
Qed.

Lemma outcome_encode_app o e : outcome_encode_into o e = e ++ outcome_bytes o.
Proof.
  unfold outcome_bytes. destruct o; cbn [outcome_encode_into];
    autorewrite with enc; unfold enc_new; by rewrite <- ?app_assoc.
Qed.
#[export] Hint Rewrite raft_msg_encode_app outcome_encode_app : enc.

Lemma client_msg_encode_app m e : client_msg_encode_into m e = e ++ client_msg_bytes m.
Proof.
  unfold client_msg_bytes. destruct m; cbn [client_msg_encode_into];
    autorewrite with enc; unfold enc_new; by rewrite <- ?app_assoc.
Qed.
#[export] Hint Rewrite client_msg_encode_app : enc.

Lemma raft_msg_reads m : raft_msg_ok m -> reads raft_msg_decode_from (raft_msg_bytes m) m.
Proof.
  intros Hok. unfold raft_msg_decode_from, raft_msg_bytes.
  destruct m as [| |t l pi pt es lc| | | | | | |]; cbn [raft_msg_encode_into];
    simpl in Hok; kv_clean; [reads_tac..| |reads_tac|reads_tac|reads_tac|reads_tac|reads_tac|reads_tac|reads_tac].
  rewrite (enc_fold_app entry_encode_into entry_bytes) by apply entry_encode_app.
  assert (is_u32 (Z.of_nat (length es))) by (unfold is_u32; lia).
  reads_start. do 7 reads_step.
  destruct (Z.ltb_spec 4096 (Z.of_nat (length es))); [lia|].
  rewrite Nat2Z.id. eapply reads_bind; [|apply reads_ret].
  apply reads_repeat. eapply Forall_impl; [done|]. auto with kv.
Qed.

Lemma raft_msg_consumes : consumes raft_msg_decode_from.
Proof. unfold raft_msg_decode_from. consumes_tac. Qed.

#[export] Instance raft_msg_wire : Wire RaftMsg := {|
  wire_enc := raft_msg_encode_into; wire_dec := raft_msg_decode_from;
  wire_ok := raft_msg_ok; wire_bytes := raft_msg_bytes; wire_app := raft_msg_encode_app;
  wire_reads := raft_msg_reads; wire_consumes := raft_msg_consumes |}.

Lemma outcome_reads o : outcome_ok o -> reads outcome_decode_from (outcome_bytes o) o.
Proof.
  intros Hok. unfold outcome_decode_from, outcome_bytes.
  destruct o as [v| |ok|hint|]; cbn [outcome_encode_into]; simpl in Hok; try reads_tac.
  assert (is_u32 (default U32_MAX hint)) by (destruct hint; [apply Hok|done]).
  reads_start. reads_step. destruct hint as [n|]; simpl default.
  - destruct Hok as [_ Hn]. rewrite (proj2 (Z.eqb_neq _ _) Hn). apply reads_ret.
  - rewrite Z.eqb_refl. apply reads_ret.
Qed.

Lemma outcome_consumes : consumes outcome_decode_from.
Proof. unfold outcome_decode_from. consumes_tac. Qed.

#[export] Instance outcome_wire : Wire Outcome := {|
  wire_enc := outcome_encode_into; wire_dec := outcome_decode_from;
  wire_ok := outcome_ok; wire_bytes := outcome_bytes; wire_app := outcome_encode_app;
  wire_reads := outcome_reads; wire_consumes := outcome_consumes |}.
#[export] Hint Resolve raft_msg_reads raft_msg_consumes outcome_reads outcome_consumes : kv.

Lemma client_msg_reads m : client_msg_ok m -> reads client_msg_decode_from (client_msg_bytes m) m.
Proof.
  intros Hok. unfold client_msg_decode_from, client_msg_bytes.
  destruct m as [r c s op|r o]; cbn [client_msg_encode_into]; simpl in Hok; kv_clean; [|reads_tac].
  assert (command_ok (mkCommand c s op)) by done. reads_tac.
Qed.

Lemma client_msg_consumes : consumes client_msg_decode_from.
Proof. unfold client_msg_decode_from. consumes_tac. Qed.

#[export] Instance client_msg_wire : Wire ClientMsg := {|
  wire_enc := client_msg_encode_into; wire_dec := client_msg_decode_from;
  wire_ok := client_msg_ok; wire_bytes := client_msg_bytes; wire_app := client_msg_encode_app;
  wire_reads := client_msg_reads; wire_consumes := client_msg_consumes |}.
#[export] Hint Resolve client_msg_reads client_msg_consumes : kv.

Lemma message_fields_reads m : message_ok m -> reads message_fields (message_payload m) m.
Proof.
  intros Hok. unfold message_fields. destruct m as [m|m]; simpl in Hok;
    cbn [message_payload]; reads_tac.
Qed.

(** Decoding looks at nothing but the payload of the frame. *)
Lemma message_decode_frame p :
  message_decode (frame p)
  = match message_fields (dec_new p) with
    | Err e => Err e
    | Ok (msg, d) => match dec_finish d with Ok _ => Ok msg | Err e => Err e end
    end.
Proof. unfold message_decode. by rewrite unframe_frame. Qed.

Lemma message_decode_encode m : message_ok m -> message_decode (message_encode m) = Ok m.
Proof.
  intros Hok. unfold message_encode. rewrite message_decode_frame.
  rewrite (reads_whole _ _ _ (message_fields_reads m Hok)). by rewrite dec_finish_end.
Qed.

(** ** Properties *)

(** C11. Every message that fits the wire's bounds -- each Raft message kind,
    requests and replies -- is decoded exactly as it was encoded. *)
Theorem message_roundtrip (m : Message) :
  message_ok m -> message_decode (message_encode m) = Ok m.
Proof. apply message_decode_encode. Qed.

(** ** Witnesses *)

Definition demo_message : Message :=
  MRaft (AppendEntries 4 1 5 4 [mkEntry 4 6 (mkCommand 9 2 (Put [x61] [x62]))] 3).

Lemma demo_message_ok : message_ok demo_message.
Proof.
  unfold message_ok, demo_message, raft_msg_ok, is_u64, is_u32. simpl length.
  repeat split; try lia. constructor; [|constructor].
  unfold entry_ok, command_ok, is_u64, is_u32, op_ok, str_ok. simpl.
  repeat split; try lia; by vm_compute.
Qed.

Lemma message_roundtrip_witness : message_decode (message_encode demo_message) = Ok demo_message.
Proof. exact (message_roundtrip demo_message demo_message_ok). Defined.
