(* ===== verification/Config.v ===== *)
(** * Config: roles, read modes, deliberate defects and settings

    The enumerations and [RaftConfig] of [kvstore/raft.rs]. *)
From S2P Require Import Prelude.
From Stdlib Require Import String.

Inductive InjectedBug : Type :=
| BugNone
| AckBeforeSync
| CommitAnyTerm
| VoteBeforeSync
| NoDedup
| TruncateOnAnyAppend
| ReadWithoutQuorum
| ReadBeforeTermCommit
| ConfigBeforeTermCommit.

#[export] Instance InjectedBug_eq_dec : EqDecision InjectedBug.
Proof. solve_decision. Defined.

(** [InjectedBug::ALL] *)
Definition all_bugs : list InjectedBug :=
  [AckBeforeSync; CommitAnyTerm; VoteBeforeSync; NoDedup; TruncateOnAnyAppend;
   ReadWithoutQuorum; ReadBeforeTermCommit; ConfigBeforeTermCommit].

Definition bug_name (b : InjectedBug) : string :=
  match b with
  | BugNone => "none"
  | AckBeforeSync => "ack-before-sync"
  | CommitAnyTerm => "commit-any-term"
  | VoteBeforeSync => "vote-before-sync"
  | NoDedup => "no-dedup"
  | TruncateOnAnyAppend => "truncate-on-any-append"
  | ReadWithoutQuorum => "read-without-quorum"
  | ReadBeforeTermCommit => "read-before-term-commit"
  | ConfigBeforeTermCommit => "config-before-term-commit"
  end%string.

Definition bug_parse (s : string) : option InjectedBug :=
  List.find (fun b => String.eqb (bug_name b) s) (BugNone :: all_bugs).

Inductive ReadMode : Type := ReadLog | ReadIndex.

#[export] Instance ReadMode_eq_dec : EqDecision ReadMode.
Proof. solve_decision. Defined.

Definition read_mode_parse (s : string) : option ReadMode :=
  if String.eqb s "log" then Some ReadLog
  else if String.eqb s "index" || String.eqb s "read-index" then Some ReadIndex
  else None.

Definition read_mode_name (m : ReadMode) : string :=
  match m with ReadLog => "log" | ReadIndex => "index" end%string.

Inductive Role : Type := Follower | Candidate | Leader.

#[export] Instance Role_eq_dec : EqDecision Role.
Proof. solve_decision. Defined.

Definition role_name (r : Role) : string :=
  match r with Follower => "follower" | Candidate => "candidate" | Leader => "leader" end%string.

(** Virtual time in nanoseconds ([simcore/lib.rs]). *)
Definition MILLIS : Z := 1000000.

Record RaftConfig : Type := mkRaftConfig {
  cfg_election_timeout : Z * Z;
  cfg_heartbeat_interval : Z;
  cfg_max_batch : nat;
  cfg_snapshot_threshold : Z;
  cfg_read_mode : ReadMode;
  cfg_leader_stickiness : bool;
  cfg_pre_vote : bool;
  cfg_bug : InjectedBug;
}.

Definition raft_config_default : RaftConfig :=
  mkRaftConfig (300 * MILLIS, 600 * MILLIS) (50 * MILLIS) 64 400 ReadIndex true true BugNone.

(** A defect's name parses back to the defect. *)
Lemma bug_parse_name b : bug_parse (bug_name b) = Some b.
Proof. by destruct b. Qed.

Lemma read_mode_parse_name m : read_mode_parse (read_mode_name m) = Some m.
Proof. by destruct m. Qed.
