(* ===== verification/StateMachine.v ===== *)
(** * StateMachine: the replicated key-value map of [kvstore/server.rs]

    [StateMachine] with its session table.  The two [BTreeMap]s are [gmap]s;
    where the source iterates one ([encode]) the items are taken in key order. *)
From S2P Require Import Prelude Codec Crc LogFormat RaftLog Messages Config.
From Stdlib.Init Require Import Byte.

Record Session : Type := mkSession { s_seq : Z; s_outcome : Outcome }.

Record StateMachine : Type := mkStateMachine {
  sm_state : gmap RString RString;
  sm_sessions : gmap Z Session;
  sm_bug : InjectedBug;
}.

Definition sm_with_bug (bug : InjectedBug) : StateMachine := mkStateMachine ∅ ∅ bug.
Definition sm_new : StateMachine := sm_with_bug BugNone.

(** The remembered result for [(client, seq)]. *)
Definition sm_cached (sm : StateMachine) (client seq : Z) : option Outcome :=
  if decide (sm_bug sm = NoDedup) then None
  else
    s ← sm_sessions sm !! client;
    if s_seq s =? seq then Some (s_outcome s) else None.

(** ** Iteration in key order *)

Fixpoint bytes_le (a b : list byte) : bool :=
  match a, b with
  | [], _ => true
  | _ :: _, [] => false
  | x :: a, y :: b =>
      (byte_to_Z x <? byte_to_Z y) || ((byte_to_Z x =? byte_to_Z y) && bytes_le a b)
  end.

Definition key_le (x y : RString * RString) : Prop := bytes_le x.1 y.1 = true.
#[export] Instance key_le_dec x y : Decision (key_le x y).
Proof. unfold key_le. apply _. Defined.

Definition client_le (x y : Z * Session) : Prop := x.1 <= y.1.
#[export] Instance client_le_dec x y : Decision (client_le x y).
Proof. unfold client_le. apply _. Defined.

Definition state_items (m : gmap RString RString) : list (RString * RString) :=
  merge_sort key_le (map_to_list m).

Definition session_items (m : gmap Z Session) : list (Z * Session) :=
  merge_sort client_le (map_to_list m).

(** ** Snapshots of the whole machine *)

Definition enc_pair (p : RString * RString) (e : Enc) : Enc :=
  e |> enc_str p.1 |> enc_str p.2.

Definition enc_session (p : Z * Session) (e : Enc) : Enc :=
  e |> enc_u32 p.1 |> enc_u64 (s_seq p.2) |> outcome_encode_into (s_outcome p.2).

Definition sm_encode (sm : StateMachine) : list byte :=
  let e := enc_new |> enc_u32 (Z.of_nat (size (sm_state sm))) in
  let e := fold_left (fun e p => enc_pair p e) (state_items (sm_state sm)) e in
  let e := e |> enc_u32 (Z.of_nat (size (sm_sessions sm))) in
  fold_left (fun e p => enc_session p e) (session_items (sm_sessions sm)) e.

Fixpoint restore_state (n : nat) (m : gmap RString RString) : Decoder (gmap RString RString) :=
  match n with
  | O => mret m
  | S n => k ← dec_string; v ← dec_string; restore_state n (<[k := v]> m)
  end.

Fixpoint restore_sessions (n : nat) (m : gmap Z Session) : Decoder (gmap Z Session) :=
  match n with
  | O => mret m
  | S n =>
      client ← dec_u32; seq ← dec_u64; outcome ← outcome_decode_from;
      restore_sessions n (<[client := mkSession seq outcome]> m)
  end.

Definition sm_restore_fields (bug : InjectedBug) : Decoder StateMachine :=
  keys ← dec_u32;
  if Z.shiftl 1 20 <? keys then dec_err TooLong
  else
    state ← restore_state (Z.to_nat keys) ∅;
    sessions ← dec_u32;
    if Z.shiftl 1 20 <? sessions then dec_err TooLong
    else
      sess ← restore_sessions (Z.to_nat sessions) ∅;
      mret (mkStateMachine state sess bug).

Definition sm_restore (bytes : list byte) (bug : InjectedBug) : Result DecodeError StateMachine :=
  match sm_restore_fields bug (dec_new bytes) with
  | Ok (sm, _) => Ok sm
  | Err e => Err e
  end.

(** ** Applying a command *)

(** What an operation does to the map, and what it answers. *)
Definition op_effect (state : gmap RString RString) (o : Op)
  : Outcome * gmap RString RString :=
  match o with
  | Noop | SetMembers _ => (Written, state)
  | Get key => (OValue (state !! key), state)
  | Put key value => (Written, <[key := value]> state)
  | Delete key => (Written, delete key state)
  | Cas key expect value =>
      if decide (state !! key = expect) then (OCas true, <[key := value]> state)
      else (OCas false, state)
  end.

Definition sm_apply (sm : StateMachine) (cmd : Command) : Outcome * StateMachine :=
  if command_is_noop cmd || bool_decide (is_Some (command_members cmd)) then (Written, sm)
  else
    let run :=
      let '(outcome, state) := op_effect (sm_state sm) (c_op cmd) in
      (outcome, mkStateMachine state
                  (<[c_client cmd := mkSession (c_seq cmd) outcome]> (sm_sessions sm))
                  (sm_bug sm)) in
    match sm_sessions sm !! c_client cmd with
    | Some s =>
        if (c_seq cmd <=? s_seq s) && negb (bool_decide (sm_bug sm = NoDedup))
        then (s_outcome s, sm)
        else run
    | None => run
    end.

(** Applying a committed run of commands, oldest first. *)
Definition sm_run (sm : StateMachine) (cmds : list Command) : StateMachine :=
  fold_left (fun sm c => (sm_apply sm c).2) cmds sm.

(** ** Specification: each client operation takes effect once *)

(** A command of Raft's own: it belongs to no client. *)
Definition is_raft_command (c : Command) : bool :=
  command_is_noop c || bool_decide (is_Some (command_members c)).

(** An operation of a client, by its number. *)
Definition operation_id (c : Command) : Z * Z := (c_client c, c_seq c).
(** The client operations of a run without their repeats, given those seen before. *)
Fixpoint once (seen : gset (Z * Z)) (cmds : list Command) : list Command :=
  match cmds with
  | [] => []
  | c :: cmds =>
      if is_raft_command c || bool_decide (operation_id c ∈ seen) then once seen cmds
      else c :: once ({[ operation_id c ]} ∪ seen) cmds
  end.
(** Each client's operations first occur in the order of their numbers. *)
Fixpoint in_order (seen : gset (Z * Z)) (cmds : list Command) : Prop :=
  match cmds with
  | [] => True
  | c :: cmds =>
      if is_raft_command c || bool_decide (operation_id c ∈ seen) then in_order seen cmds
      else set_Forall (fun k => k.1 = c_client c -> k.2 < c_seq c) seen /\
        in_order ({[ operation_id c ]} ∪ seen) cmds
  end.

Definition exec_once (state : gmap RString RString) (cmds : list Command)
  : gmap RString RString :=
  fold_left (fun st c => (op_effect st (c_op c)).2) cmds state.

(** A machine the snapshot format can carry. *)
Record sm_ok (sm : StateMachine) : Prop := {
  sok_state : map_Forall (fun k v => str_ok k /\ str_ok v) (sm_state sm);
  sok_sessions :
    map_Forall (fun c s => is_u32 c /\ is_u64 (s_seq s) /\ outcome_ok (s_outcome s))
      (sm_sessions sm);
  sok_keys : Z.of_nat (size (sm_state sm)) <= Z.shiftl 1 20;
  sok_clients : Z.of_nat (size (sm_sessions sm)) <= Z.shiftl 1 20;
}.

(** ** Lemmas: the snapshot *)

Lemma state_items_Permutation m : state_items m ≡ₚ map_to_list m.
Proof. apply merge_sort_Permutation. Qed.
Lemma session_items_Permutation m : session_items m ≡ₚ map_to_list m.
Proof. apply merge_sort_Permutation. Qed.

Definition pair_bytes (p : RString * RString) : list byte := blob_bytes p.1 ++ blob_bytes p.2.
Definition session_bytes (p : Z * Session) : list byte :=
  u32_bytes p.1 ++ u64_bytes (s_seq p.2) ++ outcome_bytes (s_outcome p.2).

Lemma enc_pair_app p e : enc_pair p e = e ++ pair_bytes p.
Proof. unfold enc_pair, pair_bytes. autorewrite with enc. by rewrite <- app_assoc. Qed.
Lemma enc_session_app p e : enc_session p e = e ++ session_bytes p.
Proof. unfold enc_session, session_bytes. autorewrite with enc. by rewrite <- !app_assoc. Qed.

Lemma sm_encode_bytes sm :
  sm_encode sm
  = u32_bytes (Z.of_nat (size (sm_state sm)))
    ++ concat (map pair_bytes (state_items (sm_state sm)))
    ++ u32_bytes (Z.of_nat (size (sm_sessions sm)))
    ++ concat (map session_bytes (session_items (sm_sessions sm))).
Proof.
  unfold sm_encode.
  rewrite (enc_fold_app enc_pair pair_bytes) by apply enc_pair_app.
  rewrite (enc_fold_app enc_session session_bytes) by apply enc_session_app.
  autorewrite with enc. unfold enc_new. by rewrite <- !app_assoc.
Qed.

Lemma restore_state_reads l m :
  Forall (fun p => str_ok p.1 /\ str_ok p.2) l ->
  reads (restore_state (length l) m) (concat (map pair_bytes l))
    (fold_left (fun m p => <[p.1 := p.2]> m) l m).
Proof.
  intros Hl. revert m. induction Hl as [|[k v] l [Hk Hv] _ IH]; intros m;
    cbn [restore_state length map concat fold_left].
  - apply reads_ret.
  - change (pair_bytes (k, v)) with (blob_bytes k ++ blob_bytes v). rewrite <- app_assoc.
    eapply reads_bind; [by apply reads_string|].
    eapply reads_bind; [by apply reads_string|]. apply IH.
Qed.

Lemma restore_sessions_reads l m :
  Forall (fun p => is_u32 p.1 /\ is_u64 (s_seq p.2) /\ outcome_ok (s_outcome p.2)) l ->
  reads (restore_sessions (length l) m) (concat (map session_bytes l))
    (fold_left (fun m p => <[p.1 := p.2]> m) l m).
Proof.
  intros Hl. revert m. induction Hl as [|[c [q o]] l (Hc & Hq & Ho) _ IH]; intros m;
    cbn [restore_sessions length map concat fold_left].
  - apply reads_ret.
  - change (session_bytes (c, mkSession q o)) with (u32_bytes c ++ u64_bytes q ++ outcome_bytes o).
    rewrite <- !app_assoc.
    eapply reads_bind; [by apply reads_u32|].
    eapply reads_bind; [by apply reads_u64|].
    eapply reads_bind; [by apply outcome_reads|]. apply IH.
Qed.

(** Inserting the items of a map, in any order, rebuilds the map. *)
Lemma fold_insert_items `{Countable K} {V} (m : gmap K V) l :
  l ≡ₚ map_to_list m -> fold_left (fun m p => <[p.1 := p.2]> m) l ∅ = m.
Proof.
  intros Hl.
  assert (Hnd : NoDup l.*1) by (rewrite Hl; apply NoDup_fst_map_to_list).
  assert (Hgen : forall (l : list (K * V)) (m0 : gmap K V), NoDup l.*1 -> (forall k, k ∈ l.*1 -> m0 !! k = None) ->
    fold_left (fun m p => <[p.1 := p.2]> m) l m0 = (list_to_map l : gmap K V) ∪ m0).
  { clear. intros l. induction l as [|[k v] l IH]; simpl; intros m0 Hnd Hm0.
    - by rewrite (left_id_L ∅ (∪)).
    - apply NoDup_cons in Hnd as [Hk Hnd]. rewrite IH; [|done|].
      + rewrite <- insert_union_r; [by rewrite insert_union_l|].
        by apply not_elem_of_list_to_map_1.
      + intros k' Hk'. rewrite lookup_insert_ne; [apply Hm0; set_solver|].
        intros ->. done. }
  rewrite Hgen by (done || intros; apply lookup_empty). rewrite (right_id_L ∅ (∪)).
  rewrite <- (list_to_map_to_list m). by apply list_to_map_proper.
Qed.

(** ** Lemmas: applying *)

Lemma sm_apply_raft sm c : is_raft_command c = true -> sm_apply sm c = (Written, sm).
Proof. unfold sm_apply, is_raft_command. by intros ->. Qed.

Lemma sm_apply_repeat sm c s :
  sm_bug sm <> NoDedup -> is_raft_command c = false ->
  sm_sessions sm !! c_client c = Some s -> c_seq c <= s_seq s ->
  sm_apply sm c = (s_outcome s, sm).
Proof.
  unfold sm_apply, is_raft_command. intros Hb -> -> Hs.
  rewrite (proj2 (Z.leb_le _ _) Hs), bool_decide_false by done. done.
Qed.

(** A command newer than anything its client has sent runs. *)
Definition fresh (sm : StateMachine) (c : Command) : Prop :=
  match sm_sessions sm !! c_client c with Some s => s_seq s < c_seq c | None => True end.

Lemma sm_apply_fresh sm c :
  is_raft_command c = false -> fresh sm c ->
  sm_apply sm c
  = ((op_effect (sm_state sm) (c_op c)).1,
     mkStateMachine (op_effect (sm_state sm) (c_op c)).2
       (<[c_client c := mkSession (c_seq c) (op_effect (sm_state sm) (c_op c)).1]>
          (sm_sessions sm)) (sm_bug sm)).
Proof.
  unfold sm_apply, is_raft_command, fresh. intros ->.
  destruct (op_effect (sm_state sm) (c_op c)) as [o st]. simpl.
  destruct (sm_sessions sm !! c_client c) as [s|]; [|done].
  intros Hs. by rewrite (proj2 (Z.leb_gt _ _) Hs).
Qed.

Lemma sm_apply_bug sm c : sm_bug (sm_apply sm c).2 = sm_bug sm.
Proof.
  unfold sm_apply. case_match; [done|].
  destruct (op_effect (sm_state sm) (c_op c)) as [o st].
  destruct (sm_sessions sm !! c_client c); [case_match|]; done.
Qed.

(** Every command is one of Raft's own, a repeat, or fresh. *)
Lemma sm_apply_cases sm c :
  sm_bug sm <> NoDedup ->
  (is_raft_command c = true /\ sm_apply sm c = (Written, sm)) \/
  (is_raft_command c = false /\ exists s, sm_sessions sm !! c_client c = Some s /\
     c_seq c <= s_seq s /\ sm_apply sm c = (s_outcome s, sm)) \/
  (is_raft_command c = false /\ fresh sm c).
Proof.
  intros Hb. destruct (is_raft_command c) eqn:Hr; [left; auto using sm_apply_raft|right].
  unfold fresh. destruct (sm_sessions sm !! c_client c) as [s|] eqn:Hs; [|by right].
  destruct (Z.le_gt_cases (c_seq c) (s_seq s)); [left|right; done].
  split; [done|]. exists s. auto using sm_apply_repeat.
Qed.

(** The session a client's newest command leaves behind. *)
Definition remembers (sm : StateMachine) (c : Command) (o : Outcome) : Prop :=
  sm_sessions sm !! c_client c = Some (mkSession (c_seq c) o).

Lemma remembers_stable sm c o c' :
  sm_bug sm <> NoDedup -> remembers sm c o ->
  c_client c' <> c_client c \/ c_seq c' <= c_seq c ->
  remembers (sm_apply sm c').2 c o.
Proof.
  unfold remembers. intros Hb Hr Hc'.
  destruct (sm_apply_cases sm c' Hb) as [[_ ->]|[(_ & s & _ & _ & ->)|[Hnr Hf]]]; [done..|].
  rewrite sm_apply_fresh by done. simpl.
  destruct (decide (c_client c' = c_client c)) as [E|E].
  - unfold fresh in Hf. rewrite E, Hr in Hf. simpl in Hf. lia.
  - by rewrite lookup_insert_ne.
Qed.

Lemma sm_run_bug cmds sm : sm_bug (sm_run sm cmds) = sm_bug sm.
Proof.
  revert sm; induction cmds as [|c cmds IH]; intros sm; [done|].
  change (sm_run sm (c :: cmds)) with (sm_run (sm_apply sm c).2 cmds).
  by rewrite IH, sm_apply_bug.
Qed.

(** ** Properties *)

(** C12. A snapshot of the state machine restores to exactly that machine: every
    key and value, and every client's remembered request and result. *)
Theorem sm_restore_encode (sm : StateMachine) :
  sm_ok sm -> sm_restore (sm_encode sm) (sm_bug sm) = Ok sm.
Proof.
  intros [Hst Hse Hk Hc]. change (Z.shiftl 1 20) with 1048576 in *.
  assert (Hr : reads (sm_restore_fields (sm_bug sm)) (sm_encode sm) sm).
  { rewrite sm_encode_bytes. unfold sm_restore_fields.
    eapply reads_bind; [apply reads_u32; unfold is_u32; lia|].
    change (Z.shiftl 1 20) with 1048576.
    rewrite (proj2 (Z.ltb_ge _ _) Hk), Nat2Z.id.
    pose proof (state_items_Permutation (sm_state sm)) as Hp1.
    pose proof (session_items_Permutation (sm_sessions sm)) as Hp2.
    eapply reads_bind.
    { replace (size (sm_state sm)) with (length (state_items (sm_state sm)))
        by (rewrite Hp1; apply length_map_to_list).
      apply restore_state_reads. rewrite Hp1. apply map_Forall_to_list in Hst.
      eapply Forall_impl; [exact Hst|by intros []]. }
    rewrite (fold_insert_items (sm_state sm)) by done.
    eapply reads_bind; [apply reads_u32; unfold is_u32; lia|].
    rewrite (proj2 (Z.ltb_ge _ _) Hc), Nat2Z.id.
    eapply reads_bind_nil.
    { replace (size (sm_sessions sm)) with (length (session_items (sm_sessions sm)))
        by (rewrite Hp2; apply length_map_to_list).
      apply restore_sessions_reads. rewrite Hp2. apply map_Forall_to_list in Hse.
      eapply Forall_impl; [exact Hse|by intros []]. }
    rewrite (fold_insert_items (sm_sessions sm)) by done.
    destruct sm. apply reads_ret. }
  unfold sm_restore. by rewrite (reads_whole _ _ _ Hr).
Qed.

(** A retried request is answered as it was the first time and changes
    nothing, however many commands of other clients, older requests of the same
    client or entries of Raft's own were applied in between. *)
Theorem sm_retry_is_noop (sm : StateMachine) (c : Command) (between : list Command) :
  sm_bug sm <> NoDedup -> is_raft_command c = false -> fresh sm c ->
  Forall (fun c' => c_client c' <> c_client c \/ c_seq c' <= c_seq c) between ->
  let first := sm_apply sm c in
  let later := sm_run first.2 between in
  sm_apply later c = (first.1, later) /\ sm_cached later (c_client c) (c_seq c) = Some first.1.
Proof.
  intros Hb Hr Hf Hall first later.
  assert (Hrem : remembers later c first.1).
  { assert (H1 : remembers first.2 c first.1)
      by (unfold first, remembers; rewrite sm_apply_fresh by done; apply lookup_insert_eq).
    assert (Hb1 : sm_bug first.2 <> NoDedup) by (unfold first; by rewrite sm_apply_bug).
    unfold later, sm_run. clear -H1 Hb1 Hall. revert H1 Hb1. generalize first.1 first.2.
    intros o sm1. revert sm1. induction Hall as [|c' l Hc' _ IH]; intros sm1 H1 Hb1; simpl; [done|].
    apply IH; [by apply remembers_stable|by rewrite sm_apply_bug]. }
  assert (Hbl : sm_bug later <> NoDedup)
    by (unfold later, first; by rewrite sm_run_bug, sm_apply_bug).
  unfold remembers in Hrem. split.
  - by apply (sm_apply_repeat _ _ _ Hbl Hr Hrem).
  - unfold sm_cached. rewrite decide_False by done. rewrite Hrem. simpl. by rewrite Z.eqb_refl.
Qed.

(** What the sessions remember of the operations seen. *)
Record seen_by (sm : StateMachine) (seen : gset (Z * Z)) : Prop := {
  sb_newest : forall cl s, sm_sessions sm !! cl = Some s -> (cl, s_seq s) ∈ seen;
  sb_known : forall cl q, (cl, q) ∈ seen -> exists s, sm_sessions sm !! cl = Some s /\ q <= s_seq s;
}.
Lemma seen_by_apply sm seen c :
  is_raft_command c = false -> fresh sm c -> seen_by sm seen -> seen_by (sm_apply sm c).2 ({[ operation_id c ]} ∪ seen).
Proof.
  intros Hr Hf [Hn Hk]. rewrite sm_apply_fresh by done. unfold fresh in Hf. split; simpl; intros cl.
  - intros s. destruct (decide (cl = c_client c)) as [->|Hne].
    + rewrite lookup_insert_eq. intros [= <-]. simpl. set_solver.
    + rewrite lookup_insert_ne by done. intros Hs. apply Hn in Hs. set_solver.
  - intros q Hin. destruct (decide (cl = c_client c)) as [->|Hne].
    + rewrite lookup_insert_eq. eexists. split; [done|]. simpl. apply elem_of_union in Hin as [Hin|Hin].
      * apply elem_of_singleton in Hin. injection Hin as ->. lia.
      * destruct (Hk _ _ Hin) as (s & Hs & ?). rewrite Hs in Hf. lia.
    + rewrite lookup_insert_ne by done. apply Hk. unfold operation_id in Hin. set_solver.
Qed.
Lemma in_order_fresh sm seen c :
  seen_by sm seen -> set_Forall (fun k => k.1 = c_client c -> k.2 < c_seq c) seen -> fresh sm c.
Proof. intros [Hn _] Ho. unfold fresh. destruct (_ !! _) as [s|] eqn:Hs; [|done]. by apply (Ho _ (Hn _ _ Hs)). Qed.
Lemma seen_repeat sm seen c :
  sm_bug sm <> NoDedup -> is_raft_command c = false -> seen_by sm seen -> operation_id c ∈ seen -> (sm_apply sm c).2 = sm.
Proof.
  intros Hb Hr [_ Hk] Hin. destruct (Hk _ _ Hin) as (s & Hs & Hle).
  destruct (sm_apply_cases sm c Hb) as [[? _]|[(_ & s' & _ & _ & ->)|[_ Hf]]]; [congruence|done|].
  unfold fresh in Hf. rewrite Hs in Hf. lia.
Qed.

Lemma sm_run_in_order sm seen cmds :
  sm_bug sm <> NoDedup -> seen_by sm seen -> in_order seen cmds ->
  sm_state (sm_run sm cmds) = exec_once (sm_state sm) (once seen cmds).
Proof.
  revert sm seen; induction cmds as [|c cmds IH]; intros sm seen Hb Hs; [done|]. cbn [in_order once].
  change (sm_run sm (c :: cmds)) with (sm_run (sm_apply sm c).2 cmds).
  destruct (is_raft_command c) eqn:Hr; simpl; [intros Ho; rewrite sm_apply_raft by done; by apply IH|].
  case_bool_decide as Hin; [intros Ho; rewrite (seen_repeat _ seen) by done; by apply IH|].
  intros [Hlt Ho]. pose proof (in_order_fresh _ _ _ Hs Hlt) as Hf.
  erewrite IH; [|by rewrite sm_apply_bug|by apply seen_by_apply|done]. by rewrite sm_apply_fresh.
Qed.
(** Out of order an operation may be left out, never repeated. *)
Lemma sm_run_at_most_once sm seen cmds :
  sm_bug sm <> NoDedup -> seen_by sm seen ->
  exists l, l `sublist_of` once seen cmds /\ sm_state (sm_run sm cmds) = exec_once (sm_state sm) l.
Proof.
  revert sm seen; induction cmds as [|c cmds IH]; intros sm seen Hb Hs; [by exists []|]. cbn [once].
  change (sm_run sm (c :: cmds)) with (sm_run (sm_apply sm c).2 cmds).
  destruct (sm_apply_cases sm c Hb) as [[-> ->]|[(Hr & s & Hc & Hle & ->)|[Hr Hf]]]; [by apply IH| |].
  - rewrite Hr. simpl. case_bool_decide as Hin; [by apply IH|].
    destruct (IH sm ({[ operation_id c ]} ∪ seen) Hb) as (l & Hl & E).
    { destruct Hs as [Hn Hk]. split; [intros cl s' Hs'; apply Hn in Hs'; set_solver|]. intros cl q [Hq|Hq]%elem_of_union; [|by apply Hk].
      apply elem_of_singleton in Hq. injection Hq as -> ->. eauto. }
    exists l. split; [|done]. by apply sublist_cons.
  - rewrite Hr. simpl. case_bool_decide as Hin.
    { pose proof (seen_repeat _ _ _ Hb Hr Hs Hin) as E. rewrite E. by apply IH. }
    destruct (IH (sm_apply sm c).2 ({[ operation_id c ]} ∪ seen)) as (l & Hl & E); [by rewrite sm_apply_bug|by apply seen_by_apply|].
    exists (c :: l). split; [by apply sublist_skip|]. rewrite E. by rewrite sm_apply_fresh.
Qed.

(** C13. Exactly once.  A committed sequence of commands, repeats included, leaves an
    empty machine's map as executing each client operation, known by its client and
    number, once and at its first occurrence would, provided that each client's
    operations first occur in the order of their numbers, which a client that waits
    for its answers ensures.  Without that an operation overtaken by a later one of
    its client may be left out, but none is ever executed twice. *)
Theorem sm_run_exactly_once (sm : StateMachine) (cmds : list Command) :
  sm_bug sm <> NoDedup -> sm_sessions sm = ∅ ->
  (in_order ∅ cmds -> sm_state (sm_run sm cmds) = exec_once (sm_state sm) (once ∅ cmds)) /\
  exists l, l `sublist_of` once ∅ cmds /\ sm_state (sm_run sm cmds) = exec_once (sm_state sm) l.
Proof.
  intros Hb He. assert (Hs : seen_by sm ∅).
  { split; [by intros cl s; rewrite He, lookup_empty|by intros cl q ?%elem_of_empty]. }
  split; [by apply sm_run_in_order|by apply sm_run_at_most_once].
Qed.

(** ** Witnesses *)

Definition demo_sm : StateMachine :=
  sm_run sm_new [mkCommand 1 1 (Put [x61] [x62]); mkCommand 2 1 (Get [x61])].

Lemma sm_restore_encode_witness : sm_restore (sm_encode demo_sm) BugNone = Ok demo_sm.
Proof.
  apply (sm_restore_encode demo_sm). split; [| |by vm_compute..].
  - replace (sm_state demo_sm) with ({[ [x61] := [x62] ]} : gmap RString RString)
      by (apply (bool_decide_eq_true_1 _); vm_compute; reflexivity).
    apply map_Forall_singleton. split; by unfold str_ok.
  - replace (sm_sessions demo_sm)
      with (<[2 := mkSession 1 (OValue (Some [x62]))]> {[ 1 := mkSession 1 Written ]}
            : gmap Z Session) by done.
    apply map_Forall_insert_2; [|apply map_Forall_singleton];
      (split; [|split]); unfold is_u32, is_u64; simpl; try lia; try done; by unfold str_ok.
Defined.

Lemma sm_retry_is_noop_witness :
  let c := mkCommand 1 2 (Cas [x61] (Some [x62]) [x63]) in
  let first := sm_apply demo_sm c in
  sm_apply (sm_run first.2 [mkCommand 2 2 (Put [x61] [x64])]) c
  = (OCas true, sm_run first.2 [mkCommand 2 2 (Put [x61] [x64])]).
Proof.
  edestruct (sm_retry_is_noop demo_sm (mkCommand 1 2 (Cas [x61] (Some [x62]) [x63]))
    [mkCommand 2 2 (Put [x61] [x64])]) as [H _]; [by vm_compute..| |exact H].
  repeat constructor. by vm_compute.
Defined.

Lemma sm_run_exactly_once_witness :
  sm_state (sm_run sm_new
    [mkCommand 1 1 (Cas [x61] None [x62]); mkCommand 2 1 (Put [x61] [x63]);
     mkCommand 1 1 (Cas [x61] None [x62])]) = {[ [x61] := [x63] ]}.
Proof.
  rewrite (proj1 (sm_run_exactly_once sm_new _ ltac:(by vm_compute) ltac:(reflexivity))).
  - apply (bool_decide_eq_true_1 _). vm_compute. reflexivity.
  - repeat split; apply (bool_decide_eq_true_1 _); vm_compute; reflexivity.
Defined.
