(* ===== verification/Io.v ===== *)
(** * Io: what a node may do to the world ([sim-io])

    [Io] is the trait of [sim-io/lib.rs] with its parts [Clock], [Net] and
    [Storage]: a class over an abstract world [W].  A handler of the program is
    a computation of type [M W S A] over the node's own state [S] and the
    world; [None] is a panic.  The environment carries, beside the world, the
    list of the requests made so far, oldest first, which is what the theorems
    about messages and disk writes speak of.  [Io::trace] prints diagnostics
    and has no effect on the node; it is left out. *)
From S2P Require Import Prelude Codec Crc LogFormat.
From Stdlib Require Import String.
From Stdlib.Init Require Import Byte.

Abbreviation Nanos := Z (only parsing).
Abbreviation FileId := Z (only parsing).
Abbreviation OpId := Z (only parsing).
Abbreviation TimerTag := Z (only parsing).

Class Io (W : Type) : Type := {
  io_now : W -> Nanos;
  io_set_timer : W -> Nanos -> TimerTag -> Z * W;
  io_cancel_timer : W -> Z -> W;
  io_me : W -> NodeId;
  io_cluster_size : W -> nat;
  io_send : W -> NodeId -> list byte -> W;
  io_append : W -> FileId -> list byte -> OpId * W;
  io_write_at : W -> FileId -> nat -> list byte -> OpId * W;
  io_set_len : W -> FileId -> nat -> OpId * W;
  io_sync : W -> FileId -> OpId * W;
  io_read_all : W -> FileId -> list byte;
  io_size : W -> FileId -> nat;
  io_observe : W -> string -> list Z -> W;
  io_rand_range : W -> Z -> Z -> Z * W;
}.

Definition FILE_WAL : FileId := 0.
Definition FILE_SNAPSHOT_A : FileId := 1.
Definition FILE_SNAPSHOT_B : FileId := 2.

Definition snapshot_file (seq : Z) : FileId :=
  if seq mod 2 =? 0 then FILE_SNAPSHOT_A else FILE_SNAPSHOT_B.

(** A request a node made to the world. *)
Inductive IoEvent : Type :=
| EvSend (to : NodeId) (payload : list byte)
| EvWriteAt (op : OpId) (file : FileId) (offset : nat) (bytes : list byte)
| EvSetLen (op : OpId) (file : FileId) (len : nat)
| EvSync (op : OpId) (file : FileId)
| EvSetTimer (handle : Z) (delay : Nanos) (tag : TimerTag)
| EvCancelTimer (handle : Z)
| EvObserve (tag : string) (args : list Z).

Record Env (W : Type) : Type := mkEnv { env_world : W; env_trace : list IoEvent }.
Arguments mkEnv {W} _ _.
Arguments env_world {W} _.
Arguments env_trace {W} _.

(** ** Handlers *)

Definition M (W S A : Type) : Type := S -> Env W -> option (A * S * Env W).

#[export] Instance M_ret W S : MRet (M W S) := fun A a s e => Some (a, s, e).
#[export] Instance M_bind W S : MBind (M W S) :=
  fun A B k m s e => match m s e with Some (a, s, e) => k a s e | None => None end.

Section Handlers.
Context {W : Type}.

Definition get {S} : M W S S := fun s e => Some (s, s, e).
Definition modify {S} (f : S -> S) : M W S unit := fun s e => Some (tt, f s, e).
Definition panic {S A} : M W S A := fun _ _ => None.
Definition lift {S A} (o : option A) : M W S A :=
  fun s e => match o with Some a => Some (a, s, e) | None => None end.
Definition when {S} (b : bool) (m : M W S unit) : M W S unit := if b then m else mret tt.

(** [a + b] and [a - b] on u64, panicking where they overflow. *)
Definition add64 {S} (a b : Z) : M W S Z := lift (u64_add a b).
Definition sub64 {S} (a b : Z) : M W S Z := lift (if b <=? a then Some (a - b) else None).

Fixpoint for_each {S A} (l : list A) (f : A -> M W S unit) : M W S unit :=
  match l with
  | [] => mret tt
  | a :: l => f a ;; for_each l f
  end.

(** Run a handler of a component of the state. *)
Definition zoom {S T A} (proj : S -> T) (put : T -> S -> S) (m : M W T A) : M W S A :=
  fun s e => match m (proj s) e with Some (a, t, e) => Some (a, put t s, e) | None => None end.

(** Run a handler of a state of its own and return that state. *)
Definition with_state {S T} (t : T) (m : M W T unit) : M W S T :=
  fun s e => match m t e with Some (_, t, e) => Some (t, s, e) | None => None end.

Context `{Io W}.

(** Carry out a request and record it. *)
Definition request {S A} (f : W -> A * W) (ev : A -> IoEvent) : M W S A :=
  fun s e =>
    let '(a, w) := f (env_world e) in Some (a, s, mkEnv w (env_trace e ++ [ev a])).

Definition now {S} : M W S Nanos := fun s e => Some (io_now (env_world e), s, e).
Definition read_all {S} (file : FileId) : M W S (list byte) :=
  fun s e => Some (io_read_all (env_world e) file, s, e).
Definition set_timer {S} (delay : Nanos) (tag : TimerTag) : M W S Z :=
  request (fun w => io_set_timer w delay tag) (fun h => EvSetTimer h delay tag).
Definition cancel_timer {S} (h : Z) : M W S unit :=
  request (fun w => (tt, io_cancel_timer w h)) (fun _ => EvCancelTimer h).
Definition send_bytes {S} (to : NodeId) (payload : list byte) : M W S unit :=
  request (fun w => (tt, io_send w to payload)) (fun _ => EvSend to payload).
Definition write_at {S} (file : FileId) (offset : nat) (bytes : list byte) : M W S OpId :=
  request (fun w => io_write_at w file offset bytes) (fun op => EvWriteAt op file offset bytes).
Definition set_len {S} (file : FileId) (len : nat) : M W S OpId :=
  request (fun w => io_set_len w file len) (fun op => EvSetLen op file len).
Definition sync {S} (file : FileId) : M W S OpId :=
  request (fun w => io_sync w file) (fun op => EvSync op file).
Definition observe {S} (tag : string) (args : list Z) : M W S unit :=
  request (fun w => (tt, io_observe w tag args)) (fun _ => EvObserve tag args).

(** ** [sim_io::network] *)

(** Every node except me, in a fixed order. *)
Definition net_peers (w : W) : list NodeId :=
  filter (fun n => n <> io_me w) (seqZ 0 (Z.of_nat (io_cluster_size w))).

End Handlers.

Definition net_quorum (cluster_size : nat) : nat := (cluster_size / 2 + 1)%nat.

(** ** [sim_io::clock::Deadline] *)

Record Deadline : Type := mkDeadline { dl_handle : option Z; dl_fires_at : Nanos }.

Definition deadline_new : Deadline := mkDeadline None 0.
Definition deadline_is_armed (d : Deadline) : bool := bool_decide (is_Some (dl_handle d)).

Section Deadlines.
Context {W : Type} `{Io W}.

Definition deadline_disarm {S} (d : Deadline) : M W S Deadline :=
  match dl_handle d with
  | Some h => cancel_timer h ;; mret (mkDeadline None (dl_fires_at d))
  | None => mret d
  end.

Definition deadline_reset {S} (d : Deadline) (delay : Nanos) (tag : TimerTag) : M W S Deadline :=
  d ← deadline_disarm d;
  t ← now;
  h ← set_timer delay tag;
  mret (mkDeadline (Some h) (u64_saturating_add t delay)).

End Deadlines.

(** Whether the timer that arrived is the one waited for; it is spent. *)
Definition deadline_fired (d : Deadline) : bool * Deadline :=
  (deadline_is_armed d, mkDeadline None (dl_fires_at d)).

(** ** [sim_io::storage::PendingOps] *)

Definition PendingOps (T : Type) : Type := list (OpId * T).

Definition pending_insert {T} (op : OpId) (v : T) (p : PendingOps T) : PendingOps T :=
  p ++ [(op, v)].

Fixpoint pending_take {T} (op : OpId) (p : PendingOps T) : option (T * PendingOps T) :=
  match p with
  | [] => None
  | (o, v) :: p =>
      if o =? op then Some (v, p)
      else match pending_take op p with
           | Some (x, p') => Some (x, (o, v) :: p')
           | None => None
           end
  end.

(** ** Weakest preconditions

    [wp m Q s e]: started in [s] and [e], the handler either panics or returns
    in a state that satisfies [Q].  [returns m s e] excludes the panic. *)
Definition wp {W S A} (m : M W S A) (Q : A -> S -> Env W -> Prop) (s : S) (e : Env W) : Prop :=
  match m s e with Some (a, s', e') => Q a s' e' | None => True end.

Definition returns {W S A} (m : M W S A) (s : S) (e : Env W) : Prop := is_Some (m s e).

Section WpRules.
Context {W S : Type}.
Implicit Types (s : S) (e : Env W).

Lemma wp_mono {A} (m : M W S A) (Q Q' : A -> S -> Env W -> Prop) s e :
  wp m Q s e -> (forall a s' e', Q a s' e' -> Q' a s' e') -> wp m Q' s e.
Proof. unfold wp. destruct (m s e) as [[[a s'] e']|]; auto. Qed.

Lemma wp_bind {A B} (m : M W S A) (k : A -> M W S B) Q s e :
  wp m (fun a s' e' => wp (k a) Q s' e') s e -> wp (m ≫= k) Q s e.
Proof.
  unfold wp, mbind, M_bind. destruct (m s e) as [[[a s'] e']|]; auto.
Qed.

Lemma wp_ret {A} (a : A) Q s e : Q a s e -> wp (mret a) Q s e.
Proof. done. Qed.

Lemma wp_get Q s e : Q s s e -> wp get Q s e.
Proof. done. Qed.

Lemma wp_modify (f : S -> S) (Q : unit -> S -> Env W -> Prop) s e : Q tt (f s) e -> wp (modify f) Q s e.
Proof. done. Qed.

Lemma wp_lift {A} (o : option A) Q s e :
  (forall a, o = Some a -> Q a s e) -> wp (lift o) Q s e.
Proof. unfold wp, lift. destruct o; auto. Qed.

Lemma wp_add64 a b (Q : Z -> S -> Env W -> Prop) s e :
  (a + b <= U64_MAX -> Q (a + b) s e) -> wp (add64 a b) Q s e.
Proof. intros HQ. apply wp_lift. intros c Hc. apply u64_add_Some in Hc as [-> ?]. auto. Qed.

Lemma wp_sub64 a b (Q : Z -> S -> Env W -> Prop) s e :
  (b <= a -> Q (a - b) s e) -> wp (sub64 a b) Q s e.
Proof.
  intros HQ. apply wp_lift. intros c Hc. destruct (Z.leb_spec b a); simplify_eq. auto.
Qed.

Lemma wp_now `{Io W} (Q : Nanos -> S -> Env W -> Prop) s e :
  Q (io_now (env_world e)) s e -> wp now Q s e.
Proof. done. Qed.

Lemma wp_panic {A} (Q : A -> S -> Env W -> Prop) s e : wp panic Q s e.
Proof. done. Qed.

Lemma wp_when b m (Q : unit -> S -> Env W -> Prop) s e :
  (b = true -> wp m Q s e) -> (b = false -> Q tt s e) -> wp (when b m) Q s e.
Proof. destruct b; intros H1 H2; [by apply H1|by apply wp_ret, H2]. Qed.

Lemma wp_request {A} (f : W -> A * W) ev (Q : A -> S -> Env W -> Prop) s e :
  (forall a w, f (env_world e) = (a, w) -> Q a s (mkEnv w (env_trace e ++ [ev a]))) ->
  wp (request f ev) Q s e.
Proof. unfold wp, request. destruct (f (env_world e)) as [a w]. auto. Qed.

(** A loop keeps what every turn keeps. *)
Lemma wp_for_each {A} (l : list A) (f : A -> M W S unit) (I : S -> Env W -> Prop)
    (Q : unit -> S -> Env W -> Prop) s e :
  I s e ->
  (forall a s e, a ∈ l -> I s e -> wp (f a) (fun _ => I) s e) ->
  (forall s e, I s e -> Q tt s e) ->
  wp (for_each l f) Q s e.
Proof.
  intros HI Hf HQ. revert s e HI. induction l as [|a l IH]; intros s e HI.
  - apply wp_ret. auto.
  - apply wp_bind. eapply wp_mono; [apply Hf; [set_solver|done]|].
    intros [] s' e' HI'. apply IH; [|done]. intros; apply Hf; [set_solver|done].
Qed.

Lemma wp_Some {A} (m : M W S A) Q s e a s' e' :
  wp m Q s e -> m s e = Some (a, s', e') -> Q a s' e'.
Proof. unfold wp. intros Hw E. by rewrite E in Hw. Qed.

Lemma wp_and {A} (m : M W S A) (Q Q' : A -> S -> Env W -> Prop) s e :
  wp m Q s e -> wp m Q' s e -> wp m (fun a s' e' => Q a s' e' /\ Q' a s' e') s e.
Proof. unfold wp. by destruct (m s e) as [[[]]|]. Qed.

End WpRules.

Lemma pending_take_insert_ne {T} op op' (v : T) p :
  op <> op' -> pending_take op p = None -> pending_take op (pending_insert op' v p) = None.
Proof.
  unfold pending_insert. intros Hne. induction p as [|[o x] p IH]; simpl.
  - by rewrite (proj2 (Z.eqb_neq _ _)).
  - destruct (Z.eqb_spec o op); [done|].
    destruct (pending_take op p) as [[y q]|] eqn:E; [done|]. intros _. by rewrite IH by done.
Qed.

(** An operation that was taken is the one that was inserted under its id. *)
Lemma pending_take_elem {T} op (v : T) p p' :
  pending_take op p = Some (v, p') ->
  exists l k, p = l ++ (op, v) :: k /\ p' = l ++ k /\ Forall (fun q => q.1 <> op) l.
Proof.
  revert p'. induction p as [|[o x] p IH]; intros p'; simpl; [done|].
  destruct (Z.eqb_spec o op) as [->|Hne].
  - intros [= -> ->]. by exists [], p'.
  - destruct (pending_take op p) as [[y q]|]; [|done]. intros [= -> <-].
    destruct (IH q eq_refl) as (l & k & -> & -> & Hl).
    exists ((o, x) :: l), k. repeat split. by constructor.
Qed.

(** ** A world for examples: it numbers operations and timers, keeps no bytes. *)
Definition counter_io : Io Z := {|
  io_now w := w;
  io_set_timer w _ _ := (w, w + 1);
  io_cancel_timer w _ := w;
  io_me _ := 0;
  io_cluster_size _ := 3%nat;
  io_send w _ _ := w;
  io_append w _ _ := (w, w + 1);
  io_write_at w _ _ _ := (w, w + 1);
  io_set_len w _ _ := (w, w + 1);
  io_sync w _ := (w, w + 1);
  io_read_all _ _ := [];
  io_size _ _ := 0%nat;
  io_observe w _ _ := w;
  io_rand_range w lo _ := (lo, w);
|}.
