(* ===== verification/Rng.v ===== *)
(** * Rng: the deterministic random source ([simcore/rng.rs])

    xoshiro256++ seeded through SplitMix64, on [Z] with the 64-bit wrap-around
    written out.  [below] draws until a draw is accepted; the loop takes fuel,
    and a run that exhausts it has no value ([None]).  More fuel never changes
    a value that was returned ([rng_below_fuel_mono]). *)
From S2P Require Import Prelude.
From Stdlib.Init Require Import Byte.

Definition wrapping_add (a b : Z) : Z := wrap64 (a + b).
Definition wrapping_mul (a b : Z) : Z := wrap64 (a * b).
Definition wrapping_neg (a : Z) : Z := wrap64 (- a).
Definition shl64 (a n : Z) : Z := wrap64 (Z.shiftl a n).
Definition rotate_left (a n : Z) : Z := Z.lor (shl64 a n) (Z.shiftr a (64 - n)).

(** ** SplitMix64 *)

Definition splitmix_next (s : Z) : Z * Z :=
  let s := wrapping_add s 0x9E3779B97F4A7C15 in
  let z := wrapping_mul (Z.lxor s (Z.shiftr s 30)) 0xBF58476D1CE4E5B9 in
  let z := wrapping_mul (Z.lxor z (Z.shiftr z 27)) 0x94D049BB133111EB in
  (Z.lxor z (Z.shiftr z 31), s).

(** ** The generator *)

Record Rng : Type := mkRng { rng_s0 : Z; rng_s1 : Z; rng_s2 : Z; rng_s3 : Z }.

Definition rng_new (seed : Z) : Rng :=
  let '(a, sm) := splitmix_next seed in
  let '(b, sm) := splitmix_next sm in
  let '(c, sm) := splitmix_next sm in
  let '(d, sm) := splitmix_next sm in
  mkRng a b c d.

Definition rng_next_u64 (r : Rng) : Z * Rng :=
  let '(mkRng s0 s1 s2 s3) := r in
  let result := wrapping_add (rotate_left (wrapping_add s0 s3) 23) s0 in
  let t := shl64 s1 17 in
  let s2 := Z.lxor s2 s0 in
  let s3 := Z.lxor s3 s1 in
  let s1 := Z.lxor s1 s2 in
  let s0 := Z.lxor s0 s3 in
  let s2 := Z.lxor s2 t in
  let s3 := rotate_left s3 45 in
  (result, mkRng s0 s1 s2 s3).

Definition rng_fork (r : Rng) (label : Z) : Rng * Rng :=
  let '(x, r) := rng_next_u64 r in
  (rng_new (Z.lxor x (wrapping_mul label 0xD6E8FEB86659FD93)), r).

Definition rng_next_u32 (r : Rng) : Z * Rng :=
  let '(x, r) := rng_next_u64 r in (Z.shiftr x 32, r).

(** One turn of [below]'s rejection loop. *)
Fixpoint below_loop (fuel : nat) (threshold n : Z) (r : Rng) : option (Z * Rng) :=
  match fuel with
  | O => None
  | S fuel =>
      let '(x, r) := rng_next_u64 r in
      let m := x * n in
      let low := wrap64 m in
      if threshold <=? low then Some (Z.shiftr m 64, r) else below_loop fuel threshold n r
  end.

(** Draws [below] may make.  A draw is refused with probability below one half
    (below 2^-35 for the ranges election timeouts use). *)
Definition RNG_FUEL : nat := 128.

Definition rng_below_fuel (fuel : nat) (n : Z) (r : Rng) : option (Z * Rng) :=
  if n <=? 1 then Some (0, r)
  else below_loop fuel (wrapping_neg n mod n) n r.

Definition rng_below (n : Z) (r : Rng) : option (Z * Rng) := rng_below_fuel RNG_FUEL n r.

Definition rng_range (lo hi : Z) (r : Rng) : option (Z * Rng) :=
  if hi <=? lo then Some (lo, r)
  else
    n ← u64_add (hi - lo) 1;
    '(x, r) ← rng_below n r;
    z ← u64_add lo x;
    Some (z, r).

Definition rng_chance_ppm (ppm : Z) (r : Rng) : option (bool * Rng) :=
  if ppm =? 0 then Some (false, r)
  else if 1000000 <=? ppm then Some (true, r)
  else
    '(x, r) ← rng_below 1000000 r;
    Some (x <? ppm, r).

Definition rng_index (len : nat) (r : Rng) : option (option nat * Rng) :=
  if (len =? 0)%nat then Some (None, r)
  else
    '(x, r) ← rng_below (Z.of_nat len) r;
    Some (Some (Z.to_nat x), r).

Definition rng_choose {A} (items : list A) (r : Rng) : option (option A * Rng) :=
  '(i, r) ← rng_index (length items) r;
  match i with
  | None => Some (None, r)
  | Some i => a ← items !! i; Some (Some a, r)
  end.

(** [slice::swap]: out of range is a panic. *)
Definition list_swap {A} (i j : nat) (l : list A) : option (list A) :=
  a ← l !! i; b ← l !! j; Some (<[j := a]> (<[i := b]> l)).

(** Fisher-Yates from index [i] down to 1. *)
Fixpoint shuffle_from {A} (i : nat) (items : list A) (r : Rng) : option (list A * Rng) :=
  match i with
  | O => Some (items, r)
  | S i' =>
      '(j, r) ← rng_below (Z.of_nat i + 1) r;
      items ← list_swap i (Z.to_nat j) items;
      shuffle_from i' items r
  end.

Definition rng_shuffle {A} (items : list A) (r : Rng) : option (list A * Rng) :=
  shuffle_from (length items - 1) items r.

(** The bytes [fill] writes into a buffer of length [n]. *)
Fixpoint fill_chunks (chunks : nat) (n : nat) (r : Rng) : list byte * Rng :=
  match chunks with
  | O => ([], r)
  | S chunks =>
      let '(x, r) := rng_next_u64 r in
      let here := take n (to_le_bytes 8 x) in
      let '(rest, r) := fill_chunks chunks (n - 8) r in
      (here ++ rest, r)
  end.

Definition rng_fill (n : nat) (r : Rng) : list byte * Rng := fill_chunks ((n + 7) / 8) n r.

Definition rng_skewed (lo hi : Z) (r : Rng) : option (Z * Rng) :=
  if hi <=? lo then Some (lo, r)
  else
    n ← u64_add (hi - lo) 1;
    '(a, r) ← rng_below n r;
    '(b, r) ← rng_below n r;
    z ← u64_add lo (Z.min a b);
    Some (z, r).

(** ** Lemmas *)

Definition rng_ok (r : Rng) : Prop :=
  is_u64 (rng_s0 r) /\ is_u64 (rng_s1 r) /\ is_u64 (rng_s2 r) /\ is_u64 (rng_s3 r).

Lemma wrap64_u64 z : is_u64 (wrap64 z).
Proof. apply Z.mod_pos_bound. lia. Qed.

(** A u64 is a number without bits at or above 64. *)
Lemma u64_bits z : 0 <= z -> (forall i, 64 <= i -> Z.testbit z i = false) -> is_u64 z.
Proof.
  intros Hz Hb. split; [done|].
  destruct (Z.eq_dec z 0) as [->|Hne]; [lia|].
  apply Z.log2_lt_pow2; [lia|]. destruct (Z.lt_ge_cases (Z.log2 z) 64); [done|].
  specialize (Hb (Z.log2 z) ltac:(done)). rewrite Z.bit_log2 in Hb by lia. done.
Qed.

Lemma u64_testbit z i : is_u64 z -> 64 <= i -> Z.testbit z i = false.
Proof.
  intros [Hz Hlt] Hi. destruct (Z.eq_dec z 0) as [->|]; [apply Z.bits_0|].
  apply Z.bits_above_log2; [lia|]. apply Z.lt_le_trans with 64; [|done].
  apply Z.log2_lt_pow2; lia.
Qed.

Lemma lxor_u64 a b : is_u64 a -> is_u64 b -> is_u64 (Z.lxor a b).
Proof.
  intros Ha Hb. apply u64_bits.
  - apply Z.lxor_nonneg. destruct Ha, Hb. done.
  - intros i Hi. by rewrite Z.lxor_spec, !u64_testbit.
Qed.

Lemma lor_u64 a b : is_u64 a -> is_u64 b -> is_u64 (Z.lor a b).
Proof.
  intros Ha Hb. apply u64_bits.
  - apply Z.lor_nonneg. destruct Ha, Hb. done.
  - intros i Hi. by rewrite Z.lor_spec, !u64_testbit.
Qed.

Lemma shiftr_u64 a n : is_u64 a -> 0 <= n -> is_u64 (Z.shiftr a n).
Proof.
  intros Ha Hn. apply u64_bits; [apply Z.shiftr_nonneg; destruct Ha; done|].
  intros i Hi. rewrite Z.shiftr_spec by lia. apply u64_testbit; [done|lia].
Qed.

Lemma rotate_left_u64 a n : is_u64 a -> n <= 64 -> is_u64 (rotate_left a n).
Proof. intros Ha Hn. apply lor_u64; [apply wrap64_u64|]. apply shiftr_u64; [done|lia]. Qed.

#[export] Hint Resolve wrap64_u64 lxor_u64 lor_u64 : kv.

Lemma splitmix_next_u64 s : is_u64 (splitmix_next s).1.
Proof.
  unfold splitmix_next. cbn [fst]. apply lxor_u64; [apply wrap64_u64|].
  apply shiftr_u64; [apply wrap64_u64|lia].
Qed.

Lemma rng_new_ok seed : rng_ok (rng_new seed).
Proof.
  unfold rng_new.
  repeat match goal with
  | |- context [let '(_, _) := splitmix_next ?s in _] =>
      pose proof (splitmix_next_u64 s); destruct (splitmix_next s)
  end. by split_and!.
Qed.

Lemma rng_next_u64_ok r : rng_ok r -> is_u64 (rng_next_u64 r).1 /\ rng_ok (rng_next_u64 r).2.
Proof.
  destruct r as [s0 s1 s2 s3]. intros (H0 & H1 & H2 & H3). simpl in *.
  unfold rng_next_u64. simpl fst. simpl snd.
  split; [apply wrap64_u64|].
  unfold rng_ok; simpl rng_s0; simpl rng_s1; simpl rng_s2; simpl rng_s3.
  unfold shl64. repeat split_and?; eauto 8 with kv; (apply rotate_left_u64; [auto with kv|lia]).
Qed.

Lemma below_loop_bound fuel threshold n r x r' :
  rng_ok r -> 1 < n -> below_loop fuel threshold n r = Some (x, r') -> 0 <= x < n /\ rng_ok r'.
Proof.
  intros Hr Hn. revert r Hr; induction fuel as [|fuel IH]; intros r Hr; [done|].
  cbn [below_loop]. pose proof (rng_next_u64_ok r Hr) as [Hx Hr1].
  destruct (rng_next_u64 r) as [y r1]. simpl in Hx, Hr1.
  case_match; [|by apply IH]. intros [= <- <-]. split; [|done].
  rewrite Z.shiftr_div_pow2 by lia. destruct Hx.
  split; [apply Z.div_pos; nia|apply Z.div_lt_upper_bound; nia].
Qed.

Lemma rng_below_bound n r x r' :
  rng_ok r -> 0 < n -> rng_below n r = Some (x, r') -> 0 <= x < n /\ rng_ok r'.
Proof.
  intros Hr Hn. unfold rng_below, rng_below_fuel. case_match eqn:E.
  - intros [= <- <-]. split; [lia|done].
  - apply Z.leb_gt in E. by apply below_loop_bound.
Qed.

Lemma below_loop_mono fuel fuel' threshold n r v :
  (fuel <= fuel')%nat -> below_loop fuel threshold n r = Some v ->
  below_loop fuel' threshold n r = Some v.
Proof.
  revert fuel' r. induction fuel as [|fuel IH]; intros [|fuel'] r Hle; try done; [lia|].
  cbn [below_loop]. destruct (rng_next_u64 r) as [y r1]. case_match; [done|]. apply IH. lia.
Qed.

(** More fuel never changes a draw. *)
Lemma rng_below_fuel_mono fuel fuel' n r v :
  (fuel <= fuel')%nat -> rng_below_fuel fuel n r = Some v -> rng_below_fuel fuel' n r = Some v.
Proof. unfold rng_below_fuel. case_match; [done|]. apply below_loop_mono. Qed.

Lemma rng_range_bound lo hi r x r' :
  rng_ok r -> lo <= hi -> rng_range lo hi r = Some (x, r') -> lo <= x <= hi /\ rng_ok r'.
Proof.
  intros Hr Hle. unfold rng_range. case_match eqn:E.
  - intros [= <- <-]. split; [lia|done].
  - apply Z.leb_gt in E.
    destruct (u64_add (hi - lo) 1) as [n|] eqn:En; [|done]. apply u64_add_Some in En as [-> _].
    simpl. destruct (rng_below (hi - lo + 1) r) as [[y r1]|] eqn:Eb; [|done]. simpl.
    destruct (u64_add lo y) as [z|] eqn:Ez; [|done]. apply u64_add_Some in Ez as [-> _].
    intros [= <- <-]. apply rng_below_bound in Eb as [? ?]; [|done|lia]. split; [lia|done].
Qed.

Lemma list_swap_Permutation {A} i j (l l' : list A) : list_swap i j l = Some l' -> l' ≡ₚ l.
Proof.
  unfold list_swap. destruct (l !! i) as [a|] eqn:Ei; [|done]. simpl.
  destruct (l !! j) as [b|] eqn:Ej; [|done]. simpl. intros [= <-].
  destruct (decide (i = j)) as [->|Hne].
  { simplify_eq. by rewrite list_insert_id, list_insert_id by (rewrite ?list_insert_id; done). }
  apply Permutation_inj. split; [by rewrite !length_insert|].
  assert (Hi : (i < length l)%nat) by by eapply lookup_lt_Some.
  assert (Hj : (j < length l)%nat) by by eapply lookup_lt_Some.
  exists (fun k => if decide (k = i) then j else if decide (k = j) then i else k). split.
  - intros x y. repeat case_decide; congruence.
  - intros k. repeat case_decide; subst.
    + rewrite list_lookup_insert_ne, list_lookup_insert_eq by done. done.
    + rewrite list_lookup_insert_eq by (by rewrite length_insert). done.
    + by rewrite !list_lookup_insert_ne by done.
Qed.

(** ** [below] is unbiased *)

(** What one word gives: a result, or none and the next word is drawn. *)
Definition below_turn (n x : Z) : option Z :=
  if wrapping_neg n mod n <=? wrap64 (x * n) then Some (Z.shiftr (x * n) 64) else None.

(** The first word that gives [v]. *)
Definition first_word (n v : Z) : Z := (v * 2 ^ 64 + 2 ^ 64 mod n + (n - 1)) / n.

Lemma below_fuel_turn fuel n r :
  1 < n ->
  rng_below_fuel (S fuel) n r =
    let '(x, r') := rng_next_u64 r in
    match below_turn n x with Some v => Some (v, r') | None => rng_below_fuel fuel n r' end.
Proof.
  intros Hn. unfold rng_below_fuel, below_turn. rewrite (proj2 (Z.leb_gt n 1)) by lia. cbn [below_loop].
  destruct (rng_next_u64 r) as [x r']. by destruct (_ <=? _).
Qed.

Lemma threshold_eq n : 1 < n < 2 ^ 64 -> wrapping_neg n mod n = 2 ^ 64 mod n.
Proof.
  intros Hn. unfold wrapping_neg, wrap64. rewrite Z.mod_opp_l_nz by (rewrite ?Z.mod_small; lia).
  rewrite (Z.mod_small n) by lia. replace (2 ^ 64 - n) with (2 ^ 64 + (-1) * n) by ring. apply Z.mod_add. lia.
Qed.

(** Rounding up. *)
Lemma ceil_le a n x : 0 < n -> (a + (n - 1)) / n <= x <-> a <= x * n.
Proof.
  intros Hn. pose proof (Z.div_mod (a + (n - 1)) n ltac:(lia)) as Hd.
  pose proof (Z.mod_pos_bound (a + (n - 1)) n Hn) as Hm. nia.
Qed.

Lemma below_turn_iff n x v :
  1 < n < 2 ^ 64 -> below_turn n x = Some v <-> first_word n v <= x < first_word n v + 2 ^ 64 / n.
Proof.
  intros Hn. unfold below_turn. rewrite threshold_eq by done. rewrite Z.shiftr_div_pow2 by lia. unfold wrap64.
  assert (Hnext : first_word n v + 2 ^ 64 / n = ((v + 1) * 2 ^ 64 + (n - 1)) / n).
  { unfold first_word. rewrite <-Z.div_add by lia. f_equal. pose proof (Z.div_mod (2 ^ 64) n ltac:(lia)). lia. }
  assert (Hlt : x < first_word n v + 2 ^ 64 / n <-> x * n < (v + 1) * 2 ^ 64).
  { rewrite Hnext. pose proof (ceil_le ((v + 1) * 2 ^ 64) n x ltac:(lia)). lia. }
  rewrite Hlt. unfold first_word. rewrite ceil_le by lia.
  pose proof (Z.mod_pos_bound (2 ^ 64) n ltac:(lia)) as Ht. revert Ht. generalize (2 ^ 64 mod n). intros t Ht.
  assert (Htn : t < 2 ^ 64) by lia. generalize (x * n). intros m. revert Htn. clear -Ht.
  assert (HM : 0 < 2 ^ 64) by lia. revert HM. generalize (2 ^ 64). intros M HM Htn.
  pose proof (Z.div_mod m M ltac:(lia)). pose proof (Z.mod_pos_bound m M HM).
  destruct (Z.leb_spec t (m mod M)); [split|split; [done|]].
  - intros [= <-]. lia.
  - intros Hr. f_equal. nia.
  - intros Hr. assert (m / M = v) by nia. nia.
Qed.

Lemma first_word_next n v : 1 < n < 2 ^ 64 -> first_word n v + 2 ^ 64 / n = ((v + 1) * 2 ^ 64 + (n - 1)) / n.
Proof.
  intros Hn. unfold first_word. rewrite <-Z.div_add by lia. f_equal. pose proof (Z.div_mod (2 ^ 64) n ltac:(lia)). lia.
Qed.

(** ** Properties *)

(** A draw in a range lies in it, at both ends inclusive, and leaves a
    generator whose words are 64-bit. *)
Theorem rng_range_in_bounds (seed lo hi x : Z) (r' : Rng) :
  lo <= hi -> rng_range lo hi (rng_new seed) = Some (x, r') -> lo <= x <= hi /\ rng_ok r'.
Proof. intros. eapply rng_range_bound; eauto using rng_new_ok. Qed.

(** Shuffling permutes: no element is lost, invented or repeated. *)
Theorem rng_shuffle_Permutation {A} (items items' : list A) (r r' : Rng) :
  rng_shuffle items r = Some (items', r') -> items' ≡ₚ items.
Proof.
  unfold rng_shuffle. generalize (length items - 1)%nat as i. intros i. revert items r.
  induction i as [|i IH]; intros items r; cbn [shuffle_from]; [by intros [= <- <-]|].
  destruct (rng_below _ r) as [[j r1]|]; [|done]. simpl.
  destruct (list_swap _ _ items) as [l|] eqn:E; [|done]. simpl.
  intros H. rewrite (IH _ _ H). by eapply list_swap_Permutation.
Qed.

(** C25. A draw below [n] is unbiased.  Each result below [n] is given by exactly
    [2^64 / n] words, those from its first word on, which follow one another in
    the order of the results and are all 64-bit; the remaining words, fewer than
    half of them, are refused and the next word is drawn. *)
Theorem below_is_unbiased n fuel r :
  1 < n < 2 ^ 64 -> rng_ok r ->
  let k := 2 ^ 64 / n in
  let '(x, r') := rng_next_u64 r in
  ((exists v, 0 <= v < n /\ first_word n v <= x < first_word n v + k /\
      rng_below_fuel (S fuel) n r = Some (v, r')) \/
   (forall v, 0 <= v < n -> ~ first_word n v <= x < first_word n v + k) /\
      rng_below_fuel (S fuel) n r = rng_below_fuel fuel n r') /\
  0 <= first_word n 0 /\ (forall v, first_word n v + k <= first_word n (v + 1)) /\
  first_word n (n - 1) + k = 2 ^ 64 /\ 2 * (2 ^ 64 - n * k) < 2 ^ 64.
Proof.
  intros Hn Hr k. rewrite below_fuel_turn by lia. pose proof (rng_next_u64_ok r Hr) as [Hx _].
  pose proof (Z.mod_pos_bound (2 ^ 64) n ltac:(lia)) as Ht. pose proof (Z.div_mod (2 ^ 64) n ltac:(lia)) as Hd.
  destruct (rng_next_u64 r) as [x r']. simpl in Hx. split.
  - destruct (below_turn n x) as [v|] eqn:E.
    + left. exists v. apply below_turn_iff in E as E'; [|done]. split; [|done].
      unfold below_turn in E. case_match; [|done]. injection E as <-. rewrite Z.shiftr_div_pow2 by lia.
      destruct Hx. split; [apply Z.div_pos; nia|apply Z.div_lt_upper_bound; nia].
    + right. split; [|done]. intros v _ Hv. apply below_turn_iff in Hv; [|done]. congruence.
  - unfold k. split; [apply Z.div_pos; lia|]. split; [|split].
    + intros v. rewrite first_word_next by done. apply Z.div_le_mono; lia.
    + rewrite first_word_next by done. replace ((n - 1 + 1) * 2 ^ 64 + (n - 1)) with (n - 1 + 2 ^ 64 * n) by ring.
      rewrite Z.div_add, Z.div_small by lia. lia.
    + assert (Hk : 1 <= 2 ^ 64 / n) by (apply Z.div_le_lower_bound; lia). nia.
Qed.

(** ** Witnesses *)

Lemma rng_range_in_bounds_witness :
  exists x r', rng_range 300 600 (rng_new 7) = Some (x, r') /\ 300 <= x <= 600.
Proof.
  destruct (rng_range 300 600 (rng_new 7)) as [[x r']|] eqn:E; [|by vm_compute in E].
  exists x, r'. split; [done|]. eapply (rng_range_in_bounds 7); [|exact E]. lia.
Defined.

Lemma rng_shuffle_Permutation_witness :
  exists l r', rng_shuffle [1; 2; 3; 4] (rng_new 3) = Some (l, r') /\ l ≡ₚ [1; 2; 3; 4].
Proof.
  destruct (rng_shuffle [1; 2; 3; 4] (rng_new 3)) as [[l r']|] eqn:E; [|by vm_compute in E].
  exists l, r'. split; [done|]. eapply rng_shuffle_Permutation. exact E.
Defined.

Lemma below_is_unbiased_witness :
  exists v, 0 <= v < 6 /\ rng_below 6 (rng_new 7) = Some (v, (rng_next_u64 (rng_new 7)).2) /\ first_word 6 5 + 2 ^ 64 / 6 = 2 ^ 64.
Proof.
  pose proof (below_is_unbiased 6 127 (rng_new 7) ltac:(lia) (rng_new_ok 7)) as H.
  revert H. cbv zeta. destruct (rng_next_u64 (rng_new 7)) as [x r'] eqn:E.
  intros [[(v & Hv & _ & Hb)|[_ Hb]] (_ & _ & Hlast & _)].
  - exists v. split; [exact Hv|]. split; [exact Hb|exact Hlast].
  - exfalso. assert (Er : r' = (rng_next_u64 (rng_new 7)).2) by (rewrite E; reflexivity).
    rewrite Er in Hb. vm_compute in Hb. discriminate Hb.
Defined.
