(* ===== verification/Draw.v ===== *)
(** * Draw: computations that draw random numbers

    The simulator threads one [&mut Rng] through its disks, its network and its
    fault injector.  [Draw A] is such a computation: it takes the generator, and
    gives a value and the generator after the draws, or panics.  The draws of
    [Rng] are its primitives; what they give is stated by rules for [draws m P],
    every result of [m] satisfies [P], whatever the generator. *)
From S2P Require Import Prelude Rng.

Definition Draw (A : Type) : Type := Rng -> option (A * Rng).

#[export] Instance Draw_ret : MRet Draw := fun A a r => Some (a, r).
#[export] Instance Draw_bind : MBind Draw :=
  fun A B k m r => match m r with Some (a, r) => k a r | None => None end.

Definition draw {A} (m : Rng -> option (A * Rng)) : Draw A := m.
Definition ensure {A} (o : option A) : Draw A :=
  fun r => match o with Some a => Some (a, r) | None => None end.

Definition below (n : Z) : Draw Z := draw (rng_below n).
Definition range (lo hi : Z) : Draw Z := draw (rng_range lo hi).
Definition skewed (lo hi : Z) : Draw Z := draw (rng_skewed lo hi).
Definition chance (ppm : Z) : Draw bool := draw (rng_chance_ppm ppm).
Definition choose {A} (l : list A) : Draw (option A) := draw (rng_choose l).
Definition shuffle {A} (l : list A) : Draw (list A) := draw (rng_shuffle l).

(** [a + b] on u64. *)
Definition add_u64 (a b : Z) : Draw Z := ensure (u64_add a b).

(** [self.stats.f += n] *)
Definition count {T} (f : T -> Z) `{!Setter f} (n : Z) (s : T) : Draw T :=
  v ← add_u64 (f s) n;
  mret (s ⟨ f := v ⟩).

(** A loop that threads a value. *)
Fixpoint fold_draw {A B} (f : A -> B -> Draw B) (l : list A) (b : B) : Draw B :=
  match l with
  | [] => mret b
  | a :: l => b ← f a b; fold_draw f l b
  end.

(** ** Rules *)

(** From a generator of 64-bit words every result satisfies [P] and leaves such a
    generator; a panic has no result. *)
Definition draws {A} (m : Draw A) (P : A -> Prop) : Prop :=
  forall r a r', rng_ok r -> m r = Some (a, r') -> P a /\ rng_ok r'.

Create HintDb draws discriminated.

Lemma draws_ret {A} (a : A) (P : A -> Prop) : P a -> draws (mret a) P.
Proof. by intros H r b r' Hr [= <- <-]. Qed.

Lemma draws_bind {A B} (m : Draw A) (k : A -> Draw B) (P : A -> Prop) (Q : B -> Prop) :
  draws m P -> (forall a, P a -> draws (k a) Q) -> draws (m ≫= k) Q.
Proof.
  intros Hm Hk r b r' Hr E. unfold mbind, Draw_bind in E.
  destruct (m r) as [[a r1]|] eqn:Em; [|done]. destruct (Hm _ _ _ Hr Em) as [Ha Hr1].
  by eapply Hk.
Qed.

Lemma draws_mono {A} (m : Draw A) (P Q : A -> Prop) :
  draws m P -> (forall a, P a -> Q a) -> draws m Q.
Proof. intros Hm HPQ r a r' Hr E. destruct (Hm _ _ _ Hr E). auto. Qed.

Lemma draws_and {A} (m : Draw A) (P Q : A -> Prop) : draws m P -> draws m Q -> draws m (fun a => P a /\ Q a).
Proof. intros HP HQ r a r' Hr E. split; [split; [by eapply HP|by eapply HQ]|by eapply HP]. Qed.

(** A bind whose first value does not matter. *)
Lemma draws_skip {A B} (m : Draw A) (k : A -> Draw B) (Q : B -> Prop) :
  draws m (fun _ => True) -> (forall a, draws (k a) Q) -> draws (m ≫= k) Q.
Proof. intros Hm Hk. eapply draws_bind; [exact Hm|]. auto. Qed.

Lemma draws_ensure {A} (o : option A) (P : A -> Prop) :
  (forall a, o = Some a -> P a) -> draws (ensure o) P.
Proof. intros H r a r' Hr. unfold ensure. destruct o; [|done]. intros [= <- <-]. auto. Qed.

Lemma draws_add_u64 a b (P : Z -> Prop) :
  (a + b <= U64_MAX -> P (a + b)) -> draws (add_u64 a b) P.
Proof. intros H. apply draws_ensure. intros c [-> Hc]%u64_add_Some. auto. Qed.

Lemma draws_fold {A B} (f : A -> B -> Draw B) l (P : B -> Prop) b :
  P b -> (forall a b, a ∈ l -> P b -> draws (f a b) P) -> draws (fold_draw f l b) P.
Proof.
  revert b. induction l as [|a l IH]; intros b Hb Hf; [by apply draws_ret|].
  eapply draws_bind; [apply Hf; [by left|done]|]. intros b' Hb'. apply IH; [done|].
  intros a' b'' Ha'. apply Hf. by right.
Qed.

(** *** The primitives *)

Lemma draws_below n (P : Z -> Prop) : (forall x, 0 <= x < Z.max 1 n -> P x) -> draws (below n) P.
Proof.
  intros H r x r' Hr E. destruct (Z.le_gt_cases n 1) as [Hn|Hn].
  - unfold below, draw, rng_below, rng_below_fuel in E.
    rewrite (proj2 (Z.leb_le n 1) Hn) in E. injection E as <- <-. split; [apply H; lia|done].
  - destruct (rng_below_bound n r x r' Hr ltac:(lia) E). split; [apply H; lia|done].
Qed.

Lemma draws_range lo hi (P : Z -> Prop) :
  (forall x, lo <= x <= Z.max lo hi -> P x) -> draws (range lo hi) P.
Proof.
  intros H r x r' Hr E. destruct (Z.le_gt_cases lo hi) as [Hle|Hle].
  - destruct (rng_range_bound lo hi r x r' Hr Hle E). split; [apply H; lia|done].
  - unfold range, draw, rng_range in E. rewrite (proj2 (Z.leb_le hi lo)) in E by lia.
    injection E as <- <-. split; [apply H; lia|done].
Qed.

Lemma draws_skewed lo hi (P : Z -> Prop) :
  (forall x, lo <= x <= Z.max lo hi -> P x) -> draws (skewed lo hi) P.
Proof.
  intros H r x r' Hr E. unfold skewed, draw, rng_skewed in E.
  destruct (Z.leb_spec hi lo) as [Hle|Hle].
  - injection E as <- <-. split; [apply H; lia|done].
  - destruct (u64_add (hi - lo) 1) as [n|] eqn:En; [|done]. apply u64_add_Some in En as [-> _].
    simpl in E. destruct (rng_below _ r) as [[a r1]|] eqn:Ea; [|done].
    apply rng_below_bound in Ea as [Ha Hr1]; [|done|lia]. simpl in E.
    destruct (rng_below _ r1) as [[b r2]|] eqn:Eb; [|done].
    apply rng_below_bound in Eb as [Hb Hr2]; [|done|lia]. simpl in E.
    destruct (u64_add lo _) as [z|] eqn:Ez; [|done]. apply u64_add_Some in Ez as [-> _].
    injection E as <- <-. split; [apply H; lia|done].
Qed.

(** A chance of nothing never comes, a certain one always does. *)
Lemma draws_chance ppm (P : bool -> Prop) :
  (forall b, (ppm = 0 -> b = false) -> (1000000 <= ppm -> b = true) -> P b) ->
  draws (chance ppm) P.
Proof.
  intros H r b r' Hr E. unfold chance, draw, rng_chance_ppm in E.
  destruct (Z.eqb_spec ppm 0) as [->|Hne]; [injection E as <- <-; split; [by apply H|done]|].
  destruct (Z.leb_spec 1000000 ppm); [injection E as <- <-; split; [by apply H|done]|].
  destruct (rng_below 1000000 r) as [[x r1]|] eqn:Ex; [|done].
  apply rng_below_bound in Ex as [_ Hr1]; [|done|lia]. injection E as <- <-.
  split; [apply H; lia|done].
Qed.

Lemma draws_choose {A} (l : list A) (P : option A -> Prop) :
  (l = [] -> P None) -> (forall a, a ∈ l -> P (Some a)) -> draws (choose l) P.
Proof.
  intros H0 H r o r' Hr E. unfold choose, draw, rng_choose, rng_index in E.
  destruct l as [|a l]; [injection E as <- <-; auto|]. cbn [length Nat.eqb] in E.
  destruct (rng_below _ r) as [[x r1]|] eqn:Ex; [|done].
  apply rng_below_bound in Ex as [Hx Hr1]; [|done|lia]. simpl in E.
  destruct ((a :: l) !! Z.to_nat x) as [y|] eqn:Ey; [|done]. injection E as <- <-.
  split; [|done]. apply H. by eapply list_elem_of_lookup_2.
Qed.

Lemma shuffle_from_ok {A} i (l l' : list A) r r' :
  rng_ok r -> shuffle_from i l r = Some (l', r') -> l' ≡ₚ l /\ rng_ok r'.
Proof.
  revert l r. induction i as [|i IH]; intros l r Hr; cbn [shuffle_from]; [by intros [= <- <-]|].
  destruct (rng_below _ r) as [[j r1]|] eqn:Ej; [|done].
  apply rng_below_bound in Ej as [_ Hr1]; [|done|lia]. simpl.
  destruct (list_swap _ _ l) as [k|] eqn:E; [|done]. simpl.
  intros Hs. destruct (IH _ _ Hr1 Hs) as [Hp ?]. split; [|done].
  rewrite Hp. by eapply list_swap_Permutation.
Qed.

Lemma draws_shuffle {A} (l : list A) (P : list A -> Prop) :
  (forall l', l' ≡ₚ l -> P l') -> draws (shuffle l) P.
Proof.
  intros H r l' r' Hr E. destruct (shuffle_from_ok _ _ _ _ _ Hr E). auto.
Qed.

#[export] Hint Resolve draws_below draws_range draws_skewed draws_chance draws_shuffle : draws.

(** One step of a computation whose draws are only bounded. *)
Ltac draws_step :=
  lazymatch goal with
  | |- draws (below _ ≫= _) _ => eapply draws_bind; [apply (draws_below _ _ (fun x H => H))|]; intros ? ?; cbv beta in * |-
  | |- draws (range _ _ ≫= _) _ => eapply draws_bind; [apply (draws_range _ _ _ (fun x H => H))|]; intros ? ?; cbv beta in * |-
  | |- draws (skewed _ _ ≫= _) _ => eapply draws_bind; [apply (draws_skewed _ _ _ (fun x H => H))|]; intros ? ?; cbv beta in * |-
  | |- draws (chance _ ≫= _) _ =>
      eapply draws_bind; [apply (draws_chance _ _ (fun b H0 H1 => conj H0 H1))|]; intros ? [? ?]; cbv beta in * |-
  | |- draws (shuffle _ ≫= _) _ => eapply draws_bind; [apply (draws_shuffle _ _ (fun l H => H))|]; intros ? ?; cbv beta in * |-
  | |- draws (add_u64 _ _ ≫= _) _ =>
      eapply draws_bind; [apply (draws_add_u64 _ _ (fun z => z = _) (fun _ => eq_refl))|]; intros ? ->
  | |- draws (ensure _ ≫= _) _ =>
      eapply draws_bind; [apply (draws_ensure _ _ (fun a H => H))|]; intros ? ?; cbv beta in * |-
  | |- draws (mret _) _ => apply draws_ret
  | |- draws (if ?b then _ else _) _ => destruct b eqn:?
  | |- draws (match ?x with _ => _ end) _ => destruct x eqn:?
  end; cbv beta.

Lemma draws_count {T} (f : T -> Z) `{!Setter f} n s :
  draws (count f n s) (fun s' => exists v, s' = s ⟨ f := v ⟩).
Proof. unfold count. draws_step. draws_step. eauto. Qed.
