(* ===== verification/Disk.v ===== *)
(** * Disk: the simulated disk and its crash model ([simcore/disk.rs])

    Every file has a durable image, a page cache and the writes that are in the
    cache but not covered by a sync.  A crash resolves each pending write by
    chance: lost, torn, or whole, in order or shuffled.  The random source is
    threaded as in the code ([Draw]); [BTreeMap]s of files are [gmap]s, walked
    in the order of their keys. *)
From S2P Require Import Prelude Codec LogFormat Io Rng Draw.
From Stdlib.Init Require Import Byte.

Definition SECTOR : nat := 512.

Inductive IoResult : Type := IoOk | IoError.
#[export] Instance IoResult_eq_dec : EqDecision IoResult.
Proof. solve_decision. Defined.
Definition io_is_ok (r : IoResult) : bool := bool_decide (r = IoOk).

Record DiskConfig : Type := mkDiskConfig {
  dc_write_latency : Z * Z;
  dc_sync_latency : Z * Z;
  dc_io_error_ppm : Z;
  dc_torn_write_ppm : Z;
  dc_lost_write_ppm : Z;
  dc_reorder_unsynced : bool;
  dc_slow_ppm : Z;
  dc_slow_factor : Z;
}.

Definition disk_config_default : DiskConfig :=
  mkDiskConfig (20 * 1000, 500 * 1000) (200 * 1000, 8 * 1000000) 0 0 0 false 0 20.
Definition disk_config_reliable : DiskConfig := disk_config_default.
Definition disk_config_hostile : DiskConfig :=
  mkDiskConfig (dc_write_latency disk_config_default) (dc_sync_latency disk_config_default)
    2000 150000 300000 true 10000 (dc_slow_factor disk_config_default).

Inductive WriteKind : Type :=
| WData (offset : nat) (bytes : list byte)
| WSetLen (len : nat).

Record SimFile : Type := mkSimFile {
  sf_durable : list byte;
  sf_cache : list byte;
  sf_pending : list WriteKind;
}.
Definition simfile_default : SimFile := mkSimFile [] [] [].

(** [apply]: a write past the end zero-fills the gap. *)
Definition apply_write (buf : list byte) (kind : WriteKind) : list byte :=
  match kind with
  | WData offset bytes =>
      let e := (offset + length bytes)%nat in
      let buf := if (length buf <? e)%nat then resize e x00 buf else buf in
      take offset buf ++ bytes ++ drop e buf
  | WSetLen len => resize len x00 buf
  end.

Record DiskStats : Type := mkDiskStats {
  ds_writes : Z;
  ds_syncs : Z;
  ds_errors : Z;
  ds_crashes : Z;
  ds_bytes_written : Z;
  ds_writes_lost : Z;
  ds_writes_torn : Z;
}.
Definition disk_stats_default : DiskStats := mkDiskStats 0 0 0 0 0 0 0.

Record Issued : Type := mkIssued {
  is_op : OpId;
  is_delay : Nanos;
  is_result : IoResult;
}.

Record Disk : Type := mkDisk {
  dk_cfg : DiskConfig;
  dk_files : gmap FileId SimFile;
  dk_next_op : OpId;
  dk_stats : DiskStats;
}.

Definition disk_eta (d : Disk) : Disk :=
  mkDisk (dk_cfg d) (dk_files d) (dk_next_op d) (dk_stats d).
Definition disk_stats_eta (d : DiskStats) : DiskStats :=
  mkDiskStats (ds_writes d) (ds_syncs d) (ds_errors d) (ds_crashes d) (ds_bytes_written d)
    (ds_writes_lost d) (ds_writes_torn d).
#[export] Instance set_dk_files : Setter dk_files. Proof. build_setter disk_eta. Defined.
#[export] Instance set_dk_next_op : Setter dk_next_op. Proof. build_setter disk_eta. Defined.
#[export] Instance set_dk_stats : Setter dk_stats. Proof. build_setter disk_eta. Defined.
#[export] Instance set_ds_writes : Setter ds_writes. Proof. build_setter disk_stats_eta. Defined.
#[export] Instance set_ds_syncs : Setter ds_syncs. Proof. build_setter disk_stats_eta. Defined.
#[export] Instance set_ds_errors : Setter ds_errors. Proof. build_setter disk_stats_eta. Defined.
#[export] Instance set_ds_crashes : Setter ds_crashes. Proof. build_setter disk_stats_eta. Defined.
#[export] Instance set_ds_bytes_written : Setter ds_bytes_written. Proof. build_setter disk_stats_eta. Defined.
#[export] Instance set_ds_writes_lost : Setter ds_writes_lost. Proof. build_setter disk_stats_eta. Defined.
#[export] Instance set_ds_writes_torn : Setter ds_writes_torn. Proof. build_setter disk_stats_eta. Defined.

Definition disk_new (cfg : DiskConfig) : Disk := mkDisk cfg ∅ 1 disk_stats_default.

(** [self.file(id)]: the entry is made if it is missing. *)
Definition disk_file (d : Disk) (id : FileId) : SimFile := default simfile_default (dk_files d !! id).

Definition disk_count (f : DiskStats -> Z) `{!Setter f} (n : Z) (d : Disk) : Draw Disk :=
  st ← count f n (dk_stats d);
  mret (d ⟨ dk_stats := st ⟩).

Definition disk_latency (d : Disk) (base : Z * Z) : Draw Nanos :=
  l ← skewed base.1 base.2;
  slow ← chance (dc_slow_ppm (dk_cfg d));
  mret (if (slow : bool) then u64_saturating_mul l (dc_slow_factor (dk_cfg d)) else l).

Definition disk_next (d : Disk) : Draw (OpId * Disk) :=
  next ← add_u64 (dk_next_op d) 1;
  mret (dk_next_op d, d ⟨ dk_next_op := next ⟩).

(** Failure is decided at issue time, so the data never reaches the cache. *)
Definition disk_issue (kind : WriteKind) (file : FileId) (d : Disk) : Draw (Issued * Disk) :=
  '(op, d) ← disk_next d;
  delay ← disk_latency d (dc_write_latency (dk_cfg d));
  fails ← chance (dc_io_error_ppm (dk_cfg d));
  if (fails : bool) then
    d ← disk_count ds_errors 1 d;
    mret (mkIssued op delay IoError, d)
  else
    d ← disk_count ds_writes 1 d;
    d ← match kind with
        | WData _ bytes => disk_count ds_bytes_written (Z.of_nat (length bytes)) d
        | WSetLen _ => mret d
        end;
    let f := disk_file d file in
    let f := mkSimFile (sf_durable f) (apply_write (sf_cache f) kind) (sf_pending f ++ [kind]) in
    mret (mkIssued op delay IoOk, d ⟨ dk_files := <[file := f]> (dk_files d) ⟩).

Definition disk_write_at (file : FileId) (offset : nat) (bytes : list byte) (d : Disk)
  : Draw (Issued * Disk) := disk_issue (WData offset bytes) file d.

Definition disk_append (file : FileId) (bytes : list byte) (d : Disk) : Draw (Issued * Disk) :=
  let f := disk_file d file in
  let d := d ⟨ dk_files := <[file := f]> (dk_files d) ⟩ in
  disk_write_at file (length (sf_cache f)) bytes d.

Definition disk_set_len (file : FileId) (len : nat) (d : Disk) : Draw (Issued * Disk) :=
  disk_issue (WSetLen len) file d.

Definition disk_sync (file : FileId) (d : Disk) : Draw (Issued * Disk) :=
  '(op, d) ← disk_next d;
  delay ← disk_latency d (dc_sync_latency (dk_cfg d));
  fails ← chance (dc_io_error_ppm (dk_cfg d));
  if (fails : bool) then
    d ← disk_count ds_errors 1 d;
    mret (mkIssued op delay IoError, d)
  else
    d ← disk_count ds_syncs 1 d;
    let f := disk_file d file in
    let f := mkSimFile (fold_left apply_write (sf_pending f) (sf_durable f)) (sf_cache f) [] in
    mret (mkIssued op delay IoOk, d ⟨ dk_files := <[file := f]> (dk_files d) ⟩).

Definition disk_read_all (d : Disk) (file : FileId) : list byte :=
  default [] (sf_cache <$> dk_files d !! file).
Definition disk_len (d : Disk) (file : FileId) : nat :=
  default 0%nat ((fun f => length (sf_cache f)) <$> dk_files d !! file).
Definition durable_image (d : Disk) (file : FileId) : list byte :=
  default [] (sf_durable <$> dk_files d !! file).
Definition has_unsynced (d : Disk) (file : FileId) : bool :=
  default false ((fun f => match sf_pending f with [] => false | _ => true end) <$> dk_files d !! file).

(** ** Crashes *)

(** How much of a torn write landed. *)
Definition tear_length (len : nat) : Draw nat :=
  if (len =? 0)%nat then mret 0%nat
  else
    sector ← (if (SECTOR <? len)%nat then chance 800000 else mret false);
    if (sector : bool) then
      x ← below (Z.of_nat (len / SECTOR) + 1);
      mret (Z.to_nat x * SECTOR)%nat
    else
      x ← below (Z.of_nat len);
      mret (Z.to_nat x).

(** One pending write at a crash: lost, torn (a slice out of range would panic)
    or applied whole. *)
Definition resolve_write (cfg : DiskConfig) (w : WriteKind) (fs : list byte * DiskStats)
  : Draw (list byte * DiskStats) :=
  let '(buf, st) := fs in
  lost ← chance (dc_lost_write_ppm cfg);
  if (lost : bool) then
    st ← count ds_writes_lost 1 st;
    mret (buf, st)
  else
    match w with
    | WData offset bytes =>
        torn ← chance (dc_torn_write_ppm cfg);
        if (torn : bool) then
          keep ← tear_length (length bytes);
          if (0 <? keep)%nat then
            st ← count ds_writes_torn 1 st;
            part ← ensure (if (keep <=? length bytes)%nat then Some (take keep bytes) else None);
            mret (apply_write buf (WData offset part), st)
          else
            st ← count ds_writes_lost 1 st;
            mret (buf, st)
        else mret (apply_write buf w, st)
    | WSetLen _ => mret (apply_write buf w, st)
    end.

Definition crash_file (cfg : DiskConfig) (f : SimFile) (st : DiskStats)
  : Draw (SimFile * DiskStats) :=
  pending ← (if dc_reorder_unsynced cfg then shuffle (sf_pending f) else mret (sf_pending f));
  '(durable, st) ← fold_draw (resolve_write cfg) pending (sf_durable f, st);
  mret (mkSimFile durable durable [], st).

Definition crash_step (idf : FileId * SimFile) (d : Disk) : Draw Disk :=
  '(f, st) ← crash_file (dk_cfg d) idf.2 (dk_stats d);
  mret (d ⟨ dk_files := <[idf.1 := f]> (dk_files d) ⟩ ⟨ dk_stats := st ⟩).

Definition disk_crash (d : Disk) : Draw Disk :=
  d ← disk_count ds_crashes 1 d;
  fold_draw crash_step (by_index (dk_files d)) d.
