(* ===== verification/DiskSafety.v ===== *)
(** * DiskSafety: what a crash keeps ([simcore/disk.rs], [kvstore/log.rs])

    The cache of a file is always its durable image with the pending writes
    applied.  A crash may lose, tear and reorder pending writes as it likes, but
    no byte that none of them touches changes; so a write-ahead log recovers, after
    any crash, at least the records that were synced before it. *)
From S2P Require Import Prelude Codec Crc LogFormat RaftLog Recovery Io Rng Draw Disk.
From Stdlib.Init Require Import Byte.

(** ** Bytes a write leaves alone *)

(** The write touches no byte of [a, b). *)
Definition spares (a b : nat) (w : WriteKind) : Prop :=
  match w with
  | WData offset bytes => (offset + length bytes <= a \/ b <= offset)%nat
  | WSetLen len => (b <= len)%nat
  end.

#[export] Instance spares_dec a b w : Decision (spares a b w).
Proof. destruct w; simpl; apply _. Defined.

Lemma length_apply_data buf offset bytes :
  length (apply_write buf (WData offset bytes)) = Nat.max (length buf) (offset + length bytes).
Proof.
  simpl. rewrite !length_app, length_take, length_drop.
  destruct (Nat.ltb_spec (length buf) (offset + length bytes)); [rewrite length_resize|]; lia.
Qed.

Lemma resize_lookup (buf : list byte) len p :
  (p < length buf)%nat -> (p < len)%nat -> resize len x00 buf !! p = buf !! p.
Proof. intros. by rewrite lookup_resize. Qed.

Lemma apply_spares buf w a b p :
  spares a b w -> (a <= p < b)%nat -> (b <= length buf)%nat ->
  apply_write buf w !! p = buf !! p /\ (b <= length (apply_write buf w))%nat.
Proof.
  intros Hs Hp Hb. destruct w as [offset bytes|len]; simpl in Hs.
  - split; [|rewrite length_apply_data; lia].
    assert (Hbuf : forall q, (q < length buf)%nat ->
      (if (length buf <? offset + length bytes)%nat then resize (offset + length bytes) x00 buf
       else buf) !! q = buf !! q).
    { intros q Hq. destruct (Nat.ltb_spec (length buf) (offset + length bytes)); [|done].
      apply resize_lookup; lia. }
    assert (Hlen : (offset + length bytes <= length
      (if (length buf <? offset + length bytes)%nat then resize (offset + length bytes) x00 buf
       else buf))%nat).
    { destruct (Nat.ltb_spec (length buf) (offset + length bytes)); [rewrite length_resize|]; lia. }
    simpl. destruct Hs as [Hs|Hs].
    + rewrite app_assoc, lookup_app_r, lookup_drop; rewrite length_app, length_take; [|lia].
      rewrite Nat.min_l by lia. replace (offset + length bytes + (p - (offset + length bytes)))%nat with p by lia.
      apply Hbuf. lia.
    + rewrite lookup_app_l by (rewrite length_take; lia). rewrite lookup_take_lt by lia.
      apply Hbuf. lia.
  - simpl. rewrite length_resize. split; [apply resize_lookup; lia|done].
Qed.

(** Two images that agree on [a, b). *)
Definition agree (a b : nat) (buf buf' : list byte) : Prop :=
  (b <= length buf')%nat /\ forall p, (a <= p < b)%nat -> buf' !! p = buf !! p.

Lemma agree_apply a b buf buf' w :
  spares a b w -> agree a b buf buf' -> agree a b buf (apply_write buf' w).
Proof.
  intros Hs [Hl Ha]. destruct (decide (a < b)%nat) as [Hab|Hab].
  - split; [by eapply (apply_spares buf' w a b a); [done|lia|]|].
    intros p Hp. rewrite <-Ha by done. by apply (apply_spares buf' w a b).
  - split; [|intros; lia]. destruct w as [offset bytes|len].
    + rewrite length_apply_data. lia.
    + simpl in *. by rewrite length_resize.
Qed.

Lemma agree_slice a b buf buf' :
  (b <= length buf)%nat -> agree a b buf buf' ->
  take (b - a) (drop a buf') = take (b - a) (drop a buf).
Proof.
  intros Hb [Hb' Ha]. apply list_eq. intros i. destruct (decide (i < b - a)%nat).
  - rewrite !lookup_take_lt, !lookup_drop by done. apply Ha. lia.
  - rewrite !lookup_ge_None_2; [done|rewrite length_take; lia..].
Qed.

(** ** One crash *)

Lemma draws_disk_count (f : DiskStats -> Z) `{!Setter f} n d :
  draws (disk_count f n d) (fun d' => exists st, d' = d ⟨ dk_stats := st ⟩).
Proof.
  unfold disk_count. eapply draws_bind; [apply draws_count|]. intros st _. draws_step. eauto.
Qed.

(** A torn write is never longer than the write. *)
Lemma draws_tear_length len : draws (tear_length len) (fun k => (k <= len)%nat).
Proof.
  unfold tear_length. destruct (Nat.eqb_spec len 0) as [->|Hn]; [by draws_step|].
  eapply (draws_bind _ _ (fun _ => True)).
  { destruct (SECTOR <? len)%nat; [apply draws_chance; auto|by draws_step]. }
  intros [] _; draws_step; draws_step.
  - unfold SECTOR in *. pose proof (Nat.Div0.mul_div_le len 512) as Hq.
    revert Hq H. generalize (len / 512)%nat. intros q Hq Hx. lia.
  - lia.
Qed.

Lemma spares_prefix a b offset bytes k :
  spares a b (WData offset bytes) -> spares a b (WData offset (take k bytes)).
Proof. simpl. rewrite length_take. lia. Qed.

Lemma draws_resolve cfg w a b buf fs :
  spares a b w -> agree a b buf fs.1 ->
  draws (resolve_write cfg w fs) (fun fs' => agree a b buf fs'.1).
Proof.
  intros Hs Ha. destruct fs as [cur st]. simpl in Ha. unfold resolve_write. draws_step.
  draws_step.
  { eapply draws_bind; [apply draws_count|]. intros st' _. by draws_step. }
  destruct w as [offset bytes|len]; [|draws_step; by apply agree_apply].
  draws_step. draws_step; [|draws_step; by apply agree_apply].
  eapply draws_bind; [apply draws_tear_length|]. intros keep Hk. draws_step.
  - eapply draws_bind; [apply draws_count|]. intros st' _. draws_step. draws_step.
    rewrite (proj2 (Nat.leb_le keep (length bytes)) Hk) in H3. injection H3 as <-.
    by apply agree_apply; [apply spares_prefix|].
  - eapply draws_bind; [apply draws_count|]. intros st' _. by draws_step.
Qed.

Lemma draws_crash_file cfg f st a b :
  Forall (spares a b) (sf_pending f) -> (b <= length (sf_durable f))%nat ->
  draws (crash_file cfg f st) (fun fs => agree a b (sf_durable f) (sf_durable fs.1) /\
    sf_cache fs.1 = sf_durable fs.1 /\ sf_pending fs.1 = []).
Proof.
  intros Hp Hb. unfold crash_file.
  eapply (draws_bind _ _ (fun l => l ≡ₚ sf_pending f)).
  { destruct (dc_reorder_unsynced cfg); [apply draws_shuffle; auto|by draws_step]. }
  intros l Hl. rewrite <-Hl in Hp. rewrite Forall_forall in Hp.
  eapply draws_bind.
  { apply (draws_fold _ _ (fun fs => agree a b (sf_durable f) fs.1)); [by split|].
    intros w fs Hw Ha. apply draws_resolve; auto. }
  intros [dur st'] Ha. by draws_step.
Qed.

(** A crash treats each file by itself. *)
Lemma draws_crash_fold (P : FileId -> SimFile -> SimFile -> Prop) l d :
  NoDup (map fst l) ->
  (forall i f st, (i, f) ∈ l -> draws (crash_file (dk_cfg d) f st) (fun fs => P i f fs.1)) ->
  draws (fold_draw crash_step l d) (fun d' =>
    (forall i f, (i, f) ∈ l -> exists f', dk_files d' !! i = Some f' /\ P i f f') /\
    (forall i, i ∉ map fst l -> dk_files d' !! i = dk_files d !! i)).
Proof.
  revert d. induction l as [|[i f] l IH]; intros d Hnd HP.
  - simpl. draws_step. split; [by intros i f ?%elem_of_nil|done].
  - simpl. apply NoDup_cons in Hnd as [Hi Hnd]. eapply draws_bind.
    { unfold crash_step. eapply draws_bind; [apply (HP i f); by left|].
      intros [f' st] Hf'. simpl. draws_step.
      instantiate (1 := fun d1 => exists f' st, P i f f' /\ d1 = d ⟨ dk_files := <[i := f']> (dk_files d) ⟩ ⟨ dk_stats := st ⟩).
      simpl. eauto. }
    intros d1 (f' & st & Hf' & ->). eapply draws_mono; [apply IH; [done|]|].
    { intros. apply HP. by right. }
    intros d2 [H1 H2]. split.
    + intros j g [[= -> ->]|Hj]%elem_of_cons; [|by apply H1].
      exists f'. split; [|done]. rewrite H2 by done. simpl. by rewrite lookup_insert_eq.
    + intros j Hj. rewrite H2 by (intros ?; apply Hj; by right). simpl.
      rewrite lookup_insert_ne; [done|]. intros ->. apply Hj. by left.
Qed.

Lemma by_index_NoDup {A} (m : gmap Z A) : NoDup (map fst (by_index m)).
Proof.
  unfold by_index. rewrite (merge_sort_Permutation index_le). apply NoDup_fst_map_to_list.
Qed.

Lemma draws_disk_crash (P : FileId -> SimFile -> SimFile -> Prop) d :
  (forall i f st, dk_files d !! i = Some f -> draws (crash_file (dk_cfg d) f st) (fun fs => P i f fs.1)) ->
  draws (disk_crash d) (fun d' => forall i f, dk_files d !! i = Some f ->
    exists f', dk_files d' !! i = Some f' /\ P i f f').
Proof.
  intros HP. unfold disk_crash. eapply draws_bind; [apply draws_disk_count|].
  intros d1 [st ->]. simpl. eapply draws_mono; [apply (draws_crash_fold P)|].
  - apply by_index_NoDup.
  - intros i f st' Hi%by_index_elem. by apply HP.
  - intros d2 [H1 _] i f Hi. by apply H1, by_index_elem.
Qed.

(** One file of the disk, whatever becomes of the others. *)
Lemma draws_crash_at d file f (Q : SimFile -> Prop) :
  dk_files d !! file = Some f ->
  (forall st, draws (crash_file (dk_cfg d) f st) (fun fs => Q fs.1)) ->
  draws (disk_crash d) (fun d' => exists f', dk_files d' !! file = Some f' /\ Q f').
Proof.
  intros Hf HQ. eapply draws_mono; [apply (draws_disk_crash (fun i g g' => i = file -> Q g'))|].
  - intros i g st Hi. destruct (decide (i = file)) as [->|Hne].
    + assert (g = f) as -> by congruence. eapply draws_mono; [apply HQ|]. auto.
    + eapply draws_mono; [apply (draws_crash_file _ g st 0 0); [|lia]|done].
      apply Forall_true. intros [|]; simpl; lia.
  - intros d' H1. destruct (H1 file f Hf) as (f' & Hf' & HQ'). exists f'. auto.
Qed.

(** ** The cache is the durable image with the pending writes applied *)

Definition file_ok (f : SimFile) : Prop :=
  sf_cache f = fold_left apply_write (sf_pending f) (sf_durable f).
Definition disk_ok (d : Disk) : Prop := map_Forall (fun _ => file_ok) (dk_files d).

Lemma disk_file_ok d id : disk_ok d -> file_ok (disk_file d id).
Proof. intros Hd. unfold disk_file. destruct (dk_files d !! id) eqn:E; [by eapply Hd|done]. Qed.

Lemma disk_ok_insert d id f :
  disk_ok d -> file_ok f -> disk_ok (d ⟨ dk_files := <[id := f]> (dk_files d) ⟩).
Proof. intros Hd Hf. by apply map_Forall_insert_2. Qed.

Lemma draws_disk_next d :
  draws (disk_next d) (fun od => dk_files od.2 = dk_files d /\ dk_cfg od.2 = dk_cfg d).
Proof. unfold disk_next. draws_step. by draws_step. Qed.

Lemma draws_disk_latency d base : draws (disk_latency d base) (fun _ => True).
Proof. unfold disk_latency. draws_step. draws_step. by draws_step. Qed.

Lemma draws_count_files (f : DiskStats -> Z) `{!Setter f} n d :
  draws (disk_count f n d) (fun d' => dk_files d' = dk_files d /\ dk_cfg d' = dk_cfg d).
Proof. eapply draws_mono; [apply draws_disk_count|]. by intros d' [st ->]. Qed.

(** What the three kinds of operation do to the files. *)
Lemma draws_issue kind file d :
  draws (disk_issue kind file d) (fun res => dk_cfg res.2 = dk_cfg d /\
    dk_files res.2 = if io_is_ok (is_result res.1)
      then <[file := mkSimFile (sf_durable (disk_file d file))
               (apply_write (sf_cache (disk_file d file)) kind)
               (sf_pending (disk_file d file) ++ [kind])]> (dk_files d)
      else dk_files d).
Proof.
  unfold disk_issue. eapply draws_bind; [apply draws_disk_next|]. intros [op d1] [F1 C1]. simpl in F1, C1.
  eapply draws_bind; [apply draws_disk_latency|]. intros delay _. draws_step. draws_step.
  - eapply draws_bind; [apply draws_count_files|]. intros d2 [F2 C2]. draws_step. simpl.
    split; congruence.
  - eapply draws_bind; [apply draws_count_files|]. intros d2 [F2 C2].
    eapply (draws_bind _ _ (fun d3 => dk_files d3 = dk_files d2 /\ dk_cfg d3 = dk_cfg d2)).
    { destruct kind; [apply draws_count_files|by draws_step]. }
    intros d3 [F3 C3]. draws_step. simpl. unfold disk_file. rewrite F3, F2, F1.
    split; [congruence|done].
Qed.

Lemma draws_sync file d :
  draws (disk_sync file d) (fun res => dk_cfg res.2 = dk_cfg d /\
    dk_files res.2 = if io_is_ok (is_result res.1)
      then <[file := mkSimFile
               (fold_left apply_write (sf_pending (disk_file d file)) (sf_durable (disk_file d file)))
               (sf_cache (disk_file d file)) []]> (dk_files d)
      else dk_files d).
Proof.
  unfold disk_sync. eapply draws_bind; [apply draws_disk_next|]. intros [op d1] [F1 C1]. simpl in F1, C1.
  eapply draws_bind; [apply draws_disk_latency|]. intros delay _. draws_step. draws_step;
    (eapply draws_bind; [apply draws_count_files|]; intros d2 [F2 C2]; draws_step; simpl).
  - split; congruence.
  - unfold disk_file. rewrite F2, F1. split; [congruence|done].
Qed.

(** *** Sequences of operations *)

Inductive disk_event : Type :=
| DeWriteAt (file : FileId) (offset : nat) (bytes : list byte)
| DeAppend (file : FileId) (bytes : list byte)
| DeSetLen (file : FileId) (len : nat)
| DeSync (file : FileId)
| DeCrash.

Definition disk_handle (ev : disk_event) (d : Disk) : Draw Disk :=
  match ev with
  | DeWriteAt file offset bytes => '(_, d) ← disk_write_at file offset bytes d; mret d
  | DeAppend file bytes => '(_, d) ← disk_append file bytes d; mret d
  | DeSetLen file len => '(_, d) ← disk_set_len file len d; mret d
  | DeSync file => '(_, d) ← disk_sync file d; mret d
  | DeCrash => disk_crash d
  end.

Lemma issue_ok kind file d :
  disk_ok d -> draws (disk_issue kind file d) (fun res => disk_ok res.2).
Proof.
  intros Hd. eapply draws_mono; [apply draws_issue|]. intros [iss d'] [_ F]. simpl in *.
  unfold disk_ok. rewrite F. case_match; [|done]. apply map_Forall_insert_2; [|done].
  pose proof (disk_file_ok d file Hd) as Hf. unfold file_ok in *. simpl.
  by rewrite fold_left_app, Hf.
Qed.

Lemma crash_ok d : disk_ok d -> draws (disk_crash d) disk_ok.
Proof.
  intros Hd. unfold disk_crash. eapply draws_bind; [apply draws_count_files|].
  intros d1 [F _]. apply draws_fold; [unfold disk_ok; by rewrite F|].
  intros [i f] d2 _ Hd2. unfold crash_step.
  eapply draws_bind; [apply (draws_crash_file _ _ _ 0 0); [|lia]|].
  { apply Forall_true. intros [|]; simpl; lia. }
  intros [f' st] (_ & Hc & Hp). draws_step. simpl in *.
  apply map_Forall_insert_2; [|exact Hd2]. unfold file_ok. by rewrite Hc, Hp.
Qed.

Lemma handle_ok ev d : disk_ok d -> draws (disk_handle ev d) disk_ok.
Proof.
  intros Hd. destruct ev as [file offset bytes|file bytes|file len|file|]; simpl.
  - eapply draws_bind; [by apply issue_ok|]. intros [iss d'] Hd'. by draws_step.
  - eapply draws_bind; [apply issue_ok|].
    + apply disk_ok_insert; [done|by apply disk_file_ok].
    + intros [iss d'] Hd'. by draws_step.
  - eapply draws_bind; [by apply issue_ok|]. intros [iss d'] Hd'. by draws_step.
  - eapply draws_bind; [apply draws_sync|]. intros [iss d'] [_ F]. draws_step. simpl in F.
    unfold disk_ok. rewrite F. case_match; [|done]. apply map_Forall_insert_2; [|done].
    pose proof (disk_file_ok d file Hd) as Hf. unfold file_ok in *. by simpl.
  - by apply crash_ok.
Qed.

(** A disk that neither loses, tears nor reorders: a crash keeps the cache. *)
Lemma draws_faithful_file cfg f st :
  dc_lost_write_ppm cfg = 0 -> dc_torn_write_ppm cfg = 0 -> dc_reorder_unsynced cfg = false ->
  draws (crash_file cfg f st)
    (fun fs => sf_cache fs.1 = fold_left apply_write (sf_pending f) (sf_durable f)).
Proof.
  intros Hl Ht Hr. unfold crash_file. rewrite Hr.
  eapply (draws_bind _ _ (fun l => l = sf_pending f)); [by draws_step|]. intros l ->.
  eapply (draws_bind _ _ (fun fs => fs.1 = fold_left apply_write (sf_pending f) (sf_durable f)));
    [|intros [dur st'] Hd; by draws_step].
  generalize (sf_durable f) as buf. generalize st. induction (sf_pending f) as [|w l IH];
    intros st' buf; simpl; [by draws_step|].
  eapply (draws_bind _ _ (fun fs => fs.1 = apply_write buf w)); [|intros [b s] Hb; simpl in Hb; subst b; apply IH].
  rewrite Hl, Ht. draws_step. rewrite H by done. destruct w; [|by draws_step].
  draws_step. rewrite H1 by done. by draws_step.
Qed.

(** ** Properties *)

(** C21. What was synced survives.  If the durable image of a file holds, after [pre],
    the records of a run of entries, and the pending writes touch none of those
    bytes, then after a crash, however it loses, tears and reorders those
    writes, recovery from the file as it is read then finds at least that run. *)
Theorem synced_log_survives_crash d d' r r' file f pre es e0 rest :
  rng_ok r -> disk_crash d r = Some (d', r') ->
  dk_files d !! file = Some f -> sf_durable f = pre ++ records (e0 :: es) ++ rest ->
  Forall (spares (length pre) (length pre + length (records (e0 :: es)))) (sf_pending f) ->
  Forall record_ok (e0 :: es) -> 1 <= e_index e0 ->
  contiguous_from (e_index e0) (e0 :: es) = true -> terms_ascend (e0 :: es) = true ->
  exists rec more,
    recover_log_any_start (drop (length pre) (disk_read_all d' file)) = Some rec /\
    rl_entries rec = (e0 :: es) ++ more.
Proof.
  intros Hr Hcrash Hf Hdur Hp Hok H1 Hc Ht. set (run := e0 :: es) in *.
  destruct (draws_crash_at d file f (fun f' =>
    agree (length pre) (length pre + length (records run)) (sf_durable f) (sf_durable f') /\
    sf_cache f' = sf_durable f')) with (r := r) (a := d') (r' := r')
    as [(f' & Hf' & Hag & Hcache) _]; [done| |done..|].
  { intros st. eapply draws_mono; [apply draws_crash_file; [exact Hp|rewrite Hdur, !length_app; lia]|].
    intros fs (? & ? & _). done. }
  assert (Htl : exists tail, drop (length pre) (disk_read_all d' file) = records run ++ tail).
  { apply agree_slice in Hag; [|rewrite Hdur, !length_app; lia].
    rewrite Nat.add_sub_swap, Nat.sub_diag, Nat.add_0_l in Hag by done.
    rewrite Hdur, drop_app_length, take_app_length in Hag.
    unfold disk_read_all. rewrite Hf'. simpl. rewrite Hcache.
    exists (drop (length (records run)) (drop (length pre) (sf_durable f'))).
    rewrite <-(take_drop (length (records run)) (drop _ _)) at 1. by rewrite Hag. }
  destruct Htl as [tail ->]. unfold run. rewrite recover_any_start_from by (done || by inversion Hok).
  apply recover_log_prefix. by apply run_continues.
Qed.

(** C22. The page cache is what was written: over any sequence of operations, failed
    ones and crashes included, the cache of every file is its durable image with
    the pending writes applied in order; and on a disk that neither loses, tears
    nor reorders, a crash leaves every file as the node last read it. *)
Theorem cache_is_durable_plus_pending cfg evs :
  draws (fold_draw disk_handle evs (disk_new cfg)) (fun d =>
    (forall file, disk_read_all d file =
       fold_left apply_write (sf_pending (disk_file d file)) (durable_image d file)) /\
    (dc_lost_write_ppm (dk_cfg d) = 0 -> dc_torn_write_ppm (dk_cfg d) = 0 ->
     dc_reorder_unsynced (dk_cfg d) = false ->
     draws (disk_crash d) (fun d' => forall file f, dk_files d !! file = Some f ->
       disk_read_all d' file = disk_read_all d file))).
Proof.
  eapply draws_mono.
  - apply (draws_fold _ _ disk_ok); [apply map_Forall_empty|]. intros ev d _. apply handle_ok.
  - intros d Hd. split.
    + intros file. pose proof (disk_file_ok d file Hd) as Hf.
      unfold disk_read_all, durable_image, disk_file, file_ok in *.
      destruct (dk_files d !! file); done.
    + intros Hl Ht Ho.
      eapply draws_mono; [apply (draws_disk_crash (fun _ f f' => sf_cache f' = sf_cache f))|].
      * intros i f st Hi. eapply draws_mono; [by apply draws_faithful_file|].
        intros fs ->. symmetry. by apply (Hd i).
      * intros d' HP file f Hf. destruct (HP file f Hf) as (f' & Hf' & Hc).
        unfold disk_read_all. rewrite Hf, Hf'. simpl. by rewrite Hc.
Qed.

(** ** Witnesses *)

(** Two synced records, then two that are not, on the hostile disk. *)
Definition unsynced_tail (i : Z) : Entry := mkEntry 2 i (mkCommand 7 i Noop).
Definition crash_demo : option (Disk * Rng) :=
  fold_draw disk_handle
    [DeAppend 0 (records demo_run); DeSync 0; DeAppend 0 (records [unsynced_tail 5]);
     DeAppend 0 (records [unsynced_tail 6])] (disk_new disk_config_hostile) (rng_new 6).

Definition crash_demo_end : Disk * Rng := default (disk_new disk_config_default, rng_new 6) crash_demo.

Lemma crash_demo_runs : crash_demo = Some crash_demo_end.
Proof. vm_compute. reflexivity. Qed.

Lemma crash_demo_rng : rng_ok crash_demo_end.2.
Proof.
  pose proof crash_demo_runs as E. rewrite (surjective_pairing crash_demo_end) in E.
  eapply (draws_fold disk_handle _ disk_ok _) in E as [_ ?]; [done| | |apply rng_new_ok].
  - apply map_Forall_empty.
  - intros ev d' _. apply handle_ok.
Qed.

Lemma synced_log_survives_crash_witness :
  exists d' r' rec more, disk_crash crash_demo_end.1 crash_demo_end.2 = Some (d', r') /\
    recover_log_any_start (disk_read_all d' 0) = Some rec /\ rl_entries rec = demo_run ++ more.
Proof.
  destruct (disk_crash crash_demo_end.1 crash_demo_end.2) as [[d' r']|] eqn:E;
    [|vm_compute in E; discriminate E].
  edestruct (synced_log_survives_crash crash_demo_end.1 d' crash_demo_end.2 r' 0
    (disk_file crash_demo_end.1 0) [] (drop 1 demo_run) (List.hd (unsynced_tail 0) demo_run) [])
    as (rec & more & Hrec & Hm).
  - exact crash_demo_rng.
  - exact E.
  - vm_compute. reflexivity.
  - vm_compute. reflexivity.
  - refine (bool_decide_unpack _ _). vm_compute. exact I.
  - exact demo_run_ok.
  - vm_compute. discriminate.
  - vm_compute. reflexivity.
  - vm_compute. reflexivity.
  - exists d', r', rec, more. split; [reflexivity|]. split; [exact Hrec|exact Hm].
Defined.
