(* ===== verification/Faults.v ===== *)
(** * Faults: what goes wrong, how often, within what bounds ([simcore/faults.rs])

    The injector draws its decisions from the random source ([Draw]); the draws
    are in the order of the code.  Its early returns ([?], [return None]) are the
    values [None], with the counters as they were left.  [u32] values of [usize]
    node numbers are cast as in the code. *)
From S2P Require Import Prelude LogFormat Config Io Rng Draw.

(** ** Integers of the casts *)

Definition as_i64 (z : Z) : Z := if z <? 2 ^ 63 then z else z - 2 ^ 64.
Definition i64_checked (z : Z) : option Z :=
  if (- 2 ^ 63 <=? z) && (z <? 2 ^ 63) then Some z else None.
Definition u32_add (a b : Z) : option Z := if a + b <=? U32_MAX then Some (a + b) else None.

(** [NodeId(i as u32)] *)
Definition node_id (i : nat) : NodeId := wrap32 (Z.of_nat i).

(** ** The plan *)

Inductive FaultAction : Type :=
| FaTick
| FaCrash (node : NodeId)
| FaRestart (node : NodeId)
| FaPartition (groups : list (list NodeId))
| FaIsolate (node : NodeId)
| FaIsolateFromPeers (node : NodeId)
| FaSlowLink (from to : NodeId)
| FaHealNetwork
| FaClockJump (node : NodeId) (delta : Z)
| FaRecover
| FaReconfigure.

Record FaultConfig : Type := mkFaultConfig {
  fc_enable_crashes : bool;
  fc_enable_partitions : bool;
  fc_enable_clock_skew : bool;
  fc_enable_slow_links : bool;
  fc_tick_interval : Nanos * Nanos;
  fc_crash_weight : Z;
  fc_restart_weight : Z;
  fc_partition_weight : Z;
  fc_isolate_weight : Z;
  fc_peer_isolate_weight : Z;
  fc_slow_link_weight : Z;
  fc_clock_jump_weight : Z;
  fc_reconfig_weight : Z;
  fc_heal_weight : Z;
  fc_partition_duration : Nanos * Nanos;
  fc_restart_delay : Nanos * Nanos;
  fc_allow_quorum_loss : bool;
  fc_window : Nanos * Nanos;
  fc_max_clock_skew : Nanos;
  fc_max_clock_jump : Nanos;
  fc_leader_bias_ppm : Z;
  fc_unsynced_bias_ppm : Z;
  fc_enable_reconfig : bool;
  fc_fresh_leader_reconfig_ppm : Z;
}.

Definition SECONDS : Nanos := 1000000000.

Definition fault_config_default : FaultConfig := {|
  fc_enable_crashes := true;
  fc_enable_partitions := true;
  fc_enable_clock_skew := true;
  fc_enable_slow_links := true;
  fc_tick_interval := (20 * MILLIS, 400 * MILLIS);
  fc_crash_weight := 30;
  fc_restart_weight := 40;
  fc_partition_weight := 20;
  fc_isolate_weight := 15;
  fc_peer_isolate_weight := 10;
  fc_slow_link_weight := 10;
  fc_clock_jump_weight := 5;
  fc_reconfig_weight := 15;
  fc_heal_weight := 25;
  fc_partition_duration := (100 * MILLIS, 3 * SECONDS);
  fc_restart_delay := (50 * MILLIS, 2 * SECONDS);
  fc_allow_quorum_loss := false;
  fc_window := (500 * MILLIS, 20 * SECONDS);
  fc_max_clock_skew := 50 * MILLIS;
  fc_max_clock_jump := 500 * MILLIS;
  fc_leader_bias_ppm := 300000;
  fc_unsynced_bias_ppm := 500000;
  fc_enable_reconfig := false;
  fc_fresh_leader_reconfig_ppm := 300000;
|}.

Definition fault_config_eta (c : FaultConfig) : FaultConfig :=
  mkFaultConfig (fc_enable_crashes c) (fc_enable_partitions c) (fc_enable_clock_skew c)
    (fc_enable_slow_links c) (fc_tick_interval c) (fc_crash_weight c) (fc_restart_weight c)
    (fc_partition_weight c) (fc_isolate_weight c) (fc_peer_isolate_weight c)
    (fc_slow_link_weight c) (fc_clock_jump_weight c) (fc_reconfig_weight c) (fc_heal_weight c)
    (fc_partition_duration c) (fc_restart_delay c) (fc_allow_quorum_loss c) (fc_window c)
    (fc_max_clock_skew c) (fc_max_clock_jump c) (fc_leader_bias_ppm c) (fc_unsynced_bias_ppm c)
    (fc_enable_reconfig c) (fc_fresh_leader_reconfig_ppm c).
#[export] Instance set_fc_enable_crashes : Setter fc_enable_crashes.
Proof. build_setter fault_config_eta. Defined.
#[export] Instance set_fc_enable_partitions : Setter fc_enable_partitions.
Proof. build_setter fault_config_eta. Defined.
#[export] Instance set_fc_enable_clock_skew : Setter fc_enable_clock_skew.
Proof. build_setter fault_config_eta. Defined.
#[export] Instance set_fc_enable_slow_links : Setter fc_enable_slow_links.
Proof. build_setter fault_config_eta. Defined.
#[export] Instance set_fc_window : Setter fc_window.
Proof. build_setter fault_config_eta. Defined.

Definition fault_config_none : FaultConfig :=
  fault_config_default
    ⟨ fc_enable_crashes := false ⟩ ⟨ fc_enable_partitions := false ⟩
    ⟨ fc_enable_clock_skew := false ⟩ ⟨ fc_enable_slow_links := false ⟩
    ⟨ fc_window := (U64_MAX, U64_MAX) ⟩.

Definition any_enabled (c : FaultConfig) : bool :=
  fc_enable_crashes c || fc_enable_partitions c || fc_enable_clock_skew c ||
  fc_enable_slow_links c || fc_enable_reconfig c.

(** ** Clocks *)

Record ClockSkew : Type := mkClockSkew { cs_offset : Z; cs_drift_ppm : Z }.
Definition clock_skew_default : ClockSkew := mkClockSkew 0 0.

(** Division truncates; the cast of the i128 result to u64 wraps. *)
Definition skew_apply (s : ClockSkew) (true_time : Nanos) : Nanos :=
  let drift := Z.quot (true_time * cs_drift_ppm s) 1000000 in
  let t := true_time + cs_offset s + drift in
  wrap64 (Z.max t 0).

(** [rng.below(m + 1) as i64], with a sign drawn after it. *)
Definition signed_draw (m : Z) : Draw Z :=
  n ← add_u64 m 1;
  mag ← below n;
  minus ← chance 500000;
  ensure (i64_checked (as_i64 mag * (if (minus : bool) then -1 else 1))).

Definition clock_skew_random (max_offset : Nanos) : Draw ClockSkew :=
  offset ← signed_draw max_offset;
  d ← range 0 400;
  mret (mkClockSkew offset (d - 200)).

(** ** The injector *)

Record FaultStats : Type := mkFaultStats {
  fs_ticks : Z; fs_crashes : Z; fs_restarts : Z; fs_partitions : Z; fs_isolations : Z;
  fs_peer_isolations : Z; fs_heals : Z; fs_clock_jumps : Z; fs_slow_links : Z;
  fs_leader_targeted : Z; fs_unsynced_targeted : Z; fs_reconfigs : Z;
}.
Definition fault_stats_default : FaultStats := mkFaultStats 0 0 0 0 0 0 0 0 0 0 0 0.

Definition fault_stats_eta (s : FaultStats) : FaultStats :=
  mkFaultStats (fs_ticks s) (fs_crashes s) (fs_restarts s) (fs_partitions s) (fs_isolations s)
    (fs_peer_isolations s) (fs_heals s) (fs_clock_jumps s) (fs_slow_links s)
    (fs_leader_targeted s) (fs_unsynced_targeted s) (fs_reconfigs s).
#[export] Instance set_fs_ticks : Setter fs_ticks. Proof. build_setter fault_stats_eta. Defined.
#[export] Instance set_fs_crashes : Setter fs_crashes. Proof. build_setter fault_stats_eta. Defined.
#[export] Instance set_fs_restarts : Setter fs_restarts. Proof. build_setter fault_stats_eta. Defined.
#[export] Instance set_fs_partitions : Setter fs_partitions. Proof. build_setter fault_stats_eta. Defined.
#[export] Instance set_fs_isolations : Setter fs_isolations. Proof. build_setter fault_stats_eta. Defined.
#[export] Instance set_fs_peer_isolations : Setter fs_peer_isolations. Proof. build_setter fault_stats_eta. Defined.
#[export] Instance set_fs_heals : Setter fs_heals. Proof. build_setter fault_stats_eta. Defined.
#[export] Instance set_fs_clock_jumps : Setter fs_clock_jumps. Proof. build_setter fault_stats_eta. Defined.
#[export] Instance set_fs_slow_links : Setter fs_slow_links. Proof. build_setter fault_stats_eta. Defined.
#[export] Instance set_fs_leader_targeted : Setter fs_leader_targeted. Proof. build_setter fault_stats_eta. Defined.
#[export] Instance set_fs_unsynced_targeted : Setter fs_unsynced_targeted. Proof. build_setter fault_stats_eta. Defined.
#[export] Instance set_fs_reconfigs : Setter fs_reconfigs. Proof. build_setter fault_stats_eta. Defined.

Record FaultHint : Type := mkFaultHint {
  fh_leader : option NodeId;
  fh_unsynced : list bool;
  fh_members : list bool;
}.

Record FaultInjector : Type := mkFaultInjector {
  fi_cfg : FaultConfig;
  fi_stats : FaultStats;
  fi_recovered : bool;
}.
Definition fault_injector_eta (i : FaultInjector) : FaultInjector :=
  mkFaultInjector (fi_cfg i) (fi_stats i) (fi_recovered i).
#[export] Instance set_fi_stats : Setter fi_stats. Proof. build_setter fault_injector_eta. Defined.
#[export] Instance set_fi_recovered : Setter fi_recovered. Proof. build_setter fault_injector_eta. Defined.

Definition injector_new (cfg : FaultConfig) : FaultInjector :=
  mkFaultInjector cfg fault_stats_default false.

Definition next_tick_delay (i : FaultInjector) : Draw Nanos :=
  range (fc_tick_interval (fi_cfg i)).1 (fc_tick_interval (fi_cfg i)).2.
Definition window_start (i : FaultInjector) : Nanos := (fc_window (fi_cfg i)).1.
Definition window_end (i : FaultInjector) : Nanos := (fc_window (fi_cfg i)).2.
Definition restart_delay (i : FaultInjector) : Draw Nanos :=
  range (fc_restart_delay (fi_cfg i)).1 (fc_restart_delay (fi_cfg i)).2.
Definition partition_duration (i : FaultInjector) : Draw Nanos :=
  range (fc_partition_duration (fi_cfg i)).1 (fc_partition_duration (fi_cfg i)).2.

Definition max_down (c : FaultConfig) (n : nat) : nat :=
  if fc_allow_quorum_loss c then n - 1 else (n - 1) / 2.

Inductive FaultChoice : Type :=
| ChCrash | ChRestart | ChPartition | ChIsolate | ChIsolateFromPeers | ChHeal | ChSlowLink
| ChClockJump | ChReconfigure.

(** The choice under the drawn number, walking the menu. *)
Fixpoint pick_from (pick : Z) (menu : list (Z * FaultChoice)) : option FaultChoice :=
  match menu with
  | [] => None
  | (w, choice) :: menu => if pick <? w then Some choice else pick_from (pick - w) menu
  end.

Definition menu_weight (menu : list (Z * FaultChoice)) : option Z :=
  foldl (fun acc wc => a ← acc; u64_add a wc.1) (Some 0) menu.

Definition weighted_pick (menu : list (Z * FaultChoice)) : Draw (option FaultChoice) :=
  total ← ensure (menu_weight menu);
  if total =? 0 then mret None
  else pick ← below total; mret (pick_from pick menu).

(** *** One decision *)

Definition nodes_where (wanted : bool) (up : list bool) : list NodeId :=
  node_id <$> List.filter (fun i => Bool.eqb (default false (up !! i)) wanted) (seq 0 (length up)).

Definition hint_member (hint : FaultHint) (i : nat) : bool :=
  match fh_members hint with [] => true | ms => default false (ms !! i) end.
Definition member_count (hint : FaultHint) (n : nat) : nat :=
  length (List.filter (hint_member hint) (seq 0 n)).
Definition members_down (hint : FaultHint) (down : list NodeId) : nat :=
  length (List.filter (fun d => hint_member hint (Z.to_nat d)) down).

Definition offer (b : bool) (items : list (Z * FaultChoice)) : list (Z * FaultChoice) :=
  if b then items else [].

Definition fault_menu (c : FaultConfig) (up : list bool) (hint : FaultHint)
  : list (Z * FaultChoice) :=
  let n := length up in
  let down := nodes_where false up in
  let alive := nodes_where true up in
  offer (fc_enable_crashes c && (members_down hint down <? max_down c (member_count hint n))%nat
         && negb (bool_decide (alive = [])))
    [(fc_crash_weight c, ChCrash)] ++
  offer (fc_enable_crashes c && negb (bool_decide (down = []))) [(fc_restart_weight c, ChRestart)] ++
  offer (fc_enable_partitions c && (2 <=? n)%nat)
    ([(fc_partition_weight c, ChPartition); (fc_isolate_weight c, ChIsolate)] ++
     offer (0 <? fc_peer_isolate_weight c) [(fc_peer_isolate_weight c, ChIsolateFromPeers)] ++
     [(fc_heal_weight c, ChHeal)]) ++
  offer (fc_enable_slow_links c && (2 <=? n)%nat) [(fc_slow_link_weight c, ChSlowLink)] ++
  offer (fc_enable_clock_skew c) [(fc_clock_jump_weight c, ChClockJump)] ++
  offer (fc_enable_reconfig c) [(fc_reconfig_weight c, ChReconfigure)].

(** [self.stats.f += 1] *)
Definition fi_count (f : FaultStats -> Z) `{!Setter f} (i : FaultInjector) : Draw FaultInjector :=
  st ← count f 1 (fi_stats i);
  mret (i ⟨ fi_stats := st ⟩).

Definition Decided : Type := option FaultAction * FaultInjector.

(** [Some(l) if eligible(l) && rng.chance_ppm(leader_bias_ppm) => l] *)
Definition aim_at_leader (c : FaultConfig) (leader : option NodeId) (eligible : NodeId -> bool)
  : Draw (option NodeId) :=
  match leader with
  | Some l =>
      hit ← (if eligible l then chance (fc_leader_bias_ppm c) else mret false);
      mret (if (hit : bool) then Some l else None)
  | None => mret None
  end.

Definition decide_crash (i : FaultInjector) (alive : list NodeId) (hint : FaultHint)
  : Draw Decided :=
  let c := fi_cfg i in
  i ← fi_count fs_crashes i;
  let dirty := List.filter (fun n => default false (fh_unsynced hint !! Z.to_nat n)) alive in
  aimed ← aim_at_leader c (fh_leader hint) (fun l => bool_decide (l ∈ alive));
  match aimed with
  | Some l =>
      i ← fi_count fs_leader_targeted i;
      mret (Some (FaCrash l), i)
  | None =>
      hit ← (match dirty with [] => mret false | _ => chance (fc_unsynced_bias_ppm c) end);
      if (hit : bool) then
        i ← fi_count fs_unsynced_targeted i;
        target ← choose dirty;
        mret (FaCrash <$> target, i)
      else
        target ← choose alive;
        mret (FaCrash <$> target, i)
  end.

(** The target of the two isolations: the leader, or anyone. *)
Definition isolation_target (i : FaultInjector) (n : nat) (hint : FaultHint)
  : Draw (NodeId * FaultInjector) :=
  aimed ← aim_at_leader (fi_cfg i) (fh_leader hint) (fun _ => true);
  match aimed with
  | Some l =>
      i ← fi_count fs_leader_targeted i;
      mret (l, i)
  | None =>
      x ← below (Z.of_nat n);
      mret (wrap32 x, i)
  end.

(** Offered when [n >= 2]. *)
Definition decide_partition (i : FaultInjector) (n : nat) : Draw Decided :=
  i ← fi_count fs_partitions i;
  ids ← shuffle (Z.of_nat <$> seq 0 (Z.to_nat (wrap32 (Z.of_nat n))));
  x ← below (Z.of_nat n - 1);
  let cut := (1 + Z.to_nat x)%nat in
  halves ← ensure (if (cut <=? length ids)%nat then Some (take cut ids, drop cut ids) else None);
  mret (Some (FaPartition [halves.1; halves.2]), i).

Definition decide_slow_link (i : FaultInjector) (n : nat) : Draw Decided :=
  i ← fi_count fs_slow_links i;
  x ← below (Z.of_nat n);
  y ← below (Z.of_nat n);
  let a := wrap32 x in
  let b := wrap32 y in
  b ← (if a =? b then
         b1 ← ensure (u32_add b 1);
         ensure (if wrap32 (Z.of_nat n) =? 0 then None else Some (b1 mod wrap32 (Z.of_nat n)))
       else mret b);
  mret (Some (FaSlowLink a b), i).

Definition decide_clock_jump (i : FaultInjector) (n : nat) : Draw Decided :=
  let c := fi_cfg i in
  i ← fi_count fs_clock_jumps i;
  m ← add_u64 (fc_max_clock_jump c) 1;
  mag ← below m;
  minus ← chance 500000;
  x ← below (Z.of_nat n);
  delta ← ensure (i64_checked (as_i64 mag * (if (minus : bool) then -1 else 1)));
  mret (Some (FaClockJump (wrap32 x) delta), i).

Definition decide_choice (choice : FaultChoice) (i : FaultInjector) (up : list bool)
  (hint : FaultHint) : Draw Decided :=
  let n := length up in
  match choice with
  | ChCrash => decide_crash i (nodes_where true up) hint
  | ChRestart =>
      i ← fi_count fs_restarts i;
      target ← choose (nodes_where false up);
      mret (FaRestart <$> target, i)
  | ChPartition => decide_partition i n
  | ChIsolate =>
      i ← fi_count fs_isolations i;
      '(target, i) ← isolation_target i n hint;
      mret (Some (FaIsolate target), i)
  | ChIsolateFromPeers =>
      i ← fi_count fs_peer_isolations i;
      '(target, i) ← isolation_target i n hint;
      mret (Some (FaIsolateFromPeers target), i)
  | ChHeal =>
      i ← fi_count fs_heals i;
      mret (Some FaHealNetwork, i)
  | ChSlowLink => decide_slow_link i n
  | ChClockJump => decide_clock_jump i n
  | ChReconfigure =>
      i ← fi_count fs_reconfigs i;
      mret (Some FaReconfigure, i)
  end.

Definition fault_decide (i : FaultInjector) (now : Nanos) (up : list bool) (hint : FaultHint)
  : Draw Decided :=
  let c := fi_cfg i in
  if window_end i <=? now then
    if fi_recovered i then mret (None, i)
    else mret (Some FaRecover, i ⟨ fi_recovered := true ⟩)
  else if (now <? window_start i) || negb (any_enabled c) then mret (None, i)
  else
    i ← fi_count fs_ticks i;
    choice ← weighted_pick (fault_menu c up hint);
    match choice with
    | None => mret (None, i)
    | Some choice => decide_choice choice i up hint
    end.
