(* ===== verification/FaultRules.v ===== *)
(** * FaultRules: the injector keeps its promises ([simcore/faults.rs])

    Every decision fits the cluster it was drawn for; a crash leaves a majority
    of the members up; after the window the world heals, once; a node's clock
    never runs backwards. *)
From S2P Require Import Prelude LogFormat Config Io Rng Draw Faults.

(** Node numbers are u32. *)
Definition numbered (up : list bool) : Prop := Z.of_nat (length up) <= 2 ^ 32.

Lemma node_id_small k (up : list bool) : numbered up -> (k < length up)%nat -> node_id k = Z.of_nat k.
Proof. intros Hn Hk. unfold numbered in Hn. unfold node_id, wrap32. apply Z.mod_small. lia. Qed.

Lemma wrap32_small x (up : list bool) :
  numbered up -> 0 <= x < Z.of_nat (length up) -> wrap32 x = x.
Proof. intros Hn Hx. unfold numbered in Hn. unfold wrap32. apply Z.mod_small. lia. Qed.

Lemma nodes_where_spec wanted up n :
  numbered up -> n ∈ nodes_where wanted up ->
  0 <= n < Z.of_nat (length up) /\ up !! Z.to_nat n = Some wanted.
Proof.
  intros Hn (k & -> & Hk)%list_elem_of_fmap. apply list_elem_of_In, filter_In in Hk as [Hk Hw].
  apply in_seq in Hk. rewrite (node_id_small k up) by (done || lia). rewrite Nat2Z.id.
  split; [lia|]. destruct (lookup_lt_is_Some_2 up k) as [b Hb]; [lia|].
  rewrite Hb in Hw. simpl in Hw. apply eqb_prop in Hw. by subst.
Qed.

(** ** Decisions *)

(** What the cluster allows of a decision inside the window. *)
Definition action_ok (c : FaultConfig) (up : list bool) (hint : FaultHint) (a : FaultAction) : Prop :=
  let here n := 0 <= n < Z.of_nat (length up) in
  match a with
  | FaTick | FaRecover => False
  | FaCrash n =>
      here n /\ up !! Z.to_nat n = Some true /\
      (members_down hint (nodes_where false up) < max_down c (member_count hint (length up)))%nat
  | FaRestart n => here n /\ up !! Z.to_nat n = Some false
  | FaPartition groups =>
      exists a b, groups = [a; b] /\ a <> [] /\ b <> [] /\
        a ++ b ≡ₚ Z.of_nat <$> seq 0 (length up)
  | FaIsolate n | FaIsolateFromPeers n => fh_leader hint = Some n \/ here n
  | FaSlowLink a b => here a /\ here b /\ a <> b
  | FaClockJump n delta => here n /\ Z.abs delta <= fc_max_clock_jump c
  | FaHealNetwork | FaReconfigure => True
  end.

Lemma draws_fi_count (f : FaultStats -> Z) `{!Setter f} i :
  draws (fi_count f i) (fun i' => fi_cfg i' = fi_cfg i /\ fi_recovered i' = fi_recovered i).
Proof. unfold fi_count. eapply draws_bind; [apply draws_count|]. intros st _. by draws_step. Qed.

(** A counter, then the rest: the settings and the flag are as before. *)
Ltac counted :=
  eapply draws_bind; [apply draws_fi_count|]; let i := fresh "i" in
  intros i [? ?]; cbv beta.

Lemma draws_aim c leader eligible :
  draws (aim_at_leader c leader eligible)
    (fun o => forall l, o = Some l -> leader = Some l /\ eligible l = true).
Proof.
  unfold aim_at_leader. destruct leader as [l|]; [|by draws_step].
  eapply (draws_bind _ _ (fun hit => hit = true -> eligible l = true)).
  { destruct (eligible l); [eapply draws_mono; [apply (draws_chance _ (fun _ => True))|]; done|by draws_step]. }
  intros [] Hl; draws_step; naive_solver.
Qed.

(** Only the decision and what is kept of the injector matter. *)
Definition decided (i : FaultInjector) (P : FaultAction -> Prop) (res : Decided) : Prop :=
  (fi_cfg res.2 = fi_cfg i /\ fi_recovered res.2 = fi_recovered i) /\
  forall a, res.1 = Some a -> P a.

Lemma decided_ret i i' (P : FaultAction -> Prop) a :
  fi_cfg i' = fi_cfg i -> fi_recovered i' = fi_recovered i -> P a ->
  draws (mret (Some a, i')) (decided i P).
Proof. intros. draws_step. split; [done|]. by intros ? [= <-]. Qed.

Lemma decided_chosen i i' (P : FaultAction -> Prop) (k : NodeId -> FaultAction) l :
  fi_cfg i' = fi_cfg i -> fi_recovered i' = fi_recovered i -> (forall n, n ∈ l -> P (k n)) ->
  draws (target ← choose l; mret (k <$> target, i')) (decided i P).
Proof.
  intros Hc Hr HP.
  eapply (draws_bind _ _ (fun o => forall n, o = Some n -> n ∈ l)); [apply draws_choose; naive_solver|].
  intros o Ho. draws_step. split; [done|]. destruct o as [n|]; [|done]. intros ? [= <-]. auto.
Qed.

Section Decide.
Context (i0 : FaultInjector) (up : list bool) (hint : FaultHint) (Hup : numbered up).
Let ok := action_ok (fi_cfg i0) up hint.
Context (i : FaultInjector) (Hc : fi_cfg i = fi_cfg i0) (Hr : fi_recovered i = fi_recovered i0).

Lemma decide_crash_ok :
  (members_down hint (nodes_where false up) < max_down (fi_cfg i0) (member_count hint (length up)))%nat ->
  draws (decide_crash i (nodes_where true up) hint) (decided i0 ok).
Proof.
  intros Hm. assert (Halive : forall n, n ∈ nodes_where true up -> ok (FaCrash n)).
  { intros n [? ?]%nodes_where_spec; done. }
  unfold decide_crash. counted. eapply draws_bind; [apply draws_aim|]. intros [l|] Hl; cbv beta.
  - counted. apply decided_ret; [congruence..|]. destruct (Hl l) as [_ Ha]; [done|].
    apply bool_decide_eq_true in Ha. by apply Halive.
  - set (dirty := List.filter _ _).
    assert (Hdirty : forall n, n ∈ dirty -> ok (FaCrash n)).
    { intros n Hn%list_elem_of_In. apply filter_In in Hn as [Hn _].
      by apply Halive, list_elem_of_In. }
    eapply (draws_bind _ _ (fun _ => True)).
    { destruct dirty; [by draws_step|by apply draws_chance]. }
    intros [] _; [counted|]; apply decided_chosen; congruence || done.
Qed.

Lemma decide_partition_ok :
  (2 <= length up)%nat -> draws (decide_partition i (length up)) (decided i0 ok).
Proof.
  intros H2. unfold decide_partition. counted.
  eapply draws_bind; [apply (draws_shuffle _ _ (fun l H => H))|]. intros ids Hids.
  eapply draws_bind; [apply (draws_below _ _ (fun x H => H))|]. intros x Hx.
  eapply draws_bind; [apply (draws_ensure _ _ (fun a H => H))|]. intros [a b] Hab. cbv beta in *.
  assert (Hw : Z.to_nat (wrap32 (Z.of_nat (length up))) = length up \/ ids = []).
  { destruct (decide (Z.of_nat (length up) = 2 ^ 32)) as [E|E].
    - right. rewrite E in Hids. apply Permutation_length in Hids. by apply length_zero_iff_nil.
    - left. unfold wrap32. unfold numbered in Hup. rewrite Z.mod_small by lia. lia. }
  destruct (Nat.leb_spec (1 + Z.to_nat x) (length ids)) as [Hcut|]; [|done].
  destruct Hw as [Hw| ->]; [|simpl in Hcut; lia]. rewrite Hw in Hids.
  pose proof (Permutation_length Hids) as Hlen. rewrite length_fmap, length_seq in Hlen.
  assert (a = take (1 + Z.to_nat x) ids) as -> by congruence.
  assert (b = drop (1 + Z.to_nat x) ids) as -> by congruence. apply decided_ret; [congruence..|]. do 2 eexists. split; [done|].
  simpl fst; simpl snd; repeat split; [| |by rewrite take_drop].
  - intros E. apply (f_equal length) in E. rewrite length_take in E. cbn [length] in E. lia.
  - intros E. apply (f_equal length) in E. rewrite length_drop in E. cbn [length] in E. lia.
Qed.

Lemma isolation_target_ok :
  (1 <= length up)%nat ->
  draws (isolation_target i (length up) hint) (fun ti =>
    (fh_leader hint = Some ti.1 \/ 0 <= ti.1 < Z.of_nat (length up)) /\
    fi_cfg ti.2 = fi_cfg i /\ fi_recovered ti.2 = fi_recovered i).
Proof.
  intros H1. unfold isolation_target. eapply draws_bind; [apply draws_aim|]. intros [l|] Hl; cbv beta.
  - counted. draws_step. simpl. split; [left; by apply Hl|done].
  - eapply draws_bind; [apply (draws_below _ _ (fun x H => H))|]. intros x Hx. cbv beta in Hx. draws_step. simpl.
    split; [|done]. right. rewrite (wrap32_small x up); [lia|done|lia].
Qed.

Lemma decide_slow_link_ok :
  (2 <= length up)%nat -> draws (decide_slow_link i (length up)) (decided i0 ok).
Proof.
  intros H2. unfold decide_slow_link. counted.
  eapply draws_bind; [apply (draws_below _ _ (fun x H => H))|]. intros x Hx.
  eapply draws_bind; [apply (draws_below _ _ (fun x H => H))|]. intros y Hy. cbv beta in *.
  rewrite (wrap32_small x up), (wrap32_small y up) by (done || lia).
  eapply (draws_bind _ _ (fun b => 0 <= b < Z.of_nat (length up) /\ x <> b)).
  - destruct (Z.eqb_spec x y) as [<-|Hne]; [|draws_step; lia].
    eapply draws_bind; [apply (draws_ensure _ _ (fun a H => H))|]. intros b1 Hb1. cbv beta in Hb1.
    apply draws_ensure. intros b Hb. unfold u32_add in Hb1.
    destruct (Z.leb_spec (x + 1) U32_MAX); [|done]. injection Hb1 as <-.
    destruct (Z.eqb_spec (wrap32 (Z.of_nat (length up))) 0) as [|Hn0]; [done|]. injection Hb as <-.
    assert (Hn : wrap32 (Z.of_nat (length up)) = Z.of_nat (length up)).
    { unfold numbered in Hup. unfold wrap32 in *. apply Z.mod_small.
      destruct (decide (Z.of_nat (length up) = 2 ^ 32)) as [E|]; [|lia]. by rewrite E in Hn0. }
    rewrite Hn. pose proof (Z.mod_pos_bound (x + 1) (Z.of_nat (length up))). split; [lia|].
    destruct (decide (x + 1 = Z.of_nat (length up))) as [E|].
    + rewrite E, Z.mod_same; lia.
    + rewrite Z.mod_small; lia.
  - intros b [Hb Hne]. apply decided_ret; [congruence..|]. unfold ok. simpl. lia.
Qed.

Lemma as_i64_mag z : 0 <= z <= U64_MAX -> Z.abs (as_i64 z) <= z.
Proof. unfold as_i64, U64_MAX. intros Hz. destruct (Z.ltb_spec z (2 ^ 63)); lia. Qed.

Lemma signed_bound mag (minus : bool) m delta :
  0 <= mag <= m -> m <= U64_MAX ->
  i64_checked (as_i64 mag * (if minus then -1 else 1)) = Some delta -> Z.abs delta <= m.
Proof.
  intros Hmag Hm. unfold i64_checked. case_match; [|done]. intros [= <-].
  pose proof (as_i64_mag mag). destruct minus; lia.
Qed.

Lemma decide_clock_jump_ok :
  (1 <= length up)%nat -> 0 <= fc_max_clock_jump (fi_cfg i0) ->
  draws (decide_clock_jump i (length up)) (decided i0 ok).
Proof.
  intros H1 Hm. unfold decide_clock_jump. rewrite Hc. counted.
  eapply draws_bind; [apply (draws_ensure _ _ (fun a H => H))|]. intros m [-> Hmax]%u64_add_Some.
  eapply draws_bind; [apply (draws_below _ _ (fun x H => H))|]. intros mag Hmag.
  eapply draws_skip; [by apply draws_chance|]. intros minus.
  eapply draws_bind; [apply (draws_below _ _ (fun x H => H))|]. intros x Hx.
  eapply draws_bind; [apply (draws_ensure _ _ (fun a H => H))|]. intros delta Hd. cbv beta in *.
  apply decided_ret; [congruence..|]. rewrite (wrap32_small x up) by (done || lia).
  split; [lia|]. eapply signed_bound; [| |exact Hd]; lia.
Qed.
End Decide.

(** *** The menu *)

Lemma elem_offer b items x : x ∈ offer b items <-> b = true /\ x ∈ items.
Proof. unfold offer. destruct b; [naive_solver|]. rewrite elem_of_nil. naive_solver. Qed.

(** What being on the menu tells about a choice. *)
Definition choice_ok (c : FaultConfig) (up : list bool) (hint : FaultHint) (ch : FaultChoice) : Prop :=
  match ch with
  | ChCrash =>
      (members_down hint (nodes_where false up) < max_down c (member_count hint (length up)))%nat
  | ChPartition | ChIsolate | ChIsolateFromPeers | ChSlowLink => (2 <= length up)%nat
  | _ => True
  end.

Lemma fault_menu_ok c up hint w ch : (w, ch) ∈ fault_menu c up hint -> choice_ok c up hint ch.
Proof.
  unfold fault_menu. rewrite !elem_of_app, !elem_offer, !elem_of_app, !list_elem_of_singleton,
    elem_offer, !list_elem_of_singleton, !elem_of_cons, elem_of_nil.
  rewrite !andb_true_iff, Nat.ltb_lt, !Nat.leb_le. naive_solver.
Qed.

Lemma pick_from_elem pick menu ch : pick_from pick menu = Some ch -> exists w, (w, ch) ∈ menu.
Proof.
  revert pick. induction menu as [|[w c] menu IH]; intros pick; simpl; [done|].
  case_match; [intros [= ->]; exists w; by left|]. intros [w' Hw]%IH. exists w'. by right.
Qed.

Lemma draws_weighted_pick menu :
  draws (weighted_pick menu) (fun o => forall ch, o = Some ch -> exists w, (w, ch) ∈ menu).
Proof.
  unfold weighted_pick. eapply draws_bind; [apply (draws_ensure _ _ (fun a H => H))|]. intros total _.
  case_match; [by draws_step|]. eapply draws_bind; [apply (draws_below _ _ (fun x H => H))|].
  intros pick _. draws_step. apply pick_from_elem.
Qed.

Lemma fault_decide_ok i now up hint :
  numbered up -> (1 <= length up)%nat -> 0 <= fc_max_clock_jump (fi_cfg i) ->
  now < window_end i ->
  draws (fault_decide i now up hint) (decided i (fun a =>
    window_start i <= now /\ action_ok (fi_cfg i) up hint a)).
Proof.
  intros Hn H1 Hj Hw. unfold fault_decide. destruct (Z.leb_spec (window_end i) now); [lia|].
  destruct (_ || _) eqn:Hidle; [by draws_step|]. apply orb_false_iff in Hidle as [Hs _].
  apply Z.ltb_ge in Hs. counted.
  eapply draws_bind; [apply draws_weighted_pick|]. intros [ch|] Hch; [|by draws_step].
  destruct (Hch ch eq_refl) as [w Hmenu]. apply fault_menu_ok in Hmenu.
  apply (draws_mono _ (decided i (action_ok (fi_cfg i) up hint))).
  2: { intros res [? Ha]. split; [done|]. intros a E. split; [done|by apply Ha]. }
  destruct ch; simpl in Hmenu |- *.
  - by apply decide_crash_ok.
  - counted. apply decided_chosen; [congruence..|]. intros n. by apply nodes_where_spec.
  - by apply decide_partition_ok.
  - counted. eapply draws_bind; [by apply isolation_target_ok|]. intros [t j] (? & ? & ?).
    simpl in *. apply decided_ret; [congruence..|done].
  - counted. eapply draws_bind; [by apply isolation_target_ok|]. intros [t j] (? & ? & ?).
    simpl in *. apply decided_ret; [congruence..|done].
  - counted. apply decided_ret; [congruence..|done].
  - by apply decide_slow_link_ok.
  - by apply decide_clock_jump_ok.
  - counted. apply decided_ret; [congruence..|done].
Qed.

(** *** A crash and the members *)

(** The members that are up. *)
Definition members_up (hint : FaultHint) (up : list bool) : nat :=
  length (List.filter (fun k => hint_member hint k && default false (up !! k)) (seq 0 (length up))).

Lemma filter_split {A} (p q : A -> bool) l :
  length (List.filter p l) =
  (length (List.filter (fun x => p x && q x) l) + length (List.filter (fun x => p x && negb (q x)) l))%nat.
Proof. induction l as [|x l IH]; [done|]. simpl. destruct (p x), (q x); simpl; lia. Qed.

Lemma filter_filter {A} (p q : A -> bool) l :
  List.filter p (List.filter q l) = List.filter (fun x => p x && q x) l.
Proof. induction l as [|x l IH]; [done|]. simpl. destruct (q x); simpl; destruct (p x); simpl; congruence. Qed.

Lemma members_down_eq hint up :
  numbered up -> (members_down hint (nodes_where false up) + members_up hint up = member_count hint (length up))%nat.
Proof.
  intros Hn. unfold member_count, members_up.
  rewrite (filter_split (hint_member hint) (fun k => default false (up !! k))).
  rewrite Nat.add_comm. f_equal. unfold members_down, nodes_where.
  assert (Hmap : forall l, Forall (fun k => (k < length up)%nat) l ->
    length (List.filter (fun d => hint_member hint (Z.to_nat d)) (node_id <$> l)) =
    length (List.filter (hint_member hint) l)).
  { induction 1 as [|k l Hk _ IH]; [done|]. rewrite fmap_cons. simpl.
    rewrite (node_id_small k up), Nat2Z.id by done. case_match; simpl; congruence. }
  rewrite Hmap.
  - by rewrite filter_filter.
  - apply Forall_forall. intros k Hk%list_elem_of_In. apply filter_In in Hk as [Hk%in_seq _]. lia.
Qed.

Lemma filter_length_le {A} (p q : A -> bool) l :
  (forall x, p x = true -> q x = true) -> (length (List.filter p l) <= length (List.filter q l))%nat.
Proof.
  intros Hpq. induction l as [|x l IH]; [done|]. simpl.
  destruct (p x) eqn:Ep; [rewrite (Hpq x Ep); simpl; lia|]. destruct (q x); simpl; lia.
Qed.

Lemma filter_eqb_seq k n j : (length (List.filter (fun x => Nat.eqb x k) (seq j n)) <= 1)%nat.
Proof.
  revert j. induction n as [|n IH]; intros j; simpl; [lia|].
  destruct (Nat.eqb_spec j k) as [->|]; [|apply IH]. simpl.
  assert (List.filter (fun x => Nat.eqb x k) (seq (S k) n) = []) as ->; [|done].
  apply length_zero_iff_nil. destruct (List.filter _ _) as [|x l] eqn:E; [done|exfalso].
  assert (Hx : In x (x :: l)) by by left. rewrite <-E in Hx. apply filter_In in Hx as [Hs Hx].
  apply in_seq in Hs. apply Nat.eqb_eq in Hx. lia.
Qed.

(** One node going down is at most one member less. *)
Lemma members_up_crash hint up k :
  (members_up hint up <= S (members_up hint (<[k := false]> up)))%nat.
Proof.
  unfold members_up. rewrite length_insert.
  rewrite (filter_split _ (fun j => Nat.eqb j k)), Nat.add_comm.
  enough (length (List.filter (fun x => (hint_member hint x && default false (up !! x)) && Nat.eqb x k) (seq 0 (length up))) <= 1 /\
    length (List.filter (fun x => (hint_member hint x && default false (up !! x)) && negb (Nat.eqb x k)) (seq 0 (length up))) <=
    length (List.filter (fun j => hint_member hint j && default false (<[k:=false]> up !! j)) (seq 0 (length up))))%nat by lia.
  split.
  - transitivity (length (List.filter (fun x => Nat.eqb x k) (seq 0 (length up)))).
    { apply filter_length_le. intros x. rewrite !andb_true_iff. tauto. }
    apply filter_eqb_seq.
  - apply filter_length_le. intros x. rewrite !andb_true_iff, negb_true_iff, Nat.eqb_neq.
    intros [[? Hu] Hk]. by rewrite list_lookup_insert_ne.
Qed.

Lemma members_up_le hint up : (members_up hint up <= member_count hint (length up))%nat.
Proof. apply filter_length_le. intros x. by rewrite andb_true_iff; intros []. Qed.

(** *** Runs *)

Definition Turn : Type := Nanos * list bool * FaultHint.

Fixpoint injector_run (i : FaultInjector) (turns : list Turn)
  : Draw (list (option FaultAction) * FaultInjector) :=
  match turns with
  | [] => mret ([], i)
  | (now, up, hint) :: turns =>
      '(a, i) ← fault_decide i now up hint;
      '(rest, i) ← injector_run i turns;
      mret (a :: rest, i)
  end.

Lemma healed_run i turns :
  fi_recovered i = true -> Forall (fun t => window_end i <= t.1.1) turns ->
  draws (injector_run i turns) (fun res => res.1 = replicate (length turns) None).
Proof.
  intros Hr Ht. induction Ht as [|[[now up] hint] turns Hnow Ht IH]; simpl; [by draws_step|].
  simpl in Hnow. unfold fault_decide. rewrite (proj2 (Z.leb_le _ _) Hnow), Hr.
  eapply (draws_bind _ _ (eq (None, i))); [by draws_step|]. intros _ <-.
  eapply draws_bind; [exact IH|]. intros [rest j] Hrest. simpl in Hrest. draws_step. simpl. by subst.
Qed.

(** ** Properties *)

(** C27. A crash leaves a majority.  Unless the plan allows losing quorum, whenever
    the injector decides to crash a node, that node is up, and after the crash
    the members that are up still outnumber those that are not. *)
Theorem crash_leaves_a_majority i now up hint :
  numbered up -> (1 <= length up)%nat -> 0 <= fc_max_clock_jump (fi_cfg i) ->
  fc_allow_quorum_loss (fi_cfg i) = false ->
  draws (fault_decide i now up hint) (fun res => forall n, res.1 = Some (FaCrash n) ->
    up !! Z.to_nat n = Some true /\
    (member_count hint (length up) < 2 * members_up hint (<[Z.to_nat n := false]> up))%nat).
Proof.
  intros Hn H1 Hj Hq. destruct (Z.le_gt_cases (window_end i) now) as [Hw|Hw].
  - unfold fault_decide. rewrite (proj2 (Z.leb_le _ _) Hw). case_match; by draws_step.
  - eapply draws_mono; [by apply fault_decide_ok|]. intros res [_ Ha] n Hres.
    destruct (Ha _ Hres) as (_ & _ & Hup & Hmax). split; [done|].
    unfold max_down in Hmax. rewrite Hq in Hmax.
    pose proof (members_down_eq hint up Hn). pose proof (members_up_crash hint up (Z.to_nat n)).
    pose proof (Nat.Div0.mul_div_le (member_count hint (length up) - 1) 2). lia.
Qed.

(** C28. Every decision fits the cluster.  Within the window what the injector decides
    can be carried out: it crashes a node that is up, restarts one that is down,
    splits all the nodes into two non-empty groups, slows a link between two
    different nodes, jumps a clock by no more than the bound, and names no other
    node than one of the cluster or the leader it was told of; nothing is decided
    before the window opens, and the settings never change. *)
Theorem decisions_fit_the_cluster i now up hint :
  numbered up -> (1 <= length up)%nat -> 0 <= fc_max_clock_jump (fi_cfg i) ->
  now < window_end i ->
  draws (fault_decide i now up hint) (fun res =>
    fi_cfg res.2 = fi_cfg i /\
    forall a, res.1 = Some a -> window_start i <= now /\ action_ok (fi_cfg i) up hint a).
Proof.
  intros. eapply draws_mono; [by apply fault_decide_ok|]. by intros res [[? _] ?].
Qed.

(** C29. The world heals, once.  Over any sequence of decisions that crosses the end of
    the window, the first one at or after the end is the recovery, no recovery
    is decided before it, and nothing at all after it. *)
Theorem world_heals_once i pre now up hint post :
  fi_recovered i = false -> 0 <= fc_max_clock_jump (fi_cfg i) ->
  Forall (fun t => numbered t.1.2 /\ (1 <= length t.1.2)%nat /\ t.1.1 < window_end i) pre ->
  window_end i <= now -> Forall (fun t => window_end i <= t.1.1) post ->
  draws (injector_run i (pre ++ (now, up, hint) :: post)) (fun res =>
    exists before, res.1 = before ++ Some FaRecover :: replicate (length post) None /\
      length before = length pre /\ Some FaRecover ∉ before).
Proof.
  intros Hr Hj Hpre Hnow Hpost. revert i Hr Hj Hnow Hpost Hpre.
  induction pre as [|[[now' up'] hint'] pre IH]; intros i Hr Hj Hnow Hpost Hpre; simpl.
  - unfold fault_decide. rewrite (proj2 (Z.leb_le _ _) Hnow), Hr.
    eapply (draws_bind _ _ (eq (Some FaRecover, i ⟨ fi_recovered := true ⟩))); [by draws_step|].
    intros _ <-. eapply draws_bind; [by apply healed_run|]. intros [rest j] Hrest. draws_step.
    exists []. simpl in *. subst. repeat split. by intros ?%elem_of_nil.
  - apply Forall_cons in Hpre as [(Hn & H1 & Hw) Hpre]. simpl in Hn, H1, Hw.
    eapply draws_bind; [by apply fault_decide_ok|]. intros [a j] [[Hc Hr'] Ha]. simpl in Hc, Hr', Ha.
    assert (Hend : window_end j = window_end i) by (unfold window_end; by rewrite Hc).
    eapply draws_bind.
    { apply IH; rewrite ?Hend, ?Hc; try done. congruence. }
    intros [rest k] (before & Hrest & Hl & Hno). draws_step. simpl in *. subst rest.
    exists (a :: before). split; [done|]. split; [simpl; lia|]. intros [<-|?]%elem_of_cons; [|done].
    by destruct (Ha _ eq_refl) as [_ []].
Qed.

(** ** Witnesses *)

(** Five nodes, node 1 down, node 2 leading. *)
Definition demo_up : list bool := [true; false; true; true; true].
Definition demo_hint : FaultHint :=
  mkFaultHint (Some 2) [true; true; false; false; true] [true; true; true; true; true].
Definition demo_injector : FaultInjector := injector_new fault_config_default.
Definition demo_decision (seed : Z) : option (Decided * Rng) :=
  fault_decide demo_injector (600 * MILLIS) demo_up demo_hint (rng_new seed).

Lemma demo_numbered : numbered demo_up.
Proof. by vm_compute. Qed.

Lemma crash_leaves_a_majority_witness :
  exists i r, demo_decision 7 = Some ((Some (FaCrash 2), i), r) /\
    (5 < 2 * members_up demo_hint [true; false; false; true; true])%nat.
Proof.
  destruct (demo_decision 7) as [[[a i] r]|] eqn:E; [|vm_compute in E; discriminate E].
  assert (a = Some (FaCrash 2)) as ->.
  { vm_compute in E. injection E as <- _ _. reflexivity. }
  exists i, r. split; [reflexivity|].
  destruct (crash_leaves_a_majority demo_injector (600 * MILLIS) demo_up demo_hint demo_numbered
    ltac:(simpl; lia) ltac:(vm_compute; discriminate) eq_refl _ _ _ (rng_new_ok 7) E) as [H _].
  exact (proj2 (H 2 eq_refl)).
Defined.

Lemma decisions_fit_the_cluster_witness :
  exists groups i r, demo_decision 12 = Some ((Some (FaPartition groups), i), r) /\
    action_ok fault_config_default demo_up demo_hint (FaPartition groups).
Proof.
  destruct (demo_decision 12) as [[[a i] r]|] eqn:E; [|vm_compute in E; discriminate E].
  assert (exists groups, a = Some (FaPartition groups)) as [groups ->].
  { vm_compute in E. injection E as <- _ _. eexists. reflexivity. }
  exists groups, i, r. split; [reflexivity|].
  destruct (decisions_fit_the_cluster demo_injector (600 * MILLIS) demo_up demo_hint demo_numbered
    ltac:(simpl; lia) ltac:(vm_compute; discriminate) ltac:(by vm_compute) _ _ _ (rng_new_ok 12) E) as [H _].
  exact (proj2 (proj2 H _ eq_refl)).
Defined.

Definition demo_turn (now : Nanos) : Turn := (now, demo_up, demo_hint).
Definition demo_turns : list Turn :=
  [demo_turn (600 * MILLIS); demo_turn (2 * SECONDS)] ++ demo_turn (20 * SECONDS) :: [demo_turn (21 * SECONDS)].

Lemma world_heals_once_witness :
  exists outs i r, injector_run demo_injector demo_turns (rng_new 3) = Some ((outs, i), r) /\
    exists before, outs = before ++ [Some FaRecover; None] /\ Some FaRecover ∉ before.
Proof.
  destruct (injector_run demo_injector demo_turns (rng_new 3)) as [[[outs i] r]|] eqn:E;
    [|vm_compute in E; discriminate E].
  exists outs, i, r. split; [reflexivity|].
  destruct (world_heals_once demo_injector [demo_turn (600 * MILLIS); demo_turn (2 * SECONDS)]
    (20 * SECONDS) demo_up demo_hint [demo_turn (21 * SECONDS)] eq_refl ltac:(vm_compute; discriminate)
    ltac:(repeat constructor; vm_compute; congruence) ltac:(vm_compute; discriminate)
    ltac:(repeat constructor; vm_compute; discriminate) _ _ _ (rng_new_ok 3) E)
    as [(before & H & _ & Hno) _].
  exists before. split; [exact H|exact Hno].
Defined.
