(* ===== verification/Scheduler.v ===== *)
(** * Scheduler: virtual time ([simcore/scheduler.rs])

    The priority queue is the list of what is queued, whose least entry by
    (time, id) is the one popped; the heap of the code gives the same entry
    because ids differ.  Cancelled ids are tombstones, skipped at the pop. *)
From S2P Require Import Prelude LogFormat Config Io Rng Draw Disk Faults.
From Stdlib.Init Require Import Byte.

Abbreviation EventId := Z (only parsing).

Inductive Event : Type :=
| SeTimer (node : NodeId) (timer : Z)
| SeDeliver (from to : NodeId) (payload : list byte) (msg : Z)
| SeStorage (node : NodeId) (op : OpId) (result : IoResult)
| SeFault (action : FaultAction)
| SeApp (tag : Z) (arg : Z).

Definition event_target (e : Event) : option NodeId :=
  match e with
  | SeTimer node _ => Some node
  | SeDeliver _ to _ _ => Some to
  | SeStorage node _ _ => Some node
  | SeFault _ | SeApp _ _ => None
  end.

Record SchedEntry : Type := mkSchedEntry { se_time : Nanos; se_id : EventId; se_event : Event }.

(** [Ord]: by time, then by id. *)
Definition entry_cmp (a b : SchedEntry) : comparison :=
  match Z.compare (se_time a) (se_time b) with
  | Eq => Z.compare (se_id a) (se_id b)
  | c => c
  end.

Record Fired : Type := mkFired { fd_time : Nanos; fd_id : EventId; fd_event : Event }.

Record Scheduler : Type := mkScheduler {
  sc_now : Nanos;
  sc_next_id : EventId;
  sc_queue : list SchedEntry;
  sc_cancelled : gset EventId;
  sc_fired : Z;
}.
Definition scheduler_eta (s : Scheduler) : Scheduler :=
  mkScheduler (sc_now s) (sc_next_id s) (sc_queue s) (sc_cancelled s) (sc_fired s).
#[export] Instance set_sc_now : Setter sc_now. Proof. build_setter scheduler_eta. Defined.
#[export] Instance set_sc_next_id : Setter sc_next_id. Proof. build_setter scheduler_eta. Defined.
#[export] Instance set_sc_queue : Setter sc_queue. Proof. build_setter scheduler_eta. Defined.
#[export] Instance set_sc_cancelled : Setter sc_cancelled. Proof. build_setter scheduler_eta. Defined.
#[export] Instance set_sc_fired : Setter sc_fired. Proof. build_setter scheduler_eta. Defined.

Definition sched_new : Scheduler := mkScheduler 0 0 [] ∅ 0.

(** The least entry and the others, in their order. *)
Fixpoint pop_least (q : list SchedEntry) : option (SchedEntry * list SchedEntry) :=
  match q with
  | [] => None
  | e :: q =>
      match pop_least q with
      | None => Some (e, [])
      | Some (m, rest) =>
          match entry_cmp m e with Lt => Some (m, e :: rest) | _ => Some (e, q) end
      end
  end.

Definition sched_pending (s : Scheduler) : nat := length (sc_queue s).
Definition sched_is_empty (s : Scheduler) : bool :=
  match sc_queue s with [] => true | _ => false end.

(** Scheduling into the past is a panic. *)
Definition sched_at (time : Nanos) (event : Event) (s : Scheduler) : option (EventId * Scheduler) :=
  if sc_now s <=? time then
    let id := sc_next_id s in
    next ← u64_add id 1;
    Some (id, s ⟨ sc_next_id := next ⟩ ⟨ sc_queue := sc_queue s ++ [mkSchedEntry time id event] ⟩)
  else None.

Definition sched_after (delay : Nanos) (event : Event) (s : Scheduler)
  : option (EventId * Scheduler) :=
  sched_at (u64_saturating_add (sc_now s) delay) event s.

Definition sched_cancel (id : EventId) (s : Scheduler) : Scheduler :=
  s ⟨ sc_cancelled := sc_cancelled s ∪ {[id]} ⟩.
Definition is_cancelled (s : Scheduler) (id : EventId) : bool := bool_decide (id ∈ sc_cancelled s).

(** Every turn of the loop pops one entry. *)
Fixpoint next_loop (fuel : nat) (s : Scheduler) : option (option Fired * Scheduler) :=
  match fuel with
  | O => None
  | S fuel =>
      match pop_least (sc_queue s) with
      | None => Some (None, s)
      | Some (entry, rest) =>
          let s := s ⟨ sc_queue := rest ⟩ in
          if is_cancelled s (se_id entry) then
            next_loop fuel (s ⟨ sc_cancelled := sc_cancelled s ∖ {[se_id entry]} ⟩)
          else
            fired ← u64_add (sc_fired s) 1;
            Some (Some (mkFired (se_time entry) (se_id entry) (se_event entry)),
                  s ⟨ sc_now := se_time entry ⟩ ⟨ sc_fired := fired ⟩)
      end
  end.
Definition sched_next (s : Scheduler) : option (option Fired * Scheduler) :=
  next_loop (S (length (sc_queue s))) s.

Definition peek_time (s : Scheduler) : option Nanos :=
  (fun er => se_time er.1) <$> pop_least (sc_queue s).

Definition sched_retain (keep : Event -> bool) (s : Scheduler) : Scheduler :=
  s ⟨ sc_queue := List.filter (fun e => keep (se_event e)) (sc_queue s) ⟩.

Definition advance_to (time : Nanos) (s : Scheduler) : Scheduler :=
  if sc_now s <? time then s ⟨ sc_now := time ⟩ else s.

(** ** The order of the queue *)

Definition entry_before (a b : SchedEntry) : Prop := entry_cmp a b = Lt.

Lemma entry_before_spec a b :
  entry_before a b <-> se_time a < se_time b \/ se_time a = se_time b /\ se_id a < se_id b.
Proof.
  unfold entry_before, entry_cmp.
  destruct (Z.compare_spec (se_time a) (se_time b)); [rewrite Z.compare_lt_iff| |];
    split; intros; try done; lia.
Qed.

Definition same_slot (a b : SchedEntry) : Prop := se_time a = se_time b /\ se_id a = se_id b.

Lemma entry_trichotomy a b : entry_before a b \/ same_slot a b \/ entry_before b a.
Proof. rewrite !entry_before_spec. unfold same_slot. lia. Qed.

Lemma pop_least_None q : pop_least q = None -> q = [].
Proof.
  destruct q as [|x q]; [done|]. simpl. destruct (pop_least q) as [[]|]; [|done].
  by destruct (entry_cmp _ _).
Qed.

Lemma not_before_trans a b c : ~ entry_before a b -> ~ entry_before b c -> ~ entry_before a c.
Proof. rewrite !entry_before_spec. lia. Qed.

Lemma pop_least_spec q m rest :
  pop_least q = Some (m, rest) ->
  q ≡ₚ m :: rest /\ Forall (fun e => ~ entry_before e m) rest.
Proof.
  revert m rest. induction q as [|e q IH]; intros m rest; simpl; [done|].
  destruct (pop_least q) as [[m' r']|] eqn:E.
  - destruct (IH m' r' eq_refl) as [Hp Hl]. destruct (decide (entry_cmp m' e = Lt)) as [Hc|Hc].
    + rewrite Hc. intros [= <- <-]. split; [rewrite Hp; apply perm_swap|]. constructor; [|done].
      change (entry_before m' e) in Hc. rewrite !entry_before_spec in *. lia.
    + assert (Hq : Forall (fun x => ~ entry_before x e) q).
      { rewrite Hp. constructor; [done|]. eapply Forall_impl; [exact Hl|].
        intros x Hx. exact (not_before_trans x m' e Hx Hc). }
      by destruct (entry_cmp m' e); intros [= <- <-].
  - apply pop_least_None in E as ->. by intros [= <- <-].
Qed.

(** ** The invariant *)

(** A position in the order of firing. *)
Definition slot_before (a b : Z * Z) : Prop := a.1 < b.1 \/ a.1 = b.1 /\ a.2 < b.2.
Definition slot (e : SchedEntry) : Z * Z := (se_time e, se_id e).
Definition fired_slot (f : Fired) : Z * Z := (fd_time f, fd_id f).

Lemma entry_before_slot a b : entry_before a b <-> slot_before (slot a) (slot b).
Proof. by rewrite entry_before_spec. Qed.

Record sched_ok (s : Scheduler) : Prop := {
  so_time : forall e, e ∈ sc_queue s -> sc_now s <= se_time e;
  so_id : forall e, e ∈ sc_queue s -> se_id e < sc_next_id s;
  so_nodup : NoDup (se_id <$> sc_queue s);
}.

Lemma sched_new_ok : sched_ok sched_new.
Proof. split; simpl; [by intros e ?%elem_of_nil..|constructor]. Qed.

Lemma sched_at_spec time ev s id s' :
  sched_at time ev s = Some (id, s') ->
  sc_now s <= time /\ id = sc_next_id s /\
  s' = mkScheduler (sc_now s) (sc_next_id s + 1) (sc_queue s ++ [mkSchedEntry time id ev])
         (sc_cancelled s) (sc_fired s).
Proof.
  unfold sched_at. destruct (Z.leb_spec (sc_now s) time); [|done].
  destruct (u64_add _ 1) as [n|] eqn:E; [|done]. apply u64_add_Some in E as [-> _].
  intros [= <- <-]. done.
Qed.

Lemma sched_at_ok time ev s id s' : sched_at time ev s = Some (id, s') -> sched_ok s -> sched_ok s'.
Proof.
  intros (Ht & -> & ->)%sched_at_spec [Hnow Hid Hnd]. split; simpl.
  - intros e [He|He%list_elem_of_singleton]%elem_of_app; [auto|by subst].
  - intros e [He|He%list_elem_of_singleton]%elem_of_app; [specialize (Hid e He); lia|subst; simpl; lia].
  - rewrite fmap_app. apply NoDup_app. split; [done|]. split; [|apply NoDup_singleton].
    intros i (e & -> & He)%list_elem_of_fmap. simpl. rewrite list_elem_of_singleton.
    specialize (Hid e He). lia.
Qed.

Lemma sub_queue_ok s q c f :
  sched_ok s -> q ⊆+ sc_queue s ->
  sched_ok (mkScheduler (sc_now s) (sc_next_id s) q c f).
Proof.
  intros [Hnow Hid Hnd] Hq. split; simpl.
  - intros e He. eapply Hnow, elem_of_submseteq; eauto.
  - intros e He. eapply Hid, elem_of_submseteq; eauto.
  - apply (fmap_submseteq se_id) in Hq. apply submseteq_Permutation in Hq as [k Hk].
    rewrite Hk in Hnd. by apply NoDup_app in Hnd as [? _].
Qed.

Lemma filter_submseteq (f : SchedEntry -> bool) q : List.filter f q ⊆+ q.
Proof.
  induction q as [|e q IH]; [done|]. simpl. destruct (f e).
  - by apply submseteq_skip.
  - by apply submseteq_cons.
Qed.

(** What is queued and not cancelled. *)
Definition live (s : Scheduler) : list SchedEntry :=
  List.filter (fun e => negb (is_cancelled s (se_id e))) (sc_queue s).
Definition entry_of (f : Fired) : SchedEntry := mkSchedEntry (fd_time f) (fd_id f) (fd_event f).

#[export] Instance filter_proper {A} (f : A -> bool) : Proper ((≡ₚ) ==> (≡ₚ)) (List.filter f).
Proof.
  intros l l' H. induction H as [|x l l' _ IH|x y l|l1 l2 l3 _ IH1 _ IH2]; simpl; [done| | |].
  - by destruct (f x); rewrite ?IH.
  - destruct (f x), (f y); [apply perm_swap|done..].
  - by rewrite IH1.
Qed.

(** The outcome of a pop, by what was live. *)
Record next_ok (s : Scheduler) (o : option Fired) (s' : Scheduler) : Prop := {
  no_ok : sched_ok s';
  no_next : sc_next_id s' = sc_next_id s;
  no_now : sc_now s <= sc_now s';
  no_count : sc_fired s <= sc_fired s' /\ (o = None -> sc_fired s' = sc_fired s);
  no_queue : sc_queue s' ⊆+ sc_queue s;
  no_outcome : match o with
    | Some f =>
        live s ≡ₚ entry_of f :: live s' /\ sc_now s' = fd_time f /\ sc_fired s' = sc_fired s + 1 /\
        forall e, e ∈ sc_queue s' -> slot_before (fired_slot f) (slot e)
    | None => live s = [] /\ sc_queue s' = []
    end;
}.

Lemma live_untombstone q c i now next f now' next' f' :
  i ∉ se_id <$> q ->
  live (mkScheduler now next q (c ∖ {[i]}) f) = live (mkScheduler now' next' q c f').
Proof.
  intros Hi. unfold live, is_cancelled. simpl. apply List.filter_ext_in. intros e He%list_elem_of_In.
  f_equal. apply bool_decide_ext. assert (se_id e <> i); [|set_solver].
  intros <-. apply Hi. by apply list_elem_of_fmap_2.
Qed.

Lemma next_loop_ok fuel s o s' :
  sched_ok s -> next_loop fuel s = Some (o, s') -> next_ok s o s'.
Proof.
  revert s. induction fuel as [|fuel IH]; intros s Hok; simpl; [done|].
  destruct (pop_least (sc_queue s)) as [[e rest]|] eqn:E.
  2: { apply pop_least_None in E. intros [= <- <-].
       split; try done. unfold live. by rewrite E. }
  apply pop_least_spec in E as [Hq Hleast].
  assert (Hin : e ∈ sc_queue s) by (rewrite Hq; by left).
  assert (Hsub : rest ⊆+ sc_queue s) by (rewrite Hq; by apply submseteq_cons).
  assert (Hnd : se_id e ∉ se_id <$> rest).
  { pose proof (so_nodup s Hok) as Hnd. rewrite Hq in Hnd. by apply NoDup_cons in Hnd as [? _]. }
  destruct (is_cancelled _ _) eqn:Hc; unfold is_cancelled in Hc; simpl in Hc.
  - set (s1 := mkScheduler (sc_now s) (sc_next_id s) rest (sc_cancelled s ∖ {[se_id e]}) (sc_fired s)).
    intros H. change (next_loop fuel s1 = Some (o, s')) in H.
    apply IH in H as [Hok' Hnext Hnow Hcount Hsub' Hout]; [|exact (sub_queue_ok s rest _ _ Hok Hsub)].
    assert (Hlive : live s ≡ₚ live s1).
    { unfold s1. rewrite (live_untombstone _ _ _ _ _ _ (sc_now s) (sc_next_id s) (sc_fired s)) by done.
      unfold live, is_cancelled. rewrite Hq. simpl. by rewrite Hc. }
    split; try done; [by etrans|]. destruct o as [f|].
    + by rewrite Hlive.
    + destruct Hout as [Hl ?]. split; [|done]. rewrite Hl in Hlive. by apply Permutation_nil_r in Hlive.
  - destruct (u64_add (sc_fired s) 1) as [n|] eqn:En; [|done]. apply u64_add_Some in En as [-> _].
    intros [= <- <-]. pose proof (so_time s Hok e Hin) as Htime.
    split; simpl; try done.
    + destruct (sub_queue_ok s rest (sc_cancelled s) (sc_fired s + 1) Hok Hsub) as [H1 H2 H3].
      split; simpl in *; try done. intros x Hx. rewrite Forall_forall in Hleast.
      specialize (Hleast x Hx). rewrite entry_before_spec in Hleast. lia.
    + split; [lia|done].
    + split.
      { unfold live, is_cancelled. simpl. rewrite Hq. simpl. rewrite Hc. simpl. by destruct e. }
      split; [done|]. split; [done|]. intros x Hx. rewrite Forall_forall in Hleast.
      specialize (Hleast x Hx). unfold slot_before. simpl. rewrite entry_before_spec in Hleast.
      assert (se_id x <> se_id e); [|lia]. intros Heq. apply Hnd. rewrite <-Heq.
      by apply list_elem_of_fmap_2.
Qed.

Lemma sched_next_ok s o s' : sched_ok s -> sched_next s = Some (o, s') -> next_ok s o s'.
Proof. apply next_loop_ok. Qed.

(** The loop ends within its fuel; only the count of fired events can overflow. *)
Lemma next_loop_total fuel s :
  (length (sc_queue s) < fuel)%nat -> sc_fired s < U64_MAX -> is_Some (next_loop fuel s).
Proof.
  revert s. induction fuel as [|fuel IH]; intros s Hf Hn; [lia|]. simpl.
  destruct (pop_least (sc_queue s)) as [[e rest]|] eqn:E; [|by eexists].
  apply pop_least_spec in E as [Hq _]. apply Permutation_length in Hq. simpl in Hq.
  destruct (is_cancelled _ _).
  - apply IH; simpl; lia.
  - rewrite (proj2 (u64_add_Some _ _ _) (conj eq_refl (ltac:(lia) : sc_fired s + 1 <= U64_MAX))).
    by eexists.
Qed.

(** ** Runs *)

Inductive SchedOp : Type :=
| SoAt (time : Nanos) (event : Event)
| SoAfter (delay : Nanos) (event : Event)
| SoCancel (id : EventId)
| SoRetain (keep : Event -> bool)
| SoNext.

(** One operation; what it scheduled and what it fired. *)
Definition sched_step (op : SchedOp) (s : Scheduler)
  : option (list SchedEntry * list Fired * Scheduler) :=
  match op with
  | SoAt time ev =>
      '(id, s') ← sched_at time ev s; Some ([mkSchedEntry time id ev], [], s')
  | SoAfter delay ev =>
      '(id, s') ← sched_after delay ev s;
      Some ([mkSchedEntry (u64_saturating_add (sc_now s) delay) id ev], [], s')
  | SoCancel id => Some ([], [], sched_cancel id s)
  | SoRetain keep => Some ([], [], sched_retain keep s)
  | SoNext => '(o, s') ← sched_next s; Some ([], option_list o, s')
  end.

Fixpoint sched_run (ops : list SchedOp) (s : Scheduler)
  : option (list SchedEntry * list Fired * Scheduler) :=
  match ops with
  | [] => Some ([], [], s)
  | op :: ops =>
      '(asked, fired, s) ← sched_step op s;
      '(asked', fired', s) ← sched_run ops s;
      Some (asked ++ asked', fired ++ fired', s)
  end.

Lemma sched_run_app ops ops' s asked fired s' :
  sched_run (ops ++ ops') s = Some (asked, fired, s') ->
  exists a1 f1 s1 a2 f2, sched_run ops s = Some (a1, f1, s1) /\
    sched_run ops' s1 = Some (a2, f2, s') /\ asked = a1 ++ a2 /\ fired = f1 ++ f2.
Proof.
  revert s asked fired. induction ops as [|op ops IH]; intros s asked fired; simpl.
  - intros H. by exists [], [], s, asked, fired.
  - destruct (sched_step op s) as [[[a f] s1]|]; [|done]. simpl.
    destruct (sched_run (ops ++ ops') s1) as [[[a' f'] s2]|] eqn:E; [|done]. simpl.
    intros [= <- <- <-]. destruct (IH _ _ _ E) as (a1 & f1 & s3 & a2 & f2 & E1 & E2 & -> & ->).
    rewrite E1. simpl.
    exists (a ++ a1), (f ++ f1), s3, a2, f2. by rewrite <-!app_assoc.
Qed.

(** What one operation keeps: entries come from what was asked, the dead stay so,
    time does not go back, and what fires was live and comes before all that is left. *)
Definition dead (s : Scheduler) (id : EventId) : Prop :=
  id < sc_next_id s /\ id ∉ se_id <$> live s.

Record step_ok (s : Scheduler) (asked : list SchedEntry) (fired : list Fired) (s' : Scheduler) : Prop := {
  st_ok : sched_ok s';
  st_queue : forall e, e ∈ sc_queue s' -> e ∈ sc_queue s \/
    e ∈ asked /\ sc_now s <= se_time e /\ se_id e = sc_next_id s;
  st_next : sc_next_id s' = sc_next_id s + Z.of_nat (length asked);
  st_now : sc_now s <= sc_now s';
  st_dead : forall id, dead s id -> dead s' id;
  st_fired : forall f, f ∈ fired -> entry_of f ∈ live s /\ fired = [f] /\
    sc_now s' = fd_time f /\ forall e, e ∈ sc_queue s' -> slot_before (fired_slot f) (slot e);
}.

Lemma elem_live s e : e ∈ live s <-> e ∈ sc_queue s /\ se_id e ∉ sc_cancelled s.
Proof.
  unfold live, is_cancelled. rewrite list_elem_of_In, filter_In, <-list_elem_of_In.
  by rewrite negb_true_iff, bool_decide_eq_false.
Qed.

Lemma dead_mono s s' :
  sc_next_id s <= sc_next_id s' ->
  (forall e, e ∈ live s' -> e ∈ live s \/ sc_next_id s <= se_id e) ->
  forall id, dead s id -> dead s' id.
Proof.
  intros Hn Hl id [Hid Hno]. split; [lia|]. intros (e & -> & [He|He]%Hl)%list_elem_of_fmap; [|lia].
  apply Hno. by apply list_elem_of_fmap_2.
Qed.

Lemma at_step_ok time ev s id s' :
  sched_ok s -> sched_at time ev s = Some (id, s') -> step_ok s [mkSchedEntry time id ev] [] s'.
Proof.
  intros Hok E. pose proof (sched_at_ok _ _ _ _ _ E Hok) as Hok'.
  apply sched_at_spec in E as (Ht & -> & ->).
  split; simpl; [done| |lia|lia| |by intros f ?%elem_of_nil].
  - intros e [He|He]%elem_of_app; [by left|right]. split; [done|].
    apply list_elem_of_singleton in He as ->. done.
  - apply dead_mono; simpl; [lia|]. intros e [He Hc]%elem_live. simpl in *.
    apply elem_of_app in He as [He| ->%list_elem_of_singleton]; [left; by apply elem_live|right; done].
Qed.

Lemma sched_step_ok op s asked fired s' :
  sched_ok s -> sched_step op s = Some (asked, fired, s') -> step_ok s asked fired s'.
Proof.
  intros Hok. destruct op as [time ev|delay ev|id|keep|]; simpl.
  - destruct (sched_at time ev s) as [[id s1]|] eqn:E; [|done]. intros [= <- <- <-]. by apply at_step_ok.
  - destruct (sched_after delay ev s) as [[id s1]|] eqn:E; [|done]. intros [= <- <- <-]. by apply at_step_ok.
  - intros [= <- <- <-].
    split; simpl; [|by intros; left|lia|lia| |by intros f ?%elem_of_nil].
    + by apply (sub_queue_ok s (sc_queue s)).
    + apply dead_mono; simpl; [lia|]. intros e [He Hc]%elem_live. simpl in *. left.
      apply elem_live. set_solver.
  - intros [= <- <- <-].
    split; simpl; [| |lia|lia| |by intros f ?%elem_of_nil].
    + apply (sub_queue_ok s _ _ _ Hok (filter_submseteq _ _)).
    + intros e He%list_elem_of_In. apply filter_In in He as [He _]. left. by apply list_elem_of_In.
    + apply dead_mono; simpl; [lia|]. intros e [He Hc]%elem_live. simpl in *. left. apply elem_live.
      apply list_elem_of_In, filter_In in He as [He _]. split; [by apply list_elem_of_In|done].
  - destruct (sched_next s) as [[o s1]|] eqn:E; [|done]. intros [= <- <- <-].
    apply sched_next_ok in E as [H1 H2 H3 H4 H5 H6]; [|done].
    assert (Hl : forall e, e ∈ live s1 -> e ∈ live s).
    { destruct o as [f|].
      - destruct H6 as (Hl & _). intros e He. rewrite Hl. by right.
      - destruct H6 as (_ & Hq). unfold live. rewrite Hq. by intros e ?%elem_of_nil. }
    split; [done| |simpl; lia|done| |].
    + intros e He. left. by eapply elem_of_submseteq.
    + apply dead_mono; [lia|]. auto.
    + intros f Hf. destruct o as [g|]; [|by apply elem_of_nil in Hf].
      apply list_elem_of_singleton in Hf as ->. destruct H6 as (Hl' & ? & _ & ?).
      split; [rewrite Hl'; by left|done].
Qed.

(** What holds of a whole run. *)
Record run_ok (asked : list SchedEntry) (fired : list Fired) (s : Scheduler) : Prop := {
  ro_ok : sched_ok s;
  ro_sorted : StronglySorted slot_before (fired_slot <$> fired);
  ro_past : forall f, f ∈ fired -> fd_time f <= sc_now s /\ fd_id f < sc_next_id s;
  ro_before : forall f e, f ∈ fired -> e ∈ sc_queue s -> slot_before (fired_slot f) (slot e);
  ro_asked : forall e, e ∈ sc_queue s \/ e ∈ entry_of <$> fired -> e ∈ asked;
}.

Lemma StronglySorted_snoc {A} (R : A -> A -> Prop) l x :
  StronglySorted R l -> (forall y, y ∈ l -> R y x) -> StronglySorted R (l ++ [x]).
Proof.
  induction 1 as [|y l Hl IH Hy]; intros Hx; simpl; [repeat constructor|]. constructor.
  - apply IH. intros z Hz. apply Hx. by right.
  - apply Forall_app. split; [done|]. apply Forall_singleton, Hx. by left.
Qed.

Lemma step_run_ok asked fired s op a f s' :
  run_ok asked fired s -> sched_step op s = Some (a, f, s') -> run_ok (asked ++ a) (fired ++ f) s'.
Proof.
  intros [Hok Hs Hp Hb Ha] E. apply sched_step_ok in E as [H1 H2 H3 H4 _ H6]; [|done].
  assert (Hf : f = [] \/ exists g, f = [g]).
  { destruct f as [|g f]; [by left|right]. destruct (H6 g) as (_ & -> & _); [by left|]. by exists g. }
  assert (Hlt : forall g, g ∈ f -> fd_id g < sc_next_id s /\ entry_of g ∈ sc_queue s).
  { intros g Hg. destruct (H6 g Hg) as [Hl _]. apply elem_live in Hl as [Hl _].
    split; [apply (so_id s Hok _ Hl)|done]. }
  split.
  - done.
  - destruct Hf as [->|[g ->]]; [by rewrite app_nil_r|]. rewrite fmap_app. apply StronglySorted_snoc; [done|].
    intros y (h & -> & Hh)%list_elem_of_fmap.
    apply (Hb h (entry_of g) Hh). apply Hlt. by left.
  - intros g [Hg|Hg]%elem_of_app.
    + destruct (Hp g Hg). lia.
    + destruct (H6 g Hg) as (_ & _ & -> & _). destruct (Hlt g Hg). lia.
  - intros g e [Hg|Hg]%elem_of_app He; [|by apply H6].
    destruct (H2 e He) as [He'|(_ & Ht & Hi)]; [by apply Hb|].
    destruct (Hp g Hg). unfold slot_before. simpl. lia.
  - intros e He. apply elem_of_app. destruct He as [He|He].
    + destruct (H2 e He) as [?|(? & _)]; [left; apply Ha; by left|by right].
    + rewrite fmap_app in He. apply elem_of_app in He as [He|He]; [left; apply Ha; by right|].
      apply list_elem_of_fmap in He as (g & -> & Hg). left. apply Ha. left. by apply Hlt.
Qed.

Lemma sched_run_ok ops s asked fired a f s' :
  run_ok asked fired s -> sched_run ops s = Some (a, f, s') -> run_ok (asked ++ a) (fired ++ f) s'.
Proof.
  revert s asked fired a f. induction ops as [|op ops IH]; intros s asked fired a f Hr; simpl.
  - intros [= <- <- <-]. by rewrite !app_nil_r.
  - destruct (sched_step op s) as [[[a1 f1] s1]|] eqn:E1; [|done]. simpl.
    destruct (sched_run ops s1) as [[[a2 f2] s2]|] eqn:E2; [|done]. simpl. intros [= <- <- <-].
    rewrite !app_assoc. eapply IH; [|exact E2]. by eapply step_run_ok.
Qed.

Lemma run_new_ok ops asked fired s :
  sched_run ops sched_new = Some (asked, fired, s) -> run_ok asked fired s.
Proof.
  intros E. apply (sched_run_ok _ _ [] []) in E; [done|]. split; simpl.
  - apply sched_new_ok.
  - constructor.
  - by intros f ?%elem_of_nil.
  - by intros f e ?%elem_of_nil.
  - by intros e [?%elem_of_nil|?%elem_of_nil].
Qed.

Lemma dead_never_fires ops s a f s' id :
  sched_ok s -> dead s id -> sched_run ops s = Some (a, f, s') -> id ∉ fd_id <$> f.
Proof.
  revert s a f. induction ops as [|op ops IH]; intros s a f Hok Hd; simpl.
  - intros [= <- <- <-]. apply not_elem_of_nil.
  - destruct (sched_step op s) as [[[a1 f1] s1]|] eqn:E1; [|done]. simpl.
    destruct (sched_run ops s1) as [[[a2 f2] s2]|] eqn:E2; [|done]. simpl. intros [= <- <- <-].
    apply sched_step_ok in E1 as [H1 _ _ _ H5 H6]; [|done].
    rewrite fmap_app, elem_of_app. intros [Hid|Hid].
    + apply list_elem_of_fmap in Hid as (g & -> & Hg). destruct (H6 g Hg) as [Hl _].
      destruct Hd as [_ Hno]. apply Hno. apply (list_elem_of_fmap_2 se_id _ _ Hl).
    + eapply IH; [exact H1| |exact E2|exact Hid]. by apply H5.
Qed.

(** ** Properties *)

(** C26. Events fire in order.  Over any run of the scheduler the fired events strictly
    increase by (time, id), so time never goes back and nothing fires twice;
    each is one that was asked for, at the time it was asked for; and an event
    that has been scheduled and is then cancelled does not fire after that. *)
Theorem events_fire_in_order ops asked fired s :
  sched_run ops sched_new = Some (asked, fired, s) ->
  StronglySorted slot_before (fired_slot <$> fired) /\
  (forall f, f ∈ fired -> entry_of f ∈ asked /\ fd_time f <= sc_now s) /\
  (forall pre id post a1 f1 s1, ops = pre ++ SoCancel id :: post ->
     sched_run pre sched_new = Some (a1, f1, s1) -> id < sc_next_id s1 ->
     id ∈ fd_id <$> fired -> id ∈ fd_id <$> f1).
Proof.
  intros E. pose proof (run_new_ok _ _ _ _ E) as [Hok Hs Hp Hb Ha].
  split; [done|]. split.
  { intros f Hf. split; [apply Ha; right; by apply list_elem_of_fmap_2|by apply Hp]. }
  intros pre id post a1 f1 s1 -> E1 Hid. apply sched_run_app in E as (a1' & f1' & s1' & a2 & f2 & E1' & E2 & -> & ->).
  rewrite E1 in E1'. injection E1' as <- <- <-. rewrite fmap_app, elem_of_app. intros [?|Hin]; [done|exfalso].
  simpl in E2. destruct (sched_run post _) as [[[a3 f3] s3]|] eqn:E3; [|done]. simpl in E2.
  injection E2 as <- <- <-. pose proof (ro_ok _ _ _ (run_new_ok _ _ _ _ E1)) as Hok1.
  eapply dead_never_fires; [| |exact E3|exact Hin].
  - by apply (sub_queue_ok s1 (sc_queue s1)).
  - split; [done|]. simpl. intros (e & -> & He)%list_elem_of_fmap. apply elem_live in He as [_ He].
    simpl in He. set_solver.
Qed.

(** Every live event fires.  From any reachable state as many calls of [next] as
    there are live events fire each of them once and in order, and leave none,
    whatever tombstones lie among them. *)
Theorem live_events_all_fire ops asked fired s :
  sched_run ops sched_new = Some (asked, fired, s) ->
  sc_fired s + Z.of_nat (length (live s)) <= U64_MAX ->
  exists rest s', sched_run (replicate (length (live s)) SoNext) s = Some ([], rest, s') /\
    entry_of <$> rest ≡ₚ live s /\ StronglySorted slot_before (fired_slot <$> rest) /\ live s' = [].
Proof.
  intros E%run_new_ok Hmax. clear ops. remember (length (live s)) as n eqn:Hn.
  revert asked fired s E Hn Hmax. induction n as [|n IH]; intros asked fired s Hr Hn Hmax.
  - apply eq_sym, length_zero_iff_nil in Hn. exists [], s. rewrite Hn. repeat split; constructor.
  - destruct (next_loop_total (S (length (sc_queue s))) s) as [[o s1] E]; [lia..|].
    pose proof (sched_next_ok _ _ _ (ro_ok _ _ _ Hr) E) as [H1 H2 H3 H4 H5 H6].
    destruct o as [f|]; [|destruct H6 as [Hl _]; by rewrite Hl in Hn].
    destruct H6 as (Hl & Hnow & Hcount & Hafter).
    assert (Estep : sched_step SoNext s = Some ([], [f], s1)).
    { cbn [sched_step]. unfold sched_next. by rewrite E. }
    pose proof (step_run_ok _ _ _ _ _ _ _ Hr Estep) as Hr1.
    pose proof (Permutation_length Hl) as Hlen. simpl in Hlen.
    destruct (IH _ _ s1 Hr1) as (rest & s' & Erest & Hp & Hs & Hend); [lia..|].
    exists (f :: rest), s'. cbn [replicate sched_run]. rewrite Estep. simpl. rewrite Erest. simpl.
    split; [done|]. split; [by rewrite Hp, Hl|]. split; [|done]. constructor; [done|].
    apply Forall_fmap, Forall_forall. intros g Hg. apply (Hafter (entry_of g)).
    assert (Hin : entry_of g ∈ live s1) by (rewrite <-Hp; by apply list_elem_of_fmap_2).
    by apply elem_live in Hin as [? _].
Qed.

(** ** Witnesses *)

(** Two timers at the same instant, one before them, and one cancelled. *)
Definition demo_ops : list SchedOp :=
  [SoAt 30 (SeApp 1 0); SoAt 30 (SeApp 2 0); SoAfter 10 (SeApp 3 0); SoAt 20 (SeApp 4 0);
   SoCancel 3; SoNext].

Lemma events_fire_in_order_witness :
  exists asked fired s, sched_run (demo_ops ++ [SoNext; SoNext; SoNext]) sched_new = Some (asked, fired, s) /\
    fd_id <$> fired = [2; 0; 1] /\ StronglySorted slot_before (fired_slot <$> fired).
Proof.
  do 3 eexists. split; [vm_compute; reflexivity|]. split; [reflexivity|].
  eapply (events_fire_in_order (demo_ops ++ [SoNext; SoNext; SoNext])). vm_compute. reflexivity.
Defined.

Lemma live_events_all_fire_witness :
  exists asked fired s rest s', sched_run demo_ops sched_new = Some (asked, fired, s) /\
    sched_run [SoNext; SoNext] s = Some ([], rest, s') /\ live s' = [].
Proof.
  destruct (sched_run demo_ops sched_new) as [[[asked fired] s]|] eqn:E; [|vm_compute in E; discriminate E].
  exists asked, fired, s.
  assert (Hs : length (live s) = 2%nat /\ sc_fired s = 1).
  { vm_compute in E. injection E as _ _ <-. split; reflexivity. }
  destruct Hs as [Hl Hf].
  destruct (live_events_all_fire demo_ops asked fired s E) as (rest & s' & H & _ & _ & Hend).
  { rewrite Hl, Hf. vm_compute. discriminate. }
  exists rest, s'. split; [reflexivity|]. rewrite Hl in H. split; [exact H|exact Hend].
Defined.
