(* ===== verification/Net.v ===== *)
(** * Net: the simulated network ([simcore/net.rs])

    Directed links that are cut or slow, and a [send] that drops, duplicates,
    delays and corrupts by chance; each copy becomes a delivery event of the
    scheduler. *)
From S2P Require Import Prelude Codec Crc LogFormat Messages Config Io Rng Draw Disk Faults Scheduler.
From Stdlib.Init Require Import Byte.

Definition MICROS : Nanos := 1000.

Record NetConfig : Type := mkNetConfig {
  nc_latency : Nanos * Nanos;
  nc_drop_ppm : Z;
  nc_duplicate_ppm : Z;
  nc_corrupt_ppm : Z;
  nc_slow_ppm : Z;
  nc_slow_factor : Z;
}.
Definition net_config_default : NetConfig :=
  mkNetConfig (200 * MICROS, 3 * MILLIS) 0 0 0 0 30.
Definition net_config_reliable : NetConfig := net_config_default.
Definition net_config_hostile : NetConfig :=
  mkNetConfig (nc_latency net_config_default) 50000 20000 1000 20000
    (nc_slow_factor net_config_default).

Record NetStats : Type := mkNetStats {
  ns_sent : Z; ns_dropped_loss : Z; ns_dropped_partition : Z;
  ns_duplicated : Z; ns_corrupted : Z; ns_delivered : Z;
}.
Definition net_stats_default : NetStats := mkNetStats 0 0 0 0 0 0.
Definition net_stats_eta (s : NetStats) : NetStats :=
  mkNetStats (ns_sent s) (ns_dropped_loss s) (ns_dropped_partition s) (ns_duplicated s)
    (ns_corrupted s) (ns_delivered s).
#[export] Instance set_ns_sent : Setter ns_sent. Proof. build_setter net_stats_eta. Defined.
#[export] Instance set_ns_dropped_loss : Setter ns_dropped_loss. Proof. build_setter net_stats_eta. Defined.
#[export] Instance set_ns_dropped_partition : Setter ns_dropped_partition. Proof. build_setter net_stats_eta. Defined.
#[export] Instance set_ns_duplicated : Setter ns_duplicated. Proof. build_setter net_stats_eta. Defined.
#[export] Instance set_ns_corrupted : Setter ns_corrupted. Proof. build_setter net_stats_eta. Defined.
#[export] Instance set_ns_delivered : Setter ns_delivered. Proof. build_setter net_stats_eta. Defined.

Record Network : Type := mkNetwork {
  nt_cfg : NetConfig;
  nt_nodes : nat;
  nt_blocked : gset (Z * Z);
  nt_slow : gset (Z * Z);
  nt_next_msg : Z;
  nt_stats : NetStats;
}.
Definition network_eta (n : Network) : Network :=
  mkNetwork (nt_cfg n) (nt_nodes n) (nt_blocked n) (nt_slow n) (nt_next_msg n) (nt_stats n).
#[export] Instance set_nt_blocked : Setter nt_blocked. Proof. build_setter network_eta. Defined.
#[export] Instance set_nt_slow : Setter nt_slow. Proof. build_setter network_eta. Defined.
#[export] Instance set_nt_next_msg : Setter nt_next_msg. Proof. build_setter network_eta. Defined.
#[export] Instance set_nt_stats : Setter nt_stats. Proof. build_setter network_eta. Defined.

Definition network_new (nodes : nat) (cfg : NetConfig) : Network :=
  mkNetwork cfg nodes ∅ ∅ 1 net_stats_default.

(** ** Links *)

Definition is_blocked (n : Network) (from to : NodeId) : bool :=
  bool_decide ((from, to) ∈ nt_blocked n).
Definition net_cut (from to : NodeId) (n : Network) : Network :=
  n ⟨ nt_blocked := nt_blocked n ∪ {[(from, to)]} ⟩.
Definition net_heal (from to : NodeId) (n : Network) : Network :=
  n ⟨ nt_blocked := nt_blocked n ∖ {[(from, to)]} ⟩.
Definition net_heal_all (n : Network) : Network := n ⟨ nt_blocked := ∅ ⟩ ⟨ nt_slow := ∅ ⟩.
Definition net_slow_link (from to : NodeId) (n : Network) : Network :=
  n ⟨ nt_slow := nt_slow n ∪ {[(from, to)]} ⟩.
Definition blocked_links (n : Network) : nat := size (nt_blocked n).
Definition latency_bounds (n : Network) : Nanos * Nanos := nc_latency (nt_cfg n).

Definition net_isolate (node : NodeId) (n : Network) : Network :=
  let others := Z.of_nat <$> seq 0 (Z.to_nat (wrap32 (Z.of_nat (nt_nodes n)))) in
  let cut_one (blocked : gset (Z * Z)) (other : Z) :=
    if other =? node then blocked else blocked ∪ {[(node, other)]} ∪ {[(other, node)]} in
  n ⟨ nt_blocked := foldl cut_one (nt_blocked n) others ⟩.

(** The group each node is in; a node listed twice is in the last of its groups. *)
Definition assign_group (nodes : nat) (group_of : list (option nat)) (group : nat * list NodeId)
  : list (option nat) :=
  foldl (fun gs n => if (Z.to_nat n <? nodes)%nat then <[Z.to_nat n := Some group.1]> gs else gs)
    group_of group.2.
Definition groups_of (nodes : nat) (groups : list (list NodeId)) : list (option nat) :=
  foldl (assign_group nodes) (replicate nodes None) (imap pair groups).

Definition apart (group_of : list (option nat)) (a b : nat) : bool :=
  match group_of !! a, group_of !! b with
  | Some (Some ga), Some (Some gb) => negb (a =? b)%nat && negb (ga =? gb)%nat
  | _, _ => false
  end.
Definition net_partition (groups : list (list NodeId)) (n : Network) : Network :=
  let group_of := groups_of (nt_nodes n) groups in
  let pairs := List.list_prod (seq 0 (nt_nodes n)) (seq 0 (nt_nodes n)) in
  let cut_pair (blocked : gset (Z * Z)) (ab : nat * nat) :=
    if apart group_of ab.1 ab.2 then blocked ∪ {[(node_id ab.1, node_id ab.2)]} else blocked in
  n ⟨ nt_blocked := foldl cut_pair (nt_blocked n) pairs ⟩.

(** ** Sending *)

Definition net_count (f : NetStats -> Z) `{!Setter f} (n : Network) : Draw Network :=
  st ← count f 1 (nt_stats n);
  mret (n ⟨ nt_stats := st ⟩).

(** [bytes[i] ^= 1 << k] *)
Definition flip_bit (i : nat) (k : Z) (bytes : list byte) : option (list byte) :=
  b ← bytes !! i;
  Some (<[i := byte_of_Z (Z.lxor (byte_to_Z b) (Z.shiftl 1 k))]> bytes).

Definition corrupt_copy (payload : list byte) (n : Network) : Draw (list byte * Network) :=
  hit ← chance (nc_corrupt_ppm (nt_cfg n));
  match (hit : bool), payload with
  | true, _ :: _ =>
      n ← net_count ns_corrupted n;
      i ← below (Z.of_nat (length payload));
      k ← below 8;
      bytes ← ensure (flip_bit (Z.to_nat i) k payload);
      mret (bytes, n)
  | _, _ => mret (payload, n)
  end.

Definition send_copy (from to : NodeId) (payload : list byte) (ns : Network * Scheduler)
  : Draw (Network * Scheduler) :=
  let '(n, sched) := ns in
  let msg := nt_next_msg n in
  next ← add_u64 msg 1;
  let n := n ⟨ nt_next_msg := next ⟩ in
  delay ← skewed (nc_latency (nt_cfg n)).1 (nc_latency (nt_cfg n)).2;
  slow ← (if bool_decide ((from, to) ∈ nt_slow n) then mret true else chance (nc_slow_ppm (nt_cfg n)));
  let delay := if (slow : bool) then u64_saturating_mul delay (nc_slow_factor (nt_cfg n)) else delay in
  '(bytes, n) ← corrupt_copy payload n;
  '(_, sched) ← ensure (sched_after delay (SeDeliver from to bytes msg) sched);
  mret (n, sched).

Fixpoint send_copies (copies : nat) (from to : NodeId) (payload : list byte)
  (ns : Network * Scheduler) : Draw (Network * Scheduler) :=
  match copies with
  | O => mret ns
  | S copies => ns ← send_copy from to payload ns; send_copies copies from to payload ns
  end.

Definition net_send (from to : NodeId) (payload : list byte) (n : Network) (sched : Scheduler)
  : Draw (nat * (Network * Scheduler)) :=
  n ← net_count ns_sent n;
  if is_blocked n from to then
    n ← net_count ns_dropped_partition n;
    mret (0%nat, (n, sched))
  else
    lost ← chance (nc_drop_ppm (nt_cfg n));
    if (lost : bool) then
      n ← net_count ns_dropped_loss n;
      mret (0%nat, (n, sched))
    else
      twice ← chance (nc_duplicate_ppm (nt_cfg n));
      '(copies, n) ← (if (twice : bool) then n ← net_count ns_duplicated n; mret (2%nat, n)
                      else mret (1%nat, n));
      ns ← send_copies copies from to payload (n, sched);
      mret (copies, ns).

Definition accept_delivery (from to : NodeId) (n : Network) : Draw (bool * Network) :=
  if is_blocked n from to then
    n ← net_count ns_dropped_partition n; mret (false, n)
  else
    n ← net_count ns_delivered n; mret (true, n).

(** ** What links are cut *)

Lemma blocked_fold {A} (f : A -> option (gset (Z * Z))) (g : gset (Z * Z) -> A -> gset (Z * Z)) l b x :
  (forall b a, g b a = b ∪ default ∅ (f a)) ->
  x ∈ foldl g b l <-> x ∈ b \/ exists a, a ∈ l /\ x ∈ default ∅ (f a).
Proof.
  intros Hg. revert b. induction l as [|a l IH]; intros b; simpl.
  - split; [by left|]. intros [?|(a & ?%elem_of_nil & _)]; done.
  - rewrite IH, Hg, elem_of_union. split.
    + intros [[?|?]|(a' & ? & ?)]; [by left|right; exists a|right; exists a']; (split; [|done]); by constructor.
    + intros [?|(a' & [->|?]%elem_of_cons & ?)]; [by left; left|by left; right|right; eauto].
Qed.

Lemma isolate_spec node n a b :
  Z.of_nat (nt_nodes n) < 2 ^ 32 ->
  is_blocked (net_isolate node n) a b = true <->
  is_blocked n a b = true \/
  a <> b /\ (a = node /\ 0 <= b < Z.of_nat (nt_nodes n) \/ b = node /\ 0 <= a < Z.of_nat (nt_nodes n)).
Proof.
  intros Hn. unfold is_blocked, net_isolate. rewrite !bool_decide_eq_true. simpl.
  rewrite (blocked_fold (fun other => if other =? node then None
    else Some ({[(node, other)]} ∪ {[(other, node)]}))).
  - unfold wrap32. rewrite Z.mod_small, Nat2Z.id by lia. f_equiv. split.
    + intros (o & (k & -> & Hk%elem_of_seq)%list_elem_of_fmap & Ho).
      destruct (Z.eqb_spec (Z.of_nat k) node); simpl in Ho; [set_solver|].
      apply elem_of_union in Ho as [[= -> ->]%elem_of_singleton|[= -> ->]%elem_of_singleton]; lia.
    + intros [Hne Hab].
      exists (if decide (a = node) then b else a). split.
      * apply list_elem_of_fmap. exists (Z.to_nat (if decide (a = node) then b else a)).
        rewrite elem_of_seq. destruct (decide (a = node)); lia.
      * destruct (decide (a = node)) as [->|]; [|destruct Hab as [[]|[-> ?]]; [done|]].
        -- destruct (Z.eqb_spec b node); simpl; [congruence|set_solver].
        -- destruct (Z.eqb_spec a node); simpl; [congruence|set_solver].
  - intros s o. destruct (o =? node); simpl; set_solver.
Qed.

Lemma partition_blocked groups n a b :
  Z.of_nat (nt_nodes n) <= 2 ^ 32 -> (a < nt_nodes n)%nat -> (b < nt_nodes n)%nat ->
  is_blocked (net_partition groups n) (Z.of_nat a) (Z.of_nat b) = true <->
  is_blocked n (Z.of_nat a) (Z.of_nat b) = true \/ apart (groups_of (nt_nodes n) groups) a b = true.
Proof.
  intros Hn Ha Hb. unfold is_blocked, net_partition. rewrite !bool_decide_eq_true. simpl.
  assert (Hid : forall k, (k < nt_nodes n)%nat -> node_id k = Z.of_nat k).
  { intros k Hk. unfold node_id, wrap32. apply Z.mod_small. lia. }
  rewrite (blocked_fold (fun ab => if apart (groups_of (nt_nodes n) groups) ab.1 ab.2
    then Some {[(node_id ab.1, node_id ab.2)]} else None)).
  - f_equiv. split.
    + intros ([a' b'] & Hin & Hx). apply list_elem_of_In, in_prod_iff in Hin as [Ha' Hb'].
      apply in_seq in Ha', Hb'. simpl in Hx. destruct (apart _ a' b') eqn:Eap; [|set_solver].
      simpl in Hx. apply elem_of_singleton in Hx. rewrite !Hid in Hx by lia.
      injection Hx as ?%Nat2Z.inj ?%Nat2Z.inj. by subst.
    + intros Hap. exists (a, b). split; [apply list_elem_of_In, in_prod_iff; rewrite !in_seq; lia|].
      simpl. rewrite Hap. simpl. rewrite !Hid by done. set_solver.
  - intros s ab. destruct (apart _ _ _); simpl; set_solver.
Qed.

Lemma assign_group_lookup nodes gs g l k :
  length gs = nodes -> (k < nodes)%nat ->
  assign_group nodes gs (g, l) !! k =
  if decide (k ∈ Z.to_nat <$> l) then Some (Some g) else gs !! k.
Proof.
  unfold assign_group. simpl. revert gs. induction l as [|n l IH]; intros gs Hl Hk; [done|].
  simpl foldl. rewrite fmap_cons. destruct (Nat.ltb_spec (Z.to_nat n) nodes) as [Hn|Hn].
  - rewrite IH by (rewrite ?length_insert; done). destruct (decide (k ∈ Z.to_nat <$> l)).
    + rewrite decide_True; [done|by right].
    + destruct (decide (k = Z.to_nat n)) as [->|Hne].
      * rewrite decide_True by left. by rewrite list_lookup_insert_eq by lia.
      * rewrite decide_False by (rewrite elem_of_cons; naive_solver).
        by rewrite list_lookup_insert_ne by done.
  - rewrite IH by done. apply decide_ext. rewrite elem_of_cons. intuition lia.
Qed.

Lemma length_assign_group nodes gs gl : length (assign_group nodes gs gl) = length gs.
Proof.
  unfold assign_group. generalize gs. induction gl.2 as [|n l IH]; intros s; [done|]. simpl.
  rewrite IH. case_match; [apply length_insert|done].
Qed.

Definition nodes_of (l : list NodeId) : list nat := Z.to_nat <$> l.

(** With disjoint groups a node's group is the one that lists it. *)
Lemma groups_of_spec nodes groups k g :
  NoDup (concat (nodes_of <$> groups)) -> (k < nodes)%nat ->
  groups_of nodes groups !! k = Some (Some g) <->
  exists l, groups !! g = Some l /\ k ∈ nodes_of l.
Proof.
  intros Hnd Hk. unfold groups_of.
  assert (Hgen : forall gs j f, length gs = nodes -> (forall i (l : list NodeId), f i l = ((j + i)%nat, l)) ->
    NoDup (concat (nodes_of <$> groups)) ->
    foldl (assign_group nodes) gs (imap f groups) !! k = Some (Some g) <->
    (exists i l, g = (j + i)%nat /\ groups !! i = Some l /\ k ∈ nodes_of l) \/
    (k ∉ concat (nodes_of <$> groups) /\ gs !! k = Some (Some g))).
  { clear Hnd. induction groups as [|l groups IH]; intros gs j f Hl Hf Hnd.
    - simpl. rewrite elem_of_nil. split; [naive_solver|]. intros [(i & l & _ & H & _)|[_ H]]; done.
    - rewrite imap_cons. simpl foldl. rewrite fmap_cons in *. simpl concat in *.
      apply NoDup_app in Hnd as (Hnd1 & Hdis & Hnd2).
      rewrite (IH _ (S j)); [|by rewrite length_assign_group|intros i l'; simpl; rewrite Hf; f_equal; lia|done].
      rewrite Hf, Nat.add_0_r, assign_group_lookup by done. rewrite elem_of_app.
      change (Z.to_nat <$> l) with (nodes_of l). split.
      + intros [(i & l' & -> & Hi & Hk')|[Hno H]].
        * left. exists (S i), l'. split; [lia|done].
        * destruct (decide (k ∈ nodes_of l)); [|right; naive_solver].
          injection H as <-. left. exists 0%nat, l. split; [lia|done].
      + intros [([|i] & l' & -> & Hi & Hk')|[Hno H]].
        * injection Hi as ->. right. split; [by apply Hdis|]. rewrite decide_True by done. do 2 f_equal. lia.
        * left. exists i, l'. split; [lia|done].
        * right. split; [naive_solver|]. rewrite decide_False by naive_solver. done. }
  rewrite (Hgen _ 0%nat); [|apply length_replicate|done..].
  rewrite lookup_replicate_2 by done. split; [|naive_solver].
  intros [(i & l & -> & Hi & Hl)|[_ ?]]; [by exists l|done].
Qed.

(** ** What arrives *)

(** The copy delivered is the payload, or differs from it in one byte. *)
Definition copy_of (payload bytes : list byte) : Prop :=
  bytes = payload \/
  exists i x y, payload !! i = Some x /\ y <> x /\ bytes = <[i := y]> payload.

Lemma flip_bit_copy i k payload bytes :
  0 <= k < 8 -> flip_bit i k payload = Some bytes -> copy_of payload bytes.
Proof.
  unfold flip_bit. intros Hk. destruct (payload !! i) as [b|] eqn:E; [|done]. intros [= <-].
  right. exists i, b, (byte_of_Z (Z.lxor (byte_to_Z b) (Z.shiftl 1 k))). split; [done|]. split; [|done].
  intros Heq. apply (f_equal byte_to_Z) in Heq. rewrite byte_to_of_Z in Heq.
  apply (f_equal (fun z => Z.testbit z k)) in Heq. change 256 with (2 ^ 8) in Heq.
  rewrite Z.mod_pow2_bits_low, Z.lxor_spec, Z.shiftl_1_l, Z.pow2_bits_true in Heq by lia.
  by destruct (Z.testbit (byte_to_Z b) k).
Qed.

(** Everything but the counters and the message number. *)
Definition same_links (n n' : Network) : Prop :=
  nt_cfg n' = nt_cfg n /\ nt_nodes n' = nt_nodes n /\ nt_blocked n' = nt_blocked n /\ nt_slow n' = nt_slow n.

#[export] Instance same_links_preorder : PreOrder same_links.
Proof. split; [by repeat split|]. intros n1 n2 n3 (? & ? & ? & ?) (? & ? & ? & ?). repeat split; congruence. Qed.

Lemma draws_net_count (f : NetStats -> Z) `{!Setter f} n : draws (net_count f n) (same_links n).
Proof. unfold net_count. eapply draws_bind; [apply draws_count|]. intros st _. by draws_step. Qed.

Lemma draws_corrupt_copy payload n :
  draws (corrupt_copy payload n) (fun bn => copy_of payload bn.1 /\ same_links n bn.2).
Proof.
  assert (Hsame : draws (mret (payload, n)) (fun bn => copy_of payload bn.1 /\ same_links n bn.2)).
  { draws_step. by split; [left|]. }
  unfold corrupt_copy. eapply draws_skip; [by apply draws_chance|].
  intros [|]; [|done]. destruct payload as [|b payload]; [done|].
  eapply draws_bind; [apply draws_net_count|]. intros n' Hn'.
  eapply draws_skip; [by apply draws_below|]. intros i.
  eapply draws_bind; [apply (draws_below _ _ (fun x H => H))|]. intros k Hk.
  eapply draws_bind; [apply (draws_ensure _ _ (fun a H => H))|]. intros bytes Hb. cbv beta in *.
  draws_step. split; [|done]. eapply flip_bit_copy; [|exact Hb]. lia.
Qed.

(** What [send] leaves in the scheduler: the events before it, and one delivery
    per copy, not before the present. *)
Definition delivery (from to : NodeId) (payload : list byte) (now : Nanos) (e : SchedEntry) : Prop :=
  now <= se_time e /\ exists bytes msg, se_event e = SeDeliver from to bytes msg /\ copy_of payload bytes.
Definition queued (s s' : Scheduler) (es : list SchedEntry) : Prop :=
  sc_now s' = sc_now s /\ sc_cancelled s' = sc_cancelled s /\ sc_queue s' = sc_queue s ++ es.

Lemma queued_trans s1 s2 s3 es es' : queued s1 s2 es -> queued s2 s3 es' -> queued s1 s3 (es ++ es').
Proof.
  intros (? & ? & H) (? & ? & H'). repeat split; [congruence..|]. by rewrite H', H, app_assoc.
Qed.

Lemma queued_nil s : queued s s [].
Proof. by split; [|split; [|rewrite app_nil_r]]. Qed.

Lemma sched_after_queued delay ev s id s' :
  sched_after delay ev s = Some (id, s') ->
  exists e, queued s s' [e] /\ sc_now s <= se_time e /\ se_event e = ev.
Proof. intros (Ht & _ & ->)%sched_at_spec. eexists. split; [done|]. done. Qed.

Definition sent (from to : NodeId) (payload : list byte) (copies : nat) (n : Network) (s : Scheduler)
  (ns : Network * Scheduler) : Prop :=
  same_links n ns.1 /\ exists es, queued s ns.2 es /\ length es = copies /\
    Forall (delivery from to payload (sc_now s)) es.

Lemma draws_send_copy from to payload n sched :
  draws (send_copy from to payload (n, sched)) (sent from to payload 1 n sched).
Proof.
  unfold send_copy. eapply draws_skip; [by apply draws_ensure|]. intros next.
  eapply draws_skip; [by apply draws_skewed|]. intros delay.
  eapply (draws_bind _ _ (fun _ => True)).
  { case_bool_decide; [by draws_step|by apply draws_chance]. }
  intros slow _. eapply draws_bind; [apply draws_corrupt_copy|]. intros [bytes n'] [Hb Hn]. simpl in Hb, Hn.
  eapply draws_bind; [apply (draws_ensure _ _ (fun a H => H))|]. intros [id s'] Hs. cbv beta in Hs.
  draws_step. apply sched_after_queued in Hs as (e & Hq & Ht & He). split; [exact Hn|].
  exists [e]. split; [exact Hq|]. split; [done|]. apply Forall_singleton. split; [done|]. by do 2 eexists.
Qed.

Lemma draws_send_copies copies from to payload n sched :
  draws (send_copies copies from to payload (n, sched)) (sent from to payload copies n sched).
Proof.
  revert n sched. induction copies as [|copies IH]; intros n sched; simpl.
  - draws_step. split; [done|]. exists []. split; [apply queued_nil|done].
  - eapply draws_bind; [apply draws_send_copy|]. intros [n1 s1] (Hn & es & Hq & Hl & He). simpl in Hn, Hq.
    eapply draws_mono; [apply IH|]. intros ns (Hn' & es' & Hq' & Hl' & Hes). split; [by etrans|].
    exists (es ++ es'). split; [by eapply queued_trans|]. split; [rewrite length_app; lia|].
    apply Forall_app. destruct Hq as [Hnow _]. rewrite Hnow in Hes. done.
Qed.

Lemma draws_net_send from to payload n sched :
  draws (net_send from to payload n sched) (fun res =>
    (is_blocked n from to = true -> res.1 = 0%nat) /\ (res.1 <= 2)%nat /\
    sent from to payload res.1 n sched res.2).
Proof.
  assert (Hnone : forall n', same_links n n' -> (is_blocked n from to = true -> 0%nat = 0%nat) /\ (0 <= 2)%nat /\
    sent from to payload 0 n sched (n', sched)).
  { intros n' Hn. split; [done|]. split; [lia|]. split; [done|]. exists []. split; [apply queued_nil|done]. }
  unfold net_send. eapply draws_bind; [apply draws_net_count|]. intros n1 H1.
  assert (Hbl : is_blocked n1 from to = is_blocked n from to).
  { unfold is_blocked. destruct H1 as (_ & _ & -> & _). done. }
  rewrite Hbl. destruct (is_blocked n from to) eqn:Hbn.
  { eapply draws_bind; [apply draws_net_count|]. intros n2 H2. draws_step. apply Hnone. by etrans. }
  eapply draws_skip; [by apply draws_chance|]. intros [|].
  { eapply draws_bind; [apply draws_net_count|]. intros n2 H2. draws_step. apply Hnone. by etrans. }
  eapply draws_skip; [by apply draws_chance|]. intros twice.
  eapply (draws_bind _ _ (fun cn => (cn.1 <= 2)%nat /\ same_links n1 cn.2)).
  { destruct twice; [|draws_step; split; [simpl; lia|done]].
    eapply draws_bind; [apply draws_net_count|]. intros n2 H2. draws_step. split; [simpl; lia|done]. }
  intros [copies n2] [Hc H2]. simpl in Hc, H2. eapply draws_bind; [apply draws_send_copies|].
  intros [n3 s3] [H3 Hs]. draws_step. split; [done|]. split; [done|]. split; [|exact Hs].
  etrans; [exact H1|]. by etrans.
Qed.

(** ** Properties *)

(** A message arrives as it was sent or not at all.  Sending an encoded message
    schedules at most two deliveries, none when the link is cut; each carries
    bytes that decode to that very message, or, where the network corrupted a
    bit, are refused by the receiver's checksum. *)
Theorem delivered_as_sent_or_refused from to (m : Message) n sched :
  message_ok m ->
  draws (net_send from to (message_encode m) n sched) (fun res =>
    (is_blocked n from to = true -> res.1 = 0%nat) /\ (res.1 <= 2)%nat /\
    exists es, queued sched res.2.2 es /\ length es = res.1 /\
      Forall (fun e => sc_now sched <= se_time e /\ exists bytes msg,
        se_event e = SeDeliver from to bytes msg /\
        (message_decode bytes = Ok m \/ message_decode bytes = Err BadChecksum)) es).
Proof.
  intros Hm. eapply draws_mono; [apply draws_net_send|].
  intros res (H0 & H2 & _ & es & Hq & Hl & Hes). split; [done|]. split; [done|]. exists es.
  split; [done|]. split; [done|]. eapply Forall_impl; [exact Hes|].
  intros e (Ht & bytes & msg & Hev & Hb). split; [done|]. exists bytes, msg. split; [done|].
  destruct Hb as [->|(i & x & y & Hx & Hne & ->)]; [left; by apply message_decode_encode|right].
  unfold message_decode, message_encode in *. by rewrite (unframe_corrupted _ _ _ _ Hx Hne).
Qed.

(** A partition cuts exactly the links across it.  On a healed network, after a
    partition into disjoint groups, a link is cut, in either direction, if and
    only if its ends are listed in two different groups. *)
Theorem partition_cuts_across groups n a b :
  Z.of_nat (nt_nodes n) <= 2 ^ 32 -> NoDup (concat (nodes_of <$> groups)) ->
  (a < nt_nodes n)%nat -> (b < nt_nodes n)%nat -> a <> b ->
  is_blocked (net_partition groups (net_heal_all n)) (Z.of_nat a) (Z.of_nat b) = true <->
  exists i j la lb, i <> j /\ groups !! i = Some la /\ groups !! j = Some lb /\
    a ∈ nodes_of la /\ b ∈ nodes_of lb.
Proof.
  intros Hn Hnd Ha Hb Hab. rewrite partition_blocked by done. simpl nt_nodes.
  assert (He : is_blocked (net_heal_all n) (Z.of_nat a) (Z.of_nat b) = false).
  { unfold is_blocked. apply bool_decide_eq_false_2. simpl. apply not_elem_of_empty. }
  rewrite He. transitivity (exists i j, groups_of (nt_nodes n) groups !! a = Some (Some i) /\
    groups_of (nt_nodes n) groups !! b = Some (Some j) /\ i <> j).
  - unfold apart. split.
    + intros [?|H]; [done|]. destruct (_ !! a) as [[i|]|], (_ !! b) as [[j|]|]; try done.
      exists i, j. apply andb_true_iff in H as [_ H]. apply negb_true_iff, Nat.eqb_neq in H. done.
    + intros (i & j & -> & -> & Hij). right. apply andb_true_iff.
      by rewrite !negb_true_iff, !Nat.eqb_neq.
  - split.
    + intros (i & j & (la & ? & ?)%groups_of_spec & (lb & ? & ?)%groups_of_spec & Hij); [|done..].
      by exists i, j, la, lb.
    + intros (i & j & la & lb & Hij & ? & ? & ? & ?). exists i, j.
      split; [apply groups_of_spec; eauto|]. split; [apply groups_of_spec; eauto|done].
Qed.

(** ** Witnesses *)

Lemma delivered_as_sent_or_refused_witness :
  exists n s r, net_send 0 1 (message_encode demo_message) (network_new 3 net_config_hostile) sched_new (rng_new 4)
      = Some ((1%nat, (n, s)), r) /\
    exists e bytes msg, sc_queue s = [e] /\ se_event e = SeDeliver 0 1 bytes msg /\
      (message_decode bytes = Ok demo_message \/ message_decode bytes = Err BadChecksum).
Proof.
  destruct (net_send 0 1 (message_encode demo_message) (network_new 3 net_config_hostile) sched_new (rng_new 4))
    as [[[c [n s]] r]|] eqn:E; [|vm_compute in E; discriminate E].
  assert (c = 1%nat) as -> by (vm_compute in E; injection E as <- _ _ _; reflexivity).
  exists n, s, r. split; [reflexivity|].
  destruct (delivered_as_sent_or_refused 0 1 demo_message (network_new 3 net_config_hostile) sched_new
    demo_message_ok _ _ _ (rng_new_ok 4) E) as [(_ & _ & es & Hq & Hl & Hes) _].
  destruct es as [|e [|]]; [discriminate Hl| |discriminate Hl].
  apply Forall_singleton in Hes as (_ & bytes & msg & Hev & Hd).
  exists e, bytes, msg. split; [exact (proj2 (proj2 Hq))|]. split; [exact Hev|exact Hd].
Defined.

Lemma partition_cuts_across_witness :
  is_blocked (net_partition [[0; 2]; [1]] (net_heal_all (network_new 3 net_config_default))) 2 1 = true.
Proof.
  apply (partition_cuts_across [[0; 2]; [1]] (network_new 3 net_config_default) 2 1);
    [vm_compute; discriminate| |simpl; lia|simpl; lia|discriminate|].
  - apply (bool_decide_unpack _). vm_compute. exact I.
  - exists 0%nat, 1%nat, [0; 2], [1]. repeat split; try discriminate; vm_compute; repeat constructor.
Defined.
