(* ===== verification/Trace.v ===== *)
(** * Trace: the log and the determinism fingerprint ([simcore/trace.rs], [simcore/determinism.rs])

    Human-readable records are filtered by level and bounded; the fingerprint is
    FNV-1a over every observed event, on [Z] with the 64-bit wrap-around written
    out.  [verify] compares the fingerprints of runs of one seed. *)
From Stdlib Require Import String Ascii.
From stdpp Require Import pretty.
From S2P Require Import Prelude LogFormat Config Io Rng Faults Net.
From Stdlib.Init Require Import Byte.
Local Open Scope Z_scope.

(** ** Levels *)

Inductive Level : Type := LOff | LError | LWarn | LInfo | LDebug.
#[export] Instance Level_eq_dec : EqDecision Level.
Proof. solve_decision. Defined.

Definition level_rank (l : Level) : Z :=
  match l with LOff => 0 | LError => 1 | LWarn => 2 | LInfo => 3 | LDebug => 4 end.

Definition ascii_lower (c : ascii) : ascii :=
  let n := nat_of_ascii c in
  if (65 <=? n)%nat && (n <=? 90)%nat then ascii_of_nat (n + 32) else c.
Fixpoint to_ascii_lowercase (s : string) : string :=
  match s with EmptyString => EmptyString | String c s => String (ascii_lower c) (to_ascii_lowercase s) end.

Definition level_parse (s : string) : option Level :=
  let s := to_ascii_lowercase s in
  if (s =? "off")%string then Some LOff
  else if (s =? "error")%string then Some LError
  else if (s =? "warn")%string then Some LWarn
  else if (s =? "info")%string then Some LInfo
  else if (s =? "debug")%string then Some LDebug
  else None.

Definition level_tag (l : Level) : string :=
  match l with
  | LOff => "OFF" | LError => "ERR" | LWarn => "WRN" | LInfo => "INF" | LDebug => "DBG"
  end%string.

(** ** Records *)

Record TraceRecord : Type := mkTraceRecord {
  tr_time : Nanos;
  tr_node : option NodeId;
  tr_level : Level;
  tr_category : string;
  tr_message : string;
}.

Fixpoint spaces (fill : ascii) (n : nat) : string :=
  match n with O => EmptyString | S n => String fill (spaces fill n) end.
(** [{:>w}], [{:<w}] and [{:0w}]. *)
Definition pad_left (fill : ascii) (w : nat) (s : string) : string :=
  (spaces fill (w - String.length s) ++ s)%string.
Definition pad_right (w : nat) (s : string) : string :=
  (s ++ spaces " "%char (w - String.length s))%string.
Definition decimal (z : Z) : string := pretty (Z.to_N z).

Definition record_render (r : TraceRecord) : string :=
  let ms := tr_time r / MILLIS in
  let us := (tr_time r mod MILLIS) / MICROS in
  ("[" ++ pad_left " " 7 (decimal ms) ++ "." ++ pad_left "0" 3 (decimal us) ++ "ms]" ++
   match tr_node r with Some n => " n" ++ pad_right 2 (decimal n) | None => "  -  " end ++
   " " ++ level_tag (tr_level r) ++ " " ++ pad_right 9 (tr_category r) ++ " " ++ tr_message r)%string.

(** ** The fingerprint *)

Definition FNV_OFFSET : Z := 0xcbf29ce484222325.
Definition FNV_PRIME : Z := 0x100000001b3.

Definition feed_byte (fp : Z) (b : byte) : Z := wrapping_mul (Z.lxor fp (byte_to_Z b)) FNV_PRIME.
Definition feed_bytes (fp : Z) (bytes : list byte) : Z := foldl feed_byte fp bytes.
Definition feed_u64 (fp : Z) (v : Z) : Z := feed_bytes fp (to_le_bytes 8 v).

(** ** The trace *)

Record Trace : Type := mkTrace {
  tc_level : Level;
  tc_records : list TraceRecord;
  tc_max_records : Z;
  tc_dropped : Z;
  tc_fingerprint : Z;
  tc_observed : Z;
}.
Definition trace_eta (t : Trace) : Trace :=
  mkTrace (tc_level t) (tc_records t) (tc_max_records t) (tc_dropped t) (tc_fingerprint t) (tc_observed t).
#[export] Instance set_tc_level : Setter tc_level. Proof. build_setter trace_eta. Defined.
#[export] Instance set_tc_records : Setter tc_records. Proof. build_setter trace_eta. Defined.
#[export] Instance set_tc_dropped : Setter tc_dropped. Proof. build_setter trace_eta. Defined.
#[export] Instance set_tc_fingerprint : Setter tc_fingerprint. Proof. build_setter trace_eta. Defined.
#[export] Instance set_tc_observed : Setter tc_observed. Proof. build_setter trace_eta. Defined.

Definition trace_new (level : Level) : Trace := mkTrace level [] 200000 0 FNV_OFFSET 0.

Definition trace_set_level (level : Level) (t : Trace) : Trace := t ⟨ tc_level := level ⟩.
Definition trace_enabled (t : Trace) (level : Level) : bool :=
  (level_rank level <=? level_rank (tc_level t)) && (level_rank LOff <? level_rank (tc_level t)).

(** The oldest half goes when the log is full. *)
Definition trace_log (level : Level) (time : Nanos) (node : option NodeId) (category message : string)
  (t : Trace) : option Trace :=
  if trace_enabled t level then
    t ← (if tc_max_records t <=? Z.of_nat (length (tc_records t)) then
           let half := (length (tc_records t) / 2)%nat in
           dropped ← u64_add (tc_dropped t) (Z.of_nat half);
           Some (t ⟨ tc_records := drop half (tc_records t) ⟩ ⟨ tc_dropped := dropped ⟩)
         else Some t);
    Some (t ⟨ tc_records := tc_records t ++ [mkTraceRecord time node level category message] ⟩)
  else Some t.

(** What one observation feeds, in order. *)
Definition observation (time : Nanos) (node : option NodeId) (tag : string) (args : list Z) : list byte :=
  to_le_bytes 8 time ++ to_le_bytes 8 (default U64_MAX node) ++ String.list_byte_of_string tag ++
  concat (to_le_bytes 8 <$> args).

Definition trace_observe (time : Nanos) (node : option NodeId) (tag : string) (args : list Z)
  (t : Trace) : option Trace :=
  observed ← u64_add (tc_observed t) 1;
  let fp := feed_u64 (tc_fingerprint t) time in
  let fp := feed_u64 fp (default U64_MAX node) in
  let fp := feed_bytes fp (String.list_byte_of_string tag) in
  let fp := foldl feed_u64 fp args in
  Some (t ⟨ tc_observed := observed ⟩ ⟨ tc_fingerprint := fp ⟩).

Definition newline : string := String "010"%char EmptyString.
Definition render_lines (rs : list TraceRecord) : string :=
  foldr (fun r s => record_render r ++ newline ++ s)%string EmptyString rs.
Definition trace_render (t : Trace) : string :=
  ((if (0 <? tc_dropped t)%Z then "... " ++ decimal (tc_dropped t) ++ " earlier records dropped ..." ++ newline
    else "") ++ render_lines (tc_records t))%string.
Definition trace_tail (n : nat) (t : Trace) : string :=
  render_lines (drop (length (tc_records t) - n) (tc_records t)).

(** ** Determinism *)

Record Divergence : Type := mkDivergence { dv_run : nat; dv_expected : Z; dv_actual : Z }.

Fixpoint verify_from (run : nat -> Z) (first : Z) (i n : nat) : Divergence + Z :=
  match n with
  | O => inr first
  | S n => if run i =? first then verify_from run first (S i) n else inl (mkDivergence i first (run i))
  end.

(** [runs] must be at least one; the closure is a function of the run's index. *)
Definition verify (runs : nat) (run : nat -> Z) : option (Divergence + Z) :=
  if (1 <=? runs)%nat then Some (verify_from run (run 0%nat) 1 (runs - 1)) else None.

Fixpoint diverge_from (i : nat) (a b : list TraceRecord) : option nat :=
  match a, b with
  | x :: a, y :: b =>
      if (record_render x =? record_render y)%string then diverge_from (S i) a b else Some i
  | [], [] => None
  | _, _ => Some i
  end.
Definition first_divergence (a b : list TraceRecord) : option nat := diverge_from 0 a b.

(** ** FNV-1a tells bytes apart *)

(** The inverse of the (odd) prime modulo 2^64. *)
Definition FNV_INVERSE : Z := 0xce965057aff6957b.

Lemma wrapping_mul_prime_inj a b :
  is_u64 a -> is_u64 b -> wrapping_mul a FNV_PRIME = wrapping_mul b FNV_PRIME -> a = b.
Proof.
  intros Ha Hb H. apply (f_equal (fun z => wrapping_mul z FNV_INVERSE)) in H.
  unfold wrapping_mul, wrap64, is_u64 in *. rewrite !Z.mul_mod_idemp_l, <-!Z.mul_assoc in H by lia.
  assert (Hone : (FNV_PRIME * FNV_INVERSE) mod 2 ^ 64 = 1) by reflexivity.
  rewrite <-!(Z.mul_mod_idemp_r _ (FNV_PRIME * FNV_INVERSE)), Hone, !Z.mul_1_r in H by lia.
  by rewrite !Z.mod_small in H.
Qed.

Lemma lxor_byte_u64 fp b : is_u64 fp -> is_u64 (Z.lxor fp (byte_to_Z b)).
Proof.
  intros Hfp. pose proof (byte_to_Z_range b) as Hb. unfold is_u64 in *.
  split; [by apply Z.lxor_nonneg; split; intros; lia|].
  assert (H0 : Z.lxor fp (byte_to_Z b) = (Z.lxor fp (byte_to_Z b)) mod 2 ^ 64).
  { apply Z.bits_inj'. intros n Hn. destruct (Z.lt_ge_cases n 64).
    - by rewrite Z.mod_pow2_bits_low.
    - rewrite Z.mod_pow2_bits_high, Z.lxor_spec by lia.
      rewrite <-(Z.mod_small fp (2 ^ 64)), <-(Z.mod_small (byte_to_Z b) (2 ^ 64)) by lia.
      by rewrite !Z.mod_pow2_bits_high by lia. }
  rewrite H0. apply Z.mod_pos_bound. lia.
Qed.

Lemma feed_byte_u64 fp b : is_u64 (feed_byte fp b).
Proof. unfold feed_byte, wrapping_mul, wrap64, is_u64. apply Z.mod_pos_bound. lia. Qed.

Lemma feed_bytes_u64 fp bytes : is_u64 fp -> is_u64 (feed_bytes fp bytes).
Proof. revert fp. induction bytes as [|b bytes IH]; intros fp Hfp; [done|]. apply IH, feed_byte_u64. Qed.

Lemma lxor_cancel a b c : Z.lxor a c = Z.lxor b c -> a = b.
Proof.
  intros H. apply (f_equal (fun z => Z.lxor z c)) in H.
  by rewrite !Z.lxor_assoc, Z.lxor_nilpotent, !Z.lxor_0_r in H.
Qed.

Lemma feed_byte_inj fp fp' b :
  is_u64 fp -> is_u64 fp' -> feed_byte fp b = feed_byte fp' b -> fp = fp'.
Proof.
  intros H H' E. apply wrapping_mul_prime_inj in E; [|by apply lxor_byte_u64..].
  by eapply lxor_cancel.
Qed.

Lemma feed_bytes_inj fp fp' bytes :
  is_u64 fp -> is_u64 fp' -> feed_bytes fp bytes = feed_bytes fp' bytes -> fp = fp'.
Proof.
  revert fp fp'. induction bytes as [|b bytes IH]; intros fp fp' H H' E; [done|].
  apply (feed_byte_inj _ _ b H H'), IH; [apply feed_byte_u64..|done].
Qed.

Lemma feed_one_byte fp pre x y post :
  is_u64 fp -> x <> y -> feed_bytes fp (pre ++ x :: post) <> feed_bytes fp (pre ++ y :: post).
Proof.
  intros Hfp Hne E. unfold feed_bytes in E. rewrite !foldl_app in E. simpl in E.
  apply (feed_bytes_inj _ _ post) in E; [|apply feed_byte_u64..].
  pose proof (feed_bytes_u64 fp pre Hfp) as Hp. fold (feed_bytes fp pre) in E.
  apply wrapping_mul_prime_inj in E; [|by apply lxor_byte_u64..].
  rewrite !(Z.lxor_comm (feed_bytes fp pre)) in E. apply lxor_cancel, byte_to_Z_inj in E. done.
Qed.

(** ** Runs *)

Inductive TraceOp : Type :=
| ToLevel (level : Level)
| ToLog (level : Level) (time : Nanos) (node : option NodeId) (category message : string)
| ToObserve (time : Nanos) (node : option NodeId) (tag : string) (args : list Z).

Definition trace_step (op : TraceOp) (t : Trace) : option Trace :=
  match op with
  | ToLevel level => Some (trace_set_level level t)
  | ToLog level time node category message => trace_log level time node category message t
  | ToObserve time node tag args => trace_observe time node tag args t
  end.
Fixpoint trace_run (ops : list TraceOp) (t : Trace) : option Trace :=
  match ops with [] => Some t | op :: ops => t ← trace_step op t; trace_run ops t end.

Definition observed_bytes (op : TraceOp) : list byte :=
  match op with ToObserve time node tag args => observation time node tag args | _ => [] end.

Lemma feed_bytes_app fp a b : feed_bytes fp (a ++ b) = feed_bytes (feed_bytes fp a) b.
Proof. apply foldl_app. Qed.

Lemma foldl_feed_u64 fp args : foldl feed_u64 fp args = feed_bytes fp (concat (to_le_bytes 8 <$> args)).
Proof.
  revert fp. induction args as [|a args IH]; intros fp; [done|].
  cbn [foldl]. rewrite IH. unfold feed_u64. by rewrite <-feed_bytes_app.
Qed.

Lemma trace_step_spec op t t' :
  trace_step op t = Some t' ->
  tc_fingerprint t' = feed_bytes (tc_fingerprint t) (observed_bytes op) /\
  tc_max_records t' = tc_max_records t /\
  (Z.of_nat (length (tc_records t)) <= tc_max_records t -> 2 <= tc_max_records t ->
   Z.of_nat (length (tc_records t')) <= tc_max_records t).
Proof.
  destruct op as [level|level time node category message|time node tag args]; simpl.
  - intros [= <-]. done.
  - unfold trace_log. destruct (trace_enabled t level); [|by intros [= <-]].
    destruct (Z.leb_spec (tc_max_records t) (Z.of_nat (length (tc_records t)))) as [Hm|Hm].
    + assert (Hhalf : 2 <= tc_max_records t -> (1 <= length (tc_records t) / 2)%nat).
      { intros H2. apply Nat.div_le_lower_bound; lia. }
      revert Hhalf. generalize (length (tc_records t) / 2)%nat. intros half Hhalf.
      destruct (u64_add _ _) as [d|]; [|done]. intros [= <-]. simpl. split; [done|]. split; [done|].
      intros Hl H2. specialize (Hhalf H2). rewrite length_app, length_drop. simpl. lia.
    + intros [= <-]. simpl. split; [done|]. split; [done|]. intros _ _. rewrite length_app. simpl. lia.
  - unfold trace_observe. destruct (u64_add _ _) as [o|]; [|done]. intros [= <-]. simpl.
    split; [|done]. unfold observation. by rewrite !feed_bytes_app, foldl_feed_u64.
Qed.

Lemma trace_run_spec ops t t' :
  trace_run ops t = Some t' ->
  tc_fingerprint t' = feed_bytes (tc_fingerprint t) (concat (observed_bytes <$> ops)) /\
  (Z.of_nat (length (tc_records t)) <= tc_max_records t -> 2 <= tc_max_records t ->
   Z.of_nat (length (tc_records t')) <= tc_max_records t).
Proof.
  revert t. induction ops as [|op ops IH]; intros t; simpl; [by intros [= <-]|].
  destruct (trace_step op t) as [t1|] eqn:E; [|done]. simpl. intros E'.
  apply trace_step_spec in E as (Hf & Hm & Hl). apply IH in E' as [Hf' Hl']. rewrite Hm in Hl'.
  split; [rewrite Hf', Hf; by rewrite <-feed_bytes_app|]. intros H1 H2. auto.
Qed.

(** ** Properties *)

(** The fingerprint is of what was observed, whatever was logged.  Over any
    interleaving of log lines, level changes and observations it is FNV-1a of the
    bytes of the observations in order, the log never holds more than its bound,
    and two runs whose observations differ in one byte have different
    fingerprints. *)
Theorem fingerprint_is_of_observations ops level t :
  trace_run ops (trace_new level) = Some t ->
  tc_fingerprint t = feed_bytes FNV_OFFSET (concat (observed_bytes <$> ops)) /\
  Z.of_nat (length (tc_records t)) <= 200000 /\
  (forall ops' level' t' pre x y post,
     trace_run ops' (trace_new level') = Some t' -> x <> y ->
     concat (observed_bytes <$> ops) = pre ++ x :: post ->
     concat (observed_bytes <$> ops') = pre ++ y :: post ->
     tc_fingerprint t <> tc_fingerprint t').
Proof.
  intros [Hf Hl]%trace_run_spec. split; [done|]. split; [simpl in Hl; apply Hl; lia|].
  intros ops' level' t' pre x y post [Hf' _]%trace_run_spec Hne E E'.
  rewrite Hf, Hf', E, E'. apply feed_one_byte; [|done]. split; by vm_compute.
Qed.

Lemma verify_from_spec run first i n :
  match verify_from run first i n with
  | inr fp => fp = first /\ forall j, (i <= j < i + n)%nat -> run j = first
  | inl d => (i <= dv_run d < i + n)%nat /\ dv_expected d = first /\ dv_actual d = run (dv_run d) /\
      dv_actual d <> first /\ forall j, (i <= j < dv_run d)%nat -> run j = first
  end.
Proof.
  revert i. induction n as [|n IH]; intros i; simpl; [split; [done|lia]|].
  destruct (Z.eqb_spec (run i) first) as [E|E]; [|simpl; split; [lia|]; repeat split; try done; lia].
  specialize (IH (S i)). destruct (verify_from _ _ _ _) as [d|fp].
  - destruct IH as (? & ? & ? & ? & Hj). split; [lia|]. repeat split; try done. intros j Hij.
    destruct (decide (j = i)) as [->|]; [done|]. apply Hj. lia.
  - destruct IH as [? Hj]. split; [done|]. intros j Hij.
    destruct (decide (j = i)) as [->|]; [done|]. apply Hj. lia.
Qed.

(** The determinism check is exact: it accepts when all the runs have the same
    fingerprint, and otherwise names the first run that differs from run 0. *)
Theorem verify_is_exact runs run :
  (1 <= runs)%nat ->
  exists res, verify runs run = Some res /\
    match res with
    | inr fp => forall j, (j < runs)%nat -> run j = fp
    | inl d => (0 < dv_run d < runs)%nat /\ dv_expected d = run 0%nat /\ dv_actual d = run (dv_run d) /\
        dv_actual d <> dv_expected d /\ forall j, (j < dv_run d)%nat -> run j = dv_expected d
    end.
Proof.
  intros H1. unfold verify. rewrite (proj2 (Nat.leb_le _ _) H1). eexists. split; [done|].
  pose proof (verify_from_spec run (run 0%nat) 1 (runs - 1)) as H.
  destruct (verify_from _ _ _ _) as [d|fp].
  - destruct H as (? & -> & ? & ? & Hj). repeat split; try done; try lia. intros j Hlt.
    destruct j as [|j]; [done|]. apply Hj. lia.
  - destruct H as [-> Hj]. intros [|j] Hlt; [done|]. apply Hj. lia.
Qed.

(** ** Witnesses *)

Definition demo_trace_ops (level : Level) : list TraceOp :=
  [ToObserve 7 (Some 1) "elected" [3]; ToLog LInfo 8 None "raft" "leader"; ToLevel level;
   ToObserve 9 None "crash" []]%string.

Lemma fingerprint_is_of_observations_witness :
  exists t, trace_run (demo_trace_ops LDebug) (trace_new LInfo) = Some t /\
    tc_fingerprint t = feed_bytes FNV_OFFSET (concat (observed_bytes <$> demo_trace_ops LOff)).
Proof.
  eexists. split; [vm_compute; reflexivity|].
  eapply (fingerprint_is_of_observations (demo_trace_ops LDebug) LInfo). vm_compute. reflexivity.
Defined.

Lemma verify_is_exact_witness :
  verify 3 (fun i => if (i =? 2)%nat then 5 else 4) = Some (inl (mkDivergence 2 4 5)) /\
  exists res, verify 3 (fun _ => 4) = Some res.
Proof.
  split; [reflexivity|]. destruct (verify_is_exact 3 (fun _ => 4) ltac:(lia)) as (res & H & _).
  exists res. exact H.
Defined.
