(* ===== verification/World.v ===== *)
(** * World: the simulated world and a node's window on it ([simcore/lib.rs], [sim-io/lib.rs])

    The world holds the scheduler, the random source, the network, the trace,
    the fault injector and, per node, a disk, a clock, whether it is up and its
    incarnation.  Its operations are partial: indexing a node that does not
    exist, an overflow or a timer in the past is a panic ([None]).  [SimIo] is
    the instance of [Io] a node is handed; a world that panicked stays so. *)
From Stdlib Require Import String.
From S2P Require Import Prelude Codec Crc LogFormat Messages Config Io Rng Draw Disk Faults Scheduler Net Trace.
From Stdlib.Init Require Import Byte.

Record WorldConfig : Type := mkWorldConfig {
  wc_nodes : nat;
  wc_seed : Z;
  wc_net : NetConfig;
  wc_disk : DiskConfig;
  wc_faults : FaultConfig;
  wc_trace_level : Level;
}.
Definition world_config_default : WorldConfig :=
  mkWorldConfig 3 0 net_config_default disk_config_default fault_config_default LOff.

Record World : Type := mkWorld {
  wd_sched : Scheduler;
  wd_rng : Rng;
  wd_net : Network;
  wd_trace : Trace;
  wd_faults : FaultInjector;
  wd_disks : list Disk;
  wd_skews : list ClockSkew;
  wd_up : list bool;
  wd_incarnation : list Z;
  wd_seed : Z;
}.
Definition world_eta (w : World) : World :=
  mkWorld (wd_sched w) (wd_rng w) (wd_net w) (wd_trace w) (wd_faults w) (wd_disks w) (wd_skews w)
    (wd_up w) (wd_incarnation w) (wd_seed w).
#[export] Instance set_wd_sched : Setter wd_sched. Proof. build_setter world_eta. Defined.
#[export] Instance set_wd_rng : Setter wd_rng. Proof. build_setter world_eta. Defined.
#[export] Instance set_wd_net : Setter wd_net. Proof. build_setter world_eta. Defined.
#[export] Instance set_wd_trace : Setter wd_trace. Proof. build_setter world_eta. Defined.
#[export] Instance set_wd_faults : Setter wd_faults. Proof. build_setter world_eta. Defined.
#[export] Instance set_wd_disks : Setter wd_disks. Proof. build_setter world_eta. Defined.
#[export] Instance set_wd_skews : Setter wd_skews. Proof. build_setter world_eta. Defined.
#[export] Instance set_wd_up : Setter wd_up. Proof. build_setter world_eta. Defined.
#[export] Instance set_wd_incarnation : Setter wd_incarnation. Proof. build_setter world_eta. Defined.

(** [node as usize].  Node numbers are u32; a negative one does not occur and is
    no node's. *)
Definition node_idx (n : NodeId) : nat := Z.to_nat (if n <? 0 then U32_MAX else n).

(** A computation repeated; its values in order. *)
Fixpoint repeat_draw {A} (n : nat) (m : Draw A) : Draw (list A) :=
  match n with O => mret [] | S n => a ← m; rest ← repeat_draw n m; mret (a :: rest) end.

Definition world_new (cfg : WorldConfig) : option World :=
  let n := wc_nodes cfg in
  '(skews, rng) ← repeat_draw n
    (if fc_enable_clock_skew (wc_faults cfg) then clock_skew_random (fc_max_clock_skew (wc_faults cfg))
     else mret clock_skew_default) (rng_new (wc_seed cfg));
  Some (mkWorld sched_new rng (network_new n (wc_net cfg)) (trace_new (wc_trace_level cfg))
    (injector_new (wc_faults cfg)) (replicate n (disk_new (wc_disk cfg))) skews
    (replicate n true) (replicate n 0) (wc_seed cfg)).

Definition world_nodes (w : World) : nat := length (wd_up w).
Definition all_nodes (w : World) : list NodeId :=
  Z.of_nat <$> seq 0 (Z.to_nat (wrap32 (Z.of_nat (length (wd_up w))))).
Definition world_now (w : World) : Nanos := sc_now (wd_sched w).
Definition node_now (node : NodeId) (w : World) : option Nanos :=
  s ← wd_skews w !! node_idx node; Some (skew_apply s (world_now w)).
Definition is_up (node : NodeId) (w : World) : option bool := wd_up w !! node_idx node.
Definition up_count (w : World) : nat := length (List.filter id (wd_up w)).
Definition incarnation_of (node : NodeId) (w : World) : option Z := wd_incarnation w !! node_idx node.

Definition world_observe (node : option NodeId) (tag : string) (args : list Z) (w : World) : option World :=
  t ← trace_observe (world_now w) node tag args (wd_trace w);
  Some (w ⟨ wd_trace := t ⟩).
Definition world_log (level : Level) (node : option NodeId) (cat msg : string) (w : World) : option World :=
  t ← trace_log level (world_now w) node cat msg (wd_trace w);
  Some (w ⟨ wd_trace := t ⟩).

(** ** The network *)

Definition world_send (from to : NodeId) (payload : list byte) (w : World) : option (nat * World) :=
  up ← is_up from w;
  if (up : bool) then
    '((copies, (net, sched)), rng) ← net_send from to payload (wd_net w) (wd_sched w) (wd_rng w);
    Some (copies, w ⟨ wd_rng := rng ⟩ ⟨ wd_net := net ⟩ ⟨ wd_sched := sched ⟩)
  else Some (0%nat, w).

Definition world_accept (from to : NodeId) (w : World) : option (bool * World) :=
  up ← is_up to w;
  if (up : bool) then
    '((ok, net), rng) ← accept_delivery from to (wd_net w) (wd_rng w);
    Some (ok, w ⟨ wd_rng := rng ⟩ ⟨ wd_net := net ⟩)
  else Some (false, w).

(** ** Timers *)

Definition world_set_timer (node : NodeId) (delay : Nanos) (timer : Z) (w : World)
  : option (EventId * World) :=
  '(id, sched) ← sched_after delay (SeTimer node timer) (wd_sched w);
  Some (id, w ⟨ wd_sched := sched ⟩).
Definition world_cancel (id : EventId) (w : World) : World :=
  w ⟨ wd_sched := sched_cancel id (wd_sched w) ⟩.

(** ** Storage *)

Definition complete_storage (node : NodeId) (op : OpId) (delay : Nanos) (result : IoResult) (w : World)
  : option World :=
  '(_, sched) ← sched_after delay (SeStorage node op result) (wd_sched w);
  Some (w ⟨ wd_sched := sched ⟩).

Definition disk_request (node : NodeId) (f : Disk -> Draw (Issued * Disk)) (w : World)
  : option (OpId * World) :=
  d ← wd_disks w !! node_idx node;
  '((iss, d), rng) ← f d (wd_rng w);
  let w := w ⟨ wd_rng := rng ⟩ ⟨ wd_disks := <[node_idx node := d]> (wd_disks w) ⟩ in
  w ← complete_storage node (is_op iss) (is_delay iss) (is_result iss) w;
  Some (is_op iss, w).

Definition world_append (node : NodeId) (file : FileId) (bytes : list byte) : World -> option (OpId * World) :=
  disk_request node (disk_append file bytes).
Definition world_write_at (node : NodeId) (file : FileId) (offset : nat) (bytes : list byte)
  : World -> option (OpId * World) := disk_request node (disk_write_at file offset bytes).
Definition world_set_len (node : NodeId) (file : FileId) (len : nat) : World -> option (OpId * World) :=
  disk_request node (disk_set_len file len).
Definition world_sync (node : NodeId) (file : FileId) : World -> option (OpId * World) :=
  disk_request node (disk_sync file).

Definition world_read (node : NodeId) (file : FileId) (w : World) : option (list byte) :=
  d ← wd_disks w !! node_idx node; Some (disk_read_all d file).
Definition world_len (node : NodeId) (file : FileId) (w : World) : option nat :=
  d ← wd_disks w !! node_idx node; Some (disk_len d file).
Definition world_durable_image (node : NodeId) (file : FileId) (w : World) : option (list byte) :=
  d ← wd_disks w !! node_idx node; Some (durable_image d file).
Definition world_has_unsynced (node : NodeId) (file : FileId) (w : World) : option bool :=
  d ← wd_disks w !! node_idx node; Some (has_unsynced d file).

(** ** Lifecycle *)

(** Not a timer nor a completion of the node. *)
Definition survives_crash (node : NodeId) (e : Event) : bool :=
  match e with
  | SeTimer n _ | SeStorage n _ _ => negb (n =? node)
  | _ => true
  end.

Definition crash_node (node : NodeId) (w : World) : option World :=
  up ← is_up node w;
  if (up : bool) then
    d ← wd_disks w !! node_idx node;
    '(d, rng) ← disk_crash d (wd_rng w);
    inc ← wd_incarnation w !! node_idx node;
    inc ← u64_add inc 1;
    let w := w ⟨ wd_rng := rng ⟩ ⟨ wd_disks := <[node_idx node := d]> (wd_disks w) ⟩
               ⟨ wd_up := <[node_idx node := false]> (wd_up w) ⟩
               ⟨ wd_incarnation := <[node_idx node := inc]> (wd_incarnation w) ⟩
               ⟨ wd_sched := sched_retain (survives_crash node) (wd_sched w) ⟩ in
    world_observe (Some node) "crash" [] w
  else Some w.

Definition restart_node (node : NodeId) (w : World) : option World :=
  up ← is_up node w;
  if (up : bool) then Some w
  else world_observe (Some node) "restart" [] (w ⟨ wd_up := <[node_idx node := true]> (wd_up w) ⟩).

Definition clock_jump (node : NodeId) (delta : Z) (w : World) : option World :=
  s ← wd_skews w !! node_idx node;
  offset ← i64_checked (cs_offset s + delta);
  world_observe (Some node) "clockjump" [wrap64 delta]
    (w ⟨ wd_skews := <[node_idx node := mkClockSkew offset (cs_drift_ppm s)]> (wd_skews w) ⟩).

Definition clock_skew (node : NodeId) (w : World) : option ClockSkew := wd_skews w !! node_idx node.

(** ** A node's window *)

(** The world lent to a node, [None] once it panicked. *)
Record SimIo : Type := mkSimIo { si_world : option World; si_node : NodeId }.

Definition sim_do {A} (default : A) (f : NodeId -> World -> option (A * World)) (s : SimIo) : A * SimIo :=
  match si_world s ≫= f (si_node s) with
  | Some (a, w) => (a, mkSimIo (Some w) (si_node s))
  | None => (default, mkSimIo None (si_node s))
  end.
Definition sim_read {A} (dflt : A) (f : NodeId -> World -> option A) (s : SimIo) : A :=
  default dflt (si_world s ≫= f (si_node s)).

(** Sending to oneself does nothing. *)
Definition sim_send (to : NodeId) (payload : list byte) (me : NodeId) (w : World) : option (unit * World) :=
  if to =? me then Some (tt, w) else '(_, w) ← world_send me to payload w; Some (tt, w).

Definition world_rand_range (lo hi : Z) (w : World) : option (Z * World) :=
  '(x, rng) ← rng_range lo hi (wd_rng w); Some (x, w ⟨ wd_rng := rng ⟩).

#[export] Instance SimIo_Io : Io SimIo := {|
  io_now := sim_read 0 node_now;
  io_set_timer s delay tag := sim_do 0 (fun me => world_set_timer me delay tag) s;
  io_cancel_timer s h := (sim_do tt (fun _ w => Some (tt, world_cancel h w)) s).2;
  io_me := si_node;
  io_cluster_size := sim_read 0%nat (fun _ w => Some (world_nodes w));
  io_send s to payload := (sim_do tt (sim_send to payload) s).2;
  io_append s file bytes := sim_do 0 (fun me => world_append me file bytes) s;
  io_write_at s file offset bytes := sim_do 0 (fun me => world_write_at me file offset bytes) s;
  io_set_len s file len := sim_do 0 (fun me => world_set_len me file len) s;
  io_sync s file := sim_do 0 (fun me => world_sync me file) s;
  io_read_all s file := sim_read [] (fun me => world_read me file) s;
  io_size s file := sim_read 0%nat (fun me => world_len me file) s;
  io_observe s tag args :=
    (sim_do tt (fun me w => w ← world_observe (Some me) tag args w; Some (tt, w)) s).2;
  io_rand_range s lo hi := sim_do 0 (fun _ => world_rand_range lo hi) s;
|}.
