(* ===== verification/WorldRules.v ===== *)
(** * WorldRules: what a node can reach, and what a crash does ([simcore/lib.rs], [sim-io/lib.rs])

    Whatever a node asks of its [Io], it changes its own disk and queues its own
    events and nothing else; a crash takes the node, its timers and completions
    and its unsynced writes, and leaves the rest of the world as it is. *)
From Stdlib Require Import String.
From S2P Require Import Prelude Codec Crc LogFormat Messages Config Io Rng Draw Disk DiskSafety Faults Scheduler Net Trace World.
From Stdlib.Init Require Import Byte.

Lemma node_idx_of_nat i : node_idx (Z.of_nat i) = i.
Proof. unfold node_idx. rewrite (proj2 (Z.ltb_ge _ _)) by lia. apply Nat2Z.id. Qed.
Lemma node_idx_inv n i : node_idx n = i -> Z.of_nat i < U32_MAX -> n = Z.of_nat i.
Proof. unfold node_idx. intros <-. destruct (Z.ltb_spec n 0); [|lia]. unfold U32_MAX. lia. Qed.

(** ** Requests of a node *)

(** An event a node may cause: its timers, its completions, its messages. *)
Definition own_event (me : NodeId) (e : Event) : Prop :=
  match e with
  | SeTimer n _ | SeStorage n _ _ => n = me
  | SeDeliver from to _ _ => from = me /\ to <> me
  | SeFault _ | SeApp _ _ => False
  end.

(** [w'] differs from [w] by what node [me] may do; [handles] are the timers it
    cancelled. *)
Record confined (me : NodeId) (handles : list EventId) (w w' : World) : Prop := {
  cf_rng : rng_ok (wd_rng w) -> rng_ok (wd_rng w');
  cf_now : sc_now (wd_sched w') = sc_now (wd_sched w);
  cf_links : same_links (wd_net w) (wd_net w');
  cf_faults : wd_faults w' = wd_faults w;
  cf_skews : wd_skews w' = wd_skews w;
  cf_up : wd_up w' = wd_up w;
  cf_incarnation : wd_incarnation w' = wd_incarnation w;
  cf_disks : forall i, i <> node_idx me -> wd_disks w' !! i = wd_disks w !! i;
  cf_cancelled : forall id, id ∈ sc_cancelled (wd_sched w') ->
    id ∈ sc_cancelled (wd_sched w) \/ id ∈ handles;
  cf_queue : exists es, sc_queue (wd_sched w') = sc_queue (wd_sched w) ++ es /\
    Forall (fun e => sc_now (wd_sched w) <= se_time e /\ own_event me (se_event e)) es;
}.

Lemma confined_refl me w : confined me [] w w.
Proof. split; try done; [by left|]. exists []. by rewrite app_nil_r. Qed.

Lemma confined_trans me h h' w1 w2 w3 :
  confined me h w1 w2 -> confined me h' w2 w3 -> confined me (h ++ h') w1 w3.
Proof.
  intros H1 H2. split.
  - intros H. apply (cf_rng _ _ _ _ H2), (cf_rng _ _ _ _ H1), H.
  - rewrite (cf_now _ _ _ _ H2). apply (cf_now _ _ _ _ H1).
  - etrans; [apply (cf_links _ _ _ _ H1)|apply (cf_links _ _ _ _ H2)].
  - rewrite (cf_faults _ _ _ _ H2). apply (cf_faults _ _ _ _ H1).
  - rewrite (cf_skews _ _ _ _ H2). apply (cf_skews _ _ _ _ H1).
  - rewrite (cf_up _ _ _ _ H2). apply (cf_up _ _ _ _ H1).
  - rewrite (cf_incarnation _ _ _ _ H2). apply (cf_incarnation _ _ _ _ H1).
  - intros i Hi. rewrite (cf_disks _ _ _ _ H2), (cf_disks _ _ _ _ H1) by done. done.
  - intros id [Hid|Hid]%(cf_cancelled _ _ _ _ H2); rewrite elem_of_app; [|tauto].
    apply (cf_cancelled _ _ _ _ H1) in Hid. tauto.
  - destruct (cf_queue _ _ _ _ H1) as (e1 & Hq1 & F1). destruct (cf_queue _ _ _ _ H2) as (e2 & Hq2 & F2).
    exists (e1 ++ e2). rewrite Hq2, Hq1, app_assoc. split; [done|]. apply Forall_app.
    rewrite (cf_now _ _ _ _ H1) in F2. done.
Qed.

(** A change of the generator, the trace and the scheduler alone. *)
Lemma confined_queued me w w' es :
  queued (wd_sched w) (wd_sched w') es ->
  Forall (fun e => sc_now (wd_sched w) <= se_time e /\ own_event me (se_event e)) es ->
  (rng_ok (wd_rng w) -> rng_ok (wd_rng w')) -> same_links (wd_net w) (wd_net w') ->
  wd_faults w' = wd_faults w -> wd_skews w' = wd_skews w -> wd_up w' = wd_up w ->
  wd_incarnation w' = wd_incarnation w ->
  (forall i, i <> node_idx me -> wd_disks w' !! i = wd_disks w !! i) ->
  confined me [] w w'.
Proof.
  intros (Hn & Hc & Hq) He Hr Hl Hf Hs Hu Hi Hd. split; try done; [|by exists es].
  intros id. rewrite Hc. by left.
Qed.

Lemma set_timer_confined me delay tag w id w' :
  world_set_timer me delay tag w = Some (id, w') -> confined me [] w w'.
Proof.
  unfold world_set_timer. destruct (sched_after _ _ _) as [[i s]|] eqn:E; [|done]. intros [= <- <-].
  apply sched_after_queued in E as (e & Hq & Ht & He). eapply confined_queued; try done.
  apply Forall_singleton. split; [done|]. by rewrite He.
Qed.

Lemma send_confined me to payload w a w' :
  rng_ok (wd_rng w) -> sim_send to payload me w = Some (a, w') -> confined me [] w w'.
Proof.
  intros Hr. unfold sim_send. destruct (Z.eqb_spec to me) as [|Hne].
  { intros [= <- <-]. apply confined_refl. }
  unfold world_send. destruct (is_up me w) as [[]|]; [| |done]; simpl.
  2: { intros [= <- <-]. apply confined_refl. }
  destruct (net_send _ _ _ _ _ _) as [[[c [n s]] r]|] eqn:E; [|done]. simpl. intros [= <- <-].
  apply draws_net_send in E as [(_ & _ & Hl & es & Hq & _ & Hes) Hr']; [|done].
  eapply confined_queued; try done.
  eapply Forall_impl; [exact Hes|]. intros e (Ht & bytes & msg & He & _). split; [done|]. by rewrite He.
Qed.

Lemma disk_request_confined me f w op w' :
  (forall d, draws (f d) (fun _ => True)) -> rng_ok (wd_rng w) ->
  disk_request me f w = Some (op, w') -> confined me [] w w'.
Proof.
  intros Hf Hr. unfold disk_request. destruct (wd_disks w !! node_idx me) as [d|] eqn:Ed; [|done]. simpl.
  destruct (f d (wd_rng w)) as [[[iss d'] r]|] eqn:E; [|done]. apply Hf in E as [_ Hr']; [|done]. simpl.
  unfold complete_storage. simpl. destruct (sched_after _ _ _) as [[i s]|] eqn:Es; [|done]. simpl.
  intros [= <- <-]. apply sched_after_queued in Es as (e & Hq & Ht & He).
  eapply confined_queued; try done; simpl.
  - apply Forall_singleton. split; [done|]. by rewrite He.
  - intros k Hk. by rewrite list_lookup_insert_ne.
Qed.

Lemma observe_confined me node tag args w w' :
  world_observe node tag args w = Some w' -> confined me [] w w'.
Proof.
  unfold world_observe. destruct (trace_observe _ _ _ _ _); [|done]. intros [= <-].
  apply confined_queued with (es := []); try done. apply queued_nil.
Qed.

Lemma draws_true {A} (m : Draw A) P : draws m P -> draws m (fun _ => True).
Proof. intros H. eapply draws_mono; [exact H|done]. Qed.

(** ** Runs of requests *)

Inductive SimOp : Type :=
| OpSetTimer (delay : Nanos) (tag : TimerTag)
| OpCancel (handle : Z)
| OpSend (to : NodeId) (payload : list byte)
| OpAppend (file : FileId) (bytes : list byte)
| OpWriteAt (file : FileId) (offset : nat) (bytes : list byte)
| OpSetLen (file : FileId) (len : nat)
| OpSync (file : FileId)
| OpObserve (tag : string) (args : list Z)
| OpRandRange (lo hi : Z).

Definition sim_step (op : SimOp) (s : SimIo) : SimIo :=
  match op with
  | OpSetTimer delay tag => (io_set_timer s delay tag).2
  | OpCancel h => io_cancel_timer s h
  | OpSend to payload => io_send s to payload
  | OpAppend file bytes => (io_append s file bytes).2
  | OpWriteAt file offset bytes => (io_write_at s file offset bytes).2
  | OpSetLen file len => (io_set_len s file len).2
  | OpSync file => (io_sync s file).2
  | OpObserve tag args => io_observe s tag args
  | OpRandRange lo hi => (io_rand_range s lo hi).2
  end.
Definition sim_run (ops : list SimOp) (s : SimIo) : SimIo := foldl (fun s op => sim_step op s) s ops.
Definition cancels (op : SimOp) : list EventId := match op with OpCancel h => [h] | _ => [] end.

Lemma sim_do_some {A} (a : A) f s w' :
  si_world (sim_do a f s).2 = Some w' ->
  exists w b, si_world s = Some w /\ f (si_node s) w = Some (b, w').
Proof.
  unfold sim_do. destruct (si_world s) as [w|]; [|done]. simpl.
  destruct (f (si_node s) w) as [[b w1]|] eqn:E; [|done]. simpl. intros [= <-]. by exists w, b.
Qed.

Lemma sim_do_node {A} (a : A) f s : si_node (sim_do a f s).2 = si_node s.
Proof. unfold sim_do. by destruct (si_world s ≫= _) as [[]|]. Qed.

Lemma sim_step_node op s : si_node (sim_step op s) = si_node s.
Proof. destruct op; apply sim_do_node. Qed.

Lemma sim_step_confined op s w w' :
  rng_ok (wd_rng w) -> si_world s = Some w -> si_world (sim_step op s) = Some w' ->
  confined (si_node s) (cancels op) w w'.
Proof.
  intros Hr Hw Hw'.
  destruct op as [delay tag|h|to payload|file bytes|file offset bytes|file len|file|tag args|lo hi]; simpl in Hw';
    apply sim_do_some in Hw' as (w1 & b & Hw1 & E); rewrite Hw in Hw1; injection Hw1 as <-.
  - by eapply set_timer_confined.
  - injection E as _ <-. split; try done; simpl; [intros id; rewrite elem_of_union; set_solver|].
    exists []. by rewrite app_nil_r.
  - by eapply send_confined.
  - eapply disk_request_confined; [|done|exact E]. intros d. eapply draws_true, draws_issue.
  - eapply disk_request_confined; [|done|exact E]. intros d. eapply draws_true, draws_issue.
  - eapply disk_request_confined; [|done|exact E]. intros d. eapply draws_true, draws_issue.
  - eapply disk_request_confined; [|done|exact E]. intros d. eapply draws_true, draws_sync.
  - destruct (world_observe _ _ _ _) eqn:Eo; [|done]. injection E as <- <-. by eapply observe_confined.
  - unfold world_rand_range in E. destruct (rng_range lo hi (wd_rng w)) as [[x r]|] eqn:Er; [|done].
    injection E as <- <-. apply confined_queued with (es := []); try done; [apply queued_nil|].
    intros _. simpl. by eapply (draws_range lo hi (fun _ => True)) in Er as [_ ?].
Qed.

Lemma sim_step_live op s w' : si_world (sim_step op s) = Some w' -> is_Some (si_world s).
Proof. destruct op; simpl; intros (w & b & H & _)%sim_do_some; by exists w. Qed.

Lemma sim_run_confined ops s w w' :
  rng_ok (wd_rng w) -> si_world s = Some w -> si_world (sim_run ops s) = Some w' ->
  confined (si_node s) (concat (cancels <$> ops)) w w'.
Proof.
  revert s w. induction ops as [|op ops IH]; intros s w Hr Hw Hw'.
  - simpl in *. rewrite Hw in Hw'. injection Hw' as <-. apply confined_refl.
  - rewrite fmap_cons. simpl in Hw' |- *.
    assert (Hlive : is_Some (si_world (sim_step op s))).
    { clear -Hw'. revert Hw'. generalize (sim_step op s). induction ops as [|o ops IH]; intros t H; [by eexists|].
      simpl in H. apply IH in H as [w1 H]. by eapply sim_step_live. }
    destruct Hlive as [w1 Hw1]. pose proof (sim_step_confined op s w w1 Hr Hw Hw1) as H1.
    eapply confined_trans; [exact H1|]. rewrite <-(sim_step_node op s).
    eapply IH; [|exact Hw1|exact Hw']. by apply (cf_rng _ _ _ _ H1).
Qed.

(** ** A crash of one node *)

(** What a crash makes of a pending write: it is lost, it lands whole, or it is torn
    and a part of it lands or nothing; never what the settings rule out. *)
Inductive crash_fate (cfg : DiskConfig) : WriteKind -> option WriteKind -> Prop :=
| FateLost w : dc_lost_write_ppm cfg <> 0 -> crash_fate cfg w None
| FateResized len : dc_lost_write_ppm cfg < 1000000 -> crash_fate cfg (WSetLen len) (Some (WSetLen len))
| FateWhole offset bytes : dc_lost_write_ppm cfg < 1000000 -> dc_torn_write_ppm cfg < 1000000 ->
    crash_fate cfg (WData offset bytes) (Some (WData offset bytes))
| FateTorn offset bytes k : dc_lost_write_ppm cfg < 1000000 -> dc_torn_write_ppm cfg <> 0 ->
    (k <= length bytes)%nat ->
    crash_fate cfg (WData offset bytes) (if (0 <? k)%nat then Some (WData offset (take k bytes)) else None).

(** A file after a crash: every pending write had its fate, in their order unless
    the disk reorders, and nothing else is cached. *)
Definition crashed_file (cfg : DiskConfig) (f f' : SimFile) : Prop :=
  exists ws fates, ws ≡ₚ sf_pending f /\ (dc_reorder_unsynced cfg = false -> ws = sf_pending f) /\
    Forall2 (crash_fate cfg) ws fates /\
    sf_durable f' = fold_left apply_write (omap id fates) (sf_durable f) /\
    sf_cache f' = sf_durable f' /\ sf_pending f' = [].

Definition fated (o : option WriteKind) (image : list byte) : list byte :=
  match o with Some w => apply_write image w | None => image end.

Lemma draws_fate cfg w fs :
  draws (resolve_write cfg w fs) (fun fs' => exists o, crash_fate cfg w o /\ fs'.1 = fated o fs.1).
Proof.
  destruct fs as [cur st]. unfold resolve_write. draws_step. draws_step.
  { eapply draws_bind; [apply draws_count|]. intros st' _. draws_step. exists None. split; [|done].
    constructor. intros Hz. discriminate (H Hz). }
  assert (Hl : dc_lost_write_ppm cfg < 1000000) by (apply Z.nle_gt; intros Hge; discriminate (H0 Hge)).
  destruct w as [offset bytes|len]; [|draws_step; exists (Some (WSetLen len)); by repeat constructor].
  draws_step. draws_step.
  2: { draws_step. exists (Some (WData offset bytes)). split; [|done]. constructor; [done|].
       apply Z.nle_gt. intros Hge. by match goal with Hc : 1000000 <= dc_torn_write_ppm _ -> _ |- _ => discriminate (Hc Hge) end. }
  assert (Ht : dc_torn_write_ppm cfg <> 0) by (intros Hz; discriminate (H1 Hz)).
  eapply draws_bind; [apply draws_tear_length|]. intros keep Hk.
  draws_step; (eapply draws_bind; [apply draws_count|]); intros st' _; draws_step; [draws_step; case_match; simplify_eq|];
    (eexists; split; [exact (FateTorn cfg offset bytes keep Hl Ht Hk)|]);
    match goal with Hb : (0 <? _)%nat = _ |- _ => by rewrite Hb end.
Qed.

Lemma draws_fates cfg ws fs :
  draws (fold_draw (resolve_write cfg) ws fs) (fun fs' => exists fates, Forall2 (crash_fate cfg) ws fates /\
    fs'.1 = fold_left apply_write (omap id fates) fs.1).
Proof.
  revert fs. induction ws as [|w ws IH]; intros fs; simpl; [draws_step; by exists []|].
  eapply draws_bind; [apply draws_fate|]. intros fs1 (o & Ho & E). eapply draws_mono; [apply IH|].
  intros fs2 (fates & Hf & E2). exists (o :: fates). split; [by constructor|]. rewrite E2, E. by destruct o.
Qed.

Lemma draws_crashed_file cfg f st : draws (crash_file cfg f st) (fun fs => crashed_file cfg f fs.1).
Proof.
  unfold crash_file.
  eapply (draws_bind _ _ (fun ws => ws ≡ₚ sf_pending f /\ (dc_reorder_unsynced cfg = false -> ws = sf_pending f))).
  { destruct (dc_reorder_unsynced cfg); [apply draws_shuffle; intros l Hl; by split|by draws_step]. }
  intros ws [Hp Ho]. eapply draws_bind; [apply draws_fates|]. intros [img st'] (fates & Hf & E). draws_step.
  by exists ws, fates.
Qed.

(** Every file of the disk has crashed, and nothing else of it changes. *)
Definition crashed_disk (d d' : Disk) : Prop :=
  dk_cfg d' = dk_cfg d /\ dk_next_op d' = dk_next_op d /\
  (forall file f, dk_files d !! file = Some f -> exists f', dk_files d' !! file = Some f' /\ crashed_file (dk_cfg d) f f') /\
  (forall file, dk_files d !! file = None -> dk_files d' !! file = None).

Lemma draws_crashed_disk d : draws (disk_crash d) (crashed_disk d).
Proof.
  unfold disk_crash. eapply draws_bind; [apply draws_disk_count|]. intros d1 [st ->].
  eapply draws_mono; [apply draws_and|].
  - apply (draws_crash_fold (fun _ f f' => crashed_file (dk_cfg d) f f')); [apply by_index_NoDup|].
    intros i f st' _. apply draws_crashed_file.
  - apply (draws_fold _ _ (fun d2 => dk_cfg d2 = dk_cfg d /\ dk_next_op d2 = dk_next_op d)); [done|].
    intros [i f] d2 _ Hd2. unfold crash_step. eapply draws_skip; [eapply draws_true, draws_crashed_file|].
    intros [f' st']. by draws_step.
  - intros d2 [[H1 H2] [Hc Hn]]. split; [done|]. split; [done|]. split.
    + intros file f Hf. by apply H1, by_index_elem.
    + intros file Hf. rewrite H2; [done|]. intros ([i f] & -> & Hin)%list_elem_of_fmap.
      apply by_index_elem in Hin. simpl in *. congruence.
Qed.

(** ** Properties *)

(** C23. A node reaches only what is its own.  Whatever sequence of requests a node
    makes of its [Io], as long as the world does not panic: time, the links, the
    other nodes' disks, every clock, who is up and the incarnations are as before;
    everything queued stays queued, what is added lies in the future and is a
    timer or a completion of that node or a message from it to another; and only
    timers whose handles it gave are cancelled. *)
Theorem node_reaches_only_its_own ops s w w' :
  rng_ok (wd_rng w) -> si_world s = Some w -> si_world (sim_run ops s) = Some w' ->
  confined (si_node s) (concat (cancels <$> ops)) w w'.
Proof. apply sim_run_confined. Qed.

(** C24. A crash is a power loss of one node, and of nothing else.  Its disk keeps its
    files and settings; of each file every pending write is lost, torn or kept, in
    order unless the disk reorders, as far as the settings allow, and what is then
    read is what is durable.  The node is down with a new incarnation, its timers
    and completions are gone from the queue and every other event stays; time, the
    network and its links, every clock, the injector and the other nodes' disks,
    states and incarnations are as before.  The node then neither sends nor
    receives, and its restart brings it up with the disk the crash left. *)
Theorem crash_is_power_loss node w w' :
  rng_ok (wd_rng w) -> is_up node w = Some true -> crash_node node w = Some w' ->
  (exists d d', wd_disks w !! node_idx node = Some d /\ wd_disks w' = <[node_idx node := d']> (wd_disks w) /\
     crashed_disk d d') /\
  wd_up w' = <[node_idx node := false]> (wd_up w) /\
  (exists inc, wd_incarnation w !! node_idx node = Some inc /\
     wd_incarnation w' = <[node_idx node := inc + 1]> (wd_incarnation w)) /\
  (forall e, e ∈ sc_queue (wd_sched w') <->
     e ∈ sc_queue (wd_sched w) /\
     match se_event e with SeTimer n _ | SeStorage n _ _ => n <> node | _ => True end) /\
  sc_now (wd_sched w') = sc_now (wd_sched w) /\ wd_net w' = wd_net w /\ wd_skews w' = wd_skews w /\
  wd_faults w' = wd_faults w /\ wd_seed w' = wd_seed w /\
  (forall to payload, world_send node to payload w' = Some (0%nat, w')) /\
  (forall from, world_accept from node w' = Some (false, w')) /\
  (forall w'', restart_node node w' = Some w'' -> is_up node w'' = Some true /\ wd_disks w'' = wd_disks w').
Proof.
  intros Hr Hup. unfold crash_node. rewrite Hup. simpl.
  destruct (wd_disks w !! node_idx node) as [d|] eqn:Ed; [|done]. simpl.
  destruct (disk_crash d (wd_rng w)) as [[d' r]|] eqn:Ec; [|done]. simpl.
  destruct (wd_incarnation w !! node_idx node) as [inc|] eqn:Ei; [|done]. simpl.
  destruct (u64_add inc 1) as [inc'|] eqn:Einc; [|done]. apply u64_add_Some in Einc as [-> _]. simpl.
  unfold world_observe. destruct (trace_observe _ _ _ _ _) as [t|]; [|done]. intros [= <-].
  apply lookup_lt_Some in Hup as Hlu.
  match goal with |- _ /\ wd_up ?w' = _ /\ _ => set (w1 := w') end.
  assert (Hup1 : is_up node w1 = Some false).
  { unfold is_up. simpl. by rewrite list_lookup_insert_eq. }
  split.
  { exists d, d'. split; [done|]. split; [done|]. by apply draws_crashed_disk in Ec as [? _]. }
  split; [done|]. split; [by exists inc|]. split.
  { intros e. simpl. rewrite !list_elem_of_In, filter_In. f_equiv. unfold survives_crash.
    destruct (se_event e); rewrite ?negb_true_iff, ?Z.eqb_neq; done. }
  do 5 (split; [done|]).
  split; [intros to payload; unfold world_send; by rewrite Hup1|].
  split; [intros from; unfold world_accept; by rewrite Hup1|].
  intros w''. unfold restart_node. rewrite Hup1. simpl. unfold world_observe.
  destruct (trace_observe _ _ _ _ _) as [t'|]; [|done]. intros [= <-]. split; [|done].
  unfold is_up. simpl. rewrite list_insert_insert_eq, list_lookup_insert_eq; done.
Qed.

(** ** Witnesses *)

Definition demo_world : World :=
  default (mkWorld sched_new (rng_new 0) (network_new 0 net_config_default) (trace_new LOff)
    (injector_new fault_config_default) [] [] [] [] 0)
    (world_new (mkWorldConfig 3 5 net_config_default disk_config_default fault_config_default LOff)).
Definition demo_requests : list SimOp :=
  [OpAppend FILE_WAL [x01; x02; x03]; OpSync FILE_WAL; OpSetTimer (10 * MILLIS) 4; OpSend 2 [x07];
   OpCancel 1; OpObserve "vote" [3]].

Lemma demo_world_rng : rng_ok (wd_rng demo_world).
Proof. repeat split; vm_compute; (discriminate || reflexivity). Qed.

Lemma node_reaches_only_its_own_witness :
  exists w', si_world (sim_run demo_requests (mkSimIo (Some demo_world) 1)) = Some w' /\
    confined 1 [1] demo_world w' /\ length (sc_queue (wd_sched w')) = 4%nat.
Proof.
  destruct (si_world (sim_run demo_requests (mkSimIo (Some demo_world) 1))) as [w'|] eqn:E;
    [|vm_compute in E; discriminate E].
  exists w'. split; [reflexivity|]. split.
  - exact (node_reaches_only_its_own demo_requests (mkSimIo (Some demo_world) 1) demo_world w'
      demo_world_rng eq_refl E).
  - vm_compute in E. injection E as <-. reflexivity.
Defined.

Lemma crash_is_power_loss_witness :
  exists w', crash_node 1 demo_world = Some w' /\ is_up 1 w' = Some false /\
    world_accept 0 1 w' = Some (false, w').
Proof.
  destruct (crash_node 1 demo_world) as [w'|] eqn:E; [|vm_compute in E; discriminate E].
  exists w'. split; [reflexivity|].
  destruct (crash_is_power_loss 1 demo_world w' demo_world_rng eq_refl E) as (_ & Hu & _ & _ & _ & _ & _ & _ & _ & _ & Ha & _).
  split; [unfold is_up; rewrite Hu; vm_compute; reflexivity|exact (Ha 0)].
Defined.
