(* ===== verification/Oracle.v ===== *)
(** * Oracle: violations and the report ([checker/lib.rs])

    A violation is its kind, its time and its node; the text rendered for people
    is left out. *)
From Stdlib Require Import String.
From S2P Require Import Prelude LogFormat Io.
Local Open Scope Z_scope.

Record Violation : Type := mkViolation {
  vi_kind : string;
  vi_time : Nanos;
  vi_node : option NodeId;
}.
#[export] Instance Violation_eq_dec : EqDecision Violation.
Proof. solve_decision. Defined.

(** [Report]: at most three of each kind are kept. *)
Definition Report : Type := list Violation.
Definition of_kind (kind : string) (vs : list Violation) : list Violation :=
  List.filter (fun e => (vi_kind e =? kind)%string) vs.
Definition report_add (r : Report) (v : Violation) : Report :=
  if (length (of_kind (vi_kind v) r) <? 3)%nat then r ++ [v] else r.
Definition report_extend (r : Report) (vs : list Violation) : Report := foldl report_add r vs.
Definition report_is_empty (r : Report) : bool := match r with [] => true | _ => false end.
Definition report_signature (r : Report) : option string := vi_kind <$> head r.

(** ** The report is faithful to what was added *)

Lemma of_kind_app k a b : of_kind k (a ++ b) = of_kind k a ++ of_kind k b.
Proof. apply List.filter_app. Qed.

Lemma report_add_of_kind k r v :
  of_kind k r = take 3 (of_kind k r) ->
  of_kind k (report_add r v) = take 3 (of_kind k r ++ of_kind k [v]).
Proof.
  intros Hr. unfold report_add. simpl. destruct (String.eqb_spec (vi_kind v) k) as [<-|Hne].
  - destruct (Nat.ltb_spec (length (of_kind (vi_kind v) r)) 3).
    + rewrite of_kind_app. simpl. rewrite String.eqb_refl. rewrite take_ge; [done|].
      rewrite length_app. simpl. lia.
    + rewrite take_app_le by done. done.
  - rewrite app_nil_r, <-Hr. case_match; [|done]. rewrite of_kind_app. simpl.
    rewrite (proj2 (String.eqb_neq _ _) Hne). by rewrite app_nil_r.
Qed.

(** Of each kind, the first three that were added, in order. *)
Lemma report_extend_of_kind k r vs :
  of_kind k r = take 3 (of_kind k r) ->
  of_kind k (report_extend r vs) = take 3 (of_kind k (r ++ vs)).
Proof.
  revert r. induction vs as [|v vs IH]; intros r Hr; simpl; [by rewrite app_nil_r|].
  unfold report_extend in *. simpl. pose proof (report_add_of_kind k r v Hr) as Ha.
  rewrite IH.
  - rewrite !of_kind_app, Ha. change (v :: vs) with ([v] ++ vs). rewrite of_kind_app, app_assoc.
    set (x := of_kind k r ++ of_kind k [v]). destruct (Nat.le_gt_cases (length x) 3).
    + by rewrite (take_ge x) by done.
    + rewrite !take_app_le by (rewrite ?length_take; lia). by rewrite take_take.
  - rewrite Ha. by rewrite take_take.
Qed.
