(* ===== verification/Persister.v ===== *)
(** * Persister: write, confirm, sync, confirm ([kvstore/raft.rs])

    [Persist], [Batch] and [Persister]: what the node does once a group of
    writes is durable, and the bookkeeping that issues the sync only after
    every write of the group has been confirmed. *)
From S2P Require Import Prelude Codec Crc LogFormat Durable Messages Io.
From Stdlib.Init Require Import Byte.

Inductive Persist : Type :=
| PCampaign (term : Z)
| PVoteReply (to : NodeId) (term : Z) (granted : bool)
| PLogDurable (from index verified : Z) (reply_to : option NodeId) (reply_term : Z)
| PReply (to : NodeId) (msg : RaftMsg)
| PSnapshotTaken (index term : Z) (file : FileId)
| PSnapshotInstalled (index term : Z) (data : list byte) (file : FileId)
    (reply_to : NodeId) (reply_term : Z)
| PQuiet.

Definition persist_clamp (cap : Z) (p : Persist) : Persist :=
  match p with
  | PLogDurable from index verified reply_to reply_term =>
      PLogDurable from (Z.min index cap) verified reply_to reply_term
  | p => p
  end.

Inductive OpKind : Type := OpWrite | OpSync.

Record Batch : Type := mkBatch {
  b_id : Z;
  b_file : FileId;
  b_writes_outstanding : nat;
  b_sync_issued : bool;
  b_action : Persist;
  b_hard : option HardState;
}.

Record Persister : Type := mkPersister {
  p_next_id : Z;
  p_batches : list Batch;
  p_ops : PendingOps (Z * OpKind);
}.

Definition persister_default : Persister := mkPersister 0 [] [].

Inductive BatchEvent : Type :=
| BeNothing
| BeNeedSync (id : Z) (file : FileId)
| BeDone (action : Persist) (hard : option HardState)
| BeFailed.

Definition persister_start (action : Persist) (p : Persister) : option (Z * Persister) :=
  id ← u64_add (p_next_id p) 1;
  Some (id, mkPersister id (p_batches p ++ [mkBatch id FILE_WAL 0 false action None]) (p_ops p)).

(** Change the first batch with this id, as [Persister::batch] lends it out. *)
Fixpoint batch_update (id : Z) (f : Batch -> Batch) (bs : list Batch) : list Batch :=
  match bs with
  | [] => []
  | b :: bs => if b_id b =? id then f b :: bs else b :: batch_update id f bs
  end.

Definition persister_batch (id : Z) (p : Persister) : option Batch :=
  List.find (fun b => b_id b =? id) (p_batches p).

Definition with_batch (id : Z) (f : Batch -> Batch) (p : Persister) : Persister :=
  mkPersister (p_next_id p) (batch_update id f (p_batches p)) (p_ops p).

Definition with_op (op : OpId) (id : Z) (k : OpKind) (p : Persister) : Persister :=
  mkPersister (p_next_id p) (p_batches p) (pending_insert op (id, k) (p_ops p)).

Definition persister_note_write (id : Z) (op : OpId) (p : Persister) : Persister :=
  with_op op id OpWrite
    (with_batch id (fun b => mkBatch (b_id b) (b_file b) (S (b_writes_outstanding b))
                               (b_sync_issued b) (b_action b) (b_hard b)) p).

Definition persister_note_file (id : Z) (file : FileId) (p : Persister) : Persister :=
  with_batch id (fun b => mkBatch (b_id b) file (b_writes_outstanding b)
                            (b_sync_issued b) (b_action b) (b_hard b)) p.

Definition persister_note_hard_state (id : Z) (hs : HardState) (p : Persister) : Persister :=
  with_batch id (fun b => mkBatch (b_id b) (b_file b) (b_writes_outstanding b)
                            (b_sync_issued b) (b_action b) (Some hs)) p.

Definition persister_note_sync (id : Z) (op : OpId) (p : Persister) : Persister :=
  with_op op id OpSync
    (with_batch id (fun b => mkBatch (b_id b) (b_file b) (b_writes_outstanding b)
                               true (b_action b) (b_hard b)) p).

(** Remove the first batch with this id. *)
Fixpoint batch_remove (id : Z) (bs : list Batch) : option (Batch * list Batch) :=
  match bs with
  | [] => None
  | b :: bs =>
      if b_id b =? id then Some (b, bs)
      else match batch_remove id bs with
           | Some (x, bs') => Some (x, b :: bs')
           | None => None
           end
  end.

(** [None]: [writes_outstanding] would go below zero. *)
Definition persister_on_complete (op : OpId) (ok : bool) (p : Persister)
  : option (BatchEvent * Persister) :=
  match pending_take op (p_ops p) with
  | None => Some (BeNothing, p)
  | Some ((id, kind), ops) =>
      let p := mkPersister (p_next_id p) (p_batches p) ops in
      if negb ok then
        Some (BeFailed, mkPersister (p_next_id p)
                          (List.filter (fun b => negb (b_id b =? id)) (p_batches p)) ops)
      else
        match kind with
        | OpWrite =>
            match persister_batch id p with
            | None => Some (BeNothing, p)
            | Some b =>
                match b_writes_outstanding b with
                | O => None
                | S n =>
                    let p := with_batch id (fun b =>
                               mkBatch (b_id b) (b_file b) n (b_sync_issued b)
                                 (b_action b) (b_hard b)) p in
                    if (n =? 0)%nat && negb (b_sync_issued b)
                    then Some (BeNeedSync id (b_file b), p)
                    else Some (BeNothing, p)
                end
            end
        | OpSync =>
            match batch_remove id (p_batches p) with
            | None => Some (BeNothing, p)
            | Some (b, bs) =>
                Some (BeDone (b_action b) (b_hard b), mkPersister (p_next_id p) bs ops)
            end
        end
  end.

Definition persister_clamp_all (cap : Z) (p : Persister) : Persister :=
  mkPersister (p_next_id p)
    (map (fun b => mkBatch (b_id b) (b_file b) (b_writes_outstanding b) (b_sync_issued b)
                     (persist_clamp cap (b_action b)) (b_hard b)) (p_batches p))
    (p_ops p).

Definition persister_in_flight (p : Persister) : nat := length (p_batches p).

(** ** The protocol as a step relation

    What a node does with its persister, as a history, newest event first:
    writes noted, writes confirmed or failed, syncs requested.  Writes are
    noted before the batch's sync is requested, a sync is requested when
    [on_complete] asks for it, and operation ids are never reused. *)

Inductive PEvent : Type :=
| PeWrite (id : Z) (op : OpId)
| PeSync (id : Z) (op : OpId)
| PeConfirm (op : OpId)
| PeFail (op : OpId).

Definition pe_unused (op : OpId) (h : list PEvent) : Prop :=
  forall id, (PeWrite id op ∉ h) /\ (PeSync id op ∉ h).

Inductive persister_run : Persister -> list PEvent -> Prop :=
| run_init : persister_run persister_default []
| run_start p h action id p' :
    persister_run p h -> persister_start action p = Some (id, p') -> persister_run p' h
| run_note_write p h id op b :
    persister_run p h -> persister_batch id p = Some b -> b_sync_issued b = false ->
    pe_unused op h -> persister_run (persister_note_write id op p) (PeWrite id op :: h)
| run_note_file p h id file :
    persister_run p h -> persister_run (persister_note_file id file p) h
| run_note_hard_state p h id hs :
    persister_run p h -> persister_run (persister_note_hard_state id hs p) h
| run_clamp p h cap :
    persister_run p h -> persister_run (persister_clamp_all cap p) h
| run_confirm p h op ev p' :
    persister_run p h -> persister_on_complete op true p = Some (ev, p') ->
    (forall id file, ev <> BeNeedSync id file) -> persister_run p' (PeConfirm op :: h)
| run_confirm_sync p h op id file p' op' :
    persister_run p h -> persister_on_complete op true p = Some (BeNeedSync id file, p') ->
    pe_unused op' (PeConfirm op :: h) ->
    persister_run (persister_note_sync id op' p') (PeSync id op' :: PeConfirm op :: h)
| run_fail p h op ev p' :
    persister_run p h -> persister_on_complete op false p = Some (ev, p') ->
    persister_run p' (PeFail op :: h).

(** Writes of batch [id] still to be confirmed. *)
Definition pending_writes (id : Z) (ops : PendingOps (Z * OpKind)) : nat :=
  length (List.filter (fun q => match q.2 with (i, OpWrite) => i =? id | _ => false end) ops).

Record persister_wf (p : Persister) (h : list PEvent) : Prop := {
  pwf_ids : NoDup (b_id <$> p_batches p);
  pwf_id_bound : forall b, b ∈ p_batches p -> b_id b <= p_next_id p;
  pwf_op_write : forall op id, (op, (id, OpWrite)) ∈ p_ops p -> PeWrite id op ∈ h;
  pwf_op_sync : forall op id, (op, (id, OpSync)) ∈ p_ops p -> PeSync id op ∈ h;
  pwf_write_bound : forall id op, PeWrite id op ∈ h -> id <= p_next_id p;
  pwf_sync_bound : forall id op, PeSync id op ∈ h -> id <= p_next_id p;
  pwf_outstanding : forall b, b ∈ p_batches p ->
    b_writes_outstanding b = pending_writes (b_id b) (p_ops p);
  pwf_written : forall b op, b ∈ p_batches p -> PeWrite (b_id b) op ∈ h ->
    (op, (b_id b, OpWrite)) ∈ p_ops p \/ PeConfirm op ∈ h;
  pwf_synced : forall b op, b ∈ p_batches p -> (op, (b_id b, OpSync)) ∈ p_ops p ->
    b_sync_issued b = true /\
    exists h1 h2, h = h1 ++ PeSync (b_id b) op :: h2 /\
      forall w, PeWrite (b_id b) w ∈ h -> PeConfirm w ∈ h2;
}.

(** ** Lemmas *)

Lemma batch_update_map id f bs :
  NoDup (b_id <$> bs) ->
  batch_update id f bs = map (fun b => if b_id b =? id then f b else b) bs.
Proof.
  induction bs as [|b bs IH]; [done|]. cbn [batch_update map fmap list_fmap].
  intros [Hb Hnd]%NoDup_cons. case_match eqn:E; f_equal; [|by apply IH].
  apply Z.eqb_eq in E as <-. clear -Hb. induction bs as [|c bs IH]; [done|].
  cbn [map]. rewrite fmap_cons in Hb.
  rewrite (proj2 (Z.eqb_neq _ _)) by (intros Heq; apply Hb; rewrite Heq; left).
  f_equal. apply IH. set_solver.
Qed.

Lemma persister_batch_Some id p b :
  persister_batch id p = Some b -> b ∈ p_batches p /\ b_id b = id.
Proof.
  intros [Hin He]%List.find_some; split; [by apply list_elem_of_In|by apply Z.eqb_eq].
Qed.

Lemma batch_remove_elem id bs b bs' :
  batch_remove id bs = Some (b, bs') -> exists l k, bs = l ++ b :: k /\ bs' = l ++ k /\ b_id b = id.
Proof.
  revert bs'; induction bs as [|c bs IH]; intros bs'; simpl; [done|].
  case_match eqn:E; [intros [= -> ->]; exists [], bs'; repeat split; by apply Z.eqb_eq|].
  destruct (batch_remove id bs) as [[x l]|]; [|done]. intros [= -> <-].
  destruct (IH l eq_refl) as (l1 & k & -> & -> & ?). by exists (c :: l1), k.
Qed.

Lemma pending_writes_app id l k :
  pending_writes id (l ++ k) = (pending_writes id l + pending_writes id k)%nat.
Proof. unfold pending_writes. by rewrite List.filter_app, length_app. Qed.

Lemma pending_writes_zero id ops :
  pending_writes id ops = 0%nat -> forall op, (op, (id, OpWrite)) ∉ ops.
Proof.
  unfold pending_writes. intros Hz%nil_length_inv op Hin.
  assert (Hf : In (op, (id, OpWrite)) (List.filter
    (fun q => match q.2 with (i, OpWrite) => i =? id | _ => false end) ops)).
  { apply filter_In. split; [by apply list_elem_of_In|]. simpl. apply Z.eqb_refl. }
  by rewrite Hz in Hf.
Qed.

(** The invariant reads a batch only through these three fields. *)
Lemma persister_wf_batches p h bs :
  persister_wf p h -> NoDup (b_id <$> bs) ->
  (forall b, b ∈ bs -> exists b0, b0 ∈ p_batches p /\ b_id b = b_id b0 /\
     b_writes_outstanding b = b_writes_outstanding b0 /\ b_sync_issued b = b_sync_issued b0) ->
  persister_wf (mkPersister (p_next_id p) bs (p_ops p)) h.
Proof.
  intros [] Hnd Hb. split; simpl; try done.
  - intros b (b0 & ? & -> & _)%Hb. auto.
  - intros b (b0 & ? & -> & -> & _)%Hb. auto.
  - intros b op (b0 & ? & -> & _)%Hb. auto.
  - intros b op (b0 & ? & -> & _ & ->)%Hb. auto.
Qed.

Lemma batch_update_ids id f bs :
  (forall b, b_id (f b) = b_id b) -> b_id <$> batch_update id f bs = b_id <$> bs.
Proof.
  intros Hf. induction bs as [|b bs IH]; [done|]. cbn [batch_update].
  case_match; rewrite !fmap_cons; [by rewrite Hf|by rewrite IH].
Qed.

Lemma elem_of_batch_update id f bs b :
  NoDup (b_id <$> bs) -> b ∈ batch_update id f bs ->
  exists b0, b0 ∈ bs /\ b = if b_id b0 =? id then f b0 else b0.
Proof.
  intros Hnd. rewrite batch_update_map by done. intros Hin%list_elem_of_In.
  apply in_map_iff in Hin as (b0 & <- & ?). exists b0. split; [by apply list_elem_of_In|done].
Qed.

Lemma persister_wf_with_batch p h id f :
  persister_wf p h ->
  (forall b, b_id (f b) = b_id b /\ b_writes_outstanding (f b) = b_writes_outstanding b /\
     b_sync_issued (f b) = b_sync_issued b) ->
  persister_wf (with_batch id f p) h.
Proof.
  intros Hwf Hf. apply persister_wf_batches; [done| |].
  - rewrite batch_update_ids by apply Hf. apply Hwf.
  - intros b Hin. apply elem_of_batch_update in Hin as (b0 & ? & ->); [|apply Hwf].
    exists b0. case_match; [|done]. split; [done|apply Hf].
Qed.

Lemma batch_unique p h b b' :
  persister_wf p h -> b ∈ p_batches p -> b' ∈ p_batches p -> b_id b = b_id b' -> b = b'.
Proof.
  intros Hwf [i Hi]%list_elem_of_lookup [j Hj]%list_elem_of_lookup He.
  assert (i = j) as ->; [|congruence].
  eapply (NoDup_lookup (b_id <$> p_batches p)); [apply Hwf| |].
  - by rewrite list_lookup_fmap, Hi.
  - by rewrite list_lookup_fmap, Hj, He.
Qed.

Lemma pending_writes_none id ops :
  (forall op, (op, (id, OpWrite)) ∉ ops) -> pending_writes id ops = 0%nat.
Proof.
  induction ops as [|[op [i k]] ops IH]; intros Hn; [done|].
  change (pending_writes id ((op, (i, k)) :: ops))
    with (pending_writes id ([(op, (i, k))] ++ ops)).
  rewrite pending_writes_app, IH by (intros op' Hin; apply (Hn op'); by right).
  unfold pending_writes. simpl. destruct k; [|done].
  destruct (Z.eqb_spec i id) as [->|]; [|done]. destruct (Hn op). left.
Qed.

(** Completing an operation keeps the invariant, whatever batches stay. *)
Lemma persister_wf_drop_op p h op id kind l k bs ev :
  persister_wf p h -> p_ops p = l ++ (op, (id, kind)) :: k ->
  NoDup (b_id <$> bs) ->
  (forall b, b ∈ bs -> exists b0, b0 ∈ p_batches p /\ b_id b = b_id b0 /\
     b_sync_issued b = b_sync_issued b0 /\
     b_writes_outstanding b = pending_writes (b_id b) (l ++ k)) ->
  ev = PeConfirm op \/ (ev = PeFail op /\ forall b, b ∈ bs -> b_id b <> id) ->
  persister_wf (mkPersister (p_next_id p) bs (l ++ k)) (ev :: h).
Proof.
  intros [Hids Hidb How Hos Hwb Hsb Hout Hwr Hsy] Hops Hnd Hbs Hev.
  assert (Hsub : forall q, q ∈ l ++ k -> q ∈ p_ops p) by (rewrite Hops; set_solver).
  assert (Hpe : forall i o, PeWrite i o ∈ ev :: h -> PeWrite i o ∈ h)
    by (intros i o; destruct Hev as [->|[-> _]]; set_solver).
  assert (Hpe' : forall i o, PeSync i o ∈ ev :: h -> PeSync i o ∈ h)
    by (intros i o; destruct Hev as [->|[-> _]]; set_solver).
  split; simpl; try done.
  - intros b (b0 & ? & -> & _)%Hbs. auto.
  - intros o i Hin. right. eapply How, Hsub, Hin.
  - intros o i Hin. right. eapply Hos, Hsub, Hin.
  - eauto.
  - eauto.
  - intros b (b0 & _ & _ & _ & ->)%Hbs. done.
  - intros b o Hb Hw%Hpe. destruct (Hbs b Hb) as (b0 & Hb0 & He & _). rewrite He in *.
    destruct (Hwr b0 o Hb0 Hw) as [Hin|]; [|by right; right].
    rewrite Hops in Hin. destruct Hev as [->|[-> Hne]].
    + destruct (decide (o = op)) as [->|]; [right; left|left; set_solver].
    + specialize (Hne b Hb). rewrite He in Hne. left. set_solver.
  - intros b o Hb Hin. destruct (Hbs b Hb) as (b0 & Hb0 & He & -> & _). rewrite He in *.
    destruct (Hsy b0 o Hb0 (Hsub _ Hin)) as (Hs & h1 & h2 & -> & Hall).
    split; [done|]. exists (ev :: h1), h2. split; [done|]. intros w Hw%Hpe. auto.
Qed.

(** A completion nobody waits for. *)
Lemma persister_wf_foreign p h op ok :
  persister_wf p h -> persister_wf p ((if ok : bool then PeConfirm op else PeFail op) :: h).
Proof.
  intros [Hids Hidb How Hos Hwb Hsb Hout Hwr Hsy]. split; try done.
  - intros; right; eauto.
  - intros; right; eauto.
  - intros i o Hin. apply (Hwb i o). destruct ok; set_solver.
  - intros i o Hin. apply (Hsb i o). destruct ok; set_solver.
  - intros b o Hb Hin. destruct (Hwr b o Hb) as [|]; [destruct ok; set_solver|by left|].
    right; by right.
  - intros b o Hb Hin. destruct (Hsy b o Hb Hin) as (Hs & h1 & h2 & -> & Hall).
    split; [done|]. eexists (_ :: h1), h2. split; [done|]. intros w Hw. apply Hall.
    destruct ok; set_solver.
Qed.
(** One of two or more writes of its batch was confirmed. *)
Lemma persister_wf_confirmed p h op id l k b n :
  persister_wf p h -> p_ops p = l ++ (op, (id, OpWrite)) :: k -> b ∈ p_batches p -> b_id b = id ->
  b_writes_outstanding b = S n ->
  (forall c, c ∈ p_batches p -> (OpWrite = OpWrite -> b_id c <> id) ->
    exists b0, b0 ∈ p_batches p /\ b_id c = b_id b0 /\ b_sync_issued c = b_sync_issued b0 /\
      b_writes_outstanding c = pending_writes (b_id c) (l ++ k)) ->
  persister_wf (with_batch id (fun b => mkBatch (b_id b) (b_file b) n (b_sync_issued b) (b_action b) (b_hard b))
    (mkPersister (p_next_id p) (p_batches p) (l ++ k))) (PeConfirm op :: h).
Proof.
  intros Hwf Hops Hb Hbid En Hkeep. assert (Hn : pending_writes id (l ++ k) = n).
  { pose proof (pwf_outstanding _ _ Hwf b Hb) as Ho. rewrite En, Hbid, Hops in Ho.
    rewrite pending_writes_app in Ho |- *. unfold pending_writes in Ho |- *. simpl in Ho.
    rewrite Z.eqb_refl in Ho. simpl in Ho. lia. }
  apply (persister_wf_drop_op p h op id OpWrite l k); [done|done| | |by left].
  - rewrite batch_update_ids by done. apply Hwf.
  - intros c Hc. apply elem_of_batch_update in Hc as (c0 & Hc0 & ->); [|apply Hwf].
    case_match eqn:Ei; [|by apply Hkeep; [done|intros _; by apply Z.eqb_neq]].
    apply Z.eqb_eq in Ei. exists c0. simpl. by rewrite Ei, Hn.
Qed.

Lemma persister_on_complete_wf p h op ok ev p' :
  persister_wf p h -> persister_on_complete op ok p = Some (ev, p') ->
  persister_wf p' ((if ok then PeConfirm op else PeFail op) :: h).
Proof.
  intros Hwf. unfold persister_on_complete.
  destruct (pending_take op (p_ops p)) as [[[id kind] ops]|] eqn:Et; simpl.
  2: { intros [= <- <-]. by apply persister_wf_foreign. }
  apply pending_take_elem in Et as (l & k & Hops & -> & _).
  assert (Hcount : forall i, (kind = OpWrite -> i <> id) ->
    pending_writes i (p_ops p) = pending_writes i (l ++ k)).
  { intros i Hi. rewrite Hops, !pending_writes_app. f_equal.
    unfold pending_writes. simpl. destruct kind; [|done].
    rewrite (proj2 (Z.eqb_neq id i)); [done|]. intros ->. by apply Hi. }
  assert (Hkeep : forall b, b ∈ p_batches p -> (kind = OpWrite -> b_id b <> id) ->
    exists b0, b0 ∈ p_batches p /\ b_id b = b_id b0 /\ b_sync_issued b = b_sync_issued b0 /\
      b_writes_outstanding b = pending_writes (b_id b) (l ++ k)).
  { intros b Hb Hne. exists b. repeat split; try done.
    by rewrite <- Hcount, (pwf_outstanding _ _ Hwf). }
  destruct ok; simpl.
  2: { intros [= <- <-]. apply (persister_wf_drop_op p h op id kind l k); [done|done| | |].
       - apply NoDup_fmap_filter, Hwf.
       - intros b [Hb Hne]%list_elem_of_In%filter_In. apply Hkeep; [by apply list_elem_of_In|].
         intros _. by apply negb_true_iff, Z.eqb_neq in Hne.
       - right. split; [done|]. intros b [_ Hne]%list_elem_of_In%filter_In.
         by apply negb_true_iff, Z.eqb_neq in Hne. }
  destruct kind.
  - destruct (persister_batch id _) as [b|] eqn:Eb.
    2: { intros [= <- <-].
         apply (persister_wf_drop_op p h op id OpWrite l k); [done|done|apply Hwf| |by left].
         intros b Hb. apply Hkeep; [done|]. intros _ He.
         pose proof (List.find_none _ _ Eb b (proj1 (list_elem_of_In _ _) Hb)) as Hf.
         simpl in Hf. by rewrite He, Z.eqb_refl in Hf. }
    apply persister_batch_Some in Eb as [Hb Hbid]. simpl in Hb.
    destruct (b_writes_outstanding b) as [|n] eqn:En; [done|].
    pose proof (persister_wf_confirmed p h op id l k b n Hwf Hops Hb Hbid En Hkeep) as Hgoal.
    case_match; by intros [= <- <-].
  - destruct (batch_remove id (p_batches p)) as [[b bs]|] eqn:Er; simpl; intros [= <- <-].
    + apply batch_remove_elem in Er as (l1 & k1 & Hbs & -> & Hid).
      apply (persister_wf_drop_op p h op id OpSync l _); [done|done| | |by left].
      * pose proof (pwf_ids _ _ Hwf) as Hnd. rewrite Hbs in Hnd.
        rewrite fmap_app in Hnd |- *. rewrite fmap_cons in Hnd. apply NoDup_app in Hnd as (? & Hd & Hc).
        apply NoDup_cons in Hc as [? ?]. apply NoDup_app. split_and?; [done| |done]. set_solver.
      * intros c Hc. apply Hkeep; [rewrite Hbs; set_solver|done].
    + apply (persister_wf_drop_op p h op id OpSync l k); [done|done|apply Hwf| |by left].
      intros b Hb. by apply Hkeep.
Qed.

Lemma persister_wf_start p h action :
  persister_wf p h ->
  persister_wf (mkPersister (p_next_id p + 1)
    (p_batches p ++ [mkBatch (p_next_id p + 1) FILE_WAL 0 false action None]) (p_ops p)) h.
Proof.
  intros [Hids Hidb How Hos Hwb Hsb Hout Hwr Hsy].
  assert (Hnew : forall op, PeWrite (p_next_id p + 1) op ∉ h)
    by (intros op Hin%Hwb; lia).
  split; simpl; try done.
  - rewrite fmap_app. apply NoDup_app. split_and?; [done| |apply NoDup_singleton].
    intros i (b & -> & Hb)%list_elem_of_fmap Hi%list_elem_of_singleton. simpl in Hi.
    apply Hidb in Hb. lia.
  - intros b [Hb| ->%list_elem_of_singleton]%elem_of_app; simpl; [apply Hidb in Hb; lia|lia].
  - intros i op Hin%Hwb. lia.
  - intros i op Hin%Hsb. lia.
  - intros b [Hb| ->%list_elem_of_singleton]%elem_of_app; simpl; [by apply Hout|].
    symmetry. apply pending_writes_none. intros op Hin%How. by destruct (Hnew op).
  - intros b op [Hb| ->%list_elem_of_singleton]%elem_of_app; simpl; [by apply Hwr|].
    by intros ?%Hnew.
  - intros b op [Hb| ->%list_elem_of_singleton]%elem_of_app; simpl; [by apply Hsy|].
    intros Hin%Hos%Hsb. lia.
Qed.

Lemma persister_wf_note_write p h id op b :
  persister_wf p h -> b ∈ p_batches p -> b_id b = id -> b_sync_issued b = false ->
  persister_wf (persister_note_write id op p) (PeWrite id op :: h).
Proof.
  intros Hwf Hb Hid Hsi. pose proof Hwf as [Hids Hidb How Hos Hwb Hsb Hout Hwr Hsy].
  assert (Hupd : forall c, c ∈ p_batches (persister_note_write id op p) ->
    exists c0, c0 ∈ p_batches p /\ b_id c = b_id c0 /\ b_sync_issued c = b_sync_issued c0 /\
           b_writes_outstanding c
      = ((if (b_id c0 =? id)%Z then 1 else 0) + b_writes_outstanding c0)%nat).
  { intros c Hc. apply elem_of_batch_update in Hc as (c0 & Hc0 & ->); [|done].
    exists c0. split; [done|]. by destruct (b_id c0 =? id). }
  assert (Hops : p_ops (persister_note_write id op p) = p_ops p ++ [(op, (id, OpWrite))]) by done.
  split.
  - simpl. by rewrite batch_update_ids.
  - intros c (c0 & ? & -> & _)%Hupd. by apply Hidb.
  - intros o i. rewrite Hops. intros [?%How|Hin%list_elem_of_singleton]%elem_of_app; [by right|].
    simplify_eq. left.
  - intros o i. rewrite Hops. intros [?%Hos|Hin%list_elem_of_singleton]%elem_of_app; [by right|].
    simplify_eq.
  - intros i o [?|?%Hwb]%elem_of_cons; [simplify_eq; by apply Hidb|done].
  - intros i o [?|?%Hsb]%elem_of_cons; [done|done].
  - intros c (c0 & Hc0 & -> & _ & ->)%Hupd. rewrite Hops, pending_writes_app, (Hout c0 Hc0).
    unfold pending_writes at 3. simpl. rewrite (Z.eqb_sym id). case_match; simpl; lia.
  - intros c o (c0 & Hc0 & -> & _)%Hupd. rewrite Hops. intros [?|Hin]%elem_of_cons.
    + left. apply elem_of_app. right. apply list_elem_of_singleton. congruence.
    + destruct (Hwr _ _ Hc0 Hin); [left; set_solver|right; by right].
  - intros c o (c0 & Hc0 & -> & -> & _)%Hupd. rewrite Hops.
    intros [Hin|?%list_elem_of_singleton]%elem_of_app; [|simplify_eq].
    destruct (Hsy _ _ Hc0 Hin) as (Hs & h1 & h2 & -> & Hall). split; [done|].
    exists (PeWrite id op :: h1), h2. split; [done|].
    intros w [Heq|Hw]%elem_of_cons; [|by apply Hall].
    assert (b = c0) as -> by (eapply batch_unique; [done..|congruence]). congruence.
Qed.

(** A sync is asked for when the last write of the batch is confirmed. *)
Lemma persister_need_sync p op id file p' :
  persister_on_complete op true p = Some (BeNeedSync id file, p') ->
  exists b, b ∈ p_batches p' /\ b_id b = id /\ b_writes_outstanding b = 0%nat /\
       b_file b = file /\ b_sync_issued b = false.
Proof.
  unfold persister_on_complete.
  destruct (pending_take op (p_ops p)) as [[[i kind] ops]|]; [|done]. simpl.
  destruct kind; [|by destruct (batch_remove i (p_batches p)) as [[]|]].
  destruct (persister_batch i _) as [b|] eqn:Eb; [|done].
  destruct (b_writes_outstanding b) as [|n] eqn:En; [done|].
  case_match eqn:Ec; [|done]. intros [= -> <- <-].
  apply andb_true_iff in Ec as [->%Nat.eqb_eq Hs%negb_true_iff].
  simpl. unfold persister_batch in Eb. simpl in Eb. clear -Eb Hs.
  induction (p_batches p) as [|c bs IH]; [done|]. simpl in Eb |- *.
  destruct (b_id c =? id) eqn:Ei; [|destruct (IH Eb) as (b' & ? & ?); exists b'; set_solver].
  injection Eb as ->. eexists. split; [left|]. simpl. apply Z.eqb_eq in Ei. done.
Qed.

Lemma persister_wf_note_sync p h id op b :
  persister_wf p h -> b ∈ p_batches p -> b_id b = id -> b_writes_outstanding b = 0%nat ->
  persister_wf (persister_note_sync id op p) (PeSync id op :: h).
Proof.
  intros Hwf Hb Hid Hz. pose proof Hwf as [Hids Hidb How Hos Hwb Hsb Hout Hwr Hsy].
  assert (Hupd : forall c, c ∈ p_batches (persister_note_sync id op p) ->
    exists c0, c0 ∈ p_batches p /\ b_id c = b_id c0 /\
      b_sync_issued c = ((b_id c0 =? id) || b_sync_issued c0)%bool /\
           b_writes_outstanding c = b_writes_outstanding c0).
  { intros c Hc. apply elem_of_batch_update in Hc as (c0 & Hc0 & ->); [|done].
    exists c0. split; [done|]. by destruct (b_id c0 =? id). }
  assert (Hops : p_ops (persister_note_sync id op p) = p_ops p ++ [(op, (id, OpSync))]) by done.
  assert (Hall : forall w, PeWrite id w ∈ h -> PeConfirm w ∈ h).
  { intros w Hw. subst id. destruct (Hwr b w Hb Hw) as [Hin|]; [|done].
    rewrite (Hout b Hb) in Hz. by apply pending_writes_zero with (op := w) in Hz. }
  split.
  - simpl. by rewrite batch_update_ids.
  - intros c (c0 & ? & -> & _)%Hupd. by apply Hidb.
  - intros o i. rewrite Hops. intros [?%How|Hin%list_elem_of_singleton]%elem_of_app; [by right|].
    simplify_eq.
  - intros o i. rewrite Hops. intros [?%Hos|Hin%list_elem_of_singleton]%elem_of_app; [by right|].
    simplify_eq. left.
  - intros i o [?|?%Hwb]%elem_of_cons; done.
  - intros i o [?|?%Hsb]%elem_of_cons; [simplify_eq; by apply Hidb|done].
  - intros c (c0 & Hc0 & -> & _ & ->)%Hupd. rewrite Hops, pending_writes_app, (Hout c0 Hc0).
    unfold pending_writes at 3. simpl. lia.
  - intros c o (c0 & Hc0 & -> & _)%Hupd. rewrite Hops. intros [?|Hin]%elem_of_cons; [done|].
    destruct (Hwr _ _ Hc0 Hin); [left; set_solver|right; by right].
  - intros c o (c0 & Hc0 & -> & -> & _)%Hupd. rewrite Hops.
    intros [Hin|Hin%list_elem_of_singleton]%elem_of_app.
    + destruct (Hsy _ _ Hc0 Hin) as (-> & h1 & h2 & -> & Hall'). split; [by rewrite orb_true_r|].
      exists (PeSync id op :: h1), h2. split; [done|]. set_solver.
    + injection Hin as <- Hi. rewrite Hi, Z.eqb_refl. split; [done|]. exists [], h.
      split; [done|]. intros w [?|Hw]%elem_of_cons; [done|]. auto.
Qed.

Lemma persister_run_wf p h : persister_run p h -> persister_wf p h.
Proof.
  induction 1 as [|p h action id p' _ Hwf Hs|p h id op b _ Hwf Hb Hsi Hfr|p h id file _ Hwf
    |p h id hs _ Hwf|p h cap _ Hwf|p h op ev p' _ Hwf Hc _|p h op id file p' op' _ Hwf Hc Hfr
    |p h op ev p' _ Hwf Hc].
  - split; simpl; try set_solver. apply NoDup_nil_2.
  - unfold persister_start in Hs.
    destruct (u64_add (p_next_id p) 1) as [i|] eqn:Ei; [|done]. simpl in Hs.
    apply u64_add_Some in Ei as [-> _]. injection Hs as <- <-. by apply persister_wf_start.
  - apply persister_batch_Some in Hb as [Hin Hid]. eapply persister_wf_note_write; eauto.
  - by apply persister_wf_with_batch.
  - by apply persister_wf_with_batch.
  - apply persister_wf_batches; [done| |].
    + rewrite <- list_fmap_compose. apply Hwf.
    + intros b (b0 & -> & ?)%list_elem_of_fmap. by exists b0.
  - by apply (persister_on_complete_wf p h op true ev).
  - pose proof (persister_on_complete_wf _ _ _ _ _ _ Hwf Hc) as Hwf'. simpl in Hwf'.
    apply persister_need_sync in Hc as (b & Hb & Hid & Hout & _).
    by apply (persister_wf_note_sync p' _ id op' b).
  - by apply (persister_on_complete_wf p h op false ev).
Qed.

(** ** Properties *)

(** C7. When a batch's action is released, every write noted for that batch had
    been confirmed before the sync was requested whose completion releases it:
    nothing is answered for data that was not written and then synced. *)
Theorem persister_sync_covers_writes (p : Persister) (h : list PEvent) (op : OpId)
    (action : Persist) (hard : option HardState) (p' : Persister) :
  persister_run p h -> persister_on_complete op true p = Some (BeDone action hard, p') ->
  exists id h1 h2, h = h1 ++ PeSync id op :: h2 /\
       (exists b, b ∈ p_batches p /\ b_id b = id /\ b_action b = action /\ b_hard b = hard) /\
       forall w, PeWrite id w ∈ h -> PeConfirm w ∈ h2.
Proof.
  intros Hwf%persister_run_wf. unfold persister_on_complete.
  destruct (pending_take op (p_ops p)) as [[[id kind] ops]|] eqn:Et; [|done]. simpl.
  apply pending_take_elem in Et as (l & k & Hops & -> & _).
  destruct kind.
  { destruct (persister_batch id _) as [b|]; [|done].
    destruct (b_writes_outstanding b); [done|]. by case_match. }
  destruct (batch_remove id (p_batches p)) as [[b bs]|] eqn:Er; [|done]. intros [= <- <- <-].
  apply batch_remove_elem in Er as (l1 & k1 & Hbs & -> & Hid).
  assert (Hb : b ∈ p_batches p) by (rewrite Hbs; set_solver).
  destruct (pwf_synced _ _ Hwf b op) as (_ & h1 & h2 & -> & Hall); [done|rewrite Hops, Hid; set_solver|].
  exists id, h1, h2. rewrite Hid in *. repeat split; [by exists b|done].
Qed.

(** Completions never drive a batch's count of outstanding writes below
    zero: in every reachable state every completion, of a known operation or
    not, is handled. *)
Theorem persister_on_complete_total (p : Persister) (h : list PEvent) (op : OpId) (ok : bool) :
  persister_run p h -> is_Some (persister_on_complete op ok p).
Proof.
  intros Hwf%persister_run_wf. unfold persister_on_complete.
  destruct (pending_take op (p_ops p)) as [[[id kind] ops]|] eqn:Et; [|done]. simpl.
  apply pending_take_elem in Et as (l & k & Hops & -> & _).
  destruct ok; [|done]. simpl. destruct kind; [|by destruct (batch_remove _ _) as [[]|]].
  destruct (persister_batch id _) as [b|] eqn:Eb; [|done].
  apply persister_batch_Some in Eb as [Hb Hid]. simpl in Hb.
  destruct (b_writes_outstanding b) eqn:En; [|by case_match].
  rewrite (pwf_outstanding _ _ Hwf b Hb), Hid in En.
  apply pending_writes_zero with (op := op) in En. rewrite Hops in En. set_solver.
Qed.

(** ** Witnesses *)

(** One batch: its two writes (operations 10 and 11), then its sync (12). *)
Lemma demo_persister_run :
  exists p h, persister_run p h /\ persister_on_complete 12 true p
    = Some (BeDone PQuiet None, mkPersister 1 [] []).
Proof.
  set (p1 := mkPersister 1 [mkBatch 1 FILE_WAL 0 false PQuiet None] []).
  assert (R1 : persister_run p1 []) by (by apply (run_start persister_default [] PQuiet 1 p1 run_init)).
  assert (R2 : persister_run (persister_note_write 1 10 p1) [PeWrite 1 10]).
  { eapply run_note_write; [exact R1|done..|]. split; set_solver. }
  assert (R3 : persister_run (persister_note_write 1 11 (persister_note_write 1 10 p1))
                 [PeWrite 1 11; PeWrite 1 10]).
  { eapply run_note_write; [exact R2|done..|]. split; set_solver. }
  assert (R4 : persister_run
      (mkPersister 1 [mkBatch 1 FILE_WAL 1 false PQuiet None] [(11, (1, OpWrite))])
      [PeConfirm 10; PeWrite 1 11; PeWrite 1 10])
    by (by apply (run_confirm _ _ 10 BeNothing _ R3)).
  eexists _, _. split.
  - apply (run_confirm_sync _ _ 11 1 FILE_WAL
      (mkPersister 1 [mkBatch 1 FILE_WAL 0 false PQuiet None] []) 12 R4); [done|].
    split; set_solver.
  - reflexivity.
Qed.

Lemma persister_sync_covers_writes_witness :
  exists p h id h1 h2, persister_run p h /\ h = h1 ++ PeSync id 12 :: h2 /\
    forall w, PeWrite id w ∈ h -> PeConfirm w ∈ h2.
Proof.
  destruct demo_persister_run as (p & h & Hrun & Hc).
  destruct (persister_sync_covers_writes p h 12 PQuiet None _ Hrun Hc) as (id & h1 & h2 & Hh & _ & Hall).
  by exists p, h, id, h1, h2.
Defined.

Lemma persister_on_complete_total_witness :
  is_Some (persister_on_complete 7 false persister_default).
Proof. apply (persister_on_complete_total _ [] 7 false). apply run_init. Defined.
