(* ===== verification/RaftState.v ===== *)
(** * RaftState: the state of a Raft node ([kvstore/raft.rs])

    The [Raft] struct, field by field, with its counters, its accessors and the
    helpers that only read it.  The four [BTreeMap]s keyed by node are [gmap]s
    and the two [BTreeSet]s are [gset]s: the program only looks keys up, counts
    and retains, never depends on their order. *)
From S2P Require Import Prelude Codec Crc LogFormat RaftLog Recovery Durable Messages Config.
From S2P Require Import Io Rng Persister.
From Stdlib.Init Require Import Byte.

Definition LOG_REGION : nat := STATE_FILE_SIZE.
Definition CONFIG_CLIENT : Z := U32_MAX - 1.
Definition TIMER_ELECTION : TimerTag := 1.
Definition TIMER_HEARTBEAT : TimerTag := 2.

Record RaftStats : Type := mkRaftStats {
  st_elections_started : Z;
  st_elections_won : Z;
  st_pre_votes_started : Z;
  st_pre_votes_won : Z;
  st_appends_sent : Z;
  st_entries_replicated : Z;
  st_truncations : Z;
  st_step_downs : Z;
  st_bad_messages : Z;
  st_truncated_committed : Z;
  st_snapshots_taken : Z;
  st_snapshots_installed : Z;
  st_snapshots_sent : Z;
  st_reads_requested : Z;
  st_read_probes_sent : Z;
  st_config_changes : Z;
  st_votes_ignored : Z;
}.

Definition raft_stats_default : RaftStats :=
  mkRaftStats 0 0 0 0 0 0 0 0 0 0 0 0 0 0 0 0 0.

(** What happened to a ReadIndex read. *)
Inductive ReadEvent : Type :=
| ReadRequested (id read_index term seq : Z)
| ReadServed (id : Z).

Record PendingRead : Type := mkPendingRead {
  pr_id : Z;
  pr_read_index : Z;
  pr_seq : Z;
  pr_confirmed : bool;
}.

Record Raft : Type := mkRaft {
  r_id : Z;
  r_members : list Z;
  r_cfg : RaftConfig;
  r_role : Role;
  r_term : Z;
  r_voted_for : option Z;
  r_log : RaftLog;
  r_commit_index : Z;
  r_last_applied : Z;
  r_leader : option Z;
  r_votes : gset Z;
  r_pre_votes : option (gset Z);
  r_next_index : gmap Z Z;
  r_match_index : gmap Z Z;
  r_durable_index : Z;
  r_parked : list (Z * Z);
  r_state_seq : Z;
  r_snapshot_seq : Z;
  r_pending_restore : option (list byte);
  r_snapshot_in_flight : bool;
  r_durable_snapshot_file : option FileId;
  r_snapshot_data : list byte;
  r_highest_snapshot : Z;
  r_initial_members : list NodeId;
  r_snapshot_members : list NodeId;
  r_config_index : Z;
  r_last_leader_contact : Nanos;
  r_read_seq : Z;
  r_pending_reads : list PendingRead;
  r_probe_acked : gmap Z Z;
  r_read_events : list ReadEvent;
  r_durable_term : Z;
  r_durable_hard_state : HardState;
  r_persister : Persister;
  r_election_timer : Deadline;
  r_heartbeat_timer : Deadline;
  r_rng : Rng;
  r_failed : bool;
  r_stats : RaftStats;
}.

(** The record rebuilt from its fields, from which the setters are made. *)
Definition raft_eta (r : Raft) : Raft :=
  mkRaft (r_id r) (r_members r) (r_cfg r) (r_role r) (r_term r) (r_voted_for r)
    (r_log r) (r_commit_index r) (r_last_applied r) (r_leader r) (r_votes r)
    (r_pre_votes r) (r_next_index r) (r_match_index r) (r_durable_index r) (r_parked r)
    (r_state_seq r) (r_snapshot_seq r) (r_pending_restore r) (r_snapshot_in_flight r)
    (r_durable_snapshot_file r) (r_snapshot_data r) (r_highest_snapshot r)
    (r_initial_members r) (r_snapshot_members r) (r_config_index r)
    (r_last_leader_contact r) (r_read_seq r) (r_pending_reads r) (r_probe_acked r)
    (r_read_events r) (r_durable_term r) (r_durable_hard_state r) (r_persister r)
    (r_election_timer r) (r_heartbeat_timer r) (r_rng r) (r_failed r) (r_stats r).
Definition stats_eta (r : RaftStats) : RaftStats :=
  mkRaftStats (st_elections_started r) (st_elections_won r) (st_pre_votes_started r)
    (st_pre_votes_won r) (st_appends_sent r) (st_entries_replicated r)
    (st_truncations r) (st_step_downs r) (st_bad_messages r) (st_truncated_committed r)
    (st_snapshots_taken r) (st_snapshots_installed r) (st_snapshots_sent r)
    (st_reads_requested r) (st_read_probes_sent r) (st_config_changes r)
    (st_votes_ignored r).

#[export] Instance set_id : Setter r_id. Proof. build_setter raft_eta. Defined.
#[export] Instance set_members : Setter r_members. Proof. build_setter raft_eta. Defined.
#[export] Instance set_cfg : Setter r_cfg. Proof. build_setter raft_eta. Defined.
#[export] Instance set_role : Setter r_role. Proof. build_setter raft_eta. Defined.
#[export] Instance set_term : Setter r_term. Proof. build_setter raft_eta. Defined.
#[export] Instance set_voted_for : Setter r_voted_for. Proof. build_setter raft_eta. Defined.
#[export] Instance set_log : Setter r_log. Proof. build_setter raft_eta. Defined.
#[export] Instance set_commit_index : Setter r_commit_index. Proof. build_setter raft_eta. Defined.
#[export] Instance set_last_applied : Setter r_last_applied. Proof. build_setter raft_eta. Defined.
#[export] Instance set_leader : Setter r_leader. Proof. build_setter raft_eta. Defined.
#[export] Instance set_votes : Setter r_votes. Proof. build_setter raft_eta. Defined.
#[export] Instance set_pre_votes : Setter r_pre_votes. Proof. build_setter raft_eta. Defined.
#[export] Instance set_next_index : Setter r_next_index. Proof. build_setter raft_eta. Defined.
#[export] Instance set_match_index : Setter r_match_index. Proof. build_setter raft_eta. Defined.
#[export] Instance set_durable_index : Setter r_durable_index. Proof. build_setter raft_eta. Defined.
#[export] Instance set_parked : Setter r_parked. Proof. build_setter raft_eta. Defined.
#[export] Instance set_state_seq : Setter r_state_seq. Proof. build_setter raft_eta. Defined.
#[export] Instance set_snapshot_seq : Setter r_snapshot_seq. Proof. build_setter raft_eta. Defined.
#[export] Instance set_pending_restore : Setter r_pending_restore. Proof. build_setter raft_eta. Defined.
#[export] Instance set_snapshot_in_flight : Setter r_snapshot_in_flight. Proof. build_setter raft_eta. Defined.
#[export] Instance set_durable_snapshot_file : Setter r_durable_snapshot_file. Proof. build_setter raft_eta. Defined.
#[export] Instance set_snapshot_data : Setter r_snapshot_data. Proof. build_setter raft_eta. Defined.
#[export] Instance set_highest_snapshot : Setter r_highest_snapshot. Proof. build_setter raft_eta. Defined.
#[export] Instance set_initial_members : Setter r_initial_members. Proof. build_setter raft_eta. Defined.
#[export] Instance set_snapshot_members : Setter r_snapshot_members. Proof. build_setter raft_eta. Defined.
#[export] Instance set_config_index : Setter r_config_index. Proof. build_setter raft_eta. Defined.
#[export] Instance set_last_leader_contact : Setter r_last_leader_contact. Proof. build_setter raft_eta. Defined.
#[export] Instance set_read_seq : Setter r_read_seq. Proof. build_setter raft_eta. Defined.
#[export] Instance set_pending_reads : Setter r_pending_reads. Proof. build_setter raft_eta. Defined.
#[export] Instance set_probe_acked : Setter r_probe_acked. Proof. build_setter raft_eta. Defined.
#[export] Instance set_read_events : Setter r_read_events. Proof. build_setter raft_eta. Defined.
#[export] Instance set_durable_term : Setter r_durable_term. Proof. build_setter raft_eta. Defined.
#[export] Instance set_durable_hard_state : Setter r_durable_hard_state. Proof. build_setter raft_eta. Defined.
#[export] Instance set_persister : Setter r_persister. Proof. build_setter raft_eta. Defined.
#[export] Instance set_election_timer : Setter r_election_timer. Proof. build_setter raft_eta. Defined.
#[export] Instance set_heartbeat_timer : Setter r_heartbeat_timer. Proof. build_setter raft_eta. Defined.
#[export] Instance set_rng : Setter r_rng. Proof. build_setter raft_eta. Defined.
#[export] Instance set_failed : Setter r_failed. Proof. build_setter raft_eta. Defined.
#[export] Instance set_stats : Setter r_stats. Proof. build_setter raft_eta. Defined.
#[export] Instance set_st_elections_started : Setter st_elections_started. Proof. build_setter stats_eta. Defined.
#[export] Instance set_st_elections_won : Setter st_elections_won. Proof. build_setter stats_eta. Defined.
#[export] Instance set_st_pre_votes_started : Setter st_pre_votes_started. Proof. build_setter stats_eta. Defined.
#[export] Instance set_st_pre_votes_won : Setter st_pre_votes_won. Proof. build_setter stats_eta. Defined.
#[export] Instance set_st_appends_sent : Setter st_appends_sent. Proof. build_setter stats_eta. Defined.
#[export] Instance set_st_entries_replicated : Setter st_entries_replicated. Proof. build_setter stats_eta. Defined.
#[export] Instance set_st_truncations : Setter st_truncations. Proof. build_setter stats_eta. Defined.
#[export] Instance set_st_step_downs : Setter st_step_downs. Proof. build_setter stats_eta. Defined.
#[export] Instance set_st_bad_messages : Setter st_bad_messages. Proof. build_setter stats_eta. Defined.
#[export] Instance set_st_truncated_committed : Setter st_truncated_committed. Proof. build_setter stats_eta. Defined.
#[export] Instance set_st_snapshots_taken : Setter st_snapshots_taken. Proof. build_setter stats_eta. Defined.
#[export] Instance set_st_snapshots_installed : Setter st_snapshots_installed. Proof. build_setter stats_eta. Defined.
#[export] Instance set_st_snapshots_sent : Setter st_snapshots_sent. Proof. build_setter stats_eta. Defined.
#[export] Instance set_st_reads_requested : Setter st_reads_requested. Proof. build_setter stats_eta. Defined.
#[export] Instance set_st_read_probes_sent : Setter st_read_probes_sent. Proof. build_setter stats_eta. Defined.
#[export] Instance set_st_config_changes : Setter st_config_changes. Proof. build_setter stats_eta. Defined.
#[export] Instance set_st_votes_ignored : Setter st_votes_ignored. Proof. build_setter stats_eta. Defined.

(** ** Reading the state *)

Definition is_leader (r : Raft) : bool := bool_decide (r_role r = Leader).
Definition is_member (r : Raft) : bool := bool_decide (r_id r ∈ r_members r).
Definition quorum (r : Raft) : nat := (length (r_members r) / 2 + 1)%nat.
Definition peers (r : Raft) : list NodeId := filter (fun n => n <> r_id r) (r_members r).

(** Members of the current configuration among a set of voters. *)
Definition count_members (members : list NodeId) (votes : gset NodeId) : nat :=
  size (filter (fun v => v ∈ members) votes).

Definition member_votes (r : Raft) : nat := count_members (r_members r) (r_votes r).
Definition member_pre_votes (r : Raft) : nat :=
  match r_pre_votes r with None => 0 | Some v => count_members (r_members r) v end.

(** Whether a leader is evidently in charge, at local time [now]. *)
Definition leader_is_live (r : Raft) (now : Nanos) : bool :=
  is_leader r
  || (bool_decide (is_Some (r_leader r))
      && (u64_saturating_sub now (r_last_leader_contact r)
          <? (cfg_election_timeout (r_cfg r)).1)).

Definition heard_from_leader_recently (r : Raft) (now : Nanos) : bool :=
  cfg_leader_stickiness (r_cfg r) && leader_is_live r now.

Definition base_config (r : Raft) : list NodeId :=
  match r_snapshot_members r with [] => r_initial_members r | m => m end.

(** The search of [config_at], downwards from [i]; [fuel] bounds the turns by
    the number of entries held. *)
Fixpoint config_search (fuel : nat) (l : RaftLog) (i : Z) : option (list NodeId * Z) :=
  match fuel with
  | O => None
  | S fuel =>
      if (log_first_index l <=? i) && (0 <? i) then
        match log_get l i ≫= (fun e => command_members (e_cmd e)) with
        | Some m => Some (m, i)
        | None => config_search fuel l (i - 1)
        end
      else None
  end.

(** The membership in force at [index], and the index of the entry that set it. *)
Definition config_at (r : Raft) (index : Z) : list NodeId * Z :=
  let l := r_log r in
  default (base_config r, 0)
    (config_search (S (length (l_entries l))) l (Z.min index (log_last_index l))).

Definition wants_snapshot (r : Raft) : bool :=
  (0 <? cfg_snapshot_threshold (r_cfg r))
  && negb (r_snapshot_in_flight r)
  && negb (r_failed r)
  && (l_snapshot_index (r_log r) <? r_last_applied r)
  && (cfg_snapshot_threshold (r_cfg r) <=? r_last_applied r - l_snapshot_index (r_log r)).

Definition snapshot_point (r : Raft) : Z := r_last_applied r.

Definition next_snapshot_file (r : Raft) : FileId :=
  match r_durable_snapshot_file r with
  | Some f => if f =? FILE_SNAPSHOT_A then FILE_SNAPSHOT_B else FILE_SNAPSHOT_A
  | None => FILE_SNAPSHOT_A
  end.

Definition hard_state (r : Raft) : HardState :=
  mkHardState (r_term r) (r_voted_for r) (u64_saturating_sub (r_state_seq r) 1).

Definition read_mode (r : Raft) : ReadMode := cfg_read_mode (r_cfg r).

(** The walk of [conflict_hint] back through a term. *)
Fixpoint hint_walk (fuel : nat) (l : RaftLog) (t i : Z) : Z :=
  match fuel with
  | O => i
  | S fuel =>
      if (1 <? i) && bool_decide (log_term_at l (i - 1) = Some t)
      then hint_walk fuel l t (i - 1) else i
  end.

(** Where the leader should back up to.  Terms are known for the entries held,
    for the snapshot's last index and for index 0, so the walk makes at most
    two turns more than there are entries. *)
Definition conflict_hint (r : Raft) (prev_index : Z) : option Z :=
  let l := r_log r in
  if log_last_index l <? prev_index then u64_add (log_last_index l) 1
  else
    match log_term_at l prev_index with
    | None => u64_add (log_last_index l) 1
    | Some t => Some (hint_walk (S (S (length (l_entries l)))) l t prev_index)
    end.

(** ** The application's image with the membership at its index *)

Definition encode_snapshot_payload (members : list NodeId) (app : list byte) : list byte :=
  let e := enc_new |> enc_u32 (Z.of_nat (length members)) in
  let e := fold_left (fun e m => enc_u32 m e) members e in
  enc_bytes app e.

Definition snapshot_payload_fields : Decoder (option (list NodeId * list byte)) :=
  n ← dec_u32;
  if 256 <? n then mret None
  else
    members ← dec_repeat (Z.to_nat n) dec_u32;
    app ← dec_bytes;
    mret (Some (members, app)).

Definition decode_snapshot_payload (bytes : list byte) : option (list NodeId * list byte) :=
  match snapshot_payload_fields (dec_new bytes) with
  | Ok (r, _) => r
  | Err _ => None
  end.

(** ** The fuel of the two walks is enough *)

Lemma last_index_le l : log_wf l -> log_last_index l <= l_snapshot_index l + Z.of_nat (length (l_entries l)).
Proof.
  intros [Hc _ _]. unfold log_last_index. rewrite last_lookup.
  destruct (l_entries l !! pred (length (l_entries l))) as [e|] eqn:E; simpl; [|lia].
  rewrite (contiguous_lookup _ _ _ _ Hc E). apply lookup_lt_Some in E. lia.
Qed.

(** More turns than entries find nothing more. *)
Lemma config_search_enough fuel fuel' l i :
  (Z.to_nat (i - l_snapshot_index l) < fuel <= fuel')%nat -> config_search fuel' l i = config_search fuel l i.
Proof.
  revert fuel' i. induction fuel as [|fuel IH]; intros [|fuel'] i Hf; try lia. simpl.
  destruct (Z.leb_spec (log_first_index l) i) as [Hi|Hi]; [|done]. unfold log_first_index in Hi. simpl.
  destruct (0 <? i); [|done]. destruct (log_get l i ≫= _) as [m|]; [done|]. apply IH. lia.
Qed.
Lemma config_at_fuel r index fuel :
  log_wf (r_log r) -> (S (length (l_entries (r_log r))) <= fuel)%nat ->
  config_at r index = default (base_config r, 0)
    (config_search fuel (r_log r) (Z.min index (log_last_index (r_log r)))).
Proof.
  intros Hwf%last_index_le Hf. unfold config_at. cbv zeta.
  rewrite (config_search_enough (S (length (l_entries (r_log r)))) fuel); [done|]. lia.
Qed.

Lemma hint_walk_enough fuel fuel' l t i :
  log_wf l -> (Z.to_nat (i - l_snapshot_index l) < fuel <= fuel')%nat ->
  l_snapshot_index l <= i -> hint_walk fuel' l t i = hint_walk fuel l t i.
Proof.
  intros Hwf. revert fuel' i. induction fuel as [|fuel IH]; intros [|fuel'] i Hf Hi; try lia. simpl.
  destruct (Z.ltb_spec 1 i) as [H1|]; [|done]. simpl. case_bool_decide as Ht; [|done].
  assert (Hs : l_snapshot_index l <= i - 1).
  { revert Ht. unfold log_term_at, NO_INDEX. destruct (Z.eqb_spec (i - 1) 0); [lia|].
    destruct (Z.eqb_spec (i - 1) (l_snapshot_index l)); [lia|]. unfold log_get, log_first_index.
    destruct (Z.ltb_spec (i - 1) (l_snapshot_index l + 1)); [done|]. lia. }
  apply IH; lia.
Qed.
Lemma conflict_hint_fuel r prev t fuel :
  log_wf (r_log r) -> 0 <= l_snapshot_index (r_log r) -> prev <= log_last_index (r_log r) ->
  log_term_at (r_log r) prev = Some t -> (S (S (length (l_entries (r_log r)))) <= fuel)%nat ->
  conflict_hint r prev = Some (hint_walk fuel (r_log r) t prev).
Proof.
  intros Hwf H0 Hp Ht Hf. pose proof (last_index_le _ Hwf) as Hle. unfold conflict_hint. cbv zeta.
  destruct (Z.ltb_spec (log_last_index (r_log r)) prev); [lia|]. rewrite Ht. f_equal.
  destruct (Z.leb_spec (l_snapshot_index (r_log r)) prev) as [Hs|Hs].
  - symmetry. apply hint_walk_enough; [done| |done]. lia.
  - revert Ht. unfold log_term_at, NO_INDEX. destruct (Z.eqb_spec prev 0) as [->|Hne].
    + intros _. destruct fuel as [|fuel]; [lia|]. done.
    + destruct (Z.eqb_spec prev (l_snapshot_index (r_log r))); [lia|]. unfold log_get, log_first_index.
      by rewrite (proj2 (Z.ltb_lt prev _)) by lia.
Qed.

#[global] Arguments quorum : simpl never.
#[global] Arguments peers : simpl never.
#[global] Arguments count_members : simpl never.
#[global] Arguments member_votes : simpl never.
#[global] Arguments member_pre_votes : simpl never.
#[global] Arguments config_at : simpl never.
