(* ===== verification/Raft.v ===== *)
(** * Raft: the node's handlers ([kvstore/raft.rs])

    Every operation of [impl Raft] as a handler over the node's state and its
    [Io]: elections and pre-votes, replication, membership, ReadIndex reads,
    snapshots, and the persistence discipline that defers every answer until
    the writes behind it are durable.  u64 sums are checked ([add64]), so a
    handler that would overflow, index out of range or fail an assertion has
    no result.  Diagnostic traces are left out. *)
From Stdlib Require Import String.
From S2P Require Import Prelude Codec Crc LogFormat RaftLog Recovery Durable Messages Config.
From S2P Require Import Io Rng Persister RaftState.
From Stdlib.Init Require Import Byte.

(** [entry(k).or_insert(v)] *)
Definition or_insert (k v : Z) (m : gmap Z Z) : gmap Z Z :=
  match m !! k with Some _ => m | None => <[k := v]> m end.

(** [sort_unstable_by(|a, b| b.cmp(a))] *)
Definition descending (a b : Z) : Prop := b <= a.
#[export] Instance descending_dec a b : Decision (descending a b).
Proof. unfold descending. apply _. Defined.

Section Handlers.
Context {W : Type} `{Io W}.

Abbreviation RM := (M W Raft).

(** ** Plumbing *)

(** [self.stats.f += n] *)
Definition bump_by (f : RaftStats -> Z) `{!Setter f} (n : Z) : RM unit :=
  s ← get;
  v ← add64 (f (r_stats s)) n;
  modify (fun s => s ⟨ r_stats := (r_stats s) ⟨ f := v ⟩ ⟩).
Definition bump (f : RaftStats -> Z) `{!Setter f} : RM unit := bump_by f 1.

Definition persisting (f : Persister -> Persister) : RM unit :=
  modify (fun s => s ⟨ r_persister := f (r_persister s) ⟩).

Definition start_batch (action : Persist) : RM Z :=
  s ← get;
  '(id, p) ← lift (persister_start action (r_persister s));
  modify (fun s => s ⟨ r_persister := p ⟩) ;;
  mret id.

(** [send]: withheld if it would announce a term that is not durable. *)
Definition send (to : NodeId) (msg : RaftMsg) : RM unit :=
  s ← get;
  if r_durable_term s <? msg_term msg then mret tt
  else send_bytes to (message_encode (MRaft msg)).

Definition reset_election_timer : RM unit :=
  s ← get;
  '(d, rng) ← lift (rng_range (cfg_election_timeout (r_cfg s)).1
                      (cfg_election_timeout (r_cfg s)).2 (r_rng s));
  modify (fun s => s ⟨ r_rng := rng ⟩) ;;
  t ← deadline_reset (r_election_timer s) d TIMER_ELECTION;
  modify (fun s => s ⟨ r_election_timer := t ⟩).

Definition reset_heartbeat_timer : RM unit :=
  s ← get;
  t ← deadline_reset (r_heartbeat_timer s) (cfg_heartbeat_interval (r_cfg s)) TIMER_HEARTBEAT;
  modify (fun s => s ⟨ r_heartbeat_timer := t ⟩).

Definition disarm_heartbeat : RM unit :=
  s ← get;
  t ← deadline_disarm (r_heartbeat_timer s);
  modify (fun s => s ⟨ r_heartbeat_timer := t ⟩).

Definition disarm_election : RM unit :=
  s ← get;
  t ← deadline_disarm (r_election_timer s);
  modify (fun s => s ⟨ r_election_timer := t ⟩).

Definition observe_state (tag : string) : RM unit :=
  s ← get;
  observe tag [r_term s; log_last_index (r_log s); r_durable_index s].

(** [self.log.append(entry)] *)
Definition push_entry (entry : Entry) : RM unit :=
  s ← get;
  l ← lift (log_append (r_log s) entry);
  modify (fun s => s ⟨ r_log := l ⟩).

(** ** Membership *)

Definition sync_peer_maps : RM unit :=
  s ← get;
  next ← add64 (log_last_index (r_log s)) 1;
  let ps := peers s in
  modify (fun s => s
    ⟨ r_next_index := filter (fun kv => kv.1 ∈ ps)
                         (fold_left (fun m p => or_insert p next m) ps (r_next_index s)) ⟩
    ⟨ r_match_index := filter (fun kv => kv.1 ∈ ps)
                         (fold_left (fun m p => or_insert p NO_INDEX m) ps (r_match_index s)) ⟩).

Definition refresh_config : RM unit :=
  s ← get;
  let '(members, index) := config_at s (log_last_index (r_log s)) in
  modify (fun s => s ⟨ r_members := members ⟩ ⟨ r_config_index := index ⟩) ;;
  when (is_leader s) sync_peer_maps.

Definition step_aside_if_removed : RM unit :=
  s ← get;
  when (is_leader s && negb (is_member s) && (r_config_index s <=? r_commit_index s))
    (observe "step_aside" [r_term s] ;;
     modify (fun s => s ⟨ r_role := Follower ⟩ ⟨ r_leader := None ⟩) ;;
     disarm_heartbeat).

(** ** Persistence *)

Definition write_hard_state (batch : Z) : RM unit :=
  s ← get;
  let hs := mkHardState (r_term s) (r_voted_for s) (r_state_seq s) in
  let offset := hard_state_slot_offset (hs_seq hs) in
  seq ← add64 (r_state_seq s) 1;
  modify (fun s => s ⟨ r_state_seq := seq ⟩) ;;
  op ← write_at FILE_WAL offset (hard_state_to_slot hs);
  persisting (persister_note_hard_state batch hs) ;;
  persisting (persister_note_write batch op).

Definition write_log_from (batch from : Z) (truncated : bool) : RM unit :=
  s ← get;
  let offset := (LOG_REGION + log_byte_offset_of (r_log s) from)%nat in
  when truncated
    (op ← set_len FILE_WAL offset;
     persisting (persister_note_write batch op)) ;;
  let bytes := concat (map entry_to_record
                 (filter (fun e => from <= e_index e) (l_entries (r_log s)))) in
  match bytes with
  | [] =>
      op ← set_len FILE_WAL offset;
      persisting (persister_note_write batch op)
  | _ =>
      op ← write_at FILE_WAL offset bytes;
      persisting (persister_note_write batch op)
  end.

Definition persist_log_from (from : Z) (truncated : bool) (reply_to : option NodeId)
    (reply_term verified : Z) : RM unit :=
  s ← get;
  batch ← start_batch (PLogDurable from (log_last_index (r_log s)) verified reply_to reply_term);
  write_log_from batch from truncated.

(** The range of [parked] that extends the claim, at position [at], and the
    ranges without it.  ([at + 1] cannot overflow: the range ends above [at].) *)
Fixpoint take_claimable (at' cap : Z) (parked : list (Z * Z)) : option (Z * list (Z * Z)) :=
  match parked with
  | [] => None
  | (from, to) :: rest =>
      if (from <=? at' + 1) && (at' <? to) && (from <=? cap) then Some (to, rest)
      else match take_claimable at' cap rest with
           | Some (to', rest') => Some (to', (from, to) :: rest')
           | None => None
           end
  end.

(** [advance_durable]'s loop.  Every turn but the last two removes a range, so
    [S (S (length parked))] turns are enough ([advance_loop_total]). *)
Fixpoint advance_loop (fuel : nat) (cap : Z) : RM unit :=
  match fuel with
  | O => panic
  | S fuel =>
      s ← get;
      let at' := r_durable_index s in
      let parked := List.filter (fun q => at' <? q.2) (r_parked s) in
      modify (fun s => s ⟨ r_parked := parked ⟩) ;;
      match take_claimable at' cap parked with
      | None => mret tt
      | Some (to, rest) =>
          let claim := Z.min to cap in
          if claim <=? at' then mret tt
          else
            when (claim =? to) (modify (fun s => s ⟨ r_parked := rest ⟩)) ;;
            modify (fun s => s ⟨ r_durable_index := claim ⟩) ;;
            observe "durable" [claim] ;;
            advance_loop fuel cap
      end
  end.

Definition advance_durable : RM unit :=
  s ← get;
  let cap := log_last_index_with_term_at_most (r_log s) (r_durable_term s) in
  advance_loop (S (S (length (r_parked s)))) cap ;;
  s ← get;
  when (4096 <? length (r_parked s))%nat (modify (fun s => s ⟨ r_parked := [] ⟩)).

(** ** Stepping down *)

Definition step_down (term : Z) : RM unit :=
  s ← get;
  when (negb (bool_decide (r_role s = Follower))) (bump st_step_downs) ;;
  modify (fun s => s ⟨ r_term := term ⟩ ⟨ r_voted_for := None ⟩ ⟨ r_role := Follower ⟩
                     ⟨ r_leader := None ⟩ ⟨ r_votes := ∅ ⟩) ;;
  disarm_heartbeat ;;
  reset_election_timer.

Definition step_down_and_persist (term : Z) : RM unit :=
  step_down term ;;
  batch ← start_batch PQuiet;
  write_hard_state batch.

(** ** Replication: the leader's side *)

Definition send_append_to (to : NodeId) : RM unit :=
  s ← get;
  let next := Z.max (default 1 (r_next_index s !! to)) 1 in
  let prev_index := next - 1 in
  if (prev_index <? l_snapshot_index (r_log s))
     && negb (bool_decide (r_snapshot_data s = []))
  then
    bump st_snapshots_sent ;;
    send to (InstallSnapshot (r_term s) (r_id s) (l_snapshot_index (r_log s))
               (l_snapshot_term (r_log s)) (r_snapshot_data s))
  else
    match log_term_at (r_log s) prev_index with
    | None => mret tt
    | Some prev_term =>
        let entries := log_slice_from (r_log s) next (cfg_max_batch (r_cfg s)) in
        bump st_appends_sent ;;
        send to (AppendEntries (r_term s) (r_id s) prev_index prev_term entries
                   (r_commit_index s))
    end.

Definition broadcast_append : RM unit :=
  s ← get;
  for_each (peers s) send_append_to.

(** What each member is known to hold durably. *)
Definition replicated (s : Raft) (m : NodeId) : Z :=
  if m =? r_id s then r_durable_index s else default NO_INDEX (r_match_index s !! m).

Definition maybe_commit : RM unit :=
  s ← get;
  let indices := merge_sort descending (map (replicated s) (r_members s)) in
  candidate ← lift (indices !! (quorum s - 1)%nat);
  let own_term := bool_decide (log_term_at (r_log s) candidate = Some (r_term s))
                  || bool_decide (cfg_bug (r_cfg s) = CommitAnyTerm) in
  when ((r_commit_index s <? candidate) && own_term)
    (modify (fun s => s ⟨ r_commit_index := candidate ⟩) ;;
     step_aside_if_removed ;;
     observe "commit" [candidate]).

Definition on_append_resp (from : NodeId) (term : Z) (success : bool)
    (match_index conflict_index : Z) : RM unit :=
  s ← get;
  if r_term s <? term then step_down_and_persist term
  else if negb (is_leader s) || negb (term =? r_term s) then mret tt
  else if success then
    let m := Z.max (default NO_INDEX (r_match_index s !! from)) match_index in
    modify (fun s => s ⟨ r_match_index := <[from := m]> (r_match_index s) ⟩) ;;
    next ← add64 m 1;
    modify (fun s => s ⟨ r_next_index := <[from := next]> (r_next_index s) ⟩) ;;
    maybe_commit ;;
    s ← get;
    when (m <? log_last_index (r_log s)) (send_append_to from)
  else
    let cur := default 1 (r_next_index s !! from) in
    let hint := Z.max conflict_index 1 in
    let next := Z.max (Z.min hint (u64_saturating_sub cur 1)) 1 in
    modify (fun s => s ⟨ r_next_index := <[from := next]> (r_next_index s) ⟩) ;;
    send_append_to from.

(** Append a client command; [None] if this node is not the leader. *)
Definition propose (cmd : Command) : RM (option Z) :=
  s ← get;
  if negb (is_leader s) || r_failed s then mret None
  else
    index ← add64 (log_last_index (r_log s)) 1;
    push_entry (mkEntry (r_term s) index cmd) ;;
    persist_log_from index false None 0 U64_MAX ;;
    broadcast_append ;;
    mret (Some index).

Inductive MembershipError : Type :=
| NotTheLeader
| NoEntryOfThisTerm
| ChangeInProgress
| NoMembers
| NotOneServer.

Definition dedup_sorted (l : list NodeId) : list NodeId :=
  fold_right (fun m l => match l with x :: _ => if m =? x then l else m :: l | [] => [m] end)
    [] l.

Definition propose_membership (members : list NodeId) : RM (Result MembershipError Z) :=
  s ← get;
  if negb (is_leader s) || r_failed s then mret (Err NotTheLeader)
  else if negb (bool_decide (log_term_at (r_log s) (r_commit_index s) = Some (r_term s)))
          && negb (bool_decide (cfg_bug (r_cfg s) = ConfigBeforeTermCommit))
  then mret (Err NoEntryOfThisTerm)
  else if r_commit_index s <? r_config_index s then mret (Err ChangeInProgress)
  else
    let members := dedup_sorted (merge_sort Z.le members) in
    match members with
    | [] => mret (Err NoMembers)
    | _ =>
        let added := length (filter (fun m => m ∉ r_members s) members) in
        let removed := length (filter (fun m => m ∉ members) (r_members s)) in
        if negb (added + removed =? 1)%nat then mret (Err NotOneServer)
        else
          index ← add64 (log_last_index (r_log s)) 1;
          push_entry (mkEntry (r_term s) index
                        (mkCommand CONFIG_CLIENT index (SetMembers members))) ;;
          observe "config" [index; Z.of_nat (length members)] ;;
          refresh_config ;;
          bump st_config_changes ;;
          persist_log_from index false None 0 U64_MAX ;;
          broadcast_append ;;
          mret (Ok index)
    end.

(** ** ReadIndex *)

Definition broadcast_probe : RM unit :=
  s ← get;
  let msg := ReadProbe (r_term s) (r_id s) (r_read_seq s) in
  for_each (peers s) (fun p => send p msg) ;;
  bump st_read_probes_sent.

Definition request_read (id : Z) : RM bool :=
  s ← get;
  if negb (bool_decide (cfg_read_mode (r_cfg s) = ReadIndex)) || negb (is_leader s) || r_failed s
  then mret false
  else if negb (bool_decide (log_term_at (r_log s) (r_commit_index s) = Some (r_term s)))
          && negb (bool_decide (cfg_bug (r_cfg s) = ReadBeforeTermCommit))
  then mret false
  else
    seq ← add64 (r_read_seq s) 1;
    modify (fun s => s ⟨ r_read_seq := seq ⟩) ;;
    let confirmed := (length (r_members s) =? 1)%nat
                     || bool_decide (cfg_bug (r_cfg s) = ReadWithoutQuorum) in
    modify (fun s => s ⟨ r_pending_reads :=
      r_pending_reads s ++ [mkPendingRead id (r_commit_index s) seq confirmed] ⟩) ;;
    bump st_reads_requested ;;
    modify (fun s => s ⟨ r_read_events :=
      r_read_events s ++ [ReadRequested id (r_commit_index s) (r_term s) seq] ⟩) ;;
    observe "read_index" [id; r_commit_index s] ;;
    when (negb confirmed) broadcast_probe ;;
    mret true.

Definition on_read_probe (from : NodeId) (term : Z) (leader : NodeId) (seq : Z) : RM unit :=
  s ← get;
  if term <? r_term s then send from (ReadProbeResp (r_term s) seq)
  else if r_term s <? term then
    step_down_and_persist term ;;
    t ← now;
    modify (fun s => s ⟨ r_leader := Some leader ⟩ ⟨ r_last_leader_contact := t ⟩)
  else if is_leader s then mret tt
  else
    when (bool_decide (r_role s = Candidate))
      (modify (fun s => s ⟨ r_role := Follower ⟩ ⟨ r_votes := ∅ ⟩)) ;;
    t ← now;
    modify (fun s => s ⟨ r_leader := Some leader ⟩ ⟨ r_last_leader_contact := t ⟩) ;;
    reset_election_timer ;;
    send from (ReadProbeResp term seq).

(** Members that acknowledged probe round [seq] or a later one. *)
Definition probe_acks (members : list NodeId) (acked : gmap NodeId Z) (seq : Z) : nat :=
  size (filter (fun kv => kv.1 ∈ members /\ seq <= kv.2) acked).

Definition confirm_read (s : Raft) (r : PendingRead) : PendingRead :=
  let own := if is_member s then 1%nat else 0%nat in
  if negb (pr_confirmed r)
     && (quorum s <=? own + probe_acks (r_members s) (r_probe_acked s) (pr_seq r))%nat
  then mkPendingRead (pr_id r) (pr_read_index r) (pr_seq r) true
  else r.

Definition on_read_probe_resp (from : NodeId) (term seq : Z) : RM unit :=
  s ← get;
  if r_term s <? term then step_down_and_persist term
  else if negb (is_leader s) || negb (term =? r_term s) then mret tt
  else
    let acked := Z.max (default 0 (r_probe_acked s !! from)) seq in
    modify (fun s => s ⟨ r_probe_acked := <[from := acked]> (r_probe_acked s) ⟩) ;;
    modify (fun s => s ⟨ r_pending_reads := map (confirm_read s) (r_pending_reads s) ⟩).

(** ** Elections *)

Definition become_leader : RM unit :=
  modify (fun s => s ⟨ r_role := Leader ⟩ ⟨ r_leader := Some (r_id s) ⟩) ;;
  bump st_elections_won ;;
  s ← get;
  next ← add64 (log_last_index (r_log s)) 1;
  modify (fun s => s
    ⟨ r_next_index := fold_left (fun m p => <[p := next]> m) (peers s) ∅ ⟩
    ⟨ r_match_index := fold_left (fun m p => <[p := NO_INDEX]> m) (peers s) ∅ ⟩
    ⟨ r_probe_acked := ∅ ⟩) ;;
  observe "leader" [r_term s; log_last_index (r_log s)] ;;
  index ← add64 (log_last_index (r_log s)) 1;
  push_entry (mkEntry (r_term s) index command_noop) ;;
  persist_log_from index false None 0 U64_MAX ;;
  disarm_election ;;
  broadcast_append ;;
  reset_heartbeat_timer.

Definition become_candidate : RM unit :=
  s ← get;
  term ← add64 (r_term s) 1;
  modify (fun s => s ⟨ r_pre_votes := None ⟩ ⟨ r_term := term ⟩
    ⟨ r_voted_for := Some (r_id s) ⟩ ⟨ r_role := Candidate ⟩ ⟨ r_leader := None ⟩
    ⟨ r_votes := {[ r_id s ]} ⟩) ;;
  bump st_elections_started ;;
  observe "campaign" [term] ;;
  batch ← start_batch (PCampaign term);
  write_hard_state batch ;;
  reset_election_timer.

Definition start_pre_vote : RM unit :=
  modify (fun s => s ⟨ r_role := Follower ⟩ ⟨ r_leader := None ⟩ ⟨ r_votes := ∅ ⟩
                     ⟨ r_pre_votes := Some {[ r_id s ]} ⟩) ;;
  bump st_pre_votes_started ;;
  reset_election_timer ;;
  s ← get;
  if (quorum s <=? member_pre_votes s)%nat then
    modify (fun s => s ⟨ r_pre_votes := None ⟩) ;;
    bump st_pre_votes_won ;;
    become_candidate
  else
    let msg := PreVote (r_term s) (r_id s) (log_last_index (r_log s))
                 (log_last_term (r_log s)) in
    for_each (peers s) (fun p => send p msg).

Definition on_pre_vote (from : NodeId) (term : Z) (candidate : NodeId)
    (last_index last_term : Z) : RM unit :=
  s ← get;
  t ← now;
  let granted := (r_term s <=? term) && log_is_up_to_date (r_log s) last_index last_term
                 && negb (leader_is_live s t) in
  send from (PreVoteResp (r_term s) term granted).

Definition on_pre_vote_resp (from : NodeId) (term round : Z) (granted : bool) : RM unit :=
  s ← get;
  if r_term s <? term then
    modify (fun s => s ⟨ r_pre_votes := None ⟩) ;;
    step_down_and_persist term
  else if negb (round =? r_term s) || bool_decide (is_Some (r_leader s)) then
    when (bool_decide (is_Some (r_leader s))) (modify (fun s => s ⟨ r_pre_votes := None ⟩))
  else
    match r_pre_votes s with
    | None => mret tt
    | Some votes =>
        when granted
          (modify (fun s => s ⟨ r_pre_votes := Some ({[ from ]} ∪ votes) ⟩) ;;
           s ← get;
           when (quorum s <=? member_pre_votes s)%nat
             (modify (fun s => s ⟨ r_pre_votes := None ⟩) ;;
              bump st_pre_votes_won ;;
              become_candidate))
    end.

(** A vote whose durability the answer must wait for. *)
Definition vote_is_durable (s : Raft) (candidate : NodeId) : bool :=
  bool_decide (hs_term (r_durable_hard_state s) = r_term s)
  && bool_decide (hs_voted_for (r_durable_hard_state s) = Some candidate).

(** [on_request_vote] once the request's term is this node's. *)
Definition decide_vote (from candidate : NodeId) (last_index last_term : Z) (dirty : bool)
  : RM unit :=
  s ← get;
  let free_to_vote := bool_decide (r_voted_for s = None)
                      || bool_decide (r_voted_for s = Some candidate) in
  let up_to_date := log_is_up_to_date (r_log s) last_index last_term in
  let granted := free_to_vote && up_to_date in
  let casts := granted && negb (bool_decide (r_voted_for s = Some candidate)) in
  when casts (modify (fun s => s ⟨ r_voted_for := Some candidate ⟩)) ;;
  let dirty := dirty || casts in
  when granted reset_election_timer ;;
  s ← get;
  if dirty && negb (bool_decide (cfg_bug (r_cfg s) = VoteBeforeSync)) then
    batch ← start_batch (PVoteReply from (r_term s) granted);
    write_hard_state batch
  else if dirty then
    batch ← start_batch PQuiet;
    write_hard_state batch ;;
    send_bytes from (message_encode (MRaft (RequestVoteResp (r_term s) granted)))
  else if granted && negb (vote_is_durable s candidate) then mret tt
  else send from (RequestVoteResp (r_term s) granted).

Definition on_request_vote (from : NodeId) (term : Z) (candidate : NodeId)
    (last_index last_term : Z) : RM unit :=
  s ← get;
  t ← now;
  if term <? r_term s then send from (RequestVoteResp (r_term s) false)
  else if (r_term s <? term) && heard_from_leader_recently s t then bump st_votes_ignored
  else
    let dirty := r_term s <? term in
    when dirty (step_down term) ;;
    decide_vote from candidate last_index last_term dirty.

Definition on_vote_resp (from : NodeId) (term : Z) (granted : bool) : RM unit :=
  s ← get;
  if r_term s <? term then step_down_and_persist term
  else if negb (bool_decide (r_role s = Candidate)) || negb (term =? r_term s) then mret tt
  else
    when granted
      (modify (fun s => s ⟨ r_votes := {[ from ]} ∪ r_votes s ⟩) ;;
       s ← get;
       when (quorum s <=? member_votes s)%nat become_leader).

(** ** Replication: the follower's side *)

Definition truncate (at' : Z) : RM unit :=
  s ← get;
  when (at' <=? r_commit_index s) (bump st_truncated_committed) ;;
  bump st_truncations ;;
  observe "truncate" [at'] ;;
  l ← lift (log_truncate_from (r_log s) at');
  modify (fun s => s ⟨ r_log := l ⟩) ;;
  refresh_config ;;
  cap ← sub64 at' 1;
  modify (fun s => s
    ⟨ r_durable_index := Z.min (r_durable_index s) cap ⟩
    ⟨ r_persister := persister_clamp_all cap (r_persister s) ⟩
    ⟨ r_parked := map (fun q => (q.1, Z.min q.2 cap))
                    (List.filter (fun q => q.1 <=? cap) (r_parked s)) ⟩).

(** The first entry that is new ([false]) or conflicting ([true]), by position. *)
Fixpoint find_new (l : RaftLog) (idx : Z) (i : nat) (entries : list Entry)
  : option (nat * bool) :=
  match entries with
  | [] => None
  | e :: entries =>
      match log_term_at l idx with
      | Some t => if t =? e_term e then find_new l (idx + 1) (S i) entries else Some (i, true)
      | None => Some (i, false)
      end
  end.

(** A rejection or an early acknowledgement: behind the hard state if the term
    is new, at once otherwise. *)
Definition reply_or_defer (dirty : bool) (from : NodeId) (reply : RaftMsg) : RM unit :=
  if dirty then
    batch ← start_batch (PReply from reply);
    write_hard_state batch
  else send from reply.

(** Adopt the leader's commit index, as far as this message vouches for. *)
Definition adopt_commit (leader_commit last_new_index : Z) : RM unit :=
  s ← get;
  when (r_commit_index s <? leader_commit)
    (let new_commit := Z.min (Z.min leader_commit last_new_index) (log_last_index (r_log s)) in
     when (r_commit_index s <? new_commit)
       (modify (fun s => s ⟨ r_commit_index := new_commit ⟩) ;;
        observe "commit" [new_commit])).

(** Truncate at a conflict and append what is new. *)
Definition take_entries (start : Z) (conflict : bool) (new : list Entry) : RM unit :=
  when conflict (truncate start) ;;
  let brings_config := existsb (fun e => bool_decide (is_Some (command_members (e_cmd e)))) new in
  for_each new push_entry ;;
  when brings_config refresh_config ;;
  bump_by st_entries_replicated (Z.of_nat (length new)).

(** The defect [TruncateOnAnyAppend]: trust the leader's length blindly. *)
Definition truncate_blindly (prev_index last_new_index : Z) : RM unit :=
  s ← get;
  when (bool_decide (cfg_bug (r_cfg s) = TruncateOnAnyAppend)
        && (last_new_index <? log_last_index (r_log s)) && (prev_index <=? last_new_index))
    (bump st_truncations ;;
     l ← lift (log_truncate_from (r_log s) (last_new_index + 1));
     modify (fun s => s ⟨ r_log := l ⟩) ;;
     refresh_config ;;
     modify (fun s => s ⟨ r_durable_index := Z.min (r_durable_index s) last_new_index ⟩)).

(** [on_append_entries] once the previous entry matched. *)
Definition append_matched (from : NodeId) (prev_index last_new_index : Z)
    (entries : list Entry) (leader_commit : Z) (dirty : bool) : RM unit :=
  s ← get;
  let first_new := find_new (r_log s) (prev_index + 1) 0 entries in
  truncate_blindly prev_index last_new_index ;;
  match first_new with
  | Some (i, conflict) =>
      let start := prev_index + 1 + Z.of_nat i in
      take_entries start conflict (drop i entries) ;;
      s ← get;
      (if dirty then
         batch ← start_batch (PLogDurable start (log_last_index (r_log s)) last_new_index
                                (Some from) (r_term s));
         write_hard_state batch ;;
         write_log_from batch start conflict
       else persist_log_from start conflict (Some from) (r_term s) last_new_index) ;;
      when (bool_decide (cfg_bug (r_cfg s) = AckBeforeSync))
        (send from (AppendEntriesResp (r_term s) true (log_last_index (r_log s)) NO_INDEX))
  | None =>
      s ← get;
      if dirty then
        next ← add64 (r_durable_index s) 1;
        batch ← start_batch (PLogDurable next (r_durable_index s) last_new_index
                               (Some from) (r_term s));
        write_hard_state batch
      else
        send from (AppendEntriesResp (r_term s) true
                     (Z.min (r_durable_index s) last_new_index) NO_INDEX)
  end ;;
  adopt_commit leader_commit last_new_index.

(** [on_append_entries] once the part below the snapshot is skipped. *)
Definition append_after_skip (from : NodeId) (prev_index prev_term last_new_index : Z)
    (entries : list Entry) (leader_commit : Z) (dirty : bool) : RM unit :=
  s ← get;
  if negb (log_matches (r_log s) prev_index prev_term) then
    conflict ← lift (conflict_hint s prev_index);
    reply_or_defer dirty from
      (AppendEntriesResp (r_term s) false (r_durable_index s) conflict)
  else append_matched from prev_index last_new_index entries leader_commit dirty.

(** Accept [leader] as the leader of the current term. *)
Definition follow_leader (leader : NodeId) : RM unit :=
  s ← get;
  when (negb (bool_decide (r_role s = Follower)))
    (modify (fun s => s ⟨ r_role := Follower ⟩ ⟨ r_votes := ∅ ⟩) ;;
     disarm_heartbeat) ;;
  t ← now;
  modify (fun s => s ⟨ r_leader := Some leader ⟩ ⟨ r_last_leader_contact := t ⟩) ;;
  reset_election_timer.

Definition on_append_entries (from : NodeId) (term : Z) (leader : NodeId)
    (prev_index prev_term : Z) (entries : list Entry) (leader_commit : Z) : RM unit :=
  s ← get;
  if term <? r_term s then
    send from (AppendEntriesResp (r_term s) false NO_INDEX NO_INDEX)
  else
    let dirty := r_term s <? term in
    when dirty (step_down term) ;;
    follow_leader leader ;;
    last_new_index ← add64 prev_index (Z.of_nat (length entries));
    s ← get;
    if prev_index <? l_snapshot_index (r_log s) then
      let skip := Z.to_nat (l_snapshot_index (r_log s) - prev_index) in
      if (length entries <=? skip)%nat then
        reply_or_defer dirty from
          (AppendEntriesResp (r_term s) true (Z.min (r_durable_index s) last_new_index) NO_INDEX)
      else
        append_after_skip from (l_snapshot_index (r_log s)) (l_snapshot_term (r_log s))
          last_new_index (drop skip entries) leader_commit dirty
    else
      append_after_skip from prev_index prev_term last_new_index entries leader_commit dirty.

(** ** Snapshots *)

Definition take_snapshot (data : list byte) : RM unit :=
  s ← get;
  if negb (wants_snapshot s) then mret tt
  else
    let index := r_last_applied s in
    match log_term_at (r_log s) index with
    | None => mret tt
    | Some term =>
        let seq := r_snapshot_seq s in
        next ← add64 seq 1;
        modify (fun s => s ⟨ r_snapshot_seq := next ⟩
          ⟨ r_highest_snapshot := Z.max (r_highest_snapshot s) index ⟩
          ⟨ r_snapshot_in_flight := true ⟩) ;;
        let file := next_snapshot_file s in
        let '(members, _) := config_at s index in
        let snap := mkSnapshot seq index term (encode_snapshot_payload members data) in
        let encoded := snapshot_encode snap in
        modify (fun s => s ⟨ r_snapshot_data := sn_data snap ⟩) ;;
        observe "snapshot" [index; term] ;;
        batch ← start_batch (PSnapshotTaken index term file);
        op ← set_len file 0;
        persisting (persister_note_write batch op) ;;
        op ← write_at file 0 encoded;
        persisting (persister_note_write batch op) ;;
        persisting (persister_note_file batch file) ;;
        bump st_snapshots_taken
    end.

(** [on_install_snapshot] once the sender is followed: write the image. *)
Definition install_image (from : NodeId) (index index_term : Z) (data : list byte) : RM unit :=
  s ← get;
  if (index <=? r_highest_snapshot s) || (index <=? r_commit_index s) then
    send from (InstallSnapshotResp (r_term s)
                 (Z.min (log_last_index (r_log s)) (r_last_applied s)))
  else if r_snapshot_in_flight s then mret tt
  else
    let seq := r_snapshot_seq s in
    next ← add64 seq 1;
    modify (fun s => s ⟨ r_snapshot_seq := next ⟩
      ⟨ r_highest_snapshot := Z.max (r_highest_snapshot s) index ⟩
      ⟨ r_snapshot_in_flight := true ⟩) ;;
    let file := next_snapshot_file s in
    let snap := mkSnapshot seq index index_term data in
    let encoded := snapshot_encode snap in
    observe "install_snapshot" [index; index_term] ;;
    batch ← start_batch (PSnapshotInstalled index index_term (sn_data snap) file from (r_term s));
    op ← set_len file 0;
    persisting (persister_note_write batch op) ;;
    op ← write_at file 0 encoded;
    persisting (persister_note_write batch op) ;;
    persisting (persister_note_file batch file) ;;
    bump st_snapshots_installed.

Definition on_install_snapshot (from : NodeId) (term : Z) (leader : NodeId)
    (index index_term : Z) (data : list byte) : RM unit :=
  s ← get;
  if term <? r_term s then send from (InstallSnapshotResp (r_term s) NO_INDEX)
  else
    when (r_term s <? term) (step_down_and_persist term) ;;
    follow_leader leader ;;
    install_image from index index_term data.

Definition on_install_snapshot_resp (from : NodeId) (term index : Z) : RM unit :=
  s ← get;
  if r_term s <? term then step_down_and_persist term
  else if negb (is_leader s) || negb (term =? r_term s) then mret tt
  else
    when (NO_INDEX <? index)
      (let m := Z.max (default NO_INDEX (r_match_index s !! from)) index in
       modify (fun s => s ⟨ r_match_index := <[from := m]> (r_match_index s) ⟩) ;;
       next ← add64 m 1;
       modify (fun s => s ⟨ r_next_index := <[from := next]> (r_next_index s) ⟩) ;;
       maybe_commit).

(** ** Completions *)

(** A batch of log records is durable. *)
Definition log_durable (from index verified : Z) (reply_to : option NodeId) (reply_term : Z)
  : RM unit :=
  s ← get;
  let index := Z.min index (log_last_index (r_log s)) in
  when (r_durable_index s <? index)
    (modify (fun s => s ⟨ r_parked := r_parked s ++ [(from, index)] ⟩) ;;
     advance_durable) ;;
  s ← get;
  match reply_to with
  | Some to =>
      send to (AppendEntriesResp reply_term true (Z.min (r_durable_index s) verified) NO_INDEX)
  | None => mret tt
  end ;;
  s ← get;
  when (is_leader s) maybe_commit.

(** The hard state behind a candidacy is durable. *)
Definition campaign (term : Z) : RM unit :=
  s ← get;
  when ((r_term s =? term) && bool_decide (r_role s = Candidate))
    (let msg := RequestVote term (r_id s) (log_last_index (r_log s))
                  (log_last_term (r_log s)) in
     for_each (peers s) (fun p => send p msg) ;;
     when (quorum s <=? member_votes s)%nat become_leader).

(** A snapshot this node took is durable: compact the log to it. *)
Definition snapshot_taken (index term : Z) (file : FileId) : RM unit :=
  modify (fun s => s ⟨ r_snapshot_in_flight := false ⟩
                     ⟨ r_durable_snapshot_file := Some file ⟩) ;;
  modify (fun s => s ⟨ r_snapshot_members := (config_at s index).1 ⟩) ;;
  modify (fun s => s ⟨ r_log := log_compact_to (r_log s) index term ⟩) ;;
  refresh_config ;;
  observe "compact" [index].

(** Adopt a durable image: restore it if it is ahead, and start the log after it,
    keeping the entries above it if this node holds its last entry. *)
Definition adopt_image (index term : Z) (data : list byte) (keeps_tail : bool) : RM unit :=
  s ← get;
  let restore := r_last_applied s <? index in
  modify (fun s => s ⟨ r_snapshot_data := data ⟩) ;;
  let '(snap_members, app) := default (base_config s, []) (decode_snapshot_payload data) in
  when restore (modify (fun s => s ⟨ r_pending_restore := Some app ⟩)) ;;
  (if keeps_tail then modify (fun s => s ⟨ r_log := log_compact_to (r_log s) index term ⟩)
   else
     l ← lift (log_from_snapshot index term []);
     modify (fun s => s ⟨ r_log := l ⟩) ;;
     set_len FILE_WAL LOG_REGION ;;
     sync FILE_WAL ;;
     mret tt) ;;
  modify (fun s => s ⟨ r_parked :=
    if keeps_tail then List.filter (fun q => index <? q.2) (r_parked s) else [] ⟩) ;;
  modify (fun s => s ⟨ r_snapshot_members := snap_members ⟩) ;;
  refresh_config ;;
  modify (fun s => s ⟨ r_durable_index :=
    Z.min (Z.max (r_durable_index s) index) (log_last_index (r_log s)) ⟩) ;;
  advance_durable ;;
  modify (fun s => s ⟨ r_commit_index := Z.max (r_commit_index s) index ⟩) ;;
  when restore (modify (fun s => s ⟨ r_last_applied := index ⟩)).

Definition snapshot_installed (index term : Z) (data : list byte) (file : FileId)
    (reply_to : NodeId) (reply_term : Z) : RM unit :=
  modify (fun s => s ⟨ r_snapshot_in_flight := false ⟩
                     ⟨ r_durable_snapshot_file := Some file ⟩) ;;
  s ← get;
  let keeps_tail := bool_decide (log_term_at (r_log s) index = Some term) in
  if negb keeps_tail && (index <? r_commit_index s) then
    send reply_to (InstallSnapshotResp reply_term (r_durable_index s))
  else
    adopt_image index term data keeps_tail ;;
    observe "restored" [index; term] ;;
    send reply_to (InstallSnapshotResp reply_term index).

Definition on_durable (action : Persist) : RM unit :=
  match action with
  | PCampaign term => campaign term
  | PVoteReply to term granted => send to (RequestVoteResp term granted)
  | PReply to msg => send to msg
  | PLogDurable from index verified reply_to reply_term =>
      log_durable from index verified reply_to reply_term
  | PSnapshotTaken index term file => snapshot_taken index term file
  | PSnapshotInstalled index term data file reply_to reply_term =>
      snapshot_installed index term data file reply_to reply_term
  | PQuiet => mret tt
  end.

(** The hard state a completed batch wrote is on stable storage. *)
Definition note_durable (hs : HardState) : RM unit :=
  s ← get;
  when (hs_seq (r_durable_hard_state s) <=? hs_seq hs)
    (modify (fun s => s ⟨ r_durable_hard_state := hs ⟩)) ;;
  when (r_durable_term s <? hs_term hs)
    (modify (fun s => s ⟨ r_durable_term := hs_term hs ⟩) ;;
     advance_durable).

(** ** Event entry points *)

Definition on_storage (op : OpId) (ok : bool) : RM unit :=
  s ← get;
  if r_failed s then mret tt
  else
    '(ev, p) ← lift (persister_on_complete op ok (r_persister s));
    modify (fun s => s ⟨ r_persister := p ⟩) ;;
    match ev with
    | BeNothing => mret tt
    | BeFailed =>
        modify (fun s => s ⟨ r_failed := true ⟩) ;;
        observe "io_failed" []
    | BeNeedSync id file =>
        sync_op ← sync file;
        persisting (persister_note_sync id sync_op)
    | BeDone action hard =>
        match hard with Some hs => note_durable hs | None => mret tt end ;;
        on_durable action
    end.

Definition on_message (from : NodeId) (msg : RaftMsg) : RM unit :=
  s ← get;
  if r_failed s then mret tt
  else
    match msg with
    | RequestVote term candidate last_index last_term =>
        on_request_vote from term candidate last_index last_term
    | RequestVoteResp term granted => on_vote_resp from term granted
    | AppendEntries term leader prev_index prev_term entries leader_commit =>
        on_append_entries from term leader prev_index prev_term entries leader_commit
    | AppendEntriesResp term success match_index conflict_index =>
        on_append_resp from term success match_index conflict_index
    | InstallSnapshot term leader index index_term data =>
        on_install_snapshot from term leader index index_term data
    | InstallSnapshotResp term index => on_install_snapshot_resp from term index
    | ReadProbe term leader seq => on_read_probe from term leader seq
    | ReadProbeResp term seq => on_read_probe_resp from term seq
    | PreVote term candidate last_index last_term =>
        on_pre_vote from term candidate last_index last_term
    | PreVoteResp term round granted => on_pre_vote_resp from term round granted
    end.

Definition election_expired : RM unit :=
  s ← get;
  let '(fired, t) := deadline_fired (r_election_timer s) in
  modify (fun s => s ⟨ r_election_timer := t ⟩) ;;
  if negb fired then mret tt
  else if is_leader s then mret tt
  else if negb (is_member s) then reset_election_timer
  else if cfg_pre_vote (r_cfg s) then start_pre_vote
  else become_candidate.

Definition heartbeat_expired : RM unit :=
  s ← get;
  let '(fired, t) := deadline_fired (r_heartbeat_timer s) in
  modify (fun s => s ⟨ r_heartbeat_timer := t ⟩) ;;
  if negb fired then mret tt
  else if negb (is_leader s) then mret tt
  else
    broadcast_append ;;
    s ← get;
    when (existsb (fun r => negb (pr_confirmed r)) (r_pending_reads s)) broadcast_probe ;;
    reset_heartbeat_timer.

Definition on_timer (tag : TimerTag) : RM unit :=
  s ← get;
  if r_failed s then mret tt
  else if tag =? TIMER_ELECTION then election_expired
  else if tag =? TIMER_HEARTBEAT then heartbeat_expired
  else mret tt.

(** ** Recovery *)

(** The loop of [recover] over the entries read back: those the snapshot or the
    hard state rules out are skipped, and a gap ends it (its offset). *)
Fixpoint splice (hs_term' snap_index : Z) (read : list (Entry * nat))
    (entries : list Entry) (offsets : list nat)
  : option (list Entry * list nat * option nat) :=
  match read with
  | [] => Some (entries, offsets, None)
  | (e, off) :: read =>
      if hs_term' <? e_term e then splice hs_term' snap_index read entries offsets
      else if e_index e <=? snap_index then splice hs_term' snap_index read entries offsets
      else
        expected ← u64_add (from_option e_index snap_index (last entries)) 1;
        if negb (e_index e =? expected) then Some (entries, offsets, Some off)
        else splice hs_term' snap_index read (entries ++ [e]) (offsets ++ [off])
  end.

(** Everything [recover] computes from the three files. *)
Definition recover_state (wal snap_a snap_b : list byte) (id : NodeId)
    (members : list NodeId) (cfg : RaftConfig) (seed : Z) : option Raft :=
  let hs := recover_hard_state wal in
  let snap := pick_snapshot_with_source snap_a snap_b in
  let durable_snapshot_file :=
    (fun s => if s.2 =? 0 then FILE_SNAPSHOT_A else FILE_SNAPSHOT_B) <$> snap in
  let snap_index := from_option (fun s => sn_index s.1) 0 snap in
  let snap_term := from_option (fun s => sn_term s.1) 0 snap in
  let snapshot_seq := from_option (fun s => sn_seq s.1) 0 snap in
  let restore_blob := (fun s => sn_data s.1) <$> snap in
  let log_bytes := drop LOG_REGION wal in
  recovered ← recover_log_any_start log_bytes;
  '(entries, offsets, gap) ←
    splice (hs_term hs) snap_index (zip (rl_entries recovered) (rl_offsets recovered)) [] [];
  let valid := rl_valid_bytes recovered in
  let fin := default valid gap in
  let fin :=
    match last entries, last offsets with
    | Some e, Some off => (off + length (entry_to_record e))%nat
    | _, _ => if 0 <? snap_index then valid else fin
    end in
  let stale_region := bool_decide (entries = []) && (0 <? valid)%nat in
  let fin := if stale_region then 0%nat else fin in
  let log := log_from_parts snap_index snap_term entries offsets fin in
  let decoded := restore_blob ≫= decode_snapshot_payload in
  snapshot_seq ← u64_add snapshot_seq 1;
  state_seq ← u64_add (hs_seq hs) 1;
  Some {|
    r_id := id; r_members := members; r_cfg := cfg; r_role := Follower;
    r_term := hs_term hs; r_voted_for := hs_voted_for hs; r_log := log;
    r_commit_index := snap_index; r_last_applied := snap_index; r_leader := None;
    r_votes := ∅; r_pre_votes := None; r_next_index := ∅; r_match_index := ∅;
    r_durable_index := log_last_index log; r_parked := [];
    r_state_seq := state_seq; r_snapshot_seq := snapshot_seq;
    r_pending_restore := snd <$> decoded; r_snapshot_in_flight := false;
    r_durable_snapshot_file := durable_snapshot_file;
    r_snapshot_data := default [] restore_blob; r_highest_snapshot := snap_index;
    r_initial_members := members; r_snapshot_members := default [] (fst <$> decoded);
    r_config_index := 0; r_last_leader_contact := 0; r_read_seq := 0;
    r_pending_reads := []; r_probe_acked := ∅; r_read_events := [];
    r_durable_term := hs_term hs; r_durable_hard_state := hs;
    r_persister := persister_default; r_election_timer := deadline_new;
    r_heartbeat_timer := deadline_new; r_rng := rng_new seed; r_failed := false;
    r_stats := raft_stats_default
  |}.

(** [Raft::recover] *)
Definition recover {S} (id : NodeId) (members : list NodeId) (cfg : RaftConfig) (seed : Z)
  : M W S Raft :=
  wal ← read_all FILE_WAL;
  a ← read_all FILE_SNAPSHOT_A;
  b ← read_all FILE_SNAPSHOT_B;
  raft ← lift (recover_state wal a b id members cfg seed);
  with_state raft (refresh_config ;; observe_state "recover" ;; reset_election_timer).

End Handlers.

(** ** Handing results to the state machine *)

(** The loop of [take_applied]; every turn takes an entry the log holds. *)
Fixpoint take_applied_loop (fuel : nat) (l : RaftLog) (commit applied : Z) : list Entry * Z :=
  match fuel with
  | O => ([], applied)
  | S fuel =>
      if applied <? commit then
        match log_get l (applied + 1) with
        | Some e =>
            let '(out, applied) := take_applied_loop fuel l commit (applied + 1) in
            (e :: out, applied)
        | None => ([], applied)
        end
      else ([], applied)
  end.

Definition take_applied (r : Raft) : list Entry * Raft :=
  let l := r_log r in
  let start := Z.max (r_last_applied r) (l_snapshot_index l) in
  let '(out, applied) :=
    take_applied_loop (S (length (l_entries l))) l (r_commit_index r) start in
  (out, r ⟨ r_last_applied := applied ⟩).

Definition read_is_ready (r : Raft) (p : PendingRead) : bool :=
  pr_confirmed p && (pr_read_index p <=? r_last_applied r).

Definition take_ready_reads (r : Raft) : list Z * Raft :=
  if negb (is_leader r) then ([], r)
  else
    let ready := map pr_id (List.filter (read_is_ready r) (r_pending_reads r)) in
    (ready,
     r ⟨ r_pending_reads := List.filter (fun p => negb (read_is_ready r p)) (r_pending_reads r) ⟩
       ⟨ r_read_events := r_read_events r ++ map ReadServed ready ⟩).

Definition take_read_events (r : Raft) : list ReadEvent * Raft :=
  (r_read_events r, r ⟨ r_read_events := [] ⟩).

Definition take_failed_reads (r : Raft) : list Z * Raft :=
  if is_leader r then ([], r)
  else (map pr_id (r_pending_reads r), r ⟨ r_pending_reads := [] ⟩).

Definition take_pending_restore (r : Raft) : option (list byte) * Raft :=
  (r_pending_restore r, r ⟨ r_pending_restore := None ⟩).
