(* ===== verification/RaftInv.v ===== *)
(** * RaftInv: what every handler of a Raft node keeps

    The state invariant [Inv], the facts [Facts] that relate the state and the
    requests before and after, and their combination [Good], which each
    operation of [Raft] is shown to keep.  The properties of whole event
    handlers are in [RaftSafety]. *)
From Stdlib Require Import String.
From S2P Require Import Prelude Codec Crc LogFormat RaftLog Recovery Durable Messages Config.
From S2P Require Import Io Rng Persister RaftState Raft.
From Stdlib.Init Require Import Byte.

(** ** Hard states *)

(** [b] is a later state of the same node: a higher term, or the same term with
    no vote taken back. *)
Definition hs_le (a b : HardState) : Prop :=
  hs_term a < hs_term b \/
  (hs_term a = hs_term b /\
   forall c, hs_voted_for a = Some c -> hs_voted_for b = Some c).

#[export] Instance hs_le_preorder : PreOrder hs_le.
Proof.
  split.
  - intros a. right. auto.
  - intros a b c [?|[? Hv]] [?|[? Hw]]; [left; lia..|right]. split; [lia|auto].
Qed.

(** The vote for [c] in term [t] is on stable storage, or a later term is. *)
Definition vote_recorded (hs : HardState) (t : Z) (c : NodeId) : Prop :=
  t < hs_term hs \/ (t = hs_term hs /\ hs_voted_for hs = Some c).

Lemma vote_recorded_le a b t c : hs_le a b -> vote_recorded a t c -> vote_recorded b t c.
Proof. intros [?|[? Hv]] [?|[? Hc]]; [left; lia..|]. right. split; [lia|auto]. Qed.

Definition current_hs (s : Raft) : HardState :=
  mkHardState (r_term s) (r_voted_for s) (r_state_seq s).

(** Hard states a node wrote, by sequence number, never go back, and none is
    ahead of the node. *)
Record chain (cur : HardState) (hss : list HardState) : Prop := {
  chain_seq : Forall (fun h => hs_seq h < hs_seq cur) hss;
  chain_cur : Forall (fun h => hs_le h cur) hss;
  chain_le : forall a b, a ∈ hss -> b ∈ hss -> hs_seq a <= hs_seq b -> hs_le a b;
}.

(** The hard states known to the node: the durable one and those being written. *)
Definition hards (bs : list Batch) : list HardState := omap b_hard bs.
Definition written (s : Raft) : list HardState :=
  r_durable_hard_state s :: hards (p_batches (r_persister s)).

(** ** Messages *)

(** What a sender guarantees of a message's shape. *)
Definition msg_wf (m : RaftMsg) : Prop :=
  match m with
  | AppendEntries _ _ prev_index _ entries _ =>
      contiguous_from (prev_index + 1) entries = true /\ terms_ascend entries = true
  | _ => True
  end.

(** Which requests for a vote were made: [asks from t c] when [from] asked for a vote
    for [c] in term [t].  Nothing below depends on who asks. *)
Class Requests : Type := asks : NodeId -> Z -> NodeId -> Prop.
Definition request_known {RQ : Requests} (from : NodeId) (m : RaftMsg) : Prop :=
  match m with RequestVote t c _ _ => asks from t c | _ => True end.

(** A vote granted in the message was asked for by the receiver, and is recorded in
    [dhs] as a vote for the candidate it asked for. *)
Definition grant_ok {RQ : Requests} (dhs : HardState) (to : NodeId) (m : RaftMsg) : Prop :=
  forall t, m = RequestVoteResp t true -> exists c, asks to t c /\ vote_recorded dhs t c.
Definition no_grant (m : RaftMsg) : Prop := forall t, m <> RequestVoteResp t true.

(** A request allowed once term [dt] and hard state [dhs] are durable. *)
Definition ev_ok {RQ : Requests} (dt : Z) (dhs : HardState) (ev : IoEvent) : Prop :=
  match ev with
  | EvSend to bytes =>
      exists m, bytes = message_encode (MRaft m) /\ msg_term m <= dt /\ msg_wf m /\
        grant_ok dhs to m
  | _ => True
  end.

Lemma ev_ok_mono `{Requests} dt dt' dhs dhs' ev :
  dt <= dt' -> hs_le dhs dhs' -> ev_ok dt dhs ev -> ev_ok dt' dhs' ev.
Proof.
  intros Ht Hh. destruct ev; simpl; try done. intros (m & -> & ? & ? & Hv).
  exists m. split_and?; [done|lia|done|]. intros t Hm. destruct (Hv t Hm) as (c & ? & ?).
  exists c. split; [done|]. by eapply vote_recorded_le.
Qed.

(** ** Batches *)

Definition batch_ok {RQ : Requests} (b : Batch) : Prop :=
  match b_action b with
  | PVoteReply to t true =>
      exists hs c, b_hard b = Some hs /\ hs_term hs = t /\ hs_voted_for hs = Some c /\ asks to t c
  | PReply _ m => msg_wf m /\ no_grant m
  | PSnapshotInstalled index _ _ _ _ _ => 0 <= index
  | _ => True
  end.

(** A snapshot being taken covers nothing beyond index [c]. *)
Definition taken_below (c : Z) (b : Batch) : Prop :=
  match b_action b with PSnapshotTaken i _ _ => i <= c | _ => True end.

Lemma taken_below_mono c c' bs :
  c <= c' -> Forall (taken_below c) bs -> Forall (taken_below c') bs.
Proof.
  intros Hc Hb. eapply Forall_impl; [exact Hb|]. intros b. unfold taken_below.
  destruct (b_action b); auto. lia.
Qed.

(** ** The invariant *)

Record Inv {RQ : Requests} (s : Raft) : Prop := {
  inv_bug : cfg_bug (r_cfg s) = BugNone;
  inv_log : log_wf (r_log s);
  inv_snapshot : 0 <= l_snapshot_index (r_log s);
  inv_snapshot_commit : l_snapshot_index (r_log s) <= r_commit_index s;
  inv_applied : r_last_applied s <= r_commit_index s;
  inv_truncated : 0 <= st_truncated_committed (r_stats s);
  inv_commit : st_truncated_committed (r_stats s) = 0 ->
    r_commit_index s <= log_last_index (r_log s);
  inv_durable_index : r_durable_index s <= log_last_index (r_log s);
  inv_durable_term : r_durable_term s <= r_term s;
  inv_ids : Forall (fun b => b_id b <= p_next_id (r_persister s)) (p_batches (r_persister s));
  inv_batches : Forall batch_ok (p_batches (r_persister s));
  inv_taken : Forall (taken_below (r_commit_index s)) (p_batches (r_persister s));
  inv_chain : chain (current_hs s) (written s);
}.

(** ** What an event handler may change *)

Record Facts {RQ : Requests} {W} (s0 : Raft) (e0 : Env W) (s : Raft) (e : Env W) : Prop := {
  f_id : r_id s = r_id s0;
  f_cfg : r_cfg s = r_cfg s0;
  f_initial : r_initial_members s = r_initial_members s0;
  f_term : r_term s0 <= r_term s;
  f_vote : r_term s = r_term s0 -> forall c, r_voted_for s0 = Some c -> r_voted_for s = Some c;
  f_durable_term : r_durable_term s0 <= r_durable_term s;
  f_durable_hs : hs_le (r_durable_hard_state s0) (r_durable_hard_state s);
  f_commit : r_commit_index s0 <= r_commit_index s;
  f_applied : r_last_applied s0 <= r_last_applied s;
  f_state_seq : r_state_seq s0 <= r_state_seq s;
  f_truncated : st_truncated_committed (r_stats s0) <= st_truncated_committed (r_stats s);
  f_trace : exists new, env_trace e = env_trace e0 ++ new /\
    Forall (ev_ok (r_durable_term s) (r_durable_hard_state s)) new;
}.

Definition Good {RQ : Requests} {W} (s0 : Raft) (e0 : Env W) (s : Raft) (e : Env W) : Prop :=
  Inv s /\ Facts s0 e0 s e.

Lemma Good_refl `{Requests} {W} s (e : Env W) : Inv s -> Good s e s e.
Proof.
  intros Hi. split; [done|]. split; try done. exists [].
  split; [by rewrite app_nil_r|constructor].
Qed.

(** ** Automation *)

Create HintDb keeps discriminated.
#[export] Hint Constants Opaque : keeps.

Ltac good_open HG :=
  let Hi := fresh "Hi" in
  let Hf := fresh "Hf" in
  destruct HG as [Hi Hf]; destruct Hi, Hf.

Ltac bools :=
  repeat match goal with
  | H : (_ && _)%bool = true |- _ => apply andb_true_iff in H as [? ?]
  | H : (_ || _)%bool = false |- _ => apply orb_false_iff in H as [? ?]
  | H : negb _ = true |- _ => apply negb_true_iff in H
  | H : negb _ = false |- _ => apply negb_false_iff in H
  | H : (_ <? _) = true |- _ => apply Z.ltb_lt in H
  | H : (_ <? _) = false |- _ => apply Z.ltb_ge in H
  | H : (_ <=? _) = true |- _ => apply Z.leb_le in H
  | H : (_ <=? _) = false |- _ => apply Z.leb_gt in H
  | H : (_ =? _) = true |- _ => apply Z.eqb_eq in H
  | H : (_ =? _) = false |- _ => apply Z.eqb_neq in H
  | H : bool_decide _ = true |- _ => apply bool_decide_eq_true_1 in H
  | H : bool_decide _ = false |- _ => apply bool_decide_eq_false_1 in H
  end.

(** A call leaves a new state, known by what its lemma says of it; only the
    equation that it is the old one is substituted. *)

(** A state that differs in fields the invariant does not constrain. *)
Ltac good_tac :=
  match goal with
  | HG : Good ?s0 ?e0 ?s ?e |- Good ?s1 ?e1 ?s' ?e =>
      unify s1 s0; unify e1 e0; bools; good_open HG;
      split; split; unfold current_hs, written in *; simpl in *; solve [done | lia | auto]
  end.

(** The hypothesis about this very state; compared by syntax, since unfolding two
    updated states to compare them is exponential. *)
Ltac good_assumption :=
  match goal with
  | HG : Good _ _ ?s _ |- Good _ _ ?s' _ => constr_eq s s'; exact HG
  end.

Ltac good_done := first [good_assumption | good_tac].

#[export] Hint Extern 2 (Good _ _ _ _) => good_assumption : keeps.
#[export] Hint Extern 5 (Good _ _ _ _) => solve [good_tac] : keeps.

Ltac destruct_ex :=
  repeat match goal with
  | H : exists _, _ |- _ => destruct H
  | H : _ /\ _ |- _ => destruct H
  end; subst.

(** One step of a handler's weakest precondition; calls are left to hints. *)
Ltac wp_step :=
  cbv beta;
  lazymatch goal with
  | |- wp (_ ≫= _) _ _ _ => apply wp_bind
  | |- wp (mret _) _ _ _ => apply wp_ret
  | |- wp get _ _ _ => apply wp_get
  | |- wp (modify _) _ _ _ => apply wp_modify
  | |- wp (lift _) _ _ _ => apply wp_lift; intros ? ?
  | |- wp (add64 _ _) _ _ _ => apply wp_add64; intros ?
  | |- wp (sub64 _ _) _ _ _ => apply wp_sub64; intros ?
  | |- wp panic _ _ _ => apply wp_panic
  | |- wp (when _ _) _ _ _ => apply wp_when; intros ?
  | |- wp (if ?b then _ else _) _ _ _ => destruct b eqn:?
  | |- wp (match ?x with _ => _ end) _ _ _ => destruct x eqn:?
  | |- wp (let _ := _ in _) _ _ _ => cbv zeta
  end.

Ltac wp_call :=
  lazymatch goal with |- wp _ _ _ _ => idtac end; bools;
  eapply wp_mono; [solve [typeclasses eauto 6 with keeps nocore]|cbv beta; intros ? ? ? ?];
  repeat match goal with
  | H : _ /\ _ |- _ => destruct H
  | H : ?x = _ |- _ => is_var x; subst x
  end.

Ltac wp_go := repeat (wp_step || wp_call); bools.

(** ** Lemmas: batches and hard states *)

Lemma elem_of_hards bs h : h ∈ hards bs <-> exists b, b ∈ bs /\ b_hard b = Some h.
Proof. apply list_elem_of_omap. Qed.

Lemma chain_subset cur hss hss' :
  (forall h, h ∈ hss' -> h ∈ hss) -> chain cur hss -> chain cur hss'.
Proof.
  intros Hs [Hq Hc Hl]. rewrite Forall_forall in Hq. rewrite Forall_forall in Hc.
  split; [apply Forall_forall; auto..|auto].
Qed.

(** A chain stays one when the node moves on. *)
Lemma chain_cur_le cur cur' hss :
  hs_seq cur <= hs_seq cur' -> hs_le cur cur' -> chain cur hss -> chain cur' hss.
Proof.
  intros Hs Hl [Hq Hc Hle]. split; [| |done].
  - eapply Forall_impl; [exact Hq|]. simpl. lia.
  - eapply Forall_impl; [exact Hc|]. intros h Hh. by transitivity cur.
Qed.

(** Writing the current state extends the chain. *)
Lemma chain_write t v q hss :
  chain (mkHardState t v q) hss -> chain (mkHardState t v (q + 1)) (mkHardState t v q :: hss).
Proof.
  intros [Hq Hc Hle]. split.
  - constructor; [simpl; lia|]. eapply Forall_impl; [exact Hq|]. simpl. lia.
  - constructor; [right; auto|]. eapply Forall_impl; [exact Hc|].
    intros h [?|[? ?]]; [by left|right; auto].
  - rewrite Forall_forall in Hq. rewrite Forall_forall in Hc.
    intros a b [->|Ha]%elem_of_cons [->|Hb]%elem_of_cons; [done| |auto|auto].
    specialize (Hq b Hb). simpl in *. lia.
Qed.

Definition batch_sub {RQ : Requests} (bs' bs : list Batch) : Prop :=
  forall b', b' ∈ bs' -> exists b, b ∈ bs /\ b_id b' = b_id b /\ b_hard b' = b_hard b /\
    (batch_ok b -> batch_ok b') /\ forall c, taken_below c b -> taken_below c b'.

Lemma batch_sub_refl `{Requests} bs : batch_sub bs bs.
Proof. intros b Hb. by exists b. Qed.

Lemma batch_sub_hards `{Requests} bs bs' h : batch_sub bs' bs -> h ∈ hards bs' -> h ∈ hards bs.
Proof.
  intros Hs. rewrite !elem_of_hards. intros (b' & Hb' & Hh).
  destruct (Hs b' Hb') as (b & Hb & _ & He & _). exists b. split; congruence.
Qed.

Lemma batch_sub_update `{Requests} id f bs :
  (forall b, b_id (f b) = b_id b /\ b_hard (f b) = b_hard b /\ b_action (f b) = b_action b) ->
  batch_sub (batch_update id f bs) bs.
Proof.
  intros Hf. induction bs as [|b bs IH]; [apply batch_sub_refl|]. simpl. case_match.
  - intros b' [->|Hb']%elem_of_cons; [|by exists b'; split; [right|]].
    destruct (Hf b) as (? & Hh & Ha). exists b. unfold batch_ok, taken_below. rewrite Hh, Ha.
    split; [left|done].
  - intros b' [->|Hb']%elem_of_cons; [by exists b; split; [left|]|].
    destruct (IH b' Hb') as (c & ? & ?). exists c. split; [by right|done].
Qed.

Lemma batch_sub_clamp `{Requests} cap p : batch_sub (p_batches (persister_clamp_all cap p)) (p_batches p).
Proof.
  intros b' (b & <- & Hb)%list_elem_of_In%in_map_iff. exists b.
  split; [by apply list_elem_of_In|]. split_and?; try done.
  - unfold batch_ok. simpl. by destruct (b_action b).
  - intros c. unfold taken_below. simpl. by destruct (b_action b).
Qed.

Lemma batch_sub_complete `{Requests} op ok p ev p' :
  persister_on_complete op ok p = Some (ev, p') ->
  batch_sub (p_batches p') (p_batches p) /\ p_next_id p' = p_next_id p /\
  forall action hard, ev = BeDone action hard ->
    exists b, b ∈ p_batches p /\ b_action b = action /\ b_hard b = hard.
Proof.
  unfold persister_on_complete.
  destruct (pending_take op (p_ops p)) as [[[id kind] ops]|];
    [|by intros [= <- <-]; split_and?; [apply batch_sub_refl| |]].
  simpl. destruct ok; simpl.
  2: { intros [= <- <-]. split_and?; [|done|done]. intros b [Hb _]%list_elem_of_In%filter_In.
       exists b. by rewrite list_elem_of_In. }
  destruct kind.
  - destruct (persister_batch id _) as [b|];
      [|by intros [= <- <-]; split_and?; [apply batch_sub_refl| |]].
    destruct (b_writes_outstanding b) as [|n]; [done|].
    case_match; intros [= <- <-]; (split_and?; [by apply batch_sub_update|done|done]).
  - destruct (batch_remove id (p_batches p)) as [[b bs]|] eqn:Er; simpl; intros [= <- <-].
    + apply batch_remove_elem in Er as (l & k & -> & -> & _). split_and?; [|done|].
      * intros c Hc. exists c. set_solver.
      * intros a h [= <- <-]. exists b. set_solver.
    + split_and?; [apply batch_sub_refl|done|done].
Qed.

(** Replacing the persister by one with no more batches keeps the invariant. *)
Lemma Inv_persister `{Requests} s p :
  Inv s -> batch_sub (p_batches p) (p_batches (r_persister s)) ->
  p_next_id p = p_next_id (r_persister s) -> Inv (s ⟨ r_persister := p ⟩).
Proof.
  intros [] Hs Hn. split; simpl; try done.
  - rewrite Hn. apply Forall_forall. intros b' (b & Hb & -> & _)%Hs.
    rewrite Forall_forall in inv_ids0. auto.
  - apply Forall_forall. intros b' (b & Hb & _ & _ & Hok & _)%Hs.
    rewrite Forall_forall in inv_batches0. auto.
  - apply Forall_forall. intros b' (b & Hb & _ & _ & _ & Hok)%Hs.
    rewrite Forall_forall in inv_taken0. auto.
  - eapply chain_subset; [|exact inv_chain0]. intros h. unfold written. simpl.
    intros [->|Hh]%elem_of_cons; [left|right]. by eapply batch_sub_hards.
Qed.

(** ** Lemmas: the log *)

Lemma partition_point_le {A} (p : A -> bool) l : (partition_point p l <= length l)%nat.
Proof. induction l as [|a l IH]; simpl; [done|]. case_match; lia. Qed.

Lemma term_cap_le_last l t : log_wf l -> log_last_index_with_term_at_most l t <= log_last_index l.
Proof.
  intros Hwf. rewrite (wf_last_index l Hwf). unfold log_last_index_with_term_at_most.
  pose proof (partition_point_le (fun e => e_term e <=? t) (l_entries l)). lia.
Qed.

Lemma slice_wf l i max :
  log_wf l ->
  contiguous_from i (log_slice_from l i max) = true /\ terms_ascend (log_slice_from l i max) = true.
Proof.
  intros Hwf. unfold log_slice_from. case_match eqn:E; [done|]. bools.
  unfold log_first_index in *. rewrite (wf_last_index l Hwf) in *.
  set (st := Z.to_nat (i - (l_snapshot_index l + 1))). set (k := (_ - st)%nat).
  assert (Hst : (st <= length (l_entries l))%nat) by lia.
  pose proof (wf_contiguous l Hwf) as Hc. pose proof (wf_terms l Hwf) as Ht.
  rewrite <- (take_drop st (l_entries l)) in Hc, Ht.
  rewrite contiguous_app, length_take, Nat.min_l in Hc by done.
  apply andb_true_iff in Hc as [_ Hc]. apply terms_ascend_app in Ht as (_ & Ht & _).
  rewrite <- (take_drop k (drop st (l_entries l))) in Hc, Ht.
  rewrite contiguous_app in Hc. apply andb_true_iff in Hc as [Hc _].
  apply terms_ascend_app in Ht as (Ht & _ & _). split; [|done].
  rewrite <- Hc. f_equal. lia.
Qed.

(** An index the log knows the term of is one it reaches. *)
Lemma term_at_le_last l i t :
  log_wf l -> 0 <= l_snapshot_index l -> log_term_at l i = Some t -> i <= log_last_index l.
Proof.
  intros Hwf H0. rewrite (wf_last_index l Hwf). unfold log_term_at, NO_INDEX.
  destruct (Z.eqb_spec i 0); [lia|]. destruct (Z.eqb_spec i (l_snapshot_index l)); [lia|].
  intros Hg. apply fmap_Some in Hg as (en & Hg & _).
  destruct (proj1 (wf_get_is_Some l Hwf i)) as [_ Hle]; [by eexists|].
  by rewrite (wf_last_index l Hwf) in Hle.
Qed.

Lemma compact_snapshot_nonneg l i t :
  0 <= l_snapshot_index l ->
  0 <= l_snapshot_index (log_compact_to l i t) <= Z.max (l_snapshot_index l) i.
Proof. intros H0. unfold log_compact_to. case_match; bools; simpl; lia. Qed.

Section Keeps.
Context {W : Type} `{Io W} {RQ : Requests}.
Implicit Types (s : Raft) (e : Env W).

Lemma Good_persister s0 e0 s e p :
  Good s0 e0 s e -> batch_sub (p_batches p) (p_batches (r_persister s)) ->
  p_next_id p = p_next_id (r_persister s) -> Good s0 e0 (s ⟨ r_persister := p ⟩) e.
Proof. intros [Hi []] Hs Hn. split; [by apply Inv_persister|]. split; simpl; done. Qed.

Lemma Good_event s0 e0 s e w ev :
  Good s0 e0 s e -> ev_ok (r_durable_term s) (r_durable_hard_state s) ev ->
  Good s0 e0 s (mkEnv w (env_trace e ++ [ev])).
Proof.
  intros [Hi []] Hev. split; [done|]. split; try done. simpl.
  destruct f_trace0 as (new & -> & Hn). exists (new ++ [ev]). rewrite app_assoc.
  split; [done|]. apply Forall_app. split; [done|]. by constructor.
Qed.

(** ** Requests other than sends *)

Lemma keeps_request {A} (f : W -> A * W) ev s0 e0 s e :
  (forall a, ev_ok (r_durable_term s) (r_durable_hard_state s) (ev a)) -> Good s0 e0 s e ->
  wp (request f ev) (fun _ s' e' => s' = s /\ Good s0 e0 s' e') s e.
Proof. intros Hev HG. apply wp_request. intros a w _. split; [done|]. by apply Good_event. Qed.

Lemma keeps_observe tag args s0 e0 s e :
  Good s0 e0 s e -> wp (observe tag args) (fun _ s' e' => s' = s /\ Good s0 e0 s' e') s e.
Proof. intros. by apply keeps_request. Qed.
Lemma keeps_write_at file off bs s0 e0 s e :
  Good s0 e0 s e -> wp (write_at file off bs) (fun _ s' e' => s' = s /\ Good s0 e0 s' e') s e.
Proof. intros. by apply keeps_request. Qed.
Lemma keeps_set_len file len s0 e0 s e :
  Good s0 e0 s e -> wp (set_len file len) (fun _ s' e' => s' = s /\ Good s0 e0 s' e') s e.
Proof. intros. by apply keeps_request. Qed.
Lemma keeps_sync file s0 e0 s e :
  Good s0 e0 s e -> wp (sync file) (fun _ s' e' => s' = s /\ Good s0 e0 s' e') s e.
Proof. intros. by apply keeps_request. Qed.
Lemma keeps_now s0 e0 s e :
  Good s0 e0 s e -> wp now (fun _ s' e' => s' = s /\ Good s0 e0 s' e') s e.
Proof. done. Qed.

Lemma keeps_deadline_disarm d s0 e0 s e :
  Good s0 e0 s e -> wp (deadline_disarm d) (fun _ s' e' => s' = s /\ Good s0 e0 s' e') s e.
Proof.
  intros HG. unfold deadline_disarm. case_match; [|by apply wp_ret].
  apply wp_bind. eapply wp_mono; [by apply keeps_request|]. intros _ s' e' [-> ?]. by apply wp_ret.
Qed.

Lemma keeps_deadline_reset d delay tag s0 e0 s e :
  Good s0 e0 s e -> wp (deadline_reset d delay tag) (fun _ s' e' => s' = s /\ Good s0 e0 s' e') s e.
Proof.
  intros HG. unfold deadline_reset. apply wp_bind.
  eapply wp_mono; [by apply keeps_deadline_disarm|]. intros d' s1 e1 [-> ?].
  apply wp_bind. eapply wp_mono; [by apply keeps_now|]. intros t s2 e2 [-> ?].
  apply wp_bind. eapply wp_mono; [by apply keeps_request|]. intros h s3 e3 [-> ?]. by apply wp_ret.
Qed.

#[local] Hint Resolve keeps_observe keeps_write_at keeps_set_len keeps_sync keeps_now
  keeps_deadline_disarm keeps_deadline_reset : keeps.

(** ** Plumbing *)

Lemma keeps_bump_by (f : RaftStats -> Z) `{!Setter f} n s0 e0 s e :
  Good s0 e0 s e -> 0 <= n ->
  (forall r v, f r <= v ->
     st_truncated_committed r <= st_truncated_committed (r ⟨ f := v ⟩)) ->
  wp (bump_by f n) (fun _ s' e' =>
    e' = e /\ Good s0 e0 s' e' /\
    exists st, s' = s ⟨ r_stats := st ⟩ /\
      st_truncated_committed (r_stats s) <= st_truncated_committed st) s e.
Proof.
  intros HG Hn Hf. unfold bump_by. do 4 wp_step.
  specialize (Hf (r_stats s) (f (r_stats s) + n) ltac:(lia)).
  split; [done|]. split; [|by eexists].
  good_open HG. split; split; simpl; try done; try lia.
Qed.

Lemma keeps_bump (f : RaftStats -> Z) `{!Setter f} s0 e0 s e :
  Good s0 e0 s e ->
  (forall r v, f r <= v ->
     st_truncated_committed r <= st_truncated_committed (r ⟨ f := v ⟩)) ->
  wp (bump f) (fun _ s' e' =>
    e' = e /\ Good s0 e0 s' e' /\
    exists st, s' = s ⟨ r_stats := st ⟩ /\
      st_truncated_committed (r_stats s) <= st_truncated_committed st) s e.
Proof. intros. by apply keeps_bump_by. Qed.

#[local] Hint Resolve keeps_bump : keeps.
#[local] Hint Extern 3 (msg_wf _) => exact I : keeps.
#[local] Hint Extern 3 (grant_ok _ _ _) => (intros ? ?; discriminate) : keeps.
#[local] Hint Extern 3 (no_grant _) => (intros ? ?; discriminate) : keeps.
#[local] Hint Extern 3 (st_truncated_committed _ <= _) => (simpl; lia) : keeps.

Lemma keeps_send to msg s0 e0 s e :
  Good s0 e0 s e -> msg_wf msg ->
  grant_ok (r_durable_hard_state s) to msg ->
  wp (send to msg) (fun _ s' e' => s' = s /\ Good s0 e0 s' e') s e.
Proof.
  intros HG Hwf Hv. unfold send. do 3 wp_step; [by wp_step|].
  apply keeps_request; [|done]. intros _. exists msg. bools. done.
Qed.

Lemma keeps_start_batch action s0 e0 s e :
  Good s0 e0 s e -> batch_ok (mkBatch 0 FILE_WAL 0 false action None) ->
  taken_below (r_commit_index s) (mkBatch 0 FILE_WAL 0 false action None) ->
  wp (start_batch action) (fun _ s' e' => e' = e /\ Good s0 e0 s' e') s e.
Proof.
  intros HG Hok Htk. unfold start_batch. repeat wp_step. split; [done|].
  unfold persister_start in *.
  destruct (u64_add (p_next_id (r_persister s)) 1) as [id|] eqn:Eid; [|done].
  apply u64_add_Some in Eid as [-> _]. simplify_eq/=.
  good_open HG. split; split; simpl; try done.
  - apply Forall_app. split; [|constructor; [simpl; lia|constructor]].
    eapply Forall_impl; [exact inv_ids0|]. simpl. lia.
  - apply Forall_app. split; [done|]. by constructor.
  - apply Forall_app. split; [done|]. by constructor.
  - eapply chain_subset; [|exact inv_chain0]. unfold written, hards. simpl.
    intros h. rewrite omap_app. simpl. by rewrite app_nil_r.
Qed.

Lemma keeps_reset_election_timer s0 e0 s e :
  Good s0 e0 s e ->
  wp reset_election_timer (fun _ s' e' => Good s0 e0 s' e' /\
    exists g t, s' = s ⟨ r_rng := g ⟩ ⟨ r_election_timer := t ⟩) s e.
Proof. intros HG. unfold reset_election_timer. wp_go. split; [good_tac|eauto]. Qed.

Lemma keeps_disarm_heartbeat s0 e0 s e :
  Good s0 e0 s e ->
  wp disarm_heartbeat (fun _ s' e' => Good s0 e0 s' e' /\
    exists t, s' = s ⟨ r_heartbeat_timer := t ⟩) s e.
Proof. intros HG. unfold disarm_heartbeat. wp_go. split; [good_tac|eauto]. Qed.

Lemma keeps_disarm_election s0 e0 s e :
  Good s0 e0 s e -> wp disarm_election (fun _ s' e' => Good s0 e0 s' e') s e.
Proof. intros HG. unfold disarm_election. wp_go; good_done. Qed.

Lemma keeps_reset_heartbeat_timer s0 e0 s e :
  Good s0 e0 s e -> wp reset_heartbeat_timer (fun _ s' e' => Good s0 e0 s' e') s e.
Proof. intros HG. unfold reset_heartbeat_timer. wp_go; good_done. Qed.

Lemma keeps_push_entry en s0 e0 s e :
  Good s0 e0 s e ->
  wp (push_entry en) (fun _ s' e' => e' = e /\ Good s0 e0 s' e' /\
    exists l, s' = s ⟨ r_log := l ⟩ /\ log_append (r_log s) en = Some l) s e.
Proof.
  intros HG. unfold push_entry. repeat wp_step. split; [done|]. split; [|by eexists].
  good_open HG. pose proof (log_append_wf _ _ _ inv_log0 ltac:(done)).
  assert (Ha : log_append (r_log s) en = Some a) by done.
  pose proof (log_append_facts _ _ _ Ha) as (Hi & _ & Hs & _ & _).
  apply log_append_Some in Ha as (Hi' & _ & _).
  split; split; simpl; try done; rewrite ?Hi, ?Hs; lia.
Qed.

#[local] Hint Resolve keeps_bump_by keeps_send keeps_start_batch keeps_reset_election_timer
  keeps_disarm_heartbeat keeps_disarm_election keeps_reset_heartbeat_timer keeps_push_entry : keeps.

(** ** Membership *)

(** Only the membership and the leader's maps changed. *)
Definition config_frame s s' : Prop :=
  exists m i n x, s' = s ⟨ r_members := m ⟩ ⟨ r_config_index := i ⟩ ⟨ r_next_index := n ⟩
                         ⟨ r_match_index := x ⟩.

Lemma raft_maps_eta s :
  s = s ⟨ r_next_index := r_next_index s ⟩ ⟨ r_match_index := r_match_index s ⟩.
Proof. by destruct s. Qed.

Lemma raft_applied_eta s : s = s ⟨ r_last_applied := r_last_applied s ⟩.
Proof. by destruct s. Qed.

Lemma raft_pending_eta s : s = s ⟨ r_pending_restore := r_pending_restore s ⟩.
Proof. by destruct s. Qed.

Lemma refresh_config_frame s e :
  wp refresh_config (fun _ s' e' => e' = e /\ config_frame s s') s e.
Proof.
  unfold refresh_config, sync_peer_maps. wp_go; (split; [done|]).
  - do 4 eexists. reflexivity.
  - do 4 eexists. apply raft_maps_eta.
Qed.

Lemma keeps_refresh_config s0 e0 s e :
  Good s0 e0 s e ->
  wp refresh_config (fun _ s' e' => e' = e /\ Good s0 e0 s' e' /\ config_frame s s') s e.
Proof.
  intros HG. eapply wp_mono; [apply refresh_config_frame|].
  intros _ s' e' [-> (m & i & n & x & ->)]. split; [done|]. split; [good_tac|].
  by exists m, i, n, x.
Qed.

Lemma keeps_step_aside s0 e0 s e :
  Good s0 e0 s e -> wp step_aside_if_removed (fun _ s' e' => Good s0 e0 s' e') s e.
Proof. intros HG. unfold step_aside_if_removed. wp_go; good_done. Qed.

#[local] Hint Resolve keeps_refresh_config keeps_step_aside : keeps.

(** ** Persistence *)

Lemma keeps_persisting f s0 e0 s e :
  Good s0 e0 s e -> (forall p, batch_sub (p_batches (f p)) (p_batches p)) ->
  (forall p, p_next_id (f p) = p_next_id p) ->
  wp (persisting f) (fun _ s' e' => e' = e /\ Good s0 e0 s' e' /\
    s' = s ⟨ r_persister := f (r_persister s) ⟩) s e.
Proof. intros HG Hs Hn. unfold persisting. wp_step. split; [done|]. split; [|done].
  by apply Good_persister.
Qed.

#[local] Hint Resolve keeps_persisting : keeps.
#[local] Hint Extern 3 (taken_below _ _) => (unfold taken_below; simpl; solve [done|lia]) : keeps.
#[local] Hint Extern 3 (batch_ok _) => (unfold batch_ok; simpl; done) : keeps.
#[local] Hint Extern 3 (batch_sub _ _) => (by apply batch_sub_update) : keeps.
#[local] Hint Extern 3 (p_next_id _ = _) => reflexivity : keeps.

Lemma keeps_write_log_from batch from truncated s0 e0 s e :
  Good s0 e0 s e -> wp (write_log_from batch from truncated) (fun _ s' e' => Good s0 e0 s' e') s e.
Proof. intros HG. unfold write_log_from. wp_go; eauto with keeps. Qed.

Lemma keeps_persist_log_from from truncated reply_to reply_term verified s0 e0 s e :
  Good s0 e0 s e ->
  wp (persist_log_from from truncated reply_to reply_term verified)
    (fun _ s' e' => Good s0 e0 s' e') s e.
Proof.
  intros HG. unfold persist_log_from. wp_go. by apply keeps_write_log_from.
Qed.

(** The batch [start_batch] opens. *)
Definition opened s action id : Raft :=
  s ⟨ r_persister := mkPersister id
        (p_batches (r_persister s) ++ [mkBatch id FILE_WAL 0 false action None])
        (p_ops (r_persister s)) ⟩.

Lemma start_batch_opened action s e :
  wp (start_batch action) (fun id s' e' =>
    e' = e /\ id = p_next_id (r_persister s) + 1 /\ s' = opened s action id) s e.
Proof.
  unfold start_batch. repeat wp_step. split; [done|].
  unfold persister_start in *.
  destruct (u64_add (p_next_id (r_persister s)) 1) as [id|] eqn:Eid; [|done].
  apply u64_add_Some in Eid as [-> _]. by simplify_eq/=.
Qed.

Lemma batch_update_snoc id f bs b :
  b_id b = id -> Forall (fun c => b_id c <> id) bs -> batch_update id f (bs ++ [b]) = bs ++ [f b].
Proof.
  intros Hb. induction 1 as [|c bs Hc _ IH]; simpl; [by rewrite Hb, Z.eqb_refl|].
  rewrite (proj2 (Z.eqb_neq _ _)) by done. by rewrite IH.
Qed.

(** Writing the hard state into the batch just opened: the batch now carries
    the node's current term and vote. *)
Lemma keeps_write_hard_state action s0 e0 s e :
  Good s0 e0 s e ->
  batch_ok (mkBatch 0 FILE_WAL 0 false action (Some (current_hs s))) ->
  taken_below (r_commit_index s) (mkBatch 0 FILE_WAL 0 false action None) ->
  let id := p_next_id (r_persister s) + 1 in
  wp (write_hard_state id) (fun _ s' e' => Good s0 e0 s' e' /\
    exists q p, s' = s ⟨ r_persister := p ⟩ ⟨ r_state_seq := q ⟩) (opened s action id) e.
Proof.
  intros HG Hok Htk id. unfold write_hard_state, persisting. repeat wp_step.
  apply wp_request. intros op w _. repeat wp_step. split; [|by do 2 eexists].
  assert (Hids : Forall (fun c => b_id c <> id) (p_batches (r_persister s))).
  { destruct HG as [[] _]. eapply Forall_impl; [exact inv_ids0|]. simpl. lia. }
  simpl. unfold persister_note_write, persister_note_hard_state, with_op, with_batch. simpl.
  rewrite !batch_update_snoc by done. simpl.
  apply (Good_event _ _ _ _ w (EvWriteAt op FILE_WAL _ _)); [|done].
  good_open HG. split; split; simpl; try done; try lia.
  - apply Forall_app. split; [|constructor; [simpl; lia|constructor]].
    eapply Forall_impl; [exact inv_ids0|]. simpl. lia.
  - apply Forall_app. split; [done|]. by constructor.
  - apply Forall_app. split; [done|]. by constructor.
  - apply (chain_subset _ (current_hs s :: written s)).
    + unfold written, hards. simpl. intros h. rewrite omap_app. simpl. set_solver.
    + by apply chain_write.
Qed.

(** The two together, as the handlers use them. *)
Lemma keeps_persist_hard action (k : Z -> M W Raft unit) s0 e0 s e :
  Good s0 e0 s e ->
  batch_ok (mkBatch 0 FILE_WAL 0 false action (Some (current_hs s))) ->
  taken_below (r_commit_index s) (mkBatch 0 FILE_WAL 0 false action None) ->
  (forall id s' e', Good s0 e0 s' e' ->
     (exists q p, s' = s ⟨ r_persister := p ⟩ ⟨ r_state_seq := q ⟩) ->
     wp (k id) (fun _ s' e' => Good s0 e0 s' e') s' e') ->
  wp (start_batch action ≫= fun id => write_hard_state id ;; k id)
    (fun _ s' e' => Good s0 e0 s' e') s e.
Proof.
  intros HG Hok Htk Hk. wp_step. eapply wp_mono; [apply start_batch_opened|].
  intros id s1 e1 (-> & -> & ->). wp_step. eapply wp_mono; [by apply keeps_write_hard_state|].
  intros [] s2 e2 [HG2 Hs2]. by apply Hk.
Qed.

Lemma keeps_persist_hard_last action s0 e0 s e :
  Good s0 e0 s e ->
  batch_ok (mkBatch 0 FILE_WAL 0 false action (Some (current_hs s))) ->
  taken_below (r_commit_index s) (mkBatch 0 FILE_WAL 0 false action None) ->
  wp (start_batch action ≫= write_hard_state) (fun _ s' e' => Good s0 e0 s' e') s e.
Proof.
  intros HG Hok Htk. wp_step. eapply wp_mono; [apply start_batch_opened|].
  intros id s1 e1 (-> & -> & ->). eapply wp_mono; [by apply keeps_write_hard_state|].
  by intros [] s2 e2 [HG2 Hs2].
Qed.

#[local] Hint Resolve keeps_write_log_from keeps_persist_log_from : keeps.

(** ** Durability claims *)

(** Only the parked ranges and the durable index changed. *)
Definition durable_frame s s' : Prop :=
  exists p d, s' = s ⟨ r_parked := p ⟩ ⟨ r_durable_index := d ⟩.

Lemma durable_frame_trans s s1 s2 :
  durable_frame s s1 -> durable_frame s1 s2 -> durable_frame s s2.
Proof. intros (p & d & ->) (p' & d' & ->). by exists p', d'. Qed.

Lemma durable_frame_refl s : durable_frame s s.
Proof. exists (r_parked s), (r_durable_index s). by destruct s. Qed.

(** A request that says nothing to anyone. *)
Definition quiet (ev : IoEvent) : Prop := match ev with EvSend _ _ => False | _ => True end.

Definition quiet_since e e' : Prop :=
  exists new, env_trace e' = env_trace e ++ new /\ Forall quiet new.

Lemma quiet_since_refl e : quiet_since e e.
Proof. exists []. by rewrite app_nil_r. Qed.

Lemma Good_quiet s0 e0 s e e' : Good s0 e0 s e -> quiet_since e e' -> Good s0 e0 s e'.
Proof.
  intros [Hi []] (new & Hn & Hq). split; [done|]. split; try done.
  destruct f_trace0 as (old & Ho & Hall). exists (old ++ new). rewrite Hn, Ho, app_assoc.
  split; [done|]. apply Forall_app. split; [done|].
  eapply Forall_impl; [exact Hq|]. by intros [].
Qed.

Lemma advance_loop_spec fuel cap s e :
  cap <= log_last_index (r_log s) -> r_durable_index s <= log_last_index (r_log s) ->
  wp (advance_loop fuel cap) (fun _ s' e' => durable_frame s s' /\
    r_durable_index s' <= log_last_index (r_log s) /\ quiet_since e e') s e.
Proof.
  revert s e. induction fuel as [|fuel IH]; intros s e Hcap Hd; [done|].
  cbn [advance_loop].
  assert (Hp : forall p, durable_frame s (s ⟨ r_parked := p ⟩))
    by (intros p; exists p, (r_durable_index s); by destruct s).
  assert (Hgo : forall s1, durable_frame s s1 -> r_durable_index s1 <= log_last_index (r_log s) ->
    wp (observe "durable" [r_durable_index s1] ;; advance_loop fuel cap)
      (fun _ s' e' => durable_frame s s' /\ r_durable_index s' <= log_last_index (r_log s) /\
         quiet_since e e') s1 e).
  { intros s1 Hfr Hd1. wp_step. apply wp_request. intros [] w _.
    assert (Hl : r_log s1 = r_log s) by (by destruct Hfr as (p & d & ->)).
    eapply wp_mono; [apply IH; by rewrite Hl|]. rewrite Hl.
    intros [] s2 e2 (Hfr2 & Hd2 & new & Hn & Hq). simpl in Hn. split_and?; [|done|].
    - by eapply durable_frame_trans.
    - eexists. rewrite Hn, <- app_assoc. split; [done|]. by constructor. }
  repeat wp_step; bools.
  all: try (split_and?; [done|done|apply quiet_since_refl]).
  all: eapply Hgo; [by do 2 eexists|simpl; lia].
Qed.

Lemma advance_durable_spec s e :
  log_wf (r_log s) -> r_durable_index s <= log_last_index (r_log s) ->
  wp advance_durable (fun _ s' e' => durable_frame s s' /\
    r_durable_index s' <= log_last_index (r_log s) /\ quiet_since e e') s e.
Proof.
  intros Hwf Hd. unfold advance_durable. repeat wp_step.
  eapply wp_mono; [apply advance_loop_spec; [by apply term_cap_le_last|done]|].
  intros [] s1 e1 (Hfr & Hd1 & Hq). repeat wp_step; (split_and?; [|done|done]); [|done].
  destruct Hfr as (p & d & ->). by do 2 eexists.
Qed.

Lemma keeps_advance_durable s0 e0 s e :
  Good s0 e0 s e ->
  wp advance_durable (fun _ s' e' => Good s0 e0 s' e' /\ durable_frame s s') s e.
Proof.
  intros HG. eapply wp_mono; [apply advance_durable_spec; apply HG|].
  intros [] s1 e1 (Hfr & Hd & Hq). split; [|done].
  apply (Good_quiet _ _ _ _ e1) in HG; [|done]. destruct Hfr as (p & d & ->). good_tac.
Qed.

(** ** Stepping down *)

Lemma keeps_step_down term s0 e0 s e :
  Good s0 e0 s e -> r_term s < term ->
  wp (step_down term) (fun _ s' e' => Good s0 e0 s' e' /\
    r_term s' = term /\ r_voted_for s' = None /\ r_log s' = r_log s) s e.
Proof.
  intros HG Ht. unfold step_down.
  assert (Hgo : forall s e, Good s0 e0 s e -> r_term s < term ->
    Good s0 e0 (s ⟨ r_term := term ⟩ ⟨ r_voted_for := None ⟩ ⟨ r_role := Follower ⟩
                  ⟨ r_leader := None ⟩ ⟨ r_votes := ∅ ⟩) e).
  { clear. intros s e HG Ht. good_open HG. split; split; simpl; try done; try lia.
    eapply chain_cur_le; [| |exact inv_chain0]; [done|]. by left. }
  assert (Htail : forall s1 e1, Good s0 e0 s1 e1 -> r_term s1 < term -> r_log s1 = r_log s ->
    wp (modify (fun s => s ⟨ r_term := term ⟩ ⟨ r_voted_for := None ⟩ ⟨ r_role := Follower ⟩
                  ⟨ r_leader := None ⟩ ⟨ r_votes := ∅ ⟩) ;;
        disarm_heartbeat ;; reset_election_timer)
      (fun _ s' e' => Good s0 e0 s' e' /\ r_term s' = term /\ r_voted_for s' = None /\
         r_log s' = r_log s) s1 e1).
  { intros s1 e1 HG1 Ht1 Hl. repeat wp_step.
    eapply wp_mono; [by apply keeps_disarm_heartbeat, Hgo|]. intros [] s2 e2 (HG2 & t & ->).
    eapply wp_mono; [by apply keeps_reset_election_timer|]. by intros [] s3 e3 (HG3 & g & d & ->). }
  wp_step. wp_step. wp_step. wp_step; [|by apply Htail].
  wp_call. destruct_ex. by apply Htail.
Qed.

Lemma keeps_step_down_and_persist term s0 e0 s e :
  Good s0 e0 s e -> r_term s < term ->
  wp (step_down_and_persist term) (fun _ s' e' => Good s0 e0 s' e') s e.
Proof.
  intros HG Ht. unfold step_down_and_persist. wp_step.
  eapply wp_mono; [by apply keeps_step_down|]. intros [] s1 e1 (HG1 & _).
  by apply keeps_persist_hard_last.
Qed.

#[local] Hint Resolve keeps_advance_durable keeps_step_down keeps_step_down_and_persist : keeps.

(** ** Replication: the leader's side *)

Lemma keeps_send_append_to to s0 e0 s e :
  Good s0 e0 s e -> wp (send_append_to to) (fun _ s' e' => Good s0 e0 s' e') s e.
Proof.
  intros HG. unfold send_append_to. cbv zeta. wp_step. wp_step. wp_step.
  - wp_go; good_done.
  - repeat wp_step; [|done].
    eapply wp_mono; [apply keeps_bump; [done|simpl; lia]|]. intros [] s1 e1 (-> & HG1 & st & -> & _).
    eapply wp_mono; [apply keeps_send; [done| |done]|by intros [] s2 e2 [-> ?]].
    destruct HG as [[] _]. unfold msg_wf. rewrite Z.sub_add. by apply slice_wf.
Qed.

Lemma keeps_for_each {A} (l : list A) (f : A -> M W Raft unit) s0 e0 s e :
  (forall a s e, Good s0 e0 s e -> wp (f a) (fun _ s' e' => Good s0 e0 s' e') s e) ->
  Good s0 e0 s e -> wp (for_each l f) (fun _ s' e' => Good s0 e0 s' e') s e.
Proof. intros Hf HG. apply (wp_for_each _ _ (Good s0 e0)); auto. Qed.

Lemma keeps_broadcast_append s0 e0 s e :
  Good s0 e0 s e -> wp broadcast_append (fun _ s' e' => Good s0 e0 s' e') s e.
Proof.
  intros HG. unfold broadcast_append. wp_step. wp_step. apply keeps_for_each; [|done].
  intros. by apply keeps_send_append_to.
Qed.

(** The same message to every peer. *)
Lemma keeps_broadcast l msg s0 e0 s e :
  Good s0 e0 s e -> msg_wf msg -> no_grant msg ->
  wp (for_each l (fun p => send p msg)) (fun _ s' e' => s' = s /\ Good s0 e0 s' e') s e.
Proof.
  intros HG Hwf Hm.
  apply (wp_for_each _ _ (fun s' e' => s' = s /\ Good s0 e0 s' e')); [done| |done].
  intros p s1 e1 _ [-> HG1]. apply keeps_send; [done..|]. intros t E. by destruct (Hm t).
Qed.

Lemma keeps_maybe_commit s0 e0 s e :
  Good s0 e0 s e -> wp maybe_commit (fun _ s' e' => Good s0 e0 s' e') s e.
Proof.
  intros HG. unfold maybe_commit. repeat wp_step; [|done]. bools.
  assert (HG1 : Good s0 e0 (s ⟨ r_commit_index := a ⟩) e).
  { good_open HG. split; split; simpl; try done; try lia.
    - intros _.
      match goal with Hc : (_ || _)%bool = true |- _ => apply orb_true_iff in Hc as [Ht|Hb] end;
        bools; [by eapply term_at_le_last|congruence].
    - eapply taken_below_mono; [|done]. lia. }
  eapply wp_mono; [by apply keeps_step_aside|]. intros [] s1 e1 HG2. wp_go; good_done.
Qed.

#[local] Hint Resolve keeps_send_append_to keeps_broadcast_append keeps_broadcast
  keeps_maybe_commit : keeps.

Lemma keeps_on_append_resp from term success m c s0 e0 s e :
  Good s0 e0 s e ->
  wp (on_append_resp from term success m c) (fun _ s' e' => Good s0 e0 s' e') s e.
Proof.
  intros HG. unfold on_append_resp. cbv zeta. do 3 wp_step; [bools; by apply keeps_step_down_and_persist|].
  wp_go; good_done.
Qed.

Lemma keeps_propose cmd s0 e0 s e :
  Good s0 e0 s e -> wp (propose cmd) (fun _ s' e' => Good s0 e0 s' e') s e.
Proof. intros HG. unfold propose. wp_go; good_done. Qed.

Lemma keeps_propose_membership members s0 e0 s e :
  Good s0 e0 s e -> wp (propose_membership members) (fun _ s' e' => Good s0 e0 s' e') s e.
Proof. intros HG. unfold propose_membership. wp_go; good_done. Qed.

(** ** ReadIndex *)

Lemma keeps_broadcast_probe s0 e0 s e :
  Good s0 e0 s e -> wp broadcast_probe (fun _ s' e' => Good s0 e0 s' e') s e.
Proof.
  intros HG. unfold broadcast_probe. do 3 wp_step.
  eapply wp_mono; [by apply keeps_broadcast|]. intros [] s1 e1 [-> HG1]. wp_go; good_done.
Qed.

#[local] Hint Resolve keeps_broadcast_probe : keeps.

Lemma keeps_request_read id s0 e0 s e :
  Good s0 e0 s e -> wp (request_read id) (fun _ s' e' => Good s0 e0 s' e') s e.
Proof. intros HG. unfold request_read. wp_go; good_done. Qed.

Lemma keeps_on_read_probe from term leader seq s0 e0 s e :
  Good s0 e0 s e -> wp (on_read_probe from term leader seq) (fun _ s' e' => Good s0 e0 s' e') s e.
Proof.
  intros HG. unfold on_read_probe. do 3 wp_step.
  - eapply wp_mono; [by apply keeps_send|by intros [] s1 e1 [-> ?]].
  - wp_step; [bools; wp_step; eapply wp_mono; [by apply keeps_step_down_and_persist|]|].
    + intros [] s1 e1 HG1. wp_go; good_done.
    + wp_go; good_done.
Qed.

Lemma keeps_on_read_probe_resp from term seq s0 e0 s e :
  Good s0 e0 s e -> wp (on_read_probe_resp from term seq) (fun _ s' e' => Good s0 e0 s' e') s e.
Proof.
  intros HG. unfold on_read_probe_resp. do 3 wp_step; [bools; by apply keeps_step_down_and_persist|].
  wp_go; good_done.
Qed.

#[local] Hint Resolve keeps_on_append_resp keeps_on_read_probe keeps_on_read_probe_resp : keeps.

(** ** Elections *)

Lemma keeps_become_leader s0 e0 s e :
  Good s0 e0 s e -> wp become_leader (fun _ s' e' => Good s0 e0 s' e') s e.
Proof. intros HG. unfold become_leader. wp_go; good_done. Qed.

Lemma keeps_become_candidate s0 e0 s e :
  Good s0 e0 s e -> wp become_candidate (fun _ s' e' => Good s0 e0 s' e') s e.
Proof.
  intros HG. unfold become_candidate. repeat wp_step. set (s1 := set_field r_votes _ _).
  assert (HG1 : Good s0 e0 s1 e).
  { good_open HG. split; split; simpl; try done; try lia.
    eapply chain_cur_le; [| |exact inv_chain0]; [done|]. left. simpl. lia. }
  clearbody s1. wp_call. wp_step. wp_call. apply keeps_persist_hard; [done|done|done|].
  intros id s2 e2 HG2 _. wp_go; good_done.
Qed.

#[local] Hint Resolve keeps_become_leader keeps_become_candidate : keeps.

Lemma keeps_start_pre_vote s0 e0 s e :
  Good s0 e0 s e -> wp start_pre_vote (fun _ s' e' => Good s0 e0 s' e') s e.
Proof. intros HG. unfold start_pre_vote. cbv zeta. wp_go; good_done. Qed.

Lemma keeps_on_pre_vote from term candidate li lt s0 e0 s e :
  Good s0 e0 s e ->
  wp (on_pre_vote from term candidate li lt) (fun _ s' e' => Good s0 e0 s' e') s e.
Proof. intros HG. unfold on_pre_vote. cbv zeta. wp_go; good_done. Qed.

Lemma keeps_on_pre_vote_resp from term round granted s0 e0 s e :
  Good s0 e0 s e ->
  wp (on_pre_vote_resp from term round granted) (fun _ s' e' => Good s0 e0 s' e') s e.
Proof.
  intros HG. unfold on_pre_vote_resp. do 3 wp_step.
  - bools. wp_step. wp_step. apply keeps_step_down_and_persist; [good_tac|done].
  - wp_go; good_done.
Qed.

(** The vote decision, from a state whose term is the request's. *)
Lemma keeps_decide_vote from candidate li lt dirty s0 e0 s e :
  Good s0 e0 s e -> asks from (r_term s) candidate ->
  wp (decide_vote from candidate li lt dirty) (fun _ s' e' => Good s0 e0 s' e') s e.
Proof.
  intros HG Hask. unfold decide_vote. cbv zeta. wp_step. wp_step.
  set (free := bool_decide (r_voted_for s = None) || _).
  set (granted := free && _). set (casts := granted && _).
  apply wp_bind.
  eapply (wp_mono _ (fun _ s' e' => Good s0 e0 s' e' /\
    (granted = true -> r_voted_for s' = Some candidate) /\ r_term s' = r_term s)).
  { apply wp_when; intros Hc; [wp_step; split; [|done]|split; [done|split; [|done]]].
    - unfold casts, granted, free in Hc. bools.
      match goal with Hc : (_ || _)%bool = true |- _ => apply orb_true_iff in Hc as [Hn|Hn] end;
        bools; [|done].
      good_open HG. split; split; simpl; try done; try lia.
      + eapply chain_cur_le; [| |exact inv_chain0]; [done|]. right. simpl.
        split; [done|]. by rewrite Hn.
      + intros Ht c Hc'. specialize (f_vote0 Ht c Hc'). congruence.
    - intros Hg. unfold casts in Hc. rewrite Hg in Hc. simpl in Hc. bools. done. }
  intros [] s1 e1 (HG1 & Hv & Ht1). clearbody free granted casts. wp_step.
  eapply (wp_mono _ (fun _ s' e' => Good s0 e0 s' e' /\
    (granted = true -> r_voted_for s' = Some candidate) /\ r_term s' = r_term s)).
  { apply wp_when; intros Hg; [|by apply wp_ret || split].
    eapply wp_mono; [by apply keeps_reset_election_timer|].
    intros [] s2 e2 (HG2 & g & t & ->). split; [done|]. simpl. auto. }
  intros [] s2 e2 (HG2 & Hv2 & Ht2). wp_step. wp_step. wp_step; [|wp_step].
  - apply keeps_persist_hard_last; [done| |done]. unfold batch_ok. simpl.
    destruct granted; [|done]. eexists _, _. split; [done|]. simpl. rewrite Hv2, Ht2 by done. done.
  - exfalso. destruct HG2 as [[] _].
    match goal with Hc : (_ && negb (bool_decide (cfg_bug _ = _)))%bool = false |- _ =>
      rewrite inv_bug0, bool_decide_false, andb_true_r in Hc by done end. congruence.
  - wp_step; [done|].
    eapply wp_mono; [apply keeps_send; [done|done|]|by intros [] s3 e3 [-> ?]].
    intros t [= <- ->]. simpl in *. bools.
    unfold vote_is_durable in *. bools. exists candidate. rewrite Ht2. split; [done|]. right. split; congruence.
Qed.

Lemma keeps_on_request_vote from term candidate li lt s0 e0 s e :
  Good s0 e0 s e -> asks from term candidate ->
  wp (on_request_vote from term candidate li lt) (fun _ s' e' => Good s0 e0 s' e') s e.
Proof.
  intros HG Hask. unfold on_request_vote. cbv zeta. wp_step. wp_step. wp_step. wp_call. wp_step; [|wp_step].
  - wp_go; good_done.
  - wp_go; good_done.
  - wp_step. wp_step; bools.
    + eapply wp_mono; [by apply keeps_step_down|]. intros [] s1 e1 (HG1 & Ht & _).
      apply keeps_decide_vote; [done|by rewrite Ht].
    + apply keeps_decide_vote; [done|]. by replace (r_term s) with term by lia.
Qed.

Lemma keeps_on_vote_resp from term granted s0 e0 s e :
  Good s0 e0 s e -> wp (on_vote_resp from term granted) (fun _ s' e' => Good s0 e0 s' e') s e.
Proof.
  intros HG. unfold on_vote_resp. do 3 wp_step; [bools; by apply keeps_step_down_and_persist|].
  wp_go; good_done.
Qed.

#[local] Hint Resolve keeps_start_pre_vote keeps_on_pre_vote keeps_on_pre_vote_resp
  keeps_on_request_vote keeps_on_vote_resp : keeps.

(** ** Replication: the follower's side *)

Lemma keeps_truncate at' s0 e0 s e :
  Good s0 e0 s e -> wp (truncate at') (fun _ s' e' => Good s0 e0 s' e') s e.
Proof.
  intros HG. unfold truncate. wp_step. wp_step. wp_step.
  eapply (wp_mono _ (fun _ s1 e1 => e1 = e /\ Good s0 e0 s1 e1 /\
    exists st, s1 = s ⟨ r_stats := st ⟩ /\ (at' <= r_commit_index s -> 0 < st_truncated_committed st))).
  { apply wp_when; intros Hc; bools.
    - unfold bump, bump_by. repeat wp_step. split; [done|].
      split; [|eexists; split; [reflexivity|]].
      + good_open HG. split; split; simpl; try done; try lia.
      + intros _. simpl. destruct HG as [[] _]. lia.
    - split; [done|]. split; [done|]. exists (r_stats s). split; [by destruct s|lia]. }
  intros [] s1 e1 (-> & HG1 & st & -> & Hst). wp_step.
  eapply wp_mono; [apply keeps_bump; [done|simpl; lia]|].
  intros [] s2 e2 (-> & HG2 & st2 & -> & Hst2). simpl in Hst2. wp_step.
  eapply wp_mono; [by apply keeps_observe|]. intros [] s3 e3 [-> HG3].
  wp_step. wp_step. wp_step. wp_step. wp_step.
  eapply wp_mono; [apply refresh_config_frame|]. intros [] s4 e4 (-> & m & i & n & x & ->).
  repeat wp_step.
  good_open HG3. simpl in inv_log0.
  assert (Ht : log_truncate_from (r_log s) at' = Some a) by done.
  pose proof (log_truncate_wf _ _ _ inv_log0 Ht) as Hwf.
  destruct (log_truncate_facts _ _ _ inv_log0 Ht) as (Hs & _ & Hl & _).
  split; split; simpl in *; try done; try (rewrite ?Hs, ?Hl; lia).
  - apply Forall_fmap. eapply Forall_impl; [exact inv_ids0|]. done.
  - apply Forall_forall. intros b' (b & Hb & _ & _ & Hok & _)%batch_sub_clamp.
    rewrite Forall_forall in inv_batches0. auto.
  - apply Forall_forall. intros b' (b & Hb & _ & _ & _ & Hok)%batch_sub_clamp.
    rewrite Forall_forall in inv_taken0. auto.
  - eapply chain_subset; [|exact inv_chain0]. unfold written. simpl.
    intros h [->|Hh]%elem_of_cons; [left|right].
    eapply batch_sub_hards; [apply (batch_sub_clamp (at' - 1))|]. exact Hh.
Qed.

#[local] Hint Resolve keeps_truncate : keeps.

Lemma keeps_take_entries start conflict new s0 e0 s e :
  Good s0 e0 s e -> wp (take_entries start conflict new) (fun _ s' e' => Good s0 e0 s' e') s e.
Proof.
  intros HG. unfold take_entries. cbv zeta.
  assert (Htail : forall s e, Good s0 e0 s e ->
    wp (for_each new push_entry ;;
        when (existsb (fun en : Entry => bool_decide (is_Some (command_members (e_cmd en)))) new)
          refresh_config ;;
        bump_by st_entries_replicated (Z.of_nat (length new)))
      (fun _ s' e' => Good s0 e0 s' e') s e).
  { clear. intros s e HG. wp_step. eapply wp_mono.
    { apply keeps_for_each; [|done]. intros a s1 e1 HG1.
      eapply wp_mono; [by apply keeps_push_entry|]. by intros [] s2 e2 (-> & ? & _). }
    intros [] s1 e1 HG1. wp_step.
    eapply (wp_mono _ (fun _ s' e' => Good s0 e0 s' e')).
    - apply wp_when; intros _; [|done].
      eapply wp_mono; [by apply keeps_refresh_config|]. by intros [] s2 e2 (-> & ? & _).
    - intros [] s2 e2 HG2. eapply wp_mono; [apply keeps_bump_by; [done|lia|simpl; lia]|].
      by intros [] s3 e3 (-> & ? & _). }
  wp_step. wp_step; [wp_call|]; by apply Htail.
Qed.

Lemma keeps_adopt_commit lc last s0 e0 s e :
  Good s0 e0 s e -> wp (adopt_commit lc last) (fun _ s' e' => Good s0 e0 s' e') s e.
Proof.
  intros HG. unfold adopt_commit. cbv zeta. do 3 wp_step; [|done]. bools.
  wp_step; [|done]. bools. wp_step. wp_step.
  assert (HG1 : Good s0 e0 (s ⟨ r_commit_index :=
    Z.min (Z.min lc last) (log_last_index (r_log s)) ⟩) e).
  { good_open HG. split; split; simpl; try done; try lia.
    eapply taken_below_mono; [|done]. lia. }
  wp_go; good_done.
Qed.

Lemma keeps_reply_or_defer dirty from reply s0 e0 s e :
  Good s0 e0 s e -> msg_wf reply -> no_grant reply ->
  wp (reply_or_defer dirty from reply) (fun _ s' e' => Good s0 e0 s' e') s e.
Proof.
  intros HG Hwf Hn. unfold reply_or_defer. wp_step.
  - by apply keeps_persist_hard_last.
  - eapply wp_mono; [apply keeps_send; [done..|]|by intros [] s1 e1 [-> ?]].
    intros t E. by destruct (Hn t).
Qed.

Lemma keeps_truncate_blindly p l s0 e0 s e :
  Good s0 e0 s e -> wp (truncate_blindly p l) (fun _ s' e' => s' = s /\ e' = e) s e.
Proof.
  intros HG. unfold truncate_blindly. wp_step. wp_step. wp_step; [|done].
  bools. destruct HG as [[] _]. congruence.
Qed.

#[local] Hint Resolve keeps_take_entries keeps_adopt_commit keeps_reply_or_defer : keeps.

Lemma keeps_append_matched from prev last entries lc dirty s0 e0 s e :
  Good s0 e0 s e ->
  wp (append_matched from prev last entries lc dirty) (fun _ s' e' => Good s0 e0 s' e') s e.
Proof.
  intros HG. unfold append_matched. cbv zeta. wp_step. wp_step. wp_step.
  eapply wp_mono; [by eapply keeps_truncate_blindly|]. intros [] s1 e1 [-> ->]. wp_step.
  eapply (wp_mono _ (fun _ s' e' => Good s0 e0 s' e')); [|by intros [] *; apply keeps_adopt_commit].
  destruct (find_new _ _ _ _) as [[i conflict]|].
  - wp_step. wp_call. wp_step. wp_step. wp_step.
    match goal with HG : Good s0 e0 ?x ?y |- wp _ _ ?x ?y =>
      assert (Hb : cfg_bug (r_cfg x) = BugNone) by apply HG end.
    eapply (wp_mono _ (fun _ s' e' => Good s0 e0 s' e')).
    + wp_step; [|by apply keeps_persist_log_from].
      apply keeps_persist_hard; [done|done|done|]. intros. by apply keeps_write_log_from.
    + intros [] s2 e2 HG2. wp_step; [bools; congruence|done].
  - wp_step. wp_step. wp_step; [|wp_go; good_done].
    wp_step. wp_step. by apply keeps_persist_hard_last.
Qed.

Lemma keeps_append_after_skip from prev pt last entries lc dirty s0 e0 s e :
  Good s0 e0 s e ->
  wp (append_after_skip from prev pt last entries lc dirty) (fun _ s' e' => Good s0 e0 s' e') s e.
Proof.
  intros HG. unfold append_after_skip. wp_step. wp_step. wp_step; [|by apply keeps_append_matched].
  wp_go; good_done.
Qed.

Lemma keeps_follow_leader leader s0 e0 s e :
  Good s0 e0 s e -> wp (follow_leader leader) (fun _ s' e' => Good s0 e0 s' e') s e.
Proof. intros HG. unfold follow_leader. wp_go; good_done. Qed.

#[local] Hint Resolve keeps_append_after_skip keeps_follow_leader : keeps.

Lemma keeps_on_append_entries from term leader pi pt entries lc s0 e0 s e :
  Good s0 e0 s e ->
  wp (on_append_entries from term leader pi pt entries lc) (fun _ s' e' => Good s0 e0 s' e') s e.
Proof. intros HG. unfold on_append_entries. cbv zeta. wp_go; good_done. Qed.

(** ** Snapshots *)

Lemma keeps_take_snapshot data s0 e0 s e :
  Good s0 e0 s e -> wp (take_snapshot data) (fun _ s' e' => Good s0 e0 s' e') s e.
Proof.
  intros HG. assert (Hap : r_last_applied s <= r_commit_index s) by apply HG.
  unfold take_snapshot. cbv zeta. wp_go; good_done.
Qed.

Lemma keeps_install_image from index it data s0 e0 s e :
  Good s0 e0 s e -> wp (install_image from index it data) (fun _ s' e' => Good s0 e0 s' e') s e.
Proof.
  intros HG. unfold install_image. cbv zeta. wp_step. wp_step. wp_step; [wp_go; good_done|].
  wp_step; [done|]. bools.
  assert (Hi : 0 <= index) by (destruct HG as [[] _]; lia).
  wp_go; good_done.
Qed.

Lemma keeps_on_install_snapshot from term leader index it data s0 e0 s e :
  Good s0 e0 s e ->
  wp (on_install_snapshot from term leader index it data) (fun _ s' e' => Good s0 e0 s' e') s e.
Proof.
  intros HG. unfold on_install_snapshot. do 3 wp_step; [wp_go; good_done|].
  wp_step. wp_step; [wp_call|]; (wp_step; wp_call; by apply keeps_install_image).
Qed.

Lemma keeps_on_install_snapshot_resp from term index s0 e0 s e :
  Good s0 e0 s e ->
  wp (on_install_snapshot_resp from term index) (fun _ s' e' => Good s0 e0 s' e') s e.
Proof. intros HG. unfold on_install_snapshot_resp. cbv zeta. wp_go; good_done. Qed.

(** A log that still reaches the commit index and the snapshot point. *)
Lemma Good_set_log s0 e0 s e l :
  Good s0 e0 s e -> log_wf l -> 0 <= l_snapshot_index l ->
  l_snapshot_index l <= r_commit_index s ->
  r_commit_index s <= log_last_index l \/ 0 < st_truncated_committed (r_stats s) ->
  r_durable_index s <= log_last_index l -> Good s0 e0 (s ⟨ r_log := l ⟩) e.
Proof. intros HG Hwf H0 Hs Hc Hd. good_open HG. split; split; simpl; try done; lia. Qed.

Lemma keeps_snapshot_taken index term file s0 e0 s e :
  Good s0 e0 s e -> index <= r_commit_index s ->
  wp (snapshot_taken index term file) (fun _ s' e' => Good s0 e0 s' e') s e.
Proof.
  intros HG Hi. unfold snapshot_taken. repeat wp_step. set (s1 := set_field r_snapshot_members _ _).
  assert (HG1 : Good s0 e0 s1 e) by good_tac.
  assert (Hi1 : index <= r_commit_index s1) by done. clearbody s1.
  assert (HG2 : Good s0 e0 (s1 ⟨ r_log := log_compact_to (r_log s1) index term ⟩) e).
  { destruct (HG1) as [[] _]. apply Good_set_log; [done|by apply log_compact_wf| |..].
    - by apply compact_snapshot_nonneg.
    - pose proof (compact_snapshot_nonneg (r_log s1) index term ltac:(done)). lia.
    - rewrite log_compact_last_index by done. lia.
    - by rewrite log_compact_last_index. }
  wp_call. wp_call. done.
Qed.

(** The log an adopted image leaves: it reaches the image's index. *)
Lemma adopt_image_log s e index term (keeps_tail : bool) s0 e0 s1 :
  Good s0 e0 s1 e -> r_log s = r_log s1 -> 0 <= index ->
  (keeps_tail = true -> log_term_at (r_log s1) index = Some term) ->
  (keeps_tail = false -> r_commit_index s1 <= index) ->
  wp (if keeps_tail then modify (fun s => s ⟨ r_log := log_compact_to (r_log s) index term ⟩)
      else
        l ← lift (log_from_snapshot index term []);
        modify (fun s => s ⟨ r_log := l ⟩) ;;
        set_len FILE_WAL LOG_REGION ;;
        sync FILE_WAL ;;
        mret tt)
    (fun _ s' e' => Good s0 e0 s1 e' /\ exists l, s' = s ⟨ r_log := l ⟩ /\
       log_wf l /\ 0 <= l_snapshot_index l <= Z.max (r_commit_index s1) index /\
       index <= log_last_index l /\
       (st_truncated_committed (r_stats s1) = 0 -> r_commit_index s1 <= log_last_index l)) s e.
Proof.
  intros HG Hl Hi Hk Hn. destruct (HG) as [[] _]. wp_step.
  - wp_step. split; [done|]. eexists. split; [reflexivity|]. rewrite Hl.
    rewrite log_compact_last_index by done.
    pose proof (compact_snapshot_nonneg (r_log s1) index term ltac:(done)).
    split; [by apply log_compact_wf|]. split; [lia|]. split; [|done].
    eapply term_at_le_last; auto.
  - repeat wp_step. unfold log_from_snapshot in *. simplify_eq/=.
    apply wp_request. intros op w _. repeat wp_step. apply wp_request. intros op' w' _. wp_step.
    split.
    + apply (Good_event _ _ _ (mkEnv w _) w' (EvSync op' FILE_WAL)); [|done].
      by apply (Good_event _ _ _ _ w (EvSetLen op FILE_WAL LOG_REGION)).
    + eexists. split; [reflexivity|]. unfold log_last_index. simpl.
      split_and?; [apply log_empty_wf|done|simpl; lia|done|]. auto.
Qed.

(** The fields an adopted image replaces, all at once. *)
Lemma Good_adopted s0 e0 s e d p l pk sm m i n x dv c la :
  Good s0 e0 s e -> log_wf l -> 0 <= l_snapshot_index l <= c -> dv <= log_last_index l ->
  r_commit_index s <= c -> r_last_applied s <= la <= c ->
  (st_truncated_committed (r_stats s) = 0 -> c <= log_last_index l) ->
  Good s0 e0 (s ⟨ r_snapshot_data := d ⟩ ⟨ r_pending_restore := p ⟩ ⟨ r_log := l ⟩
    ⟨ r_parked := pk ⟩ ⟨ r_snapshot_members := sm ⟩ ⟨ r_members := m ⟩ ⟨ r_config_index := i ⟩
    ⟨ r_next_index := n ⟩ ⟨ r_match_index := x ⟩ ⟨ r_durable_index := dv ⟩
    ⟨ r_commit_index := c ⟩ ⟨ r_last_applied := la ⟩) e.
Proof.
  intros HG Hwf H0 Hd Hc Hla Hcl. good_open HG. split; split; simpl; try done; try lia.
  by eapply taken_below_mono.
Qed.

Lemma keeps_adopt_image index term data (keeps_tail : bool) s0 e0 s e :
  Good s0 e0 s e -> 0 <= index ->
  (keeps_tail = true -> log_term_at (r_log s) index = Some term) ->
  (keeps_tail = false -> r_commit_index s <= index) ->
  wp (adopt_image index term data keeps_tail) (fun _ s' e' => Good s0 e0 s' e') s e.
Proof.
  intros HG Hi Hk Hn. unfold adopt_image. cbv zeta. wp_step. wp_step.
  wp_step. wp_step. destruct (default _ _) as [sm app]. wp_step.
  eapply (wp_mono _ (fun _ s' e' => e' = e /\ exists d p,
    s' = s ⟨ r_snapshot_data := d ⟩ ⟨ r_pending_restore := p ⟩)).
  { apply wp_when; intros _; [wp_step|]; (split; [done|]).
    - by exists data, (Some app).
    - eexists data, _. apply raft_pending_eta. }
  intros [] s1 e1 (-> & d & p & ->). wp_step.
  eapply wp_mono; [by eapply (adopt_image_log _ _ _ _ _ s0 e0 s)|].
  intros [] s2 e2 (HG2 & l & -> & Hwf & Hl0 & Hil & Hcl). repeat wp_step.
  eapply wp_mono; [apply refresh_config_frame|]. intros [] s3 e3 (-> & m & i & n & x & ->).
  wp_step. wp_step.
  wp_step. eapply wp_mono; [apply advance_durable_spec; [exact Hwf|simpl; lia]|].
  intros [] s5 e5 (Hfr & Hd5 & Hq). simpl in Hd5.
  apply (Good_quiet _ _ _ _ e5) in HG2; [|done]. clear Hq.
  destruct Hfr as (pk & di & ->). simpl in Hd5.
  assert (Hap : r_last_applied s <= r_commit_index s) by apply HG2.
  pose proof (Good_adopted s0 e0 s e5 d p l pk sm m i n x di (Z.max (r_commit_index s) index)
    (if r_last_applied s <? index then index else r_last_applied s) HG2 Hwf ltac:(lia) Hd5
    ltac:(lia) ltac:(case_match; bools; lia) ltac:(lia)) as HG3.
  wp_step. wp_step. apply wp_when; intros Hr; rewrite Hr in HG3; [wp_step; exact HG3|].
  set (s6 := set_field r_commit_index _ _) in HG3.
  change (r_last_applied s) with (r_last_applied s6) in HG3.
  rewrite <- (raft_applied_eta s6) in HG3. exact HG3.
Qed.

Lemma keeps_snapshot_installed index term data file to rt s0 e0 s e :
  Good s0 e0 s e -> 0 <= index ->
  wp (snapshot_installed index term data file to rt) (fun _ s' e' => Good s0 e0 s' e') s e.
Proof.
  intros HG Hi. unfold snapshot_installed. cbv zeta. wp_step. wp_step. wp_step. wp_step.
  wp_step; [wp_go; good_done|]. wp_step.
  eapply wp_mono; [apply keeps_adopt_image; [good_tac|done|..]|].
  - intros Ht. by apply bool_decide_eq_true_1 in Ht.
  - intros Hf. match goal with Hc : (_ && _)%bool = false |- _ => rewrite Hf in Hc; simpl in Hc end.
    by bools.
  - intros [] s1 e1 HG1. wp_go; good_done.
Qed.

(** ** Completions *)

(** What a batch promised about its action once its hard state is durable. *)
Definition action_ready (dhs : HardState) (c : Z) (a : Persist) : Prop :=
  match a with
  | PVoteReply to t true => exists c, asks to t c /\ vote_recorded dhs t c
  | PReply _ m => msg_wf m /\ no_grant m
  | PSnapshotTaken index _ _ => index <= c
  | PSnapshotInstalled index _ _ _ _ _ => 0 <= index
  | _ => True
  end.

Lemma batch_ok_ready b dhs c :
  batch_ok b -> taken_below c b -> (forall hs, b_hard b = Some hs -> hs_le hs dhs) ->
  action_ready dhs c (b_action b).
Proof.
  unfold batch_ok, taken_below, action_ready. intros Hb Htk Hle. destruct (b_action b) as [| |? ? ? ? ?|?|? ? ?|? ?|]; try done.
  case_match; [|done]. destruct Hb as (hs & c' & Hh & Ht & Hv & Ha). exists c'. split; [done|].
  apply (vote_recorded_le hs); [by apply Hle|]. right. by rewrite Ht.
Qed.

Lemma keeps_note_durable hs s0 e0 s e :
  Good s0 e0 s e -> chain (current_hs s) (hs :: written s) ->
  wp (note_durable hs) (fun _ s' e' => Good s0 e0 s' e' /\
    hs_le hs (r_durable_hard_state s') /\ r_commit_index s' = r_commit_index s) s e.
Proof.
  intros HG Hch. pose proof Hch as [_ Hc Hle]. unfold note_durable. wp_step. wp_step. wp_step.
  apply Forall_cons in Hc as [Hcur Hc].
  assert (Hht : hs_term hs <= r_term s) by (destruct Hcur as [?|[? _]]; simpl in *; lia).
  eapply (wp_mono _ (fun _ s1 e1 => Good s0 e0 s1 e1 /\ hs_le hs (r_durable_hard_state s1) /\
    r_term s1 = r_term s /\ r_durable_term s1 = r_durable_term s /\
    r_commit_index s1 = r_commit_index s)).
  { apply wp_when; intros Hseq; bools.
    - wp_step. split; [|done].
      assert (Hd : hs_le (r_durable_hard_state s) hs) by (apply Hle; [set_solver..|done]).
      good_open HG. split; split; simpl; try done; try lia.
      + eapply chain_subset; [|exact Hch].
        unfold written. simpl. set_solver.
      + by transitivity (r_durable_hard_state s).
      + destruct f_trace0 as (new & -> & Hn). exists new. split; [done|].
        eapply Forall_impl; [exact Hn|]. intros ev. by apply ev_ok_mono.
    - split; [done|]. split; [|done]. apply Hle; [set_solver|unfold written; set_solver|lia]. }
  intros [] s1 e1 (HG1 & Hd1 & Ht1 & Hdt1 & Hc1). wp_step; [|done]. bools. wp_step. wp_step.
  assert (HG2 : Good s0 e0 (s1 ⟨ r_durable_term := hs_term hs ⟩) e1).
  { good_open HG1. split; split; simpl; try done; try lia.
    destruct f_trace0 as (new & -> & Hn). exists new. split; [done|].
    eapply Forall_impl; [exact Hn|]. intros ev. apply ev_ok_mono; [lia|done]. }
  eapply wp_mono; [by apply keeps_advance_durable|]. by intros [] s2 e2 (HG3 & pk & di & ->).
Qed.

Lemma keeps_log_durable from index verified to rt s0 e0 s e :
  Good s0 e0 s e ->
  wp (log_durable from index verified to rt) (fun _ s' e' => Good s0 e0 s' e') s e.
Proof. intros HG. unfold log_durable. cbv zeta. wp_go; good_done. Qed.

Lemma keeps_campaign term s0 e0 s e :
  Good s0 e0 s e -> wp (campaign term) (fun _ s' e' => Good s0 e0 s' e') s e.
Proof. intros HG. unfold campaign. cbv zeta. wp_go; good_done. Qed.

Lemma keeps_on_durable action s0 e0 s e :
  Good s0 e0 s e -> action_ready (r_durable_hard_state s) (r_commit_index s) action ->
  wp (on_durable action) (fun _ s' e' => Good s0 e0 s' e') s e.
Proof.
  intros HG Hr. unfold on_durable. destruct action as [term|to term granted|from index v to rt|to msg
    |index term file|index term data file to rt|].
  - by apply keeps_campaign.
  - eapply wp_mono; [apply keeps_send; [done|done|]|by intros [] s1 e1 [-> ?]].
    intros t [= <- ->]. done.
  - by apply keeps_log_durable.
  - destruct Hr as [Hwf Hn].
    eapply wp_mono; [apply keeps_send; [done..|]|by intros [] s1 e1 [-> ?]].
    intros t E. by destruct (Hn t).
  - by apply keeps_snapshot_taken.
  - by apply keeps_snapshot_installed.
  - by wp_step.
Qed.

(** ** Event entry points *)

Lemma keeps_on_storage op ok s0 e0 s e :
  Good s0 e0 s e -> wp (on_storage op ok) (fun _ s' e' => Good s0 e0 s' e') s e.
Proof.
  intros HG. unfold on_storage. wp_step. wp_step. wp_step; [done|].
  wp_step. apply wp_lift. intros [ev p] Hc. cbv beta iota.
  destruct (batch_sub_complete _ _ _ _ _ Hc) as (Hsub & Hnext & Hdone).
  assert (HG1 : Good s0 e0 (s ⟨ r_persister := p ⟩) e) by by apply Good_persister.
  wp_step. wp_step. destruct ev as [|id file|action hard|].
  - done.
  - wp_step. eapply wp_mono; [by apply keeps_sync|]. intros sop s1 e1 [-> HG2].
    eapply wp_mono; [apply keeps_persisting; [done|..]|by intros [] s2 e2 (-> & ? & _)];
      [intros q; by apply batch_sub_update|done].
  - destruct (Hdone action hard eq_refl) as (b & Hb & <- & <-).
    assert (Hok : batch_ok b)
      by (destruct HG as [[] _]; rewrite Forall_forall in inv_batches0; auto).
    assert (Htk : taken_below (r_commit_index s) b)
      by (destruct HG as [[] _]; rewrite Forall_forall in inv_taken0; auto).
    wp_step. destruct (b_hard b) as [hs|] eqn:Eh.
    + eapply wp_mono; [apply keeps_note_durable; [done|]|].
      * destruct HG as [[] _]. eapply chain_subset; [|exact inv_chain0].
        unfold written. simpl. intros h Hh. apply elem_of_cons in Hh as [->|Hh].
        { right. apply elem_of_hards. eauto. }
        apply elem_of_cons in Hh as [->|Hh]; [left|right]. by eapply batch_sub_hards.
      * intros [] s1 e1 (HG2 & Hle & Hc1). apply keeps_on_durable; [done|].
        apply batch_ok_ready; [done|by rewrite Hc1|]. intros hs' [= <-]%(eq_trans (eq_sym Eh)). done.
    + wp_step. apply keeps_on_durable; [done|]. apply batch_ok_ready; [done|done|]. by rewrite Eh.
  - wp_go; good_done.
Qed.

Lemma keeps_message from msg s0 e0 s e :
  Good s0 e0 s e -> request_known from msg -> wp (on_message from msg) (fun _ s' e' => Good s0 e0 s' e') s e.
Proof.
  intros HG Hask. unfold on_message. wp_step. wp_step. wp_step; [done|]. destruct msg.
  - by apply keeps_on_request_vote.
  - by apply keeps_on_vote_resp.
  - by apply keeps_on_append_entries.
  - by apply keeps_on_append_resp.
  - by apply keeps_on_install_snapshot.
  - by apply keeps_on_install_snapshot_resp.
  - by apply keeps_on_read_probe.
  - by apply keeps_on_read_probe_resp.
  - by apply keeps_on_pre_vote.
  - by apply keeps_on_pre_vote_resp.
Qed.

Lemma keeps_on_timer tag s0 e0 s e :
  Good s0 e0 s e -> wp (on_timer tag) (fun _ s' e' => Good s0 e0 s' e') s e.
Proof.
  intros HG. unfold on_timer, election_expired, heartbeat_expired. cbv zeta.
  wp_go; good_done.
Qed.

End Keeps.

(** Where it does not matter who asked. *)
#[export] Instance anyone : Requests | 100 := fun _ _ _ => True.
Lemma keeps_on_message {W} `{Io W} from msg s0 e0 s (e : Env W) :
  Good s0 e0 s e -> wp (on_message from msg) (fun _ s' e' => Good s0 e0 s' e') s e.
Proof. intros HG. apply keeps_message; [done|]. by destruct msg. Qed.
