(* ===== verification/RaftRecover.v ===== *)
(** * RaftRecover: a node that restarts is well formed

    [Raft::recover]: whatever the three files hold, the state it builds
    satisfies the invariant every handler keeps. *)
From Stdlib Require Import String.
From S2P Require Import Prelude Codec Crc LogFormat RaftLog Recovery Durable Messages Config.
From S2P Require Import Io Rng Persister RaftState Raft RaftInv.
From Stdlib.Init Require Import Byte.

(** ** Lemmas: what the decoders guarantee *)

Lemma snapshot_fields_parses : parses snapshot_fields (fun s _ => snapshot_ok s).
Proof.
  unfold snapshot_fields. eapply parses_weaken.
  - eapply parses_bind; [apply parses_u64|intros q].
    eapply parses_bind; [apply parses_u64|intros i].
    eapply parses_bind; [apply parses_u64|intros t].
    eapply parses_bind; [apply parses_bytes|intros d]. apply parses_ret.
  - cbv beta. intros s bs (q & ? & ? & _ & [_ Hq] & i & ? & ? & _ & [_ Hi] & t & ? & ? & _ & [_ Ht]
      & d & ? & ? & _ & _ & -> & _). done.
Qed.

Lemma snapshot_decode_ok bytes s : snapshot_decode bytes = Some s -> snapshot_ok s.
Proof.
  unfold snapshot_decode. case_decide; [done|]. case_match; [done|]. case_match; [done|].
  destruct (snapshot_fields _) as [[s' d]|] eqn:E; [|done]. intros [= <-].
  apply snapshot_fields_parses in E as (_ & _ & ?); [done|simpl; lia].
Qed.

Lemma pick_snapshot_ok a b s src : pick_snapshot_with_source a b = Some (s, src) -> snapshot_ok s.
Proof.
  unfold pick_snapshot_with_source.
  destruct (snapshot_decode a) as [x|] eqn:Ea, (snapshot_decode b) as [y|] eqn:Eb; try done.
  - case_match; intros [= <- <-]; by eapply snapshot_decode_ok.
  - intros [= <- <-]. by eapply snapshot_decode_ok.
  - intros [= <- <-]. by eapply snapshot_decode_ok.
Qed.

Lemma recover_log_any_start_sound bytes r :
  recover_log_any_start bytes = Some r ->
  exists first, contiguous_from first (rl_entries r) = true /\ terms_ascend (rl_entries r) = true /\
    layout (rl_entries r) (rl_offsets r) (rl_valid_bytes r).
Proof.
  unfold recover_log_any_start. case_decide.
  - intros [_ _ _ Hc Ht Hl]%recover_log_from_inv. by exists 1.
  - intros [_ _ _ Hc Ht Hl]%recover_log_from_inv. eauto.
Qed.

(** ** The loop that splices the file onto the snapshot *)

(** What the entries gathered so far satisfy. *)
Record spliced (hst snap : Z) (acc : list Entry) (offs : list nat) : Prop := {
  spl_contiguous : contiguous_from (snap + 1) acc = true;
  spl_terms : terms_ascend acc = true;
  spl_bound : Forall (fun e => e_term e <= hst) acc;
  spl_layout : exists f, layout acc offs f;
}.

Lemma layout_last es offs f e o :
  layout es offs f -> last es = Some e -> last offs = Some o ->
  f = (o + length (entry_to_record e))%nat.
Proof.
  rewrite !last_lookup. intros Hl He Ho. rewrite (layout_length _ _ _ Hl) in Ho.
  rewrite <- (layout_lookup_S _ _ _ _ _ _ Hl Ho He).
  rewrite lookup_ge_None_2; [done|]. rewrite (layout_length _ _ _ Hl).
  apply lookup_lt_Some in He. lia.
Qed.

(** Where the gathered run stands against what is still to be read: nothing
    gathered, nothing more to gather, or the next entry continues it. *)
Definition splice_pos (hst snap b : Z) (fin : nat) (read : list (Entry * nat))
    (acc : list Entry) (offs : list nat) : Prop :=
  (acc = [] /\ offs = []) \/
  Forall (fun p => hst < e_term p.1) read \/
  (snap < b /\ from_option e_index snap (last acc) + 1 = b /\ layout acc offs (hd fin read.*2) /\
   Forall (fun e => from_option e_term (e_term e) (last acc) <= e_term e) read.*1).

Lemma splice_step hst snap fin e off read acc offs :
  spliced hst snap acc offs -> contiguous_from (e_index e) (e :: read.*1) = true ->
  terms_ascend (e :: read.*1) = true -> layout (e :: read.*1) (off :: read.*2) fin ->
  splice_pos hst snap (e_index e) fin ((e, off) :: read) acc offs ->
  e_term e <= hst -> snap < e_index e -> e_index e = from_option e_index snap (last acc) + 1 ->
  spliced hst snap (acc ++ [e]) (offs ++ [off]) /\
  splice_pos hst snap (e_index e + 1) fin read (acc ++ [e]) (offs ++ [off]).
Proof.
  intros [Hc Ht Hb _] _ Hta Hlay Hpos Hle Hlt Hi.
  apply terms_ascend_cons in Hta as [Hte Hta]. destruct Hlay as [Hhd Hlay].
  assert (Hl : layout acc offs off /\ from_option e_term (e_term e) (last acc) <= e_term e).
  { destruct Hpos as [[-> ->]|[Hgt|(_ & _ & Hl & Hf)]]; [split; [done|simpl; lia]| |].
    - apply Forall_cons in Hgt as [Hgt _]. simpl in Hgt. lia.
    - apply Forall_cons in Hf as [Hf _]. done. }
  destruct Hl as [Hl Hlast]. pose proof (layout_snoc _ _ _ e Hl) as Hl'.
  split; [split|].
  - rewrite contiguous_app, Hc. simpl. rewrite andb_true_r. apply Z.eqb_eq.
    pose proof (contiguous_last _ _ Hc) as Hcl.
    destruct (last acc) as [z|] eqn:Ez; simpl in *; [lia|].
    apply last_None in Ez as ->. simpl in *. lia.
  - by apply terms_ascend_snoc.
  - apply Forall_app. split; [done|]. by constructor.
  - eauto.
  - right. right. rewrite last_snoc. simpl. split_and?; [lia|lia| |done].
    by rewrite Hhd.
Qed.

Lemma splice_spliced hst snap fin read : forall b acc offs acc' offs' gap,
  spliced hst snap acc offs -> contiguous_from b read.*1 = true ->
  terms_ascend read.*1 = true -> layout read.*1 read.*2 fin ->
  splice_pos hst snap b fin read acc offs ->
  splice hst snap read acc offs = Some (acc', offs', gap) -> spliced hst snap acc' offs'.
Proof.
  induction read as [|[e off] read IH]; intros b acc offs acc' offs' gap Hs Hc Ht Hl Hpos;
    cbn [splice]; [by intros [= <- <- <-]|].
  rewrite !fmap_cons in *. simpl in Hc. apply andb_true_iff in Hc as [<-%Z.eqb_eq Hc].
  pose proof Ht as [Hte Hta]%terms_ascend_cons. pose proof Hl as [Hhd Hlay].
  destruct (Z.ltb_spec hst (e_term e)) as [Hgt|Hle].
  { apply (IH (e_index e + 1)); [done..|]. right. left. apply Forall_forall. intros p Hp.
    rewrite Forall_forall in Hte. specialize (Hte p.1 ltac:(by apply list_elem_of_fmap_2)).
    simpl in *. lia. }
  assert (Hn : ~ Forall (fun p => hst < e_term p.1) ((e, off) :: read))
    by (intros [Hf _]%Forall_cons; simpl in Hf; lia).
  destruct (Z.leb_spec (e_index e) snap) as [Hi|Hi].
  { destruct Hpos as [Hnil|[?|(? & _)]]; [|done|lia].
    apply (IH (e_index e + 1)); [done..|by left]. }
  destruct (u64_add _ 1) as [expected|] eqn:Ee; [|done]. apply u64_add_Some in Ee as [-> _].
  simpl. destruct (Z.eqb_spec (e_index e) (from_option e_index snap (last acc) + 1)) as [He|];
    simpl; [|by intros [= <- <- <-]].
  destruct (splice_step hst snap fin e off read acc offs) as [Hs' Hpos']; try done.
  { simpl. by rewrite Z.eqb_refl. }
  by apply (IH (e_index e + 1)).
Qed.

(** ** The recovered node *)

Lemma recover_state_inv {RQ : Requests} wal a b id members cfg seed r :
  recover_state wal a b id members cfg seed = Some r -> cfg_bug cfg = BugNone ->
  Inv r /\ Forall (fun e => e_term e <= r_term r) (l_entries (r_log r)) /\
  r_term r = hs_term (recover_hard_state wal) /\
  r_voted_for r = hs_voted_for (recover_hard_state wal) /\
  r_durable_hard_state r = recover_hard_state wal /\ r_durable_term r = r_term r /\
  r_durable_index r = log_last_index (r_log r) /\
  r_commit_index r = l_snapshot_index (r_log r) /\ r_last_applied r = l_snapshot_index (r_log r).
Proof.
  unfold recover_state. set (hs := recover_hard_state wal).
  destruct (recover_log_any_start (drop LOG_REGION wal)) as [rl|] eqn:Erl; [|done].
  apply recover_log_any_start_sound in Erl as (first & Hc & Ht & Hl). cbn [mbind option_bind].
  set (snap := pick_snapshot_with_source a b).
  set (si := from_option (fun s => sn_index s.1) 0 snap).
  assert (Hsi : 0 <= si).
  { unfold si. destruct snap as [[s src]|] eqn:Es; simpl; [|done].
    apply pick_snapshot_ok in Es as (_ & [? _] & _). done. }
  destruct (splice _ _ _ _ _) as [[[es offs] gap]|] eqn:Esp; [|done].
  assert (Hlen : length (rl_entries rl) = length (rl_offsets rl))
    by (symmetry; by eapply layout_length).
  eapply (splice_spliced _ _ (rl_valid_bytes rl) _ first) in Esp as [Hsc Hst Hsb [f Hsl]].
  2: { split; [done|done|by constructor|by exists 0%nat]. }
  2: by rewrite fst_zip by lia.
  2: by rewrite fst_zip by lia.
  2: by rewrite fst_zip, snd_zip by lia.
  2: by left.
  cbn [mbind option_bind].
  destruct (u64_add (from_option (fun s => sn_seq s.1) 0 snap) 1) as [ss|]; [|done].
  cbn [mbind option_bind].
  destruct (u64_add (hs_seq hs) 1) as [q|] eqn:Eq; [|done]. apply u64_add_Some in Eq as [-> _].
  cbn [mbind option_bind]. intros [= <-] Hbug.
  set (fin := if bool_decide (es = []) && _ then _ else _).
  assert (Hwf : log_wf (mkRaftLog es offs fin si (from_option (fun s => sn_term s.1) 0 snap))).
  { split; [done..|]. change (layout es offs fin). unfold fin.
    destruct es as [|e es]; [by destruct offs|].
    pose proof (layout_length _ _ _ Hsl) as Hll.
    destruct (last (e :: es)) as [z|] eqn:Ez; [|by apply last_None in Ez].
    destruct (last offs) as [o|] eqn:Eo; [|apply last_None in Eo; by subst].
    rewrite bool_decide_false by done. cbn [andb].
    change (layout (e :: es) offs (o + length (entry_to_record z))%nat).
    by rewrite <- (layout_last _ _ _ _ _ Hsl Ez Eo). }
  pose proof (wf_last_index _ Hwf) as Hlast. cbn [l_snapshot_index] in Hlast.
  split; [|done]. split; try (simpl; done); try (simpl; lia).
  - intros _. change (si <= log_last_index (mkRaftLog es offs fin si
      (from_option (fun s => sn_term s.1) 0 snap))). lia.
  - unfold current_hs, written. simpl. split.
    + apply Forall_singleton. simpl. lia.
    + apply Forall_singleton. by right.
    + intros x y ->%list_elem_of_singleton ->%list_elem_of_singleton _. reflexivity.
Qed.

Section Recover.
Context {W : Type} `{Io W} {RQ : Requests}.

(** Running a handler of a fresh node. *)
Lemma wp_with_state {S T} (r : T) (m : M W T unit) (Q : T -> S -> Env W -> Prop) s e :
  wp m (fun _ r' e' => Q r' s e') r e -> wp (with_state r m) Q s e.
Proof. unfold wp, with_state. by destruct (m r e) as [[[[] r'] e']|]. Qed.

Lemma keeps_recover {S} id members cfg seed (s : S) (e : Env W) :
  cfg_bug cfg = BugNone ->
  wp (recover id members cfg seed) (fun r _ e' => exists r0,
    recover_state (io_read_all (env_world e) FILE_WAL) (io_read_all (env_world e) FILE_SNAPSHOT_A)
      (io_read_all (env_world e) FILE_SNAPSHOT_B) id members cfg seed = Some r0 /\
    Inv r0 /\ Good r0 e r e' /\ r_log r = r_log r0) s e.
Proof.
  intros Hbug. unfold recover. apply wp_bind. unfold read_all at 1, wp at 1.
  apply wp_bind. unfold read_all at 1, wp at 1. apply wp_bind. unfold read_all at 1, wp at 1.
  apply wp_bind. apply wp_lift. intros r0 Hr0. apply wp_with_state.
  destruct (recover_state_inv _ _ _ _ _ _ _ _ Hr0 Hbug) as [Hi _].
  apply wp_bind. eapply wp_mono; [apply keeps_refresh_config, Good_refl, Hi|].
  intros [] s1 e1 (-> & HG1 & m & i & n & x & ->).
  apply wp_bind. unfold observe_state. apply wp_bind, wp_get.
  eapply wp_mono; [by apply keeps_observe|]. intros [] s2 e2 [-> HG2].
  eapply wp_mono; [by apply keeps_reset_election_timer|]. intros [] s3 e3 (HG3 & g & t & ->).
  by exists r0.
Qed.

End Recover.
