(* ===== verification/RaftSafety.v ===== *)
(** * RaftSafety: properties of every run of a node

    A node's run is a sequence of events: messages, timers, storage completions
    and the calls of the server above it.  The theorems hold of every run from
    any recovered state, for the program without deliberate defects. *)
From Stdlib Require Import String.
From S2P Require Import Prelude Codec Crc LogFormat RaftLog Recovery Durable Messages Config.
From S2P Require Import Io Rng Persister RaftState Raft RaftInv RaftRecover.
From Stdlib.Init Require Import Byte.

Inductive node_event : Type :=
| NodeMessage (from : NodeId) (msg : RaftMsg)
| NodeTimer (tag : TimerTag)
| NodeStorage (op : OpId) (ok : bool)
| NodePropose (cmd : Command)
| NodeMembership (members : list NodeId)
| NodeRead (id : Z)
| NodeSnapshot (data : list byte)
| NodeTakeApplied
| NodeTakeReadyReads
| NodeTakeFailedReads
| NodeTakeReadEvents
| NodeTakeRestore.

Section Run.
Context {W : Type} `{Io W}.

Definition node_handle (ev : node_event) : M W Raft unit :=
  match ev with
  | NodeMessage from msg => on_message from msg
  | NodeTimer tag => on_timer tag
  | NodeStorage op ok => on_storage op ok
  | NodePropose cmd => propose cmd ;; mret tt
  | NodeMembership members => propose_membership members ;; mret tt
  | NodeRead id => request_read id ;; mret tt
  | NodeSnapshot data => take_snapshot data
  | NodeTakeApplied => modify (fun r => (take_applied r).2)
  | NodeTakeReadyReads => modify (fun r => (take_ready_reads r).2)
  | NodeTakeFailedReads => modify (fun r => (take_failed_reads r).2)
  | NodeTakeReadEvents => modify (fun r => (take_read_events r).2)
  | NodeTakeRestore => modify (fun r => (take_pending_restore r).2)
  end.

Definition node_run (evs : list node_event) : M W Raft unit := for_each evs node_handle.

(** ** Lemmas *)

Lemma take_applied_loop_bound fuel l commit start :
  start <= commit ->
  start <= (take_applied_loop fuel l commit start).2 <= commit.
Proof.
  revert start; induction fuel as [|fuel IH]; intros start Hs; simpl; [lia|].
  case_match; bools; [|simpl; lia]. destruct (log_get l (start + 1)); [|simpl; lia].
  specialize (IH (start + 1) ltac:(lia)).
  destruct (take_applied_loop fuel l commit (start + 1)). simpl in *. lia.
Qed.

Lemma keeps_take_applied {RQ : Requests} s0 e0 s (e : Env W) :
  Good s0 e0 s e -> Good s0 e0 (take_applied s).2 e.
Proof.
  intros HG. unfold take_applied.
  pose proof (take_applied_loop_bound (S (length (l_entries (r_log s)))) (r_log s) (r_commit_index s)
    (Z.max (r_last_applied s) (l_snapshot_index (r_log s)))) as Hb.
  destruct (take_applied_loop _ _ _ _) as [out applied]. simpl in *.
  assert (Z.max (r_last_applied s) (l_snapshot_index (r_log s)) <= applied <= r_commit_index s)
    by (apply Hb; destruct HG as [[] _]; lia).
  good_tac.
Qed.

Definition event_known {RQ : Requests} (ev : node_event) : Prop :=
  match ev with NodeMessage from msg => request_known from msg | _ => True end.
Lemma keeps_node_event {RQ : Requests} ev s0 e0 s e :
  Good s0 e0 s e -> event_known ev -> wp (node_handle ev) (fun _ s' e' => Good s0 e0 s' e') s e.
Proof.
  intros HG Hk. destruct ev; simpl node_handle.
  - by apply keeps_message.
  - by apply keeps_on_timer.
  - by apply keeps_on_storage.
  - apply wp_bind. eapply wp_mono; [by apply keeps_propose|]. auto.
  - apply wp_bind. eapply wp_mono; [by apply keeps_propose_membership|]. auto.
  - apply wp_bind. eapply wp_mono; [by apply keeps_request_read|]. auto.
  - by apply keeps_take_snapshot.
  - apply wp_modify. by apply keeps_take_applied.
  - apply wp_modify. unfold take_ready_reads. case_match; simpl; [done|good_tac].
  - apply wp_modify. unfold take_failed_reads. case_match; simpl; [done|good_tac].
  - apply wp_modify. simpl. good_tac.
  - apply wp_modify. simpl. good_tac.
Qed.

Lemma known_anyone ev : event_known ev.
Proof. destruct ev as [from []| | | | | | | | | | |]; exact I. Qed.
Lemma keeps_node_handle ev s0 e0 s e :
  Good s0 e0 s e -> wp (node_handle ev) (fun _ s' e' => Good s0 e0 s' e') s e.
Proof. intros HG. by apply keeps_node_event, known_anyone. Qed.

Lemma node_run_good {RQ : Requests} evs s e s' e' :
  (forall ev, ev ∈ evs -> event_known ev) ->
  Inv s -> node_run evs s e = Some (tt, s', e') -> Good s e s' e'.
Proof.
  intros Hk Hi. enough (Hgo : forall s1 e1, Good s e s1 e1 -> node_run evs s1 e1 = Some (tt, s', e') -> Good s e s' e')
    by by apply Hgo, Good_refl.
  unfold node_run. induction evs as [|ev evs IH]; intros s0 e0 HG Hr; [by injection Hr as <- <-|].
  simpl in Hr. unfold mbind, M_bind in Hr. destruct (node_handle ev s0 e0) as [[[[] s1] e1]|] eqn:E; [|done].
  eapply IH; [intros ev' Hev'; apply Hk; by right| |exact Hr].
  refine (wp_Some _ _ _ _ _ _ _ (keeps_node_event ev _ _ _ _ HG _) E). apply Hk. left.
Qed.

Lemma node_run_app evs evs' s e s' e' :
  node_run (evs ++ evs') s e = Some (tt, s', e') ->
  exists s1 e1, node_run evs s e = Some (tt, s1, e1) /\ node_run evs' s1 e1 = Some (tt, s', e').
Proof.
  revert s e; induction evs as [|ev evs IH]; intros s e; [by exists s, e|].
  unfold node_run in *. simpl. unfold mbind, M_bind.
  destruct (node_handle ev s e) as [[[[] s1] e1]|]; [|done]. apply IH.
Qed.

(** A run that starts with the recovery of a node without deliberate defects. *)
Definition started (id : NodeId) (members : list NodeId) (cfg : RaftConfig) (seed : Z)
    (evs : list node_event) (w : W) (r s : Raft) (e' : Env W) : Prop :=
  cfg_bug cfg = BugNone /\ exists e1,
    recover id members cfg seed tt (mkEnv w []) = Some (r, tt, e1) /\
    node_run evs r e1 = Some (tt, s, e').

Lemma started_good_known {RQ : Requests} id members cfg seed evs w r s e' :
  (forall ev, ev ∈ evs -> event_known ev) -> started id members cfg seed evs w r s e' ->
  exists e1, Good r e1 r e1 /\ Good r e1 s e' /\
    Forall (ev_ok (r_durable_term s) (r_durable_hard_state s)) (env_trace e').
Proof.
  intros Hk (Hbug & e1 & Hrec & Hrun).
  destruct (wp_Some _ _ _ _ _ _ _ (keeps_recover id members cfg seed tt (mkEnv w []) Hbug) Hrec)
    as (r0 & _ & _ & HG0 & _).
  assert (Hi : Inv r) by apply HG0. pose proof (node_run_good _ _ _ _ _ Hk Hi Hrun) as HG.
  exists e1. split; [by apply Good_refl|]. split; [done|].
  destruct (f_trace _ _ _ _ (proj2 HG0)) as (n0 & Ht0 & Hn0), HG as [_ HF].
  destruct (f_trace _ _ _ _ HF) as (n1 & -> & Hn1). rewrite Ht0. simpl.
  apply Forall_app. split; [|done]. eapply Forall_impl; [exact Hn0|].
  intros ev. apply ev_ok_mono; apply HF.
Qed.

Lemma started_good id members cfg seed evs w r s e' :
  started id members cfg seed evs w r s e' ->
  exists e1, Good r e1 r e1 /\ Good r e1 s e' /\
    Forall (ev_ok (r_durable_term s) (r_durable_hard_state s)) (env_trace e').
Proof. apply started_good_known. intros ev _. apply known_anyone. Qed.

(** A longer run goes on from the state of the shorter one. *)
Lemma started_app id members cfg seed evs evs' w r r' s s' e1 e2 :
  started id members cfg seed evs w r s e1 ->
  started id members cfg seed (evs ++ evs') w r' s' e2 ->
  r' = r /\ Good s e1 s' e2.
Proof.
  intros Hs (_ & ea & Hr & Hrun). destruct (started_good _ _ _ _ _ _ _ _ _ Hs) as (e0 & _ & HG & _).
  destruct Hs as (_ & eb & Hr' & Hrun'). rewrite Hr in Hr'. injection Hr' as -> ->.
  split; [done|]. apply node_run_app in Hrun as (s1 & e3 & Hrun1 & Hrun2).
  rewrite Hrun' in Hrun1. injection Hrun1 as <- <-. eapply node_run_good; [intros ev _; apply known_anyone|apply HG|done].
Qed.

End Run.

(** ** Properties of every run *)

Section Properties.
Context {W : Type} `{Io W}.

(** C3. No message leaves a node with a term it has not yet made durable, and
    the durable term is never ahead of the current one: whatever sequence of
    messages, timers, completions and calls a recovered node goes through, each
    payload sent encodes a Raft message whose term its disk already holds. *)
Theorem sends_only_durable_terms id members cfg seed evs w r s e' to bytes :
  started id members cfg seed evs w r s e' ->
  EvSend to bytes ∈ env_trace e' ->
  exists m, bytes = message_encode (MRaft m) /\
    msg_term m <= r_durable_term s <= r_term s.
Proof.
  intros Hs Hin. destruct (started_good _ _ _ _ _ _ _ _ _ Hs) as (e1 & _ & [[] _] & Hev).
  rewrite Forall_forall in Hev. destruct (Hev _ Hin) as (m & -> & ? & _ & _).
  exists m. split; [done|lia].
Qed.

(** The requests of a run are those among its events. *)
Lemma requests_known (evs : list node_event) ev :
  ev ∈ evs -> event_known (RQ := fun from t c => exists li lt, NodeMessage from (RequestVote t c li lt) ∈ evs) ev.
Proof. intros Hev. destruct ev as [from []| | | | | | | | | | |]; try exact I. by eexists _, _. Qed.

(** C4. A vote is never revealed before it is recorded: whenever a run has sent
    [to] a message that grants a vote in term [t], [to] had asked for a vote in that
    term for a candidate, itself if it is honest, and the hard state known to be
    durable holds the vote of term [t] for that very candidate, or belongs to a
    later term. *)
Theorem granted_votes_are_recorded id members cfg seed evs w r s e' to bytes :
  started id members cfg seed evs w r s e' ->
  EvSend to bytes ∈ env_trace e' ->
  exists m, bytes = message_encode (MRaft m) /\
    forall t, m = RequestVoteResp t true -> exists c li lt,
      NodeMessage to (RequestVote t c li lt) ∈ evs /\ vote_recorded (r_durable_hard_state s) t c.
Proof.
  intros Hs Hin.
  set (RQ := (fun from t c => exists li lt, NodeMessage from (RequestVote t c li lt) ∈ evs) : Requests).
  destruct (started_good_known (RQ := RQ) _ _ _ _ _ _ _ _ _ (requests_known evs) Hs) as (e1 & _ & _ & Hev).
  rewrite Forall_forall in Hev. destruct (Hev _ Hin) as (m & -> & _ & _ & Hg).
  exists m. split; [done|]. intros t Ht. destruct (Hg t Ht) as (c & (li & lt & ?) & ?). by exists c, li, lt.
Qed.

(** C5. A node's term never decreases, and within one term its vote never
    changes and is never withdrawn: at most one vote per term. *)
Theorem one_vote_per_term id members cfg seed evs evs' w r r' s s' e1 e2 :
  started id members cfg seed evs w r s e1 ->
  started id members cfg seed (evs ++ evs') w r' s' e2 ->
  r_term s <= r_term s' /\
  (r_term s' = r_term s -> forall c, r_voted_for s = Some c -> r_voted_for s' = Some c).
Proof.
  intros Hs Hs'. destruct (started_app _ _ _ _ _ _ _ _ _ _ _ _ _ Hs Hs') as (_ & _ & []). auto.
Qed.

(** What a node reports as committed, applied or durable is never taken
    back: its commit index and the last index it handed to the state machine
    never decrease, nor its durable term, and its durable hard state only moves
    to a later term or keeps its vote. *)
Theorem progress_is_monotone id members cfg seed evs evs' w r r' s s' e1 e2 :
  started id members cfg seed evs w r s e1 ->
  started id members cfg seed (evs ++ evs') w r' s' e2 ->
  r_commit_index s <= r_commit_index s' /\ r_last_applied s <= r_last_applied s' /\
  r_durable_term s <= r_durable_term s' /\
  hs_le (r_durable_hard_state s) (r_durable_hard_state s').
Proof.
  intros Hs Hs'. destruct (started_app _ _ _ _ _ _ _ _ _ _ _ _ _ Hs Hs') as (_ & _ & []). auto.
Qed.

(** C6. In every reachable state the log is contiguous, term-ordered and laid
    out byte for byte as on disk; nothing beyond the commit index is applied or
    compacted away; the durable claim never exceeds the log; the commit index
    stays within the log unless the node counted the truncation of a committed
    entry; and no hard state written or being written is ahead of the node. *)
Theorem reachable_state_well_formed id members cfg seed evs w r s e' :
  started id members cfg seed evs w r s e' ->
  log_wf (r_log s) /\
  0 <= l_snapshot_index (r_log s) <= r_commit_index s /\
  r_last_applied s <= r_commit_index s /\
  r_durable_index s <= log_last_index (r_log s) /\
  (st_truncated_committed (r_stats s) = 0 -> r_commit_index s <= log_last_index (r_log s)) /\
  Forall (fun h => hs_seq h < r_state_seq s /\ hs_le h (current_hs s)) (written s).
Proof.
  intros Hs. destruct (started_good _ _ _ _ _ _ _ _ _ Hs) as (e1 & _ & [[] _] & _).
  destruct inv_chain as [Hq Hc _]. split_and?; try done.
  apply Forall_and. by split.
Qed.

(** Every batch of entries a node sends is one a well-behaved leader may
    send: indices consecutive from the one after the entry it builds on, terms
    in order. *)
Theorem sent_entries_are_well_formed id members cfg seed evs w r s e' to bytes :
  started id members cfg seed evs w r s e' ->
  EvSend to bytes ∈ env_trace e' ->
  exists m, bytes = message_encode (MRaft m) /\
    forall term leader prev_index prev_term entries commit,
      m = AppendEntries term leader prev_index prev_term entries commit ->
      contiguous_from (prev_index + 1) entries = true /\ terms_ascend entries = true.
Proof.
  intros Hs Hin. destruct (started_good _ _ _ _ _ _ _ _ _ Hs) as (e1 & _ & _ & Hev).
  rewrite Forall_forall in Hev. destruct (Hev _ Hin) as (m & -> & _ & Hw & _).
  exists m. split; [done|]. intros ? ? ? ? ? ? ->. exact Hw.
Qed.

End Properties.

(** A node that comes back from its disk is in a well-formed state that owes
    nothing: term, vote and durable hard state are the ones recovered from the
    file, no entry kept has a later term, the whole log is claimed durable, and
    the commit and applied indices stand at the snapshot. *)
Theorem recovered_state_well_formed wal a b id members cfg seed r :
  recover_state wal a b id members cfg seed = Some r -> cfg_bug cfg = BugNone ->
  Inv r /\ Forall (fun en => e_term en <= r_term r) (l_entries (r_log r)) /\
  r_term r = hs_term (recover_hard_state wal) /\
  r_voted_for r = hs_voted_for (recover_hard_state wal) /\
  r_durable_hard_state r = recover_hard_state wal /\
  r_durable_index r = log_last_index (r_log r) /\
  r_commit_index r = l_snapshot_index (r_log r) /\
  r_last_applied r = l_snapshot_index (r_log r).
Proof. intros Hr Hb. destruct (recover_state_inv _ _ _ _ _ _ _ _ Hr Hb) as [Hi Hrest]. tauto. Qed.

(** ** A concrete run: a node of three grants a vote once it is on disk *)

Definition voter_start : list node_event := [NodeMessage 1 (RequestVote 1 1 0 0)].
Definition voter_rest : list node_event := [NodeStorage 1 true; NodeStorage 3 true; NodeStorage 4 true].

Definition example_run (evs : list node_event) : option (Raft * Raft * Env Z) :=
  match @recover Z counter_io unit 0 [0; 1; 2] raft_config_default 1 tt (mkEnv 0 []) with
  | Some (r, _, e) =>
      match @node_run Z counter_io evs r e with
      | Some (_, s, e') => Some (r, s, e')
      | None => None
      end
  | None => None
  end.

Abbreviation example_started evs :=
  (@started Z counter_io 0 [0; 1; 2] raft_config_default 1 evs 0).

Lemma example_run_started evs r s e :
  example_run evs = Some (r, s, e) -> example_started evs r s e.
Proof.
  unfold example_run, started. intros He. split; [done|].
  destruct (recover _ _ _ _ _ _) as [[[r0 []] e0]|]; [|done].
  destruct (node_run evs r0 e0) as [[[[] s0] e1]|] eqn:Er; [|done].
  injection He as <- <- <-. by exists e0.
Qed.

Lemma example_run_exists evs :
  (if example_run evs is Some _ then true else false) = true ->
  exists r s e, example_run evs = Some (r, s, e).
Proof. destruct (example_run evs) as [[[r s] e]|]; [eauto|done]. Qed.

Definition sends_grant (ev : IoEvent) : bool :=
  match ev with
  | EvSend 1 bytes => bool_decide (bytes = message_encode (MRaft (RequestVoteResp 1 true)))
  | _ => false
  end.

(** The grant is sent in the end, and not before the disk has answered. *)
Lemma voter_run :
  exists r s e, example_started (voter_start ++ voter_rest) r s e /\
    EvSend 1 (message_encode (MRaft (RequestVoteResp 1 true))) ∈ env_trace e.
Proof.
  destruct (example_run_exists (voter_start ++ voter_rest)) as (r & s & e & He);
    [vm_compute; reflexivity|].
  exists r, s, e. split; [by apply example_run_started|].
  assert (Hs : existsb sends_grant (env_trace e) = true).
  { assert (Hb : match example_run (voter_start ++ voter_rest) with
                 | Some (_, e) => existsb sends_grant (env_trace e) | None => false end = true)
      by (vm_compute; reflexivity).
    by rewrite He in Hb. }
  apply existsb_exists in Hs as (ev & Hin & Hev). apply list_elem_of_In in Hin.
  destruct ev as [to bytes| | | | | |]; try discriminate Hev. unfold sends_grant in Hev.
  destruct to as [|[]|]; try discriminate Hev. apply bool_decide_eq_true_1 in Hev.
  rewrite <- Hev. exact Hin.
Qed.

Lemma voter_run_split :
  exists r s s' e e', example_started voter_start r s e /\
    example_started (voter_start ++ voter_rest) r s' e' /\
    r_voted_for s = Some 1 /\ r_term s = 1.
Proof.
  destruct (example_run_exists voter_start) as (r & s & e & He); [vm_compute; reflexivity|].
  destruct voter_run as (r' & s' & e' & Hs' & _).
  pose proof (example_run_started _ _ _ _ He) as Hs.
  destruct (started_app _ _ _ _ _ _ _ _ _ _ _ _ _ Hs Hs') as [-> _].
  exists r, s, s', e, e'. split; [exact Hs|]. split; [exact Hs'|].
  assert (Hb : match example_run voter_start with
               | Some (_, s, _) => bool_decide (r_voted_for s = Some 1) && (r_term s =? 1)
               | None => false end = true) by (vm_compute; reflexivity).
  rewrite He in Hb. apply andb_true_iff in Hb as [Hv Ht].
  split; [by apply bool_decide_eq_true_1 in Hv|by apply Z.eqb_eq in Ht].
Qed.

Lemma sends_only_durable_terms_witness :
  exists r s e to bytes m, example_started (voter_start ++ voter_rest) r s e /\
    EvSend to bytes ∈ env_trace e /\ bytes = message_encode (MRaft m) /\
    msg_term m <= r_durable_term s <= r_term s.
Proof.
  destruct voter_run as (r & s & e & Hs & Hin).
  destruct (@sends_only_durable_terms Z counter_io _ _ _ _ _ _ _ _ _ _ _ Hs Hin) as (m & Hb & Hm).
  exists r, s, e, 1, (message_encode (MRaft (RequestVoteResp 1 true))), m.
  exact (conj Hs (conj Hin (conj Hb Hm))).
Defined.

Lemma granted_votes_are_recorded_witness :
  exists r s e bytes m, example_started (voter_start ++ voter_rest) r s e /\
    EvSend 1 bytes ∈ env_trace e /\ bytes = message_encode (MRaft (RequestVoteResp 1 true)) /\
    bytes = message_encode (MRaft m) /\
    forall t, m = RequestVoteResp t true -> exists c li lt,
      NodeMessage 1 (RequestVote t c li lt) ∈ voter_start ++ voter_rest /\ vote_recorded (r_durable_hard_state s) t c.
Proof.
  destruct voter_run as (r & s & e & Hs & Hin).
  destruct (@granted_votes_are_recorded Z counter_io _ _ _ _ _ _ _ _ _ _ _ Hs Hin)
    as (m & Hb & Hm).
  exists r, s, e, (message_encode (MRaft (RequestVoteResp 1 true))), m.
  exact (conj Hs (conj Hin (conj eq_refl (conj Hb Hm)))).
Defined.

Lemma one_vote_per_term_witness :
  exists r s s' e e', example_started voter_start r s e /\
    example_started (voter_start ++ voter_rest) r s' e' /\ r_voted_for s = Some 1 /\
    (r_term s' = r_term s -> r_voted_for s' = Some 1).
Proof.
  destruct voter_run_split as (r & s & s' & e & e' & Hs & Hs' & Hv & _).
  exists r, s, s', e, e'. split; [exact Hs|]. split; [exact Hs'|]. split; [exact Hv|].
  intros Ht. destruct (@one_vote_per_term Z counter_io _ _ _ _ _ _ _ _ _ _ _ _ _ Hs Hs') as [_ H1].
  exact (H1 Ht 1 Hv).
Defined.

Lemma progress_is_monotone_witness :
  exists r s s' e e', example_started voter_start r s e /\
    example_started (voter_start ++ voter_rest) r s' e' /\
    r_commit_index s <= r_commit_index s' /\ r_durable_term s <= r_durable_term s'.
Proof.
  destruct voter_run_split as (r & s & s' & e & e' & Hs & Hs' & _).
  exists r, s, s', e, e'. split; [exact Hs|]. split; [exact Hs'|].
  pose proof (@progress_is_monotone Z counter_io _ _ _ _ _ _ _ _ _ _ _ _ _ Hs Hs'). tauto.
Defined.

Lemma reachable_state_well_formed_witness :
  exists r s e, example_started (voter_start ++ voter_rest) r s e /\ log_wf (r_log s) /\
    Forall (fun h => hs_seq h < r_state_seq s /\ hs_le h (current_hs s)) (written s).
Proof.
  destruct voter_run as (r & s & e & Hs & _). exists r, s, e. split; [exact Hs|].
  pose proof (@reachable_state_well_formed Z counter_io _ _ _ _ _ _ _ _ _ Hs). tauto.
Defined.

Lemma sent_entries_are_well_formed_witness :
  exists r s e bytes m, example_started (voter_start ++ voter_rest) r s e /\
    EvSend 1 bytes ∈ env_trace e /\ bytes = message_encode (MRaft m).
Proof.
  destruct voter_run as (r & s & e & Hs & Hin).
  destruct (@sent_entries_are_well_formed Z counter_io _ _ _ _ _ _ _ _ _ _ _ Hs Hin)
    as (m & Hb & _).
  exists r, s, e, (message_encode (MRaft (RequestVoteResp 1 true))), m.
  exact (conj Hs (conj Hin Hb)).
Defined.

Lemma recovered_state_well_formed_witness :
  exists r, recover_state [] [] [] 0 [0; 1; 2] raft_config_default 1 = Some r /\ Inv r.
Proof.
  destruct (recover_state [] [] [] 0 [0; 1; 2] raft_config_default 1) as [r|] eqn:E.
  - exists r. split; [done|]. by apply (recovered_state_well_formed _ _ _ _ _ _ _ _ E).
  - exfalso.
    assert (Hb : (if recover_state [] [] [] 0 [0; 1; 2] raft_config_default 1 is Some _
                  then true else false) = true) by (vm_compute; reflexivity).
    by rewrite E in Hb.
Defined.
