(* ===== verification/VoteLoss.v ===== *)
(** * VoteLoss: a crash that takes back a vote ([raft.rs], [log.rs], [disk.rs])

    [write_hard_state] does not wait for the write before it, and the slots
    alternate by sequence number, so with two hard-state writes in flight the
    second is aimed at the slot that holds the durable state.  This file runs
    the node on the simulated world, under the repository's own hostile disk
    settings, through a crash at that moment: the vote the node had made durable
    and announced is gone, and it grants the same term to another candidate. *)
From Stdlib Require Import String.
From S2P Require Import Prelude Codec Crc LogFormat RaftLog Recovery Durable Messages Config Io Rng Draw.
From S2P Require Import Disk Faults Scheduler Net Trace World Persister RaftState Raft RaftInv RaftRecover RaftSafety.
From Stdlib.Init Require Import Byte.
Local Open Scope Z_scope.

(** ** The run *)

Definition loss_seed : Z := 101.
Definition loss_world : WorldConfig :=
  mkWorldConfig 3 loss_seed net_config_default disk_config_hostile fault_config_default LOff.

(** The handlers of node 0, recovered from its disk, on a world. *)
Definition incarnation (evs : list node_event) (w : World) : option (Raft * Raft * Env SimIo) :=
  '(r, _, e) ← recover (S := unit) 0 [0; 1; 2] raft_config_default 1 tt (mkEnv (mkSimIo (Some w) 0) []);
  '(_, s, e') ← node_run evs r e;
  Some (r, s, e').

(** A vote for node 1 in term 1, durable and sent; then two later terms, each a
    hard-state write that no sync has covered yet. *)
Definition before_crash : list node_event :=
  [NodeMessage 1 (RequestVote 1 1 0 0); NodeStorage 1 true; NodeStorage 2 true;
   NodeMessage 2 (RequestVote 2 2 0 0); NodeMessage 2 (RequestVote 3 2 0 0)].
(** Node 2 asks for the vote of term 1; the write and its sync complete. *)
Definition after_crash : list node_event :=
  [NodeMessage 2 (RequestVote 1 2 0 0); NodeStorage 5 true; NodeStorage 6 true].

Definition power_cycle (w : World) : option World := crash_node 0 w ≫= restart_node 0.

Definition loss_run : option ((Raft * Raft * Env SimIo) * (Raft * Raft * Env SimIo)) :=
  w ← world_new loss_world;
  '(r, s, e) ← incarnation before_crash w;
  w ← si_world (env_world e) ≫= power_cycle;
  '(r', s', e') ← incarnation after_crash w;
  Some ((r, s, e), (r', s', e')).

Definition granted (to : NodeId) (t : Z) (ev : IoEvent) : bool :=
  match ev with
  | EvSend n bytes => (n =? to) && bool_decide (bytes = message_encode (MRaft (RequestVoteResp t true)))
  | _ => false
  end.

(** ** Lemmas *)

Lemma granted_sent to t evs :
  existsb (granted to t) evs = true ->
  EvSend to (message_encode (MRaft (RequestVoteResp t true))) ∈ evs.
Proof.
  intros ([] & Hin & Hg)%existsb_exists; try done. unfold granted in Hg. bools. subst.
  by apply list_elem_of_In.
Qed.

Lemma incarnation_started evs w r s e :
  incarnation evs w = Some (r, s, e) ->
  started 0 [0; 1; 2] raft_config_default 1 evs (mkSimIo (Some w) 0) r s e.
Proof.
  unfold incarnation, started. intros Hr. split; [done|].
  destruct (recover _ _ _ _ _ _) as [[[r0 []] e0]|]; [|done]. simpl in Hr.
  destruct (node_run evs r0 e0) as [[[[] s0] e1]|] eqn:En; [|done].
  injection Hr as <- <- <-. eauto.
Qed.

(** What the run shows: both grants, and the hard state known durable before
    the crash. *)
Definition loss_facts : bool :=
  match loss_run with
  | Some ((_, s, e), (r', _, e')) =>
      existsb (granted 1 1) (env_trace e) && existsb (granted 2 1) (env_trace e')
      && bool_decide (r_durable_hard_state s = mkHardState 1 (Some 1) 1)
      && (r_term r' =? 0)
  | None => false
  end.
Lemma loss_facts_hold : loss_facts = true.
Proof. vm_compute. reflexivity. Qed.

(** ** The defect *)

(** The vote of a term is not cast once: with two hard-state writes in
    flight a crash of the simulated disk (hostile settings, no deliberate
    defect) can damage the slot the durable state is in and leave the other one
    behind.  Here node 0 votes for node 1 in term 1, makes the vote durable and
    sends it; after the crash it recovers term 0 and sends node 2 its vote for
    the same term. *)
Theorem two_unsynced_states_lose_a_vote :
  exists w r s e w1 w2 r' s' e',
    world_new loss_world = Some w /\
    started 0 [0; 1; 2] raft_config_default 1 before_crash (mkSimIo (Some w) 0) r s e /\
    EvSend 1 (message_encode (MRaft (RequestVoteResp 1 true))) ∈ env_trace e /\
    r_durable_hard_state s = mkHardState 1 (Some 1) 1 /\
    si_world (env_world e) = Some w1 /\ power_cycle w1 = Some w2 /\
    started 0 [0; 1; 2] raft_config_default 1 after_crash (mkSimIo (Some w2) 0) r' s' e' /\
    r_term r' = 0 /\
    EvSend 2 (message_encode (MRaft (RequestVoteResp 1 true))) ∈ env_trace e'.
Proof.
  pose proof loss_facts_hold as Hf. unfold loss_facts in Hf.
  destruct loss_run as [[[[r s] e] [[r' s'] e']]|] eqn:El; [|done].
  unfold loss_run in El. destruct (world_new loss_world) as [w|]; [|done]. simpl in El.
  destruct (incarnation before_crash w) as [[[r0 s0] e0]|] eqn:E1; [|done]. simpl in El.
  destruct (si_world (env_world e0)) as [w1|] eqn:Ew; [|done]. simpl in El.
  destruct (power_cycle w1) as [w2|] eqn:Ep; [|done]. simpl in El.
  destruct (incarnation after_crash w2) as [[[r1 s1] e1]|] eqn:E2; [|done].
  injection El as <- <- <- <- <- <-. bools.
  exists w, r0, s0, e0, w1, w2, r1, s1, e1.
  split_and?; auto using incarnation_started, granted_sent.
Qed.
