(* ===== verification/Ballot.v ===== *)
(** * Ballot: what a node's votes rest on

    A second invariant of the Raft node, about elections: a vote it reveals is
    one of the hard states it had written, a candidate counts only itself and
    the nodes that answered it, and a leader won a majority of its membership.
    [asked] says who asked for a vote in which term, [got] who granted this node
    one; they stand for what the messages it receives say, and [Election] fills
    them in with what was really sent. *)
From Stdlib Require Import String.
From S2P Require Import Prelude Codec Crc LogFormat RaftLog Recovery Durable Messages Config.
From S2P Require Import Io Rng Persister RaftState Raft RaftInv.
From Stdlib.Init Require Import Byte.

(** The hard state is a vote for [c] in term [t]. *)
Definition votes_for (hs : HardState) (t : Z) (c : NodeId) : Prop :=
  hs_term hs = t /\ hs_voted_for hs = Some c.
(** That vote is in [hs], or [hs] is past its term. *)
Definition vote_stays (hs : HardState) (t : Z) (c : NodeId) : Prop :=
  t < hs_term hs \/ votes_for hs t c.

Lemma vote_stays_le a b t c : hs_le a b -> vote_stays a t c -> vote_stays b t c.
Proof.
  unfold vote_stays, votes_for. intros [?|[? Hv]] [?|[? Hc]]; [left; lia..|].
  right. split; [lia|auto].
Qed.

(** What fits the vote of a slot. *)
Definition votable (n : NodeId) : Prop := is_u32 n /\ n <> NO_VOTE.
Definition vote_ok (v : option NodeId) : Prop := match v with None => True | Some n => votable n end.
Definition state_fits (h : HardState) : Prop := is_u64 (hs_term h) /\ vote_ok (hs_voted_for h).

(** No other message speaks of a vote granted or asked for. *)
Definition no_ballot (m : RaftMsg) : Prop :=
  match m with RequestVote _ _ _ _ | RequestVoteResp _ true => False | _ => True end.

(** A majority of [members] is for [me]. *)
Definition wins (got : NodeId -> Z -> Prop) (members : list NodeId) (t : Z) (me : NodeId) : Prop :=
  exists q : gset NodeId, (length members / 2 + 1 <= size q)%nat /\
    forall v, v ∈ q -> v ∈ members /\ (v = me \/ got v t).

Section Ballots.
Context (asked got : NodeId -> Z -> Prop).

Definition ballot_batch (me : NodeId) (b : Batch) : Prop :=
  match b_action b with
  | PVoteReply to t true => asked to t /\ exists h, b_hard b = Some h /\ votes_for h t to
  | PCampaign t => exists h, b_hard b = Some h /\ votes_for h t me
  | PReply _ m => no_ballot m
  | _ => True
  end.

Record Ballot (s : Raft) : Prop := {
  bl_bug : cfg_bug (r_cfg s) = BugNone;
  bl_id : votable (r_id s);
  bl_term : is_u64 (r_term s);
  bl_vote : vote_ok (r_voted_for s);
  bl_ids : Forall (fun b => b_id b <= p_next_id (r_persister s)) (p_batches (r_persister s));
  bl_dterm : r_durable_term s = hs_term (r_durable_hard_state s);
  bl_batches : Forall (ballot_batch (r_id s)) (p_batches (r_persister s));
  bl_self : r_role s <> Follower -> r_voted_for s = Some (r_id s);
  bl_votes : r_role s = Candidate -> forall v, v ∈ r_votes s -> v = r_id s \/ got v (r_term s);
  bl_leader : r_role s = Leader -> votes_for (r_durable_hard_state s) (r_term s) (r_id s);
}.

(** A vote among the hard states the node had written when the event began. *)
Definition backed (s0 : Raft) (t : Z) (c : NodeId) : Prop := exists h, h ∈ written s0 /\ votes_for h t c.

Definition ballot_msg (s0 : Raft) (dhs : HardState) (to : NodeId) (m : RaftMsg) : Prop :=
  match m with
  | RequestVote t c _ _ => c = r_id s0 /\ backed s0 t c /\ vote_stays dhs t c
  | RequestVoteResp t true => asked to t /\ backed s0 t to /\ vote_stays dhs t to
  | _ => True
  end.
Definition ballot_ev (s0 : Raft) (dhs : HardState) (ev : IoEvent) : Prop :=
  match ev with
  | EvSend to bytes => exists msg, bytes = message_encode msg /\
      match msg with MRaft m => ballot_msg s0 dhs to m | MClient _ => True end
  | _ => True
  end.

Lemma no_ballot_msg s0 dhs to m : no_ballot m -> ballot_msg s0 dhs to m.
Proof. destruct m as [|? []| | | | | | | |]; done. Qed.

Lemma ballot_ev_mono s0 dhs dhs' ev : hs_le dhs dhs' -> ballot_ev s0 dhs ev -> ballot_ev s0 dhs' ev.
Proof.
  intros Hle. destruct ev; simpl; try done. intros (msg & -> & Hm). exists msg. split; [done|].
  destruct msg as [m|]; [|done]. destruct m as [|? []| | | | | | | |]; simpl in *; try done; destruct Hm as (? & ? & ?);
    split_and?; eauto using vote_stays_le.
Qed.

(** The leadership is not new. *)
Definition old_leader (s0 s : Raft) : Prop :=
  r_role s = Leader -> r_role s0 = Leader /\ r_term s = r_term s0.

(** A hard state written while the event was handled. *)
Definition written_since (s0 : Raft) (h : HardState) : Prop :=
  r_state_seq s0 <= hs_seq h /\ state_fits h /\ hs_le (current_hs s0) h.

Record BallotFacts {W} (s0 : Raft) (e0 : Env W) (s : Raft) (e : Env W) : Prop := {
  bf_id : r_id s = r_id s0;
  bf_seq : r_state_seq s0 <= r_state_seq s;
  bf_term : r_term s0 <= r_term s;
  bf_vote : r_term s = r_term s0 -> forall c, r_voted_for s0 = Some c -> r_voted_for s = Some c;
  bf_written : forall h, h ∈ written s -> h ∈ written s0 \/ written_since s0 h;
  bf_durable : r_durable_hard_state s ∈ written s0;
  bf_elected : r_role s = Leader ->
    (r_role s0 = Leader /\ r_term s = r_term s0) \/
    (wins got (r_members s) (r_term s) (r_id s) /\ backed s0 (r_term s) (r_id s));
  bf_trace : exists new, env_trace e = env_trace e0 ++ new /\
    Forall (ballot_ev s0 (r_durable_hard_state s)) new;
}.

Definition Fair {W} (s0 : Raft) (e0 : Env W) (s : Raft) (e : Env W) : Prop :=
  Ballot s /\ BallotFacts s0 e0 s e.

Lemma Fair_refl {W} s (e : Env W) : Ballot s -> Fair s e s e.
Proof.
  intros Hb. split; [done|]. split; try done; [by left|unfold written; left|by left|].
  exists []. by rewrite app_nil_r.
Qed.

(** What most operations leave alone. *)
Definition ballot_view (s : Raft) :=
  (r_id s, r_role s, r_term s, r_voted_for s, r_votes s, r_members s, r_durable_hard_state s).

End Ballots.

(** ** Automation *)

Ltac fair_open HF :=
  let Hb := fresh "Hb" in let Hf := fresh "Hf" in
  destruct HF as [Hb Hf]; destruct Hb, Hf.
Ltac fair_tac :=
  match goal with
  | HF : Fair ?a ?g ?s0 ?e0 ?s ?e |- Fair ?a ?g ?s1 ?e1 ?s' ?e =>
      unify s1 s0; unify e1 e0; bools; fair_open HF;
      split; split; unfold written in *; simpl in *; solve [done | lia | auto | congruence]
  end.
Ltac fair_assumption :=
  match goal with
  | HF : Fair _ _ _ _ ?s _ |- Fair _ _ _ _ ?s' _ => constr_eq s s'; exact HF
  end.
Ltac fair_done := first [fair_assumption | fair_tac].
#[export] Hint Extern 2 (Fair _ _ _ _ _ _) => fair_assumption : keeps.
#[export] Hint Extern 5 (Fair _ _ _ _ _ _) => solve [fair_tac] : keeps.
#[export] Hint Extern 3 (no_ballot _) => exact I : keeps.
#[export] Hint Extern 3 (ballot_batch _ _ _) => exact I : keeps.
#[export] Hint Extern 3 (is_u64 _) => assumption : keeps.
#[export] Hint Extern 3 (r_term _ < _) => (simpl; assumption) : keeps.

Section Keeps.
Context {W : Type} `{Io W}.
Context (asked got : NodeId -> Z -> Prop).
Implicit Types (s : Raft) (e : Env W).
Abbreviation Fair := (Fair asked got).

(** The usual postcondition: fair still, and the view as it was. *)
Abbreviation calm s0 e0 s := (fun _ s' e' => Fair s0 e0 s' e' /\ ballot_view s' = ballot_view s).

Lemma fair_event s0 e0 s e w ev :
  Fair s0 e0 s e -> ballot_ev asked s0 (r_durable_hard_state s) ev -> Fair s0 e0 s (mkEnv w (env_trace e ++ [ev])).
Proof.
  intros [Hb []] Hev. split; [done|]. split; try done. simpl.
  destruct bf_trace0 as (new & -> & Hn). exists (new ++ [ev]). rewrite app_assoc.
  split; [done|]. apply Forall_app. split; [done|]. by constructor.
Qed.

Lemma fair_request {A} (f : W -> A * W) ev s0 e0 s e :
  (forall a, ballot_ev asked s0 (r_durable_hard_state s) (ev a)) -> Fair s0 e0 s e ->
  wp (request f ev) (fun _ s' e' => s' = s /\ Fair s0 e0 s' e') s e.
Proof. intros Hev HF. apply wp_request. intros a w _. split; [done|]. by apply fair_event. Qed.

Lemma fair_observe tag args s0 e0 s e :
  Fair s0 e0 s e -> wp (observe tag args) (fun _ s' e' => s' = s /\ Fair s0 e0 s' e') s e.
Proof. intros. by apply fair_request. Qed.
Lemma fair_write_at file off bs s0 e0 s e :
  Fair s0 e0 s e -> wp (write_at file off bs) (fun _ s' e' => s' = s /\ Fair s0 e0 s' e') s e.
Proof. intros. by apply fair_request. Qed.
Lemma fair_set_len file len s0 e0 s e :
  Fair s0 e0 s e -> wp (set_len file len) (fun _ s' e' => s' = s /\ Fair s0 e0 s' e') s e.
Proof. intros. by apply fair_request. Qed.
Lemma fair_sync file s0 e0 s e :
  Fair s0 e0 s e -> wp (sync file) (fun _ s' e' => s' = s /\ Fair s0 e0 s' e') s e.
Proof. intros. by apply fair_request. Qed.
Lemma fair_now s0 e0 s e :
  Fair s0 e0 s e -> wp now (fun _ s' e' => s' = s /\ Fair s0 e0 s' e') s e.
Proof. done. Qed.

Lemma fair_deadline_disarm d s0 e0 s e :
  Fair s0 e0 s e -> wp (deadline_disarm d) (fun _ s' e' => s' = s /\ Fair s0 e0 s' e') s e.
Proof.
  intros HF. unfold deadline_disarm. case_match; [|by apply wp_ret].
  apply wp_bind. eapply wp_mono; [by apply fair_request|]. intros _ s' e' [-> ?]. by apply wp_ret.
Qed.
Lemma fair_deadline_reset d delay tag s0 e0 s e :
  Fair s0 e0 s e -> wp (deadline_reset d delay tag) (fun _ s' e' => s' = s /\ Fair s0 e0 s' e') s e.
Proof.
  intros HF. unfold deadline_reset. apply wp_bind.
  eapply wp_mono; [by apply fair_deadline_disarm|]. intros d' s1 e1 [-> ?].
  apply wp_bind. eapply wp_mono; [by apply fair_now|]. intros t s2 e2 [-> ?].
  apply wp_bind. eapply wp_mono; [by apply fair_request|]. intros h s3 e3 [-> ?]. by apply wp_ret.
Qed.

#[local] Hint Resolve fair_observe fair_write_at fair_set_len fair_sync fair_now
  fair_deadline_disarm fair_deadline_reset : keeps.

(** ** Plumbing *)

Lemma fair_bump_by (f : RaftStats -> Z) `{!Setter f} n s0 e0 s e :
  Fair s0 e0 s e ->
  wp (bump_by f n) (fun _ s' e' => e' = e /\ Fair s0 e0 s' e' /\ ballot_view s' = ballot_view s) s e.
Proof. intros HF. unfold bump_by. do 4 wp_step. split; [done|]. split; [fair_tac|done]. Qed.
Lemma fair_bump (f : RaftStats -> Z) `{!Setter f} s0 e0 s e :
  Fair s0 e0 s e ->
  wp (bump f) (fun _ s' e' => e' = e /\ Fair s0 e0 s' e' /\ ballot_view s' = ballot_view s) s e.
Proof. apply fair_bump_by. Qed.

Lemma fair_send to msg s0 e0 s e :
  Fair s0 e0 s e -> ballot_msg asked s0 (r_durable_hard_state s) to msg ->
  wp (send to msg) (fun _ s' e' => s' = s /\ Fair s0 e0 s' e') s e.
Proof.
  intros HF Hm. unfold send. do 3 wp_step; [by wp_step|].
  apply fair_request; [|done]. intros _. by exists (MRaft msg).
Qed.
Lemma fair_send_other to msg s0 e0 s e :
  Fair s0 e0 s e -> no_ballot msg -> wp (send to msg) (fun _ s' e' => s' = s /\ Fair s0 e0 s' e') s e.
Proof. intros HF Hm. apply fair_send; [done|]. by apply no_ballot_msg. Qed.

#[local] Hint Resolve fair_bump fair_bump_by fair_send_other : keeps.

Lemma fair_batches s0 e0 s e p :
  Fair s0 e0 s e -> Forall (fun b => b_id b <= p_next_id p) (p_batches p) ->
  Forall (ballot_batch asked (r_id s)) (p_batches p) ->
  (forall h, h ∈ hards (p_batches p) -> h ∈ written s) ->
  Fair s0 e0 (s ⟨ r_persister := p ⟩) e.
Proof.
  intros [[] []] Hi Hb Hs. split; split; simpl; try done.
  intros h [->|Hh]%elem_of_cons; apply bf_written0; [left|by apply Hs].
Qed.

(** Batches that only lost entries or changed in their counts. *)
Definition ballot_sub (bs' bs : list Batch) : Prop :=
  forall b', b' ∈ bs' -> exists b, b ∈ bs /\ b_id b' = b_id b /\ b_hard b' = b_hard b /\
    forall me, ballot_batch asked me b -> ballot_batch asked me b'.

Lemma ballot_sub_update id f bs :
  (forall b, b_id (f b) = b_id b /\ b_hard (f b) = b_hard b /\ b_action (f b) = b_action b) ->
  ballot_sub (batch_update id f bs) bs.
Proof.
  intros Hf. induction bs as [|b bs IH]; simpl; [by intros b ?%elem_of_nil|]. case_match.
  - intros b' [->|Hb']%elem_of_cons; [|by exists b'; split; [right|]].
    destruct (Hf b) as (? & Hh & Ha). exists b. unfold ballot_batch. rewrite Hh, Ha. split; [left|done].
  - intros b' [->|Hb']%elem_of_cons; [by exists b; split; [left|]|].
    destruct (IH b' Hb') as (c & ? & ?). exists c. split; [by right|done].
Qed.
Lemma ballot_sub_clamp cap p : ballot_sub (p_batches (persister_clamp_all cap p)) (p_batches p).
Proof.
  intros b' (b & <- & Hb)%list_elem_of_In%in_map_iff. exists b. split; [by apply list_elem_of_In|].
  split_and?; try done. intros me. unfold ballot_batch. simpl. by destruct (b_action b).
Qed.
Lemma ballot_sub_complete op ok p ev p' :
  persister_on_complete op ok p = Some (ev, p') -> ballot_sub (p_batches p') (p_batches p).
Proof.
  assert (Hrefl : forall bs, ballot_sub bs bs) by (intros bs b Hb; by exists b).
  unfold persister_on_complete.
  destruct (pending_take op (p_ops p)) as [[[id kind] ops]|]; [|by intros [= <- <-]].
  simpl. destruct ok; simpl.
  2: { intros [= <- <-] b [Hb _]%list_elem_of_In%filter_In. exists b. by rewrite list_elem_of_In. }
  destruct kind.
  - destruct (persister_batch id _) as [b|]; [|by intros [= <- <-]].
    destruct (b_writes_outstanding b) as [|n]; [done|].
    case_match; intros [= <- <-]; by apply ballot_sub_update.
  - destruct (batch_remove id (p_batches p)) as [[b bs]|] eqn:Er; simpl; intros [= <- <-]; [|done].
    apply batch_remove_elem in Er as (l & k & -> & -> & _). intros c Hc. exists c. set_solver.
Qed.

Lemma fair_persister s0 e0 s e p :
  Fair s0 e0 s e -> ballot_sub (p_batches p) (p_batches (r_persister s)) ->
  p_next_id p = p_next_id (r_persister s) -> Fair s0 e0 (s ⟨ r_persister := p ⟩) e.
Proof.
  intros HF Hs Hn. destruct (HF) as [[] _]. apply fair_batches; [done|..].
  - rewrite Hn. apply Forall_forall. intros b' (b & Hb & -> & _)%Hs. rewrite Forall_forall in bl_ids0. auto.
  - apply Forall_forall. intros b' (b & Hb & _ & _ & Hok)%Hs. rewrite Forall_forall in bl_batches0. auto.
  - intros h (b' & (b & Hb & _ & Eh & _)%Hs & Hh)%elem_of_hards. right. apply elem_of_hards. exists b.
    split; congruence.
Qed.

Lemma fair_persisting f s0 e0 s e :
  Fair s0 e0 s e -> (forall p, ballot_sub (p_batches (f p)) (p_batches p)) ->
  (forall p, p_next_id (f p) = p_next_id p) ->
  wp (persisting f) (fun _ s' e' => e' = e /\ Fair s0 e0 s' e' /\ ballot_view s' = ballot_view s) s e.
Proof.
  intros HF Hs Hn. unfold persisting. wp_step. split; [done|]. split; [|done]. by apply fair_persister.
Qed.
#[local] Hint Resolve fair_persisting : keeps.
#[local] Hint Extern 3 (ballot_sub _ _) => (by apply ballot_sub_update) : keeps.
#[local] Hint Extern 3 (p_next_id _ = _) => reflexivity : keeps.

Lemma fair_start_batch action s0 e0 s e :
  Fair s0 e0 s e -> ballot_batch asked (r_id s) (mkBatch 0 FILE_WAL 0 false action None) ->
  wp (start_batch action) (fun _ s' e' => e' = e /\ Fair s0 e0 s' e' /\ ballot_view s' = ballot_view s) s e.
Proof.
  intros HF Hok. eapply wp_mono; [apply start_batch_opened|]. intros id s1 e1 (-> & -> & ->).
  split; [done|]. split; [|done]. unfold opened. destruct (HF) as [[] _]. apply fair_batches; [done|..]; simpl.
  - apply Forall_app. split; [|constructor; [simpl; lia|constructor]].
    eapply Forall_impl; [exact bl_ids0|]. simpl. lia.
  - apply Forall_app. split; [done|]. by constructor.
  - unfold hards. intros h. rewrite omap_app. simpl. rewrite app_nil_r. by right.
Qed.

Lemma fair_reset_election_timer s0 e0 s e :
  Fair s0 e0 s e -> wp reset_election_timer (calm s0 e0 s) s e.
Proof. intros HF. unfold reset_election_timer. wp_go. split; [fair_tac|done]. Qed.
Lemma fair_disarm_heartbeat s0 e0 s e : Fair s0 e0 s e -> wp disarm_heartbeat (calm s0 e0 s) s e.
Proof. intros HF. unfold disarm_heartbeat. wp_go. split; [fair_tac|done]. Qed.
Lemma fair_disarm_election s0 e0 s e : Fair s0 e0 s e -> wp disarm_election (calm s0 e0 s) s e.
Proof. intros HF. unfold disarm_election. wp_go. split; [fair_tac|done]. Qed.
Lemma fair_reset_heartbeat_timer s0 e0 s e : Fair s0 e0 s e -> wp reset_heartbeat_timer (calm s0 e0 s) s e.
Proof. intros HF. unfold reset_heartbeat_timer. wp_go. split; [fair_tac|done]. Qed.
Lemma fair_push_entry en s0 e0 s e :
  Fair s0 e0 s e ->
  wp (push_entry en) (fun _ s' e' => e' = e /\ Fair s0 e0 s' e' /\ ballot_view s' = ballot_view s) s e.
Proof. intros HF. unfold push_entry. repeat wp_step. split; [done|]. split; [fair_tac|done]. Qed.

#[local] Hint Resolve fair_start_batch fair_reset_election_timer fair_disarm_heartbeat
  fair_disarm_election fair_reset_heartbeat_timer fair_push_entry : keeps.

(** ** Persistence *)

Lemma current_le s s' :
  r_term s <= r_term s' -> (r_term s' = r_term s -> forall c, r_voted_for s = Some c -> r_voted_for s' = Some c) ->
  hs_le (current_hs s) (current_hs s').
Proof. intros Ht Hv. unfold hs_le. simpl. destruct (decide (r_term s' = r_term s)); [right|left]; [auto|lia]. Qed.

(** Writing the hard state into the batch just opened. *)
Lemma fair_write_hard_state action s0 e0 s e :
  Fair s0 e0 s e ->
  ballot_batch asked (r_id s) (mkBatch 0 FILE_WAL 0 false action (Some (current_hs s))) ->
  let id := p_next_id (r_persister s) + 1 in
  wp (write_hard_state id) (calm s0 e0 s) (opened s action id) e.
Proof.
  intros HF Hok id. unfold write_hard_state, persisting. repeat wp_step.
  apply wp_request. intros op w _. repeat wp_step. split; [|done].
  assert (Hids : Forall (fun c => b_id c <> id) (p_batches (r_persister s))).
  { destruct HF as [[] _]. eapply Forall_impl; [exact bl_ids0|]. simpl. lia. }
  simpl. unfold persister_note_write, persister_note_hard_state, with_op, with_batch. simpl.
  rewrite !batch_update_snoc by done. simpl.
  apply (fair_event _ _ _ _ w (EvWriteAt op FILE_WAL _ _)); [|done].
  fair_open HF. split; split; simpl; try done; try lia.
  - apply Forall_app. split; [|constructor; [simpl; lia|constructor]].
    eapply Forall_impl; [exact bl_ids0|]. simpl. lia.
  - apply Forall_app. split; [done|]. by constructor.
  - unfold written, hards. simpl. intros h Hh. rewrite omap_app in Hh. simpl in Hh.
    apply elem_of_cons in Hh as [->|[Hh| ->%list_elem_of_singleton]%elem_of_app].
    + apply bf_written0. left.
    + apply bf_written0. by right.
    + right. split; [simpl; lia|]. split; [done|]. by apply (current_le s0 s).
Qed.

(** The two together, as the handlers use them. *)
Lemma fair_persist_hard action (k : Z -> M W Raft unit) (Q : Raft -> Env W -> Prop) s0 e0 s e :
  Fair s0 e0 s e ->
  ballot_batch asked (r_id s) (mkBatch 0 FILE_WAL 0 false action (Some (current_hs s))) ->
  (forall id s' e', Fair s0 e0 s' e' -> ballot_view s' = ballot_view s ->
     wp (k id) (fun _ => Q) s' e') ->
  wp (start_batch action ≫= fun id => write_hard_state id ;; k id) (fun _ => Q) s e.
Proof.
  intros HF Hok Hk. wp_step. eapply wp_mono; [apply start_batch_opened|].
  intros id s1 e1 (-> & -> & ->). wp_step. eapply wp_mono; [by apply fair_write_hard_state|].
  intros [] s2 e2 [HF2 Hs2]. by apply Hk.
Qed.
Lemma fair_persist_hard_last action s0 e0 s e :
  Fair s0 e0 s e ->
  ballot_batch asked (r_id s) (mkBatch 0 FILE_WAL 0 false action (Some (current_hs s))) ->
  wp (start_batch action ≫= write_hard_state) (calm s0 e0 s) s e.
Proof.
  intros HF Hok. wp_step. eapply wp_mono; [apply start_batch_opened|].
  intros id s1 e1 (-> & -> & ->). by apply fair_write_hard_state.
Qed.

Lemma fair_write_log_from batch from truncated s0 e0 s e :
  Fair s0 e0 s e -> wp (write_log_from batch from truncated) (calm s0 e0 s) s e.
Proof. intros HF. unfold write_log_from. wp_go; eauto with keeps; split; eauto with keeps congruence. Qed.
Lemma fair_persist_log_from from truncated reply_to reply_term verified s0 e0 s e :
  Fair s0 e0 s e ->
  wp (persist_log_from from truncated reply_to reply_term verified) (calm s0 e0 s) s e.
Proof.
  intros HF. unfold persist_log_from. wp_go. eapply wp_mono; [by apply fair_write_log_from|].
  intros [] s1 e1 [? ?]. split; [done|congruence].
Qed.
#[local] Hint Resolve fair_write_log_from fair_persist_log_from : keeps.

(** ** Membership *)

Lemma fair_refresh_config s0 e0 s e :
  Fair s0 e0 s e -> old_leader s0 s ->
  wp refresh_config (fun _ s' e' => e' = e /\ Fair s0 e0 s' e' /\ config_frame s s') s e.
Proof.
  intros HF Ho. eapply wp_mono; [apply refresh_config_frame|].
  intros _ s' e' [-> (m & i & n & x & ->)]. split; [done|]. split; [|by exists m, i, n, x].
  fair_open HF. split; split; unfold written in *; simpl in *; try done.
  intros Hl. left. by apply Ho.
Qed.
Lemma fair_step_aside s0 e0 s e :
  Fair s0 e0 s e -> wp step_aside_if_removed (fun _ s' e' => Fair s0 e0 s' e') s e.
Proof.
  intros HF. unfold step_aside_if_removed. wp_go; try fair_assumption.
Qed.
#[local] Hint Resolve fair_refresh_config fair_step_aside : keeps.

(** ** Durability claims *)

Lemma fair_quiet s0 e0 s e e' : Fair s0 e0 s e -> quiet_since e e' -> Fair s0 e0 s e'.
Proof.
  intros [Hb []] (new & Hn & Hq). split; [done|]. split; try done.
  destruct bf_trace0 as (old & Ho & Hall). exists (old ++ new). rewrite Hn, Ho, app_assoc.
  split; [done|]. apply Forall_app. split; [done|]. eapply Forall_impl; [exact Hq|]. by intros [].
Qed.

Lemma advance_loop_frame fuel cap s e :
  wp (advance_loop fuel cap) (fun _ s' e' => durable_frame s s' /\ quiet_since e e') s e.
Proof.
  revert s e. induction fuel as [|fuel IH]; intros s e; [done|]. cbn [advance_loop].
  assert (Hp : forall p, durable_frame s (s ⟨ r_parked := p ⟩))
    by (intros p; exists p, (r_durable_index s); by destruct s).
  assert (Hgo : forall c s1, durable_frame s s1 ->
    wp (observe "durable" [c] ;; advance_loop fuel cap)
      (fun _ s' e' => durable_frame s s' /\ quiet_since e e') s1 e).
  { intros c s1 Hfr. wp_step. apply wp_request. intros [] w _.
    eapply wp_mono; [apply IH|]. intros [] s2 e2 (Hfr2 & new & Hn & Hq). simpl in Hn. split.
    - by eapply durable_frame_trans.
    - eexists. rewrite Hn, <- app_assoc. split; [done|]. by constructor. }
  repeat wp_step; try (split; [done|apply quiet_since_refl]).
  all: eapply Hgo; by do 2 eexists.
Qed.
Lemma fair_advance_durable s0 e0 s e : Fair s0 e0 s e -> wp advance_durable (calm s0 e0 s) s e.
Proof.
  intros HF. unfold advance_durable. wp_step. wp_step. wp_step.
  eapply wp_mono; [apply advance_loop_frame|]. intros [] s1 e1 [(p & d & ->) Hq].
  apply (fair_quiet _ _ _ _ e1) in HF; [|done]. repeat wp_step; (split; [fair_tac|done]).
Qed.

(** ** Stepping down *)

Lemma fair_follower s0 e0 s e t v l vs :
  Fair s0 e0 s e -> is_u64 t -> r_term s < t -> vote_ok v ->
  Fair s0 e0 (s ⟨ r_term := t ⟩ ⟨ r_voted_for := v ⟩ ⟨ r_role := Follower ⟩ ⟨ r_leader := l ⟩ ⟨ r_votes := vs ⟩) e.
Proof.
  intros HF Ht Hlt Hv. fair_open HF. split; split; unfold written in *; simpl in *; try done; lia.
Qed.

Lemma fair_step_down term s0 e0 s e :
  Fair s0 e0 s e -> is_u64 term -> r_term s < term ->
  wp (step_down term) (fun _ s' e' => Fair s0 e0 s' e' /\ r_role s' = Follower /\
    r_term s' = term /\ r_voted_for s' = None /\
    r_durable_hard_state s' = r_durable_hard_state s) s e.
Proof.
  intros HF Ht Hlt. unfold step_down.
  assert (Htail : forall s1 e1, Fair s0 e0 s1 e1 -> ballot_view s1 = ballot_view s ->
    wp (modify (fun s => s ⟨ r_term := term ⟩ ⟨ r_voted_for := None ⟩ ⟨ r_role := Follower ⟩
                  ⟨ r_leader := None ⟩ ⟨ r_votes := ∅ ⟩) ;;
        disarm_heartbeat ;; reset_election_timer)
      (fun _ s' e' => Fair s0 e0 s' e' /\ r_role s' = Follower /\ r_term s' = term /\
        r_voted_for s' = None /\ r_durable_hard_state s' = r_durable_hard_state s) s1 e1).
  { intros s1 e1 HF1 Hv. repeat wp_step.
    assert (Hlt1 : r_term s1 < term) by (unfold ballot_view in Hv; by replace (r_term s1) with (r_term s) by congruence).
    eapply wp_mono; [by apply fair_disarm_heartbeat, fair_follower|]. intros [] s2 e2 (HF2 & V2).
    eapply wp_mono; [by apply fair_reset_election_timer|]. intros [] s3 e3 (HF3 & V3).
    split; [done|]. unfold ballot_view in *. simpl in *. split_and?; congruence. }
  wp_step. wp_step. wp_step. wp_step; [|by apply Htail]. wp_call. by apply Htail.
Qed.
Lemma fair_step_down_and_persist term s0 e0 s e :
  Fair s0 e0 s e -> is_u64 term -> r_term s < term ->
  wp (step_down_and_persist term) (fun _ s' e' => Fair s0 e0 s' e' /\ r_role s' = Follower) s e.
Proof.
  intros HF Ht Hlt. unfold step_down_and_persist. wp_step.
  eapply wp_mono; [by apply fair_step_down|]. intros [] s1 e1 (HF1 & Hr & _).
  eapply wp_mono; [by apply fair_persist_hard_last|]. intros [] s2 e2 [HF2 V]. split; [done|].
  unfold ballot_view in V. congruence.
Qed.
#[local] Hint Resolve fair_advance_durable fair_step_down_and_persist : keeps.

(** ** Replication and reads: the leader's side *)

Lemma fair_send_append_to to s0 e0 s e :
  Fair s0 e0 s e -> wp (send_append_to to) (fun _ s' e' => Fair s0 e0 s' e') s e.
Proof. intros HF. unfold send_append_to. cbv zeta. wp_go; fair_assumption. Qed.

Lemma fair_for_each {A} (l : list A) (f : A -> M W Raft unit) s0 e0 s e :
  (forall a s e, Fair s0 e0 s e -> wp (f a) (fun _ s' e' => Fair s0 e0 s' e') s e) ->
  Fair s0 e0 s e -> wp (for_each l f) (fun _ s' e' => Fair s0 e0 s' e') s e.
Proof. intros Hf HF. apply (wp_for_each _ _ (Fair s0 e0)); auto. Qed.

Lemma fair_broadcast_append s0 e0 s e :
  Fair s0 e0 s e -> wp broadcast_append (fun _ s' e' => Fair s0 e0 s' e') s e.
Proof.
  intros HF. unfold broadcast_append. wp_step. wp_step. apply fair_for_each; [|done].
  intros. by apply fair_send_append_to.
Qed.

(** The same message to every peer. *)
Lemma fair_broadcast l msg s0 e0 s e :
  Fair s0 e0 s e -> (forall to, ballot_msg asked s0 (r_durable_hard_state s) to msg) ->
  wp (for_each l (fun p => send p msg)) (fun _ s' e' => s' = s /\ Fair s0 e0 s' e') s e.
Proof.
  intros HF Hm. apply (wp_for_each _ _ (fun s' e' => s' = s /\ Fair s0 e0 s' e')); [done| |done].
  intros p s1 e1 _ [-> HF1]. by apply fair_send.
Qed.
Lemma fair_broadcast_other l msg s0 e0 s e :
  Fair s0 e0 s e -> no_ballot msg ->
  wp (for_each l (fun p => send p msg)) (fun _ s' e' => s' = s /\ Fair s0 e0 s' e') s e.
Proof. intros HF Hm. apply fair_broadcast; [done|]. intros to. by apply no_ballot_msg. Qed.

Lemma fair_maybe_commit s0 e0 s e :
  Fair s0 e0 s e -> wp maybe_commit (fun _ s' e' => Fair s0 e0 s' e') s e.
Proof. intros HF. unfold maybe_commit. wp_go; fair_done. Qed.
#[local] Hint Resolve fair_send_append_to fair_broadcast_append fair_broadcast_other fair_maybe_commit : keeps.

Lemma fair_on_append_resp from term success m c s0 e0 s e :
  Fair s0 e0 s e -> is_u64 term ->
  wp (on_append_resp from term success m c) (fun _ s' e' => Fair s0 e0 s' e') s e.
Proof. intros HF Hu. unfold on_append_resp. cbv zeta. wp_go; fair_done. Qed.
Lemma fair_propose cmd s0 e0 s e :
  Fair s0 e0 s e -> wp (propose cmd) (fun _ s' e' => Fair s0 e0 s' e') s e.
Proof. intros HF. unfold propose. wp_go; fair_done. Qed.

Lemma old_leader_view s0 s s' : old_leader s0 s -> ballot_view s' = ballot_view s -> old_leader s0 s'.
Proof. unfold old_leader, ballot_view. intros Ho V. injection V as _ V1 V2 _ _ _ _. by rewrite V1, V2. Qed.
Lemma old_leader_refl s : old_leader s s.
Proof. done. Qed.

Lemma fair_propose_membership members s0 e0 s e :
  Fair s0 e0 s e -> old_leader s0 s ->
  wp (propose_membership members) (fun _ s' e' => Fair s0 e0 s' e') s e.
Proof.
  intros HF Ho. unfold propose_membership. wp_step. wp_step. wp_step; [done|]. wp_step; [done|].
  wp_step; [done|]. cbv zeta. wp_step; [done|]. wp_step; [done|]. wp_step. wp_step.
  wp_step. eapply wp_mono; [by apply fair_push_entry|]. intros [] s1 e1 (-> & HF1 & V1).
  wp_step. eapply wp_mono; [by apply fair_observe|]. intros [] s2 e2 [-> HF2]. wp_step.
  eapply wp_mono; [apply fair_refresh_config; [done|by eapply old_leader_view]|].
  intros [] s3 e3 (-> & HF3 & _). wp_go; fair_done.
Qed.

Lemma fair_broadcast_probe s0 e0 s e :
  Fair s0 e0 s e -> wp broadcast_probe (fun _ s' e' => Fair s0 e0 s' e') s e.
Proof. intros HF. unfold broadcast_probe. cbv zeta. wp_go; fair_done. Qed.
#[local] Hint Resolve fair_broadcast_probe : keeps.
Lemma fair_request_read id s0 e0 s e :
  Fair s0 e0 s e -> wp (request_read id) (fun _ s' e' => Fair s0 e0 s' e') s e.
Proof. intros HF. unfold request_read. wp_go; fair_done. Qed.
Lemma fair_on_read_probe from term leader seq s0 e0 s e :
  Fair s0 e0 s e -> is_u64 term -> wp (on_read_probe from term leader seq) (fun _ s' e' => Fair s0 e0 s' e') s e.
Proof. intros HF Hu. unfold on_read_probe. wp_go; fair_done. Qed.
Lemma fair_on_read_probe_resp from term seq s0 e0 s e :
  Fair s0 e0 s e -> is_u64 term -> wp (on_read_probe_resp from term seq) (fun _ s' e' => Fair s0 e0 s' e') s e.
Proof. intros HF Hu. unfold on_read_probe_resp. cbv zeta. wp_go; fair_done. Qed.
#[local] Hint Resolve fair_on_append_resp fair_on_read_probe fair_on_read_probe_resp : keeps.

(** ** Elections *)

(** A candidate whose own vote is durable and whose votes are a majority. *)
Lemma fair_become_leader s0 e0 s e :
  Fair s0 e0 s e -> r_role s = Candidate -> (quorum s <= member_votes s)%nat ->
  votes_for (r_durable_hard_state s) (r_term s) (r_id s) ->
  wp become_leader (fun _ s' e' => Fair s0 e0 s' e') s e.
Proof.
  intros HF Hc Hq Hv. unfold become_leader. wp_step. wp_step.
  assert (HF1 : Fair s0 e0 (s ⟨ r_role := Leader ⟩ ⟨ r_leader := Some (r_id s) ⟩) e).
  { fair_open HF. split; split; unfold written in *; simpl in *; try done.
    - intros _. apply bl_self0. by rewrite Hc.
    - intros _. right. split; [|by exists (r_durable_hard_state s)].
      unfold quorum, member_votes, count_members in Hq. eexists. split; [exact Hq|].
      intros v [Hm Hin]%elem_of_filter. auto. }
  wp_go; fair_done.
Qed.

Lemma fair_become_candidate s0 e0 s e :
  Fair s0 e0 s e -> wp become_candidate (fun _ s' e' => Fair s0 e0 s' e') s e.
Proof.
  intros HF. unfold become_candidate. repeat wp_step. set (s1 := set_field r_votes _ _).
  assert (HF1 : Fair s0 e0 s1 e).
  { fair_open HF. split; split; unfold written in *; simpl in *; try done.
    - unfold is_u64, U64_MAX in *. lia.
    - intros _ v Hv%elem_of_singleton. by left.
    - lia.
    - lia. }
  assert (Hok : forall s2, ballot_view s2 = ballot_view s1 ->
    votes_for (current_hs s2) (r_term s + 1) (r_id s2)).
  { intros s2 V. unfold ballot_view in V. injection V as V1 _ V2 V3 _ _ _.
    unfold votes_for, current_hs. simpl. rewrite V1, V2, V3. done. }
  clearbody s1. wp_call. wp_step. wp_call. eapply fair_persist_hard; [done| |].
  - unfold ballot_batch. simpl. eexists. split; [done|]. by apply Hok.
  - intros id s2 e2 HF2 _. eapply wp_mono; [by apply fair_reset_election_timer|].
    by intros [] s3 e3 [? _].
Qed.
#[local] Hint Resolve fair_become_candidate : keeps.

Lemma fair_start_pre_vote s0 e0 s e :
  Fair s0 e0 s e -> wp start_pre_vote (fun _ s' e' => Fair s0 e0 s' e') s e.
Proof. intros HF. unfold start_pre_vote. cbv zeta. wp_go; fair_done. Qed.
Lemma fair_on_pre_vote from term candidate li lt s0 e0 s e :
  Fair s0 e0 s e ->
  wp (on_pre_vote from term candidate li lt) (fun _ s' e' => Fair s0 e0 s' e') s e.
Proof. intros HF. unfold on_pre_vote. cbv zeta. wp_go; fair_done. Qed.
Lemma fair_on_pre_vote_resp from term round granted s0 e0 s e :
  Fair s0 e0 s e -> is_u64 term ->
  wp (on_pre_vote_resp from term round granted) (fun _ s' e' => Fair s0 e0 s' e') s e.
Proof. intros HF Hu. unfold on_pre_vote_resp. wp_go; fair_done. Qed.

(** The vote goes to the node that asked. *)
Lemma fair_decide_vote from li lt dirty s0 e0 s e :
  Fair s0 e0 s e -> asked from (r_term s) -> votable from ->
  wp (decide_vote from from li lt dirty) (fun _ s' e' => Fair s0 e0 s' e') s e.
Proof.
  intros HF Ha Hvt. unfold decide_vote. cbv zeta. wp_step. wp_step.
  set (free := bool_decide (r_voted_for s = None) || _).
  set (granted := free && _). set (casts := granted && _).
  apply wp_bind.
  eapply (wp_mono _ (fun _ s' e' => Fair s0 e0 s' e' /\ r_term s' = r_term s /\
    (granted = true -> r_voted_for s' = Some from))).
  { apply wp_when; intros Hc; [wp_step; split; [|done]|split; [done|split; [done|]]].
    - unfold casts, granted, free in Hc. bools.
      match goal with Hc : (_ || _)%bool = true |- _ => apply orb_true_iff in Hc as [Hn|Hn] end;
        bools; [|done].
      fair_open HF. split; split; unfold written in *; simpl in *; try done.
      + intros Hr. specialize (bl_self0 Hr). congruence.
      + intros Ht c Hc'. specialize (bf_vote0 Ht c Hc'). congruence.
    - intros Hg. unfold casts in Hc. rewrite Hg in Hc. simpl in Hc. bools. done. }
  intros [] s1 e1 (HF1 & Ht1 & Hv). clearbody free granted casts. wp_step.
  eapply (wp_mono _ (fun _ s' e' => Fair s0 e0 s' e' /\ r_term s' = r_term s /\
    (granted = true -> r_voted_for s' = Some from))).
  { apply wp_when; intros Hg; [|by apply wp_ret || split].
    eapply wp_mono; [by apply fair_reset_election_timer|].
    intros [] s2 e2 [HF2 V]. unfold ballot_view in V. injection V as _ _ V1 V2 _ _ _.
    rewrite V1, V2. auto. }
  intros [] s2 e2 (HF2 & Ht2 & Hv2). wp_step. wp_step. wp_step; [|wp_step].
  - eapply wp_mono; [apply fair_persist_hard_last; [done|]|by intros [] s3 e3 [? _]].
    unfold ballot_batch. simpl. destruct granted; [|done]. rewrite Ht2. split; [done|].
    eexists. split; [done|]. split; simpl; auto.
  - exfalso. destruct HF2 as [[] _].
    match goal with Hc : (_ && negb (bool_decide (cfg_bug _ = _)))%bool = false |- _ =>
      rewrite bl_bug0, bool_decide_false, andb_true_r in Hc by done end. congruence.
  - wp_step; [done|].
    eapply wp_mono; [apply fair_send; [done|]|by intros [] s3 e3 [-> ?]].
    simpl. destruct granted; [|done]. simpl in *. bools. unfold vote_is_durable in *. bools.
    assert (Hd : votes_for (r_durable_hard_state s2) (r_term s2) from) by done.
    rewrite Ht2. split; [done|]. rewrite <- Ht2. split; [|by right].
    eexists. split; [|exact Hd]. by destruct HF2 as [_ []].
Qed.

(** Without a message from the future: one that grants a vote answers a request
    of this node, so its own vote is recorded. *)
Definition answers (s : Raft) (from : NodeId) (msg : RaftMsg) : Prop :=
  is_u64 (msg_term msg) /\
  match msg with
  | RequestVote t c _ _ => c = from /\ asked from t /\ votable from
  | RequestVoteResp t true => got from t /\ vote_stays (r_durable_hard_state s) t (r_id s)
  | _ => True
  end.

Lemma fair_on_request_vote from term candidate li lt s0 e0 s e :
  Fair s0 e0 s e -> is_u64 term -> candidate = from -> asked from term -> votable from ->
  wp (on_request_vote from term candidate li lt) (fun _ s' e' => Fair s0 e0 s' e') s e.
Proof.
  intros HF Hu -> Ha Hvt. unfold on_request_vote. cbv zeta. wp_step. wp_step. wp_step. wp_call.
  wp_step; [wp_go; fair_done|]. wp_step; [wp_go; fair_done|].
  wp_step. wp_step; bools.
  - eapply wp_mono; [by apply fair_step_down|]. intros [] s1 e1 (HF1 & _ & Ht & _).
    apply fair_decide_vote; [done| |done]. by rewrite Ht.
  - apply fair_decide_vote; [done| |done]. by replace (r_term s) with term by lia.
Qed.

Lemma fair_on_vote_resp from term granted s0 e0 s e :
  Fair s0 e0 s e -> hs_le (r_durable_hard_state s) (current_hs s) ->
  answers s from (RequestVoteResp term granted) ->
  wp (on_vote_resp from term granted) (fun _ s' e' => Fair s0 e0 s' e') s e.
Proof.
  intros HF Hle Ha. unfold on_vote_resp. wp_step. wp_step. wp_step.
  { bools. eapply wp_mono; [by apply fair_step_down_and_persist; [|apply Ha|]|]. by intros [] s1 e1 [? _]. }
  wp_step; [done|]. wp_step; [|done]. bools. subst granted. destruct Ha as (_ & Hg & Hk).
  assert (HF1 : Fair s0 e0 (s ⟨ r_votes := {[from]} ∪ r_votes s ⟩) e).
  { fair_open HF. split; split; unfold written in *; simpl in *; try done; try congruence.
    intros Hc v [->%elem_of_singleton|Hv]%elem_of_union; [right; congruence|auto]. }
  wp_step. wp_step. wp_step. wp_step. wp_step; [|done]. bools.
  apply fair_become_leader; [done|done|by apply Nat.leb_le|]. simpl.
  destruct Hk as [Hlt|Hk]; [|congruence].
  destruct Hle as [?|[? _]]; simpl in *; lia.
Qed.
#[local] Hint Resolve fair_start_pre_vote fair_on_pre_vote fair_on_pre_vote_resp : keeps.

(** ** Replication: the follower's side *)

Lemma fair_truncate at' s0 e0 s e :
  Fair s0 e0 s e -> r_role s <> Leader ->
  wp (truncate at') (fun _ s' e' => Fair s0 e0 s' e' /\ r_role s' = r_role s) s e.
Proof.
  intros HF Hr. unfold truncate. wp_step. wp_step. wp_step.
  eapply (wp_mono _ (calm s0 e0 s)).
  { apply wp_when; intros _; [|done]. eapply wp_mono; [by eapply fair_bump|]. by intros [] s1 e1 (-> & ? & ?). }
  intros [] s1 e1 [HF1 V1]. wp_step.
  eapply wp_mono; [by eapply fair_bump|]. intros [] s2 e2 (-> & HF2 & V2). wp_step.
  eapply wp_mono; [by eapply fair_observe|]. intros [] s3 e3 [-> HF3].
  assert (Hr2 : r_role s2 = r_role s) by (unfold ballot_view in *; congruence).
  wp_step. wp_step. wp_step. wp_step. wp_step.
  eapply wp_mono; [eapply (fair_refresh_config s0 e0); [fair_tac|]|].
  { intros Hl. simpl in Hl. congruence. }
  intros [] s4 e4 (-> & HF4 & m & i & n & x & ->). repeat wp_step. split; [|exact Hr2].
  match goal with HF : Fair s0 e0 ?y e3 |- Fair _ _ (?z ⟨ r_parked := _ ⟩) _ =>
    assert (HF5 : Fair s0 e0 (y ⟨ r_persister := persister_clamp_all (at' - 1) (r_persister y) ⟩) e3)
      by (apply fair_persister; [exact HF|apply ballot_sub_clamp|done]) end.
  clear HF4. fair_tac.
Qed.

Lemma fair_take_entries start conflict new s0 e0 s e :
  Fair s0 e0 s e -> r_role s <> Leader ->
  wp (take_entries start conflict new) (fun _ s' e' => Fair s0 e0 s' e') s e.
Proof.
  intros HF Hr. unfold take_entries. cbv zeta.
  assert (Htail : forall s e, Fair s0 e0 s e -> r_role s <> Leader ->
    wp (for_each new push_entry ;;
        when (existsb (fun en : Entry => bool_decide (is_Some (command_members (e_cmd en)))) new)
          refresh_config ;;
        bump_by st_entries_replicated (Z.of_nat (length new)))
      (fun _ s' e' => Fair s0 e0 s' e') s e).
  { clear. intros s e HF Hr. wp_step.
    apply (wp_for_each _ _ (fun s e => Fair s0 e0 s e /\ r_role s <> Leader)); [done| |].
    { intros a s1 e1 _ [HF1 Hr1]. eapply wp_mono; [by eapply fair_push_entry|].
      intros [] s2 e2 (-> & HF2 & V). split; [done|]. unfold ballot_view in V. congruence. }
    intros s1 e1 [HF1 Hr1]. wp_step.
    eapply (wp_mono _ (fun _ s' e' => Fair s0 e0 s' e')).
    - apply wp_when; intros _; [|done].
      eapply wp_mono; [by eapply fair_refresh_config|]. by intros [] s2 e2 (-> & ? & _).
    - intros [] s2 e2 HF2. eapply wp_mono; [by eapply fair_bump_by|]. by intros [] s3 e3 (-> & ? & _). }
  wp_step. wp_step; [|by apply Htail].
  eapply wp_mono; [by eapply fair_truncate|]. intros [] s1 e1 [HF1 Hr1]. apply Htail; [done|congruence].
Qed.

Lemma fair_adopt_commit lc last s0 e0 s e :
  Fair s0 e0 s e -> wp (adopt_commit lc last) (fun _ s' e' => Fair s0 e0 s' e') s e.
Proof. intros HF. unfold adopt_commit. cbv zeta. wp_go; fair_done. Qed.

Lemma fair_reply_or_defer dirty from reply s0 e0 s e :
  Fair s0 e0 s e -> no_ballot reply ->
  wp (reply_or_defer dirty from reply) (fun _ s' e' => Fair s0 e0 s' e') s e.
Proof.
  intros HF Hn. unfold reply_or_defer. wp_step.
  - eapply wp_mono; [by eapply fair_persist_hard_last|]. by intros [] s1 e1 [? _].
  - eapply wp_mono; [by eapply fair_send_other|]. by intros [] s1 e1 [-> ?].
Qed.
#[local] Hint Resolve fair_adopt_commit fair_reply_or_defer : keeps.

Lemma fair_append_matched from prev last entries lc dirty s0 e0 s e :
  Fair s0 e0 s e -> r_role s <> Leader ->
  wp (append_matched from prev last entries lc dirty) (fun _ s' e' => Fair s0 e0 s' e') s e.
Proof.
  intros HF Hr. unfold append_matched. cbv zeta. wp_step. wp_step. wp_step.
  assert (Hblind : wp (truncate_blindly prev last) (fun _ s' e' => s' = s /\ e' = e) s e).
  { unfold truncate_blindly. wp_step. wp_step. wp_step; [|done].
    bools. destruct HF as [[] _]. congruence. }
  eapply wp_mono; [exact Hblind|]. intros [] s1 e1 [-> ->]. wp_step.
  eapply (wp_mono _ (fun _ s' e' => Fair s0 e0 s' e')); [|by intros [] *; apply fair_adopt_commit].
  destruct (find_new _ _ _ _) as [[i conflict]|].
  - wp_step. eapply wp_mono; [by eapply fair_take_entries|]. intros [] s1 e1 HF1.
    wp_step. wp_step. wp_step.
    eapply (wp_mono _ (fun _ s' e' => Fair s0 e0 s' e')).
    + wp_step.
      * eapply fair_persist_hard; [done|done|]. intros id s2 e2 HF2 _.
        eapply wp_mono; [by eapply fair_write_log_from|]. by intros [] s3 e3 [? _].
      * eapply wp_mono; [by eapply fair_persist_log_from|]. by intros [] s3 e3 [? _].
    + intros [] s2 e2 HF2. wp_go; fair_done.
  - wp_step. wp_step. wp_step; [|wp_go; fair_done].
    wp_step. wp_step. eapply wp_mono; [by eapply fair_persist_hard_last|]. by intros [] s3 e3 [? _].
Qed.

Lemma fair_append_after_skip from prev pt last entries lc dirty s0 e0 s e :
  Fair s0 e0 s e -> r_role s <> Leader ->
  wp (append_after_skip from prev pt last entries lc dirty) (fun _ s' e' => Fair s0 e0 s' e') s e.
Proof.
  intros HF Hr. unfold append_after_skip. wp_step. wp_step. wp_step; [|by apply fair_append_matched].
  wp_go; fair_done.
Qed.

Lemma fair_follow_leader leader s0 e0 s e :
  Fair s0 e0 s e ->
  wp (follow_leader leader) (fun _ s' e' => Fair s0 e0 s' e' /\ r_role s' = Follower) s e.
Proof.
  intros HF. unfold follow_leader.
  assert (Htail : forall s e, Fair s0 e0 s e -> r_role s = Follower ->
    wp (t ← now; modify (fun s => s ⟨ r_leader := Some leader ⟩ ⟨ r_last_leader_contact := t ⟩) ;;
        reset_election_timer) (fun _ s' e' => Fair s0 e0 s' e' /\ r_role s' = Follower) s e).
  { clear. intros s e HF Hr. repeat wp_step. wp_call. wp_step. wp_step.
    match goal with |- wp _ _ ?x _ => assert (HF1 : Fair s0 e0 x e') by fair_tac;
      assert (Hr1 : r_role x = Follower) by exact Hr end.
    eapply wp_mono; [by eapply fair_reset_election_timer|]. intros [] s2 e2 [HF2 V]. split; [done|].
    unfold ballot_view in V. congruence. }
  wp_step. wp_step. wp_step. wp_step; bools.
  - wp_step. wp_step.
    match goal with |- wp _ _ ?x _ => assert (HF1 : Fair s0 e0 x e) by fair_tac;
      assert (Hr1 : r_role x = Follower) by done end.
    eapply wp_mono; [by eapply fair_disarm_heartbeat|]. intros [] s2 e2 [HF2 V]. apply Htail; [done|].
    unfold ballot_view in V. congruence.
  - by apply Htail.
Qed.

Lemma fair_on_append_entries from term leader pi pt entries lc s0 e0 s e :
  Fair s0 e0 s e -> is_u64 term ->
  wp (on_append_entries from term leader pi pt entries lc) (fun _ s' e' => Fair s0 e0 s' e') s e.
Proof.
  intros HF Hu. unfold on_append_entries. cbv zeta. wp_step. wp_step. wp_step; [wp_go; fair_done|].
  wp_step. apply (wp_mono _ (fun _ s' e' => Fair s0 e0 s' e')).
  { wp_step; [|done]. bools. eapply wp_mono; [by eapply fair_step_down|]. by intros [] s1 e1 [? _]. }
  intros [] s1 e1 HF1. wp_step. eapply wp_mono; [by eapply fair_follow_leader|].
  intros [] s2 e2 [HF2 Hr2]. assert (Hl : r_role s2 <> Leader) by (by rewrite Hr2).
  wp_step. wp_step. wp_step. wp_step. wp_step.
  - wp_step; [wp_go; fair_done|]. by apply fair_append_after_skip.
  - by apply fair_append_after_skip.
Qed.

(** ** Snapshots *)

Lemma fair_take_snapshot data s0 e0 s e :
  Fair s0 e0 s e -> wp (take_snapshot data) (fun _ s' e' => Fair s0 e0 s' e') s e.
Proof. intros HF. unfold take_snapshot. cbv zeta. wp_go; fair_done. Qed.
Lemma fair_install_image from index it data s0 e0 s e :
  Fair s0 e0 s e -> wp (install_image from index it data) (fun _ s' e' => Fair s0 e0 s' e') s e.
Proof. intros HF. unfold install_image. cbv zeta. wp_go; fair_done. Qed.
#[local] Hint Resolve fair_follow_leader fair_install_image : keeps.
Lemma fair_on_install_snapshot from term leader index it data s0 e0 s e :
  Fair s0 e0 s e -> is_u64 term ->
  wp (on_install_snapshot from term leader index it data) (fun _ s' e' => Fair s0 e0 s' e') s e.
Proof. intros HF Hu. unfold on_install_snapshot. wp_go; fair_done. Qed.
Lemma fair_on_install_snapshot_resp from term index s0 e0 s e :
  Fair s0 e0 s e -> is_u64 term ->
  wp (on_install_snapshot_resp from term index) (fun _ s' e' => Fair s0 e0 s' e') s e.
Proof. intros HF Hu. unfold on_install_snapshot_resp. cbv zeta. wp_go; fair_done. Qed.

Lemma fair_snapshot_taken index term file s0 e0 s e :
  Fair s0 e0 s e -> old_leader s0 s ->
  wp (snapshot_taken index term file) (fun _ s' e' => Fair s0 e0 s' e') s e.
Proof.
  intros HF Ho. unfold snapshot_taken. repeat wp_step.
  match goal with |- wp refresh_config _ ?x _ => assert (HF1 : Fair s0 e0 x e) by fair_tac end.
  eapply wp_mono; [by eapply fair_refresh_config|]. intros [] s1 e1 (-> & HF2 & _). wp_go; fair_done.
Qed.

Lemma fair_adopt_image index term data (keeps_tail : bool) s0 e0 s e :
  Fair s0 e0 s e -> old_leader s0 s ->
  wp (adopt_image index term data keeps_tail) (fun _ s' e' => Fair s0 e0 s' e') s e.
Proof.
  intros HF Ho. unfold adopt_image. cbv zeta. wp_step. wp_step. wp_step. wp_step.
  destruct (default _ _) as [sm app]. wp_step.
  eapply (wp_mono _ (calm s0 e0 s)).
  { apply wp_when; intros _; [wp_step|]; (split; [fair_tac|done]). }
  intros [] s1 e1 [HF1 V1]. wp_step. eapply (wp_mono _ (calm s0 e0 s)).
  { wp_step; [wp_step; split; [fair_tac|done]|]. repeat wp_step.
    match goal with |- wp (set_len _ _) _ ?x _ => assert (HF2 : Fair s0 e0 x e1) by fair_tac end.
    eapply wp_mono; [by eapply fair_set_len|]. intros op s2 e2 [-> HF3]. wp_step.
    eapply wp_mono; [by eapply fair_sync|]. intros op' s3 e3 [-> HF4]. wp_step. done. }
  intros [] s2 e2 [HF2 V2]. repeat wp_step.
  match goal with |- wp refresh_config _ ?x _ => assert (HF3 : Fair s0 e0 x e2) by fair_tac end.
  eapply wp_mono; [eapply fair_refresh_config; [done|]|].
  { eapply old_leader_view; [exact Ho|]. exact V2. }
  intros [] s3 e3 (-> & HF4 & _). wp_go; fair_done.
Qed.

Lemma fair_snapshot_installed index term data file to rt s0 e0 s e :
  Fair s0 e0 s e -> old_leader s0 s ->
  wp (snapshot_installed index term data file to rt) (fun _ s' e' => Fair s0 e0 s' e') s e.
Proof.
  intros HF Ho. unfold snapshot_installed. cbv zeta. wp_step. wp_step. wp_step. wp_step.
  wp_step; [wp_go; fair_done|]. wp_step.
  eapply wp_mono; [eapply (fair_adopt_image _ _ _ _ s0 e0); [fair_tac|done]|].
  intros [] s1 e1 HF1. wp_go; fair_done.
Qed.

(** ** Completions *)

(** What a batch promised once its hard state is durable. *)
Definition ballot_ready (s0 s : Raft) (a : Persist) : Prop :=
  match a with
  | PCampaign t => backed s0 t (r_id s) /\ vote_stays (r_durable_hard_state s) t (r_id s)
  | PVoteReply to t true => asked to t /\ backed s0 t to /\ vote_stays (r_durable_hard_state s) t to
  | PReply _ m => no_ballot m
  | _ => True
  end.

(** [hs] is comparable with the durable hard state and not ahead of the node. *)
Definition in_order (hs : HardState) (s : Raft) : Prop :=
  (hs_seq (r_durable_hard_state s) <= hs_seq hs -> hs_le (r_durable_hard_state s) hs) /\
  (hs_seq hs <= hs_seq (r_durable_hard_state s) -> hs_le hs (r_durable_hard_state s)) /\
  hs_le hs (current_hs s).

Lemma fair_durable hs dt s0 e0 s e :
  Fair s0 e0 s e -> hs ∈ written s0 -> hs_le (r_durable_hard_state s) hs -> hs_le hs (current_hs s) ->
  dt = hs_term hs ->
  Fair s0 e0 (s ⟨ r_durable_hard_state := hs ⟩ ⟨ r_durable_term := dt ⟩) e.
Proof.
  intros HF Hin Hle Hcur ->. fair_open HF. split; split; unfold written in *; simpl in *; try done.
  - intros Hl. destruct (bl_leader0 Hl) as [Ht Hv]. unfold votes_for.
    destruct Hle as [Hlt|[Heq Hk]], Hcur as [Hlt'|[Heq' _]]; simpl in *; [lia|lia|lia|].
    split; [lia|auto].
  - intros h [->|Hh]%elem_of_cons; [by left|]. apply bf_written0. by right.
  - destruct bf_trace0 as (new & -> & Hn). exists new. split; [done|].
    eapply Forall_impl; [exact Hn|]. intros ev. by apply ballot_ev_mono.
Qed.

Lemma raft_durable_eta s :
  s = s ⟨ r_durable_hard_state := r_durable_hard_state s ⟩ ⟨ r_durable_term := r_durable_term s ⟩.
Proof. by destruct s. Qed.

Lemma fair_note_durable hs s0 e0 s e :
  Fair s0 e0 s e -> hs ∈ written s0 -> in_order hs s -> hs_le (r_durable_hard_state s) (current_hs s) ->
  wp (note_durable hs) (fun _ s' e' => Fair s0 e0 s' e' /\ hs_le hs (r_durable_hard_state s') /\
    hs_le (r_durable_hard_state s') (current_hs s') /\ r_role s' = r_role s /\ r_term s' = r_term s) s e.
Proof.
  intros HF Hin (Hup & Hdown & Hcur) Hdc. unfold note_durable. wp_step. wp_step. wp_step.
  assert (Hdt : r_durable_term s = hs_term (r_durable_hard_state s)) by apply HF.
  assert (Hgo : forall d dt, hs_le hs d -> Fair s0 e0 (s ⟨ r_durable_hard_state := d ⟩ ⟨ r_durable_term := dt ⟩) e ->
    hs_le d (current_hs s) ->
    wp advance_durable (fun _ s' e' => Fair s0 e0 s' e' /\ hs_le hs (r_durable_hard_state s') /\
      hs_le (r_durable_hard_state s') (current_hs s') /\ r_role s' = r_role s /\ r_term s' = r_term s)
      (s ⟨ r_durable_hard_state := d ⟩ ⟨ r_durable_term := dt ⟩) e).
  { intros d dt Hle HF1 Hdc1. eapply wp_mono; [by apply fair_advance_durable|].
    intros [] s1 e1 [HF2 V]. unfold ballot_view in V. injection V as _ V1 V2 V3 _ _ V4.
    split; [done|]. rewrite V4. split; [done|]. split_and?; [|done|done].
    unfold current_hs in *. simpl in *. destruct Hdc1 as [?|[? ?]]; [left; simpl in *; congruence|].
    right. simpl in *. rewrite V2, V3. done. }
  wp_step; bools.
  - wp_step. specialize (Hup ltac:(done)).
    pose proof (fair_durable hs (hs_term hs) s0 e0 s e HF Hin Hup Hcur eq_refl) as HF1.
    wp_step; bools; simpl in *.
    + wp_step. wp_step. by apply (Hgo hs (hs_term hs)).
    + assert (hs_term hs = r_durable_term s) as Et by (destruct Hup as [?|[? ?]]; lia).
      rewrite Et in HF1. split; [exact HF1|done].
  - specialize (Hdown ltac:(lia)). wp_step; bools; [|done].
    destruct Hdown as [?|[? ?]]; lia.
Qed.

Lemma fair_log_durable from index verified to rt s0 e0 s e :
  Fair s0 e0 s e ->
  wp (log_durable from index verified to rt) (fun _ s' e' => Fair s0 e0 s' e') s e.
Proof. intros HF. unfold log_durable. cbv zeta. wp_go; fair_done. Qed.

Lemma fair_campaign term s0 e0 s e :
  Fair s0 e0 s e -> ballot_ready s0 s (PCampaign term) -> hs_le (r_durable_hard_state s) (current_hs s) ->
  wp (campaign term) (fun _ s' e' => Fair s0 e0 s' e') s e.
Proof.
  intros HF [Hb Hk] Hle. unfold campaign. cbv zeta. wp_step. wp_step. wp_step; [|done]. bools. wp_step.
  eapply wp_mono; [apply (fair_broadcast _ _ s0 e0); [done|]|].
  { intros to. simpl. split; [by destruct HF as [_ []]|done]. }
  intros [] s1 e1 [-> HF1]. wp_step; [|done]. apply fair_become_leader; [done|done|by apply Nat.leb_le|].
  subst term. destruct Hk as [Hlt|Hk]; [|done]. destruct Hle as [?|[? _]]; simpl in *; lia.
Qed.

Lemma fair_on_durable action s0 e0 s e :
  Fair s0 e0 s e -> ballot_ready s0 s action -> hs_le (r_durable_hard_state s) (current_hs s) ->
  old_leader s0 s ->
  wp (on_durable action) (fun _ s' e' => Fair s0 e0 s' e') s e.
Proof.
  intros HF Hr Hle Ho. unfold on_durable. destruct action as [term|to term granted|from index v to rt|to msg
    |index term file|index term data file to rt|].
  - by apply fair_campaign.
  - eapply wp_mono; [apply (fair_send _ _ s0 e0); [done|]|by intros [] s1 e1 [-> ?]]. by destruct granted.
  - by apply fair_log_durable.
  - eapply wp_mono; [by eapply fair_send_other|by intros [] s1 e1 [-> ?]].
  - by apply fair_snapshot_taken.
  - by apply fair_snapshot_installed.
  - by wp_step.
Qed.

(** ** Event entry points *)

Lemma complete_done op ok p action hard p' :
  persister_on_complete op ok p = Some (BeDone action hard, p') ->
  exists b, b ∈ p_batches p /\ b_action b = action /\ b_hard b = hard.
Proof. intros Hc. by eapply batch_sub_complete. Qed.

Lemma fair_on_storage op ok s e :
  Ballot asked got s -> chain (current_hs s) (written s) ->
  wp (on_storage op ok) (fun _ s' e' => Fair s e s' e') s e.
Proof.
  intros Hb [_ Hcur Hord]. assert (HF : Fair s e s e) by by apply Fair_refl.
  unfold on_storage. wp_step. wp_step. wp_step; [done|].
  wp_step. apply wp_lift. intros [ev p] Hc. cbv beta iota.
  assert (Hn : p_next_id p = p_next_id (r_persister s)) by (by eapply batch_sub_complete).
  assert (HF1 : Fair s e (s ⟨ r_persister := p ⟩) e)
    by (apply fair_persister; [done|by eapply ballot_sub_complete|done]).
  wp_step. wp_step. destruct ev as [|id file|action hard|].
  - done.
  - wp_go; fair_done.
  - apply complete_done in Hc as (b & Hin & <- & <-).
    assert (Hbb : ballot_batch asked (r_id s) b) by (destruct Hb; rewrite Forall_forall in bl_batches0; auto).
    rewrite Forall_forall in Hcur. wp_step. destruct (b_hard b) as [hs|] eqn:Eh.
    + assert (Hw : hs ∈ written s) by (right; apply elem_of_hards; eauto).
      assert (Hd : r_durable_hard_state s ∈ written s) by left.
      eapply wp_mono; [apply (fair_note_durable hs s e); [done|done| |by apply Hcur]|].
      { unfold in_order. split_and?; [intros; by apply Hord|intros; by apply Hord|by apply Hcur]. }
      intros [] s1 e1 (HF2 & Hle & Hdc & Hr & Ht). simpl in Hr, Ht. apply fair_on_durable; [done| |done|intros Hl; split; congruence].
      assert (Hid : r_id s1 = r_id s) by (by destruct HF2 as [_ []]).
      unfold ballot_batch in Hbb. unfold ballot_ready. rewrite Hid.
      assert (Hvote : forall t c, votes_for hs t c -> backed s t c /\ vote_stays (r_durable_hard_state s1) t c).
      { intros t c Hv. split; [by exists hs|]. eapply vote_stays_le; [exact Hle|by right]. }
      destruct (b_action b) as [t|to t []|? ? ? ? ?|? ?|? ? ?|? ? ? ? ? ?|]; try done.
      * destruct Hbb as (h & Eh' & Hv). replace h with hs in Hv by congruence. by apply Hvote.
      * destruct Hbb as (Ha & h & Eh' & Hv). replace h with hs in Hv by congruence.
        split; [done|]. by apply Hvote.
    + wp_step. apply fair_on_durable; [done| |apply Hcur; left|done].
      unfold ballot_batch in Hbb. unfold ballot_ready. rewrite Eh in Hbb.
      destruct (b_action b) as [t|to t []|? ? ? ? ?|? ?|? ? ?|? ? ? ? ? ?|]; try done.
      * by destruct Hbb as (? & ? & _).
      * by destruct Hbb as (_ & ? & ? & _).
  - wp_go; fair_done.
Qed.

Lemma fair_on_message from msg s e :
  Ballot asked got s -> hs_le (r_durable_hard_state s) (current_hs s) -> answers s from msg ->
  wp (on_message from msg) (fun _ s' e' => Fair s e s' e') s e.
Proof.
  intros Hb Hle Ha. assert (HF : Fair s e s e) by by apply Fair_refl.
  unfold on_message. wp_step. wp_step. wp_step; [done|]. pose proof (proj1 Ha) as Hu. simpl in Hu.
  destruct msg; simpl in Hu.
  - destruct Ha as (_ & ? & ? & ?). by apply fair_on_request_vote.
  - by apply fair_on_vote_resp.
  - by apply fair_on_append_entries.
  - by apply fair_on_append_resp.
  - by apply fair_on_install_snapshot.
  - by apply fair_on_install_snapshot_resp.
  - by apply fair_on_read_probe.
  - by apply fair_on_read_probe_resp.
  - by apply fair_on_pre_vote.
  - by apply fair_on_pre_vote_resp.
Qed.

Lemma fair_on_timer tag s0 e0 s e :
  Fair s0 e0 s e -> wp (on_timer tag) (fun _ s' e' => Fair s0 e0 s' e') s e.
Proof. intros HF. unfold on_timer, election_expired, heartbeat_expired. cbv zeta. wp_go; fair_done. Qed.

End Keeps.
