(* ===== verification/Election.v ===== *)
(** * Election: at most one leader for each term

    [Ballot] looks at one node; this file looks at all of them.  The ledger of a
    system says which votes its nodes have cast for good; [voter] is what a node's
    state has to do with it, and every event of the node, and every restart from
    a disk that kept the node's durable hard state, extends the ledger without a
    node ever casting two votes in one term.  [System] runs any number of nodes
    over a network that loses, repeats, delays and reorders messages as it likes
    and over crashes at any moment. *)
From Stdlib Require Import String.
From S2P Require Import Prelude Codec Crc LogFormat RaftLog Recovery Durable Messages Config.
From S2P Require Import Io Rng Persister RaftState Raft RaftInv RaftRecover RaftSafety Ballot.
From Stdlib.Init Require Import Byte.
Local Open Scope Z_scope.

(** ** The ballot in an encoded message *)

(** What the bytes of a Raft message say of its term and of a vote. *)
Definition ballot_bytes (m : RaftMsg) (bs : list byte) : Prop :=
  is_u64 (msg_term m) /\
  match m with
  | RequestVote t c _ _ => is_u32 c /\ exists r, bs = u8_bytes 1 ++ u64_bytes t ++ u32_bytes c ++ r
  | RequestVoteResp t g => exists b, bs = u8_bytes 2 ++ u64_bytes t ++ u8_bytes b /\ is_u8 b /\ g = negb (b =? 0)
  | _ => True
  end.

Lemma parses_any {A} (p : Decoder A) R : parses p R -> parses p (fun _ _ => True).
Proof. intros Hp. by eapply parses_weaken. Qed.
Lemma parses_flag : parses dec_flag (fun g bs => exists b, bs = u8_bytes b /\ is_u8 b /\ g = negb (b =? 0)).
Proof.
  eapply parses_weaken; [apply parses_bind; [apply parses_u8|intros; apply parses_ret]|].
  simpl. intros g bs (b & bs1 & bs2 & -> & [-> ?] & -> & ->). rewrite app_nil_r. eauto.
Qed.

Ltac parses_go :=
  repeat first [ apply parses_bind; [first [apply parses_u64|apply parses_u32|apply parses_u8|apply parses_flag|apply parses_bytes
                                           |apply parses_repeat, entry_parses]|intros ?]
  | apply parses_ret ].

Lemma raft_msg_parses : parses raft_msg_decode_from ballot_bytes.
Proof.
  eapply parses_weaken.
  - apply parses_bind; [apply parses_u8|]. intros t.
    do 2 (apply parses_if; [parses_go|]). apply parses_if.
    { do 6 (apply parses_bind; [first [apply parses_u64|apply parses_u32]|intros ?]).
      apply parses_if; [apply (parses_err _ (fun _ _ => False))|].
      apply parses_bind; [apply parses_repeat, entry_parses|intros ?; apply parses_ret]. }
    do 7 (apply parses_if; [parses_go|]). apply (parses_err _ (fun _ _ => False)).
  - simpl. intros m bs (t & bs1 & bs2 & -> & [-> Ht] & Hif).
    repeat match type of Hif with
    | if ?a =? ?b then _ else _ => destruct (Z.eqb_spec a b) as [->|]
    end; try done.
    all: repeat match goal with H : exists _, _ |- _ => destruct H | H : _ /\ _ |- _ => destruct H end; subst;
      unfold ballot_bytes; simpl; rewrite ?app_nil_r.
    all: try (split; [done|]); eauto 10.
    case_match; [done|]. destruct_and?. repeat match goal with H : exists _, _ |- _ => destruct H | H : _ /\ _ |- _ => destruct H end; by subst.
Qed.

Lemma parses_consumes {A B} (p : Decoder A) (f : A -> B) :
  consumes p -> parses (a ← p; mret (f a)) (fun b _ => exists a, b = f a).
Proof.
  intros Hp d b d' Hd E.
  destruct (consumes_bind _ _ Hp (fun a => consumes_ret (f a)) d b d' Hd E) as [? ?]. split; [done|]. split; [done|].
  revert E. unfold mbind, Decoder_bind. destruct (p d) as [[a d1]|]; [|done]. intros [= <- _]. eauto.
Qed.

Lemma message_parses :
  parses message_fields (fun msg bs => forall m, msg = MRaft m -> exists r, bs = u8_bytes 1 ++ r /\ ballot_bytes m r).
Proof.
  eapply parses_weaken.
  - apply parses_bind; [apply parses_u8|]. intros t.
    apply parses_if; [apply parses_bind; [apply raft_msg_parses|intros; apply parses_ret]|].
    apply parses_if; [apply parses_consumes, client_msg_consumes|apply (parses_err _ (fun _ _ => False))].
  - cbv beta. intros msg bs (t & bs1 & bs2 & -> & [-> Ht] & Hif) m ->.
    destruct (Z.eqb_spec t 1) as [->|].
    + destruct Hif as (m' & bs3 & bs4 & -> & Hb & [= <-] & ->). rewrite app_nil_r. eauto.
    + destruct (t =? 2); [|done]. by destruct Hif.
Qed.

Lemma le_bytes_inj n a b :
  0 <= a < 256 ^ Z.of_nat n -> 0 <= b < 256 ^ Z.of_nat n -> to_le_bytes n a = to_le_bytes n b -> a = b.
Proof. intros Ha Hb E. rewrite <- (from_to_le_bytes n a Ha), <- (from_to_le_bytes n b Hb). by rewrite E. Qed.

(** The tag an encoded Raft message begins with. *)
Definition raft_tag (m : RaftMsg) : Z :=
  match m with
  | RequestVote _ _ _ _ => 1 | RequestVoteResp _ _ => 2 | AppendEntries _ _ _ _ _ _ => 3
  | AppendEntriesResp _ _ _ _ => 4 | InstallSnapshot _ _ _ _ _ => 5 | InstallSnapshotResp _ _ => 6
  | ReadProbe _ _ _ => 7 | ReadProbeResp _ _ => 8 | PreVote _ _ _ _ => 9 | PreVoteResp _ _ _ => 10
  end.
Lemma raft_tag_bytes m k r : raft_msg_bytes m = u8_bytes k ++ r -> is_u8 k -> raft_tag m = k.
Proof.
  intros Hm Hk. assert (Ht : exists r', raft_msg_bytes m = u8_bytes (raft_tag m) ++ r').
  { unfold raft_msg_bytes. destruct m; cbn [raft_msg_encode_into raft_tag];
      rewrite ?(enc_fold_app entry_encode_into entry_bytes) by apply entry_encode_app;
      autorewrite with enc; unfold enc_new; rewrite <- ?app_assoc; by eexists. }
  destruct Ht as [r' Ht]. rewrite Ht in Hm. apply app_inj_1 in Hm as [E _]; [|done].
  apply (le_bytes_inj 1); [|exact Hk|exact E]. destruct m; simpl; lia.
Qed.

(** The ballot in a message is the one its sender put there. *)
Lemma ballot_decoded msg m :
  message_decode (message_encode msg) = Ok (MRaft m) ->
  is_u64 (msg_term m) /\
  match m with
  | RequestVote t c _ _ => exists t0 c0 i l, msg = MRaft (RequestVote t0 c0 i l) /\
      (is_u64 t0 -> t = t0) /\ (is_u32 c0 -> c = c0)
  | RequestVoteResp t true => exists t0, msg = MRaft (RequestVoteResp t0 true) /\ (is_u64 t0 -> t = t0)
  | _ => True
  end.
Proof.
  unfold message_encode. rewrite message_decode_frame.
  destruct (message_fields _) as [[msg' d]|] eqn:E; [|done].
  destruct (message_parses (dec_new (message_payload msg)) msg' d ltac:(simpl; lia) E) as (Hbuf & Hpos & Hb).
  destruct (dec_finish d) eqn:Ef; [|done]. intros [= ->].
  assert (Hend : d_pos d = length (message_payload msg)).
  { unfold dec_finish, dec_remaining in Ef. case_decide; [|done]. rewrite Hbuf in *. simpl in *. lia. }
  destruct (Hb m eq_refl) as (r & Hr & Ht & Hm).
  rewrite Hend in Hr. unfold slice in Hr. simpl in Hr. rewrite drop_0, Nat.sub_0_r, firstn_all in Hr.
  split; [done|]. unfold message_payload in Hr.
  assert (Hmsg : exists m0, msg = MRaft m0 /\ raft_msg_bytes m0 = r).
  { destruct msg as [m0|m0].
    - exists m0. split; [done|]. rewrite raft_msg_encode_app in Hr. by apply (app_inv_head (u8_bytes 1)).
    - exfalso. rewrite client_msg_encode_app in Hr. injection Hr as Hr _. by vm_compute in Hr. }
  destruct Hmsg as (m0 & -> & Hr0). clear Hr E Hbuf Hpos Hb Ef Hend.
  destruct m as [t c i l|t [|]| | | | | | | |]; try done.
  - destruct Hm as [Hc (r' & ->)].
    pose proof (raft_tag_bytes _ _ _ Hr0 ltac:(done)) as Htag.
    destruct m0 as [t0 c0 i0 l0| | | | | | | | |]; try done.
    exists t0, c0, i0, l0. split; [done|].
    assert (Hb : raft_msg_bytes (RequestVote t0 c0 i0 l0) = u8_bytes 1 ++ u64_bytes t0 ++ u32_bytes c0 ++ u64_bytes i0 ++ u64_bytes l0)
      by (unfold raft_msg_bytes; simpl raft_msg_encode_into; autorewrite with enc; unfold enc_new; by rewrite <- ?app_assoc).
    rewrite Hb in Hr0. apply app_inv_head in Hr0.
    apply app_inj_1 in Hr0 as [E1 Hr0]; [|done]. apply app_inj_1 in Hr0 as [E2 _]; [|done].
    split; intros Hu; symmetry; [by apply (le_bytes_inj 8)|by apply (le_bytes_inj 4)].
  - destruct Hm as (b & -> & Hu8 & Hg).
    pose proof (raft_tag_bytes _ _ _ Hr0 ltac:(done)) as Htag.
    destruct m0 as [|t0 g| | | | | | | |]; try done.
    assert (Hb : raft_msg_bytes (RequestVoteResp t0 g) = u8_bytes 2 ++ u64_bytes t0 ++ u8_bytes (bool_as_u8 g))
      by (unfold raft_msg_bytes; simpl raft_msg_encode_into; autorewrite with enc; unfold enc_new; by rewrite <- ?app_assoc).
    rewrite Hb in Hr0. apply app_inv_head in Hr0. apply app_inj_1 in Hr0 as [E1 E2]; [|done].
    assert (bool_as_u8 g = b) as <- by (apply (le_bytes_inj 1); [by destruct g|exact Hu8|exact E2]).
    destruct g; [|done]. exists t0. split; [done|]. intros Hu. symmetry. by apply (le_bytes_inj 8).
Qed.

(** ** One event of a node *)

Section Node.
Context {W : Type} `{Io W}.
Context (asked got : NodeId -> Z -> Prop).

(** What an event may assume of the messages. *)
Definition event_answers (s : Raft) (ev : node_event) : Prop :=
  match ev with NodeMessage from msg => answers asked got s from msg | _ => True end.

Lemma fair_node_handle ev s (e : Env W) :
  Inv s -> Ballot asked got s -> event_answers s ev ->
  wp (node_handle ev) (fun _ s' e' => Good s e s' e' /\ Fair asked got s e s' e') s e.
Proof.
  intros Hi Hb Ha. apply wp_and; [by apply keeps_node_handle, Good_refl|].
  assert (HF : Fair asked got s e s e) by by apply Fair_refl.
  assert (Hch : chain (current_hs s) (written s)) by apply Hi.
  destruct ev; simpl node_handle.
  - apply fair_on_message; [done| |done]. destruct Hch as [_ Hc _]. rewrite Forall_forall in Hc.
    apply Hc. left.
  - by apply fair_on_timer.
  - by apply fair_on_storage.
  - apply wp_bind. eapply wp_mono; [by apply fair_propose|]. auto.
  - apply wp_bind. eapply wp_mono; [by apply fair_propose_membership|]. auto.
  - apply wp_bind. eapply wp_mono; [by apply fair_request_read|]. auto.
  - by apply fair_take_snapshot.
  - apply wp_modify. unfold take_applied. destruct (take_applied_loop _ _ _ _). simpl. fair_tac.
  - apply wp_modify. unfold take_ready_reads. case_match; simpl; [done|fair_tac].
  - apply wp_modify. unfold take_failed_reads. case_match; simpl; [done|fair_tac].
  - apply wp_modify. simpl. fair_tac.
  - apply wp_modify. simpl. fair_tac.
Qed.

(** A node fresh from its disk owes nothing. *)
Lemma recover_slot_fits bytes best i : state_fits best -> state_fits (recover_slot bytes best i).
Proof.
  intros Hb. unfold recover_slot. case_decide; [done|].
  destruct (hard_state_from_slot _) as [h|] eqn:E; [|done]. case_match; [|done].
  unfold hard_state_from_slot in E. case_decide; [done|]. destruct (negb _); [done|].
  destruct (hard_state_fields _) as [[h' d]|] eqn:Ef; [|done]. injection E as ->.
  assert (Hp : parses hard_state_fields (fun h _ => state_fits h)).
  { unfold hard_state_fields. eapply parses_weaken.
    - apply parses_bind; [apply parses_u64|intros q]. apply parses_bind; [apply parses_u64|intros t].
      apply parses_bind; [apply parses_u32|intros v]. apply parses_ret.
    - cbv beta. intros h' bs (q & ? & ? & _ & _ & t & ? & ? & _ & [_ Ht] & v & ? & ? & _ & [_ Hv] & -> & _).
      split; [done|]. simpl. destruct (Z.eqb_spec v NO_VOTE); done. }
  apply Hp in Ef as (_ & _ & ?); [done|simpl; lia].
Qed.
Lemma recover_hard_state_fits bytes : state_fits (recover_hard_state bytes).
Proof. unfold recover_hard_state. simpl. by do 2 apply recover_slot_fits. Qed.

Lemma recover_state_ballot wal a b id members cfg seed r :
  recover_state wal a b id members cfg seed = Some r -> cfg_bug cfg = BugNone -> votable id ->
  Ballot asked got r /\ r_id r = id /\ r_role r = Follower /\
  r_durable_hard_state r = recover_hard_state wal /\ written r = [recover_hard_state wal].
Proof.
  unfold recover_state. set (hs := recover_hard_state wal). set (snap := pick_snapshot_with_source a b).
  destruct (recover_log_any_start _) as [rl|]; [|done]. cbn [mbind option_bind].
  destruct (splice _ _ _ _ _) as [[[es offs] gap]|]; [|done]. cbn [mbind option_bind].
  destruct (u64_add (from_option _ 0 snap) 1) as [ss|]; [|done]. cbn [mbind option_bind].
  destruct (u64_add (hs_seq hs) 1) as [q|]; [|done]. cbn [mbind option_bind]. intros [= <-] Hbug Hid.
  split; [|done]. split; simpl; try done; apply recover_hard_state_fits.
Qed.

(** What a node does first, once its state is read back. *)
Definition first_steps : M W Raft unit := refresh_config ;; observe_state "recover" ;; reset_election_timer.
Lemma fair_first_steps r0 (e : Env W) :
  Inv r0 -> Ballot asked got r0 -> r_role r0 = Follower ->
  wp first_steps (fun _ r e' => Good r0 e r e' /\ Fair asked got r0 e r e' /\ r_role r = Follower) r0 e.
Proof.
  intros Hi Hb Hrole. apply wp_and.
  - apply wp_bind. eapply wp_mono; [apply keeps_refresh_config, Good_refl, Hi|].
    intros [] s1 e1 (-> & HG1 & _). apply wp_bind. unfold observe_state. apply wp_bind, wp_get.
    eapply wp_mono; [by apply keeps_observe|]. intros [] s2 e2 [-> HG2].
    eapply wp_mono; [by apply keeps_reset_election_timer|]. by intros [] s3 e3 (HG3 & _).
  - apply wp_bind. eapply wp_mono; [apply fair_refresh_config; [by apply Fair_refl|done]|].
    intros [] s1 e1 (-> & HF1 & m & i & n & x & ->). apply wp_bind. unfold observe_state.
    apply wp_bind, wp_get. eapply wp_mono; [by apply fair_observe|]. intros [] s2 e2 [-> HF2].
    eapply wp_mono; [by apply fair_reset_election_timer|]. intros [] s3 e3 (HF3 & V). split; [done|].
    unfold ballot_view in V. simpl in V. congruence.
Qed.

Lemma fair_recover {S} id members cfg seed (s : S) (e : Env W) :
  cfg_bug cfg = BugNone -> votable id ->
  wp (recover id members cfg seed) (fun r _ e' => exists r0, r_id r0 = id /\ r_role r = Follower /\
    r_durable_hard_state r0 = recover_hard_state (io_read_all (env_world e) FILE_WAL) /\
    written r0 = [r_durable_hard_state r0] /\ Inv r0 /\ Ballot asked got r0 /\
    Good r0 e r e' /\ Fair asked got r0 e r e') s e.
Proof.
  intros Hbug Hvt. unfold recover. apply wp_bind. unfold read_all at 1, wp at 1.
  apply wp_bind. unfold read_all at 1, wp at 1. apply wp_bind. unfold read_all at 1, wp at 1.
  apply wp_bind. apply wp_lift. intros r0 Hr0. apply wp_with_state.
  destruct (recover_state_ballot _ _ _ _ _ _ _ _ Hr0 Hbug Hvt) as (Hb & Hid & Hrole & Hd & Hw).
  destruct (recover_state_inv _ _ _ _ _ _ _ _ Hr0 Hbug) as [Hi _].
  eapply wp_mono; [by apply fair_first_steps|].
  intros [] r e' (HG & HF & Hr). exists r0. rewrite Hw, Hd. done.
Qed.

End Node.

(** ** The ledger of votes *)

(** [k v t c]: node [v] has cast its vote of term [t] for [c], for good. *)
Definition Ledger : Type := NodeId -> Z -> NodeId -> Prop.

Record ledger_ok (k : Ledger) : Prop := {
  lk_once : forall v t c c', k v t c -> k v t c' -> c = c';
  lk_range : forall v t c, k v t c -> votable v /\ is_u64 t;
}.

(** Who asked: a node that stands in a term votes for itself in it. *)
Definition asked_in (k : Ledger) (c : NodeId) (t : Z) : Prop := k c t c.
Definition got_in (k : Ledger) (me v : NodeId) (t : Z) : Prop := k v t me.

(** Every vote of [v] is still in the hard state. *)
Definition settled (k : Ledger) (v : NodeId) (hs : HardState) : Prop :=
  forall t c, k v t c -> vote_stays hs t c.

Record voter (k : Ledger) (v : NodeId) (s : Raft) : Prop := {
  vt_id : r_id s = v;
  vt_votable : votable v;
  vt_inv : Inv s;
  vt_ballot : Ballot (asked_in k) (got_in k v) s;
  vt_settled : settled k v (r_durable_hard_state s);
  vt_same : forall t c h c', k v t c -> h ∈ written s -> votes_for h t c' -> c' = c;
  vt_fits : forall h, h ∈ written s -> state_fits h;
}.

(** The ledger after an event: the votes [v] had written that its durable hard
    state now keeps or has moved past. *)
Definition entered (k : Ledger) (v : NodeId) (s s' : Raft) : Ledger := fun u t c =>
  k u t c \/ (u = v /\ backed s t c /\ vote_stays (r_durable_hard_state s') t c).

(** A majority of [members] voted for [c]. *)
Definition won (k : Ledger) (members : list NodeId) (t : Z) (c : NodeId) : Prop :=
  exists q : gset NodeId, (length members / 2 + 1 <= size q)%nat /\
    forall v, v ∈ q -> v ∈ members /\ k v t c.

(** What a payload on its way says is in the ledger. *)
Definition ballot_fact (k : Ledger) (from to : NodeId) (m : RaftMsg) : Prop :=
  match m with
  | RequestVote t c _ _ => c = from /\ k from t from
  | RequestVoteResp t true => k to t to /\ k from t to
  | _ => True
  end.
Definition payload_fact (k : Ledger) (from to : NodeId) (bytes : list byte) : Prop :=
  exists msg, bytes = message_encode msg /\
    match msg with MRaft m => ballot_fact k from to m | MClient _ => True end.

Definition ledger_le (k k' : Ledger) : Prop := forall v t c, k v t c -> k' v t c.
#[export] Instance ledger_le_preorder : PreOrder ledger_le.
Proof. split; [by intros k v t c|]. intros a b c Hab Hbc v t d Hk. by apply Hbc, Hab. Qed.

Lemma entered_le k v s s' : ledger_le k (entered k v s s').
Proof. intros u t c Hk. by left. Qed.

Lemma won_mono k k' members t c : ledger_le k k' -> won k members t c -> won k' members t c.
Proof. intros Hle (q & Hq & Hall). exists q. split; [done|]. intros v Hv. destruct (Hall v Hv). auto. Qed.
Lemma payload_fact_mono k k' from to bytes :
  ledger_le k k' -> payload_fact k from to bytes -> payload_fact k' from to bytes.
Proof.
  intros Hle (msg & -> & Hm). exists msg. split; [done|]. destruct msg as [m|]; [|done].
  destruct m as [|? []| | | | | | | |]; simpl in *; try done; destruct Hm; auto.
Qed.

Lemma Ballot_mono (asked asked' got got' : NodeId -> Z -> Prop) s :
  (forall c t, asked c t -> asked' c t) -> (forall v t, got v t -> got' v t) ->
  Ballot asked got s -> Ballot asked' got' s.
Proof.
  intros Ha Hg []. split; try done.
  - eapply Forall_impl; [exact bl_batches|]. intros b. unfold ballot_batch.
    destruct (b_action b) as [| ? ? []| | | | |]; try done. intros [? ?]. auto.
  - intros Hc v Hv. destruct (bl_votes Hc v Hv); auto.
Qed.

(** Another node's event. *)
Lemma voter_other k k' u s :
  ledger_le k k' -> (forall t c, k' u t c -> k u t c) -> voter k u s -> voter k' u s.
Proof.
  intros Hle Hback []. split; try done; unfold settled in *; eauto.
  eapply Ballot_mono; [| |exact vt_ballot0]; intros ? ?; apply Hle.
Qed.

(** Two votes of one term among the hard states of a node are the same vote. *)
Lemma chain_same_vote cur hss a b t c c' :
  chain cur hss -> a ∈ hss -> b ∈ hss -> votes_for a t c -> votes_for b t c' -> c = c'.
Proof.
  intros [_ _ Hle] Ha Hb [Hta Hva] [Htb Hvb].
  destruct (Z.le_ge_cases (hs_seq a) (hs_seq b)) as [Hs|Hs].
  - destruct (Hle a b Ha Hb Hs) as [?|[_ Hk]]; [lia|]. apply Hk in Hva. congruence.
  - destruct (Hle b a Hb Ha ltac:(lia)) as [?|[_ Hk]]; [lia|]. apply Hk in Hvb. congruence.
Qed.

(** An event extends the ledger: it stays a ledger, the node stays a voter, what it
    sent is in the ledger, and a new leader won its election. *)
Lemma voter_event {W} `{Io W} k v s s' (e e' : Env W) :
  ledger_ok k -> voter k v s -> Inv s' -> hs_le (r_durable_hard_state s) (r_durable_hard_state s') ->
  Fair (asked_in k) (got_in k v) s e s' e' ->
  let k' := entered k v s s' in
  ledger_ok k' /\ voter k' v s' /\
  (exists new, env_trace e' = env_trace e ++ new /\
     forall to bytes, EvSend to bytes ∈ new -> payload_fact k' v to bytes) /\
  (r_role s' = Leader -> (r_role s = Leader /\ r_term s' = r_term s) \/ won k' (r_members s') (r_term s') v).
Proof.
  intros [Honce Hrange] [Hid Hu32 Hi Hb Hset Hsame Hu64] Hi' Hdle [Hb' HF] k'.
  pose proof (inv_chain _ Hi) as Hch. pose proof (inv_chain _ Hi') as Hch'. destruct HF as [Fid Fseq _ _ Fw Fd Fel Ftr].
  assert (Hset' : settled k' v (r_durable_hard_state s')).
  { intros t c [Hk|(_ & _ & Hk)]; [|done]. eapply vote_stays_le; [exact Hdle|by apply Hset]. }
  split; [split|split; [split|split]].
  - intros u t c c' [Hk|(-> & (h & Hh & Hv) & _)] [Hk'|(Hu & (h' & Hh' & Hv') & _)].
    + by eapply Honce.
    + subst u. symmetry. by eapply Hsame.
    + by eapply Hsame.
    + exact (chain_same_vote _ _ _ _ _ _ _ Hch Hh Hh' Hv Hv').
  - intros u t c [Hk|(-> & (h & Hh & [<- _]) & _)]; [by eapply Hrange|]. split; [done|]. by apply Hu64.
  - congruence.
  - done.
  - done.
  - eapply Ballot_mono; [| |exact Hb']; intros ? ?; by left.
  - exact Hset'.
  - intros t c h c' Hk Hh Hv. destruct (Fw h Hh) as [Hold|[Hseq _]].
    + destruct Hk as [Hk|(_ & (h0 & Hh0 & Hv0) & _)]; [by eapply Hsame|].
      exact (chain_same_vote _ _ _ _ _ _ _ Hch Hold Hh0 Hv Hv0).
    + assert (Hle : hs_le (r_durable_hard_state s') h).
      { apply Hch'; [by left|done|]. destruct Hch as [Hq _ _]. rewrite Forall_forall in Hq.
        specialize (Hq _ Fd). simpl in Hq. lia. }
      eapply vote_stays_le in Hle; [|by apply Hset']. destruct Hv as [Ht Hv].
      destruct Hle as [?|[_ Hv']]; [lia|congruence].
  - intros h Hh. destruct (Fw h Hh) as [Hold|(_ & ? & _)]; auto.
  - destruct Ftr as (new & Hn & Hall). exists new. split; [done|]. intros to bytes Hin.
    rewrite Forall_forall in Hall. destruct (Hall _ Hin) as (msg & -> & Hm). exists msg. split; [done|].
    destruct msg as [m|]; [|done]. rewrite <- Hid.
    destruct m as [|? []| | | | | | | |]; simpl in *; try done.
    + destruct Hm as (-> & Hbk & Hk). split; [done|]. right. done.
    + destruct Hm as (Ha & Hbk & Hk). split; [by left|by right].
  - intros Hl. destruct (Fel Hl) as [?|[(q & Hq & Hall) Hbk]]; [by left|right].
    exists q. split; [done|]. intros u Hu. destruct (Hall u Hu) as [Hm Hg]. split; [done|].
    assert (Hself : k' v (r_term s') v).
    { right. split; [done|]. rewrite Fid, Hid in Hbk. split; [done|]. right.
      rewrite <- Hid, <- Fid. by apply Hb'. }
    destruct Hg as [->|Hg]; [by rewrite Fid, Hid|by left].
Qed.

(** What a payload says answers what the node asked. *)
Lemma payload_answers k from s bytes m :
  ledger_ok k -> voter k (r_id s) s -> payload_fact k from (r_id s) bytes ->
  message_decode bytes = Ok (MRaft m) -> answers (asked_in k) (got_in k (r_id s)) s from m.
Proof.
  intros [Honce Hrange] Hv (msg & -> & Hm) Hd. apply ballot_decoded in Hd as [Hu Hd].
  split; [done|]. destruct m as [t c i l|t []| | | | | | | |]; try done.
  - destruct Hd as (t0 & c0 & i0 & l0 & -> & Ht & Hc). destruct Hm as [-> Hk].
    destruct (Hrange _ _ _ Hk) as [[? ?] ?]. by rewrite Ht, Hc.
  - destruct Hd as (t0 & -> & Ht). destruct Hm as [Hk Hk']. destruct (Hrange _ _ _ Hk) as [_ ?].
    rewrite Ht by done. split; [done|]. by apply Hv.
Qed.

(** A node that restarts from a hard state its last durable one does not exceed. *)
Lemma voter_restart k v r0 :
  ledger_ok k -> votable v -> r_id r0 = v -> settled k v (r_durable_hard_state r0) ->
  written r0 = [r_durable_hard_state r0] -> state_fits (r_durable_hard_state r0) ->
  Inv r0 -> Ballot (asked_in k) (got_in k v) r0 -> voter k v r0.
Proof.
  intros Hk Hv Hid Hset Hw Hu Hi Hb. split; try done; rewrite Hw.
  - intros t c h c' Hkt ->%list_elem_of_singleton [Ht Hvt].
    destruct (Hset _ _ Hkt) as [?|[_ ?]]; [lia|congruence].
  - by intros h ->%list_elem_of_singleton.
Qed.

(** ** Any number of nodes *)

Section System.
Context {W : Type} `{Io W}.
(** The membership a fresh node starts with, and its settings. *)
Context (members : list NodeId) (cfg : RaftConfig).

Record System : Type := mkSystem {
  sy_node : NodeId -> option Raft;
  sy_disk : NodeId -> HardState;
  sy_sent : list (NodeId * NodeId * list byte);
  sy_won : list (NodeId * Z * list NodeId);
}.

(** Every node is down and its disk empty. *)
Definition system_new : System := mkSystem (fun _ => None) (fun _ => hard_state_default) [] [].

Definition sends_of (v : NodeId) (evs : list IoEvent) : list (NodeId * NodeId * list byte) :=
  omap (fun ev => match ev with EvSend to bytes => Some (v, to, bytes) | _ => None end) evs.

(** The election won by the event, if it made the node a leader. *)
Definition elections_of (v : NodeId) (s s' : Raft) : list (NodeId * Z * list NodeId) :=
  if is_leader s' && negb (is_leader s && (r_term s' =? r_term s)) then [(v, r_term s', r_members s')] else [].

(** A message that arrives is one that was sent, at any time, and may arrive again. *)
Definition arrives (y : System) (v : NodeId) (ev : node_event) : Prop :=
  match ev with
  | NodeMessage from msg => exists bytes, (from, v, bytes) ∈ sy_sent y /\ message_decode bytes = Ok (MRaft msg)
  | _ => True
  end.

(** [v] goes from running [old], or nothing, to [new], having asked for [evs]. *)
Definition system_set (y : System) (v : NodeId) (node : option Raft) (hs : HardState) (evs : list IoEvent)
    (wins : list (NodeId * Z * list NodeId)) : System :=
  mkSystem (fun u => if u =? v then node else sy_node y u) (fun u => if u =? v then hs else sy_disk y u)
    (sy_sent y ++ sends_of v evs) (sy_won y ++ wins).

Inductive system_step (y : System) : System -> Prop :=
| step_event v ev s e s' e' new :
    sy_node y v = Some s -> arrives y v ev -> node_handle ev s e = Some (tt, s', e') ->
    env_trace e' = env_trace e ++ new ->
    system_step y (system_set y v (Some s') (r_durable_hard_state s') new (elections_of v s s'))
| step_crash v :
    system_step y (system_set y v None (sy_disk y v) [] [])
| step_restart v seed e s e' new :
    sy_node y v = None -> votable v ->
    hs_le (sy_disk y v) (recover_hard_state (io_read_all (env_world e) FILE_WAL)) ->
    recover v members cfg seed tt e = Some (s, tt, e') -> env_trace e' = env_trace e ++ new ->
    system_step y (system_set y v (Some s) (r_durable_hard_state s) new []).

(** ** The invariant of the system *)

Record system_ok (k : Ledger) (y : System) : Prop := {
  so_ledger : ledger_ok k;
  so_node : forall v s, sy_node y v = Some s -> voter k v s /\ r_durable_hard_state s = sy_disk y v;
  so_disk : forall v, settled k v (sy_disk y v);
  so_sent : forall from to bytes, (from, to, bytes) ∈ sy_sent y -> payload_fact k from to bytes;
  so_won : forall v t m, (v, t, m) ∈ sy_won y -> won k m t v;
  so_leader : forall v s, sy_node y v = Some s -> r_role s = Leader -> exists m, (v, r_term s, m) ∈ sy_won y;
}.

Lemma sends_of_elem v evs from to bytes :
  (from, to, bytes) ∈ sends_of v evs <-> from = v /\ EvSend to bytes ∈ evs.
Proof.
  unfold sends_of. rewrite list_elem_of_omap. split.
  - intros ([] & Hin & E); try done. by injection E as <- <- <-.
  - intros [-> Hin]. by exists (EvSend to bytes).
Qed.

(** What a node's event or start adds to the invariant. *)
Lemma system_ok_set k k' y v s hs new wins :
  system_ok k y -> ledger_ok k' -> ledger_le k k' -> (forall u t c, u <> v -> k' u t c -> k u t c) ->
  voter k' v s -> r_durable_hard_state s = hs ->
  (forall to bytes, EvSend to bytes ∈ new -> payload_fact k' v to bytes) ->
  (forall u t m, (u, t, m) ∈ wins -> won k' m t u) ->
  (r_role s = Leader -> exists m, (v, r_term s, m) ∈ sy_won y ++ wins) ->
  system_ok k' (system_set y v (Some s) hs new wins).
Proof.
  intros [] Hk' Hle Hback Hv Hhs Hsent Hwins Hl. split; simpl; [done|..].
  - intros u s1. destruct (Z.eqb_spec u v) as [->|Hne]; [by intros [= <-]|]. intros Hs1.
    destruct (so_node0 u s1 Hs1) as [Hu Hd]. split; [|done]. eapply voter_other; [done|by eauto|done].
  - intros u. destruct (Z.eqb_spec u v) as [->|Hne]; [rewrite <- Hhs; by apply Hv|].
    intros t c Hk. eapply so_disk0. eauto.
  - intros from to bytes [Hin|[-> Hin]%sends_of_elem]%elem_of_app; [|by apply Hsent].
    eapply payload_fact_mono; eauto.
  - intros u t m [Hin|Hin]%elem_of_app; [|by apply Hwins]. eapply won_mono; eauto.
  - intros u s1. destruct (Z.eqb_spec u v) as [->|Hne]; [by intros [= <-]|]. intros Hs1 Hr.
    destruct (so_leader0 u s1 Hs1 Hr) as [m Hm]. exists m. apply elem_of_app. by left.
Qed.

Lemma system_ok_new : system_ok (fun _ _ _ => False) system_new.
Proof.
  split; simpl.
  - split; [by intros ? ? ? ? ?|by intros ? ? ?].
  - done.
  - by intros ? ? ?.
  - by intros ? ? ? ?%elem_of_nil.
  - by intros ? ? ? ?%elem_of_nil.
  - done.
Qed.

Lemma system_ok_step k y y' :
  cfg_bug cfg = BugNone -> system_ok k y -> system_step y y' -> exists k', ledger_le k k' /\ system_ok k' y'.
Proof.
  intros Hbug Hy Hstep. destruct Hstep as [v ev s e s' e' new Hs Harr Hrun Hnew|v|v seed e s e' new Hs Hu Hle Hrun Hnew].
  - destruct (so_node _ _ Hy v s Hs) as [Hv Hd].
    assert (Ha : event_answers (asked_in k) (got_in k v) s ev).
    { destruct ev as [from msg| | | | | | | | | | |]; try done. destruct Harr as (bytes & Hin & Hdec).
      assert (Hid : r_id s = v) by apply Hv. rewrite <- Hid in *.
      eapply payload_answers; [apply Hy|done|by eapply so_sent|done]. }
    assert (HGF : Good s e s' e' /\ Fair (asked_in k) (got_in k v) s e s' e').
    { refine (wp_Some _ _ _ _ _ _ _ (fair_node_handle _ _ ev s e _ _ Ha) Hrun); apply Hv. }
    destruct HGF as [[Hi' HG] HF].
    destruct (voter_event k v s s' e e' (so_ledger _ _ Hy) Hv Hi' (f_durable_hs _ _ _ _ HG) HF)
      as (Hk' & Hv' & (new' & Hn' & Hsent) & Hlead).
    rewrite Hnew in Hn'. apply app_inv_head in Hn' as <-.
    exists (entered k v s s'). split; [apply entered_le|].
    eapply system_ok_set; [done|done|apply entered_le| |done|done|done|..].
    + intros u t c Hne [Hk|(? & _)]; done.
    + unfold elections_of. case_match eqn:E; [|by intros ? ? ? ?%elem_of_nil].
      intros u t m [= -> -> ->]%list_elem_of_singleton. apply andb_true_iff in E as [E1 E2].
      apply bool_decide_eq_true_1 in E1. destruct (Hlead E1) as [[Hold Ht]|?]; [|done].
      unfold is_leader in E2. rewrite Hold, Ht, Z.eqb_refl in E2. done.
    + intros Hl. unfold elections_of, is_leader. rewrite (bool_decide_true _ Hl). cbn [andb].
      destruct (bool_decide (r_role s = Leader) && (r_term s' =? r_term s)) eqn:E; simpl.
      * apply andb_true_iff in E as [E1 E2]. apply bool_decide_eq_true_1 in E1. apply Z.eqb_eq in E2.
        rewrite E2, app_nil_r. by eapply so_leader.
      * exists (r_members s'). apply elem_of_app. right. by apply list_elem_of_singleton.
  - exists k. split; [done|]. destruct Hy. split; simpl; rewrite ?app_nil_r; try done.
    + intros u s1. destruct (Z.eqb_spec u v); [done|]. auto.
    + intros u. destruct (Z.eqb_spec u v) as [->|]; auto.
    + intros u s1. destruct (Z.eqb_spec u v); [done|]. auto.
  - destruct (wp_Some _ _ _ _ _ _ _ (fair_recover (asked_in k) (got_in k v) v members cfg seed tt e Hbug Hu) Hrun)
      as (r0 & Hid & Hrole & Hd & Hw & Hi & Hb & [Hi' HG] & HF).
    assert (Hv0 : voter k v r0).
    { apply voter_restart; try done; [apply Hy| |]; rewrite Hd; [|apply recover_hard_state_fits].
      intros t c Hk. eapply vote_stays_le; [exact Hle|by eapply so_disk]. }
    destruct (voter_event k v r0 s e e' (so_ledger _ _ Hy) Hv0 Hi' (f_durable_hs _ _ _ _ HG) HF)
      as (Hk' & Hv' & (new' & Hn' & Hsent) & Hlead).
    rewrite Hnew in Hn'. apply app_inv_head in Hn' as <-.
    exists (entered k v r0 s). split; [apply entered_le|].
    eapply system_ok_set; [done|done|apply entered_le| |done|done|done|..].
    + intros u t c Hne [Hk|(? & _)]; done.
    + by intros ? ? ? ?%elem_of_nil.
    + intros Hl. congruence.
Qed.

Definition reachable (y : System) : Prop := rtc system_step system_new y.

Lemma reachable_ok y : cfg_bug cfg = BugNone -> reachable y -> exists k, system_ok k y.
Proof.
  intros Hbug. revert y. apply (rtc_ind_r (fun y => exists k, system_ok k y)); [eexists; apply system_ok_new|].
  intros y y' _ Hstep [k Hk]. destruct (system_ok_step k y y' Hbug Hk Hstep) as (k' & _ & Hk'). by exists k'.
Qed.

End System.

(** ** Majorities *)

(** Any majority of the one membership and any of the other share a node. *)
Definition majorities_meet (m m' : list NodeId) : Prop :=
  forall q q' : gset NodeId,
    (length m / 2 + 1 <= size q)%nat -> (forall v, v ∈ q -> v ∈ m) ->
    (length m' / 2 + 1 <= size q')%nat -> (forall v, v ∈ q' -> v ∈ m') ->
    exists v, v ∈ q /\ v ∈ q'.

Lemma size_list_to_set_le (l : list NodeId) : (size (list_to_set l : gset NodeId) <= length l)%nat.
Proof.
  induction l as [|a l IH]; [done|]. rewrite list_to_set_cons, size_union_alt, size_singleton. simpl length.
  assert (size (list_to_set l ∖ {[a]} : gset NodeId) <= size (list_to_set l : gset NodeId))%nat
    by (apply subseteq_size; set_solver). lia.
Qed.

Lemma same_members_meet m : majorities_meet m m.
Proof.
  intros q q' Hq Hin Hq' Hin'. destruct (decide (q ∩ q' = ∅)) as [He|He].
  - exfalso. assert (Hu : (size q + size q' <= size (list_to_set m : gset NodeId))%nat).
    { rewrite <- size_union by set_solver. apply subseteq_size. intros v [Hv|Hv]%elem_of_union;
        apply elem_of_list_to_set; auto. }
    pose proof (size_list_to_set_le m). pose proof (Nat.div_mod_eq (length m) 2).
    pose proof (Nat.mod_upper_bound (length m) 2 ltac:(lia)). lia.
  - apply set_choose_L in He as [v Hv]. exists v. set_solver.
Qed.

Lemma won_once k m m' t c c' :
  ledger_ok k -> won k m t c -> won k m' t c' -> majorities_meet m m' -> c = c'.
Proof.
  intros [Honce _] (q & Hq & Hall) (q' & Hq' & Hall') Hmeet.
  destruct (Hmeet q q' Hq ltac:(intros v Hv; by apply Hall) Hq' ltac:(intros v Hv; by apply Hall')) as (v & Hv & Hv').
  eapply Honce; [by apply Hall|by apply Hall'].
Qed.

(** ** Properties *)

(** C1. Election safety: in every reachable state of any number of nodes, over a
    network that loses, repeats, delays and reorders messages and with crashes at
    any moment, every leader won an election of its term, and two elections of
    one term whose memberships have no disjoint majorities were won by the same
    node.  A crash is assumed to leave the last durable hard state or a later one. *)
Theorem election_safety {W} `{Io W} members cfg (y : System) :
  cfg_bug cfg = BugNone -> reachable members cfg y ->
  (forall v s, sy_node y v = Some s -> r_role s = Leader -> exists m, (v, r_term s, m) ∈ sy_won y) /\
  (forall a b t m m', (a, t, m) ∈ sy_won y -> (b, t, m') ∈ sy_won y -> majorities_meet m m' -> a = b).
Proof.
  intros Hbug Hr. destruct (reachable_ok members cfg y Hbug Hr) as [k []]. split; [done|].
  intros a b t m m' Ha Hb. apply (won_once k m m' t); auto.
Qed.

(** ** Witnesses: three nodes elect one of them *)

Inductive script_step : Type :=
| DoStart (v : NodeId)
| DoEvent (v : NodeId) (ev : node_event)
| DoDeliver (i : nat)
| DoCrash (v : NodeId).

(** One step, against a world that numbers its operations from [n]. *)
Definition do_handle (n : Z) (y : System) (v : NodeId) (ev : node_event) : option System :=
  s ← sy_node y v;
  match @node_handle Z counter_io ev s (mkEnv n []) with
  | Some (_, s', e') => Some (system_set y v (Some s') (r_durable_hard_state s') (env_trace e') (elections_of v s s'))
  | None => None
  end.
Definition do_step (members : list NodeId) (cfg : RaftConfig) (n : Z) (y : System) (st : script_step) : option System :=
  match st with
  | DoStart v =>
      match sy_node y v with
      | Some _ => None
      | None =>
          if bool_decide (votable v /\ sy_disk y v = hard_state_default) then
            match @recover Z counter_io unit v members cfg 1 tt (mkEnv n []) with
            | Some (s, _, e') => Some (system_set y v (Some s) (r_durable_hard_state s) (env_trace e') [])
            | None => None
            end
          else None
      end
  | DoEvent v ev => match ev with NodeMessage _ _ => None | _ => do_handle n y v ev end
  | DoDeliver i =>
      '(from, v, bytes) ← sy_sent y !! i;
      match message_decode bytes with
      | Ok (MRaft msg) => do_handle n y v (NodeMessage from msg)
      | _ => None
      end
  | DoCrash v => Some (system_set y v None (sy_disk y v) [] [])
  end.
Fixpoint do_script (members : list NodeId) (cfg : RaftConfig) (n : Z) (y : System) (sts : list script_step) : option System :=
  match sts with
  | [] => Some y
  | st :: sts => y ← do_step members cfg n y st; do_script members cfg (n + 100) y sts
  end.

Abbreviation demo_reachable members cfg := (@reachable Z counter_io members cfg).

Lemma do_handle_step members cfg n y v ev y' :
  arrives y v ev -> do_handle n y v ev = Some y' -> @system_step Z counter_io members cfg y y'.
Proof.
  intros Ha. unfold do_handle. destruct (sy_node y v) as [s|] eqn:Hs; [|done]. simpl.
  destruct (node_handle ev s _) as [[[[] s'] e']|] eqn:Hr; [|done]. intros [= <-].
  by eapply (@step_event Z counter_io _ _ y v ev s (mkEnv n []) s' e' (env_trace e')).
Qed.
Lemma do_step_step members cfg n y st y' :
  do_step members cfg n y st = Some y' -> @system_step Z counter_io members cfg y y'.
Proof.
  destruct st as [v|v ev|i|v]; simpl.
  - destruct (sy_node y v) eqn:Hn; [done|]. case_bool_decide as Hd; [|done]. destruct Hd as [Hu Hd].
    destruct (recover _ _ _ _ _ _) as [[[s []] e']|] eqn:Hr; [|done]. intros [= <-].
    eapply (@step_restart Z counter_io _ _ y v 1 (mkEnv n []) s e' (env_trace e')); try done.
    rewrite Hd. change (hs_le hard_state_default (recover_hard_state [])). done.
  - destruct ev; try done; by apply do_handle_step.
  - destruct (sy_sent y !! i) as [[[from v] bytes]|] eqn:Hi; [|done]. simpl.
    destruct (message_decode bytes) as [[msg|]|] eqn:Hd; try done. apply do_handle_step.
    exists bytes. split; [by eapply list_elem_of_lookup_2|done].
  - intros [= <-]. apply step_crash.
Qed.
Lemma do_script_reachable members cfg n y sts y' :
  demo_reachable members cfg y -> do_script members cfg n y sts = Some y' -> demo_reachable members cfg y'.
Proof.
  revert n y. induction sts as [|st sts IH]; intros n y Hy; simpl; [by intros [= <-]|].
  destruct (do_step members cfg n y st) as [y1|] eqn:E; [|done]. simpl. apply IH.
  eapply rtc_r; [exact Hy|by eapply do_step_step].
Qed.

(** Node 0 asks whether it may stand, stands, makes its own vote durable, asks for
    node 1's, and has won when that is durable and has arrived. *)
Definition demo_script : list script_step :=
  [DoStart 0; DoStart 1; DoEvent 0 (NodeTimer TIMER_ELECTION); DoDeliver 0; DoDeliver 2;
   DoEvent 0 (NodeStorage 401 true); DoEvent 0 (NodeStorage 501 true); DoDeliver 3;
   DoEvent 1 (NodeStorage 703 true); DoEvent 1 (NodeStorage 801 true); DoDeliver 5].
Definition won_are (won : list (NodeId * Z * list NodeId)) (o : option System) : bool :=
  if o is Some y then bool_decide (sy_won y = won) else false.

Lemma script_elects members cfg won sts :
  won_are won (do_script members cfg 1 system_new sts) = true ->
  exists y, demo_reachable members cfg y /\ sy_won y = won.
Proof.
  destruct (do_script members cfg 1 system_new sts) as [y|] eqn:E; [|done]. intros Hw%bool_decide_eq_true_1.
  exists y. split; [|done]. eapply do_script_reachable; [apply rtc_refl|exact E].
Qed.
Lemma demo_won : won_are [(0, 1, [0; 1; 2])] (do_script [0; 1; 2] raft_config_default 1 system_new demo_script) = true.
Proof. vm_compute. reflexivity. Qed.

Lemma election_safety_witness :
  exists y, demo_reachable [0; 1; 2] raft_config_default y /\ (0, 1, [0; 1; 2]) ∈ sy_won y /\
    forall b m, (b, 1, m) ∈ sy_won y -> majorities_meet [0; 1; 2] m -> 0 = b.
Proof.
  destruct (script_elects _ _ _ _ demo_won) as (y & Hr & Hw).
  assert (Hin : (0, 1, [0; 1; 2]) ∈ sy_won y) by (rewrite Hw; left).
  exists y. split; [exact Hr|]. split; [exact Hin|]. intros b m Hb.
  exact (proj2 (@election_safety Z counter_io [0; 1; 2] raft_config_default y eq_refl Hr) 0 b 1 [0; 1; 2] m Hin Hb).
Defined.
