(* ===== verification/RaftRules.v ===== *)
(** * RaftRules: the protocol's rules, one handler at a time

    Commitment by majority, membership changes that keep majorities
    overlapping, the follower's log after an append, and the durable claim.  The
    theorems speak of one handler's effect on one state; [RaftSafety] has those
    of whole runs. *)
From Stdlib Require Import String.
From S2P Require Import Prelude Codec Crc LogFormat RaftLog Recovery Durable Messages Config.
From S2P Require Import Io Rng Persister RaftState Raft RaftInv RaftRecover.
From Stdlib.Init Require Import Byte.

(** ** The k-th largest of a list *)

Lemma sorted_kth (l : list Z) (k : nat) (c i : Z) :
  StronglySorted descending l -> l !! k = Some c ->
  (k < length (filter (fun x => (i <= x)%Z) l))%nat <-> i <= c.
Proof.
  intros Hs. revert k c. induction Hs as [|x l Hs IH Hx]; intros k c Hk; [done|].
  rewrite filter_cons. rewrite Forall_forall in Hx. unfold descending in Hx.
  destruct k as [|k]; simpl in Hk.
  - injection Hk as ->. destruct (decide (i <= c)) as [Hi|Hi]; simpl; [split; [done|lia]|].
    split; [|done]. intros Hl. exfalso.
    destruct (filter (fun x => i <= x) l) as [|y f] eqn:Ef; [simpl in Hl; lia|].
    assert (Hy : y ∈ filter (fun x => i <= x) l) by (rewrite Ef; left).
    apply list_elem_of_filter in Hy as [Hiy Hy]. specialize (Hx y Hy). lia.
  - specialize (IH k c Hk). assert (c <= x) by (apply Hx; by eapply list_elem_of_lookup_2).
    destruct (decide (i <= x)) as [Hi|Hi]; simpl; [rewrite <- IH; lia|].
    split; [intros; apply IH|]; lia.
Qed.

#[export] Instance descending_total : Total descending.
Proof. intros a b. unfold descending. lia. Qed.
#[export] Instance descending_trans : Transitive descending.
Proof. intros a b c. unfold descending. lia. Qed.

(** The element at position [k] of the list sorted downwards is at least [i]
    exactly when more than [k] elements are. *)
Lemma kth_largest (l : list Z) (k : nat) (c i : Z) :
  merge_sort descending l !! k = Some c ->
  (k < length (filter (fun x => (i <= x)%Z) l))%nat <-> i <= c.
Proof.
  intros Hk. rewrite <- (sorted_kth _ _ _ i (StronglySorted_merge_sort descending l) Hk).
  assert (Hp : length (filter (fun x => i <= x) l)
               = length (filter (fun x => i <= x) (merge_sort descending l))).
  { apply Permutation_length, filter_Permutation. symmetry. apply merge_sort_Permutation. }
  by rewrite Hp.
Qed.

(** ** The log by index *)

Lemma terms_ascend_lookup es (i j : nat) a b :
  terms_ascend es = true -> (i <= j)%nat -> es !! i = Some a -> es !! j = Some b ->
  e_term a <= e_term b.
Proof.
  revert i j; induction es as [|x es IH]; intros i j Ht Hij Ha Hb; [done|].
  apply terms_ascend_cons in Ht as [Hx Ht]. rewrite Forall_forall in Hx.
  destruct i as [|i], j as [|j]; simpl in *; simplify_eq; [lia| |lia|].
  - apply Hx. by eapply list_elem_of_lookup_2.
  - eapply IH; [done| |done..]. lia.
Qed.

Lemma wf_get_terms l i j a b :
  log_wf l -> i <= j -> log_get l i = Some a -> log_get l j = Some b -> e_term a <= e_term b.
Proof.
  intros Hwf Hij. rewrite !(wf_get l Hwf). unfold log_first_index.
  do 2 (case_match; [done|]). bools. apply terms_ascend_lookup; [apply Hwf|lia].
Qed.

(** Within the entries held, the term at an index is the entry's. *)
Lemma term_at_get l i :
  0 <= l_snapshot_index l < i -> log_term_at l i = e_term <$> log_get l i.
Proof.
  intros Hi. unfold log_term_at, NO_INDEX.
  destruct (Z.eqb_spec i 0); [lia|]. destruct (Z.eqb_spec i (l_snapshot_index l)); [lia|done].
Qed.

(** ** Committing *)

(** The members of [s] known to hold everything through index [i]. *)
Definition holders (s : Raft) (i : Z) : list NodeId :=
  filter (fun m => i <= replicated s m) (r_members s).

Lemma quorum_pos s : (0 < quorum s)%nat.
Proof. unfold quorum. lia. Qed.

Lemma quorum_le s : r_members s <> [] -> (quorum s <= length (r_members s))%nat.
Proof.
  unfold quorum. destruct (r_members s) as [|m l]; [done|]. simpl length. intros _.
  pose proof (Nat.div_lt (S (length l)) 2). lia.
Qed.

Lemma length_filter_map {A} (f : A -> Z) (l : list A) i :
  length (filter (fun x => i <= x) (map f l)) = length (filter (fun m => i <= f m) l).
Proof.
  induction l as [|m l IH]; [done|]. simpl map. rewrite !filter_cons.
  repeat case_decide; simpl; rewrite ?IH; done.
Qed.

(** The candidate of [maybe_commit] is the highest index a majority holds. *)
Lemma candidate_spec s c i :
  merge_sort descending (map (replicated s) (r_members s)) !! (quorum s - 1)%nat = Some c ->
  (quorum s <= length (holders s i))%nat <-> i <= c.
Proof.
  intros Hc. rewrite <- (kth_largest _ _ _ i Hc). unfold holders.
  rewrite length_filter_map. pose proof (quorum_pos s). lia.
Qed.

Section Commit.
Context {W : Type} `{Io W}.

(** What [maybe_commit] leaves alone. *)
Definition commit_frame (s s' : Raft) : Prop :=
  r_term s' = r_term s /\ r_log s' = r_log s /\ r_members s' = r_members s /\
  r_match_index s' = r_match_index s /\ r_durable_index s' = r_durable_index s.

Lemma step_aside_spec s (e : Env W) :
  wp step_aside_if_removed (fun _ s' _ => commit_frame s s' /\
    r_commit_index s' = r_commit_index s) s e.
Proof.
  unfold step_aside_if_removed, disarm_heartbeat, deadline_disarm, observe, cancel_timer.
  repeat first [wp_step | apply wp_request; intros]; done.
Qed.

Lemma maybe_commit_spec s (e : Env W) :
  wp maybe_commit (fun _ s' _ => commit_frame s s' /\
    exists c, merge_sort descending (map (replicated s) (r_members s)) !! (quorum s - 1)%nat = Some c /\
      let own := bool_decide (log_term_at (r_log s) c = Some (r_term s))
                 || bool_decide (cfg_bug (r_cfg s) = CommitAnyTerm) in
      r_commit_index s' = (if (r_commit_index s <? c) && own then c else r_commit_index s)) s e.
Proof.
  unfold maybe_commit. wp_step. wp_step. wp_step. wp_step. cbv zeta.
  apply wp_when; intros Hw.
  - wp_step. wp_step. wp_step. eapply wp_mono; [apply step_aside_spec|].
    intros [] s1 e1 [Hf Hc]. unfold observe. apply wp_request. intros _ w _.
    split; [exact Hf|]. eexists. split; [eassumption|]. by rewrite Hw.
  - split; [done|]. eexists. split; [eassumption|]. by rewrite Hw.
Qed.

End Commit.

(** C14. A leader commits exactly what a majority holds, and only through an
    entry of its own term.  Whenever [maybe_commit] moves the commit index, it
    moves it up, to an entry of the leader's current term that a majority of
    the membership is known to hold durably; and it leaves no entry of the
    current term that a majority holds uncommitted. *)
Theorem maybe_commit_by_majority {W} `{Io W} (s s' : Raft) (e e' : Env W) :
  maybe_commit s e = Some (tt, s', e') ->
  cfg_bug (r_cfg s) = BugNone -> log_wf (r_log s) -> 0 <= l_snapshot_index (r_log s) ->
  l_snapshot_index (r_log s) <= r_commit_index s ->
  Forall (fun en => e_term en <= r_term s) (l_entries (r_log s)) ->
  Forall (fun m => replicated s m <= log_last_index (r_log s)) (r_members s) ->
  r_commit_index s <= r_commit_index s' /\
  (r_commit_index s' <> r_commit_index s ->
   log_term_at (r_log s) (r_commit_index s') = Some (r_term s) /\
   (quorum s <= length (holders s (r_commit_index s')))%nat) /\
  (forall i en, log_get (r_log s) i = Some en -> e_term en = r_term s ->
   (quorum s <= length (holders s i))%nat -> i <= r_commit_index s').
Proof.
  intros Hr Hbug Hwf Hsn Hsc Hterms Hrep.
  destruct (wp_Some _ _ _ _ _ _ _ (maybe_commit_spec s e) Hr) as (_ & c & Hc & Hcom).
  rewrite Hbug, (bool_decide_false (BugNone = _)), orb_false_r in Hcom by done. cbv zeta in Hcom.
  rewrite Hcom. split_and?.
  - case_match; bools; lia.
  - case_match; bools; [|done]. intros _. split; [done|]. by apply (candidate_spec s c c).
  - intros i en Hget Hen Hq. apply (candidate_spec s c i Hc) in Hq.
    destruct (Z.ltb_spec (r_commit_index s) c) as [Hlt|]; simpl; [|lia].
    assert (Hown : log_term_at (r_log s) c = Some (r_term s)).
    { assert (Hlast : c <= log_last_index (r_log s)).
      { apply list_elem_of_lookup_2 in Hc. rewrite merge_sort_Permutation in Hc.
        apply list_elem_of_fmap in Hc as (m & -> & Hm). rewrite Forall_forall in Hrep. auto. }
      destruct (proj2 (wf_get_is_Some _ Hwf c)) as [ec Hec]; [lia|].
      rewrite term_at_get, Hec by lia. simpl. f_equal.
      pose proof (wf_get_terms _ _ _ _ _ Hwf Hq Hget Hec). rewrite Forall_forall in Hterms.
      assert (e_term ec <= r_term s)
        by (apply Hterms, list_elem_of_In; by eapply wf_get_In). lia. }
    by rewrite bool_decide_true.
Qed.

(** ** The durable claim *)

(** [d'] extends the claim [d] as far as the confirmed ranges and [cap] allow. *)
Record claimed (cap : Z) (parked : list (Z * Z)) (d d' : Z) : Prop := {
  claimed_bounds : d <= d' <= Z.max d cap;
  claimed_covered : forall i, d < i <= d' -> exists q, q ∈ parked /\ q.1 <= i <= q.2;
  claimed_maximal : forall q, q ∈ parked -> q.1 <= d' + 1 -> q.1 <= cap -> Z.min q.2 cap <= d';
}.

Lemma take_claimable_Some d cap parked to rest :
  take_claimable d cap parked = Some (to, rest) ->
  exists from, parked ≡ₚ (from, to) :: rest /\ from <= d + 1 /\ d < to /\ from <= cap.
Proof.
  revert rest; induction parked as [|[f t] parked IH]; intros rest; simpl; [done|].
  case_match eqn:Hc.
  - bools. intros [= -> ->]. by exists f.
  - destruct (take_claimable d cap parked) as [[to' rest']|]; [|done]. intros [= -> <-].
    destruct (IH rest' eq_refl) as (from & Hp & ?). exists from. split; [|done].
    rewrite Hp. apply Permutation_swap.
Qed.

Lemma take_claimable_None d cap parked q :
  take_claimable d cap parked = None -> q ∈ parked -> q.1 <= d + 1 -> q.1 <= cap -> q.2 <= d.
Proof.
  induction parked as [|[f t] parked IH]; simpl; intros Hn Hq; [by apply elem_of_nil in Hq|].
  case_match eqn:Hc; [done|]. destruct (take_claimable d cap parked) as [[]|]; [done|].
  apply elem_of_cons in Hq as [->|Hq]; [simpl; intros; bools; lia|auto].
Qed.

Lemma elem_of_above d parked (q : Z * Z) :
  q ∈ List.filter (fun q => d <? q.2) parked <-> q ∈ parked /\ d < q.2.
Proof. rewrite !list_elem_of_In, filter_In, Z.ltb_lt. done. Qed.

Section Claim.
Context {W : Type} `{Io W}.

(** Turns [advance_loop] needs at most. *)
Definition claim_turns (cap : Z) (s : Raft) : nat :=
  if r_durable_index s <? cap then S (S (length (r_parked s))) else 1.

(** One turn: the claim stands, or a smaller problem is left. *)
Lemma advance_loop_turn fuel cap s (e : Env W) :
  let above := List.filter (fun q => r_durable_index s <? q.2) (r_parked s) in
  match take_claimable (r_durable_index s) cap above with
  | Some (to, rest) =>
      r_durable_index s < Z.min to cap -> exists s1 e1,
        advance_loop (S fuel) cap s e = advance_loop fuel cap s1 e1 /\
        r_durable_index s1 = Z.min to cap /\
        r_parked s1 = (if Z.min to cap =? to then rest else above)
  | None => True
  end /\
  (match take_claimable (r_durable_index s) cap above with
   | Some (to, _) => Z.min to cap <= r_durable_index s | None => True end ->
   exists s1, advance_loop (S fuel) cap s e = Some (tt, s1, e) /\
     r_durable_index s1 = r_durable_index s).
Proof.
  cbv zeta. simpl advance_loop. unfold mbind, M_bind, get, modify, when, observe, request.
  destruct (take_claimable _ _ _) as [[to rest]|] eqn:Et; cbv beta iota.
  - split.
    + intros Hlt. destruct (Z.leb_spec (Z.min to cap) (r_durable_index s)); [lia|].
      destruct (Z.min to cap =? to); eexists _, _; (split; [reflexivity|done]).
    + intros Hle. destruct (Z.leb_spec (Z.min to cap) (r_durable_index s)); [|lia].
      eexists. split; [reflexivity|done].
  - split; [done|]. intros _. eexists. split; [reflexivity|done].
Qed.

(** A claim made in one turn and extended by the rest. *)
Lemma claimed_step d cap parked from to rest d' :
  let above := List.filter (fun q => d <? q.2) parked in
  above ≡ₚ (from, to) :: rest -> from <= d + 1 -> d < Z.min to cap ->
  claimed cap (if Z.min to cap =? to then rest else above) (Z.min to cap) d' ->
  claimed cap parked d d'.
Proof.
  intros above Hp Hf Hlt [Hb Hc Hm].
  assert (Hsub : forall q, q ∈ (if Z.min to cap =? to then rest else above) ->
    q ∈ parked /\ d < q.2).
  { intros q Hq. apply elem_of_above. fold above. case_match; [|done].
    rewrite Hp. by right. }
  assert (Hft : (from, to) ∈ parked) by (apply (elem_of_above d); fold above; rewrite Hp; left).
  split; [lia|..].
  - intros i Hi. destruct (Z.le_gt_cases i (Z.min to cap)).
    + exists (from, to). split; [done|simpl; lia].
    + destruct (Hc i) as (q & Hq & ?); [lia|]. exists q. by destruct (Hsub q Hq).
  - intros q Hq H1 H2. destruct (Z.le_gt_cases q.2 d); [lia|].
    assert (Ha : q ∈ above) by by apply elem_of_above.
    destruct (Z.eqb_spec (Z.min to cap) to) as [Heq|]; [|auto].
    rewrite Hp in Ha. apply elem_of_cons in Ha as [->|Ha]; [simpl; lia|auto].
Qed.

Lemma claimed_stop d cap parked :
  match take_claimable d cap (List.filter (fun q => d <? q.2) parked) with
  | Some (to, _) => Z.min to cap <= d | None => True end ->
  claimed cap parked d d.
Proof.
  intros Ht. split; [lia|lia|]. intros q Hq H1 H2.
  destruct (Z.le_gt_cases q.2 d); [lia|].
  assert (Ha : q ∈ List.filter (fun q => d <? q.2) parked) by by apply elem_of_above.
  destruct (take_claimable _ _ _) as [[to rest]|] eqn:Et.
  - apply take_claimable_Some in Et as (from & _ & _ & ? & _). lia.
  - pose proof (take_claimable_None _ _ _ _ Et Ha H1 H2). lia.
Qed.

Lemma advance_loop_total fuel cap s (e : Env W) :
  (claim_turns cap s <= fuel)%nat ->
  exists s' e', advance_loop fuel cap s e = Some (tt, s', e') /\
    claimed cap (r_parked s) (r_durable_index s) (r_durable_index s').
Proof.
  revert s e; induction fuel as [|fuel IH]; intros s e Hfuel.
  { unfold claim_turns in Hfuel. case_match; lia. }
  destruct (advance_loop_turn fuel cap s e) as [Hgo Hstop].
  assert (Hend : match take_claimable (r_durable_index s) cap
      (List.filter (fun q => r_durable_index s <? q.2) (r_parked s)) with
    | Some (to, _) => Z.min to cap <= r_durable_index s | None => True end ->
    exists s' e', advance_loop (S fuel) cap s e = Some (tt, s', e') /\
      claimed cap (r_parked s) (r_durable_index s) (r_durable_index s')).
  { intros Hc. destruct (Hstop Hc) as (s1 & Hs1 & Hd1). exists s1, e.
    split; [done|]. rewrite Hd1. by apply claimed_stop. }
  destruct (take_claimable _ _ _) as [[to rest]|] eqn:Et; [|by apply Hend].
  destruct (Z.lt_ge_cases (r_durable_index s) (Z.min to cap)) as [Hlt|]; [|by apply Hend].
  destruct (Hgo Hlt) as (s1 & e1 & -> & Hd1 & Hp1).
  apply take_claimable_Some in Et as (from & Hp & Hf & _ & _).
  destruct (IH s1 e1) as (s' & e' & He & Hc).
  - pose proof (Permutation_length Hp) as Hl. simpl in Hl.
    pose proof (List.filter_length_le (fun q => r_durable_index s <? q.2) (r_parked s)).
    unfold claim_turns in *. rewrite Hd1, Hp1.
    destruct (Z.ltb_spec (r_durable_index s) cap); [|lia].
    destruct (Z.ltb_spec (Z.min to cap) cap); [|lia].
    rewrite (proj2 (Z.eqb_eq (Z.min to cap) to)) by lia. lia.
  - exists s', e'. split; [done|]. rewrite Hd1, Hp1 in Hc. by eapply claimed_step.
Qed.

(** Extending the durable claim always ends, and claims exactly what has
    been confirmed.  [advance_durable] returns for every state; the durable
    index never moves back nor past the last entry whose term is durable; every
    index newly claimed lies in a range confirmed on disk; and no confirmed
    range adjacent to the claim is left unclaimed. *)
Theorem advance_durable_exact (s : Raft) (e : Env W) :
  let cap := log_last_index_with_term_at_most (r_log s) (r_durable_term s) in
  exists s' e', advance_durable s e = Some (tt, s', e') /\
    claimed cap (r_parked s) (r_durable_index s) (r_durable_index s').
Proof.
  cbv zeta. unfold advance_durable. set (cap := log_last_index_with_term_at_most _ _).
  destruct (advance_loop_total (S (S (length (r_parked s)))) cap s e) as (s1 & e1 & He & Hc).
  { unfold claim_turns. case_match; lia. }
  unfold mbind, M_bind, get, when. fold cap. rewrite He. cbv beta iota.
  destruct (4096 <? length (r_parked s1))%nat; eexists _, _; (split; [reflexivity|done]).
Qed.

End Claim.

(** ** Membership changes *)

(** Majorities of two configurations that differ by one server share a member. *)
Lemma majorities_overlap (A B Q Q' : gset NodeId) :
  (size (B ∖ A) + size (A ∖ B) = 1)%nat -> Q ⊆ A -> Q' ⊆ B ->
  (size A / 2 + 1 <= size Q)%nat -> (size B / 2 + 1 <= size Q')%nat ->
  exists m, m ∈ Q /\ m ∈ Q'.
Proof.
  intros Hd HA HB HQ HQ'. destruct (decide (Q ∩ Q' = ∅)) as [He|He].
  - exfalso. assert (Hu : (size Q + size Q' <= size (A ∪ B))%nat).
    { rewrite <- size_union by set_solver. apply subseteq_size. set_solver. }
    rewrite size_union_alt in Hu. pose proof (size_union_alt B A) as Hba.
    rewrite (union_comm_L B A), size_union_alt in Hba.
    pose proof (Nat.div_mod_eq (size A) 2). pose proof (Nat.div_mod_eq (size B) 2).
    pose proof (Nat.mod_upper_bound (size A) 2 ltac:(lia)).
    pose proof (Nat.mod_upper_bound (size B) 2 ltac:(lia)). lia.
  - apply set_choose_L in He as [m Hm]. exists m. set_solver.
Qed.

Lemma length_filter_not_in (l k : list NodeId) :
  NoDup l -> length (filter (fun m => m ∉ k) l)
    = size ((list_to_set l : gset NodeId) ∖ list_to_set k).
Proof.
  intros Hl. rewrite <- (size_list_to_set (C := gset NodeId)) by by apply NoDup_filter.
  f_equal. apply set_eq. intros m. rewrite elem_of_difference, !elem_of_list_to_set.
  rewrite list_elem_of_filter. tauto.
Qed.

Lemma elem_of_dedup_sorted m l : m ∈ dedup_sorted l <-> m ∈ l.
Proof.
  induction l as [|a l IH]; [done|]. rewrite elem_of_cons, <- IH.
  change (dedup_sorted (a :: l)) with
    (match dedup_sorted l with
     | x :: _ => if a =? x then dedup_sorted l else a :: dedup_sorted l | [] => [a] end).
  destruct (dedup_sorted l) as [|x d]; [set_solver|].
  destruct (Z.eqb_spec a x) as [->|]; set_solver.
Qed.

Lemma dedup_sorted_NoDup l : StronglySorted Z.le l -> NoDup (dedup_sorted l).
Proof.
  intros Hs. assert (StronglySorted Z.lt (dedup_sorted l)) as Hlt.
  { induction Hs as [|a l Hs IH Ha]; [constructor|].
    change (dedup_sorted (a :: l)) with
      (match dedup_sorted l with
       | x :: _ => if a =? x then dedup_sorted l else a :: dedup_sorted l | [] => [a] end).
    assert (Hin : Forall (Z.le a) (dedup_sorted l)).
    { rewrite Forall_forall in *. intros m Hm. apply Ha. by apply elem_of_dedup_sorted. }
    destruct (dedup_sorted l) as [|x d]; [repeat constructor|].
    destruct (Z.eqb_spec a x) as [->|Hne]; [done|]. constructor; [done|].
    inversion_clear IH as [|? ? _ Hx]. apply Forall_cons in Hin as [Hax _].
    constructor; [lia|]. eapply Forall_impl; [exact Hx|]. simpl. lia. }
  clear Hs. induction Hlt as [|a d Hd IH Ha]; constructor; [|done].
  rewrite Forall_forall in Ha. intros Hin. specialize (Ha a Hin). lia.
Qed.

(** What requests to the world, timers and bookkeeping leave alone. *)
Definition core_same (s s' : Raft) : Prop :=
  r_id s' = r_id s /\ r_members s' = r_members s /\ r_config_index s' = r_config_index s /\
  r_log s' = r_log s /\ r_term s' = r_term s /\ r_role s' = r_role s /\
  r_commit_index s' = r_commit_index s.

#[export] Instance core_same_preorder : PreOrder core_same.
Proof.
  split; [done|]. unfold core_same. intros a b c. intuition congruence.
Qed.

(** Symbolic execution of code made of requests and bookkeeping only. *)
Ltac frame_go :=
  repeat first
    [ wp_step
    | lazymatch goal with
      | |- wp (request _ _) _ _ _ => apply wp_request; intros ? ? _
      | |- wp now _ _ _ => apply wp_now
      end ].

(** The same, for handlers whose plumbing is still folded. *)
Ltac frame_all :=
  unfold persisting, bump, bump_by, start_batch, write_at, set_len, send, send_bytes, observe,
    disarm_heartbeat, reset_election_timer, deadline_reset, deadline_disarm, cancel_timer,
    set_timer;
  frame_go; done.

Section CoreFrame.
Context {W : Type} `{Io W}.

Lemma send_core to m s (e : Env W) : wp (send to m) (fun _ s' _ => core_same s s') s e.
Proof. unfold send, send_bytes. frame_go; done. Qed.

Lemma start_batch_core a s (e : Env W) : wp (start_batch a) (fun _ s' _ => core_same s s') s e.
Proof. unfold start_batch. frame_go; done. Qed.

Lemma write_log_from_core b from tr s (e : Env W) :
  wp (write_log_from b from tr) (fun _ s' _ => core_same s s') s e.
Proof. unfold write_log_from, persisting, set_len, write_at. frame_go; done. Qed.

Lemma persist_log_from_core from tr rt t v s (e : Env W) :
  wp (persist_log_from from tr rt t v) (fun _ s' _ => core_same s s') s e.
Proof.
  unfold persist_log_from. do 3 wp_step. eapply wp_mono; [apply start_batch_core|].
  intros b s1 e1 H1. cbv beta. eapply wp_mono; [apply write_log_from_core|].
  intros [] s2 e2 H2. by transitivity s1.
Qed.

Lemma bump_core (f : RaftStats -> Z) `{!Setter f} s (e : Env W) :
  wp (bump f) (fun _ s' _ => core_same s s') s e.
Proof. unfold bump, bump_by. frame_go; done. Qed.

Lemma send_append_to_core to s (e : Env W) :
  wp (send_append_to to) (fun _ s' _ => core_same s s') s e.
Proof.
  unfold send_append_to, bump, bump_by. cbv zeta. frame_go; try done;
    (eapply wp_mono; [apply send_core|]; by intros [] s1 e1 H1).
Qed.

Lemma broadcast_append_core s (e : Env W) :
  wp broadcast_append (fun _ s' _ => core_same s s') s e.
Proof.
  unfold broadcast_append. do 2 wp_step.
  apply (wp_for_each _ _ (fun s1 _ => core_same s s1)); [done| |done].
  intros p s1 e1 _ H1. eapply wp_mono; [apply send_append_to_core|].
  intros [] s2 e2 H2. by transitivity s1.
Qed.

Lemma sync_peer_maps_core s (e : Env W) :
  wp sync_peer_maps (fun _ s' _ => core_same s s') s e.
Proof. unfold sync_peer_maps. frame_go; done. Qed.

Lemma wf_get_last l en :
  log_wf l -> last (l_entries l) = Some en -> log_get l (log_last_index l) = Some en.
Proof.
  intros Hwf Hl. assert (Hlen : (0 < length (l_entries l))%nat)
    by (destruct (l_entries l); [done|simpl; lia]).
  pose proof (wf_last_index _ Hwf) as Hli.
  rewrite (wf_get _ Hwf), (proj2 (Z.leb_gt _ _)) by lia. rewrite last_lookup in Hl.
  rewrite <- Hl. unfold log_first_index. f_equal. lia.
Qed.

(** A membership entry at the end of the log is in force at once. *)
Lemma config_at_new_entry s en ms :
  0 <= l_snapshot_index (r_log s) -> log_wf (r_log s) ->
  last (l_entries (r_log s)) = Some en -> command_members (e_cmd en) = Some ms ->
  config_at s (log_last_index (r_log s)) = (ms, log_last_index (r_log s)).
Proof.
  intros Hs Hwf Hl Hm. unfold config_at. rewrite Z.min_id.
  assert (Hlen : (0 < length (l_entries (r_log s)))%nat)
    by (destruct (l_entries (r_log s)); [done|simpl; lia]).
  pose proof (wf_last_index _ Hwf) as Hli. simpl config_search.
  unfold log_first_index.
  rewrite (proj2 (Z.leb_le _ _)), (proj2 (Z.ltb_lt _ _)) by lia. cbn [andb].
  rewrite (wf_get_last _ _ Hwf Hl). simpl. by rewrite Hm.
Qed.

Lemma refresh_config_new_entry s (e : Env W) en ms :
  0 <= l_snapshot_index (r_log s) -> log_wf (r_log s) ->
  last (l_entries (r_log s)) = Some en -> command_members (e_cmd en) = Some ms ->
  wp refresh_config (fun _ s' _ => r_members s' = ms /\
    r_config_index s' = log_last_index (r_log s) /\ r_log s' = r_log s) s e.
Proof.
  intros Hs Hwf Hl Hm. unfold refresh_config. do 2 wp_step.
  rewrite (config_at_new_entry s en ms) by done. do 2 wp_step. apply wp_when; intros _; [|done].
  eapply wp_mono; [apply sync_peer_maps_core|]. intros [] s1 e1 (_ & -> & -> & -> & _). done.
Qed.

End CoreFrame.

Section Membership.
Context {W : Type} `{Io W}.

(** A change that is accepted: the guards it passed and what it leaves. *)
Lemma propose_membership_spec members s (e : Env W) :
  log_wf (r_log s) -> 0 <= l_snapshot_index (r_log s) ->
  wp (propose_membership members) (fun res s' _ => forall index, res = Ok index ->
    let ms := dedup_sorted (merge_sort Z.le members) in
    r_role s = Leader /\ r_failed s = false /\ r_config_index s <= r_commit_index s /\
    (cfg_bug (r_cfg s) = BugNone ->
     log_term_at (r_log s) (r_commit_index s) = Some (r_term s)) /\
    (length (filter (fun m => m ∉ r_members s) ms)
     + length (filter (fun m => m ∉ ms) (r_members s)) = 1)%nat /\
    index = log_last_index (r_log s) + 1 /\
    r_members s' = ms /\ r_config_index s' = index /\
    log_get (r_log s') index
    = Some (mkEntry (r_term s) index (mkCommand CONFIG_CLIENT index (SetMembers ms)))) s e.
Proof.
  intros Hwf Hsn. unfold propose_membership. do 3 wp_step; [by wp_step|].
  wp_step; [by wp_step|]. wp_step; [by wp_step|]. cbv zeta.
  destruct (dedup_sorted (merge_sort Z.le members)) as [|m0 ms0] eqn:Ems; [by wp_step|].
  rewrite <- Ems. set (ms := dedup_sorted _) in *. clearbody ms. wp_step; [by wp_step|].
  wp_step. wp_step. wp_step. unfold push_entry. do 6 wp_step.
  match goal with E : log_append _ _ = Some ?l |- _ => rename E into Happ; rename l into l1 end.
  set (s1 := set_field r_log _ s). assert (Hs1 : r_log s1 = l1) by done.
  pose proof (log_append_wf _ _ _ Hwf Happ) as Hwf1.
  pose proof (log_append_facts _ _ _ Happ) as (Hi1 & _ & Hsn1 & _ & Hes1). simpl in Hi1.
  assert (Hl1 : last (l_entries (r_log s1)) = Some (mkEntry (r_term s)
    (log_last_index (r_log s) + 1) (mkCommand CONFIG_CLIENT (log_last_index (r_log s) + 1)
      (SetMembers ms)))) by by rewrite Hs1, Hes1, last_snoc.
  clearbody s1. unfold observe. apply wp_request. intros _ w _. wp_step.
  eapply wp_mono; [eapply (refresh_config_new_entry s1 _ _ ms);
    [rewrite Hs1, Hsn1; done|by rewrite Hs1|done|done]|].
  intros [] s2 e2 (Hm2 & Hc2 & Hlg2). wp_step.
  eapply wp_mono; [apply bump_core|]. intros [] s3 e3 (_ & Hm3 & Hc3 & Hl3 & _). wp_step.
  eapply wp_mono; [apply persist_log_from_core|]. intros [] s4 e4 (_ & Hm4 & Hc4 & Hl4 & _).
  wp_step. eapply wp_mono; [apply broadcast_append_core|].
  intros [] s5 e5 (_ & Hm5 & Hc5 & Hl5 & _). wp_step. intros index [= <-].
  unfold is_leader in *. bools. split_and?; try done; try congruence.
  - intros Hb. rewrite Hb in *. destruct (bool_decide (log_term_at _ _ = _)) eqn:Ed; [by bools|].
    by destruct (bool_decide_reflect (BugNone = ConfigBeforeTermCommit)).
  - by apply Nat.eqb_eq.
  - rewrite Hl5, Hl4, Hl3, Hlg2, <- Hi1, <- Hs1. apply wf_get_last; [by rewrite Hs1|].
    by rewrite Hs1, Hi1 in *.
Qed.

(** C16. A membership change that a leader accepts keeps majorities overlapping.
    It is accepted only from a leader that has committed an entry of its own
    term and has no other change pending; it becomes the entry after the last
    one and is in force at once; and any majority of the old membership and any
    majority of the new one have a member in common. *)
Theorem membership_change_keeps_majorities members index (s s' : Raft) (e e' : Env W) :
  propose_membership members s e = Some (Ok index, s', e') ->
  cfg_bug (r_cfg s) = BugNone -> log_wf (r_log s) -> 0 <= l_snapshot_index (r_log s) ->
  NoDup (r_members s) ->
  r_role s = Leader /\ r_config_index s <= r_commit_index s /\
  log_term_at (r_log s) (r_commit_index s) = Some (r_term s) /\
  index = log_last_index (r_log s) + 1 /\ r_config_index s' = index /\
  NoDup (r_members s') /\ (forall m, m ∈ r_members s' <-> m ∈ members) /\
  (exists en, log_get (r_log s') index = Some en /\ e_term en = r_term s /\
     command_members (e_cmd en) = Some (r_members s')) /\
  forall Q Q' : gset NodeId,
    (forall m, m ∈ Q -> m ∈ r_members s) -> (forall m, m ∈ Q' -> m ∈ r_members s') ->
    (quorum s <= size Q)%nat -> (quorum s' <= size Q')%nat -> exists m, m ∈ Q /\ m ∈ Q'.
Proof.
  intros Hr Hbug Hwf Hsn Hnd.
  destruct (wp_Some _ _ _ _ _ _ _ (propose_membership_spec members s e Hwf Hsn) Hr index eq_refl)
    as (Hlead & _ & Hci & Hown & Hone & Hi & Hm & Hc & Hget).
  assert (Hnd' : NoDup (r_members s'))
    by (rewrite Hm; apply dedup_sorted_NoDup, (StronglySorted_merge_sort Z.le)).
  split_and?; try done; [by apply Hown| |by rewrite Hm; eexists|].
  - intros m. rewrite Hm, elem_of_dedup_sorted. by rewrite merge_sort_Permutation.
  - intros Q Q' HQ HQ' Hq Hq'. rewrite <- Hm in Hone. unfold quorum in Hq, Hq'.
    rewrite !length_filter_not_in in Hone by done.
    apply (majorities_overlap (list_to_set (r_members s)) (list_to_set (r_members s')));
      rewrite ?size_list_to_set by done; [done|set_solver|set_solver|done|done].
Qed.

End Membership.

(** ** The follower's log after an append *)

Lemma find_new_None l idx i entries :
  find_new l idx i entries = None ->
  forall k en, entries !! k = Some en -> log_term_at l (idx + Z.of_nat k) = Some (e_term en).
Proof.
  revert idx i; induction entries as [|en entries IH]; intros idx i; simpl; [done|].
  destruct (log_term_at l idx) as [t|] eqn:Et; [|done].
  destruct (Z.eqb_spec t (e_term en)) as [->|]; [|done]. intros Hf [|k] x; simpl.
  - intros [= <-]. by rewrite Z.add_0_r.
  - intros Hk. rewrite <- (IH (idx + 1) (S i) Hf k x Hk). f_equal. lia.
Qed.

Lemma find_new_Some l idx i entries j c :
  find_new l idx i entries = Some (j, c) ->
  exists k en, j = (i + k)%nat /\ entries !! k = Some en /\
    (forall q x, (q < k)%nat -> entries !! q = Some x ->
     log_term_at l (idx + Z.of_nat q) = Some (e_term x)) /\
    (if c : bool then exists t, log_term_at l (idx + Z.of_nat k) = Some t /\ t <> e_term en
     else log_term_at l (idx + Z.of_nat k) = None).
Proof.
  revert idx i; induction entries as [|en entries IH]; intros idx i; simpl; [done|].
  destruct (log_term_at l idx) as [t|] eqn:Et.
  - destruct (Z.eqb_spec t (e_term en)) as [->|Hne].
    + intros Hf. destruct (IH _ _ Hf) as (k & x & -> & Hx & Hq & Hc).
      exists (S k), x. split; [lia|]. split; [done|]. split.
      * intros [|q] y Hlt; simpl; [intros [= <-]; by rewrite Z.add_0_r|].
        intros Hy. rewrite <- (Hq q y) by (lia || done). f_equal. lia.
      * replace (idx + Z.of_nat (S k)) with (idx + 1 + Z.of_nat k) by lia. done.
    + intros [= <- <-]. exists 0%nat, en. rewrite Z.add_0_r. split; [lia|].
      split; [done|]. split; [intros; lia|by exists t].
  - intros [= <- <-]. exists 0%nat, en. rewrite Z.add_0_r. split; [lia|].
    split; [done|]. split; [intros; lia|done].
Qed.

(** The log [append_matched] leaves: what is there, cut at the first conflict,
    and the entries from the first new one on. *)
Definition merged (l : RaftLog) (prev : Z) (entries : list Entry) : option RaftLog :=
  match find_new l (prev + 1) 0 entries with
  | None => Some l
  | Some (i, c) =>
      l1 ← (if c then log_truncate_from l (prev + 1 + Z.of_nat i) else Some l);
      log_append_all l1 (drop i entries)
  end.

Lemma append_all_get l es l' i :
  log_wf l -> log_append_all l es = Some l' ->
  log_get l' i = if i <=? log_last_index l then log_get l i
                 else es !! Z.to_nat (i - (log_last_index l + 1)).
Proof.
  intros Hwf E. pose proof (log_append_all_wf _ _ _ Hwf E) as Hwf'.
  apply log_append_all_facts in E as (He & Hs & _).
  rewrite (wf_get _ Hwf'), (wf_get _ Hwf), He, Hs, (wf_last_index _ Hwf).
  unfold log_first_index. rewrite Hs.
  destruct (Z.leb_spec i (l_snapshot_index l)), (Z.leb_spec i (l_snapshot_index l
    + Z.of_nat (length (l_entries l)))); try done; try lia.
  - rewrite lookup_app_l by lia. done.
  - rewrite lookup_app_r by lia. f_equal. lia.
Qed.

Lemma truncate_get l i l' j :
  log_wf l -> log_truncate_from l i = Some l' ->
  log_get l' j = if j <? i then log_get l j else None.
Proof.
  intros Hwf E. pose proof (log_truncate_wf _ _ _ Hwf E) as Hwf'.
  apply (log_truncate_facts _ _ _ Hwf) in E as (Hs & _ & _ & He).
  rewrite (wf_get _ Hwf'), (wf_get _ Hwf), He, Hs. unfold log_first_index. rewrite Hs.
  destruct (Z.leb_spec j (l_snapshot_index l)); [by case_match|].
  destruct (Z.ltb_spec j i); [rewrite lookup_take_lt by lia|rewrite lookup_take_ge by lia]; done.
Qed.

(** Cutting at position [i] and appending from there on. *)
Lemma merged_cut l prev entries i c l1 :
  log_wf l -> 0 <= l_snapshot_index l <= prev -> is_Some (log_term_at l prev) ->
  find_new l (prev + 1) 0 entries = Some (i, c) ->
  (if c then log_truncate_from l (prev + 1 + Z.of_nat i) else Some l) = Some l1 ->
  log_wf l1 /\ log_last_index l1 = prev + Z.of_nat i /\
  (forall j, j <= prev + Z.of_nat i -> log_get l1 j = log_get l j).
Proof.
  intros Hwf Hsn [tp Htp] Hf E. apply find_new_Some in Hf as (k & en & -> & Hk & Hq & Hc).
  change (0 + k)%nat with k in *.
  assert (Hlow : prev + Z.of_nat k <= log_last_index l).
  { destruct k as [|k]; [apply term_at_le_last in Htp; [lia|done|lia]|].
    destruct (lookup_lt_is_Some_2 entries k) as [x Hx].
    { apply lookup_lt_Some in Hk. lia. }
    specialize (Hq k x ltac:(lia) Hx). apply term_at_le_last in Hq; [lia|done|lia]. }
  destruct c.
  - destruct Hc as (t & Ht & _). apply term_at_le_last in Ht; [|done|lia].
    split; [by eapply log_truncate_wf|]. split.
    + apply (log_truncate_facts _ _ _ Hwf) in E as (_ & _ & -> & _). lia.
    + intros j Hj. rewrite (truncate_get _ _ _ _ Hwf E).
      by rewrite (proj2 (Z.ltb_lt _ _)) by lia.
  - injection E as <-. split_and?; try done. rewrite term_at_get in Hc by lia.
    destruct (log_get l (prev + 1 + Z.of_nat k)) eqn:Eg; [done|].
    destruct (Z.le_gt_cases (log_last_index l) (prev + Z.of_nat k)); [lia|].
    destruct (proj2 (wf_get_is_Some l Hwf (prev + 1 + Z.of_nat k))); [lia|congruence].
Qed.

(** What the merged log holds. *)
Record agrees (l l' : RaftLog) (prev : Z) (entries : list Entry) : Prop := {
  agrees_wf : log_wf l';
  agrees_snapshot : l_snapshot_index l' = l_snapshot_index l;
  agrees_prefix : forall i, i <= prev -> log_get l' i = log_get l i;
  agrees_entries : forall k en, entries !! k = Some en ->
    log_term_at l' (prev + 1 + Z.of_nat k) = Some (e_term en) /\
    (log_term_at l (prev + 1 + Z.of_nat k) <> Some (e_term en) ->
     log_get l' (prev + 1 + Z.of_nat k) = Some en);
  agrees_keeps :
    (forall k en t, entries !! k = Some en ->
     log_term_at l (prev + 1 + Z.of_nat k) = Some t -> t = e_term en) ->
    forall i en, log_get l i = Some en -> log_get l' i = Some en;
}.

Lemma merged_agrees l prev entries l' :
  log_wf l -> 0 <= l_snapshot_index l <= prev -> is_Some (log_term_at l prev) ->
  merged l prev entries = Some l' -> agrees l l' prev entries.
Proof.
  intros Hwf Hsn Hp. unfold merged.
  destruct (find_new l (prev + 1) 0 entries) as [[i c]|] eqn:Hf.
  2: { intros [= <-]. pose proof (find_new_None _ _ _ _ Hf) as Hn. split; try done.
       intros k en Hk. split; [by apply Hn|]. intros Hne. by destruct Hne; apply Hn. }
  destruct (if c then _ else _) as [l1|] eqn:El; [|done]. simpl. intros Ha.
  destruct (merged_cut _ _ _ _ _ _ Hwf Hsn Hp Hf El) as (Hwf1 & Hl1 & Hg1).
  apply find_new_Some in Hf as (k & en & -> & Hk & Hq & Hc). change (0 + k)%nat with k in *.
  pose proof (log_append_all_wf _ _ _ Hwf1 Ha) as Hwf'.
  assert (Hs : l_snapshot_index l' = l_snapshot_index l).
  { apply log_append_all_facts in Ha as (_ & -> & _). destruct c; [|by injection El as <-].
    by apply (log_truncate_facts _ _ _ Hwf) in El as (-> & _). }
  assert (Hlow : forall j, j <= prev + Z.of_nat k -> log_get l' j = log_get l j).
  { intros j Hj. rewrite (append_all_get _ _ _ _ Hwf1 Ha), Hl1.
    rewrite (proj2 (Z.leb_le _ _)) by lia. by apply Hg1. }
  assert (Hhigh : forall q x, (k <= q)%nat -> entries !! q = Some x ->
    log_get l' (prev + 1 + Z.of_nat q) = Some x).
  { intros q x Hkq Hx. rewrite (append_all_get _ _ _ _ Hwf1 Ha), Hl1.
    rewrite (proj2 (Z.leb_gt _ _)), lookup_drop by lia. rewrite <- Hx. f_equal. lia. }
  split; [done|done|intros; apply Hlow; lia|..].
  - intros q x Hx. rewrite (term_at_get l') by lia. destruct (decide (q < k)%nat) as [Hlt|Hge].
    + pose proof (Hq q x Hlt Hx) as Hold. split; [|by rewrite Hold].
      by rewrite Hlow, <- term_at_get by lia.
    + rewrite (Hhigh q x) by (lia || done). done.
  - intros Hnc j en' Hj. destruct c.
    { exfalso. destruct Hc as (t & Ht & Hne). by apply Hne, (Hnc k en t). }
    destruct (Z.le_gt_cases j (prev + Z.of_nat k)); [by rewrite Hlow by lia|].
    exfalso. injection El as ->. destruct (proj1 (wf_get_is_Some _ Hwf1 j)); [by eexists|lia].
Qed.

Section Follower.
Context {W : Type} `{Io W}.

Lemma push_entry_spec en s (e : Env W) :
  wp (push_entry en) (fun _ s' _ =>
    log_append (r_log s) en = Some (r_log s') /\ r_cfg s' = r_cfg s) s e.
Proof. unfold push_entry. repeat wp_step. by split. Qed.

Lemma push_entries_spec es s (e : Env W) :
  wp (for_each es push_entry) (fun _ s' _ =>
    log_append_all (r_log s) es = Some (r_log s') /\ r_cfg s' = r_cfg s) s e.
Proof.
  revert s e; induction es as [|en es IH]; intros s e; [by split|].
  simpl for_each. wp_step. eapply wp_mono; [apply push_entry_spec|]. intros [] s1 e1 [Ha Hc].
  eapply wp_mono; [apply IH|]. intros [] s2 e2 [Ha2 Hc2]. simpl. rewrite Ha. simpl.
  split; [exact Ha2|congruence].
Qed.

Lemma refresh_config_log s (e : Env W) :
  wp refresh_config (fun _ s' _ => r_log s' = r_log s /\ r_cfg s' = r_cfg s) s e.
Proof.
  eapply wp_mono; [apply refresh_config_frame|]. by intros [] s' e' (_ & m & i & n & x & ->).
Qed.

Lemma truncate_log at' s (e : Env W) :
  wp (truncate at') (fun _ s' _ =>
    log_truncate_from (r_log s) at' = Some (r_log s') /\ r_cfg s' = r_cfg s) s e.
Proof.
  unfold truncate. do 2 wp_step. wp_step.
  eapply (wp_mono _ (fun _ s' _ => r_log s' = r_log s /\ r_cfg s' = r_cfg s)).
  { unfold bump, bump_by. frame_go; done. }
  intros [] s1 e1 [Hl1 Hc1]. wp_step.
  eapply (wp_mono _ (fun _ s' _ => r_log s' = r_log s1 /\ r_cfg s' = r_cfg s1)).
  { unfold bump, bump_by. frame_go; done. }
  intros [] s2 e2 [Hl2 Hc2]. wp_step. unfold observe. apply wp_request. intros _ w _.
  repeat wp_step. eapply wp_mono; [apply refresh_config_log|]. intros [] s3 e3 [Hl3 Hc3].
  simpl in Hl3, Hc3. repeat wp_step. simpl. rewrite Hl3, Hc3. split; congruence.
Qed.

(** Handlers that leave the log and the settings as they are. *)
Definition log_same (s s' : Raft) : Prop := r_log s' = r_log s /\ r_cfg s' = r_cfg s.

Lemma log_same_trans s1 s2 s3 : log_same s1 s2 -> log_same s2 s3 -> log_same s1 s3.
Proof. unfold log_same. intuition congruence. Qed.

Lemma step_down_log term s (e : Env W) :
  wp (step_down term) (fun _ s' _ => log_same s s') s e.
Proof. unfold step_down. frame_all. Qed.

Lemma follow_leader_log leader s (e : Env W) :
  wp (follow_leader leader) (fun _ s' _ => log_same s s') s e.
Proof. unfold follow_leader. frame_all. Qed.

Lemma write_hard_state_log b s (e : Env W) :
  wp (write_hard_state b) (fun _ s' _ => log_same s s') s e.
Proof. unfold write_hard_state. cbv zeta. frame_all. Qed.

Lemma write_log_from_log b from tr s (e : Env W) :
  wp (write_log_from b from tr) (fun _ s' _ => log_same s s') s e.
Proof. unfold write_log_from. cbv zeta. frame_all. Qed.

Lemma send_log to m s (e : Env W) : wp (send to m) (fun _ s' _ => log_same s s') s e.
Proof. frame_all. Qed.

Lemma start_batch_log a s (e : Env W) : wp (start_batch a) (fun _ s' _ => log_same s s') s e.
Proof. frame_all. Qed.

Lemma adopt_commit_log lc last s (e : Env W) :
  wp (adopt_commit lc last) (fun _ s' _ => log_same s s') s e.
Proof. unfold adopt_commit. cbv zeta. frame_all. Qed.

(** Code whose every call leaves the log alone. *)
Ltac log_call :=
  eapply wp_mono;
    [lazymatch goal with
     | |- wp (step_down _) _ _ _ => apply step_down_log
     | |- wp (follow_leader _) _ _ _ => apply follow_leader_log
     | |- wp (write_hard_state _) _ _ _ => apply write_hard_state_log
     | |- wp (write_log_from _ _ _) _ _ _ => apply write_log_from_log
     | |- wp (send _ _) _ _ _ => apply send_log
     | |- wp (start_batch _) _ _ _ => apply start_batch_log
     | |- wp (adopt_commit _ _) _ _ _ => apply adopt_commit_log
     end
    |cbv beta; let a := fresh in let s' := fresh "s" in let e' := fresh "e" in
     let Hl := fresh "Hl" in let Hc := fresh "Hc" in intros a s' e' [Hl Hc]; try destruct a].
Ltac log_calls := repeat (wp_step || log_call); split; congruence.

Lemma persist_log_from_log from tr rt t v s (e : Env W) :
  wp (persist_log_from from tr rt t v) (fun _ s' _ => log_same s s') s e.
Proof. unfold persist_log_from. log_calls. Qed.

Lemma reply_or_defer_log dirty from m s (e : Env W) :
  wp (reply_or_defer dirty from m) (fun _ s' _ => log_same s s') s e.
Proof. unfold reply_or_defer. log_calls. Qed.

Lemma take_entries_log start (c : bool) new s (e : Env W) :
  wp (take_entries start c new) (fun _ s' _ => r_cfg s' = r_cfg s /\ exists l1,
    (if c then log_truncate_from (r_log s) start else Some (r_log s)) = Some l1 /\
    log_append_all l1 new = Some (r_log s')) s e.
Proof.
  unfold take_entries. wp_step.
  eapply (wp_mono _ (fun _ s' _ => r_cfg s' = r_cfg s /\
    (if c then log_truncate_from (r_log s) start else Some (r_log s)) = Some (r_log s'))).
  { apply wp_when; intros ->; [|by split].
    eapply wp_mono; [apply truncate_log|]. by intros [] s1 e1 []. }
  intros [] s1 e1 [Hc1 Hl1]. wp_step. eapply wp_mono; [apply push_entries_spec|].
  intros [] s2 e2 [Ha2 Hc2]. wp_step.
  eapply (wp_mono _ (fun _ s' _ => log_same s2 s')).
  { apply wp_when; intros _; [|by split]. apply refresh_config_log. }
  intros [] s3 e3 [Hl3 Hc3]. unfold bump_by. repeat wp_step. simpl. split; [congruence|].
  exists (r_log s1). split; [done|]. congruence.
Qed.

Lemma append_matched_log from prev last entries lc dirty s (e : Env W) :
  cfg_bug (r_cfg s) = BugNone ->
  wp (append_matched from prev last entries lc dirty) (fun _ s' _ =>
    merged (r_log s) prev entries = Some (r_log s')) s e.
Proof.
  intros Hbug. unfold append_matched. wp_step. wp_step. cbv zeta. wp_step.
  eapply (wp_mono _ (fun _ s' e' => s' = s)).
  { unfold truncate_blindly. wp_step. wp_step. rewrite Hbug.
    by rewrite bool_decide_false by done. }
  intros [] s1 e1 ->. wp_step. unfold merged.
  destruct (find_new (r_log s) (prev + 1) 0 entries) as [[i c]|].
  - wp_step. eapply wp_mono; [apply take_entries_log|].
    intros [] s2 e2 (Hc2 & l1 & Hl1 & Ha). rewrite Hl1. simpl. rewrite Ha. wp_step. wp_step.
    wp_step. eapply (wp_mono _ (fun _ s' _ => log_same s2 s')).
    { destruct dirty; [log_calls|apply persist_log_from_log]. }
    intros [] s3 e3 [Hl3 Hc3]. eapply (wp_mono _ (fun _ s' _ => log_same s2 s')).
    { apply wp_when; intros _; [|by split].
      eapply wp_mono; [apply send_log|]. intros [] s4 e4 [? ?]. split; congruence. }
    intros [] s4 e4 [Hl4 Hc4]. eapply wp_mono; [apply adopt_commit_log|].
    intros [] s5 e5 [Hl5 _]. by rewrite Hl5, Hl4.
  - do 2 wp_step. eapply (wp_mono _ (fun _ s' _ => log_same s s')).
    { destruct dirty; log_calls. }
    intros [] s3 e3 [Hl3 Hc3]. eapply wp_mono; [apply adopt_commit_log|].
    intros [] s5 e5 [Hl5 _]. by rewrite Hl5, Hl3.
Qed.

Lemma append_after_skip_log from prev pt last entries lc dirty s (e : Env W) :
  cfg_bug (r_cfg s) = BugNone ->
  wp (append_after_skip from prev pt last entries lc dirty) (fun _ s' _ =>
    if log_matches (r_log s) prev pt then merged (r_log s) prev entries = Some (r_log s')
    else r_log s' = r_log s) s e.
Proof.
  intros Hbug. unfold append_after_skip. do 2 wp_step.
  destruct (log_matches (r_log s) prev pt); cbn [negb]; [by apply append_matched_log|].
  do 2 wp_step. eapply wp_mono; [apply reply_or_defer_log|]. by intros [] s1 e1 [].
Qed.

(** Whether the append is taken: its term is current and it builds on an entry
    this node holds, the snapshot standing for all it covers. *)
Definition accepts (s : Raft) (term prev_index prev_term : Z) (entries : list Entry) : bool :=
  (r_term s <=? term) &&
  (if prev_index <? l_snapshot_index (r_log s)
   then (Z.to_nat (l_snapshot_index (r_log s) - prev_index) <? length entries)%nat
        && log_matches (r_log s) (l_snapshot_index (r_log s)) (l_snapshot_term (r_log s))
   else log_matches (r_log s) prev_index prev_term).

Lemma on_append_entries_log from term leader prev pt entries lc s (e : Env W) :
  cfg_bug (r_cfg s) = BugNone ->
  wp (on_append_entries from term leader prev pt entries lc) (fun _ s' _ =>
    let below := l_snapshot_index (r_log s) in
    if accepts s term prev pt entries
    then merged (r_log s) (Z.max prev below) (drop (Z.to_nat (below - prev)) entries)
         = Some (r_log s')
    else r_log s' = r_log s) s e.
Proof.
  intros Hbug. unfold on_append_entries, accepts. wp_step. wp_step.
  destruct (Z.ltb_spec term (r_term s)) as [Ht|Ht].
  { rewrite (proj2 (Z.leb_gt _ _)) by lia. simpl.
    eapply wp_mono; [apply send_log|]. by intros [] s1 e1 []. }
  rewrite (proj2 (Z.leb_le _ _)) by lia. cbn [andb]. cbv zeta. wp_step.
  eapply (wp_mono _ (fun _ s' _ => log_same s s')).
  { apply wp_when; intros _; [apply step_down_log|by split]. }
  intros [] s1 e1 [Hl1 Hc1]. wp_step. eapply wp_mono; [apply follow_leader_log|].
  intros [] s2 e2 [Hl2 Hc2]. do 4 wp_step.
  assert (Hl : r_log s2 = r_log s) by congruence.
  assert (Hc : cfg_bug (r_cfg s2) = BugNone) by congruence. rewrite Hl.
  destruct (Z.ltb_spec prev (l_snapshot_index (r_log s))) as [Hlt|Hge].
  - rewrite Z.max_r by lia.
    set (skip := Z.to_nat (l_snapshot_index (r_log s) - prev)).
    destruct (Nat.leb_spec (length entries) skip) as [Hs|Hs].
    + rewrite (proj2 (Nat.ltb_ge _ _)) by lia. cbn [andb].
      eapply wp_mono; [apply reply_or_defer_log|]. intros [] s3 e3 [Hl3 _]. congruence.
    + rewrite (proj2 (Nat.ltb_lt _ _)) by lia. cbn [andb].
      eapply wp_mono; [by apply append_after_skip_log|]. intros [] s3 e3. by rewrite Hl.
  - rewrite Z.max_l by lia. replace (Z.to_nat (l_snapshot_index (r_log s) - prev)) with 0%nat by lia.
    eapply wp_mono; [by apply append_after_skip_log|]. intros [] s3 e3. rewrite Hl.
    by rewrite drop_0.
Qed.

(** C15. After an append a follower's log is the leader's as far as the message
    goes, and loses nothing it need not lose.  A message whose term is current
    and which builds on an entry the node holds leaves a log that agrees in term
    with every entry of the message, holds exactly the entries that were missing
    or in conflict, is unchanged up to the previous entry, and keeps every entry
    it had unless one conflicts; any other append leaves the log as it was. *)
Theorem append_entries_agrees from term leader prev pt entries lc (s s' : Raft) (e e' : Env W) :
  on_append_entries from term leader prev pt entries lc s e = Some (tt, s', e') ->
  cfg_bug (r_cfg s) = BugNone -> log_wf (r_log s) -> 0 <= l_snapshot_index (r_log s) ->
  let below := l_snapshot_index (r_log s) in
  if accepts s term prev pt entries
  then agrees (r_log s) (r_log s') (Z.max prev below) (drop (Z.to_nat (below - prev)) entries)
  else r_log s' = r_log s.
Proof.
  intros Hr Hbug Hwf Hsn below.
  pose proof (wp_Some _ _ _ _ _ _ _
    (on_append_entries_log from term leader prev pt entries lc s e Hbug) Hr) as Hlog.
  cbv zeta in Hlog. fold below in Hlog. destruct (accepts s term prev pt entries) eqn:Ha; [|done].
  apply merged_agrees; [done|lia| |done]. unfold accepts in Ha. fold below in Ha.
  apply andb_true_iff in Ha as [_ Ha]. destruct (Z.ltb_spec prev below).
  - apply andb_true_iff in Ha as [_ Ha]. rewrite Z.max_r by lia.
    apply bool_decide_eq_true_1 in Ha. by eexists.
  - rewrite Z.max_l by lia. apply bool_decide_eq_true_1 in Ha. by eexists.
Qed.

End Follower.

(** ** ReadIndex *)

(** ** A node for examples: leader of term 1 among three, one entry *)

Definition demo_term_log : RaftLog :=
  mkRaftLog [demo_entry 1 1] [0%nat] (length (entry_to_record (demo_entry 1 1))) 0 0.

Definition demo_node : Raft := {|
  r_id := 0; r_members := [0; 1; 2]; r_cfg := raft_config_default; r_role := Leader;
  r_term := 1; r_voted_for := Some 0; r_log := demo_term_log;
  r_commit_index := 0; r_last_applied := 0; r_leader := Some 0;
  r_votes := {[0; 1]}; r_pre_votes := None;
  r_next_index := {[1 := 2; 2 := 1]}; r_match_index := {[1 := 1; 2 := 0]};
  r_durable_index := 1; r_parked := []; r_state_seq := 2; r_snapshot_seq := 1;
  r_pending_restore := None; r_snapshot_in_flight := false; r_durable_snapshot_file := None;
  r_snapshot_data := []; r_highest_snapshot := 0; r_initial_members := [0; 1; 2];
  r_snapshot_members := []; r_config_index := 0; r_last_leader_contact := 0; r_read_seq := 3;
  r_pending_reads := [mkPendingRead 7 1 3 false]; r_probe_acked := ∅; r_read_events := [];
  r_durable_term := 1; r_durable_hard_state := mkHardState 1 (Some 0) 1;
  r_persister := persister_default; r_election_timer := deadline_new;
  r_heartbeat_timer := deadline_new; r_rng := rng_new 1; r_failed := false;
  r_stats := raft_stats_default
|}.

Lemma demo_term_log_wf : log_wf demo_term_log.
Proof. split; [reflexivity|reflexivity|vm_compute; auto]. Qed.

(** Decide by computation whether a handler returns, and keep its result abstract. *)
Ltac run_demo E :=
  lazymatch goal with
  | |- context [?m = Some _] =>
      destruct m as [[[? ?s] ?e]|] eqn:E;
      [|exfalso;
        assert (Hb : (if m is Some _ then true else false) = true) by (vm_compute; reflexivity);
        rewrite E in Hb; discriminate Hb]
  end.

Lemma maybe_commit_by_majority_witness :
  exists s' e', @maybe_commit Z counter_io demo_node (mkEnv 0 []) = Some (tt, s', e') /\
    r_commit_index demo_node < r_commit_index s'.
Proof.
  run_demo E. destruct u. exists s, e. split; [reflexivity|].
  destruct (maybe_commit_by_majority demo_node s _ e E) as (_ & _ & Hall);
    [reflexivity|apply demo_term_log_wf|simpl; lia|simpl; lia|..].
  - repeat constructor. simpl. lia.
  - repeat constructor; vm_compute; discriminate.
  - specialize (Hall 1 (demo_entry 1 1)). simpl in Hall |- *.
    assert (1 <= r_commit_index s); [|lia]. apply Hall; [reflexivity|reflexivity|].
    apply Nat.leb_le. vm_compute. reflexivity.
Defined.

(** The same leader once its entry is committed. *)
Definition demo_committed : Raft := demo_node ⟨ r_commit_index := 1 ⟩.

Lemma membership_change_keeps_majorities_witness :
  exists index s' e',
    @propose_membership Z counter_io [2; 1; 0; 3] demo_committed (mkEnv 0 [])
    = Some (Ok index, s', e') /\ index = 2 /\ NoDup (r_members s').
Proof.
  destruct (propose_membership [2; 1; 0; 3] demo_committed (mkEnv 0 []))
    as [[[res s'] e']|] eqn:E.
  - destruct res as [index|err].
    + exists index, s', e'. split; [reflexivity|].
      destruct (membership_change_keeps_majorities [2; 1; 0; 3] index demo_committed s' _ e' E)
        as (_ & _ & _ & Hi & _ & Hnd & _);
        [reflexivity|apply demo_term_log_wf|simpl; lia| |].
      * apply (bool_decide_eq_true_1 (NoDup [0; 1; 2])). vm_compute. reflexivity.
      * split; [exact Hi|exact Hnd].
    + exfalso.
      assert (Hb : match @propose_membership Z counter_io [2; 1; 0; 3] demo_committed (mkEnv 0 [])
                   with Some (Ok _, _, _) => true | _ => false end = true)
        by (vm_compute; reflexivity).
      rewrite E in Hb. discriminate Hb.
  - exfalso.
    assert (Hb : match @propose_membership Z counter_io [2; 1; 0; 3] demo_committed (mkEnv 0 [])
                 with Some (Ok _, _, _) => true | _ => false end = true)
      by (vm_compute; reflexivity).
    rewrite E in Hb. discriminate Hb.
Defined.

(** A message of a later leader that replaces the entry at index 1. *)
Definition demo_append : list Entry := [demo_entry 2 1; demo_entry 2 2].

Lemma append_entries_agrees_witness :
  exists s' e',
    @on_append_entries Z counter_io 1 2 1 0 0 demo_append 0 demo_node (mkEnv 0 [])
    = Some (tt, s', e') /\ agrees demo_term_log (r_log s') 0 demo_append.
Proof.
  run_demo E. destruct u. exists s, e. split; [reflexivity|].
  pose proof (append_entries_agrees 1 2 1 0 0 demo_append 0 demo_node s _ e E eq_refl
    demo_term_log_wf ltac:(simpl; lia)) as Ha.
  cbv zeta in Ha. change (accepts demo_node 2 0 0 demo_append) with true in Ha. exact Ha.
Defined.
