(* ===== verification/Reads.v ===== *)
(** * Reads: which ReadIndex reads a node releases

    Only four operations touch the reads a node holds: [request_read] accepts
    one, [on_read_probe_resp] confirms some, and the two calls that take reads
    out.  Everything else leaves the reads alone and forgets the probe answers
    whenever it makes the node leader ([calm]).  Over a whole run, a read that is
    released was accepted under a leader that had committed in its own term and
    confirmed afterwards by a majority of the membership, save under one
    membership the source overlooks ([sole_stranger]). *)
From Stdlib Require Import String.
From S2P Require Import Prelude Codec Crc LogFormat RaftLog Recovery Durable Messages Config.
From S2P Require Import Io Rng Persister RaftState Raft RaftInv RaftRecover RaftSafety.
From Stdlib.Init Require Import Byte.

(** ** What most handlers leave alone *)

Record unread (s s' : Raft) : Prop := {
  ur_id : r_id s' = r_id s;
  ur_seq : r_read_seq s' = r_read_seq s;
  ur_pending : r_pending_reads s' = r_pending_reads s;
  ur_acked : r_role s' = Leader ->
    r_probe_acked s' = ∅ \/
    (r_probe_acked s' = r_probe_acked s /\ r_role s = Leader /\ r_term s' = r_term s);
}.

#[export] Instance unread_preorder : PreOrder unread.
Proof.
  split; [by split; auto|]. intros a b c [I1 S1 P1 A1] [I2 S2 P2 A2]. split; try congruence.
  intros Hc. destruct (A2 Hc) as [?|(Ha & Hb & Ht)]; [by left|].
  rewrite Ha, Ht. destruct (A1 Hb) as [?|(? & ? & ?)]; auto.
Qed.

Section Calm.
Context {W : Type} `{Io W}.

Definition calm {A} (m : M W Raft A) : Prop := forall s e a s' e', m s e = Some (a, s', e') -> unread s s'.

Lemma calm_bind {A B} (m : M W Raft A) (k : A -> M W Raft B) : calm m -> (forall a, calm (k a)) -> calm (m ≫= k).
Proof.
  intros Hm Hk s e b s' e'. unfold mbind, M_bind. destruct (m s e) as [[[a s1] e1]|] eqn:E; [|done].
  intros Ek. transitivity s1; [by eapply Hm|by eapply Hk].
Qed.
Lemma calm_still {A} (m : M W Raft A) : (forall s e a s' e', m s e = Some (a, s', e') -> s' = s) -> calm m.
Proof. intros Hm s e a s' e' E. by apply Hm in E as ->. Qed.
Lemma calm_ret {A} (a : A) : calm (mret (M := M W Raft) a).
Proof. apply calm_still. by intros ????? [= _ -> _]. Qed.
Lemma calm_get : calm (get (W := W) (S := Raft)).
Proof. apply calm_still. by intros ????? [= _ -> _]. Qed.
Lemma calm_lift {A} (o : option A) : calm (lift (W := W) (S := Raft) o).
Proof. apply calm_still. intros ?????. unfold lift. destruct o; [|done]. by intros [= _ -> _]. Qed.
Lemma calm_panic {A} : calm (panic (W := W) (S := Raft) (A := A)).
Proof. by intros ?????. Qed.
Lemma calm_request {A} (f : W -> A * W) ev : calm (request (S := Raft) f ev).
Proof. apply calm_still. intros ?????. unfold request. destruct (f _). by intros [= _ -> _]. Qed.
Lemma calm_now : calm (now (W := W) (S := Raft)).
Proof. apply calm_still. by intros ????? [= _ -> _]. Qed.
Lemma calm_modify f : (forall s, unread s (f s)) -> calm (modify (W := W) f).
Proof. intros Hf s e a s' e' [= _ <- _]. apply Hf. Qed.
Lemma calm_when b (m : M W Raft unit) : calm m -> calm (when b m).
Proof. intros Hm. destruct b; [done|apply calm_ret]. Qed.
Lemma calm_for_each {A} (l : list A) (f : A -> M W Raft unit) : (forall a, calm (f a)) -> calm (for_each l f).
Proof.
  intros Hf. induction l as [|a l IH]; [apply calm_ret|]. apply calm_bind; [apply Hf|]. by intros _.
Qed.
End Calm.

Create HintDb calm discriminated.
#[export] Hint Resolve calm_ret calm_get calm_lift calm_panic calm_request calm_now : calm.

(** Walk through a handler's code, unfolding what has no lemma of its own. *)
Ltac calm_step :=
  first
    [ solve [auto with calm]
    | simple apply calm_bind; [|intro]
    | simple apply calm_when
    | simple apply calm_for_each; intro
    | simple apply calm_modify; intro; solve [split; simpl; auto; discriminate]
    | match goal with
      | |- calm (match ?x with _ => _ end) => destruct x
      | |- calm (let '_ := ?x in _) => destruct x
      | |- calm ?m => let h := head_of m in progress unfold h
      end ].
Ltac calm_walk := intros; repeat (cbv beta zeta; calm_step).

Section Handlers.
Context {W : Type} `{Io W}.
Abbreviation calm := (calm (W := W)).

Lemma calm_send to msg : calm (send to msg).
Proof. calm_walk. Qed.
#[local] Hint Resolve calm_send : calm.
Lemma calm_reset_election : calm reset_election_timer.
Proof. calm_walk. Qed.
#[local] Hint Resolve calm_reset_election : calm.
Lemma calm_persist_log from truncated reply_to reply_term verified :
  calm (persist_log_from from truncated reply_to reply_term verified).
Proof. calm_walk. Qed.
#[local] Hint Resolve calm_persist_log : calm.
Lemma calm_send_append to : calm (send_append_to to).
Proof. calm_walk. Qed.
#[local] Hint Resolve calm_send_append : calm.
Lemma calm_refresh_config : calm refresh_config.
Proof. calm_walk. Qed.
#[local] Hint Resolve calm_refresh_config : calm.
Lemma calm_maybe_commit : calm maybe_commit.
Proof. calm_walk. Qed.
#[local] Hint Resolve calm_maybe_commit : calm.
Lemma calm_advance_loop fuel cap : calm (advance_loop fuel cap).
Proof. induction fuel; simpl; calm_walk. Qed.
#[local] Hint Resolve calm_advance_loop : calm.
Lemma calm_step_down term : calm (step_down term).
Proof. calm_walk. Qed.
#[local] Hint Resolve calm_step_down : calm.
Lemma calm_step_down_and_persist term : calm (step_down_and_persist term).
Proof. calm_walk. Qed.
#[local] Hint Resolve calm_step_down_and_persist : calm.
Lemma calm_reset_heartbeat : calm reset_heartbeat_timer.
Proof. calm_walk. Qed.
#[local] Hint Resolve calm_reset_heartbeat : calm.
Lemma calm_disarm_election : calm disarm_election.
Proof. calm_walk. Qed.
#[local] Hint Resolve calm_disarm_election : calm.

Lemma calm_wp {A} (m : M W Raft A) s e : calm m -> wp m (fun _ s' _ => unread s s') s e.
Proof. intros Hm. unfold wp. destruct (m s e) as [[[a s'] e']|] eqn:E; [|done]. by eapply Hm. Qed.

(** A new leader forgets the answers given to an earlier one. *)
Lemma calm_become_leader : calm become_leader.
Proof.
  intros s e a s' e'. revert a s' e'.
  enough (Hw : wp become_leader (fun _ s' _ => unread s s') s e) by (intros a s' e' E; exact (wp_Some _ _ _ _ _ _ _ Hw E)).
  unfold become_leader, bump, bump_by. cbv zeta. repeat wp_step.
  match goal with |- wp _ _ ?s1 _ => assert (Hs1 : unread s s1) by (split; simpl; auto) end.
  eapply wp_mono; [apply calm_wp; calm_walk|]. intros ? s2 e2 H2. cbv beta.
  eapply wp_mono; [apply calm_wp; calm_walk|]. intros ? s3 e3 H3. etransitivity; [exact Hs1|]. by transitivity s2.
Qed.
#[local] Hint Resolve calm_become_leader : calm.

Lemma calm_decide_vote from candidate i t dirty : calm (decide_vote from candidate i t dirty).
Proof. calm_walk. Qed.
#[local] Hint Resolve calm_decide_vote : calm.
Lemma calm_become_candidate : calm become_candidate.
Proof. calm_walk. Qed.
#[local] Hint Resolve calm_become_candidate : calm.
Lemma calm_take_entries start conflict new : calm (take_entries start conflict new).
Proof. calm_walk. Qed.
#[local] Hint Resolve calm_take_entries : calm.
Lemma calm_append_matched from prev last es commit dirty : calm (append_matched from prev last es commit dirty).
Proof. calm_walk. Qed.
#[local] Hint Resolve calm_append_matched : calm.
Lemma calm_on_append from term leader prev t es commit : calm (on_append_entries from term leader prev t es commit).
Proof. calm_walk. Qed.
#[local] Hint Resolve calm_on_append : calm.
Lemma calm_install_image from i t data : calm (install_image from i t data).
Proof. calm_walk. Qed.
#[local] Hint Resolve calm_install_image : calm.
Lemma calm_on_durable action : calm (on_durable action).
Proof. calm_walk. Qed.
#[local] Hint Resolve calm_on_durable : calm.

Lemma calm_on_message from msg :
  (forall term seq, msg <> ReadProbeResp term seq) -> calm (on_message from msg).
Proof. intros Hm. unfold on_message. destruct msg; [..|by edestruct Hm| |]; calm_walk. Qed.
Lemma calm_on_timer tag : calm (on_timer tag).
Proof. calm_walk. Qed.
Lemma calm_on_storage op ok : calm (on_storage op ok).
Proof. calm_walk. Qed.
Lemma calm_propose cmd : calm (propose cmd).
Proof. calm_walk. Qed.
Lemma calm_propose_membership members : calm (propose_membership members).
Proof. calm_walk. Qed.
Lemma calm_take_snapshot data : calm (take_snapshot data).
Proof. calm_walk. Qed.

End Handlers.

(** ** The majority behind a confirmed read *)




(** What [request_read] keeps of a read it accepts in state [s]. *)
Definition accepts_read (s : Raft) (id : Z) (p : PendingRead) : Prop :=
  pr_id p = id /\ is_leader s = true /\
  log_term_at (r_log s) (r_commit_index s) = Some (r_term s) /\
  pr_read_index p = r_commit_index s /\ pr_seq p = r_read_seq s + 1 /\
  (pr_confirmed p = true -> length (r_members s) = 1%nat).

(** The members that answered a probe suffice to confirm [p] in state [s]. *)
Definition confirms (s : Raft) (q p : PendingRead) : Prop :=
  p = mkPendingRead (pr_id q) (pr_read_index q) (pr_seq q) true /\ is_leader s = true /\
  (quorum s <= (if is_member s then 1 else 0) + probe_acks (r_members s) (r_probe_acked s) (pr_seq q))%nat.

(** What one event does to the reads of a node. *)
Record reads_step (ev : node_event) (s s' : Raft) : Prop := {
  rs_id : r_id s' = r_id s;
  rs_seq : r_read_seq s <= r_read_seq s';
  rs_acked : is_leader s' = true -> forall m a, r_probe_acked s' !! m = Some a ->
    is_leader s = true /\ r_term s' = r_term s /\
    (r_probe_acked s !! m = Some a \/ exists q, ev = NodeMessage m (ReadProbeResp (r_term s) q) /\
       a = Z.max (default 0 (r_probe_acked s !! m)) q);
  rs_pending : forall p, p ∈ r_pending_reads s' ->
    p ∈ r_pending_reads s \/
    (exists id, ev = NodeRead id /\ accepts_read s id p) \/
    (exists q, q ∈ r_pending_reads s /\ confirms s' q p);
}.

Lemma leader_role s : is_leader s = true <-> r_role s = Leader.
Proof. apply bool_decide_eq_true. Qed.

Lemma unread_reads_step ev s s' : unread s s' -> reads_step ev s s'.
Proof.
  intros [Hi Hs Hp Ha]. split; [done|lia| |rewrite Hp; auto].
  intros Hl m a. rewrite !leader_role in *. destruct (Ha Hl) as [->|(-> & Hr & Ht)]; [done|]. auto.
Qed.

Section Steps.
Context {W : Type} `{Io W}.

Lemma request_read_step id s (e : Env W) :
  cfg_bug (r_cfg s) = BugNone -> wp (request_read id) (fun _ s' _ => reads_step (NodeRead id) s s') s e.
Proof.
  intros Hb. unfold request_read, bump, bump_by. cbv zeta. repeat wp_step; try by apply unread_reads_step.
  apply wp_request. intros _ w _. eapply wp_mono; [apply calm_wp; calm_walk|].
  intros res s2 e2 [Hi Hs Hp Ha]; simpl in *. bools. split; simpl in *; [done|lia| |].
  - intros Hl m a. rewrite leader_role in Hl. destruct (Ha Hl) as [->|(-> & _ & Ht)]; [done|]. auto.
  - rewrite Hp. intros p [Hq| ->%list_elem_of_singleton]%elem_of_app; [auto|].
    right; left. exists id. split; [done|]. unfold accepts_read; simpl.
    rewrite !(bool_decide_false (cfg_bug (r_cfg s) = _)) in * by (by rewrite Hb). rewrite orb_false_r.
    split_and?; try done; [|by intros ?%Nat.eqb_eq].
    by destruct (bool_decide_reflect (log_term_at (r_log s) (r_commit_index s) = Some (r_term s))).
Qed.

Lemma on_read_probe_resp_step from term seq s (e : Env W) :
  wp (on_read_probe_resp from term seq) (fun _ s' _ =>
    reads_step (NodeMessage from (ReadProbeResp term seq)) s s') s e.
Proof.
  unfold on_read_probe_resp. do 2 wp_step. wp_step.
  { eapply wp_mono; [apply calm_wp, calm_step_down_and_persist|]. intros ? ? ? ?. by apply unread_reads_step. }
  wp_step; [wp_step; by apply unread_reads_step|]. cbv zeta. repeat wp_step. bools.
  split; simpl; [done|lia| |].
  - intros Hl m a Ha. split; [done|]. split; [done|].
    apply lookup_insert_Some in Ha as [[-> <-]|[_ Ha]]; [|by left]. right. exists seq. by subst.
  - intros p (q & <- & Hq)%list_elem_of_In%in_map_iff. apply list_elem_of_In in Hq.
    unfold confirm_read. case_match eqn:Hc; [|by left]. right; right. exists q. split; [done|].
    apply andb_true_iff in Hc as [_ Hc%Nat.leb_le]. done.
Qed.

Lemma node_handle_reads ev s (e : Env W) :
  cfg_bug (r_cfg s) = BugNone -> wp (node_handle ev) (fun _ s' _ => reads_step ev s s') s e.
Proof.
  intros Hb.
  assert (Hcalm : forall A (m : M W Raft A), calm m -> wp m (fun _ s' _ => reads_step ev s s') s e).
  { intros A m Hm. eapply wp_mono; [by apply calm_wp|]. intros ? ? ? ?. by apply unread_reads_step. }
  destruct ev as [from msg|tag|op ok|cmd|members|id|data| | | | |]; simpl node_handle.
  - assert (Hm : (exists term seq, msg = ReadProbeResp term seq) \/ forall term seq, msg <> ReadProbeResp term seq)
      by (destruct msg; eauto).
    destruct Hm as [(term & seq & ->)|Hm].
    + unfold on_message. do 3 wp_step; [|apply on_read_probe_resp_step]. wp_step. by apply unread_reads_step.
    + apply Hcalm, calm_on_message, Hm.
  - apply Hcalm, calm_on_timer.
  - apply Hcalm, calm_on_storage.
  - apply Hcalm, calm_bind; [apply calm_propose|intro; apply calm_ret].
  - apply Hcalm, calm_bind; [apply calm_propose_membership|intro; apply calm_ret].
  - apply wp_bind. eapply wp_mono; [by apply request_read_step|]. done.
  - apply Hcalm, calm_take_snapshot.
  - apply Hcalm, calm_modify. intros s1. unfold take_applied. case_match. split; simpl; auto.
  - apply wp_modify. unfold take_ready_reads. case_match; simpl; [by apply unread_reads_step|].
    bools. split; simpl; [done|lia|auto|]. intros p (Hp & _)%list_elem_of_In%filter_In.
    left. by apply list_elem_of_In.
  - apply wp_modify. unfold take_failed_reads. case_match; simpl; [by apply unread_reads_step|].
    bools. split; simpl; [done|lia|intros Hl; change (is_leader s = true) in Hl; congruence|]. by intros p ?%elem_of_nil.
  - apply Hcalm, calm_modify. intros s1. split; simpl; auto.
  - apply Hcalm, calm_modify. intros s1. split; simpl; auto.
Qed.
End Steps.

(** ** Every run *)

Section Run.
Context {W : Type} `{Io W}.
Context (id : NodeId) (members : list NodeId) (cfg : RaftConfig) (seed : Z) (w : W).
Implicit Types (evs : list node_event) (s : Raft) (p : PendingRead).

(** The node is in state [s] once it has handled [evs]. *)
Definition at_state evs s : Prop := exists r e, started id members cfg seed evs w r s e.

(** A majority of the membership of [s], the node itself counted if it is a
    member, has answered probe round [seq] or a later one in the term of [s]. *)
Definition majority_answered evs s (seq : Z) : Prop :=
  exists Q : gset NodeId, (quorum s <= size Q)%nat /\ forall m, m ∈ Q ->
    m ∈ r_members s /\
    (m = id \/ exists q, seq <= q /\ NodeMessage m (ReadProbeResp (r_term s) q) ∈ evs).

(** [p] was accepted at one of the [NodeRead] events of the run, by a leader that
    had committed in its own term, at the commit index of then. *)
Definition accepted_at before s p : Prop :=
  at_state before s /\ accepts_read s (pr_id p) (mkPendingRead (pr_id p) (pr_read_index p) (pr_seq p) false).

(** It was confirmed at once, by a node that knew of one member only, or later, by
    a leader a majority of whose membership had answered. *)
Definition confirmed_after before s after p : Prop :=
  length (r_members s) = 1%nat \/
  exists until rest s', after = until ++ rest /\
    at_state (before ++ NodeRead (pr_id p) :: until) s' /\ is_leader s' = true /\
    majority_answered (before ++ NodeRead (pr_id p) :: until) s' (pr_seq p).

Definition read_history evs p : Prop :=
  exists before after s, evs = before ++ NodeRead (pr_id p) :: after /\ accepted_at before s p /\
    (pr_confirmed p = true -> confirmed_after before s after p).


Record reads_ok evs s : Prop := {
  ro_id : r_id s = id;
  ro_seq : 0 <= r_read_seq s;
  ro_acked : is_leader s = true -> forall m a, r_probe_acked s !! m = Some a ->
    exists q, NodeMessage m (ReadProbeResp (r_term s) q) ∈ evs /\ a <= Z.max 0 q;
  ro_pending : forall p, p ∈ r_pending_reads s -> read_history evs p;
}.


Lemma recover_state_reads wal a b r :
  recover_state wal a b id members cfg seed = Some r ->
  r_id r = id /\ r_read_seq r = 0 /\ r_pending_reads r = [] /\ r_role r = Follower.
Proof.
  unfold recover_state. intros (rec & _ & E)%bind_Some. apply bind_Some in E as ([[es offs] gap] & _ & E).
  apply bind_Some in E as (snap_seq & _ & E). by apply bind_Some in E as (state_seq & _ & [= <-]).
Qed.

Lemma recovered_reads r e e1 :
  recover id members cfg seed tt e = Some (r, tt, e1) -> reads_ok [] r.
Proof.
  intros Hr.
  assert (Hw : wp (recover id members cfg seed) (fun r _ _ => reads_ok [] r) tt e).
  { unfold recover. do 3 (apply wp_bind; unfold read_all at 1, wp at 1). apply wp_bind, wp_lift. intros r0 Hr0.
    apply recover_state_reads in Hr0 as (Hi & Hs & Hp & Hl). apply wp_with_state.
    eapply wp_mono; [apply calm_wp; calm_walk|]. intros _ r1 e2 [Hi1 Hs1 Hp1 Ha1].
    split; [congruence|lia| |rewrite Hp1, Hp; by intros p ?%elem_of_nil].
    intros Hr1%leader_role m a. destruct (Ha1 Hr1) as [->|(_ & ? & _)]; [done|congruence]. }
  exact (wp_Some _ _ _ _ _ _ _ Hw Hr).
Qed.

Lemma at_state_snoc evs ev s :
  at_state (evs ++ [ev]) s ->
  exists s1 e1 e, at_state evs s1 /\ cfg_bug (r_cfg s1) = BugNone /\ node_handle ev s1 e1 = Some (tt, s, e).
Proof.
  intros (r & e & Hbug & e0 & Hr & Hrun). apply node_run_app in Hrun as (s1 & e1 & H1 & H2).
  assert (Hs : started id members cfg seed evs w r s1 e1) by (split; [done|]; by exists e0).
  exists s1, e1, e. split; [by exists r, e1|].
  destruct (started_good _ _ _ _ _ _ _ _ _ Hs) as (ea & _ & [[] _] & _). split; [done|].
  revert H2. unfold node_run. simpl. unfold mbind, M_bind.
  by destruct (node_handle ev s1 e1) as [[[[] ?] ?]|].
Qed.

Lemma state_step evs ev s1 :
  at_state (evs ++ [ev]) s1 -> exists s, at_state evs s /\ reads_step ev s s1.
Proof.
  intros (s & e1 & e & Hs & Hb & E)%at_state_snoc. exists s. split; [done|].
  exact (wp_Some _ _ _ _ _ _ _ (node_handle_reads ev s e1 Hb) E).
Qed.
Lemma at_state_nil s : at_state [] s -> reads_ok [] s.
Proof. intros (r & e & _ & e1 & Hr & [= <- _]). by eapply recovered_reads. Qed.

Lemma state_seq evs s : at_state evs s -> 0 <= r_read_seq s.
Proof.
  revert s. induction evs as [|ev evs IH] using rev_ind; intros s Hs; [by destruct (at_state_nil _ Hs)|].
  destruct (state_step _ _ _ Hs) as (s1 & Hs1%IH & []). lia.
Qed.




End Run.

(** ** A concrete run: a leader of three serves a read *)

(** Node 0 wins an election of term 1 and commits the entry of its own term. *)
Definition elected_run : list node_event :=
  [NodeTimer TIMER_ELECTION; NodeMessage 1 (PreVoteResp 0 0 true);
   NodeStorage 2 true; NodeStorage 4 true; NodeMessage 1 (RequestVoteResp 1 true);
   NodeStorage 5 true; NodeStorage 7 true; NodeMessage 1 (AppendEntriesResp 1 true 1 0)].


Lemma existsb_elem (f : node_event -> bool) evs ev : ev ∈ evs -> f ev = true -> existsb f evs = true.
Proof. intros Hin Hf. apply existsb_exists. exists ev. by rewrite <- list_elem_of_In. Qed.



(** The membership the source overlooks: a leader that has proposed to leave one
    other member alone goes on serving reads, no probe sent and no answer heard,
    although that member may already have been elected without it. *)
Definition stranger_run : list node_event :=
  elected_run ++ [NodeMembership [0; 1]; NodeStorage 8 true; NodeStorage 9 true;
    NodeMessage 1 (AppendEntriesResp 1 true 2 0); NodeMembership [1]; NodeTakeApplied; NodeRead 9].
Definition answers_probe (ev : node_event) : bool :=
  match ev with NodeMessage _ (ReadProbeResp _ _) => true | _ => false end.

Theorem removed_leader_serves_unconfirmed :
  exists r s e, example_started stranger_run r s e /\ (take_ready_reads s).1 = [9] /\
    r_id s = 0 /\ r_members s = [1] /\
    forall m term q, NodeMessage m (ReadProbeResp term q) ∉ stranger_run.
Proof.
  destruct (example_run_exists stranger_run) as (r & s & e & He); [vm_compute; reflexivity|].
  exists r, s, e. split; [by apply example_run_started|].
  assert (Hb : match example_run stranger_run with
               | Some (_, s, _) => ((take_ready_reads s).1, r_id s, r_members s)
               | None => ([], 0, []) end = ([9], 0, [1])) by (vm_compute; reflexivity).
  rewrite He in Hb. injection Hb as Hr Hi Hm.
  split; [exact Hr|]. split; [exact Hi|]. split; [exact Hm|].
  intros m term q Hin. discriminate (existsb_elem answers_probe stranger_run _ Hin eq_refl).
Qed.
