(* ===== verification/History.v ===== *)
(** * History: client histories and the search of the checker
    ([checker/linearizability.rs])

    [Operation], [History] and its sanity checks, the single-key model [Reg] with
    [reg_step], and the Wing & Gong search of [Checker::check_partition] with its
    doubly linked list, its memo table and its step budget.  A [usize::MAX] that
    stands for "no such position" is [None]; a vector indexed out of range is a
    panic, so the search is partial until [Linearizability] shows it total.  The
    texts that a verdict carries for people are left out. *)
From S2P Require Import Prelude Codec Crc LogFormat Messages StateMachine Io.
From Stdlib.Init Require Import Byte.

(** ** Operations and histories *)

Record Operation : Type := mkOperation {
  lo_id : Z;
  lo_client : Z;
  lo_op : Op;
  lo_invoked : Nanos;
  lo_completed : option Nanos;
  lo_outcome : option Outcome;
}.

Definition operation_is_pending (o : Operation) : bool :=
  bool_decide (lo_outcome o = None).
Definition operation_key (o : Operation) : option RString := op_key (lo_op o).

Record History : Type := mkHistory {
  h_ops : list Operation;
  h_index : gmap Z nat;
}.

Definition history_new : History := mkHistory [] ∅.

Definition history_push (op : Operation) (h : History) : History :=
  mkHistory (h_ops h ++ [op]) (<[lo_id op := length (h_ops h)]> (h_index h)).

(** [complete]: whether the id is known, and the history. *)
Definition history_complete (id : Z) (time : Nanos) (outcome : Outcome) (h : History)
  : option (bool * History) :=
  match h_index h !! id with
  | None => Some (false, h)
  | Some i =>
      op ← h_ops h !! i;
      let op := mkOperation (lo_id op) (lo_client op) (lo_op op) (lo_invoked op)
                  (Some time) (Some outcome) in
      Some (true, mkHistory (<[i := op]> (h_ops h)) (h_index h))
  end.

Definition history_completed (h : History) : nat :=
  length (filter (fun o => operation_is_pending o = false) (h_ops h)).
Definition history_pending (h : History) : nat :=
  length (filter (fun o => operation_is_pending o = true) (h_ops h)).

Inductive HistoryError : Type :=
| DuplicateId (id : Z)
| CompletedBeforeItStarted (id : Z)
| TimeAndOutcomeDisagree (id : Z).

Definition check_operation (seen : gset Z) (o : Operation) : Result HistoryError unit :=
  if bool_decide (lo_id o ∈ seen) then Err (DuplicateId (lo_id o))
  else if (if lo_completed o is Some t then t <? lo_invoked o else false)
  then Err (CompletedBeforeItStarted (lo_id o))
  else if negb (Bool.eqb (bool_decide (is_Some (lo_completed o)))
                         (bool_decide (is_Some (lo_outcome o))))
  then Err (TimeAndOutcomeDisagree (lo_id o))
  else Ok tt.

Fixpoint well_formed_from (seen : gset Z) (ops : list Operation) : Result HistoryError unit :=
  match ops with
  | [] => Ok tt
  | o :: ops => check_operation seen o ≫= fun _ => well_formed_from ({[lo_id o]} ∪ seen) ops
  end.

Definition history_well_formed (h : History) : Result HistoryError unit :=
  well_formed_from ∅ (h_ops h).

(** ** The model: the value of one key *)

Inductive Reg : Type :=
| Absent
| RegValue (v : RString).

Definition reg_as_opt (r : Reg) : option RString :=
  match r with Absent => None | RegValue v => Some v end.

#[export] Instance Reg_eq_dec : EqDecision Reg.
Proof. solve_decision. Defined.
#[export] Instance Reg_countable : Countable Reg.
Proof.
  refine (inj_countable' reg_as_opt
    (fun o => match o with None => Absent | Some v => RegValue v end) _).
  by intros [].
Defined.

(** [step]: whether the observed outcome fits, and the next state. *)
Definition reg_step (state : Reg) (op : Operation) : bool * Reg :=
  let fits (o : Outcome) := bool_decide (lo_outcome op = None)
                            || bool_decide (lo_outcome op = Some o) in
  match lo_op op with
  | Noop | SetMembers _ => (true, state)
  | Get _ => (fits (OValue (reg_as_opt state)), state)
  | Put _ value => (fits Written, RegValue value)
  | Delete _ => (fits Written, Absent)
  | Cas _ expect value =>
      let matched := bool_decide (reg_as_opt state = expect) in
      (fits (OCas matched), if matched then RegValue value else state)
  end.

(** ** The entry list *)

(** One element of [order]: time, kind (0 a return, 1 a call), id, operation. *)
Record Slot : Type := mkSlot {
  sl_time : Nanos;
  sl_kind : Z;
  sl_id : Z;
  sl_op : nat;
  sl_call : bool;
}.

Definition slot_key_le (a b : Slot) : bool :=
  (sl_time a <? sl_time b)
  || ((sl_time a =? sl_time b)
      && ((sl_kind a <? sl_kind b)
          || ((sl_kind a =? sl_kind b)
              && ((sl_id a <? sl_id b)
                  || ((sl_id a =? sl_id b) && implb (sl_call a) (sl_call b)))))).
Definition slot_le (a b : Slot) : Prop := slot_key_le a b = true.
#[export] Instance slot_le_dec a b : Decision (slot_le a b).
Proof. unfold slot_le. apply _. Defined.

Definition call_slot (i : nat) (op : Operation) : Slot :=
  mkSlot (lo_invoked op) 1 (lo_id op) i true.
Definition return_slot (i : nat) (op : Operation) : Slot :=
  mkSlot (default U64_MAX (lo_completed op)) 0 (lo_id op) i false.

Definition slots (ops : list Operation) : list Slot :=
  merge_sort slot_le (concat (imap (fun i op => [call_slot i op; return_slot i op]) ops)).

(** ** The doubly linked list *)

Record Node : Type := mkNode {
  nd_is_call : bool;
  nd_op : option nat;
  nd_matching : option nat;
  nd_prev : nat;
  nd_next : nat;
}.

Definition set_next (x : Node) (i : nat) : Node :=
  mkNode (nd_is_call x) (nd_op x) (nd_matching x) (nd_prev x) i.
Definition set_prev (x : Node) (i : nat) : Node :=
  mkNode (nd_is_call x) (nd_op x) (nd_matching x) i (nd_next x).

(** Where in [order] the call or the return of operation [i] is. *)
Definition position_of (order : list Slot) (i : nat) (call : bool) : option nat :=
  fst <$> list_find (fun s => sl_op s = i /\ sl_call s = call) order.

(** The node at position [pos] once the three loops that fill the vector are
    done: call and return know each other, neighbours are linked, and the
    sentinel at [2 * n] closes the list at both ends. *)
Definition build_node (order : list Slot) (pos : nat) (s : Slot) : Node :=
  mkNode (sl_call s) (Some (sl_op s)) (position_of order (sl_op s) (negb (sl_call s)))
    (if (pos =? 0)%nat then length order else (pos - 1)%nat) (S pos).

Definition build_nodes (order : list Slot) : list Node :=
  imap (build_node order) order ++ [mkNode false None None (length order - 1) 0].

Definition unlink (nodes : list Node) (i : nat) : option (list Node) :=
  x ← nodes !! i;
  np ← nodes !! nd_prev x;
  let nodes := <[nd_prev x := set_next np (nd_next x)]> nodes in
  nn ← nodes !! nd_next x;
  Some (<[nd_next x := set_prev nn (nd_prev x)]> nodes).

Definition relink (nodes : list Node) (i : nat) : option (list Node) :=
  x ← nodes !! i;
  np ← nodes !! nd_prev x;
  let nodes := <[nd_prev x := set_next np i]> nodes in
  nn ← nodes !! nd_next x;
  Some (<[nd_next x := set_prev nn i]> nodes).

(** ** The set of linearized operations, 64 to a word *)

Definition bit_of (i : nat) : Z := Z.shiftl 1 (Z.of_nat (i mod 64)).

Definition bits_set (bits : list Z) (i : nat) : option (list Z) :=
  w ← bits !! (i / 64)%nat;
  Some (<[(i / 64)%nat := Z.lor w (bit_of i)]> bits).

Definition bits_clear (bits : list Z) (i : nat) : option (list Z) :=
  w ← bits !! (i / 64)%nat;
  Some (<[(i / 64)%nat := Z.land w (Z.lxor U64_MAX (bit_of i))]> bits).

Definition bits_empty (n : nat) : list Z := replicate ((n + 63) / 64)%nat 0.

(** ** The search *)

Inductive Verdict : Type :=
| Linearizable
| Violation (key : RString)
| Unknown (key : RString).

Definition is_violation (v : Verdict) : bool :=
  match v with Violation _ => true | _ => false end.

Record Search : Type := mkSearch {
  sr_nodes : list Node;
  sr_linearized : list Z;
  sr_cache : gset (list Z * Reg);
  sr_calls : list (nat * Reg);
  sr_state : Reg;
  sr_entry : nat;
}.

Section Search.
Context (key : RString) (ops : list Operation) (budget : Z).

Definition sentinel : nat := 2 * length ops.

(** Choose the call at [entry], unless it does not fit or was tried before. *)
Definition try_call (s : Search) (x : Node) : option Search :=
  i ← nd_op x;
  op ← ops !! i;
  let '(ok, next_state) := reg_step (sr_state s) op in
  let skip := mkSearch (sr_nodes s) (sr_linearized s) (sr_cache s) (sr_calls s) (sr_state s)
                (nd_next x) in
  if ok then
    bits ← bits_set (sr_linearized s) i;
    if decide ((bits, next_state) ∈ sr_cache s) then Some skip
    else
      ret ← nd_matching x;
      nodes ← unlink (sr_nodes s) (sr_entry s);
      nodes ← unlink nodes ret;
      head ← nodes !! sentinel;
      Some (mkSearch nodes bits ({[(bits, next_state)]} ∪ sr_cache s)
              ((sr_entry s, sr_state s) :: sr_calls s) next_state (nd_next head))
  else Some skip.

(** Undo the most recent choice. *)
Definition backtrack (s : Search) (call : nat) (prior : Reg) (calls : list (nat * Reg))
  : option Search :=
  x ← sr_nodes s !! call;
  i ← nd_op x;
  bits ← bits_clear (sr_linearized s) i;
  ret ← nd_matching x;
  nodes ← relink (sr_nodes s) ret;
  nodes ← relink nodes call;
  x ← nodes !! call;
  Some (mkSearch nodes bits (sr_cache s) calls prior (nd_next x)).

(** The loop of [check_partition]: the verdict and the number of steps. *)
Fixpoint search_loop (fuel : nat) (steps : Z) (s : Search) : option (Verdict * Z) :=
  match fuel with
  | O => None
  | S fuel =>
      if (sr_entry s =? sentinel)%nat then Some (Linearizable, steps)
      else
        let steps := steps + 1 in
        if budget <? steps then Some (Unknown key, steps)
        else
          x ← sr_nodes s !! sr_entry s;
          if nd_is_call x then try_call s x ≫= search_loop fuel steps
          else
            match sr_calls s with
            | [] => Some (Violation key, steps)
            | (call, prior) :: calls => backtrack s call prior calls ≫= search_loop fuel steps
            end
  end.

Definition search_start : option Search :=
  let nodes := build_nodes (slots ops) in
  head ← nodes !! sentinel;
  Some (mkSearch nodes (bits_empty (length ops)) ∅ [] Absent (nd_next head)).

(** Every turn takes a step, so the budget bounds the turns. *)
Definition check_partition : option (Verdict * Z) :=
  match ops with
  | [] => Some (Linearizable, 0)
  | _ => search_start ≫= search_loop (S (S (Z.to_nat budget))) 0
  end.

End Search.

(** ** A whole history, key by key *)

Record CheckStats : Type := mkCheckStats {
  cs_partitions : nat;
  cs_operations : nat;
  cs_steps : Z;
  cs_max_partition : nat;
}.

Record Checker : Type := mkChecker { ck_budget : Z; ck_stats : CheckStats }.

Definition DEFAULT_BUDGET : Z := 5000000.
Definition checker_new : Checker := mkChecker DEFAULT_BUDGET (mkCheckStats 0 0 0 0).

(** [by_key]: the operations of each key, in the order of the history. *)
Definition by_key (h : History) : gmap RString (list Operation) :=
  fold_left (fun m op =>
    match operation_key op with
    | Some k => <[k := default [] (m !! k) ++ [op]]> m
    | None => m
    end) (h_ops h) ∅.

Definition partition_le (x y : RString * list Operation) : Prop := bytes_le x.1 y.1 = true.
#[export] Instance partition_le_dec x y : Decision (partition_le x y).
Proof. unfold partition_le. apply _. Defined.

Definition partitions (h : History) : list (RString * list Operation) :=
  merge_sort partition_le (map_to_list (by_key h)).

(** The loop of [check]: stops at the first key that is not linearizable. *)
Fixpoint check_keys (budget : Z) (ps : list (RString * list Operation)) (steps : Z)
  : option (Verdict * Z) :=
  match ps with
  | [] => Some (Linearizable, steps)
  | (key, ops) :: ps =>
      '(v, k) ← check_partition key ops budget;
      steps ← u64_add steps k;
      match v with
      | Linearizable => check_keys budget ps steps
      | other => Some (other, steps)
      end
  end.

Definition check (c : Checker) (h : History) : option (Verdict * Checker) :=
  let ps := partitions h in
  '(v, steps) ← check_keys (ck_budget c) ps (cs_steps (ck_stats c));
  Some (v, mkChecker (ck_budget c)
             (mkCheckStats (length ps) (length (h_ops h)) steps
                (foldr Nat.max 0%nat (map (fun p => length p.2) ps)))).
