(* ===== verification/Linearizability.v ===== *)
(** * Linearizability: the search of the checker decides linearizability
    ([checker/linearizability.rs])

    First the doubly linked list: [unlink] takes a node out of a circular list and
    [relink] undoes it exactly.  Then the words that hold the set of linearized
    operations.  Then the order of calls and returns, and the invariant of the
    search: the nodes are a thread through the operations not linearized yet, the
    stack is a path of enabled choices, and every memo entry is on that path or a
    dead end.  The last part states what a verdict means for the clients. *)
From S2P Require Import Prelude Codec Crc LogFormat Messages StateMachine Io Rng History.

(** ** The doubly linked list *)

Definition nxt (nodes : list Node) (a : nat) : option nat := nd_next <$> nodes !! a.
Definition prv (nodes : list Node) (a : nat) : option nat := nd_prev <$> nodes !! a.

(** What [unlink] and [relink] leave alone. *)
Definition core (nodes : list Node) : list (bool * option nat * option nat) :=
  map (fun x => (nd_is_call x, nd_op x, nd_matching x)) nodes.

Definition linked (nodes : list Node) (a b : nat) : Prop :=
  nxt nodes a = Some b /\ prv nodes b = Some a.

(** A segment: from [a] through [l] to [b]. *)
Fixpoint links (nodes : list Node) (a : nat) (l : list nat) (b : nat) : Prop :=
  match l with
  | [] => linked nodes a b
  | c :: l => linked nodes a c /\ links nodes c l b
  end.

Lemma links_app nodes a l1 c l2 b :
  links nodes a (l1 ++ c :: l2) b <-> links nodes a l1 c /\ links nodes c l2 b.
Proof. revert a. induction l1 as [|d l1 IH]; intros a; simpl; [done|]. rewrite IH. tauto. Qed.

(** The last node of a segment is linked to its end. *)
Lemma links_last nodes a l b :
  links nodes a l b -> linked nodes (List.last l a) b.
Proof.
  destruct l as [|d l _] using rev_ind; [done|].
  intros [_ H]%links_app. by rewrite List.last_last.
Qed.

Lemma links_frame nodes nodes' a l b :
  (forall x, x ∈ a :: l -> nxt nodes' x = nxt nodes x) ->
  (forall x, x ∈ l ++ [b] -> prv nodes' x = prv nodes x) ->
  links nodes a l b -> links nodes' a l b.
Proof.
  revert a. induction l as [|c l IH]; intros a Hn Hp; simpl.
  - intros [H1 H2]. split; [rewrite Hn|rewrite Hp]; set_solver.
  - intros [[H1 H2] H3]. split.
    + split; [rewrite Hn|rewrite Hp]; set_solver.
    + apply IH; [intros; apply Hn; set_solver|intros; apply Hp; set_solver|done].
Qed.

Lemma lookup_nxt nodes a x : nodes !! a = Some x -> nxt nodes a = Some (nd_next x).
Proof. unfold nxt. by intros ->. Qed.
Lemma lookup_prv nodes a x : nodes !! a = Some x -> prv nodes a = Some (nd_prev x).
Proof. unfold prv. by intros ->. Qed.

(** Splicing two neighbours together, which both [unlink] and [relink] do. *)
Lemma splice_nodes nodes p n a b (np : Node) :
  nodes !! p = Some np -> is_Some (nodes !! n) ->
  exists nn,
    <[p := set_next np a]> nodes !! n = Some nn /\
    let nodes' := <[n := set_prev nn b]> (<[p := set_next np a]> nodes) in
    core nodes' = core nodes /\
    (forall x, nxt nodes' x = if decide (x = p) then Some a else nxt nodes x) /\
    (forall x, prv nodes' x = if decide (x = n) then Some b else prv nodes x).
Proof.
  intros Hp [nn0 Hn].
  pose proof (lookup_lt_Some _ _ _ Hp) as Lp. pose proof (lookup_lt_Some _ _ _ Hn) as Ln.
  destruct (lookup_lt_is_Some_2 (<[p := set_next np a]> nodes) n) as [nn Hnn].
  { by rewrite length_insert. }
  exists nn. split; [done|]. simpl. split; [|split].
  - unfold core. apply list_eq. intros k. rewrite !list_lookup_fmap.
    destruct (decide (k = n)) as [->|Nn].
    + rewrite list_lookup_insert_eq by (by rewrite length_insert). simpl.
      destruct (decide (n = p)) as [->|Np].
      * rewrite list_lookup_insert_eq in Hnn by done. simplify_eq. by rewrite Hp.
      * rewrite list_lookup_insert_ne in Hnn by done. simplify_eq. by rewrite Hn.
    + rewrite list_lookup_insert_ne by done.
      destruct (decide (k = p)) as [->|Np].
      * rewrite list_lookup_insert_eq by done. by rewrite Hp.
      * by rewrite list_lookup_insert_ne.
  - intros x. unfold nxt. destruct (decide (x = n)) as [->|Nn].
    + rewrite list_lookup_insert_eq by (by rewrite length_insert). simpl.
      case_decide; subst.
      * rewrite list_lookup_insert_eq in Hnn by done. by simplify_eq.
      * rewrite list_lookup_insert_ne in Hnn by done. by rewrite Hnn.
    + rewrite list_lookup_insert_ne by done. case_decide; subst.
      * by rewrite list_lookup_insert_eq.
      * by rewrite list_lookup_insert_ne.
  - intros x. unfold prv. case_decide; subst.
    + by rewrite list_lookup_insert_eq by (by rewrite length_insert).
    + rewrite list_lookup_insert_ne by done. destruct (decide (x = p)) as [->|Np].
      * rewrite list_lookup_insert_eq by done. by rewrite Hp.
      * by rewrite list_lookup_insert_ne.
Qed.

(** A list of nodes is fixed by its unchanging part and its links. *)
Lemma nodes_ext nodes nodes' :
  core nodes = core nodes' -> (forall x, nxt nodes x = nxt nodes' x) ->
  (forall x, prv nodes x = prv nodes' x) -> nodes = nodes'.
Proof.
  intros Hc Hn Hp. apply list_eq. intros k. specialize (Hn k). specialize (Hp k).
  assert (E : core nodes !! k = core nodes' !! k) by by rewrite Hc.
  unfold core, nxt, prv in *. rewrite !list_lookup_fmap in E.
  destruct (nodes !! k) as [[]|], (nodes' !! k) as [[]|]; simpl in *; naive_solver.
Qed.

Lemma core_is_Some nodes nodes' a :
  core nodes = core nodes' -> is_Some (nodes !! a) -> is_Some (nodes' !! a).
Proof.
  intros Hc. rewrite !lookup_lt_is_Some. apply (f_equal length) in Hc.
  unfold core in Hc. rewrite !length_map in Hc. lia.
Qed.

Definition circle (nodes : list Node) (s : nat) (l : list nat) : Prop :=
  links nodes s l s /\ NoDup (s :: l).

Lemma circle_nodup (s i : nat) (l1 l2 : list nat) :
  NoDup (s :: l1 ++ i :: l2) ->
  NoDup (s :: l1 ++ l2) /\ i ∉ s :: l1 /\ i ∉ s :: l2 /\ s ∉ l1 /\ s ∉ l2 /\
  NoDup l1 /\ NoDup l2 /\ (forall x, x ∈ l1 -> x ∉ l2).
Proof.
  intros H. pose proof H as H'.
  rewrite <-Permutation_middle in H'.
  assert (Hi : i ∉ s :: l1 ++ l2 /\ NoDup (s :: l1 ++ l2)).
  { rewrite NoDup_cons in H'. destruct H' as [Hs [Hi Hn]%NoDup_cons].
    split; [|apply NoDup_cons; split; [|done]]; set_solver. }
  destruct Hi as [Hi Hn]. apply NoDup_cons in Hn as Hn2. destruct Hn2 as [Hs Hn2].
  apply NoDup_app in Hn2 as (H1 & H12 & H2).
  repeat split; try done; set_solver.
Qed.

(** The neighbours of a node of a circular list. *)
Definition before (s : nat) (l : list nat) : nat := List.last l s.
Definition after (s : nat) (l : list nat) : nat := List.hd s l.

Lemma before_in s l : before s l ∈ s :: l.
Proof.
  unfold before. destruct l as [|d l _] using rev_ind; [by left|].
  rewrite List.last_last. right. apply elem_of_app. right. by left.
Qed.

Lemma after_in s l : after s l ∈ s :: l.
Proof. destruct l; [by left|right; by left]. Qed.

Lemma circle_around nodes s l1 i l2 :
  circle nodes s (l1 ++ i :: l2) ->
  linked nodes (before s l1) i /\ linked nodes i (after s l2).
Proof.
  intros [[H1%links_last H2]%links_app _]. split; [done|].
  destruct l2; [done|]. by destruct H2.
Qed.

Lemma circle_splice nodes nodes' s l1 i l2 :
  circle nodes s (l1 ++ i :: l2) ->
  (forall x, nxt nodes' x = if decide (x = before s l1) then Some (after s l2) else nxt nodes x) ->
  (forall x, prv nodes' x = if decide (x = after s l2) then Some (before s l1) else prv nodes x) ->
  circle nodes' s (l1 ++ l2).
Proof.
  intros [[Hl1 Hl2]%links_app Hnd] Hnxt Hprv.
  apply circle_nodup in Hnd as (Hnd & Hi1 & Hi2 & Hs1 & Hs2 & Nd1 & Nd2 & Nd12).
  split; [|done].
  assert (Hpn : linked nodes' (before s l1) (after s l2)).
  { split; [rewrite Hnxt|rewrite Hprv]; by rewrite decide_True. }
  assert (F2 : links nodes' (before s l1) l2 s).
  { destruct l2 as [|d l2]; [done|]. split; [done|]. destruct Hl2 as [_ Hl2].
    revert Hl2. apply NoDup_cons in Nd2 as [Nd Nd2]. apply links_frame; intros y Hy.
    - rewrite Hnxt, decide_False; [done|]. intros ->.
      pose proof (before_in s l1) as [?|?]%elem_of_cons; [congruence|]. by apply (Nd12 (before s l1)).
    - rewrite Hprv, decide_False; [done|]. simpl. intros ->.
      apply elem_of_app in Hy as [?|?%list_elem_of_singleton]; [done|]. subst. apply Hs2. by left. }
  destruct l1 as [|d l1 _] using rev_ind; [done|].
  unfold before in *. rewrite List.last_last in *. apply links_app in Hl1 as [Hl1 _].
  rewrite <-app_assoc. apply links_app. split; [|done].
  apply NoDup_app in Nd1 as (Nd1 & Nd & _).
  revert Hl1. apply links_frame; intros y Hy.
  - rewrite Hnxt, decide_False; [done|]. intros ->.
    apply elem_of_cons in Hy as [<-|Hy]; [apply Hs1, elem_of_app; right; by left|].
    apply (Nd d Hy). by left.
  - rewrite Hprv, decide_False; [done|]. intros ->.
    pose proof (after_in s l2) as [E|?]%elem_of_cons; [by rewrite E in Hy|].
    by apply (Nd12 (after s l2)).
Qed.

(** Taking a node out of a circular list, and [relink] as its exact inverse. *)
Lemma unlink_circle nodes s l1 i l2 :
  circle nodes s (l1 ++ i :: l2) ->
  exists nodes', unlink nodes i = Some nodes' /\ circle nodes' s (l1 ++ l2) /\
    core nodes' = core nodes /\ relink nodes' i = Some nodes.
Proof.
  intros Hcir. pose proof (circle_around _ _ _ _ _ Hcir) as [[Hpn Hip] [Hin Hnp]].
  assert (Hne : i ≠ before s l1 /\ i ≠ after s l2).
  { destruct Hcir as [_ (_ & Hi1 & Hi2 & _)%circle_nodup].
    split; intros ->; [apply Hi1, before_in|apply Hi2, after_in]. }
  pose proof (fun nodes' => circle_splice nodes nodes' s l1 i l2 Hcir) as Hspl.
  revert Hpn Hip Hin Hnp Hne Hspl. generalize (before s l1) (after s l2).
  intros p n Hpn Hip Hin Hnp [Nip Nin] Hspl.
  pose proof Hip as Hip'. pose proof Hin as Hin'. pose proof Hpn as Hpn'. pose proof Hnp as Hnp'.
  unfold nxt, prv in Hip', Hin', Hpn', Hnp'.
  apply fmap_Some in Hip' as (x & Hx & Ep). rewrite Hx in Hin'. injection Hin' as En.
  apply fmap_Some in Hpn' as (np & Hpx & Hpi). apply fmap_Some in Hnp' as (nn0 & Hnx & _).
  destruct (splice_nodes nodes _ _ n p np Hpx (mk_is_Some _ _ Hnx))
    as (nn & Hnn & Hc & Hnxt & Hprv).
  eexists. split; [unfold unlink; rewrite Hx; simpl; rewrite <-Ep, Hpx; simpl; by rewrite En, Hnn|].
  revert Hc Hnxt Hprv. set (nodes' := <[_ := _]> _). intros Hc Hnxt Hprv.
  split; [by apply Hspl|split; [done|]].
  assert (Hx' : nodes' !! i = Some x) by (unfold nodes'; by rewrite !list_lookup_insert_ne).
  destruct (core_is_Some nodes nodes' _ (eq_sym Hc) (mk_is_Some _ _ Hpx)) as [np' Hp'].
  destruct (splice_nodes nodes' _ n i i np' Hp') as (nn' & Hnn' & Hc' & Hnxt' & Hprv').
  { apply (core_is_Some nodes); [done|]. by eexists. }
  unfold relink. rewrite Hx'. simpl. rewrite <-Ep, Hp'. simpl. rewrite En, Hnn'. simpl.
  f_equal. apply nodes_ext; [congruence|..]; intros y.
  - rewrite Hnxt'. case_decide; subst; [done|]. rewrite Hnxt. by rewrite decide_False.
  - rewrite Hprv'. case_decide; subst; [done|]. rewrite Hprv. by rewrite decide_False.
Qed.

(** ** The words of the set of linearized operations *)

(** [bits] holds the set [L] of numbers below [n]. *)
Definition represents (n : nat) (bits : list Z) (L : gset nat) : Prop :=
  length bits = ((n + 63) / 64)%nat /\ (forall i, i ∈ L -> (i < n)%nat) /\
  forall i, (i < n)%nat -> exists w, bits !! (i / 64)%nat = Some w /\ is_u64 w /\
    Z.testbit w (Z.of_nat (i mod 64)) = bool_decide (i ∈ L).

Lemma represents_inj n bits L L' : represents n bits L -> represents n bits L' -> L = L'.
Proof.
  intros (_ & HL & H) (_ & HL' & H'). apply set_eq. intros i.
  destruct (decide (i < n)%nat) as [Hi|Hi]; [|naive_solver].
  destruct (H i Hi) as (w & Hw & _ & Hb), (H' i Hi) as (w' & Hw' & _ & Hb').
  simplify_eq. rewrite Hb in Hb'. by apply bool_decide_eq_bool_decide in Hb'
    || (case_bool_decide; case_bool_decide; naive_solver).
Qed.

Lemma represents_empty n : represents n (bits_empty n) ∅.
Proof.
  split; [|split; [set_solver|]].
  - unfold bits_empty. by rewrite length_replicate.
  - intros i Hi. exists 0. unfold bits_empty.
    assert ((i / 64 < (n + 63) / 64)%nat).
    { apply Nat.div_lt_upper_bound; [lia|].
      pose proof (Nat.div_mod (n + 63) 64 ltac:(lia)).
      pose proof (Nat.mod_upper_bound (n + 63) 64 ltac:(lia)). lia. }
    rewrite lookup_replicate_2 by done. split; [done|]. split; [unfold is_u64; lia|].
    rewrite Z.testbit_0_l. symmetry. apply bool_decide_eq_false. set_solver.
Qed.

Lemma bit_of_testbit i j :
  Z.testbit (bit_of i) (Z.of_nat (j mod 64)) = bool_decide (i mod 64 = j mod 64)%nat.
Proof.
  unfold bit_of. rewrite Z.shiftl_1_l, Z.pow2_bits_eqb by lia.
  case_bool_decide as E; [rewrite E; apply Z.eqb_refl|]. apply Z.eqb_neq. lia.
Qed.

Lemma bit_of_u64 i : is_u64 (bit_of i).
Proof.
  apply u64_bits.
  - unfold bit_of. rewrite Z.shiftl_nonneg. lia.
  - intros k Hk. unfold bit_of. rewrite Z.shiftl_1_l, Z.pow2_bits_eqb by lia.
    apply Z.eqb_neq. pose proof (Nat.mod_upper_bound i 64 ltac:(lia)). lia.
Qed.

Lemma same_bit i j : (i / 64 = j / 64)%nat -> (i mod 64 = j mod 64)%nat -> i = j.
Proof. intros. rewrite (Nat.div_mod_eq i 64), (Nat.div_mod_eq j 64). congruence. Qed.

(** Changing one word through [f], for a set that differs at [i] only. *)
Lemma represents_update n bits L L' i w w' :
  represents n bits L -> (i < n)%nat -> bits !! (i / 64)%nat = Some w -> is_u64 w' ->
  (forall j, j ≠ i -> j ∈ L' <-> j ∈ L) ->
  (forall j, (i / 64 = j / 64)%nat -> (j < n)%nat ->
     Z.testbit w' (Z.of_nat (j mod 64)) =
     if decide (j = i) then bool_decide (i ∈ L') else Z.testbit w (Z.of_nat (j mod 64))) ->
  represents n (<[(i / 64)%nat := w']> bits) L'.
Proof.
  intros (Hlen & HL & H) Hi Hw Hu Hext Hbit.
  split; [by rewrite length_insert|]. split.
  { intros j Hj. destruct (decide (j = i)) as [->|Hne]; [done|]. apply HL. by apply Hext. }
  intros j Hj. destruct (H j Hj) as (v & Hv & Hvu & Hvb).
  destruct (decide (i / 64 = j / 64)%nat) as [E|E].
  - exists w'. rewrite <-E, list_lookup_insert_eq by by eapply lookup_lt_Some.
    split; [done|]. split; [done|]. rewrite Hbit by done. destruct (decide (j = i)) as [->|D]; [done|].
    rewrite E, Hv in Hw. simplify_eq. rewrite Hvb. apply bool_decide_ext. symmetry.
    by apply Hext.
  - exists v. rewrite list_lookup_insert_ne by done. split; [done|]. split; [done|].
    rewrite Hvb. apply bool_decide_ext. symmetry. apply Hext. congruence.
Qed.

Lemma represents_set n bits L i :
  represents n bits L -> (i < n)%nat ->
  exists bits', bits_set bits i = Some bits' /\ represents n bits' ({[i]} ∪ L).
Proof.
  intros HR Hi. pose proof HR as (_ & _ & H). destruct (H i Hi) as (w & Hw & Hu & _).
  unfold bits_set. rewrite Hw. simpl. eexists. split; [done|].
  eapply represents_update; [done|done|done|by apply lor_u64, bit_of_u64|set_solver|].
  intros j E _. rewrite Z.lor_spec, bit_of_testbit. case_decide as D.
  - subst. rewrite !bool_decide_true by set_solver. by rewrite orb_true_r.
  - rewrite bool_decide_false; [by rewrite orb_false_r|]. intros E'. apply D. symmetry.
    by apply same_bit.
Qed.

Lemma represents_clear n bits L i :
  represents n bits ({[i]} ∪ L) -> i ∉ L ->
  exists bits', bits_clear bits i = Some bits' /\ represents n bits' L.
Proof.
  intros HR HiL. pose proof HR as (_ & HL & H). assert (Hi : (i < n)%nat) by set_solver.
  destruct (H i Hi) as (w & Hw & Hu & _).
  unfold bits_clear. rewrite Hw. simpl. eexists. split; [done|].
  assert (Hmask : is_u64 (Z.lxor U64_MAX (bit_of i))).
  { apply lxor_u64; [unfold is_u64, U64_MAX; lia|]. apply bit_of_u64. }
  eapply represents_update; [done|done|done| |set_solver|].
  { apply u64_bits; [apply Z.land_nonneg; left; apply Hu|]. intros k Hk.
    by rewrite Z.land_spec, u64_testbit. }
  intros j E _. rewrite Z.land_spec, Z.lxor_spec, bit_of_testbit.
  assert (Z.testbit U64_MAX (Z.of_nat (j mod 64)) = true) as ->.
  { change U64_MAX with (Z.ones 64). apply Z.ones_spec_low.
    pose proof (Nat.mod_upper_bound j 64 ltac:(lia)). lia. }
  case_decide as D.
  - subst. rewrite bool_decide_true by done. simpl. rewrite andb_false_r.
    symmetry. by apply bool_decide_eq_false.
  - rewrite bool_decide_false; [by rewrite andb_true_r|]. intros E'. apply D. symmetry.
    by apply same_bit.
Qed.

(** ** The order of calls and returns *)

Definition slot_tag (s : Slot) : nat * bool := (sl_op s, sl_call s).

#[export] Instance slot_le_trans : Transitive slot_le.
Proof. intros x y z. unfold slot_le, slot_key_le. kv_bool. destruct (sl_call x), (sl_call y), (sl_call z); simpl; lia. Qed.
#[export] Instance slot_le_total : Total slot_le.
Proof. intros x y. unfold slot_le, slot_key_le. destruct (sl_call x), (sl_call y); simpl; lia. Qed.

Definition entries (k : nat) (ops : list Operation) : list Slot :=
  concat (imap (fun i op => [call_slot (k + i) op; return_slot (k + i) op]) ops).

Lemma entries_cons k op ops :
  entries k (op :: ops) = call_slot k op :: return_slot k op :: entries (S k) ops.
Proof.
  unfold entries. simpl. rewrite Nat.add_0_r. do 3 f_equal.
  apply imap_ext. intros i x _. simpl. by rewrite Nat.add_succ_r.
Qed.

Lemma entries_elem k ops s :
  s ∈ entries k ops <->
  exists i op, ops !! i = Some op /\
    (s = call_slot (k + i) op \/ s = return_slot (k + i) op).
Proof.
  revert k. induction ops as [|op ops IH]; intros k.
  - unfold entries. simpl. split; [by intros ?%elem_of_nil|naive_solver].
  - rewrite entries_cons, !elem_of_cons, IH. split.
    + intros [->|[->|(i & o & Ho & Hs)]]; [exists 0%nat, op..|exists (S i), o];
        rewrite ?Nat.add_0_r, ?Nat.add_succ_r; auto.
    + intros ([|i] & o & Ho & Hs); simpl in Ho.
      * simplify_eq. rewrite Nat.add_0_r in Hs. tauto.
      * right; right. exists i, o. rewrite Nat.add_succ_r in Hs. done.
Qed.

Lemma entries_NoDup k ops : NoDup (map slot_tag (entries k ops)).
Proof.
  revert k. induction ops as [|op ops IH]; intros k; [constructor|].
  rewrite entries_cons. simpl.
  assert (Hnew : forall b, (k, b) ∉ map slot_tag (entries (S k) ops)).
  { intros b (s & E & Hs)%list_elem_of_fmap.
    apply entries_elem in Hs as (i & o & _ & [->| ->]); injection E; lia. }
  constructor; [|constructor; [|apply IH]]; [|apply Hnew].
  rewrite elem_of_cons. intros [E|E]; [discriminate|by apply Hnew in E].
Qed.

Lemma length_entries k ops : length (entries k ops) = (2 * length ops)%nat.
Proof.
  revert k. induction ops as [|op ops IH]; intros k; [done|].
  rewrite entries_cons. simpl. rewrite IH. lia.
Qed.

Section Order.
Context (ops : list Operation).
Notation n := (length ops).
Notation order := (slots ops).

Lemma slots_elem s :
  s ∈ order <-> exists i op, ops !! i = Some op /\ (s = call_slot i op \/ s = return_slot i op).
Proof. unfold slots. rewrite (merge_sort_Permutation slot_le). apply (entries_elem 0). Qed.

Lemma slots_NoDup : NoDup (map slot_tag order).
Proof. unfold slots. rewrite (merge_sort_Permutation slot_le). apply (entries_NoDup 0). Qed.

Lemma length_slots : length order = (2 * n)%nat.
Proof.
  unfold slots. rewrite (merge_sort_Permutation slot_le). apply (length_entries 0).
Qed.

(** The slot of the call ([b = true]) or the return of operation [i]. *)
Definition slot_of (b : bool) (i : nat) (op : Operation) : Slot :=
  if b then call_slot i op else return_slot i op.

Lemma slot_at p s :
  order !! p = Some s ->
  exists op, ops !! sl_op s = Some op /\ s = slot_of (sl_call s) (sl_op s) op.
Proof.
  intros H%list_elem_of_lookup_2. apply slots_elem in H as (i & op & Hop & [->| ->]);
    exists op; done.
Qed.

(** Two positions with the same operation and kind are one. *)
Lemma position_unique p q s t :
  order !! p = Some s -> order !! q = Some t -> slot_tag s = slot_tag t -> p = q.
Proof.
  intros Hp Hq E. eapply NoDup_lookup; [apply slots_NoDup|..].
  - by rewrite list_lookup_fmap, Hp.
  - by rewrite list_lookup_fmap, Hq, E.
Qed.

Lemma position_of_Some b i op :
  ops !! i = Some op ->
  exists p, position_of order i b = Some p /\ order !! p = Some (slot_of b i op).
Proof.
  intros Hop. assert (Hs : slot_of b i op ∈ order).
  { apply slots_elem. exists i, op. split; [done|]. destruct b; auto. }
  unfold position_of.
  destruct (list_find_elem_of (fun s => sl_op s = i /\ sl_call s = b) _ _ Hs)
    as [[p t] Hf]; [by destruct b|].
  rewrite Hf. simpl. exists p. split; [done|].
  apply list_find_Some in Hf as (Hp & [Ei Eb] & _). rewrite Hp. f_equal.
  apply slot_at in Hp as (op' & Hop' & E). rewrite Ei in Hop'. rewrite E, Ei, Eb. congruence.
Qed.

Lemma position_of_inv b i p :
  position_of order i b = Some p ->
  exists op, ops !! i = Some op /\ order !! p = Some (slot_of b i op).
Proof.
  unfold position_of. intros ([q t] & Hf & ->)%fmap_Some.
  apply list_find_Some in Hf as (Hp & [Ei Eb] & _). simpl.
  destruct (slot_at _ _ Hp) as (op & Hop & E). rewrite Ei in Hop. exists op. split; [done|].
  by rewrite Hp, E, Eb, Ei.
Qed.

Lemma slots_sorted p q s t :
  order !! p = Some s -> order !! q = Some t -> (p < q)%nat -> slot_le s t.
Proof.
  intros Hp Hq Hlt.
  assert (HS : StronglySorted slot_le order) by (apply StronglySorted_merge_sort; apply _).
  rewrite <-(take_drop (S p) order) in HS.
  eapply StronglySorted_app_1_elem_of; [exact HS|
    apply list_elem_of_lookup_2 with (i := p)|
    apply list_elem_of_lookup_2 with (i := (q - S p)%nat)].
  - by rewrite lookup_take_lt by lia.
  - rewrite lookup_drop. by replace (S p + (q - S p))%nat with q by lia.
Qed.

(** The positions of the operations outside [L], in order. *)
Definition unpicked (L : gset nat) (p : nat) : bool :=
  if order !! p is Some s then bool_decide (sl_op s ∉ L) else false.
Definition live (L : gset nat) : list nat := filter (unpicked L) (seq 0 (2 * n)).

Lemma live_elem L p : p ∈ live L <-> exists s, order !! p = Some s /\ sl_op s ∉ L.
Proof.
  unfold live. rewrite list_elem_of_filter, elem_of_seq. unfold unpicked. split.
  - intros [H _]. destruct (order !! p) as [s|]; [|done]. exists s.
    split; [done|]. by apply bool_decide_spec in H.
  - intros (s & Hs & Hn). apply lookup_lt_Some in Hs as Hl. rewrite length_slots in Hl.
    rewrite Hs. split; [by apply bool_decide_spec|lia].
Qed.

Lemma live_sorted L : StronglySorted lt (live L).
Proof.
  unfold live. cut (forall k a, StronglySorted lt (filter (unpicked L) (seq a k))); [auto|].
  intros k. induction k as [|k IH]; intros a; [constructor|].
  rewrite <-cons_seq, filter_cons. case_decide; [|apply IH]. constructor; [apply IH|]. apply Forall_forall.
  intros p [_ Hp%elem_of_seq]%list_elem_of_filter. lia.
Qed.

Lemma sorted_unique (l l' : list nat) :
  StronglySorted lt l -> StronglySorted lt l' -> (forall p, p ∈ l <-> p ∈ l') -> l = l'.
Proof.
  revert l'. induction l as [|a l IH]; intros [|b l'] Hl Hl' E; [done|..].
  - exfalso. apply (not_elem_of_nil b), E. by left.
  - exfalso. apply (not_elem_of_nil a), E. by left.
  - apply StronglySorted_inv in Hl as [Hl Ha]. apply StronglySorted_inv in Hl' as [Hl' Hb].
    rewrite Forall_forall in Ha, Hb.
    assert (a = b) as ->.
    { pose proof (proj1 (E a) ltac:(by left)) as [?|Hab%Hb]%elem_of_cons; [done|].
      pose proof (proj2 (E b) ltac:(by left)) as [?|Hba%Ha]%elem_of_cons; [done|]. lia. }
    f_equal. apply IH; [done..|]. intros p. specialize (E p). rewrite !elem_of_cons in E.
    split; intros Hp; [pose proof (Ha p Hp)|pose proof (Hb p Hp)];
      destruct E as [E1 E2]; [destruct E1|destruct E2]; auto; lia.
Qed.

Lemma sorted_drop (l1 l2 : list nat) x :
  StronglySorted lt (l1 ++ x :: l2) -> StronglySorted lt (l1 ++ l2).
Proof.
  rewrite !StronglySorted_app, StronglySorted_cons. intros (H12 & H1 & _ & H2).
  split; [|done]. intros a b Ha Hb. apply H12; [done|by right].
Qed.

Lemma sorted_around (l1 l2 : list nat) x p :
  StronglySorted lt (l1 ++ x :: l2) ->
  p ∈ l1 ++ x :: l2 -> (p ∈ l1 /\ (p < x)%nat) \/ p = x \/ (p ∈ l2 /\ (x < p)%nat).
Proof.
  rewrite StronglySorted_app, StronglySorted_cons, elem_of_app, elem_of_cons, Forall_forall.
  intros (H12 & H1 & Hx & H2) [Hp|[->|Hp]]; [left|by right; left|right; right]; split; auto.
  apply H12; [done|by left].
Qed.

(** Picking an operation takes out its call and its return. *)
Lemma live_pick L i c r l1 l2 l3 op :
  ops !! i = Some op -> order !! c = Some (call_slot i op) ->
  order !! r = Some (return_slot i op) ->
  live L = l1 ++ c :: l2 ++ r :: l3 -> live ({[i]} ∪ L) = l1 ++ l2 ++ l3.
Proof.
  intros Hop Hc Hr E. pose proof (live_sorted L) as Hs. rewrite E in Hs.
  pose proof Hs as Hs'. apply sorted_drop in Hs'. rewrite app_assoc in Hs'.
  pose proof Hs' as Hsr. apply sorted_drop in Hs'. rewrite <-app_assoc in Hs'.
  apply sorted_unique; [apply live_sorted|done|]. intros p.
  assert (Hmem : p ∈ live L <-> p = c \/ p = r \/ p ∈ l1 ++ l2 ++ l3).
  { rewrite E. rewrite !elem_of_app, elem_of_cons, elem_of_app, elem_of_cons. tauto. }
  assert (Hne : p ∈ l1 ++ l2 ++ l3 -> p ≠ c /\ p ≠ r).
  { assert (ND : forall l : list nat, StronglySorted lt l -> NoDup l).
    { intros l. induction 1 as [|a l _ IH Ha]; constructor; [|done].
      rewrite Forall_forall in Ha. intros Ha'%Ha. lia. }
    apply ND in Hs. rewrite <-Permutation_middle, NoDup_cons in Hs. destruct Hs as [Nc Hs].
    rewrite app_assoc, <-Permutation_middle, <-app_assoc, NoDup_cons in Hs.
    intros Hp. split; intros ->; [apply Nc|by apply Hs].
    rewrite !elem_of_app in *. rewrite elem_of_cons. tauto. }
  rewrite live_elem. split.
  - intros (s & Hp & Hn). assert (Hl : p ∈ live L) by (apply live_elem; set_solver).
    apply Hmem in Hl as [->|[->|?]]; [| |done];
      rewrite ?Hc, ?Hr in Hp; simplify_eq; simpl in Hn; set_solver.
  - intros Hp. pose proof (proj2 Hmem ltac:(by right; right)) as (s & Hps & Hn)%live_elem.
    exists s. split; [done|]. intros [Hi%elem_of_singleton|?]%elem_of_union; [|done].
    destruct (slot_at _ _ Hps) as (op' & Hop' & Es). rewrite Hi, Hop in Hop'.
    injection Hop' as <-. destruct (Hne Hp) as [N1 N2]. rewrite Es, Hi in Hps.
    destruct (sl_call s); [apply N1|apply N2]; eapply position_unique; eauto.
Qed.

End Order.

(** ** The list as it is built *)

Section Built.
Context (ops : list Operation).
Notation n := (length ops).
Notation order := (slots ops).
Notation nodes0 := (build_nodes order).

Lemma built_slot p s : order !! p = Some s -> nodes0 !! p = Some (build_node order p s).
Proof.
  intros Hp. unfold build_nodes. rewrite lookup_app_l.
  - by rewrite list_lookup_imap, Hp.
  - rewrite length_imap. by eapply lookup_lt_Some.
Qed.

Lemma built_sentinel :
  nodes0 !! (2 * n)%nat = Some (mkNode false None None (2 * n - 1) 0).
Proof.
  unfold build_nodes. rewrite lookup_app_r; rewrite length_imap, length_slots; [|done].
  by rewrite Nat.sub_diag.
Qed.

Lemma built_linked p : (S p < 2 * n)%nat -> linked nodes0 p (S p).
Proof.
  intros Hp. destruct (lookup_lt_is_Some_2 order p) as [s Hs]; [rewrite length_slots; lia|].
  destruct (lookup_lt_is_Some_2 order (S p)) as [t Ht]; [rewrite length_slots; lia|].
  split; [by rewrite (lookup_nxt _ _ _ (built_slot _ _ Hs))|].
  rewrite (lookup_prv _ _ _ (built_slot _ _ Ht)). simpl. f_equal. lia.
Qed.

Lemma built_segment k p :
  (p + k < 2 * n)%nat -> links nodes0 p (seq (S p) k) (2 * n)%nat <-> 
  links nodes0 (p + k) [] (2 * n)%nat.
Proof.
  revert p. induction k as [|k IH]; intros p Hp; [by rewrite Nat.add_0_r|].
  rewrite <-cons_seq. change (links nodes0 p (S p :: ?l) ?b) with
    (linked nodes0 p (S p) /\ links nodes0 (S p) l b).
  rewrite IH by lia. rewrite Nat.add_succ_comm.
  split; [tauto|]. split; [apply built_linked; lia|done].
Qed.

Lemma built_circle : ops ≠ [] -> circle nodes0 (2 * n)%nat (seq 0 (2 * n)).
Proof.
  intros Hne. assert (Hn : (0 < n)%nat) by (destruct ops; simpl in *; [done|lia]).
  split; [|constructor; [rewrite elem_of_seq; lia|apply NoDup_seq]].
  destruct (lookup_lt_is_Some_2 order 0%nat) as [s Hs]; [rewrite length_slots; lia|].
  destruct (lookup_lt_is_Some_2 order (2 * n - 1)) as [t Ht]; [rewrite length_slots; lia|].
  replace (2 * n)%nat with (S (2 * n - 1)) at 2 by lia. rewrite <-cons_seq. split.
  - split; [by rewrite (lookup_nxt _ _ _ built_sentinel)|].
    rewrite (lookup_prv _ _ _ (built_slot _ _ Hs)). simpl. by rewrite length_slots.
  - apply built_segment; [lia|]. rewrite Nat.add_0_l. split.
    + rewrite (lookup_nxt _ _ _ (built_slot _ _ Ht)). simpl. f_equal. lia.
    + by rewrite (lookup_prv _ _ _ built_sentinel).
Qed.

Lemma live_nothing : live ops ∅ = seq 0 (2 * n).
Proof.
  apply sorted_unique; [apply live_sorted| |].
  - cut (forall k a, StronglySorted lt (seq a k)); [auto|].
    intros k. induction k as [|k IH]; intros a; [constructor|].
    rewrite <-cons_seq. constructor; [apply IH|]. apply Forall_forall.
    intros p Hp%elem_of_seq. lia.
  - intros p. rewrite live_elem, elem_of_seq. split.
    + intros (s & Hs%lookup_lt_Some & _). rewrite length_slots in Hs. lia.
    + intros Hp. destruct (lookup_lt_is_Some_2 order p) as [s Hs]; [rewrite length_slots; lia|].
      exists s. split; [done|set_solver].
Qed.

(** Every list of nodes with the core of the built one reads like it. *)
Lemma core_slot nodes p s :
  core nodes = core nodes0 -> order !! p = Some s ->
  exists x, nodes !! p = Some x /\ nd_is_call x = sl_call s /\ nd_op x = Some (sl_op s) /\
    nd_matching x = position_of order (sl_op s) (negb (sl_call s)).
Proof.
  intros Hc Hs. assert (E : core nodes !! p = core nodes0 !! p) by by rewrite Hc.
  unfold core in E. rewrite !list_lookup_fmap, (built_slot _ _ Hs) in E.
  destruct (nodes !! p) as [x|]; [|done]. simpl in E. exists x. naive_solver.
Qed.

Lemma core_sentinel nodes :
  core nodes = core nodes0 -> is_Some (nodes !! (2 * n)%nat).
Proof. intros Hc. apply (core_is_Some nodes0); [done|]. rewrite built_sentinel. by eexists. Qed.

End Built.

(** ** Orders of the operations that the search looks for *)

Section Completes.
Context (ops : list Operation).
Notation n := (length ops).
Notation order := (slots ops).

(** No operation outside [L] returns before operation [i] is called. *)
Definition enabled (L : gset nat) (i : nat) : Prop :=
  forall j c r, (j < n)%nat -> j ∉ L -> position_of order i true = Some c ->
    position_of order j false = Some r -> (c < r)%nat.

(** The operations outside [L] can be put in an order that the model accepts. *)
Inductive completes : gset nat -> Reg -> Prop :=
| completes_all L s : (forall i, (i < n)%nat -> i ∈ L) -> completes L s
| completes_pick L s i op s' :
    i ∉ L -> ops !! i = Some op -> enabled L i -> reg_step s op = (true, s') ->
    completes ({[i]} ∪ L) s' -> completes L s.

(** Nothing comes of choosing the call at [p] in state [s]. *)
Definition dead (L : gset nat) (s : Reg) (p : nat) : Prop :=
  exists i op, ops !! i = Some op /\ order !! p = Some (call_slot i op) /\
    forall s', reg_step s op = (true, s') -> ~ completes ({[i]} ∪ L) s'.

Lemma dead_call L s p : dead L s p -> exists i op, ops !! i = Some op /\ order !! p = Some (call_slot i op).
Proof. intros (i & op & ? & ? & _). eauto. Qed.

(** A call with no return before it in the list is enabled. *)
Lemma enabled_live L s l1 c l2 i op :
  live ops L = l1 ++ c :: l2 -> Forall (dead L s) l1 ->
  ops !! i = Some op -> order !! c = Some (call_slot i op) -> enabled L i.
Proof.
  intros E Hd Hop Hc j c' r Hj HjL Hc' Hr.
  apply position_of_inv in Hc' as (op' & Hop' & Hc'). rewrite Hop in Hop'. injection Hop' as <-.
  assert (c' = c) as -> by (eapply position_unique; eauto).
  apply position_of_inv in Hr as (opj & Hopj & Hr).
  assert (Hlive : r ∈ live ops L) by (apply live_elem; eauto).
  rewrite E in Hlive. pose proof (live_sorted ops L) as Hs. rewrite E in Hs.
  apply (sorted_around _ _ _ _ Hs) in Hlive as [[Hr1 _]|[->|[_ ?]]]; [| |done].
  - rewrite Forall_forall in Hd. apply Hd, dead_call in Hr1 as (k & opk & _ & Hk). rewrite Hr in Hk. discriminate.
  - rewrite Hc in Hr. discriminate.
Qed.

(** Dead calls up to a return: the prefix cannot be completed. *)
Lemma stuck L s l1 e l2 j op :
  live ops L = l1 ++ e :: l2 -> Forall (dead L s) l1 ->
  ops !! j = Some op -> order !! e = Some (return_slot j op) -> ~ completes L s.
Proof.
  intros E Hd Hopj He Hcomp.
  assert (Hj : (j < n)%nat) by by eapply lookup_lt_Some.
  assert (HjL : j ∉ L).
  { assert (He' : e ∈ live ops L) by (rewrite E; apply elem_of_app; right; by left).
    apply live_elem in He' as (s' & Hs' & Hn). rewrite He in Hs'. by injection Hs' as <-. }
  destruct Hcomp as [L s Hall|L s i opi s' HiL Hopi Hen Hstep Hcomp]; [by apply HjL, Hall|].
  destruct (position_of_Some ops true i opi Hopi) as (c & Hc & Hoc).
  destruct (position_of_Some ops false j op Hopj) as (r & Hr & Hor).
  assert (r = e) as -> by (eapply position_unique; eauto).
  assert (Hlt : (c < e)%nat) by by eapply Hen.
  assert (Hlive : c ∈ live ops L) by (apply live_elem; eauto).
  rewrite E in Hlive. pose proof (live_sorted ops L) as Hs. rewrite E in Hs.
  apply (sorted_around _ _ _ _ Hs) in Hlive as [[Hc1 _]|[->|[_ ?]]]; [|lia|lia].
  rewrite Forall_forall in Hd. apply Hd in Hc1 as (k & opk & Hk & Hok & Hdead).
  rewrite Hoc in Hok. injection Hok as E1 E2 <-. rewrite Hopi in Hk. injection Hk as <-.
  by apply (Hdead s').
Qed.

End Completes.

(** ** The invariant of the search *)

Section Invariant.
Context (ops : list Operation) (Hne : ops ≠ []).
Notation n := (length ops).
Notation order := (slots ops).
Notation nodes0 := (build_nodes order).

(** The stack of choices, each made at a call with only dead calls before it; the
    second list records the set and the state that each choice led to. *)
Inductive frames :
  list (nat * Reg) -> list (gset nat * Reg) -> list Node -> gset nat -> Reg -> Prop :=
| frames_nil : frames [] [] nodes0 ∅ Absent
| frames_cons calls path nodes L s i op c r l1 l2 l3 n1 n2 s' :
    frames calls path nodes L s ->
    live ops L = l1 ++ c :: l2 ++ r :: l3 -> Forall (dead ops L s) l1 ->
    ops !! i = Some op -> i ∉ L -> order !! c = Some (call_slot i op) ->
    position_of order i false = Some r -> reg_step s op = (true, s') ->
    unlink nodes c = Some n1 -> unlink n1 r = Some n2 ->
    frames ((c, s) :: calls) (({[i]} ∪ L, s') :: path) n2 ({[i]} ∪ L) s'.

(** Choosing: the two nodes come out, and going back restores them exactly. *)
Lemma choose_nodes nodes L l1 c l2 r l3 i op :
  core nodes = core nodes0 -> circle nodes (2 * n)%nat (live ops L) ->
  live ops L = l1 ++ c :: l2 ++ r :: l3 -> ops !! i = Some op ->
  order !! c = Some (call_slot i op) -> position_of order i false = Some r ->
  exists n1 n2, unlink nodes c = Some n1 /\ unlink n1 r = Some n2 /\
    core n2 = core nodes0 /\ circle n2 (2 * n)%nat (live ops ({[i]} ∪ L)) /\
    relink n2 r = Some n1 /\ relink n1 c = Some nodes.
Proof.
  intros Hcore Hcir E Hop Hc Hr. rewrite E in Hcir.
  apply unlink_circle in Hcir as (n1 & Hu1 & Hcir & Hc1 & Hr1). rewrite app_assoc in Hcir.
  apply unlink_circle in Hcir as (n2 & Hu2 & Hcir & Hc2 & Hr2). rewrite <-app_assoc in Hcir.
  apply position_of_inv in Hr as (op' & Hop' & Hr). rewrite Hop in Hop'. injection Hop' as <-.
  exists n1, n2. rewrite (live_pick ops L i c r l1 l2 l3 op) by done.
  repeat split; try done; try congruence; apply Hcir.
Qed.

Lemma frames_nodes calls path nodes L s :
  frames calls path nodes L s ->
  core nodes = core nodes0 /\ circle nodes (2 * n)%nat (live ops L).
Proof.
  induction 1 as [|calls path nodes L s i op c r l1 l2 l3 n1 n2 s' Hf [IH1 IH2] E Hd Hop Hi Hc Hr
    Hstep Hu1 Hu2].
  - split; [done|]. rewrite live_nothing. by apply built_circle.
  - destruct (choose_nodes nodes L l1 c l2 r l3 i op) as (m1 & m2 & H1 & H2 & ? & ? & _ & _);
      [done..|]. rewrite Hu1 in H1. injection H1 as <-. rewrite Hu2 in H2. injection H2 as <-. done.
Qed.

Lemma frames_completes calls path nodes L s :
  frames calls path nodes L s -> completes ops L s -> completes ops ∅ Absent.
Proof.
  induction 1 as [|calls path nodes L s i op c r l1 l2 l3 n1 n2 s' Hf IH E Hd Hop Hi Hc Hr
    Hstep Hu1 Hu2]; [done|].
  intros Hcomp. apply IH. eapply completes_pick; [done|done| |done|done].
  eapply enabled_live; eauto.
Qed.

Lemma frames_path calls path nodes L s M t :
  frames calls path nodes L s -> (M, t) ∈ path -> M ⊆ L.
Proof.
  induction 1 as [|calls path nodes L s i op c r l1 l2 l3 n1 n2 s' Hf IH E Hd Hop Hi Hc Hr
    Hstep Hu1 Hu2]; [by intros ?%elem_of_nil|].
  intros [[= -> ->]|Hp]%elem_of_cons; [done|]. apply IH in Hp. set_solver.
Qed.

(** The memo table: each entry is on the path, or a dead end. *)
Definition cache_ok (cache : gset (list Z * Reg)) (path : list (gset nat * Reg)) : Prop :=
  forall b t, (b, t) ∈ cache ->
    (exists M, (M, t) ∈ path /\ represents n b M) \/
    (forall M, represents n b M -> ~ completes ops M t).

(** The entry is in the list, with only dead calls before it. *)
Definition search_ok (s : Search) : Prop :=
  exists path L l1 l2,
    frames (sr_calls s) path (sr_nodes s) L (sr_state s) /\
    represents n (sr_linearized s) L /\ cache_ok (sr_cache s) path /\
    live ops L ++ [(2 * n)%nat] = l1 ++ sr_entry s :: l2 /\
    Forall (dead ops L (sr_state s)) l1.

Lemma entry_split L l1 e l2 :
  live ops L ++ [(2 * n)%nat] = l1 ++ e :: l2 ->
  (e = (2 * n)%nat /\ l1 = live ops L) \/
  (exists l2', live ops L = l1 ++ e :: l2' /\ e ≠ (2 * n)%nat).
Proof.
  intros E. destruct l2 as [|x l2 _] using rev_ind.
  - apply app_inj_tail in E as [-> ->]. by left.
  - rewrite app_comm_cons, app_assoc in E. apply app_inj_tail in E as [E _]. right.
    exists l2. split; [done|]. assert (He : e ∈ live ops L) by (rewrite E; set_solver).
    apply live_elem in He as (s & Hs%lookup_lt_Some & _). rewrite length_slots in Hs. lia.
Qed.

(** Reaching the end of the list: everything is linearized. *)
Lemma search_done s :
  search_ok s -> sr_entry s = (2 * n)%nat -> completes ops ∅ Absent.
Proof.
  intros (path & L & l1 & l2 & Hf & _ & _ & E & Hd) He.
  apply entry_split in E as [[_ ->]|(l2' & _ & Hx)]; [|done].
  eapply frames_completes; [done|]. apply completes_all. intros i Hi.
  destruct (decide (i ∈ L)) as [|Hn]; [done|].
  destruct (lookup_lt_is_Some_2 ops i Hi) as [op Hop].
  destruct (position_of_Some ops false i op Hop) as (r & _ & Hr).
  assert (Hl : r ∈ live ops L) by (apply live_elem; eauto).
  rewrite Forall_forall in Hd. apply Hd, dead_call in Hl as (j & opj & _ & Hj).
  rewrite Hr in Hj. discriminate.
Qed.

(** Moving on from a dead call. *)
Lemma skip_ok s path L l1 l2 x :
  frames (sr_calls s) path (sr_nodes s) L (sr_state s) ->
  represents n (sr_linearized s) L -> cache_ok (sr_cache s) path ->
  live ops L = l1 ++ sr_entry s :: l2 -> Forall (dead ops L (sr_state s)) l1 ->
  dead ops L (sr_state s) (sr_entry s) -> sr_nodes s !! sr_entry s = Some x ->
  search_ok (mkSearch (sr_nodes s) (sr_linearized s) (sr_cache s) (sr_calls s) (sr_state s)
               (nd_next x)).
Proof.
  intros Hf Hr Hc E Hd He Hx. apply frames_nodes in Hf as Hn. destruct Hn as [_ Hcir].
  rewrite E in Hcir. apply circle_around in Hcir as [_ [Hnx _]].
  rewrite (lookup_nxt _ _ _ Hx) in Hnx. injection Hnx as Hnx.
  exists path, L, (l1 ++ [sr_entry s]), (List.tl (l2 ++ [(2 * n)%nat])). simpl.
  split; [done|]. split; [done|]. split; [done|]. split.
  - rewrite E, Hnx, <-!app_assoc. simpl. do 2 f_equal. by destruct l2.
  - apply Forall_app. split; [done|]. by constructor.
Qed.

(** The slot that a node in the list reads as. *)
Lemma entry_node s path L l1 l2 x :
  frames (sr_calls s) path (sr_nodes s) L (sr_state s) ->
  live ops L = l1 ++ sr_entry s :: l2 -> sr_nodes s !! sr_entry s = Some x ->
  exists b i op, nd_is_call x = b /\ nd_op x = Some i /\ ops !! i = Some op /\ i ∉ L /\
    order !! sr_entry s = Some (slot_of b i op) /\ nd_matching x = position_of order i (negb b).
Proof.
  intros Hf E Hx. assert (He : sr_entry s ∈ live ops L) by (rewrite E; set_solver).
  apply live_elem in He as (t & Ht & Hn).
  apply frames_nodes in Hf as [Hc _].
  destruct (core_slot _ _ _ _ Hc Ht) as (y & Hy & H1 & H2 & H3). rewrite Hx in Hy.
  injection Hy as <-. destruct (slot_at _ _ _ Ht) as (op & Hop & Es).
  exists (sl_call t), (sl_op t), op. repeat split; try done. by rewrite Ht, <-Es.
Qed.

Lemma head_ok nodes L :
  core nodes = core nodes0 -> circle nodes (2 * n)%nat (live ops L) ->
  exists x l2, nodes !! (2 * n)%nat = Some x /\ live ops L ++ [(2 * n)%nat] = nd_next x :: l2.
Proof.
  intros Hc [Hl _]. destruct (core_sentinel _ _ Hc) as [x Hx].
  exists x, (List.tl (live ops L ++ [(2 * n)%nat])). split; [done|].
  destruct (live ops L) as [|p l].
  - destruct Hl as [Hn _]. rewrite (lookup_nxt _ _ _ Hx) in Hn. by injection Hn as ->.
  - destruct Hl as [[Hn _] _]. rewrite (lookup_nxt _ _ _ Hx) in Hn. by injection Hn as ->.
Qed.

(** The return of a call with only calls before it comes later in the list. *)
Lemma return_later L s l1 c l2 i op r :
  live ops L = l1 ++ c :: l2 -> Forall (dead ops L s) l1 -> ops !! i = Some op -> i ∉ L ->
  order !! c = Some (call_slot i op) -> position_of order i false = Some r ->
  exists l2a l2b, l2 = l2a ++ r :: l2b.
Proof.
  intros E Hd Hop Hi Hc Hr. apply list_elem_of_split.
  apply position_of_inv in Hr as (op' & Hop' & Hr). rewrite Hop in Hop'. injection Hop' as <-.
  assert (Hl : r ∈ live ops L) by (apply live_elem; eauto).
  rewrite E, elem_of_app, elem_of_cons in Hl. destruct Hl as [Hl|[->|Hl]]; [| |done].
  - rewrite Forall_forall in Hd. apply Hd, dead_call in Hl as (j & opj & _ & Hj).
    rewrite Hr in Hj. discriminate.
  - rewrite Hc in Hr. discriminate.
Qed.

Lemma try_call_ok s x :
  search_ok s -> sr_entry s ≠ (2 * n)%nat -> sr_nodes s !! sr_entry s = Some x ->
  nd_is_call x = true -> exists s', try_call ops s x = Some s' /\ search_ok s'.
Proof.
  intros (path & L & l1 & l2 & Hf & Hbits & Hcache & E & Hd) He Hx Hcall.
  apply entry_split in E as [[? _]|(l2' & E & _)]; [done|].
  destruct (entry_node _ _ _ _ _ _ Hf E Hx) as (b & i & op & Hb & Hi & Hop & HiL & Hc & Hm).
  rewrite Hcall in Hb. subst b. simpl in Hm.
  destruct (position_of_Some ops false i op Hop) as (r & Hr & _). rewrite Hr in Hm.
  assert (Hin : (i < n)%nat) by by eapply lookup_lt_Some.
  unfold try_call. rewrite Hi. simpl. rewrite Hop. simpl.
  destruct (reg_step (sr_state s) op) as [[] s'] eqn:Hstep; [|eexists; split; [done|]].
  2:{ eapply skip_ok; eauto. exists i, op. repeat split; [done..|]. intros s'' Hs''. congruence. }
  destruct (represents_set n _ L i Hbits Hin) as (bits & Hset & Hbits').
  rewrite Hset. simpl. destruct (decide _) as [Hhit|Hmiss].
  - eexists. split; [done|]. eapply skip_ok; eauto. exists i, op. split; [done|]. split; [done|].
    intros s'' Hs''. rewrite Hstep in Hs''. injection Hs'' as <-.
    destruct (Hcache _ _ Hhit) as [(M & HM & HR)|Hfail]; [|by apply Hfail].
    exfalso. rewrite (represents_inj _ _ _ _ HR Hbits') in HM.
    apply (frames_path _ _ _ _ _ _ _ Hf) in HM. set_solver.
  - destruct (return_later _ _ _ _ _ _ _ _ E Hd Hop HiL Hc Hr) as (l2a & l2b & ->).
    destruct (frames_nodes _ _ _ _ _ Hf) as [Hcore Hcir].
    destruct (choose_nodes _ L l1 _ l2a r l2b i op Hcore Hcir E Hop Hc Hr)
      as (n1 & n2 & Hu1 & Hu2 & Hcore2 & Hcir2 & _ & _).
    rewrite Hm. simpl. rewrite Hu1. simpl. rewrite Hu2. simpl.
    destruct (head_ok n2 _ Hcore2 Hcir2) as (h & lh & Hh & Eh). unfold sentinel. rewrite Hh.
    simpl. eexists. split; [done|].
    exists (({[i]} ∪ L, s') :: path), ({[i]} ∪ L), [], lh. simpl.
    split; [by eapply frames_cons|]. split; [done|]. split; [|split; [done|constructor]].
    intros b t [[= -> ->]%elem_of_singleton|Hin']%elem_of_union.
    + left. exists ({[i]} ∪ L). split; [by left|done].
    + destruct (Hcache _ _ Hin') as [(M & ? & ?)|?]; [left|by right].
      exists M. split; [by right|done].
Qed.

Lemma backtrack_ok s x :
  search_ok s -> sr_entry s ≠ (2 * n)%nat -> sr_nodes s !! sr_entry s = Some x ->
  nd_is_call x = false ->
  match sr_calls s with
  | [] => ~ completes ops ∅ Absent
  | (call, prior) :: calls => exists s', backtrack s call prior calls = Some s' /\ search_ok s'
  end.
Proof.
  intros (path & L & l1 & l2 & Hf & Hbits & Hcache & E & Hd) He Hx Hcall.
  apply entry_split in E as [[? _]|(l2' & E & _)]; [done|].
  destruct (entry_node _ _ _ _ _ _ Hf E Hx) as (b & j & opj & Hb & _ & Hopj & _ & Hret & _).
  rewrite Hcall in Hb. subst b.
  assert (Hstuck : ~ completes ops L (sr_state s)) by by eapply stuck.
  inversion Hf as [E1 E2 E3 E4 E5|calls path' nodes M p i op c r k1 k2 k3 n1 n2 s' Hf' Ek Hdk Hop
    HiM Hc Hr Hstep Hu1 Hu2 E1 E2 E3 E4 E5]; [by rewrite <-E4, <-E5 in Hstuck|].
  subst path L. rewrite <-E5 in Hstuck.
  destruct (frames_nodes _ _ _ _ _ Hf') as [Hcore Hcir].
  destruct (choose_nodes nodes M k1 c k2 r k3 i op Hcore Hcir Ek Hop Hc Hr)
    as (m1 & m2 & Hm1 & Hm2 & Hcore2 & _ & Hr2 & Hr1).
  rewrite Hu1 in Hm1. injection Hm1 as <-. rewrite Hu2 in Hm2. injection Hm2 as <-.
  rewrite <-E3 in *.
  destruct (core_slot _ _ _ _ Hcore2 Hc) as (y & Hy & _ & Hyi & Hym). simpl in Hyi, Hym.
  destruct (core_slot _ _ _ _ Hcore Hc) as (z & Hz & _).
  destruct (represents_clear _ _ _ _ Hbits HiM) as (bits & Hclr & Hbits').
  eexists. split.
  { unfold backtrack. rewrite <-E3, Hy. simpl. rewrite Hyi. simpl. rewrite Hclr. simpl.
    rewrite Hym, Hr. simpl. rewrite Hr2. simpl. rewrite Hr1. simpl. by rewrite Hz. }
  apply (skip_ok (mkSearch nodes bits (sr_cache s) calls p c) path' M k1 (k2 ++ r :: k3));
    simpl; [done|done| |done|done| |done].
  - intros b t Hin. destruct (Hcache _ _ Hin) as [(N & HN & HR)|?]; [|by right].
    apply elem_of_cons in HN as [[= -> ->]|HN]; [right|left; eauto].
    intros N' HN'. by rewrite (represents_inj _ _ _ _ HN' HR).
  - exists i, op. split; [done|]. split; [done|]. intros s'' Hs''. congruence.
Qed.

End Invariant.

(** ** Linearizations *)

Section Spec.
Context (ops : list Operation).
Notation n := (length ops).

(** Operation [j] had its answer when operation [i] was sent. *)
Definition precedes (j i : nat) : bool :=
  match ops !! j, ops !! i with
  | Some a, Some b => if lo_completed a is Some t then t <=? lo_invoked b else false
  | _, _ => false
  end.

(** The operations in this order, each accepted by the model. *)
Fixpoint model_accepts (s : Reg) (l : list nat) : bool :=
  match l with
  | [] => true
  | i :: l =>
      match ops !! i with
      | Some op => let '(ok, s) := reg_step s op in ok && model_accepts s l
      | None => false
      end
  end.

(** Nothing comes after an operation that was sent once it had its answer. *)
Fixpoint in_order (l : list nat) : Prop :=
  match l with
  | [] => True
  | i :: l => (forall j, j ∈ l -> precedes j i = false) /\ in_order l
  end.

(** An order of all operations with an answer, and of some of those without. *)
Definition linearization (l : list nat) : Prop :=
  NoDup l /\ model_accepts Absent l = true /\ in_order l /\
  forall i op, ops !! i = Some op -> i ∉ l -> lo_completed op = None /\ lo_outcome op = None.

(** Every answer comes strictly after its operation was sent. *)
Definition well_timed : Prop :=
  forall op, op ∈ ops ->
    lo_invoked op < default U64_MAX (lo_completed op) /\ default U64_MAX (lo_completed op) <= U64_MAX.

(** Positions and times. *)
Lemma enabled_times L i j : enabled ops L i -> j ∉ L -> precedes j i = false.
Proof.
  intros Hen Hj. unfold precedes. destruct (ops !! j) as [opj|] eqn:Hopj; [|done].
  destruct (ops !! i) as [opi|] eqn:Hopi; [|done].
  destruct (lo_completed opj) as [t|] eqn:Ht; [|done].
  destruct (position_of_Some ops true i opi Hopi) as (c & Hc & Hoc).
  destruct (position_of_Some ops false j opj Hopj) as (r & Hr & Hor).
  assert (Hlt : (c < r)%nat) by (eapply Hen; eauto; by eapply lookup_lt_Some).
  pose proof (slots_sorted _ _ _ _ _ Hoc Hor Hlt) as Hle.
  unfold slot_le, slot_key_le in Hle. simpl in Hle. rewrite Ht in Hle. simpl in Hle. lia.
Qed.

Lemma times_enabled L i opi :
  well_timed -> ops !! i = Some opi ->
  (forall j, (j < n)%nat -> j ∉ L -> j = i \/ precedes j i = false) -> enabled ops L i.
Proof.
  intros Hw Hopi H j c r Hj HjL Hc Hr. destruct (lookup_lt_is_Some_2 ops j Hj) as [opj Hopj].
  apply position_of_inv in Hc as (opi' & E & Hoc). rewrite Hopi in E. injection E as <-.
  apply position_of_inv in Hr as (opj' & E & Hor). rewrite Hopj in E. injection E as <-.
  destruct (Nat.lt_trichotomy c r) as [?|[->|Hlt]]; [done|rewrite Hoc in Hor; discriminate|].
  exfalso. pose proof (slots_sorted _ _ _ _ _ Hor Hoc Hlt) as Hle.
  assert (Ht : default U64_MAX (lo_completed opj) <= lo_invoked opi).
  { unfold slot_le, slot_key_le in Hle. simpl in Hle. lia. }
  destruct (Hw opi) as [Hi1 Hi2]; [by eapply list_elem_of_lookup_2|].
  destruct (H j Hj HjL) as [->|Hp].
  - rewrite Hopi in Hopj. injection Hopj as <-. lia.
  - unfold precedes in Hp. rewrite Hopj, Hopi in Hp.
    destruct (lo_completed opj); simpl in Ht; lia.
Qed.

Lemma completes_order L s :
  completes ops L s -> (forall i, i ∈ L -> (i < n)%nat) ->
  exists l, NoDup l /\ model_accepts s l = true /\ in_order l /\
    forall i, i ∈ l <-> (i < n)%nat /\ i ∉ L.
Proof.
  induction 1 as [L s Hall|L s i op s' Hi Hop Hen Hstep _ IH]; intros HL.
  - exists []. split; [constructor|]. split; [done|]. split; [done|].
    intros i. split; [by intros ?%elem_of_nil|]. intros [Hi Hn]. exfalso. by apply Hn, Hall.
  - assert (Hin : (i < n)%nat) by by eapply lookup_lt_Some.
    destruct IH as (l & Hnd & Hacc & Hord & Hl); [set_solver|]. exists (i :: l).
    split; [constructor; [|done]; rewrite Hl; set_solver|].
    split; [simpl; by rewrite Hop, Hstep|]. split.
    + split; [|done]. intros j [_ Hj]%Hl. apply (enabled_times L); [done|set_solver].
    + intros j. rewrite elem_of_cons, Hl. destruct (decide (j = i)); set_solver.
Qed.

Lemma order_completes L s l :
  well_timed -> NoDup l -> model_accepts s l = true -> in_order l ->
  (forall i, (i < n)%nat -> i ∈ l \/ i ∈ L) -> (forall i, i ∈ l -> i ∉ L) -> completes ops L s.
Proof.
  intros Hw. revert L s. induction l as [|i l IH]; intros L s Hnd Hacc Hord Hall Hdis.
  - apply completes_all. intros i Hi. destruct (Hall i Hi) as [?%elem_of_nil|]; done.
  - simpl in Hacc. destruct (ops !! i) as [op|] eqn:Hop; [|done].
    destruct (reg_step s op) as [[] s'] eqn:Hstep; [|done]. simpl in Hacc.
    apply NoDup_cons in Hnd as [Hi Hnd]. destruct Hord as [Hfirst Hord].
    assert (HiL : i ∉ L) by (apply Hdis; by left).
    eapply completes_pick; [done|done| |done|].
    + eapply times_enabled; [done|done|]. intros j Hj HjL.
      destruct (Hall j Hj) as [[->|Hjl]%elem_of_cons|?]; [by left|right; auto|done].
    + apply IH; try done.
      * intros j Hj. destruct (Hall j Hj) as [[->|?]%elem_of_cons|?]; set_solver.
      * intros j Hj. assert (j ≠ i) by (by intros ->). assert (j ∉ L) by (apply Hdis; by right).
        set_solver.
Qed.

(** Operations without an answer fit anywhere; at the end they disturb nothing. *)
Lemma accepts_pending s l l' :
  model_accepts s l = true ->
  (forall i, i ∈ l' -> exists op, ops !! i = Some op /\ lo_outcome op = None) ->
  model_accepts s (l ++ l') = true.
Proof.
  intros Hl Hl'. revert s Hl. induction l as [|i l IH]; intros s; simpl.
  - intros _. revert s. induction l' as [|i l' IH]; intros s; [done|]. simpl.
    destruct (Hl' i) as (op & Hop & Hout); [by left|]. rewrite Hop.
    assert (Hok : (reg_step s op).1 = true).
    { unfold reg_step. rewrite Hout. by destruct (lo_op op). }
    destruct (reg_step s op) as [ok s']. simpl in Hok. rewrite Hok. simpl.
    apply IH. intros j Hj. apply Hl'. by right.
  - destruct (ops !! i); [|done]. destruct (reg_step s _) as [[] s']; [|done]. simpl. apply IH.
Qed.

Lemma in_order_pending l l' :
  in_order l -> (forall j i, j ∈ l' -> precedes j i = false) -> in_order (l ++ l').
Proof.
  intros Hl Hl'. induction l as [|i l IH]; simpl.
  - induction l' as [|i l' IH]; [done|]. split; [intros j Hj; apply Hl'; by right|].
    apply IH. intros j k Hj. apply Hl'. by right.
  - destruct Hl as [Hi Hl]. split; [|by apply IH].
    intros j [Hj|Hj]%elem_of_app; [by apply Hi|by apply Hl'].
Qed.

Lemma linearization_completes l :
  well_timed -> linearization l -> completes ops ∅ Absent.
Proof.
  intros Hw (Hnd & Hacc & Hord & Hrest).
  set (rest := filter (fun i => i ∉ l) (seq 0 n)).
  assert (Hr : forall i, i ∈ rest <-> i ∉ l /\ (i < n)%nat).
  { intros i. unfold rest. rewrite list_elem_of_filter, elem_of_seq. split; intros [? ?]; split; auto; lia. }
  assert (Hpend : forall i, i ∈ rest ->
    exists op, ops !! i = Some op /\ lo_completed op = None /\ lo_outcome op = None).
  { intros i [Hi [op Hop]%lookup_lt_is_Some_2]%Hr. eauto. }
  apply (order_completes _ _ (l ++ rest)); [done| | | | |set_solver].
  - apply NoDup_app. split; [done|]. split; [|apply NoDup_filter, NoDup_seq].
    intros i Hi Hi'%Hr. tauto.
  - apply accepts_pending; [done|]. intros i (op & ? & _ & ?)%Hpend. eauto.
  - apply in_order_pending; [done|]. intros j i (op & Hop & Hc & _)%Hpend.
    unfold precedes. rewrite Hop, Hc. by destruct (ops !! i).
  - intros i Hi. left. apply elem_of_app. rewrite Hr. destruct (decide (i ∈ l)); tauto.
Qed.

Lemma completes_linearization : completes ops ∅ Absent -> exists l, linearization l.
Proof.
  intros H. destruct (completes_order _ _ H) as (l & Hnd & Hacc & Hord & Hl); [set_solver|].
  exists l. split; [done|]. split; [done|]. split; [done|]. intros i op Hop Hi. exfalso.
  apply Hi, Hl. split; [by eapply lookup_lt_Some|set_solver].
Qed.

End Spec.

(** ** The verdict *)

Definition verdict_ok key ops budget (v : Verdict) (k : Z) : Prop :=
  match v with
  | Linearizable => completes ops ∅ Absent
  | Violation key' => key' = key /\ ~ completes ops ∅ Absent
  | Unknown key' => key' = key /\ k = budget + 1
  end.

Lemma search_loop_ok key ops budget fuel steps s :
  search_ok ops s -> ops ≠ [] -> steps <= budget -> budget - steps < Z.of_nat fuel ->
  exists v k, search_loop key ops budget fuel steps s = Some (v, k) /\
    steps <= k <= budget + 1 /\
    verdict_ok key ops budget v k.
Proof.
  intros Hok Hne. revert steps s Hok. induction fuel as [|fuel IH]; intros steps s Hok Hs Hf; [lia|].
  simpl. unfold sentinel.
  destruct (Nat.eqb_spec (sr_entry s) (2 * length ops)) as [He|He].
  { exists Linearizable, steps. repeat split; try lia. by eapply search_done. }
  destruct (Z.ltb_spec budget (steps + 1)) as [Hb|Hb].
  { exists (Unknown key), (steps + 1). repeat split; lia. }
  assert (Hx : is_Some (sr_nodes s !! sr_entry s)).
  { destruct Hok as (path & L & l1 & l2 & Hfr & _ & _ & E & _).
    apply (entry_split ops Hne) in E as [[? _]|(l2' & E & _)]; [done|].
    assert (Hin : sr_entry s ∈ live ops L) by (rewrite E; set_solver).
    apply live_elem in Hin as (t & Ht & _). apply (frames_nodes ops Hne) in Hfr as [Hc _].
    destruct (core_slot _ _ _ _ Hc Ht) as (x & Hx & _). by exists x. }
  destruct Hx as [x Hx]. rewrite Hx. simpl.
  assert (Hrec : forall s', search_ok ops s' ->
    exists v k, search_loop key ops budget fuel (steps + 1) s' = Some (v, k) /\
      steps <= k <= budget + 1 /\ verdict_ok key ops budget v k).
  { intros s' Hs'. destruct (IH (steps + 1) s' Hs') as (v & k & E & Hk & Hv); [lia|lia|].
    exists v, k. split; [done|]. split; [lia|done]. }
  destruct (nd_is_call x) eqn:Hcall.
  - destruct (try_call_ok ops Hne s x Hok He Hx Hcall) as (s' & -> & Hs'). simpl. by apply Hrec.
  - pose proof (backtrack_ok ops Hne s x Hok He Hx Hcall) as Hb'.
    destruct (sr_calls s) as [|[call prior] calls].
    + exists (Violation key), (steps + 1). split; [done|]. split; [lia|done].
    + destruct Hb' as (s' & -> & Hs'). simpl. by apply Hrec.
Qed.

Lemma search_start_ok ops :
  ops ≠ [] -> exists s, search_start ops = Some s /\ search_ok ops s.
Proof.
  intros Hne. pose proof (built_circle ops Hne) as Hcir. rewrite <-(live_nothing ops) in Hcir.
  destruct (head_ok ops _ ∅ eq_refl Hcir) as (h & l2 & Hh & Eh).
  unfold search_start, sentinel. rewrite Hh. simpl. eexists. split; [done|].
  exists [], ∅, [], l2. simpl. split; [constructor|]. split; [apply represents_empty|].
  split; [|done]. intros b t []%elem_of_empty.
Qed.

Lemma check_partition_ok key ops budget :
  0 <= budget ->
  exists v k, check_partition key ops budget = Some (v, k) /\ 0 <= k <= budget + 1 /\
    verdict_ok key ops budget v k.
Proof.
  intros Hb. unfold check_partition. destruct ops as [|op ops'] eqn:E; rewrite <-E in *.
  - exists Linearizable, 0. split; [done|]. split; [lia|]. apply completes_all.
    subst. simpl. lia.
  - assert (Hne : ops ≠ []) by congruence.
    destruct (search_start_ok ops Hne) as (s & Hst & Hs).
    destruct (search_loop_ok key ops budget (S (S (Z.to_nat budget))) 0 s) as (v & k & Hl & Hv);
      [done|done|lia|lia|].
    exists v, k. split; [|done]. rewrite E, <-E, Hst. exact Hl.
Qed.
