(* ===== verification/Locality.v ===== *)
(** * Locality: checking key by key checks the whole store
    ([checker/linearizability.rs], [Checker::check])

    The checker searches the operations of each key by themselves.  Here the
    specification is the store itself: [op_effect] of [StateMachine], the function
    that the replicas run.  A history is linearizable against the store exactly
    when the operations of each key are linearizable against [reg_step]; together
    with the exactness of the search this says what a verdict of [check] means. *)
From S2P Require Import Prelude Codec Crc LogFormat Messages StateMachine Io Rng History.
From S2P Require Import Linearizability.

(** ** One step of the store *)

Definition outcome_fits (op : Operation) (o : Outcome) : bool :=
  bool_decide (lo_outcome op = None) || bool_decide (lo_outcome op = Some o).

Definition store_step (m : gmap RString RString) (op : Operation)
  : bool * gmap RString RString :=
  let '(o, m) := op_effect m (lo_op op) in (outcome_fits op o, m).

Definition reg_of (v : option RString) : Reg := from_option RegValue Absent v.

Lemma reg_of_as_opt v : reg_as_opt (reg_of v) = v.
Proof. by destruct v. Qed.

(** The model of one key follows the store. *)
Lemma reg_step_store m op k :
  operation_key op = Some k ->
  reg_step (reg_of (m !! k)) op = ((store_step m op).1, reg_of ((store_step m op).2 !! k)).
Proof.
  unfold operation_key, reg_step, store_step. rewrite reg_of_as_opt.
  destruct (lo_op op); simpl; intros E; simplify_eq; try done.
  - by rewrite lookup_insert_eq.
  - by rewrite lookup_delete_eq.
  - destruct (decide (m !! k = expect)) as [E|Hn].
    + rewrite (bool_decide_true (m !! k = expect)) by done. simpl. by rewrite lookup_insert_eq.
    + by rewrite (bool_decide_false (m !! k = expect)).
Qed.

(** An operation changes the value of its own key only. *)
Lemma store_step_other m op k :
  operation_key op ≠ Some k -> (store_step m op).2 !! k = m !! k.
Proof.
  unfold operation_key, store_step. destruct (lo_op op); simpl; intros E; try done.
  - by rewrite lookup_insert_ne by congruence.
  - by rewrite lookup_delete_ne by congruence.
  - case_decide; simpl; [|done]. by rewrite lookup_insert_ne by congruence.
Qed.

Section Store.
Context (ops : list Operation).

Fixpoint store_accepts (m : gmap RString RString) (l : list nat) : bool :=
  match l with
  | [] => true
  | i :: l =>
      match ops !! i with
      | Some op => let '(ok, m) := store_step m op in ok && store_accepts m l
      | None => false
      end
  end.

(** An order in which the store, from empty, gives the answers that were seen. *)
Definition store_linearization (l : list nat) : Prop :=
  NoDup l /\ store_accepts ∅ l = true /\ in_order ops l /\
  forall i op, ops !! i = Some op -> is_Some (operation_key op) -> i ∉ l ->
    lo_completed op = None /\ lo_outcome op = None.

Definition key_at (i : nat) : option RString := ops !! i ≫= operation_key.

(** The same for one key, over the indices of the whole history. *)
Definition key_linearization (k : RString) (l : list nat) : Prop :=
  NoDup l /\ model_accepts ops Absent l = true /\ in_order ops l /\
  (forall i, i ∈ l -> key_at i = Some k) /\
  forall i op, ops !! i = Some op -> operation_key op = Some k -> i ∉ l ->
    lo_completed op = None /\ lo_outcome op = None.

(** *** From the store to a key *)

Lemma in_order_filter (P : nat -> Prop) `{!forall i, Decision (P i)} l :
  in_order ops l -> in_order ops (filter P l).
Proof.
  induction l as [|i l IH]; [done|]. intros [Hi Hl]. rewrite filter_cons.
  case_decide; [|by apply IH]. split; [|by apply IH].
  intros j [_ Hj]%list_elem_of_filter. by apply Hi.
Qed.

Lemma accepts_key k l m :
  store_accepts m l = true ->
  model_accepts ops (reg_of (m !! k)) (filter (fun i => key_at i = Some k) l) = true.
Proof.
  revert m. induction l as [|i l IH]; intros m; [done|]. simpl. rewrite filter_cons.
  destruct (ops !! i) as [op|] eqn:Hop; [|done].
  destruct (store_step m op) as [ok m'] eqn:Hs. intros [-> Hl]%andb_true_iff.
  case_decide as Hk; unfold key_at in Hk; rewrite Hop in Hk; simpl in Hk.
  - simpl. rewrite Hop, (reg_step_store _ _ _ Hk), Hs. simpl. by apply IH.
  - apply (store_step_other m) in Hk. rewrite Hs in Hk. simpl in Hk. rewrite <-Hk. by apply IH.
Qed.

Lemma store_to_key k l :
  store_linearization l ->
  key_linearization k (filter (fun i => key_at i = Some k) l).
Proof.
  intros (Hnd & Hacc & Hord & Hall). split; [by apply NoDup_filter|]. split.
  { apply (accepts_key k) in Hacc. by rewrite lookup_empty in Hacc. }
  split; [by apply in_order_filter|]. split; [by intros i [? _]%list_elem_of_filter|].
  intros i op Hop Hk Hi. apply (Hall i op Hop); [by rewrite Hk|].
  intros Hl. apply Hi, list_elem_of_filter. split; [|done]. unfold key_at. by rewrite Hop.
Qed.

End Store.

(** ** From the keys to the store

    The orders of the keys are merged: among all operations not placed yet take
    one that got its answer first; the first operation of its key can come next,
    since nothing that is not placed had an answer when it was sent. *)

Section Merge.
Context (ops : list Operation) (Hw : well_timed ops).

(** Later than everything that was sent. *)
Definition late : Z := foldr Z.max 0 (map lo_invoked ops) + 1.
Definition finish (i : nat) : Z :=
  from_option (fun op => default late (lo_completed op)) late (ops !! i).

Lemma invoked_late i op : ops !! i = Some op -> lo_invoked op < late.
Proof.
  intros H%list_elem_of_lookup_2. unfold late. clear Hw.
  induction ops as [|x l IH]; [by apply elem_of_nil in H|].
  simpl. apply elem_of_cons in H as [->|H]; [lia|]. specialize (IH H). lia.
Qed.

Lemma precedes_finish j i opi :
  ops !! i = Some opi -> precedes ops j i = true -> finish j <= lo_invoked opi.
Proof.
  intros Hi. unfold precedes, finish. rewrite Hi. destruct (ops !! j) as [opj|]; [|done].
  simpl. destruct (lo_completed opj); [simpl; lia|done].
Qed.

Lemma finish_precedes j i opj opi :
  ops !! j = Some opj -> ops !! i = Some opi -> precedes ops j i = false ->
  lo_invoked opi < finish j.
Proof.
  intros Hj Hi. unfold precedes, finish. rewrite Hi, Hj. simpl.
  destruct (lo_completed opj); simpl; [lia|]. intros _. by eapply invoked_late.
Qed.

Lemma earliest (l : list nat) :
  l ≠ [] -> exists r, r ∈ l /\ forall j, j ∈ l -> finish r <= finish j.
Proof.
  induction l as [|a l IH]; [done|]. intros _. destruct l as [|b l].
  - exists a. split; [by left|]. by intros j ->%list_elem_of_singleton.
  - destruct IH as (r & Hr & Hmin); [done|]. destruct (Z.le_gt_cases (finish a) (finish r)).
    + exists a. split; [by left|]. intros j [->|Hj]%elem_of_cons; [lia|].
      specialize (Hmin j Hj). lia.
    + exists r. split; [by right|]. intros j [->|Hj]%elem_of_cons; [lia|by apply Hmin].
Qed.

(** The orders still to be merged, one per key, from a given store. *)
Definition family (M : gmap RString RString) (G : RString -> list nat) : Prop :=
  forall k, NoDup (G k) /\ model_accepts ops (reg_of (M !! k)) (G k) = true /\
    in_order ops (G k) /\ forall i, i ∈ G k -> key_at ops i = Some k.

(** Some key's first operation follows nothing that is left. *)
Lemma next_operation M G R :
  family M G -> (forall i, i ∈ R <-> exists k, i ∈ G k) -> R ≠ [] ->
  exists k h t, G k = h :: t /\ forall j, j ∈ R -> precedes ops j h = false.
Proof.
  intros HG HR Hne. destruct (earliest R Hne) as (r & Hr & Hmin).
  pose proof (proj1 (HR r) Hr) as [k Hk]. destruct (G k) as [|h t] eqn:EG; [by apply elem_of_nil in Hk|].
  exists k, h, t. split; [done|].
  destruct (HG k) as (_ & _ & Hord & Hkeys). rewrite EG in Hord, Hkeys.
  assert (Hops : forall i, key_at ops i = Some k -> exists op, ops !! i = Some op).
  { unfold key_at. intros i. destruct (ops !! i); [eauto|done]. }
  destruct (Hops h) as [oph Hoph]; [apply Hkeys; by left|].
  destruct (Hops r) as [opr Hopr]; [by apply Hkeys|].
  assert (Hlt : lo_invoked oph < finish r).
  { apply elem_of_cons in Hk as [->|Ht].
    - rewrite Hopr in Hoph. injection Hoph as <-. unfold finish. rewrite Hopr. simpl.
      destruct (Hw opr) as [Ht _]; [by eapply list_elem_of_lookup_2|].
      destruct (lo_completed opr); simpl in *; [done|]. by eapply invoked_late.
    - eapply finish_precedes; [done|done|]. by apply Hord. }
  intros j Hj. destruct (precedes ops j h) eqn:Hp; [|done].
  apply (precedes_finish _ _ _ Hoph) in Hp. specialize (Hmin j Hj). lia.
Qed.

Definition advance (G : RString -> list nat) (k : RString) : RString -> list nat :=
  fun k' => if decide (k' = k) then List.tl (G k') else G k'.

Lemma advance_elem M G k h t :
  family M G -> G k = h :: t ->
  forall i, (exists k', i ∈ advance G k k') <-> i ≠ h /\ exists k', i ∈ G k'.
Proof.
  intros HG Ek i. unfold advance. destruct (HG k) as (Hnd & _ & _ & Hkeys).
  rewrite Ek in Hnd, Hkeys. apply NoDup_cons in Hnd as [Hh _]. split.
  - intros [k' Hi]. case_decide as D.
    + subst. rewrite Ek in Hi. simpl in Hi. split; [by intros ->|].
      exists k. rewrite Ek. by right.
    + split; [|eauto]. intros ->. destruct (HG k') as (_ & _ & _ & Hkeys').
      apply Hkeys' in Hi. rewrite (Hkeys h) in Hi by by left. congruence.
  - intros [Hne [k' Hi]]. exists k'. case_decide as D; [|done]. subst.
    rewrite Ek in *. by apply elem_of_cons in Hi as [?|?].
Qed.

Lemma advance_family M G k h t op :
  family M G -> G k = h :: t -> ops !! h = Some op ->
  (store_step M op).1 = true /\ family (store_step M op).2 (advance G k).
Proof.
  intros HG Ek Hop. destruct (HG k) as (Hnd & Hacc & Hord & Hkeys).
  rewrite Ek in Hnd, Hacc, Hord, Hkeys.
  assert (Hk : operation_key op = Some k).
  { specialize (Hkeys h ltac:(by left)). unfold key_at in Hkeys. by rewrite Hop in Hkeys. }
  simpl in Hacc. rewrite Hop, (reg_step_store _ _ _ Hk) in Hacc.
  apply andb_true_iff in Hacc as [Hok Hacc]. split; [done|].
  intros k'. unfold advance. case_decide as D.
  - subst. rewrite Ek. simpl. apply NoDup_cons in Hnd as [_ Hnd]. destruct Hord as [_ Hord].
    repeat split; try done. intros i Hi. apply Hkeys. by right.
  - rewrite store_step_other by congruence. apply HG.
Qed.

Lemma merge_family m R M G :
  length R = m -> NoDup R -> family M G -> (forall i, i ∈ R <-> exists k, i ∈ G k) ->
  exists l, NoDup l /\ store_accepts ops M l = true /\ in_order ops l /\ forall i, i ∈ l <-> i ∈ R.
Proof.
  revert R M G. induction m as [|m IH]; intros R M G Hm Hnd HG HR.
  - apply length_zero_iff_nil in Hm as ->. exists []. repeat split; constructor || done.
  - destruct (next_operation M G R HG HR) as (k & h & t & Ek & Hfirst); [by destruct R|].
    assert (Hh : h ∈ R) by (apply HR; exists k; rewrite Ek; by left).
    destruct (HG k) as (_ & _ & _ & Hkeys). specialize (Hkeys h).
    rewrite Ek in Hkeys. specialize (Hkeys ltac:(by left)). unfold key_at in Hkeys.
    destruct (ops !! h) as [op|] eqn:Hop; [|done]. clear Hkeys.
    destruct (advance_family _ _ _ _ _ _ HG Ek Hop) as [Hok HG'].
    apply list_elem_of_split in Hh as (R1 & R2 & ->).
    rewrite <-Permutation_middle in Hnd. apply NoDup_cons in Hnd as [Hh Hnd].
    assert (HR' : forall i, i ∈ R1 ++ h :: R2 <-> i = h \/ i ∈ R1 ++ R2).
    { intros i. rewrite !elem_of_app, elem_of_cons. tauto. }
    destruct (IH (R1 ++ R2) _ _ ltac:(rewrite length_app in *; simpl in Hm; lia) Hnd HG')
      as (l & Hl1 & Hl2 & Hl3 & Hl4).
    { intros i. rewrite (advance_elem _ _ _ _ _ HG Ek), <-HR, HR'.
      split; [intros Hi; split; [by intros ->|by right]|tauto]. }
    exists (h :: l). split; [constructor; [by rewrite Hl4|done]|]. split.
    { simpl. rewrite Hop. destruct (store_step M op). simpl in *. by rewrite Hok. }
    split; [split; [|done]|].
    + intros j Hj%Hl4. apply Hfirst, HR'. by right.
    + intros i. by rewrite elem_of_cons, Hl4, HR'.
Qed.

(** One order per key gives one for the store. *)
Lemma keys_to_store (G : RString -> list nat) :
  (forall k, key_linearization ops k (G k)) -> exists l, store_linearization ops l.
Proof.
  intros HG.
  set (placed := fun i => match key_at ops i with Some k => bool_decide (i ∈ G k) | None => false end).
  set (R := filter (fun i => placed i = true) (seq 0 (length ops))).
  assert (HR : forall i, i ∈ R <-> exists k, i ∈ G k).
  { intros i. unfold R. rewrite list_elem_of_filter, elem_of_seq. unfold placed. split.
    - intros [Hp _]. destruct (key_at ops i) as [k|]; [|done]. exists k.
      by apply bool_decide_eq_true in Hp.
    - intros [k Hi]. destruct (HG k) as (_ & _ & _ & Hkeys & _). pose proof (Hkeys i Hi) as Hk.
      rewrite Hk. split; [by apply bool_decide_eq_true|]. unfold key_at in Hk.
      destruct (ops !! i) eqn:Hop; [|done]. apply lookup_lt_Some in Hop. lia. }
  destruct (merge_family (length R) R ∅ G) as (l & Hl1 & Hl2 & Hl3 & Hl4); [done| | |done|].
  - apply NoDup_filter, NoDup_seq.
  - intros k. destruct (HG k) as (? & ? & ? & ? & _). by rewrite lookup_empty.
  - exists l. split; [done|]. split; [done|]. split; [done|].
    intros i op Hop [k Hk] Hi. destruct (HG k) as (_ & _ & _ & _ & Hall).
    apply (Hall i op Hop Hk). intros Hik. apply Hi, Hl4, HR. eauto.
Qed.

End Merge.

(** ** The operations of one key, picked out of the history *)

(** Where the elements that [filter] keeps were. *)
Lemma filter_places {A} (P : A -> Prop) `{!forall x, Decision (P x)} (l : list A) :
  exists places, NoDup places /\
    (forall i, i ∈ places <-> exists x, l !! i = Some x /\ P x) /\
    length places = length (filter P l) /\
    forall p i, places !! p = Some i -> filter P l !! p = l !! i.
Proof.
  induction l as [|x l (places & Hnd & Hin & Hlen & Hat)].
  - exists []. repeat split; try constructor; try done.
    + by intros ?%elem_of_nil.
    + intros (x & ? & _). done.
  - rewrite filter_cons. destruct (decide (P x)) as [HP|HP].
    + exists (0%nat :: map S places). split.
      { constructor; [|by apply NoDup_fmap_2; [apply _|]].
        intros (i & ? & _)%list_elem_of_fmap. done. }
      split; [|split; [simpl; by rewrite length_map, Hlen|]].
      * intros [|i]; rewrite elem_of_cons; [split; [eauto|by left]|]. simpl.
        rewrite <-Hin, (list_elem_of_fmap_inj S). split; [by intros [?|?]|by right].
      * intros [|p] i; simpl; [by intros [= <-]|]. rewrite list_lookup_fmap.
        intros (j & Hj & ->)%fmap_Some. simpl. by apply Hat.
    + exists (map S places). split; [by apply NoDup_fmap_2; [apply _|]|].
      split; [|split; [by rewrite length_map, Hlen|]].
      * intros [|i].
        { split; [by intros (i & ? & _)%list_elem_of_fmap|]. intros (y & Hy & HPy). simpl in Hy. congruence. }
        simpl. by rewrite <-Hin, (list_elem_of_fmap_inj S).
      * intros p i. rewrite list_lookup_fmap. intros (j & Hj & ->)%fmap_Some. simpl.
        by apply Hat.
Qed.

Section Transport.
Context (ops sub : list Operation) (f : nat -> nat).

(** Each index of [sub] is, through [f], one of [ops]. *)
Context (Hf : forall p, (p < length sub)%nat -> sub !! p = ops !! f p).

Lemma precedes_transport p q :
  (p < length sub)%nat -> (q < length sub)%nat -> precedes sub p q = precedes ops (f p) (f q).
Proof. intros Hp Hq. unfold precedes. by rewrite !Hf. Qed.

Lemma accepts_transport s l :
  Forall (fun p => p < length sub)%nat l ->
  model_accepts sub s l = model_accepts ops s (map f l).
Proof.
  intros Hl. revert s. induction Hl as [|p l Hp Hl IH]; intros s; [done|]. simpl.
  rewrite Hf by done. destruct (ops !! f p); [|done]. destruct (reg_step s o). by rewrite IH.
Qed.

Lemma in_order_transport l :
  Forall (fun p => p < length sub)%nat l -> in_order sub l <-> in_order ops (map f l).
Proof.
  induction 1 as [|p l Hp Hl IH]; [done|]. simpl. rewrite IH. apply and_iff_compat_r.
  rewrite Forall_forall in Hl. split.
  - intros H j (q & -> & Hq)%list_elem_of_fmap. rewrite <-precedes_transport by auto. auto.
  - intros H q Hq. rewrite precedes_transport by auto. apply H. by apply list_elem_of_fmap_2.
Qed.

End Transport.

Definition ops_of (ops : list Operation) (k : RString) : list Operation :=
  filter (fun o => operation_key o = Some k) ops.

Lemma linearization_bound ops l : model_accepts ops Absent l = true -> Forall (fun i => i < length ops)%nat l.
Proof.
  generalize Absent. induction l as [|i l IH]; intros s; constructor; simpl in *.
  - destruct (ops !! i) eqn:Hop; [|done]. by eapply lookup_lt_Some.
  - destruct (ops !! i); [|done]. destruct (reg_step s o) as [[] s']; [|done]. by eapply IH.
Qed.

(** The operations of a key are those of the history at injective places. *)
Lemma key_places ops k :
  exists f : nat -> nat,
    (forall p, (p < length (ops_of ops k))%nat -> ops_of ops k !! p = ops !! f p) /\
    (forall p q, (p < length (ops_of ops k))%nat -> (q < length (ops_of ops k))%nat ->
       f p = f q -> p = q) /\
    (forall i, key_at ops i = Some k <-> exists p, (p < length (ops_of ops k))%nat /\ i = f p).
Proof.
  destruct (filter_places (fun o => operation_key o = Some k) ops)
    as (places & Hnd & Hin & Hlen & Hat). fold (ops_of ops k) in *.
  exists (fun p => default 0%nat (places !! p)).
  assert (Hfp : forall p, (p < length (ops_of ops k))%nat ->
    places !! p = Some (default 0%nat (places !! p))).
  { intros p Hp. rewrite <-Hlen in Hp. by apply lookup_lt_is_Some in Hp as [i ->]. }
  split; [|split].
  - intros p Hp. by apply Hat, Hfp.
  - intros p q Hp%Hfp Hq%Hfp E. rewrite E in Hp. by eapply NoDup_lookup.
  - intros i. transitivity (i ∈ places).
    { rewrite Hin. unfold key_at. destruct (ops !! i); simpl; naive_solver. }
    split.
    + intros [p Hp]%list_elem_of_lookup_1. exists p. rewrite Hp. split; [|done].
      rewrite <-Hlen. by eapply lookup_lt_Some.
    + intros (p & Hp%Hfp & ->). by eapply list_elem_of_lookup_2.
Qed.

Lemma key_view_1 ops k l :
  linearization (ops_of ops k) l -> exists l, key_linearization ops k l.
Proof.
  destruct (key_places ops k) as (f & Hf & Hinj & Hrange).
  intros (Hl & Hacc & Hord & Hall). pose proof (linearization_bound _ _ Hacc) as Hb.
  exists (map f l). rewrite (accepts_transport _ _ f Hf) in Hacc by done.
  rewrite (in_order_transport _ _ f Hf) in Hord by done. rewrite Forall_forall in Hb.
  split; [apply NoDup_fmap_2_strong; [intros p q Hp Hq; apply Hinj; auto|done]|].
  split; [done|]. split; [done|]. split.
  - intros i (p & -> & Hp)%list_elem_of_fmap. apply Hrange. eauto.
  - intros i op Hop Hk Hi.
    destruct (proj1 (Hrange i)) as (p & Hp & ->); [unfold key_at; by rewrite Hop|].
    apply (Hall p op); [by rewrite Hf|]. intros Hpl. by apply Hi, list_elem_of_fmap_2.
Qed.

Lemma key_view_2 ops k l :
  key_linearization ops k l -> exists l, linearization (ops_of ops k) l.
Proof.
  destruct (key_places ops k) as (f & Hf & Hinj & Hrange).
  intros (Hl & Hacc & Hord & Hkeys & Hall).
  assert (Hpre : exists l', Forall (fun p => p < length (ops_of ops k))%nat l' /\ l = map f l').
  { clear -Hkeys Hrange. induction l as [|i l IH]; [by exists []|].
    destruct IH as (l' & Hb & ->); [intros; apply Hkeys; by right|].
    destruct (proj1 (Hrange i)) as (p & Hp & ->); [apply Hkeys; by left|].
    exists (p :: l'). by split; [constructor|]. }
  destruct Hpre as (l' & Hb & ->). exists l'.
  rewrite <-(accepts_transport _ _ f Hf) in Hacc by done.
  rewrite <-(in_order_transport _ _ f Hf) in Hord by done.
  split; [by eapply NoDup_fmap_1|]. split; [done|]. split; [done|].
  intros p op Hop Hp. assert (Hlt : (p < length (ops_of ops k))%nat) by by eapply lookup_lt_Some.
  apply (Hall (f p) op).
  - by rewrite <-Hf.
  - by apply list_elem_of_lookup_2, list_elem_of_filter in Hop as [? _].
  - intros (q & E & Hq)%list_elem_of_fmap. rewrite Forall_forall in Hb.
    apply Hinj in E; [by subst|done|by apply Hb].
Qed.

(** ** The loop over the keys *)

Lemma by_key_from (l : list Operation) (m : gmap RString (list Operation)) k :
  fold_left (fun m op =>
    match operation_key op with
    | Some k => <[k := default [] (m !! k) ++ [op]]> m
    | None => m
    end) l m !! k =
  match ops_of l k with
  | [] => m !! k
  | l' => Some (default [] (m !! k) ++ l')
  end.
Proof.
  revert m. induction l as [|op l IH]; intros m; [done|]. simpl. rewrite IH.
  unfold ops_of. rewrite filter_cons. fold (ops_of l k).
  destruct (decide (operation_key op = Some k)) as [E|E].
  - rewrite E, lookup_insert_eq. destruct (ops_of l k); simpl; [done|]. by rewrite <-app_assoc.
  - assert (E' : match operation_key op with
      | Some k0 => <[k0:=default [] (m !! k0) ++ [op]]> m
      | None => m
      end !! k = m !! k).
    { destruct (operation_key op) as [k0|]; [|done]. rewrite lookup_insert_ne by congruence. done. }
    by rewrite E'.
Qed.

Lemma partitions_elem h k l :
  (k, l) ∈ partitions h <-> l = ops_of (h_ops h) k /\ l ≠ [].
Proof.
  unfold partitions. rewrite (merge_sort_Permutation partition_le), elem_of_map_to_list.
  unfold by_key. rewrite by_key_from, lookup_empty. simpl.
  destruct (ops_of (h_ops h) k); naive_solver.
Qed.

Lemma well_timed_sub ops k : well_timed ops -> well_timed (ops_of ops k).
Proof. intros Hw op [_ Hop]%list_elem_of_filter. by apply Hw. Qed.

(** What the verdict on a list of keys says. *)
Definition keys_ok (ps : list (RString * list Operation)) (v : Verdict) : Prop :=
  match v with
  | Linearizable => forall k l, (k, l) ∈ ps -> completes l ∅ Absent
  | Violation k => exists l, (k, l) ∈ ps /\ ~ completes l ∅ Absent
  | Unknown k => exists l, (k, l) ∈ ps
  end.

Lemma check_keys_sound budget ps steps v k :
  0 <= budget -> check_keys budget ps steps = Some (v, k) -> keys_ok ps v.
Proof.
  intros Hb. revert steps. induction ps as [|[key ops] ps IH]; intros steps; simpl.
  - intros [= <- _]. by intros k0 l ?%elem_of_nil.
  - destruct (check_partition_ok key ops budget Hb) as (v0 & k0 & -> & _ & Hv). simpl.
    destruct (u64_add steps k0) as [steps'|]; [|done]. simpl. destruct v0 as [|key'|key']; simpl in Hv.
    + intros Hc%IH. destruct v as [|key'|key']; simpl in Hc |- *.
      * intros k1 l [[= -> ->]|Hin]%elem_of_cons; [done|by eapply Hc].
      * destruct Hc as (l & ? & ?). exists l. split; [by right|done].
      * destruct Hc as (l & ?). exists l. by right.
    + intros [= <- _]. destruct Hv as [-> Hn]. exists ops. split; [by left|done].
    + intros [= <- _]. destruct Hv as [-> _]. exists ops. by left.
Qed.

Lemma check_keys_ok budget ps steps :
  0 <= budget -> 0 <= steps ->
  steps + (budget + 1) * Z.of_nat (length ps) <= U64_MAX ->
  exists v k, check_keys budget ps steps = Some (v, k) /\ keys_ok ps v.
Proof.
  intros Hb. revert steps. induction ps as [|[key ops] ps IH]; intros steps Hs Hmax; simpl.
  - exists Linearizable, steps. split; [done|]. by intros k l ?%elem_of_nil.
  - destruct (check_partition_ok key ops budget Hb) as (v & k & -> & Hk & Hv). simpl.
    assert (Hadd : u64_add steps k = Some (steps + k)) by (apply u64_add_Some; simpl in Hmax; lia).
    rewrite Hadd. simpl.
    destruct v as [|key'|key']; simpl in Hv.
    + destruct (IH (steps + k)) as (v & k' & Hc & Hok); [lia|simpl in Hmax; lia|].
      exists v, k'. split; [done|]. destruct v as [|key'|key']; simpl in Hok |- *.
      * intros k0 l [[= -> ->]|Hin]%elem_of_cons; [done|by eapply Hok].
      * destruct Hok as (l & ? & ?). exists l. split; [by right|done].
      * destruct Hok as (l & ?). exists l. by right.
    + destruct Hv as [-> Hv]. exists (Violation key), (steps + k). split; [done|].
      exists ops. split; [by left|done].
    + destruct Hv as [-> Hv]. exists (Unknown key), (steps + k). split; [done|].
      exists ops. by left.
Qed.

(** One order for each key of a list, nothing for the others. *)
Lemma choose_orders (P : RString -> list nat -> Prop) :
  (forall k, exists l, P k l) -> forall ks : list RString,
  exists G : RString -> list nat, forall k, k ∈ ks -> P k (G k).
Proof.
  intros H ks. induction ks as [|k ks [G HG]].
  - exists (fun _ => []). by intros k ?%elem_of_nil.
  - destruct (H k) as [l Hl]. exists (fun k' => if decide (k' = k) then l else G k').
    intros k' [->|Hk']%elem_of_cons; [by rewrite decide_True|].
    case_decide; [by subst|by apply HG].
Qed.

Lemma keys_linearizable h :
  well_timed (h_ops h) ->
  (forall k l, (k, l) ∈ partitions h -> completes l ∅ Absent) ->
  exists l, store_linearization (h_ops h) l.
Proof.
  intros Hw H.
  assert (Hkey : forall k, exists l, key_linearization (h_ops h) k l).
  { intros k. destruct (decide (ops_of (h_ops h) k = [])) as [E|E].
    - apply (key_view_1 _ _ []). rewrite E.
      split; [constructor|]. split; [done|]. split; [done|]. by intros i op.
    - destruct (completes_linearization (ops_of (h_ops h) k)) as [l Hl];
        [apply (H k), partitions_elem; done|]. by eapply key_view_1. }
  set (ks := omap operation_key (h_ops h)).
  destruct (choose_orders _ Hkey ks) as [G HG].
  apply (keys_to_store _ Hw (fun k => if decide (k ∈ ks) then G k else [])).
  intros k. case_decide as D; [by apply HG|].
  split; [constructor|]. split; [done|]. split; [done|].
  split; [by intros i ?%elem_of_nil|]. intros i op Hop Hk _. exfalso.
  apply D, list_elem_of_omap. exists op. split; [by eapply list_elem_of_lookup_2|done].
Qed.

(** C18. The checker decides linearizability of a history against the store that the
    replicas run: with room in the step counter it always gives a verdict,
    [Linearizable] only if some order of the operations explains every answer, and
    [Violation] only if none does; the key it names is at fault. *)
Theorem check_decides_linearizability c h
  (Hb : 0 <= ck_budget c) (Hs : 0 <= cs_steps (ck_stats c))
  (Hmax : cs_steps (ck_stats c) + (ck_budget c + 1) * Z.of_nat (length (partitions h)) <= U64_MAX)
  (Hw : well_timed (h_ops h)) :
  exists v c', check c h = Some (v, c') /\
    match v with
    | Linearizable => exists l, store_linearization (h_ops h) l
    | Violation k =>
        (~ exists l, store_linearization (h_ops h) l) /\
        ~ exists l, linearization (ops_of (h_ops h) k) l
    | Unknown k => ops_of (h_ops h) k ≠ []
    end.
Proof.
  destruct (check_keys_ok (ck_budget c) (partitions h) (cs_steps (ck_stats c)) Hb Hs Hmax)
    as (v & k & Hc & Hv).
  unfold check. rewrite Hc. simpl. eexists v, _. split; [done|].
  destruct v as [|key|key]; simpl in Hv.
  - by apply keys_linearizable.
  - destruct Hv as (l & [-> _]%partitions_elem & Hn).
    assert (Hno : ~ exists l, linearization (ops_of (h_ops h) key) l).
    { intros [l Hl]. by eapply Hn, linearization_completes, Hl; apply well_timed_sub. }
    split; [|done]. intros [l Hl]. apply Hno. eapply key_view_2. by apply store_to_key.
  - by destruct Hv as (l & [-> Hne]%partitions_elem).
Qed.

(** The search of one key ends within its budget, panics nowhere and is exact:
    [Linearizable] comes with an order of the operations that the model accepts and
    that respects real time, [Violation] excludes every such order whenever answers
    come strictly after requests, and [Unknown] means that the budget ran out. *)
Theorem search_is_exact key ops budget (Hb : 0 <= budget) :
  exists v k, check_partition key ops budget = Some (v, k) /\ 0 <= k <= budget + 1 /\
    match v with
    | Linearizable => exists l, linearization ops l
    | Violation key' => key' = key /\ (well_timed ops -> ~ exists l, linearization ops l)
    | Unknown key' => key' = key /\ k = budget + 1
    end.
Proof.
  destruct (check_partition_ok key ops budget Hb) as (v & k & E & Hk & Hv).
  exists v, k. split; [done|]. split; [done|]. destruct v as [|key'|key']; simpl in Hv.
  - by apply completes_linearization.
  - destruct Hv as [-> Hn]. split; [done|]. intros Hw [l Hl]. by eapply Hn, linearization_completes.
  - done.
Qed.

(** ** An answer at the instant of its request *)

Lemma slots_instant op :
  lo_completed op = Some (lo_invoked op) -> slots [op] = [return_slot 0 op; call_slot 0 op].
Proof.
  intros Hc. unfold slots. simpl. unfold merge_sort. simpl.
  rewrite decide_False; [done|]. unfold slot_le, slot_key_le. simpl. rewrite Hc. simpl. lia.
Qed.

(** An operation whose answer has the timestamp of its request is reported as a
    violation whatever it is, even when it is trivially linearizable: returns sort
    before calls at equal times, its own call included. *)
Theorem instant_answer_rejected key op o budget
  (Hb : 1 <= budget) (Hc : lo_completed op = Some (lo_invoked op))
  (Ho : lo_outcome op = Some o) (Hstep : (reg_step Absent op).1 = true) :
  history_well_formed (history_push op history_new) = Ok tt /\
  linearization [op] [0%nat] /\
  check_partition key [op] budget = Some (Violation key, 1).
Proof.
  split; [|split].
  - unfold history_well_formed. simpl. unfold check_operation.
    rewrite bool_decide_false by apply not_elem_of_empty.
    rewrite Hc, Ho, Z.ltb_irrefl. done.
  - split; [by apply NoDup_singleton|]. split.
    + simpl. destruct (reg_step Absent op) as [ok s]. simpl in Hstep. by rewrite Hstep.
    + split; [split; [by intros j ?%elem_of_nil|done]|].
      intros [|i] op' Hop Hi; [|done]. exfalso. apply Hi. by left.
  - unfold check_partition, search_start. rewrite slots_instant by done. simpl.
    by rewrite (proj2 (Z.ltb_ge budget (0 + 1))) by lia.
Qed.

(** ** A history of two keys *)

Definition demo_key_a : RString := to_le_bytes 1 97.
Definition demo_key_b : RString := to_le_bytes 1 98.
Definition demo_one : RString := to_le_bytes 1 49.

(** A put that never had an answer is seen by a later get; a concurrent get on the
    same key misses it; a swap on the other key succeeds. *)
Definition demo_history : History :=
  foldl (fun h o => history_push o h) history_new
    [mkOperation 1 1 (Put demo_key_a demo_one) 10 None None;
     mkOperation 2 2 (Get demo_key_a) 12 (Some 40) (Some (OValue None));
     mkOperation 3 3 (Cas demo_key_b None demo_one) 20 (Some 30) (Some (OCas true));
     mkOperation 4 2 (Get demo_key_a) 50 (Some 60) (Some (OValue (Some demo_one)))].

(** The same with a last get that misses the value again. *)
Definition demo_stale_history : History :=
  history_push (mkOperation 5 2 (Get demo_key_a) 70 (Some 80) (Some (OValue None))) demo_history.

Lemma demo_well_timed : well_timed (h_ops demo_stale_history).
Proof. unfold well_timed. rewrite <-Forall_forall. repeat constructor; vm_compute; congruence. Qed.

Lemma check_decides_linearizability_witness :
  (exists v c', check checker_new demo_stale_history = Some (v, c') /\ is_violation v = true /\
     ~ exists l, store_linearization (h_ops demo_stale_history) l) /\
  option_map fst (check checker_new demo_history) = Some Linearizable.
Proof.
  split; [|by vm_compute].
  destruct (check_decides_linearizability checker_new demo_stale_history) as (v & c' & E & H);
    [done|done|by vm_compute|apply demo_well_timed|].
  exists v, c'. split; [exact E|].
  assert (E' : option_map fst (check checker_new demo_stale_history) =
    Some (Violation demo_key_a)) by by vm_compute.
  rewrite E in E'. simpl in E'. injection E' as ->. split; [done|]. apply H.
Defined.

Lemma search_is_exact_witness :
  exists l, linearization (ops_of (h_ops demo_history) demo_key_a) l.
Proof.
  destruct (search_is_exact demo_key_a (ops_of (h_ops demo_history) demo_key_a) 100)
    as (v & k & E & _ & H); [lia|].
  assert (E' : option_map fst (check_partition demo_key_a
    (ops_of (h_ops demo_history) demo_key_a) 100) = Some Linearizable) by by vm_compute.
  rewrite E in E'. simpl in E'. injection E' as ->. exact H.
Defined.

Lemma instant_answer_rejected_witness :
  check_partition demo_key_a [mkOperation 1 1 (Put demo_key_a demo_one) 5 (Some 5) (Some Written)]
    DEFAULT_BUDGET = Some (Violation demo_key_a, 1).
Proof. eapply (instant_answer_rejected demo_key_a _ Written); [done|done|done|by vm_compute]. Defined.
