(* ===== verification/Server.v ===== *)
(** * Server: the key-value server ([kvstore/server.rs], [KvServer])

    [KvServer] around a [Raft] node: requests from clients, the waiters on log
    indices and on ReadIndex reads, and [drain], which applies what Raft has
    committed and answers.  Each method of [impl KvServer] is a handler over the
    server's state and its [Io]; the calls into Raft run on the node inside it.
    The two [BTreeMap]s are [gmap]s, walked in the order of their keys. *)
From S2P Require Import Prelude Codec Crc LogFormat RaftLog Recovery Durable Messages Config.
From S2P Require Import StateMachine Io Rng Persister RaftState Raft.
From Stdlib.Init Require Import Byte.

Record WaitingRead : Type := mkWaitingRead {
  wr_to : NodeId;
  wr_req_id : Z;
  wr_key : RString;
}.

Record Waiting : Type := mkWaiting {
  wt_to : NodeId;
  wt_req_id : Z;
  wt_client : Z;
  wt_seq : Z;
}.

Record ServerStats : Type := mkServerStats {
  ss_index_reads : Z;
  ss_snapshots_adopted : Z;
  ss_requests : Z;
  ss_deduped : Z;
  ss_redirected : Z;
  ss_dropped : Z;
  ss_applied : Z;
  ss_bad_messages : Z;
}.

Record KvServer : Type := mkKvServer {
  sv_raft : Raft;
  sv_sm : StateMachine;
  sv_waiting : gmap Z Waiting;
  sv_waiting_reads : gmap Z WaitingRead;
  sv_next_read_id : Z;
  sv_stats : ServerStats;
  sv_bug : InjectedBug;
}.

Definition server_stats_default : ServerStats := mkServerStats 0 0 0 0 0 0 0 0.

Definition server_eta (s : KvServer) : KvServer :=
  mkKvServer (sv_raft s) (sv_sm s) (sv_waiting s) (sv_waiting_reads s) (sv_next_read_id s)
    (sv_stats s) (sv_bug s).
Definition server_stats_eta (s : ServerStats) : ServerStats :=
  mkServerStats (ss_index_reads s) (ss_snapshots_adopted s) (ss_requests s) (ss_deduped s)
    (ss_redirected s) (ss_dropped s) (ss_applied s) (ss_bad_messages s).

#[export] Instance set_sv_raft : Setter sv_raft. Proof. build_setter server_eta. Defined.
#[export] Instance set_sv_sm : Setter sv_sm. Proof. build_setter server_eta. Defined.
#[export] Instance set_sv_waiting : Setter sv_waiting. Proof. build_setter server_eta. Defined.
#[export] Instance set_sv_waiting_reads : Setter sv_waiting_reads. Proof. build_setter server_eta. Defined.
#[export] Instance set_sv_next_read_id : Setter sv_next_read_id. Proof. build_setter server_eta. Defined.
#[export] Instance set_sv_stats : Setter sv_stats. Proof. build_setter server_eta. Defined.
#[export] Instance set_ss_index_reads : Setter ss_index_reads. Proof. build_setter server_stats_eta. Defined.
#[export] Instance set_ss_snapshots_adopted : Setter ss_snapshots_adopted. Proof. build_setter server_stats_eta. Defined.
#[export] Instance set_ss_requests : Setter ss_requests. Proof. build_setter server_stats_eta. Defined.
#[export] Instance set_ss_deduped : Setter ss_deduped. Proof. build_setter server_stats_eta. Defined.
#[export] Instance set_ss_redirected : Setter ss_redirected. Proof. build_setter server_stats_eta. Defined.
#[export] Instance set_ss_dropped : Setter ss_dropped. Proof. build_setter server_stats_eta. Defined.
#[export] Instance set_ss_applied : Setter ss_applied. Proof. build_setter server_stats_eta. Defined.
#[export] Instance set_ss_bad_messages : Setter ss_bad_messages. Proof. build_setter server_stats_eta. Defined.

Section Server.
Context {W : Type} `{Io W}.

Abbreviation SM := (M W KvServer).

Definition on_raft_node {A} (m : M W Raft A) : SM A :=
  zoom sv_raft (fun r s => s ⟨ sv_raft := r ⟩) m.

(** A method of [Raft] that needs no [Io]. *)
Definition on_raft_pure {A} (f : Raft -> A * Raft) : SM A :=
  s ← get;
  let '(a, r) := f (sv_raft s) in
  modify (fun s => s ⟨ sv_raft := r ⟩) ;;
  mret a.

(** [self.stats.f += 1] *)
Definition sbump (f : ServerStats -> Z) `{!Setter f} : SM unit :=
  s ← get;
  v ← add64 (f (sv_stats s)) 1;
  modify (fun s => s ⟨ sv_stats := (sv_stats s) ⟨ f := v ⟩ ⟩).

Definition reply (to : NodeId) (req_id : Z) (outcome : Outcome) : SM unit :=
  send_bytes to (message_encode (MClient (Reply req_id outcome))).

(** Take a waiter out and tell its client that nothing is known. *)
Definition drop_waiter (i : Z) : SM unit :=
  s ← get;
  match sv_waiting s !! i with
  | Some w =>
      modify (fun s => s ⟨ sv_waiting := delete i (sv_waiting s) ⟩) ;;
      sbump ss_dropped ;;
      reply (wt_to w) (wt_req_id w) Dropped
  | None => mret tt
  end.

Definition drop_all_waiting : SM unit :=
  s ← get;
  for_each (map fst (by_index (sv_waiting s))) drop_waiter.

Definition adopt_snapshot : SM unit :=
  restore ← on_raft_pure take_pending_restore;
  match restore with
  | None => mret tt
  | Some data =>
      s ← get;
      match sm_restore data (sv_bug s) with
      | Ok sm => modify (fun s => s ⟨ sv_sm := sm ⟩) ;; sbump ss_snapshots_adopted
      | Err _ => mret tt
      end ;;
      drop_all_waiting
  end.

(** Apply one committed entry and answer whoever waits on its index. *)
Definition apply_entry (entry : Entry) : SM unit :=
  s ← get;
  let '(outcome, sm) := sm_apply (sv_sm s) (e_cmd entry) in
  modify (fun s => s ⟨ sv_sm := sm ⟩) ;;
  sbump ss_applied ;;
  match sv_waiting s !! e_index entry with
  | Some w =>
      modify (fun s => s ⟨ sv_waiting := delete (e_index entry) (sv_waiting s) ⟩) ;;
      if (wt_client w =? c_client (e_cmd entry)) && (wt_seq w =? c_seq (e_cmd entry))
      then reply (wt_to w) (wt_req_id w) outcome
      else sbump ss_dropped ;; reply (wt_to w) (wt_req_id w) Dropped
  | None => mret tt
  end.

Definition answer_read (id : Z) : SM unit :=
  s ← get;
  match sv_waiting_reads s !! id with
  | Some r =>
      modify (fun s => s ⟨ sv_waiting_reads := delete id (sv_waiting_reads s) ⟩) ;;
      sbump ss_index_reads ;;
      reply (wr_to r) (wr_req_id r) (OValue (sm_state (sv_sm s) !! wr_key r))
  | None => mret tt
  end.

Definition drop_read (id : Z) : SM unit :=
  s ← get;
  match sv_waiting_reads s !! id with
  | Some r =>
      modify (fun s => s ⟨ sv_waiting_reads := delete id (sv_waiting_reads s) ⟩) ;;
      sbump ss_dropped ;;
      reply (wr_to r) (wr_req_id r) Dropped
  | None => mret tt
  end.

Definition drop_stale : SM unit :=
  s ← get;
  for_each (map fst (List.filter (fun iw => iw.1 <=? r_last_applied (sv_raft s))
                       (by_index (sv_waiting s)))) drop_waiter.

Definition drain : SM unit :=
  adopt_snapshot ;;
  entries ← on_raft_pure take_applied;
  for_each entries apply_entry ;;
  drop_stale ;;
  ready ← on_raft_pure take_ready_reads;
  for_each ready answer_read ;;
  failed ← on_raft_pure take_failed_reads;
  for_each failed drop_read ;;
  s ← get;
  when (wants_snapshot (sv_raft s)) (on_raft_node (take_snapshot (sm_encode (sv_sm s)))) ;;
  s ← get;
  when (negb (is_leader (sv_raft s))) drop_all_waiting.

Definition server_on_raft (from : NodeId) (msg : RaftMsg) : SM unit :=
  on_raft_node (on_message from msg) ;; drain.

Definition server_on_timer (tag : TimerTag) : SM unit :=
  on_raft_node (on_timer tag) ;; drain.

Definition server_on_storage (op : OpId) (ok : bool) : SM unit :=
  on_raft_node (on_storage op ok) ;; drain.

Definition redirect (from : NodeId) (req_id : Z) : SM unit :=
  sbump ss_redirected ;;
  s ← get;
  reply from req_id (NotLeader (r_leader (sv_raft s))).

(** The waiter of a copy that is already in flight, the first by index. *)
Definition same_request (client seq : Z) (iw : Z * Waiting) : bool :=
  (wt_client iw.2 =? client) && (wt_seq iw.2 =? seq).

(** A request that has to go through the log. *)
Definition propose_request (from : NodeId) (req_id client seq : Z) (op : Op) : SM unit :=
  s ← get;
  match List.find (same_request client seq) (by_index (sv_waiting s)) with
  | Some (i, w) =>
      sbump ss_deduped ;;
      modify (fun s => s ⟨ sv_waiting :=
        <[i := mkWaiting from req_id (wt_client w) (wt_seq w)]> (sv_waiting s) ⟩)
  | None =>
      index ← on_raft_node (propose (mkCommand client seq op));
      match index with
      | Some index =>
          modify (fun s => s ⟨ sv_waiting :=
            <[index := mkWaiting from req_id client seq]> (sv_waiting s) ⟩)
      | None => redirect from req_id
      end ;;
      drain
  end.

Definition on_request (from : NodeId) (req_id client seq : Z) (op : Op) : SM unit :=
  sbump ss_requests ;;
  s ← get;
  if negb (is_leader (sv_raft s)) then redirect from req_id
  else
    match sm_cached (sv_sm s) client seq with
    | Some outcome => sbump ss_deduped ;; reply from req_id outcome
    | None =>
        match op with
        | Get key =>
            let id := sv_next_read_id s in
            next ← add64 id 1;
            modify (fun s => s ⟨ sv_next_read_id := next ⟩) ;;
            requested ← on_raft_node (request_read id);
            if (requested : bool) then
              modify (fun s => s ⟨ sv_waiting_reads :=
                <[id := mkWaitingRead from req_id key]> (sv_waiting_reads s) ⟩) ;;
              drain
            else propose_request from req_id client seq op
        | _ => propose_request from req_id client seq op
        end
    end.

Definition on_bytes (from : NodeId) (bytes : list byte) : SM unit :=
  match message_decode bytes with
  | Ok (MRaft m) => server_on_raft from m
  | Ok (MClient (Request req_id client seq op)) => on_request from req_id client seq op
  | Ok (MClient (Reply _ _)) => sbump ss_bad_messages
  | Err _ => sbump ss_bad_messages
  end.

Definition server_propose_membership (members : list NodeId) : SM (Result MembershipError Z) :=
  on_raft_node (propose_membership members).

(** [KvServer::recover] *)
Definition server_recover {S} (id : NodeId) (members : list NodeId) (cfg : RaftConfig) (seed : Z)
  : M W S KvServer :=
  raft ← recover id members cfg seed;
  with_state
    {| sv_raft := raft; sv_sm := sm_with_bug (cfg_bug cfg); sv_waiting := ∅;
       sv_waiting_reads := ∅; sv_next_read_id := 1; sv_stats := server_stats_default;
       sv_bug := cfg_bug cfg |}
    adopt_snapshot.

End Server.
