(* ===== verification/ServerRules.v ===== *)
(** * ServerRules: what the server owes its clients ([kvstore/server.rs])

    Every answer is accounted for: [owed] is a multiset of tickets, one per copy
    of a request that arrived, and each reply that leaves the server spends one. *)
From Stdlib Require Import String.
From S2P Require Import Prelude Codec Crc LogFormat RaftLog Recovery Durable Messages Config.
From S2P Require Import StateMachine Io Rng Persister RaftState Raft RaftInv RaftRecover RaftSafety.
From S2P Require Import RaftRules Server.
From Stdlib.Init Require Import Byte.

(** ** Tickets *)

(** A request is known by who sent it and the id it carries, eight bytes. *)
Definition ticket (to : NodeId) (req_id : Z) : NodeId * Z :=
  (to, from_le_bytes (to_le_bytes 8 req_id)).
#[global] Arguments ticket : simpl never.

Lemma ticket_u64 to req_id : is_u64 req_id -> ticket to req_id = (to, req_id).
Proof. intros Hr. unfold ticket. by rewrite from_to_le_bytes. Qed.

(** The ticket a reply on the wire is for: after the checksum come the tags of
    [Message::Client] and [ClientMsg::Reply], then the request's id. *)
Definition reply_ticket (ev : IoEvent) : option (NodeId * Z) :=
  match ev with
  | EvSend to bytes =>
      match drop 4 bytes with
      | x02 :: x02 :: rest => Some (to, from_le_bytes (take 8 rest))
      | _ => None
      end
  | _ => None
  end.

Definition replies (evs : list IoEvent) : list (NodeId * Z) := omap reply_ticket evs.

Lemma replies_cons ev evs :
  replies (ev :: evs) = option_list (reply_ticket ev) ++ replies evs.
Proof. unfold replies. cbn. by destruct (reply_ticket ev). Qed.
Lemma replies_app evs evs' : replies (evs ++ evs') = replies evs ++ replies evs'.
Proof. apply omap_app. Qed.

Lemma reply_ticket_reply to req_id o :
  reply_ticket (EvSend to (message_encode (MClient (Reply req_id o)))) = Some (ticket to req_id).
Proof.
  unfold reply_ticket, message_encode, frame. rewrite drop_app_length' by by rewrite length_to_le_bytes.
  unfold message_payload. rewrite client_msg_encode_app. unfold client_msg_bytes.
  cbn [client_msg_encode_into]. autorewrite with enc. unfold enc_u8, enc_u64, enc_new. simpl app.
  change (byte_of_Z 2) with x02. cbv iota beta.
  done.
Qed.

Lemma reply_ticket_raft to m : reply_ticket (EvSend to (message_encode (MRaft m))) = None.
Proof.
  unfold reply_ticket, message_encode, frame. rewrite drop_app_length' by by rewrite length_to_le_bytes.
  unfold message_payload. rewrite raft_msg_encode_app. unfold enc_u8, enc_new. simpl app.
  change (byte_of_Z 1) with x01. done.
Qed.

Lemma replies_ev_ok dt dhs evs : Forall (ev_ok dt dhs) evs -> replies evs = [].
Proof.
  induction 1 as [|ev evs Hev _ IH]; [done|]. rewrite replies_cons, IH.
  destruct ev; try done. destruct Hev as (m & -> & _). by rewrite reply_ticket_raft.
Qed.

(** What the server still has to answer. *)
Definition waiting_tickets (m : gmap Z Waiting) : list (NodeId * Z) :=
  map (fun iw => ticket (wt_to iw.2) (wt_req_id iw.2)) (map_to_list m).
Definition read_tickets (m : gmap Z WaitingRead) : list (NodeId * Z) :=
  map (fun ir => ticket (wr_to ir.2) (wr_req_id ir.2)) (map_to_list m).
Definition open_tickets (s : KvServer) : list (NodeId * Z) :=
  waiting_tickets (sv_waiting s) ++ read_tickets (sv_waiting_reads s).

Lemma tickets_delete {A} (f : Z * A -> NodeId * Z) (m : gmap Z A) i x :
  m !! i = Some x -> map f (map_to_list m) ≡ₚ f (i, x) :: map f (map_to_list (delete i m)).
Proof. intros Hi. by rewrite <-(map_to_list_delete m i x) by done. Qed.

Lemma tickets_insert {A} (f : Z * A -> NodeId * Z) (m : gmap Z A) i x :
  map f (map_to_list (<[i := x]> m)) ⊆+ f (i, x) :: map f (map_to_list m).
Proof.
  rewrite <-insert_delete_eq, map_to_list_insert by apply lookup_delete_eq. simpl.
  apply submseteq_skip. destruct (m !! i) as [y|] eqn:E.
  - rewrite (tickets_delete f m i y E). by apply submseteq_cons.
  - by rewrite delete_id.
Qed.

(** ** The account *)

Section Account.
Context {W : Type} `{Io W}.
Context (covers : list (NodeId * Z) -> Prop) `{!Proper ((≡ₚ) ==> iff) covers} (e0 : Env W).

(** What is accounted for since [e0]: the replies sent, the tickets in [credit]
    and all that is still open. *)
Definition Acc (credit : list (NodeId * Z)) (s : KvServer) (e : Env W) : Prop :=
  Inv (sv_raft s) /\
  exists new, env_trace e = env_trace e0 ++ new /\
    covers (credit ++ replies new ++ open_tickets s).

Abbreviation keeps m s e c := (wp m (fun _ s' e' => Acc c s' e') s e) (only parsing).

Lemma covered l k : l ≡ₚ k -> covers k -> covers l.
Proof. by intros ->. Qed.

(** Fields that hold no tickets may change. *)
Lemma Acc_state c s s' e :
  Acc c s e -> Inv (sv_raft s') -> sv_waiting s' = sv_waiting s ->
  sv_waiting_reads s' = sv_waiting_reads s -> Acc c s' e.
Proof.
  intros (_ & new & Ht & Hs) Hi Hw Hr. split; [done|]. exists new. split; [done|].
  unfold open_tickets. by rewrite Hw, Hr.
Qed.

Lemma Acc_take_waiting c s e i w :
  sv_waiting s !! i = Some w -> Acc c s e ->
  Acc (ticket (wt_to w) (wt_req_id w) :: c) (s ⟨ sv_waiting := delete i (sv_waiting s) ⟩) e.
Proof.
  intros Hw (Hi & new & Ht & Hs). split; [done|]. exists new. split; [done|].
  eapply covered; [|exact Hs]. unfold open_tickets, waiting_tickets. simpl.
  rewrite (tickets_delete _ (sv_waiting s) i w Hw). simpl.
  rewrite !(app_assoc c), <-Permutation_middle. done.
Qed.

Lemma Acc_take_read c s e i r :
  sv_waiting_reads s !! i = Some r -> Acc c s e ->
  Acc (ticket (wr_to r) (wr_req_id r) :: c)
    (s ⟨ sv_waiting_reads := delete i (sv_waiting_reads s) ⟩) e.
Proof.
  intros Hr (Hi & new & Ht & Hs). split; [done|]. exists new. split; [done|].
  eapply covered; [|exact Hs]. unfold open_tickets, read_tickets. simpl.
  rewrite (tickets_delete _ (sv_waiting_reads s) i r Hr). simpl.
  rewrite !app_assoc. by rewrite <-Permutation_middle.
Qed.

Lemma keeps_reply c s e to req_id o :
  Acc (ticket to req_id :: c) s e -> keeps (reply to req_id o) s e c.
Proof.
  intros (Hi & new & Ht & Hs). unfold reply, send_bytes. apply wp_request. intros [] w _.
  split; [done|]. simpl. eexists (new ++ [_]). rewrite Ht. split; [by rewrite app_assoc|].
  eapply covered; [|exact Hs]. rewrite replies_app, replies_cons, reply_ticket_reply.
  simpl. rewrite <-app_assoc. simpl.
  by rewrite <-!Permutation_middle.
Qed.

(** Calls into Raft send no replies. *)
Lemma keeps_raft {A} (m : M W Raft A) (Q : A -> Prop) c s e :
  (forall s0 e0, Inv s0 -> wp m (fun a s' e' => Q a /\ Good s0 e0 s' e') s0 e0) ->
  Acc c s e -> wp (on_raft_node m) (fun a s' e' => Q a /\ Acc c s' e' /\
    sv_waiting s' = sv_waiting s /\ sv_waiting_reads s' = sv_waiting_reads s /\ sv_sm s' = sv_sm s /\
    sv_next_read_id s' = sv_next_read_id s) s e.
Proof.
  intros Hm (Hi & new & Ht & Hs). specialize (Hm (sv_raft s) e Hi). unfold wp in *.
  unfold on_raft_node, zoom. destruct (m (sv_raft s) e) as [[[a r] e']|]; [|done].
  destruct Hm as (HQ & Hi' & HF). split; [done|]. split; [|done]. split; [done|].
  destruct (f_trace _ _ _ _ HF) as (more & Hmore & Hok). exists (new ++ more).
  rewrite Hmore, Ht. split; [by rewrite app_assoc|].
  by rewrite replies_app, (replies_ev_ok _ _ _ Hok), app_nil_r.
Qed.

Lemma keeps_raft_unit (m : M W Raft unit) c s e :
  (forall s0 e0, Inv s0 -> wp m (fun _ s' e' => Good s0 e0 s' e') s0 e0) ->
  Acc c s e -> keeps (on_raft_node m) s e c.
Proof.
  intros Hm HA. eapply wp_mono; [apply (keeps_raft m (fun _ => True)); [|done]|].
  - intros s0 e1 Hi. eapply wp_mono; [by apply Hm|]. auto.
  - by intros [] s' e' (_ & HA' & _).
Qed.

Lemma keeps_raft_pure {A} (f : Raft -> A * Raft) c s e :
  (forall r (e : Env W), Inv r -> Good r e (f r).2 e) -> Acc c s e ->
  wp (on_raft_pure f) (fun a s' e' => Acc c s' e' /\ a = (f (sv_raft s)).1 /\
    s' = s ⟨ sv_raft := (f (sv_raft s)).2 ⟩) s e.
Proof.
  intros Hf HA. unfold on_raft_pure. wp_step. wp_step.
  pose proof (Hf (sv_raft s) e (proj1 HA)) as [Hi _].
  destruct (f (sv_raft s)) as [a r]. simpl in *. do 3 wp_step. split; [|done].
  by apply (Acc_state c s).
Qed.

Lemma keeps_sbump (f : ServerStats -> Z) `{!Setter f} c s e : Acc c s e -> keeps (sbump f) s e c.
Proof. intros HA. unfold sbump. do 5 wp_step. apply (Acc_state c s); [done|apply HA|done|done]. Qed.

Lemma keeps_loop {A} (l : list A) (f : A -> M W KvServer unit) c s e :
  (forall a s e, Acc c s e -> keeps (f a) s e c) -> Acc c s e -> keeps (for_each l f) s e c.
Proof. intros Hf HA. apply (wp_for_each _ _ (Acc c)); auto. Qed.

Lemma keeps_drop_waiter i c s e : Acc c s e -> keeps (drop_waiter i) s e c.
Proof.
  intros HA. unfold drop_waiter. do 3 wp_step; [|done].
  wp_step. wp_step. wp_step. eapply wp_mono; [apply keeps_sbump, Acc_take_waiting; eauto|].
  intros [] s1 e1 HA1. by apply keeps_reply.
Qed.

Lemma keeps_drop_all c s e : Acc c s e -> keeps drop_all_waiting s e c.
Proof.
  intros HA. unfold drop_all_waiting. do 2 wp_step. apply keeps_loop; [|done].
  intros. by apply keeps_drop_waiter.
Qed.

Lemma keeps_adopt_snapshot c s e : Acc c s e -> keeps adopt_snapshot s e c.
Proof.
  intros HA. unfold adopt_snapshot. wp_step.
  eapply wp_mono; [apply keeps_raft_pure; [|exact HA]|].
  { intros r e1 Hr. apply (Good_refl r e1) in Hr. simpl. good_tac. }
  intros a s1 e1 (HA1 & _ & _). cbv beta. wp_step; [|done].
  wp_step. wp_step. wp_step. eapply (wp_mono _ (fun _ => Acc c)).
  - destruct (sm_restore _ _); [|done]. do 2 wp_step. apply keeps_sbump.
    apply (Acc_state c s1); [done|apply HA1|done|done].
  - intros [] s2 e2 HA2. by apply keeps_drop_all.
Qed.

Lemma keeps_apply_entry en c s e : Acc c s e -> keeps (apply_entry en) s e c.
Proof.
  intros HA. unfold apply_entry. wp_step. wp_step.
  destruct (sm_apply (sv_sm s) (e_cmd en)) as [o sm]. do 3 wp_step.
  assert (HA1 : Acc c (s ⟨ sv_sm := sm ⟩) e) by (apply (Acc_state c s); [done|apply HA|done|done]).
  unfold sbump at 1. do 5 wp_step. set (s1 := _ : KvServer). 
  assert (HA2 : Acc c s1 e) by (apply (Acc_state c s); [done|apply HA|done|done]).
  wp_step; [|done]. do 2 wp_step.
  assert (HA3 := Acc_take_waiting c s1 e _ _ Heqo0 HA2).
  wp_step; [by apply keeps_reply|]. wp_step.
  eapply wp_mono; [by apply keeps_sbump|]. intros [] s2 e2 HA4. by apply keeps_reply.
Qed.

Lemma keeps_answer_read id c s e : Acc c s e -> keeps (answer_read id) s e c.
Proof.
  intros HA. unfold answer_read. do 3 wp_step; [|done]. do 3 wp_step.
  eapply wp_mono; [apply keeps_sbump, Acc_take_read; eauto|].
  intros [] s1 e1 HA1. by apply keeps_reply.
Qed.

Lemma keeps_drop_read id c s e : Acc c s e -> keeps (drop_read id) s e c.
Proof.
  intros HA. unfold drop_read. do 3 wp_step; [|done]. do 3 wp_step.
  eapply wp_mono; [apply keeps_sbump, Acc_take_read; eauto|].
  intros [] s1 e1 HA1. by apply keeps_reply.
Qed.

Lemma keeps_drain c s e : Acc c s e -> keeps drain s e c.
Proof.
  intros HA. unfold drain.
  wp_step. eapply wp_mono; [by apply keeps_adopt_snapshot|]. intros [] s1 e1 HA1.
  wp_step. eapply wp_mono; [apply keeps_raft_pure; [|exact HA1]|].
  { intros r e2 Hr. by apply keeps_take_applied, Good_refl. }
  intros es s2 e2 (HA2 & _ & _).
  wp_step. eapply wp_mono; [apply (keeps_loop es); [intros; by apply keeps_apply_entry|done]|].
  intros [] s3 e3 HA3. wp_step.
  eapply wp_mono; [unfold drop_stale; do 2 wp_step; apply keeps_loop; [|exact HA3]|].
  { intros. by apply keeps_drop_waiter. }
  intros [] s4 e4 HA4. wp_step. eapply wp_mono; [apply keeps_raft_pure; [|exact HA4]|].
  { intros r e5 Hr. apply (Good_refl r e5) in Hr. unfold take_ready_reads. case_match; [done|].
    simpl. good_tac. }
  intros ids s5 e5 (HA5 & _ & _). wp_step.
  eapply wp_mono; [apply (keeps_loop ids); [intros; by apply keeps_answer_read|done]|].
  intros [] s6 e6 HA6. wp_step. eapply wp_mono; [apply keeps_raft_pure; [|exact HA6]|].
  { intros r e7 Hr. apply (Good_refl r e7) in Hr. unfold take_failed_reads. case_match; [done|].
    simpl. good_tac. }
  intros ids' s7 e7 (HA7 & _ & _). wp_step.
  eapply wp_mono; [apply (keeps_loop ids'); [intros; by apply keeps_drop_read|done]|].
  intros [] s8 e8 HA8. do 3 wp_step.
  eapply (wp_mono _ (fun _ => Acc c)).
  { wp_step; [|done]. apply keeps_raft_unit; [|done].
    intros r e9 Hr. by apply keeps_take_snapshot, Good_refl. }
  intros [] s9 e9 HA9. do 2 wp_step. wp_step; [by apply keeps_drop_all|done].
Qed.

End Account.

(** ** New requests *)

(** The tickets are among those of the budget. *)
Definition within (budget l : list (NodeId * Z)) : Prop := l ⊆+ budget.
#[export] Instance within_proper budget : Proper ((≡ₚ) ==> iff) (within budget).
Proof. intros l k Hlk. unfold within. by rewrite Hlk. Qed.
#[export] Hint Extern 0 (Proper _ (within _)) => exact (within_proper _) : core.

Section Requests.
Context {W : Type} `{Io W}.
Context (budget : list (NodeId * Z)) (e0 : Env W).
Abbreviation Acc := (Acc (within budget) e0).
Abbreviation keeps m s e c := (wp m (fun _ s' e' => Acc c s' e') s e) (only parsing).

Lemma Acc_put_waiting c s e i w :
  Acc (ticket (wt_to w) (wt_req_id w) :: c) s e ->
  Acc c (s ⟨ sv_waiting := <[i := w]> (sv_waiting s) ⟩) e.
Proof.
  intros (Hi & new & Ht & Hs). split; [done|]. exists new. split; [done|].
  unfold within in *. etrans; [|exact Hs]. unfold open_tickets, waiting_tickets. simpl.
  etrans; [apply submseteq_skips_l, submseteq_skips_l, submseteq_skips_r, tickets_insert|].
  simpl. by rewrite !(app_assoc c), <-Permutation_middle.
Qed.

Lemma Acc_put_read c s e i r :
  Acc (ticket (wr_to r) (wr_req_id r) :: c) s e ->
  Acc c (s ⟨ sv_waiting_reads := <[i := r]> (sv_waiting_reads s) ⟩) e.
Proof.
  intros (Hi & new & Ht & Hs). split; [done|]. exists new. split; [done|].
  unfold within in *. etrans; [|exact Hs]. unfold open_tickets, read_tickets. simpl.
  etrans; [do 3 apply submseteq_skips_l; apply tickets_insert|].
  simpl. by rewrite !app_assoc, <-Permutation_middle.
Qed.

Lemma keeps_redirect from req_id c s e :
  Acc (ticket from req_id :: c) s e -> keeps (redirect from req_id) s e c.
Proof.
  intros HA. unfold redirect. wp_step. eapply wp_mono; [by eapply keeps_sbump|].
  intros [] s1 e1 HA1. do 2 wp_step. by eapply keeps_reply.
Qed.

Lemma keeps_propose_request from req_id client seq op c s e :
  Acc (ticket from req_id :: c) s e -> keeps (propose_request from req_id client seq op) s e c.
Proof.
  intros HA. unfold propose_request. do 2 wp_step. destruct (List.find _ _) as [[i w]|].
  - wp_step. eapply wp_mono; [by eapply keeps_sbump|]. intros [] s1 e1 HA1.
    wp_step. by eapply (Acc_put_waiting c s1 e1 i (mkWaiting from req_id (wt_client w) (wt_seq w))).
  - wp_step. eapply wp_mono; [eapply (keeps_raft _ e0 _ (fun _ => True)); [|exact HA]|].
    { intros r e1 Hr. eapply wp_mono; [by apply keeps_propose, Good_refl|].
      intros a s1 e2 Hg. split; [done|]. exact Hg. }
    intros idx s1 e1 (_ & HA1 & _). wp_step. eapply (wp_mono _ (fun _ => Acc c)).
    + destruct idx as [idx|]; [|by eapply keeps_redirect]. wp_step.
      by eapply (Acc_put_waiting c s1 e1 idx (mkWaiting from req_id client seq)).
    + intros [] s2 e2 HA2. by eapply keeps_drain.
Qed.

Lemma keeps_on_request from req_id client seq op c s e :
  Acc (ticket from req_id :: c) s e -> keeps (on_request from req_id client seq op) s e c.
Proof.
  intros HA. unfold on_request. wp_step. eapply wp_mono; [by eapply keeps_sbump|].
  intros [] s1 e1 HA1. do 2 wp_step. wp_step; [by eapply keeps_redirect|].
  wp_step.
  { wp_step. eapply wp_mono; [by eapply keeps_sbump|]. intros [] s2 e2 HA2. by eapply keeps_reply. }
  destruct op; try by eapply keeps_propose_request.
  cbv zeta. do 4 wp_step.
  assert (HA2 : Acc (ticket from req_id :: c) (s1 ⟨ sv_next_read_id := sv_next_read_id s1 + 1 ⟩) e1)
    by (eapply (Acc_state _ _ _ s1); [done|apply HA1|done|done]).
  wp_step. eapply wp_mono; [eapply (keeps_raft _ e0 _ (fun _ => True)); [|exact HA2]|].
  { intros r e2 Hr. eapply wp_mono; [by apply keeps_request_read, Good_refl|].
    intros a s2 e3 Hg. split; [done|]. exact Hg. }
  intros b s2 e2 (_ & HA3 & _). wp_step; [|by eapply keeps_propose_request].
  wp_step. wp_step. eapply keeps_drain; [done|].
  by eapply (Acc_put_read c s2 e2 (sv_next_read_id s1) (mkWaitingRead from req_id key)).
Qed.

End Requests.

(** ** Properties *)

(** What a client request that arrives is worth. *)
Definition request_ticket (from : NodeId) (bytes : list byte) : option (NodeId * Z) :=
  match message_decode bytes with
  | Ok (MClient (Request req_id _ _ _)) => Some (ticket from req_id)
  | _ => None
  end.

Inductive server_event : Type :=
| SvBytes (from : NodeId) (bytes : list byte)
| SvTimer (tag : TimerTag)
| SvStorage (op : OpId) (ok : bool)
| SvMembership (members : list NodeId).

Definition event_ticket (ev : server_event) : option (NodeId * Z) :=
  match ev with SvBytes from bytes => request_ticket from bytes | _ => None end.

(** The requests that arrive in a run. *)
Definition requests (evs : list server_event) : list (NodeId * Z) := omap event_ticket evs.

Section Run.
Context {W : Type} `{Io W}.

Definition server_handle (ev : server_event) : M W KvServer unit :=
  match ev with
  | SvBytes from bytes => on_bytes from bytes
  | SvTimer tag => server_on_timer tag
  | SvStorage op ok => server_on_storage op ok
  | SvMembership members => server_propose_membership members ;; mret tt
  end.

Definition server_run (evs : list server_event) : M W KvServer unit := for_each evs server_handle.

Definition server_started (id : NodeId) (members : list NodeId) (cfg : RaftConfig) (seed : Z)
    (evs : list server_event) (w : W) (s : KvServer) (e' : Env W) : Prop :=
  cfg_bug cfg = BugNone /\ exists r e1,
    server_recover id members cfg seed tt (mkEnv w []) = Some (r, tt, e1) /\
    server_run evs r e1 = Some (tt, s, e').

Lemma keeps_server_handle budget (e0 : Env W) ev c s e :
  Acc (within budget) e0 (option_list (event_ticket ev) ++ c) s e ->
  wp (server_handle ev) (fun _ s' e' => Acc (within budget) e0 c s' e') s e.
Proof.
  intros HA. destruct ev as [from bytes|tag|op ok|members]; simpl in *.
  - unfold on_bytes, request_ticket in *.
    destruct (message_decode bytes) as [[m|[req_id client seq op|req_id o]]|]; simpl in HA.
    + unfold server_on_raft. wp_step.
      eapply wp_mono; [eapply keeps_raft_unit; [|exact HA]|].
      { intros r e1 Hr. by apply keeps_on_message, Good_refl. }
      intros [] s1 e1 HA1. by eapply keeps_drain.
    + by eapply keeps_on_request.
    + by eapply keeps_sbump.
    + by eapply keeps_sbump.
  - unfold server_on_timer. wp_step. eapply wp_mono; [eapply keeps_raft_unit; [|exact HA]|].
    { intros r e1 Hr. by apply keeps_on_timer, Good_refl. }
    intros [] s1 e1 HA1. by eapply keeps_drain.
  - unfold server_on_storage. wp_step. eapply wp_mono; [eapply keeps_raft_unit; [|exact HA]|].
    { intros r e1 Hr. by apply keeps_on_storage, Good_refl. }
    intros [] s1 e1 HA1. by eapply keeps_drain.
  - unfold server_propose_membership. wp_step.
    eapply wp_mono; [eapply (keeps_raft _ e0 _ (fun _ => True)); [|exact HA]|].
    { intros r e1 Hr. eapply wp_mono; [by apply keeps_propose_membership, Good_refl|].
      intros a s1 e2 Hg. split; [done|]. exact Hg. }
    intros a s1 e1 (_ & HA1 & _). by wp_step.
Qed.

Lemma keeps_server_run budget (e0 : Env W) evs c s e :
  Acc (within budget) e0 (requests evs ++ c) s e ->
  wp (server_run evs) (fun _ s' e' => Acc (within budget) e0 c s' e') s e.
Proof.
  revert s e. induction evs as [|ev evs IH]; intros s e HA; [done|].
  unfold server_run. simpl for_each. wp_step.
  assert (E : requests (ev :: evs) = option_list (event_ticket ev) ++ requests evs).
  { unfold requests. cbn. by destruct (event_ticket ev). }
  rewrite E, <-app_assoc in HA.
  eapply wp_mono; [by eapply keeps_server_handle|]. intros [] s1 e1 HA1. by apply IH.
Qed.

Lemma keeps_server_recover id members cfg seed budget (w : W) :
  cfg_bug cfg = BugNone ->
  wp (server_recover id members cfg seed) (fun s _ e' => Acc (within budget) (mkEnv w []) budget s e')
    tt (mkEnv w []).
Proof.
  intros Hb. unfold server_recover. wp_step. eapply wp_mono; [by apply keeps_recover|].
  intros r [] e1 (r0 & _ & _ & [Hi HF] & _). apply wp_with_state.
  eapply (wp_mono _ (fun _ s' e' => Acc (within budget) (mkEnv w []) budget s' e')); [|done].
  eapply keeps_adopt_snapshot; [done|]. split; [done|].
  destruct (f_trace _ _ _ _ HF) as (new & -> & Hok). exists new. split; [done|].
  rewrite (replies_ev_ok _ _ _ Hok). unfold open_tickets, waiting_tickets, read_tickets. simpl.
  rewrite !map_to_list_empty. simpl. unfold within. by rewrite app_nil_r.
Qed.

Lemma server_started_acc id members cfg seed evs w s e' :
  server_started id members cfg seed evs w s e' -> Acc (within (requests evs)) (mkEnv w []) [] s e'.
Proof.
  intros (Hb & r & e1 & Hrec & Hrun).
  eapply (wp_Some (server_run evs) (fun _ s' e' => Acc _ _ _ s' e')); [|exact Hrun].
  eapply keeps_server_run. rewrite app_nil_r.
  exact (wp_Some _ _ _ _ _ _ _ (keeps_server_recover id members cfg seed _ w Hb) Hrec).
Qed.

(** C19. No request is answered twice: over any run of a server from its recovery, the
    replies sent, together with the requests it still holds, are among the
    requests that arrived, each copy counted once.  In particular a server never
    answers a request that nobody sent. *)
Theorem requests_answered_at_most_once id members cfg seed evs w s e' :
  server_started id members cfg seed evs w s e' ->
  replies (env_trace e') ++ open_tickets s ⊆+ requests evs.
Proof. intros Hs. by destruct (server_started_acc _ _ _ _ _ _ _ _ Hs) as (_ & new & -> & Hn). Qed.

End Run.

(** ** A server of one node serves a put *)

Definition solo_key : RString := to_le_bytes 1 97.
Definition solo_put : Op := Put solo_key solo_key.
Definition solo_request : list byte := message_encode (MClient (Request 77 5 1 solo_put)).

(** The election timer fires; the vote, the leader's no-op and the put reach the
    disk, each write followed by its sync. *)
Definition solo_events : list server_event :=
  [SvTimer TIMER_ELECTION; SvStorage 2 true; SvStorage 4 true; SvStorage 5 true; SvStorage 7 true;
   SvBytes 9 solo_request; SvStorage 8 true; SvStorage 9 true].

Definition solo_run (evs : list server_event) : option (KvServer * Env Z) :=
  match @server_recover Z counter_io unit 0 [0] raft_config_default 1 tt (mkEnv 0 []) with
  | Some (r, _, e) =>
      match @server_run Z counter_io evs r e with
      | Some (_, s, e') => Some (s, e')
      | None => None
      end
  | None => None
  end.

Lemma solo_run_started evs s e :
  solo_run evs = Some (s, e) ->
  @server_started Z counter_io 0 [0] raft_config_default 1 evs 0 s e.
Proof.
  unfold solo_run, server_started. intros He. split; [done|].
  destruct (server_recover _ _ _ _ _ _) as [[[r0 []] e0]|]; [|done].
  destruct (server_run evs r0 e0) as [[[[] s0] e1]|] eqn:Er; [|done].
  injection He as <- <-. by exists r0, e0.
Qed.

Lemma requests_answered_at_most_once_witness :
  exists s e, @server_started Z counter_io 0 [0] raft_config_default 1 solo_events 0 s e /\
    replies (env_trace e) = [(9, 77)] /\
    replies (env_trace e) ++ open_tickets s ⊆+ requests solo_events.
Proof.
  assert (Hb : match solo_run solo_events with
    | Some (_, e) => bool_decide (replies (env_trace e) = [(9, 77)]) | None => false end = true)
    by (vm_compute; reflexivity).
  destruct (solo_run solo_events) as [[s e]|] eqn:E; [|discriminate Hb].
  apply bool_decide_eq_true_1 in Hb. exists s, e.
  pose proof (solo_run_started _ _ _ E) as Hs. split; [exact Hs|]. split; [exact Hb|].
  exact (@requests_answered_at_most_once Z counter_io _ _ _ _ _ _ _ _ Hs).
Defined.
