(* ===== verification/Invariants.v ===== *)
(** * Invariants: Raft's safety properties checked on the live cluster ([checker/invariants.rs])

    The checker that the driver feeds with a view of every node after every
    event.  It keeps what it has seen (leaders by term, commands by index and
    term, committed and applied entries) and a watermark per node, and reports
    what contradicts it.  The maps are ordered as the code's; the text of the
    reports is left out.  An overflow, or an entry missing inside the log, is a
    panic ([None]). *)
From Stdlib Require Import String.
From S2P Require Import Prelude Codec LogFormat RaftLog Config Io Oracle.
Local Open Scope Z_scope.

Record NodeView : Type := mkNodeView {
  nv_id : NodeId;
  nv_up : bool;
  nv_role : Role;
  nv_term : Z;
  nv_log : RaftLog;
  nv_commit_index : Z;
  nv_last_applied : Z;
  nv_durable_index : Z;
  nv_incarnation : Z;
  nv_truncations : Z;
  nv_snapshot_index : Z;
  nv_members : list NodeId;
}.

Record NodeTrack : Type := mkNodeTrack {
  tk_checked_upto : Z;
  tk_committed_checked : Z;
  tk_applied_checked : Z;
  tk_truncations : Z;
  tk_incarnation : Z;
  tk_commit_index : Z;
  tk_acted_term : Z;
}.
Definition node_track_default : NodeTrack := mkNodeTrack 0 0 0 0 0 0 0.

Record CommittedRec : Type := mkCommittedRec {
  cr_term : Z;
  cr_cmd : Command;
  cr_committed_in_term : Z;
  cr_members : list NodeId;
}.

Record Invariants : Type := mkInvariants {
  iv_leader_by_term : gmap Z NodeId;
  iv_entries : gmap (Z * Z) Command;
  iv_committed : gmap Z CommittedRec;
  iv_leader_verified : gmap (Z * Z) Z;
  iv_max_committed : Z;
  iv_applied : gmap Z (Z * Command);
  iv_nodes : gmap Z NodeTrack;
  iv_leader_log_len : gmap (Z * Z) Z;
  iv_config_checked : gmap (Z * Z) Z;
  iv_checks : Z;
}.
Definition invariants_eta (i : Invariants) : Invariants :=
  mkInvariants (iv_leader_by_term i) (iv_entries i) (iv_committed i) (iv_leader_verified i)
    (iv_max_committed i) (iv_applied i) (iv_nodes i) (iv_leader_log_len i) (iv_config_checked i) (iv_checks i).
#[export] Instance set_iv_leader_by_term : Setter iv_leader_by_term. Proof. build_setter invariants_eta. Defined.
#[export] Instance set_iv_entries : Setter iv_entries. Proof. build_setter invariants_eta. Defined.
#[export] Instance set_iv_committed : Setter iv_committed. Proof. build_setter invariants_eta. Defined.
#[export] Instance set_iv_leader_verified : Setter iv_leader_verified. Proof. build_setter invariants_eta. Defined.
#[export] Instance set_iv_max_committed : Setter iv_max_committed. Proof. build_setter invariants_eta. Defined.
#[export] Instance set_iv_applied : Setter iv_applied. Proof. build_setter invariants_eta. Defined.
#[export] Instance set_iv_nodes : Setter iv_nodes. Proof. build_setter invariants_eta. Defined.
#[export] Instance set_iv_leader_log_len : Setter iv_leader_log_len. Proof. build_setter invariants_eta. Defined.
#[export] Instance set_iv_config_checked : Setter iv_config_checked. Proof. build_setter invariants_eta. Defined.
#[export] Instance set_iv_checks : Setter iv_checks. Proof. build_setter invariants_eta. Defined.
Definition node_track_eta (t : NodeTrack) : NodeTrack :=
  mkNodeTrack (tk_checked_upto t) (tk_committed_checked t) (tk_applied_checked t) (tk_truncations t)
    (tk_incarnation t) (tk_commit_index t) (tk_acted_term t).
#[export] Instance set_tk_acted_term : Setter tk_acted_term. Proof. build_setter node_track_eta. Defined.

Definition invariants_new : Invariants := mkInvariants ∅ ∅ ∅ ∅ 0 ∅ ∅ ∅ ∅ 0.

(** [self.nodes.entry(id).or_default()] *)
Definition track_of (i : Invariants) (id : NodeId) : NodeTrack :=
  default node_track_default (iv_nodes i !! id).
Definition put_track (i : Invariants) (id : NodeId) (t : NodeTrack) : Invariants :=
  i ⟨ iv_nodes := <[id := t]> (iv_nodes i) ⟩.

Definition note_sent (from : NodeId) (term : Z) (i : Invariants) : Invariants :=
  let t := track_of i from in
  put_track i from (t ⟨ tk_acted_term := Z.max (tk_acted_term t) term ⟩).

(** A report about node [v], if the condition holds. *)
Definition report (b : bool) (kind : string) (time : Nanos) (v : NodeView) : list Violation :=
  if b then [mkViolation kind time (Some (nv_id v))] else [].

(** The indices from [a] to [b], both included. *)
Definition span (a b : Z) : list Z := seqZ a (b - a + 1).

Definition view_leads (v : NodeView) : bool := bool_decide (nv_role v = Leader).

(** ** The structural checks *)

Definition check_bounds (time : Nanos) (v : NodeView) (acted_term : Z) : list Violation :=
  report (nv_term v <? acted_term) "term_regression" time v ++
  report (log_last_index (nv_log v) <? nv_commit_index v) "commit_beyond_log" time v ++
  report (nv_commit_index v <? nv_last_applied v) "applied_beyond_commit" time v ++
  report (log_last_index (nv_log v) <? nv_durable_index v) "durable_beyond_log" time v.

Definition check_commit_rule (time : Nanos) (v : NodeView) (restarted : bool) (prev_commit : Z)
  : list Violation :=
  report (negb restarted && (nv_commit_index v <? prev_commit)) "commit_regression" time v ++
  report (view_leads v && (prev_commit <? nv_commit_index v) && negb restarted &&
          match log_term_at (nv_log v) (nv_commit_index v) with
          | Some t => negb (t =? nv_term v)
          | None => false
          end) "commit_of_foreign_term" time v.

(** ** Membership changes *)

Definition has_members (e : Entry) : bool := bool_decide (is_Some (command_members (e_cmd e))).

(** One index of the leader's log: the newest membership entry seen, and the
    reports. *)
Definition check_config_at (time : Nanos) (v : NodeView) (acc : Z * list Violation) (index : Z)
  : option (Z * list Violation) :=
  let '(newest, out) := acc in
  match log_get (nv_log v) index with
  | None => Some (newest, out)
  | Some e =>
      if negb (e_term e =? nv_term v) || negb (has_members e) then Some (newest, out)
      else
        let early :=
          report (negb (bool_decide (log_term_at (nv_log v) (nv_commit_index v) = Some (nv_term v))))
            "config_before_term_commit" time v in
        first ← u64_add (nv_commit_index v) 1;
        let overlapping := length (List.filter (fun i =>
          match log_get (nv_log v) i with Some e => has_members e | None => false end)
          (span first (index - 1))) in
        Some (index, out ++ early ++
          report (0 <? overlapping)%nat "concurrent_config_change" time v)
  end.

Fixpoint foldl_option {A B} (f : A -> B -> option A) (a : A) (l : list B) : option A :=
  match l with [] => Some a | b :: l => a ← f a b; foldl_option f a l end.

Definition check_config (time : Nanos) (v : NodeView) (i : Invariants) (out : list Violation)
  : option (Invariants * list Violation) :=
  if view_leads v then
    let key := (nv_id v, nv_term v) in
    let seen := default 0 (iv_config_checked i !! key) in
    next ← u64_add seen 1;
    let from := Z.max next (log_first_index (nv_log v)) in
    '(newest, out) ← foldl_option (check_config_at time v) (seen, out) (span from (log_last_index (nv_log v)));
    Some (i ⟨ iv_config_checked := <[key := Z.max newest seen]> (iv_config_checked i) ⟩, out)
  else Some (i, out).

(** ** Leaders *)

Definition check_election (time : Nanos) (v : NodeView) (i : Invariants) : Invariants * list Violation :=
  match iv_leader_by_term i !! nv_term v with
  | Some other =>
      if other =? nv_id v
      then (i ⟨ iv_leader_by_term := <[nv_term v := nv_id v]> (iv_leader_by_term i) ⟩, [])
      else (i, report true "election_safety" time v)
  | None => (i ⟨ iv_leader_by_term := <[nv_term v := nv_id v]> (iv_leader_by_term i) ⟩, [])
  end.

Definition check_append_only (time : Nanos) (v : NodeView) (i : Invariants) : Invariants * list Violation :=
  let key := (nv_id v, nv_term v) in
  let seen := default 0 (iv_leader_log_len i !! key) in
  (i ⟨ iv_leader_log_len := <[key := Z.max seen (log_last_index (nv_log v))]> (iv_leader_log_len i) ⟩,
   report (log_last_index (nv_log v) <? seen) "leader_append_only" time v).

(** The committed entries from the watermark on; the walk stops at the first that
    the leader lacks or holds differently. *)
Fixpoint completeness_loop (time : Nanos) (v : NodeView) (recs : list (Z * CommittedRec)) (checked_to : Z)
  : option (Z * list Violation) :=
  match recs with
  | [] => Some (checked_to, [])
  | (index, rec) :: recs =>
      if nv_term v <=? cr_committed_in_term rec then completeness_loop time v recs index
      else if index <=? nv_snapshot_index v then completeness_loop time v recs index
      else if log_last_index (nv_log v) <? index then
        Some (checked_to, report true "leader_completeness" time v)
      else
        entry ← log_get (nv_log v) index;
        if negb (e_term entry =? cr_term rec) || negb (bool_decide (e_cmd entry = cr_cmd rec)) then
          Some (checked_to, report true "leader_completeness" time v)
        else completeness_loop time v recs index
  end.

Definition check_completeness (time : Nanos) (v : NodeView) (i : Invariants)
  : option (Invariants * list Violation) :=
  let key := (nv_id v, nv_term v) in
  let verified := default 0 (iv_leader_verified i !! key) in
  from ← u64_add verified 1;
  let recs := List.filter (fun ir => from <=? ir.1) (by_index (iv_committed i)) in
  '(checked_to, out) ← completeness_loop time v recs verified;
  Some (i ⟨ iv_leader_verified := <[key := checked_to]> (iv_leader_verified i) ⟩, out).

Definition check_leader (time : Nanos) (v : NodeView) (i : Invariants)
  : option (Invariants * list Violation) :=
  if view_leads v then
    let '(i, o1) := check_election time v i in
    let '(i, o2) := check_append_only time v i in
    '(i, o3) ← check_completeness time v i;
    Some (i, o1 ++ o2 ++ o3)
  else Some (i, []).

(** ** Logs *)

Definition check_entry (time : Nanos) (v : NodeView) (acc : Invariants * list Violation * Z) (e : Entry)
  : Invariants * list Violation * Z :=
  let '(i, out, _) := acc in
  let key := (e_index e, e_term e) in
  match iv_entries i !! key with
  | Some known =>
      (i, out ++ report (negb (bool_decide (known = e_cmd e))) "log_matching" time v, e_index e)
  | None => (i ⟨ iv_entries := <[key := e_cmd e]> (iv_entries i) ⟩, out, e_index e)
  end.
Definition check_log_matching (time : Nanos) (v : NodeView) (checked_upto : Z) (i : Invariants)
  : Invariants * list Violation * Z :=
  foldl (check_entry time v) (i, [], checked_upto)
    (List.filter (fun e => checked_upto <? e_index e) (l_entries (nv_log v))).

Definition check_committed_at (time : Nanos) (v : NodeView) (index : Z) (entry : Entry) (i : Invariants)
  : Invariants * list Violation :=
  match iv_committed i !! index with
  | Some rec =>
      (i, report (negb (cr_term rec =? e_term entry) || negb (bool_decide (cr_cmd rec = e_cmd entry)))
            "committed_entry_changed" time v)
  | None =>
      (i ⟨ iv_committed := <[index := mkCommittedRec (e_term entry) (e_cmd entry) (nv_term v) (nv_members v)]>
             (iv_committed i) ⟩
         ⟨ iv_max_committed := Z.max (iv_max_committed i) index ⟩, [])
  end.

Definition check_applied_at (time : Nanos) (v : NodeView) (index : Z) (entry : Entry) (i : Invariants)
  : Invariants * list Violation :=
  match iv_applied i !! index with
  | Some (term, cmd) =>
      (i, report (negb (term =? e_term entry) || negb (bool_decide (cmd = e_cmd entry)))
            "state_machine_safety" time v)
  | None => (i ⟨ iv_applied := <[index := (e_term entry, e_cmd entry)]> (iv_applied i) ⟩, [])
  end.

(** The indices in order, until the log has no entry there; the last one looked at. *)
Fixpoint walk_log (check : Z -> Entry -> Invariants -> Invariants * list Violation) (v : NodeView)
  (indices : list Z) (checked : Z) (i : Invariants) : Invariants * list Violation * Z :=
  match indices with
  | [] => (i, [], checked)
  | index :: indices =>
      match log_get (nv_log v) index with
      | None => (i, [], checked)
      | Some entry =>
          let '(i, o) := check index entry i in
          let '(i, o', checked) := walk_log check v indices index i in
          (i, o ++ o', checked)
      end
  end.

(** ** One node *)

(** What is read of the node's track, after the resets of a truncation or a restart. *)
Definition refreshed (v : NodeView) (t : NodeTrack) : NodeTrack :=
  let restarted := negb (tk_incarnation t =? nv_incarnation v) in
  let truncated := negb (tk_truncations t =? nv_truncations v) in
  if truncated || restarted then
    mkNodeTrack 0 0 0 (nv_truncations v) (nv_incarnation v) (tk_commit_index t) (tk_acted_term t)
  else
    mkNodeTrack (tk_checked_upto t) (tk_committed_checked t) (tk_applied_checked t) (tk_truncations t)
      (nv_incarnation v) (tk_commit_index t) (tk_acted_term t).

Definition check_node (time : Nanos) (i : Invariants) (v : NodeView)
  : option (Invariants * list Violation) :=
  let restarted := negb (tk_incarnation (track_of i (nv_id v)) =? nv_incarnation v) in
  let track := refreshed v (track_of i (nv_id v)) in
  let i := put_track i (nv_id v) track in
  committed_from ← u64_add (tk_committed_checked track) 1;
  applied_from ← u64_add (tk_applied_checked track) 1;
  if negb (nv_up v) then
    Some (put_track i (nv_id v)
            (mkNodeTrack 0 0 0 (tk_truncations track) (tk_incarnation track) 0 (tk_acted_term track)), [])
  else
    let o1 := check_bounds time v (tk_acted_term track) ++
              check_commit_rule time v restarted (tk_commit_index track) in
    '(i, o2) ← check_config time v i [];
    '(i, o3) ← check_leader time v i;
    let '(i, o4, newly_checked) := check_log_matching time v (tk_checked_upto track) i in
    after_snapshot ← u64_add (nv_snapshot_index v) 1;
    let committed_from := Z.max committed_from after_snapshot in
    let '(i, o5, committed_checked) :=
      walk_log (check_committed_at time v) v (span committed_from (nv_commit_index v))
        (u64_saturating_sub committed_from 1) i in
    let applied_from := Z.max applied_from after_snapshot in
    let '(i, o6, applied_checked) :=
      walk_log (check_applied_at time v) v (span applied_from (nv_last_applied v))
        (u64_saturating_sub applied_from 1) i in
    let t := track_of i (nv_id v) in
    Some (put_track i (nv_id v)
            (mkNodeTrack newly_checked committed_checked applied_checked (tk_truncations t)
               (tk_incarnation t) (nv_commit_index v) (tk_acted_term t)),
          o1 ++ o2 ++ o3 ++ o4 ++ o5 ++ o6).

Fixpoint check_nodes (time : Nanos) (i : Invariants) (views : list NodeView)
  : option (Invariants * list Violation) :=
  match views with
  | [] => Some (i, [])
  | v :: views =>
      '(i, o) ← check_node time i v;
      '(i, o') ← check_nodes time i views;
      Some (i, o ++ o')
  end.

Definition invariants_observe (time : Nanos) (views : list NodeView) (i : Invariants)
  : option (Invariants * list Violation) :=
  checks ← u64_add (iv_checks i) 1;
  check_nodes time (i ⟨ iv_checks := checks ⟩) views.

Definition committed_entry (i : Invariants) (index : Z) : option CommittedRec := iv_committed i !! index.
