(* ===== verification/InvariantRules.v ===== *)
(** * InvariantRules: what the invariant checker's reports mean ([checker/invariants.rs])

    Over any run the election check and the term check report exactly the runs
    in which two nodes were seen leading one term, or a node was seen below a term
    it had sent; and a report about logs, committed or applied entries always
    has two contradicting views behind it. *)
From Stdlib Require Import String.
From S2P Require Import Prelude Codec LogFormat RaftLog Config Io Oracle Invariants.
Local Open Scope Z_scope.

(** ** Reports *)

Definition mentions (kind : string) (vs : list Violation) : Prop := exists x, x ∈ vs /\ vi_kind x = kind.
Definition kinds_in (ks : list string) (vs : list Violation) : Prop := Forall (fun x => vi_kind x ∈ ks) vs.

Lemma mentions_app k a b : mentions k (a ++ b) <-> mentions k a \/ mentions k b.
Proof. unfold mentions. setoid_rewrite elem_of_app. naive_solver. Qed.

Lemma mentions_nil k : ~ mentions k [].
Proof. by intros (x & ?%elem_of_nil & _). Qed.

Lemma mentions_report k b kind time v : mentions k (report b kind time v) <-> b = true /\ kind = k.
Proof.
  unfold report, mentions. destruct b; [|setoid_rewrite elem_of_nil; naive_solver].
  setoid_rewrite list_elem_of_singleton. naive_solver.
Qed.

Lemma kinds_in_mentions ks k vs : kinds_in ks vs -> mentions k vs -> k ∈ ks.
Proof. intros Hk (x & Hx & <-). unfold kinds_in in Hk. rewrite Forall_forall in Hk. auto. Qed.

Lemma kinds_in_nil ks : kinds_in ks [].
Proof. by apply Forall_nil. Qed.

Lemma kinds_in_app ks a b : kinds_in ks a -> kinds_in ks b -> kinds_in ks (a ++ b).
Proof. intros. by apply Forall_app. Qed.

Lemma kinds_in_report ks b kind time v : kind ∈ ks -> kinds_in ks (report b kind time v).
Proof. intros. unfold report, kinds_in. destruct b; [by apply Forall_singleton|constructor]. Qed.

(** ** What each check changes and reports *)

Definition core (i : Invariants) :=
  (iv_leader_by_term i, iv_entries i, iv_committed i, iv_applied i, iv_nodes i).

Lemma check_config_at_kinds time v acc index acc' :
  check_config_at time v acc index = Some acc' ->
  kinds_in ["config_before_term_commit"; "concurrent_config_change"]%string acc.2 ->
  kinds_in ["config_before_term_commit"; "concurrent_config_change"]%string acc'.2.
Proof.
  destruct acc as [newest out]. simpl. destruct (log_get _ _) as [e|]; [|by intros [= <-]].
  case_match; [by intros [= <-]|]. destruct (u64_add _ _) as [first|]; [|done]. simpl. intros [= <-] Hk. simpl.
  apply kinds_in_app; [done|]. apply kinds_in_app; apply kinds_in_report; set_solver.
Qed.

Lemma check_config_spec time v i i' o :
  check_config time v i [] = Some (i', o) ->
  core i' = core i /\ kinds_in ["config_before_term_commit"; "concurrent_config_change"]%string o.
Proof.
  unfold check_config. destruct (view_leads v); [|by intros [= <- <-]; split; [|constructor]].
  destruct (u64_add _ _) as [next|]; [|done]. simpl.
  destruct (foldl_option _ _ _) as [[newest out]|] eqn:E; [|done]. simpl. intros [= <- <-]. split; [done|].
  revert E. generalize (span (Z.max next (log_first_index (nv_log v))) (log_last_index (nv_log v))) as l.
  assert (Hgen : forall l acc, kinds_in ["config_before_term_commit"; "concurrent_config_change"]%string acc.2 ->
    forall acc', foldl_option (check_config_at time v) acc l = Some acc' ->
    kinds_in ["config_before_term_commit"; "concurrent_config_change"]%string acc'.2).
  { induction l as [|x l IH]; intros acc Hacc acc'; simpl; [by intros [= <-]|].
    destruct (check_config_at _ _ _ _) as [a|] eqn:Ea; [|done]. simpl. apply IH.
    by eapply check_config_at_kinds. }
  intros l E. change out with (newest, out).2. eapply Hgen; [|exact E]. constructor.
Qed.

Lemma completeness_loop_kinds time v recs checked c o :
  completeness_loop time v recs checked = Some (c, o) -> kinds_in ["leader_completeness"]%string o.
Proof.
  revert checked. induction recs as [|[index rec] recs IH]; intros checked; simpl.
  - intros [= <- <-]. constructor.
  - case_match; [apply IH|]. case_match; [apply IH|].
    case_match; [intros [= <- <-]; apply (kinds_in_report _ true); set_solver|].
    destruct (log_get _ _) as [e|]; [|done]. simpl.
    case_match; [intros [= <- <-]; apply (kinds_in_report _ true); set_solver|apply IH].
Qed.

Lemma check_completeness_spec time v i i' o :
  check_completeness time v i = Some (i', o) -> core i' = core i /\ kinds_in ["leader_completeness"]%string o.
Proof.
  unfold check_completeness. destruct (u64_add _ _) as [from|]; [|done]. simpl.
  destruct (completeness_loop _ _ _ _) as [[c out]|] eqn:E; [|done]. simpl. intros [= <- <-].
  split; [done|]. by eapply completeness_loop_kinds.
Qed.

(** The kinds that have their own map. *)
Definition LEADER_KINDS : list string :=
  ["election_safety"; "leader_append_only"; "leader_completeness"]%string.

Definition set_leader (v : NodeView) (m : gmap Z NodeId) : gmap Z NodeId :=
  match m !! nv_term v with Some _ => m | None => <[nv_term v := nv_id v]> m end.
Definition clashes (v : NodeView) (m : gmap Z NodeId) : Prop :=
  exists other, m !! nv_term v = Some other /\ other <> nv_id v.

Lemma check_leader_spec time v i i' o :
  check_leader time v i = Some (i', o) ->
  iv_entries i' = iv_entries i /\ iv_committed i' = iv_committed i /\ iv_applied i' = iv_applied i /\
  iv_nodes i' = iv_nodes i /\ kinds_in LEADER_KINDS o /\
  iv_leader_by_term i' =
    (if view_leads v then set_leader v (iv_leader_by_term i) else iv_leader_by_term i) /\
  (mentions "election_safety" o <-> view_leads v = true /\ clashes v (iv_leader_by_term i)).
Proof.
  unfold check_leader. destruct (view_leads v); [|intros [= <- <-]].
  2: { split_and!; try done; [apply kinds_in_nil|]. split; [by intros ?%mentions_nil|by intros [? _]]. }
  destruct (check_election time v i) as [i1 o1] eqn:E1.
  destruct (check_append_only time v i1) as [i2 o2] eqn:E2. simpl.
  destruct (check_completeness time v i2) as [[i3 o3]|] eqn:E3; [|done]. simpl. intros [= <- <-].
  apply check_completeness_spec in E3 as [Hc3 Hk3].
  assert (Hc2 : core i2 = core i1 /\ kinds_in ["leader_append_only"]%string o2).
  { unfold check_append_only in E2. injection E2 as <- <-. split; [done|]. apply kinds_in_report. set_solver. }
  destruct Hc2 as [Hc2 Hk2].
  assert (H1 : iv_entries i1 = iv_entries i /\ iv_committed i1 = iv_committed i /\ iv_applied i1 = iv_applied i /\
    iv_nodes i1 = iv_nodes i /\ kinds_in ["election_safety"]%string o1 /\
    iv_leader_by_term i1 = set_leader v (iv_leader_by_term i) /\
    (mentions "election_safety" o1 <-> clashes v (iv_leader_by_term i))).
  { unfold check_election, set_leader, clashes in *. destruct (iv_leader_by_term i !! nv_term v) as [other|] eqn:El.
    - destruct (Z.eqb_spec other (nv_id v)) as [->|Hne]; injection E1 as <- <-.
      + split_and!; try done; [apply kinds_in_nil|simpl; by rewrite insert_id|].
        split; [by intros ?%mentions_nil|]. by intros (x & [= ->] & ?).
      + split_and!; try done; [apply (kinds_in_report _ true); set_solver|].
        split; [by exists other|]. intros _. by apply (mentions_report _ true).
    - injection E1 as <- <-. split_and!; try done; [apply kinds_in_nil|]. split; [by intros ?%mentions_nil|by intros (x & ? & _)]. }
  destruct H1 as (He & Hc & Ha & Hn & Hk & Hl & Hm).
  unfold core in Hc2, Hc3. injection Hc2 as Q1 Q2 Q3 Q4 Q5. injection Hc3 as P1 P2 P3 P4 P5.
  split_and!; try congruence.
  - unfold LEADER_KINDS. repeat apply kinds_in_app.
    + eapply Forall_impl; [exact Hk|]. set_solver.
    + eapply Forall_impl; [exact Hk2|]. set_solver.
    + eapply Forall_impl; [exact Hk3|]. set_solver.
  - rewrite !mentions_app, <-Hm. split; [|tauto]. intros [H|[H|H]]; [done|..].
    + apply (kinds_in_mentions _ _ _ Hk2) in H. set_solver.
    + apply (kinds_in_mentions _ _ _ Hk3) in H. set_solver.
Qed.

(** ** Evidence *)

Section Evidence.
Context (seen : list NodeView).

Definition entry_seen (index term : Z) (cmd : Command) : Prop :=
  exists v, v ∈ seen /\ mkEntry term index cmd ∈ l_entries (nv_log v).
Definition committed_seen (index : Z) (tc : Z * Command) : Prop :=
  exists v e, v ∈ seen /\ index <= nv_commit_index v /\ log_get (nv_log v) index = Some e /\
    (e_term e, e_cmd e) = tc.
Definition applied_seen (index : Z) (tc : Z * Command) : Prop :=
  exists v e, v ∈ seen /\ index <= nv_last_applied v /\ log_get (nv_log v) index = Some e /\
    (e_term e, e_cmd e) = tc.

(** Two views that contradict each other, for each kind of report about entries. *)
Definition evidence (kind : string) : Prop :=
  kind = "log_matching"%string /\
    (exists index term c1 c2, c1 <> c2 /\ entry_seen index term c1 /\ entry_seen index term c2) \/
  kind = "committed_entry_changed"%string /\
    (exists index t1 t2, t1 <> t2 /\ committed_seen index t1 /\ committed_seen index t2) \/
  kind = "state_machine_safety"%string /\
    (exists index t1 t2, t1 <> t2 /\ applied_seen index t1 /\ applied_seen index t2).
Definition evident (vs : list Violation) : Prop := forall k, mentions k vs -> evidence k.

Lemma evident_nil : evident [].
Proof. by intros k ?%mentions_nil. Qed.
Lemma evident_app a b : evident a -> evident b -> evident (a ++ b).
Proof. intros Ha Hb k [?|?]%mentions_app; auto. Qed.

(** What the maps hold was seen. *)
Record remembered (i : Invariants) : Prop := {
  rm_entries : forall ix t c, iv_entries i !! (ix, t) = Some c -> entry_seen ix t c;
  rm_committed : forall ix rec, iv_committed i !! ix = Some rec ->
    committed_seen ix (cr_term rec, cr_cmd rec);
  rm_applied : forall ix tc, iv_applied i !! ix = Some tc -> applied_seen ix tc;
}.

Lemma remembered_core i i' :
  iv_entries i' = iv_entries i -> iv_committed i' = iv_committed i -> iv_applied i' = iv_applied i ->
  remembered i -> remembered i'.
Proof. intros E1 E2 E3 [H1 H2 H3]. split; rewrite ?E1, ?E2, ?E3; done. Qed.

Context (v : NodeView) (Hv : v ∈ seen) (time : Nanos).

(** A check of entries: it adds what it sees and reports contradictions. *)
Record entry_check (kind : string) (i i' : Invariants) (o : list Violation) : Prop := {
  ec_leaders : iv_leader_by_term i' = iv_leader_by_term i;
  ec_nodes : iv_nodes i' = iv_nodes i;
  ec_kinds : kinds_in [kind] o;
  ec_sound : remembered i -> remembered i' /\ evident o;
}.

Lemma entry_check_refl kind i : entry_check kind i i [].
Proof. split; try done; [apply kinds_in_nil|]. intros. split; [done|apply evident_nil]. Qed.

Lemma entry_check_trans kind i1 i2 i3 o o' :
  entry_check kind i1 i2 o -> entry_check kind i2 i3 o' -> entry_check kind i1 i3 (o ++ o').
Proof.
  intros [L1 N1 K1 S1] [L2 N2 K2 S2]. split; [congruence..|by apply kinds_in_app|].
  intros H. apply S1 in H as [H ?]. apply S2 in H as [? ?]. split; [done|by apply evident_app].
Qed.

Lemma log_entry_check i e :
  e ∈ l_entries (nv_log v) ->
  forall out c, exists i' o, check_entry time v (i, out, c) e = (i', out ++ o, e_index e) /\
    entry_check "log_matching" i i' o.
Proof.
  intros He out c. destruct e as [term index cmd]. unfold check_entry. simpl.
  assert (Hs : entry_seen index term cmd) by by exists v.
  destruct (iv_entries i !! (index, term)) as [known|] eqn:E.
  - do 2 eexists. split; [done|]. split; try done; [apply kinds_in_report; set_solver|].
    intros Hr. split; [done|]. intros k [Hne <-]%mentions_report. left. split; [done|].
    exists index, term, known, cmd. split_and!; [|by apply (rm_entries _ Hr)|done].
    apply negb_true_iff, bool_decide_eq_false in Hne. done.
  - exists (i ⟨ iv_entries := <[(index, term) := cmd]> (iv_entries i) ⟩), [].
    rewrite app_nil_r. split; [done|]. split; try done; [apply kinds_in_nil|].
    intros [H1 H2 H3]. split; [|apply evident_nil]. split; simpl; try done.
    intros ix t c'. destruct (decide ((index, term) = (ix, t))) as [[= -> ->]|Hne].
    + rewrite lookup_insert_eq. by intros [= ->].
    + rewrite lookup_insert_ne by done. apply H1.
Qed.

Lemma log_matching_check i c i' o c' :
  check_log_matching time v c i = (i', o, c') -> entry_check "log_matching" i i' o.
Proof.
  unfold check_log_matching. intros E.
  assert (Hgen : forall l i0 out c0, Forall (fun e => e ∈ l_entries (nv_log v)) l ->
    exists i1 o1 c1, foldl (check_entry time v) (i0, out, c0) l = (i1, out ++ o1, c1) /\
      entry_check "log_matching" i0 i1 o1).
  { induction l as [|e l IH]; intros i0 out c0 Hl.
    - exists i0, [], c0. rewrite app_nil_r. split; [done|apply entry_check_refl].
    - apply Forall_cons in Hl as [He Hl]. cbn [foldl].
      destruct (log_entry_check i0 e He out c0) as (i1 & o1 & -> & H1).
      destruct (IH i1 (out ++ o1) (e_index e) Hl) as (i2 & o2 & c2 & -> & H2).
      exists i2, (o1 ++ o2), c2. rewrite app_assoc. split; [done|by eapply entry_check_trans]. }
  destruct (Hgen (List.filter (fun e => c <? e_index e) (l_entries (nv_log v))) i [] c) as (i1 & o1 & c1 & E1 & H1).
  { apply Forall_forall. intros e He%list_elem_of_In. apply filter_In in He as [He _]. by apply list_elem_of_In. }
  rewrite E1 in E. injection E as <- <- <-. done.
Qed.

Lemma committed_at_check i index e i' o :
  index <= nv_commit_index v -> log_get (nv_log v) index = Some e ->
  check_committed_at time v index e i = (i', o) -> entry_check "committed_entry_changed" i i' o.
Proof.
  intros Hi He. unfold check_committed_at.
  assert (Hs : committed_seen index (e_term e, e_cmd e)) by by exists v, e.
  destruct (iv_committed i !! index) as [rec|] eqn:E; intros [= <- <-].
  - split; try done; [apply kinds_in_report; set_solver|]. intros Hr. split; [done|].
    intros k [Hne <-]%mentions_report. right; left. split; [done|].
    exists index, (cr_term rec, cr_cmd rec), (e_term e, e_cmd e).
    split_and!; [|by apply (rm_committed _ Hr)|done]. intros [= H1 H2].
    rewrite H1, H2, Z.eqb_refl, bool_decide_eq_true_2 in Hne by done. done.
  - split; try done; [apply kinds_in_nil|]. intros [H1 H2 H3]. split; [|apply evident_nil].
    split; simpl; try done. intros ix rec. destruct (decide (index = ix)) as [->|Hne].
    + rewrite lookup_insert_eq. by intros [= <-].
    + rewrite lookup_insert_ne by done. apply H2.
Qed.

Lemma applied_at_check i index e i' o :
  index <= nv_last_applied v -> log_get (nv_log v) index = Some e ->
  check_applied_at time v index e i = (i', o) -> entry_check "state_machine_safety" i i' o.
Proof.
  intros Hi He. unfold check_applied_at.
  assert (Hs : applied_seen index (e_term e, e_cmd e)) by by exists v, e.
  destruct (iv_applied i !! index) as [[t c]|] eqn:E; intros [= <- <-].
  - split; try done; [apply kinds_in_report; set_solver|]. intros Hr. split; [done|].
    intros k [Hne <-]%mentions_report. right; right. split; [done|].
    exists index, (t, c), (e_term e, e_cmd e).
    split_and!; [|by apply (rm_applied _ Hr)|done]. intros [= H1 H2].
    rewrite H1, H2, Z.eqb_refl, bool_decide_eq_true_2 in Hne by done. done.
  - split; try done; [apply kinds_in_nil|]. intros [H1 H2 H3]. split; [|apply evident_nil].
    split; simpl; try done. intros ix tc. destruct (decide (index = ix)) as [->|Hne].
    + rewrite lookup_insert_eq. by intros [= <-].
    + rewrite lookup_insert_ne by done. apply H3.
Qed.

Lemma walk_log_check kind check hi :
  (forall i index e i' o, index <= hi -> log_get (nv_log v) index = Some e ->
     check index e i = (i', o) -> entry_check kind i i' o) ->
  forall a c i i' o c', walk_log check v (span a hi) c i = (i', o, c') -> entry_check kind i i' o.
Proof.
  intros Hc a. assert (Hl : Forall (fun x => x <= hi) (span a hi)).
  { apply Forall_forall. intros x. unfold span. rewrite elem_of_seqZ. lia. }
  revert Hl. generalize (span a hi) as l. induction l as [|x l IH]; intros Hl c i i' o c'; simpl.
  - intros [= <- <- <-]. apply entry_check_refl.
  - apply Forall_cons in Hl as [Hx Hl].
    destruct (log_get (nv_log v) x) as [e|] eqn:Ee; [|intros [= <- <- <-]; apply entry_check_refl].
    destruct (check x e i) as [i1 o1] eqn:E1. destruct (walk_log check v l x i1) as [[i2 o2] c2] eqn:E2.
    intros [= <- <- <-]. eapply entry_check_trans; [by eapply Hc|by eapply IH].
Qed.
End Evidence.

(** ** One node *)

Definition acted (i : Invariants) (id : NodeId) : Z := tk_acted_term (track_of i id).

Lemma track_put i id t id' :
  track_of (put_track i id t) id' = if decide (id = id') then t else track_of i id'.
Proof.
  unfold track_of, put_track. simpl. case_decide as Hd; [subst; by rewrite lookup_insert_eq|].
  by rewrite lookup_insert_ne.
Qed.

Lemma acted_put i id t id' :
  tk_acted_term t = acted i id -> acted (put_track i id t) id' = acted i id'.
Proof. intros Ht. unfold acted. rewrite track_put. case_decide as Hd; [by subst|done]. Qed.

Lemma acted_nodes i i' id : iv_nodes i' = iv_nodes i -> acted i' id = acted i id.
Proof. intros E. unfold acted, track_of. by rewrite E. Qed.

Definition leads (v : NodeView) : Prop := nv_up v = true /\ nv_role v = Leader.

(** What one turn of the checker does and reports. *)
Record turn_ok (seen : list NodeView) (v : NodeView) (i i' : Invariants) (o : list Violation) : Prop := {
  tn_leaders : iv_leader_by_term i' =
    if nv_up v && view_leads v then set_leader v (iv_leader_by_term i) else iv_leader_by_term i;
  tn_acted : forall id, acted i' id = acted i id;
  tn_election : mentions "election_safety" o <-> leads v /\ clashes v (iv_leader_by_term i);
  tn_term : mentions "term_regression" o <-> nv_up v = true /\ nv_term v < acted i (nv_id v);
  tn_sound : remembered seen i -> remembered seen i' /\
    forall k, k ∈ ["log_matching"; "committed_entry_changed"; "state_machine_safety"]%string ->
      mentions k o -> evidence seen k;
}.

Lemma refreshed_acted v t : tk_acted_term (refreshed v t) = tk_acted_term t.
Proof. unfold refreshed. by destruct (_ || _). Qed.

Lemma check_bounds_kinds time v a k :
  mentions k (check_bounds time v a) ->
  k = "term_regression"%string /\ nv_term v < a \/
  k ∈ ["commit_beyond_log"; "applied_beyond_commit"; "durable_beyond_log"]%string.
Proof.
  unfold check_bounds. rewrite !mentions_app, !mentions_report, Z.ltb_lt. set_solver.
Qed.

Lemma check_commit_rule_kinds time v r c :
  kinds_in ["commit_regression"; "commit_of_foreign_term"]%string (check_commit_rule time v r c).
Proof. apply kinds_in_app; apply kinds_in_report; set_solver. Qed.

(** No check but the named ones makes these reports. *)
Definition listed (k : string) (ks : list string) : bool := existsb (String.eqb k) ks.

Lemma listed_elem k ks : k ∈ ks -> listed k ks = true.
Proof.
  intros Hk. apply existsb_exists. exists k. split; [by apply list_elem_of_In|apply String.eqb_refl].
Qed.

Lemma only_from k ks vs : kinds_in ks vs -> mentions k vs -> listed k ks = true.
Proof. intros Hk Hm. by apply listed_elem, (kinds_in_mentions _ _ _ Hk). Qed.

(** Rule out that the kind asked for was reported by another check. *)
Ltac not_from H Hk := exfalso; apply (only_from _ _ _ Hk) in H; discriminate H.
(** The same, whichever check it was. *)
Ltac not_from_any H :=
  first [ solve [apply check_bounds_kinds in H as [[? _]|H%listed_elem]; discriminate]
        | match goal with Hk : kinds_in _ _ |- _ => solve [not_from H Hk] end ].

Lemma check_node_down seen i v t0 t :
  v ∈ seen -> nv_up v = false -> tk_acted_term t0 = acted i (nv_id v) -> tk_acted_term t = acted i (nv_id v) ->
  turn_ok seen v i (put_track (put_track i (nv_id v) t0) (nv_id v) t) [].
Proof.
  intros Hv Hup Ht0 Ht. assert (Ha : forall id, acted (put_track i (nv_id v) t0) id = acted i id) by (intros id; by apply acted_put).
  split; rewrite ?Hup; simpl.
  - done.
  - intros id. rewrite acted_put; [done|]. by rewrite Ha.
  - split; [by intros ?%mentions_nil|]. intros [[Hu _] _]. congruence.
  - split; [by intros ?%mentions_nil|by intros [? _]].
  - intros Hr. split; [by apply (remembered_core seen i)|]. intros k _ ?%mentions_nil. done.
Qed.

Lemma check_node_ok seen time i v i' o :
  v ∈ seen -> check_node time i v = Some (i', o) -> turn_ok seen v i i' o.
Proof.
  intros Hv. unfold check_node. set (t0 := refreshed v (track_of i (nv_id v))).
  set (i0 := put_track i (nv_id v) t0).
  assert (Ha0 : forall id, acted i0 id = acted i id).
  { intros id. apply acted_put. unfold t0. by rewrite refreshed_acted. }
  destruct (u64_add (tk_committed_checked t0) 1) as [cf|]; simpl; [|done].
  destruct (u64_add (tk_applied_checked t0) 1) as [af|]; simpl; [|done].
  destruct (nv_up v) eqn:Hup; simpl.
  2: { intros [= <- <-]. apply check_node_down; [done..| |]; unfold t0; by rewrite ?refreshed_acted. }
  destruct (check_config time v i0 []) as [[i2 o2]|] eqn:E2; [|done]. simpl.
  apply check_config_spec in E2 as [Hc2 Hk2]. unfold core in Hc2. injection Hc2 as C1 C2 C3 C4 C5.
  destruct (check_leader time v i2) as [[i3 o3]|] eqn:E3; [|done]. simpl.
  apply check_leader_spec in E3 as (L1 & L2 & L3 & L4 & L5 & L6 & L7).
  destruct (check_log_matching time v _ i3) as [[i4 o4] nc] eqn:E4.
  apply (log_matching_check seen v Hv) in E4 as [M1 M2 M3 M4].
  destruct (u64_add (nv_snapshot_index v) 1) as [af'|]; [|done]. simpl.
  destruct (walk_log (check_committed_at time v) _ _ _ _) as [[i5 o5] c5] eqn:E5.
  apply (walk_log_check seen v "committed_entry_changed" _ (nv_commit_index v)) in E5 as [N1 N2 N3 N4].
  2: { intros. by eapply committed_at_check. }
  destruct (walk_log (check_applied_at time v) _ _ _ _) as [[i6 o6] c6] eqn:E6.
  apply (walk_log_check seen v "state_machine_safety" _ (nv_last_applied v)) in E6 as [P1 P2 P3 P4].
  2: { intros. by eapply applied_at_check. }
  intros [= <- <-].
  assert (Hnodes : iv_nodes i6 = iv_nodes i0) by (rewrite P2, N2, M2, L4; exact C5).
  assert (Hacted : acted i0 (nv_id v) = acted i (nv_id v)) by apply Ha0.
  pose proof (check_commit_rule_kinds time v (negb (tk_incarnation (track_of i (nv_id v)) =? nv_incarnation v))
    (tk_commit_index t0)) as Hk1.
  assert (Ht0 : tk_acted_term t0 = acted i (nv_id v)) by (unfold t0; by rewrite refreshed_acted).
  split; rewrite ?Hup; simpl.
  - rewrite P1, N1, M1, L6, C1. done.
  - intros id. rewrite acted_put; [|done]. by rewrite (acted_nodes i0) by done.
  - rewrite !mentions_app, L7. unfold leads, view_leads. rewrite bool_decide_eq_true, Hup, C1.
    split; [|intros [[_ ?] ?]; tauto].
    intros [[H|H]|[H|[H|[H|[H|H]]]]]; [..|tauto| | |]; not_from_any H.
  - rewrite !mentions_app. split.
    + intros [[H|H]|[H|[H|[H|[H|H]]]]]; [|not_from_any H..].
      apply check_bounds_kinds in H as [[_ H]|H]; [rewrite Ht0 in H; done|apply listed_elem in H; discriminate H].
    + intros [_ H]. left; left. unfold check_bounds. rewrite mentions_app. left.
      apply mentions_report. split; [apply Z.ltb_lt; by rewrite Ht0|done].
  - intros Hr. assert (Hr3 : remembered seen i3).
    { apply (remembered_core seen i); [rewrite L1; exact C2|rewrite L2; exact C3|rewrite L3; exact C4|done]. }
    apply M4 in Hr3 as [Hr4 S4]. apply N4 in Hr4 as [Hr5 S5]. apply P4 in Hr5 as [Hr6 S6].
    split; [by apply (remembered_core seen i6)|]. intros k Hk. rewrite !mentions_app.
    rewrite !elem_of_cons, elem_of_nil in Hk.
    intros [[H|H]|[H|[H|[H|[H|H]]]]]; [destruct Hk as [->|[->|[->|[]]]]..|auto|auto|auto].
    all: not_from_any H.
Qed.

(** ** Runs *)

Inductive CheckEvent : Type :=
| CeSent (from : NodeId) (term : Z)
| CeObserve (time : Nanos) (views : list NodeView).

Definition check_event (ev : CheckEvent) (i : Invariants) : option (Invariants * list Violation) :=
  match ev with
  | CeSent from term => Some (note_sent from term i, [])
  | CeObserve time views => invariants_observe time views i
  end.
Fixpoint check_run (evs : list CheckEvent) (i : Invariants) : option (Invariants * list Violation) :=
  match evs with
  | [] => Some (i, [])
  | ev :: evs =>
      '(i, o) ← check_event ev i;
      '(i, o') ← check_run evs i;
      Some (i, o ++ o')
  end.

(** The run as the checker takes it: sends and views, one at a time. *)
Inductive Moment : Type :=
| MoSent (from : NodeId) (term : Z)
| MoView (v : NodeView).
Definition moments_of (ev : CheckEvent) : list Moment :=
  match ev with CeSent from term => [MoSent from term] | CeObserve _ views => MoView <$> views end.
Definition moments (evs : list CheckEvent) : list Moment := concat (moments_of <$> evs).
Definition views_in (ms : list Moment) : list NodeView :=
  concat ((fun m => match m with MoView v => [v] | MoSent _ _ => [] end) <$> ms).

Lemma views_in_app a b : views_in (a ++ b) = views_in a ++ views_in b.
Proof. unfold views_in. by rewrite fmap_app, concat_app. Qed.

(** Two nodes were seen leading one term. *)
Definition split_brain (ms : list Moment) : Prop :=
  exists v1 v2, v1 ∈ views_in ms /\ v2 ∈ views_in ms /\ leads v1 /\ leads v2 /\
    nv_term v1 = nv_term v2 /\ nv_id v1 <> nv_id v2.

(** A running node was seen below a term it had sent before. *)
Definition term_lost (ms : list Moment) : Prop :=
  exists pre v post term, ms = pre ++ MoView v :: post /\ nv_up v = true /\
    MoSent (nv_id v) term ∈ pre /\ nv_term v < term.

Record run_inv (ms : list Moment) (i : Invariants) (out : list Violation) : Prop := {
  ri_leaders : forall t n, iv_leader_by_term i !! t = Some n ->
    exists v, v ∈ views_in ms /\ leads v /\ nv_term v = t /\ nv_id v = n;
  ri_led : forall v, v ∈ views_in ms -> leads v ->
    exists n, iv_leader_by_term i !! nv_term v = Some n /\ (n = nv_id v \/ mentions "election_safety" out);
  ri_clash : mentions "election_safety" out -> split_brain ms;
  ri_acted : forall id term, 0 <= term -> (term < acted i id <->
    exists t, MoSent id t ∈ ms /\ term < t);
  ri_term : mentions "term_regression" out <-> term_lost ms;
  ri_seen : remembered (views_in ms) i;
  ri_evidence : forall k, k ∈ ["log_matching"; "committed_entry_changed"; "state_machine_safety"]%string ->
    mentions k out -> evidence (views_in ms) k;
}.

Lemma evidence_mono seen seen' k : (forall v, v ∈ seen -> v ∈ seen') -> evidence seen k -> evidence seen' k.
Proof.
  intros Hs. unfold evidence, entry_seen, committed_seen, applied_seen.
  intros [(-> & ix & t & c1 & c2 & Hne & (v1 & ? & ?) & (v2 & ? & ?))|
    [(-> & ix & t1 & t2 & Hne & (v1 & e1 & ? & ? & ? & ?) & (v2 & e2 & ? & ? & ? & ?))|
     (-> & ix & t1 & t2 & Hne & (v1 & e1 & ? & ? & ? & ?) & (v2 & e2 & ? & ? & ? & ?))]].
  - left. split; [done|]. exists ix, t, c1, c2. split_and!; [done|exists v1|exists v2]; auto.
  - right; left. split; [done|]. exists ix, t1, t2. split_and!; [done|exists v1, e1|exists v2, e2]; auto.
  - right; right. split; [done|]. exists ix, t1, t2. split_and!; [done|exists v1, e1|exists v2, e2]; auto.
Qed.

Lemma remembered_mono seen seen' i :
  (forall v, v ∈ seen -> v ∈ seen') -> remembered seen i -> remembered seen' i.
Proof.
  intros Hs [H1 H2 H3]. split.
  - intros ix t c H. apply H1 in H as (v & ? & ?). exists v. auto.
  - intros ix rec H. apply H2 in H as (v & e & ? & ?). exists v, e. auto.
  - intros ix tc H. apply H3 in H as (v & e & ? & ?). exists v, e. auto.
Qed.

Lemma term_lost_snoc ms m :
  term_lost (ms ++ [m]) <-> term_lost ms \/
    exists v term, m = MoView v /\ nv_up v = true /\ MoSent (nv_id v) term ∈ ms /\ nv_term v < term.
Proof.
  split.
  - intros (pre & v & post & term & E & Hu & Hs & Ht). destruct post as [|x post _] using rev_ind.
    + apply app_inj_tail in E as [<- ->]. right. by exists v, term.
    + left. rewrite app_comm_cons, app_assoc in E. apply app_inj_tail in E as [-> _]. by exists pre, v, post, term.
  - intros [(pre & v & post & term & -> & ?)|(v & term & -> & ?)].
    + exists pre, v, (post ++ [m]), term. by rewrite <-app_assoc.
    + by exists ms, v, [], term.
Qed.

Lemma run_inv_new : run_inv [] invariants_new [].
Proof.
  split.
  - intros t n H. simpl in H. by rewrite lookup_empty in H.
  - by intros v ?%elem_of_nil.
  - by intros ?%mentions_nil.
  - intros id term Ht. unfold acted, track_of. simpl. rewrite lookup_empty. simpl.
    split; [lia|]. by intros (t & ?%elem_of_nil & _).
  - split; [by intros ?%mentions_nil|]. intros (pre & v & post & t & H & _). by destruct pre.
  - split; simpl; intros *; rewrite lookup_empty; done.
  - by intros k _ ?%mentions_nil.
Qed.

Lemma run_inv_sent ms i out from term :
  run_inv ms i out -> run_inv (ms ++ [MoSent from term]) (note_sent from term i) out.
Proof.
  intros [H1 H2 H3 H4 H5 H6 H7].
  assert (Hv : views_in (ms ++ [MoSent from term]) = views_in ms).
  { rewrite views_in_app. simpl. by rewrite app_nil_r. }
  split; rewrite ?Hv; try done.
  - intros (v1 & v2 & H)%H3. exists v1, v2. by rewrite Hv.
  - intros id t Ht. unfold acted, note_sent. rewrite track_put. setoid_rewrite elem_of_app.
    setoid_rewrite list_elem_of_singleton. case_decide as Hd.
    + subst id. simpl. fold (acted i from). rewrite Z.max_lt_iff, H4 by done. naive_solver.
    + fold (acted i id). rewrite H4 by done. naive_solver.
  - rewrite H5, term_lost_snoc. naive_solver.
  - by apply (remembered_core _ i).
Qed.

Lemma run_inv_view ms i out time v i' o :
  0 <= nv_term v -> run_inv ms i out -> check_node time i v = Some (i', o) ->
  run_inv (ms ++ [MoView v]) i' (out ++ o).
Proof.
  intros Hterm [H1 H2 H3 H4 H5 H6 H7] E.
  assert (Hv : views_in (ms ++ [MoView v]) = views_in ms ++ [v]) by by rewrite views_in_app.
  assert (Hin : v ∈ views_in ms ++ [v]) by (apply elem_of_app; right; by left).
  assert (Hsub : forall x, x ∈ views_in ms -> x ∈ views_in ms ++ [v]) by (intros; apply elem_of_app; by left).
  apply (check_node_ok _ _ _ _ _ _ Hin) in E as [T1 T2 T3 T4 T5].
  assert (Hlv : nv_up v && view_leads v = true <-> leads v).
  { unfold leads, view_leads. by rewrite andb_true_iff, bool_decide_eq_true. }
  destruct (T5 (remembered_mono _ _ _ Hsub H6)) as [Hrem Hev].
  split; rewrite ?Hv; try done.
  - intros t n. rewrite T1. destruct (nv_up v && view_leads v) eqn:El.
    + unfold set_leader. destruct (iv_leader_by_term i !! nv_term v) eqn:Eo.
      * intros H. apply H1 in H as (x & ? & ?). exists x. auto.
      * destruct (decide (nv_term v = t)) as [<-|Hne].
        -- rewrite lookup_insert_eq. intros [= <-]. exists v. split; [done|]. split; [by apply Hlv|done].
        -- rewrite lookup_insert_ne by done. intros H. apply H1 in H as (x & ? & ?). exists x. auto.
    + intros H. apply H1 in H as (x & ? & ?). exists x. auto.
  - intros x [Hx|Hx]%elem_of_app Hl.
    + destruct (H2 x Hx Hl) as (n & Hn & Hor). exists n. split; [|rewrite mentions_app; tauto].
      rewrite T1. destruct (_ && _); [|done]. unfold set_leader.
      destruct (iv_leader_by_term i !! nv_term v) eqn:Eo; [done|]. rewrite lookup_insert_ne; [done|].
      intros E. rewrite E in Eo. congruence.
    + apply list_elem_of_singleton in Hx as ->. rewrite T1, (proj2 Hlv Hl). unfold set_leader.
      destruct (iv_leader_by_term i !! nv_term v) as [n|] eqn:Eo.
      * exists n. split; [done|]. destruct (decide (n = nv_id v)); [by left|right].
        apply mentions_app. right. apply T3. split; [done|]. by exists n.
      * exists (nv_id v). rewrite lookup_insert_eq. split; [done|by left].
  - rewrite mentions_app. intros [H|H].
    + apply H3 in H as (v1 & v2 & ? & ? & ?). exists v1, v2. rewrite Hv. auto.
    + apply T3 in H as [Hl (n & Hn & Hne)]. apply H1 in Hn as (x & Hx & Hlx & Ht & Hid).
      exists x, v. rewrite Hv. split_and!; try done; [auto|congruence].
  - intros id t Ht. rewrite T2, H4 by done. setoid_rewrite elem_of_app. setoid_rewrite list_elem_of_singleton.
    naive_solver.
  - rewrite mentions_app, H5, T4, H4, term_lost_snoc by done. naive_solver.
  - intros k Hk. rewrite mentions_app. intros [H|H]; [|by apply Hev].
    eapply evidence_mono; [exact Hsub|]. by apply H7.
Qed.

Lemma run_inv_nodes time views ms i out i' o :
  Forall (fun v => 0 <= nv_term v) views -> run_inv ms i out ->
  check_nodes time i views = Some (i', o) -> run_inv (ms ++ (MoView <$> views)) i' (out ++ o).
Proof.
  intros Hv. revert ms i out i' o. induction Hv as [|v views Ht _ IH]; intros ms i out i' o Hr; simpl.
  - intros [= <- <-]. by rewrite !app_nil_r.
  - destruct (check_node time i v) as [[i1 o1]|] eqn:E1; [|done]. simpl.
    destruct (check_nodes time i1 views) as [[i2 o2]|] eqn:E2; [|done]. simpl. intros [= <- <-].
    rewrite app_assoc. change (list_fmap NodeView Moment MoView views) with (MoView <$> views).
    rewrite cons_middle, app_assoc. eapply IH; [|exact E2]. by eapply run_inv_view.
Qed.

Lemma run_inv_checks ms i out n : run_inv ms i out -> run_inv ms (i ⟨ iv_checks := n ⟩) out.
Proof. intros [H1 H2 H3 H4 H5 H6 H7]. split; try done. by apply (remembered_core _ i). Qed.

(** Terms are u64. *)
Definition terms_ok (evs : list CheckEvent) : Prop := forall v, v ∈ views_in (moments evs) -> 0 <= nv_term v.

Lemma views_in_views views : views_in (MoView <$> views) = views.
Proof. induction views as [|v views IH]; [done|]. unfold views_in in *. rewrite !fmap_cons. simpl. by rewrite IH. Qed.

Lemma check_run_inv evs ms i out i' o :
  terms_ok evs -> run_inv ms i out -> check_run evs i = Some (i', o) ->
  run_inv (ms ++ moments evs) i' (out ++ o).
Proof.
  revert ms i out i' o. induction evs as [|ev evs IH]; intros ms i out i' o Ht Hr; simpl.
  - intros [= <- <-]. by rewrite !app_nil_r.
  - destruct (check_event ev i) as [[i1 o1]|] eqn:E1; [|done]. simpl.
    destruct (check_run evs i1) as [[i2 o2]|] eqn:E2; [|done]. simpl. intros [= <- <-].
    assert (Hsplit : moments (ev :: evs) = moments_of ev ++ moments evs) by done.
    rewrite Hsplit, !app_assoc.
    assert (Ht' : terms_ok evs).
    { intros v Hv. apply Ht. rewrite Hsplit, views_in_app. apply elem_of_app. by right. }
    eapply IH; [done| |exact E2]. destruct ev as [from term|time views]; simpl in E1 |- *.
    + injection E1 as <- <-. rewrite app_nil_r. by apply run_inv_sent.
    + unfold invariants_observe in E1. destruct (u64_add _ _) as [n|]; [|done]. simpl in E1.
      eapply run_inv_nodes; [|by apply run_inv_checks|exact E1].
      apply Forall_forall. intros v Hv. apply Ht. rewrite Hsplit, views_in_app. apply elem_of_app. left.
      change (v ∈ views_in (MoView <$> views)). by rewrite views_in_views.
Qed.

(** ** Properties *)

(** C30. The election and the term check are exact.  Over any run of the checker that
    does not panic, "election_safety" is reported if and only if two different
    nodes were seen up and leading the same term, and "term_regression" if and
    only if a running node was seen at a term below one it had sent before. *)
Theorem election_and_term_checks_are_exact evs i out :
  terms_ok evs -> check_run evs invariants_new = Some (i, out) ->
  (mentions "election_safety" out <-> split_brain (moments evs)) /\
  (mentions "term_regression" out <-> term_lost (moments evs)).
Proof.
  intros Ht E. apply (check_run_inv _ [] _ [] _ _ Ht run_inv_new) in E as [_ H2 H3 _ H5 _ _]. simpl in *.
  split; [|done]. split; [done|]. intros (v1 & v2 & Hv1 & Hv2 & Hl1 & Hl2 & Hterm & Hne).
  destruct (H2 v1 Hv1 Hl1) as (n1 & Hn1 & [->|?]); [|done].
  destruct (H2 v2 Hv2 Hl2) as (n2 & Hn2 & [->|?]); [|done]. rewrite Hterm, Hn2 in Hn1. congruence.
Qed.

(** Reports about entries are never false alarms.  In any run a "log_matching"
    report has two logs behind it that were seen with different commands at one
    index and term; "committed_entry_changed" two views that had committed, and
    "state_machine_safety" two that had applied, different entries at one index. *)
Theorem entry_reports_have_evidence evs i out k :
  terms_ok evs -> check_run evs invariants_new = Some (i, out) ->
  k ∈ ["log_matching"; "committed_entry_changed"; "state_machine_safety"]%string ->
  mentions k out -> evidence (views_in (moments evs)) k.
Proof.
  intros Ht E. apply (check_run_inv _ [] _ [] _ _ Ht run_inv_new) in E as [_ _ _ _ _ _ H7]. apply H7.
Qed.

(** ** Witnesses *)

(** Two nodes lead term 3 with different entries at index 1, both committed; node
    1 then comes back at term 2. *)
Definition demo_leader (id term : Z) (seq : Z) : NodeView :=
  mkNodeView id true Leader term
    (mkRaftLog [mkEntry term 1 (mkCommand 7 seq Noop)] [0%nat] 47 0 0) 1 1 1 0 0 0 [0; 1; 2].
Definition demo_checks : list CheckEvent :=
  [CeObserve 10 [demo_leader 0 3 1]; CeSent 1 3; CeObserve 20 [demo_leader 1 3 2]; CeObserve 30 [demo_leader 1 2 2]].

Lemma demo_checks_terms : terms_ok demo_checks.
Proof. intros v Hv. unfold demo_checks in Hv. vm_compute in Hv. apply list_elem_of_In in Hv. simpl in Hv.
  repeat (destruct Hv as [<-|Hv]; [vm_compute; discriminate|]). done. Qed.

Definition demo_report : list Violation :=
  match check_run demo_checks invariants_new with Some (_, out) => out | None => [] end.

Lemma election_and_term_checks_are_exact_witness :
  mentions "election_safety" demo_report /\ mentions "term_regression" demo_report.
Proof.
  unfold demo_report. destruct (check_run demo_checks invariants_new) as [[i out]|] eqn:E;
    [|vm_compute in E; discriminate E].
  destruct (election_and_term_checks_are_exact demo_checks i out demo_checks_terms E) as [H1 H2].
  split; [apply H1|apply H2].
  - exists (demo_leader 0 3 1), (demo_leader 1 3 2). unfold leads, demo_checks.
    split_and!; try reflexivity; [left|right; left|discriminate].
  - exists [MoView (demo_leader 0 3 1); MoSent 1 3; MoView (demo_leader 1 3 2)], (demo_leader 1 2 2), [], 3.
    split_and!; try reflexivity. right; left.
Defined.

Lemma entry_reports_have_evidence_witness :
  mentions "state_machine_safety" demo_report /\ evidence (views_in (moments demo_checks)) "state_machine_safety".
Proof.
  assert (Hm : mentions "state_machine_safety" demo_report).
  { exists (mkViolation "state_machine_safety" 20 (Some 1)). split; [|reflexivity].
    apply list_elem_of_In. vm_compute. tauto. }
  split; [exact Hm|]. unfold demo_report in Hm.
  destruct (check_run demo_checks invariants_new) as [[i out]|] eqn:E; [|vm_compute in E; discriminate E].
  apply (entry_reports_have_evidence demo_checks i out "state_machine_safety" demo_checks_terms E); [|exact Hm].
  right; right; left.
Defined.
