(* ===== verification/Durability.v ===== *)
(** * Durability: what the disks actually say ([checker/durability.rs])

    The checks that decode the bytes that would survive a power cut with the
    recovery rules of a restarting node and compare them with what the cluster
    claims.  Decoding may panic as recovery does ([None]); the text of the
    reports is left out. *)
From Stdlib Require Import String.
From S2P Require Import Prelude Codec LogFormat RaftLog Recovery Durable Config Io RaftState Oracle.
From Stdlib.Init Require Import Byte.
Local Open Scope Z_scope.

Record DiskView : Type := mkDiskView {
  vw_id : NodeId;
  vw_bytes : list byte;
  vw_snapshots : list byte * list byte;
}.
Definition wal_only (id : NodeId) (bytes : list byte) : DiskView := mkDiskView id bytes ([], []).

(** What a node would recover if it restarted right now. *)
Record DiskRecovered : Type := mkDiskRecovered {
  rv_term : Z;
  rv_voted_for : option NodeId;
  rv_entries : list Entry;
  rv_snapshot_index : Z;
  rv_snapshot_term : Z;
}.

Definition last_entry_index (es : list Entry) : Z := default 0 (e_index <$> last es).
Definition entry_at (index : Z) (es : list Entry) : option Entry :=
  List.find (fun e => e_index e =? index) es.

Definition rv_last_index (r : DiskRecovered) : Z := last_entry_index (rv_entries r).
Definition rv_get (r : DiskRecovered) (index : Z) : option Entry :=
  if index =? 0 then None else entry_at index (rv_entries r).
Definition rv_holds (r : DiskRecovered) (index : Z) : bool :=
  (index <=? rv_snapshot_index r) || bool_decide (is_Some (rv_get r index)).
Definition rv_highest (r : DiskRecovered) : Z := Z.max (rv_last_index r) (rv_snapshot_index r).

Definition recover_with_snapshots (bytes snap_a snap_b : list byte) : option DiskRecovered :=
  let hs := recover_hard_state bytes in
  let '(snapshot_index, snapshot_term) :=
    match pick_snapshot snap_a snap_b with Some s => (sn_index s, sn_term s) | None => (0, 0) end in
  let log_bytes := if (LOG_REGION <? length bytes)%nat then drop LOG_REGION bytes else [] in
  rec ← recover_log_any_start log_bytes;
  Some (mkDiskRecovered (hs_term hs) (hs_voted_for hs)
    (List.filter (fun e => e_term e <=? hs_term hs) (rl_entries rec)) snapshot_index snapshot_term).
Definition disk_recover (bytes : list byte) : option DiskRecovered := recover_with_snapshots bytes [] [].
Definition view_recover (d : DiskView) : option DiskRecovered :=
  recover_with_snapshots (vw_bytes d) (vw_snapshots d).1 (vw_snapshots d).2.

(** ** Committed entries are durable on a majority *)

Record CommittedEntry : Type := mkCommittedEntry {
  ce_index : Z;
  ce_term : Z;
  ce_cmd : Command;
  ce_members : list NodeId;
}.

Definition votes_on (c : CommittedEntry) (id : NodeId) : bool :=
  match ce_members c with [] => true | ms => bool_decide (id ∈ ms) end.
Definition disk_holds (c : CommittedEntry) (r : DiskRecovered) : bool :=
  (ce_index c <=? rv_snapshot_index r) ||
  match rv_get r (ce_index c) with
  | Some e => (e_term e =? ce_term c) && bool_decide (e_cmd e = ce_cmd c)
  | None => false
  end.
Definition entry_holders (c : CommittedEntry) (recovered : list (NodeId * DiskRecovered)) : nat :=
  length (List.filter (fun ir => disk_holds c ir.2) (List.filter (fun ir => votes_on c ir.1) recovered)).
Definition entry_quorum (c : CommittedEntry) (cluster_size : nat) : nat :=
  (match ce_members c with [] => cluster_size | ms => length ms end / 2 + 1)%nat.

(** One report is enough. *)
Fixpoint committed_loop (time : Nanos) (committed : list CommittedEntry)
  (recovered : list (NodeId * DiskRecovered)) (cluster_size : nat) : list Violation :=
  match committed with
  | [] => []
  | c :: committed =>
      if (entry_holders c recovered <? entry_quorum c cluster_size)%nat
      then [mkViolation "committed_not_durable" time None]
      else committed_loop time committed recovered cluster_size
  end.

Definition check_committed_durable (time : Nanos) (committed : list CommittedEntry)
  (disks : list DiskView) (cluster_size : nat) : option (list Violation) :=
  recovered ← mapM (fun d => r ← view_recover d; Some (vw_id d, r)) disks;
  Some (committed_loop time committed recovered cluster_size).

(** ** A restart keeps what was durable *)

Fixpoint recovery_loop (time : Nanos) (node : NodeId) (was after : list Entry) : list Violation :=
  match was with
  | [] => []
  | e :: was =>
      match entry_at (e_index e) after with
      | None => [mkViolation "durable_entry_lost" time (Some node)]
      | Some now =>
          if bool_decide (now = e) then recovery_loop time node was after
          else [mkViolation "durable_entry_changed" time (Some node)]
      end
  end.

Definition check_recovery (time : Nanos) (node : NodeId) (before : list Entry) (durable_index : Z)
  (after : list Entry) (snapshot_after : Z) : list Violation :=
  let promised := Z.min durable_index (last_entry_index before) in
  recovery_loop time node
    (List.filter (fun e => (e_index e <=? promised) && (snapshot_after <? e_index e)) before) after.

(** ** A live node's claim *)

Definition unbacked (time : Nanos) (node : NodeId) : list Violation :=
  [mkViolation "durable_claim_unbacked" time (Some node)].

Fixpoint claim_loop (time : Nanos) (node : NodeId) (log : list Entry) (r : DiskRecovered) : list Violation :=
  match log with
  | [] => []
  | e :: log =>
      match rv_get r (e_index e) with
      | None => unbacked time node
      | Some on_disk =>
          if bool_decide (on_disk = e) then claim_loop time node log r else unbacked time node
      end
  end.

Definition check_durable_claim (time : Nanos) (node : NodeId) (log : list Entry) (durable_index : Z)
  (disk : DiskView) : option (list Violation) :=
  if durable_index =? 0 then Some []
  else
    r ← view_recover disk;
    if rv_highest r <? durable_index then Some (unbacked time node)
    else
      Some (claim_loop time node
        (List.filter (fun e => (e_index e <=? durable_index) && (rv_snapshot_index r <? e_index e)) log) r).

Definition check_term_durable (time : Nanos) (node : NodeId) (acted_term : Z) (disk : DiskView)
  : option (list Violation) :=
  r ← view_recover disk;
  Some (if rv_term r <? acted_term then [mkViolation "durable_term_lost" time (Some node)] else []).

(** ** Convergence *)

Definition check_convergence (time : Nanos)
  (states : list (NodeId * Z * gmap RString RString)) : list Violation :=
  match states with
  | [] => []
  | (_, first_applied, first_state) :: rest =>
      concat ((fun '(id, applied, state) =>
        if (applied =? first_applied) && negb (bool_decide (state = first_state))
        then [mkViolation "replicas_diverged" time (Some id)] else []) <$> rest)
  end.

(** ** The checks are exact *)

Lemma committed_loop_nil time committed recovered n :
  committed_loop time committed recovered n = [] <->
  Forall (fun c => (entry_quorum c n <= entry_holders c recovered)%nat) committed.
Proof.
  induction committed as [|c committed IH]; simpl; [split; constructor|]. rewrite Forall_cons, <-IH.
  destruct (Nat.ltb_spec (entry_holders c recovered) (entry_quorum c n)); split; try done; [lia|tauto].
Qed.

Lemma recovery_loop_nil time node was after :
  recovery_loop time node was after = [] <->
  Forall (fun e => entry_at (e_index e) after = Some e) was.
Proof.
  induction was as [|e was IH]; simpl; [split; constructor|]. rewrite Forall_cons, <-IH.
  destruct (entry_at (e_index e) after) as [now|]; [case_bool_decide as Hd|]; naive_solver.
Qed.

Lemma claim_loop_nil time node log r :
  claim_loop time node log r = [] <-> Forall (fun e => rv_get r (e_index e) = Some e) log.
Proof.
  unfold unbacked. induction log as [|e log IH]; simpl; [split; constructor|]. rewrite Forall_cons, <-IH.
  destruct (rv_get r (e_index e)) as [now|]; [case_bool_decide as Hd|]; unfold unbacked; naive_solver.
Qed.

Lemma Forall_filter_bool {A} (p : A -> bool) (Q : A -> Prop) l :
  Forall Q (List.filter p l) <-> forall x, x ∈ l -> p x = true -> Q x.
Proof.
  rewrite Forall_forall. setoid_rewrite list_elem_of_In. setoid_rewrite filter_In.
  setoid_rewrite <-list_elem_of_In. naive_solver.
Qed.

Lemma sublist_filter_bool {A} (p : A -> bool) l : List.filter p l `sublist_of` l.
Proof. induction l as [|x l IH]; simpl; [constructor|]. destruct (p x); by constructor. Qed.

(** What a disk must show for a committed entry: the entry itself, or a snapshot
    that covers it. *)
Definition shows (c : CommittedEntry) (r : DiskRecovered) : Prop :=
  ce_index c <= rv_snapshot_index r \/
  exists e, rv_get r (ce_index c) = Some e /\ e_term e = ce_term c /\ e_cmd e = ce_cmd c.

Lemma disk_holds_spec c r : disk_holds c r = true <-> shows c r.
Proof.
  unfold disk_holds, shows. rewrite orb_true_iff, Z.leb_le. f_equiv.
  destruct (rv_get r (ce_index c)) as [e|]; [|naive_solver].
  rewrite andb_true_iff, Z.eqb_eq, bool_decide_eq_true. naive_solver.
Qed.

(** A majority of the members an entry was committed under shows it. *)
Definition on_majority (cluster_size : nat) (recovered : list (NodeId * DiskRecovered)) (c : CommittedEntry) : Prop :=
  exists holders, holders `sublist_of` recovered /\
    Forall (fun ir => (ce_members c = [] \/ ir.1 ∈ ce_members c) /\ shows c ir.2) holders /\
    (match ce_members c with [] => cluster_size | ms => length ms end < 2 * length holders)%nat.

Lemma entry_quorum_spec cluster_size recovered c :
  (entry_quorum c cluster_size <= entry_holders c recovered)%nat <-> on_majority cluster_size recovered c.
Proof.
  unfold on_majority, entry_quorum, entry_holders.
  set (voters := match ce_members c with [] => cluster_size | _ => _ end).
  pose proof (Nat.div_mod_eq voters 2) as Hdiv. pose proof (Nat.mod_upper_bound voters 2).
  assert (Hvote : forall ir : NodeId * DiskRecovered,
    votes_on c ir.1 = true <-> ce_members c = [] \/ ir.1 ∈ ce_members c).
  { intros ir. unfold votes_on. destruct (ce_members c); [naive_solver|].
    rewrite bool_decide_eq_true. naive_solver. }
  split.
  - intros Hq. eexists. split; [|split; [|instantiate (1 := List.filter (fun ir => disk_holds c ir.2)
      (List.filter (fun ir => votes_on c ir.1) recovered)); lia]].
    + etrans; apply sublist_filter_bool.
    + apply Forall_filter_bool. intros ir Hin Hh. apply list_elem_of_In, filter_In in Hin as [_ Hv].
      split; [by apply Hvote|by apply disk_holds_spec].
  - intros (holders & Hsub & Hall & Hlen).
    enough (length holders <= length (List.filter (fun ir => disk_holds c ir.2)
      (List.filter (fun ir => votes_on c ir.1) recovered)))%nat by lia.
    clear Hlen. induction Hsub as [|ir l1 l2 _ IH|ir l1 l2 _ IH]; simpl; [lia| |].
    + apply Forall_cons in Hall as [[Hv%Hvote Hs%disk_holds_spec] Hall]. rewrite Hv. simpl. rewrite Hs.
      simpl. specialize (IH Hall). lia.
    + specialize (IH Hall). destruct (votes_on c ir.1); [simpl; destruct (disk_holds c ir.2); simpl; lia|lia].
Qed.

(** What the disks hold, by node. *)
Definition disks_recovered (disks : list DiskView) : option (list (NodeId * DiskRecovered)) :=
  mapM (fun d => r ← view_recover d; Some (vw_id d, r)) disks.

Lemma committed_durable_spec time committed disks cluster_size recovered :
  disks_recovered disks = Some recovered ->
  exists vs, check_committed_durable time committed disks cluster_size = Some vs /\
    (vs = [] <-> forall c, c ∈ committed -> on_majority cluster_size recovered c).
Proof.
  intros Hrec. unfold check_committed_durable. unfold disks_recovered in Hrec. rewrite Hrec. simpl. eexists.
  split; [done|]. rewrite committed_loop_nil, Forall_forall. apply forall_proper. intros c. by rewrite entry_quorum_spec.
Qed.

(** Whoever has applied as much as the first one listed holds the same data. *)
Definition agree_with_first (states : list (NodeId * Z * gmap RString RString)) : Prop :=
  match states with
  | [] => True
  | (_, applied, state) :: rest => forall id' state', (id', applied, state') ∈ rest -> state' = state
  end.

Lemma convergence_spec time states : check_convergence time states = [] <-> agree_with_first states.
Proof.
  destruct states as [|[[id applied] state] rest]; [done|]. simpl. induction rest as [|[[id' a] s] rest IH]; simpl.
  { split; [|done]. by intros _ id' s' ?%elem_of_nil. }
  destruct (Z.eqb_spec a applied) as [->|Hne]; simpl.
  - case_bool_decide as Hs; simpl.
    + rewrite IH. split; intros H id0 s0; [intros [[= -> ->]|Hin]%elem_of_cons; eauto|]. intros Hin. apply (H id0). by right.
    + split; [done|]. intros H. exfalso. apply Hs, (H id'). by left.
  - rewrite IH. split; intros H id0 s0; [intros [[= -> <- ->]|Hin]%elem_of_cons; [done|eauto]|].
    intros Hin. apply (H id0). by right.
Qed.

(** ** Properties *)

(** The claim check is exact: for a disk that can be decoded it is silent exactly
    when the node claims nothing, or what recovery would read back reaches the
    claimed index and holds, unchanged, every entry in memory up to it that the
    durable snapshot does not cover. *)
Theorem claim_check_is_exact time node log durable_index disk r :
  view_recover disk = Some r ->
  exists vs, check_durable_claim time node log durable_index disk = Some vs /\
    (vs = [] <->
     durable_index = 0 \/
     durable_index <= rv_highest r /\
     forall e, e ∈ log -> rv_snapshot_index r < e_index e <= durable_index ->
       rv_get r (e_index e) = Some e).
Proof.
  intros Hr. unfold check_durable_claim. destruct (Z.eqb_spec durable_index 0) as [->|Hne].
  { exists []. split; [done|]. split; auto. }
  rewrite Hr. simpl. destruct (Z.ltb_spec (rv_highest r) durable_index).
  { eexists. split; [done|]. split; [done|]. intros [?|[? _]]; lia. }
  eexists. split; [done|]. rewrite claim_loop_nil, Forall_filter_bool.
  setoid_rewrite andb_true_iff. setoid_rewrite Z.leb_le. setoid_rewrite Z.ltb_lt.
  split; [intros H'; right; split; [done|]; intros; apply H'; [done|lia]|].
  intros [?|[_ H']] e He Hb; [lia|]. apply H'; [done|lia].
Qed.

(** The commit check is exact: for disks that can be decoded it is silent exactly
    when every committed entry is shown by the disks of a majority of the members
    it was committed under, each disk counted as often as it is given. *)
Theorem commit_check_is_exact time committed disks cluster_size recovered :
  mapM (fun d => r ← view_recover d; Some (vw_id d, r)) disks = Some recovered ->
  exists vs, check_committed_durable time committed disks cluster_size = Some vs /\
    (vs = [] <->
     forall c, c ∈ committed ->
       exists holders, holders `sublist_of` recovered /\
         Forall (fun ir => (ce_members c = [] \/ ir.1 ∈ ce_members c) /\ shows c ir.2) holders /\
         (match ce_members c with [] => cluster_size | ms => length ms end < 2 * length holders)%nat).
Proof. apply committed_durable_spec. Qed.

(** The convergence check is exact for what it compares: it is silent exactly when
    every node that has applied as much as the first one holds the first one's
    data.  Nodes that have all applied more, or less, than the first one are not
    compared with each other: two of them may differ unreported. *)
Theorem convergence_compares_with_first :
  (forall time id applied state rest, check_convergence time ((id, applied, state) :: rest) = [] <->
     forall id' state', (id', applied, state') ∈ rest -> state' = state) /\
  exists states id1 id2 applied state1 state2, check_convergence 0 states = [] /\
    (id1, applied, state1) ∈ states /\ (id2, applied, state2) ∈ states /\ state1 <> state2.
Proof.
  split; [intros; apply convergence_spec|].
  exists [(0, 3, ∅); (1, 5, {[ [x61] := [x31] ]}); (2, 5, {[ [x61] := [x32] ]})], 1, 2, 5, {[ [x61] := [x31] ]}, {[ [x61] := [x32] ]}.
  split; [by vm_compute|]. split; [set_solver|]. split; [set_solver|].
  intros E. apply (f_equal (fun m => m !! [x61])) in E. by vm_compute in E.
Qed.

(** ** Witnesses *)

(** A write-ahead file in term 2 with the two entries of [demo_run]. *)
Definition demo_wal : list byte :=
  hard_state_to_slot (mkHardState 2 None 0) ++ replicate SLOT_SIZE x00 ++ records demo_run.
Definition demo_view (id : NodeId) : DiskView := wal_only id demo_wal.
Definition demo_recovered : DiskRecovered := mkDiskRecovered 2 None demo_run 0 0.

Lemma demo_view_recover id : view_recover (demo_view id) = Some demo_recovered.
Proof. vm_compute. reflexivity. Qed.

Lemma claim_check_is_exact_witness :
  check_durable_claim 9 1 demo_run 4 (demo_view 1) = Some [] /\
  check_durable_claim 9 1 (demo_run ++ [mkEntry 2 5 (mkCommand 7 3 Noop)]) 5 (demo_view 1) <> Some [].
Proof.
  split.
  - destruct (claim_check_is_exact 9 1 demo_run 4 (demo_view 1) demo_recovered (demo_view_recover 1))
      as (vs & -> & H).
    rewrite (proj2 H); [reflexivity|]. right. split; [vm_compute; discriminate|].
    intros e He _. unfold demo_run in He. rewrite !elem_of_cons, elem_of_nil in He.
    destruct He as [->|[->|[]]]; reflexivity.
  - vm_compute. discriminate.
Defined.

Definition demo_ce : CommittedEntry := mkCommittedEntry 4 2 (mkCommand 7 2 (Cas [x61] (Some [x62]) [x63])) [].

Lemma commit_check_is_exact_witness :
  check_committed_durable 9 [demo_ce] [demo_view 0; demo_view 1] 3 = Some [] /\
  check_committed_durable 9 [demo_ce] [demo_view 0; wal_only 1 []; wal_only 2 []] 3 <> Some [].
Proof.
  split.
  - destruct (commit_check_is_exact 9 [demo_ce] [demo_view 0; demo_view 1] 3
      [(0, demo_recovered); (1, demo_recovered)] ltac:(vm_compute; reflexivity)) as (vs & -> & H).
    rewrite (proj2 H); [reflexivity|]. intros c ->%list_elem_of_singleton.
    exists [(0, demo_recovered); (1, demo_recovered)]. split; [reflexivity|]. split; [|simpl; lia].
    repeat (apply Forall_cons; split; [split; [left; reflexivity|]|]); [..|apply Forall_nil, I];
      (right; eexists; split; [reflexivity|split; reflexivity]).
  - vm_compute. discriminate.
Defined.
