(* ===== verification/Harness.v ===== *)
(** * Harness: a run and its verdict ([harness/lib.rs], [harness/workload.rs])

    The configuration of a run, what comes out of it, and the identity of its
    failure.  The texts rendered for people are left out. *)
From Stdlib Require Import String.
From S2P Require Import Prelude Codec LogFormat Config Io Rng Disk Faults Net Trace Oracle History Linearizability.
Local Open Scope Z_scope.

Record WorkloadConfig : Type := mkWorkloadConfig {
  wl_read_weight : Z;
  wl_write_weight : Z;
  wl_cas_weight : Z;
  wl_delete_weight : Z;
  wl_keys : nat;
  wl_think_time : Nanos * Nanos;
  wl_request_timeout : Nanos;
  wl_retry_backoff : Nanos * Nanos;
  wl_max_attempts : Z;
}.
Definition workload_config_default : WorkloadConfig :=
  mkWorkloadConfig 40 40 15 5 6 (MILLIS, 20 * MILLIS) (500 * MILLIS) (10 * MILLIS, 80 * MILLIS) 15.

Record SimConfig : Type := mkSimConfig {
  sx_seed : Z;
  sx_servers : nat;
  sx_spares : nat;
  sx_clients : nat;
  sx_duration : Nanos;
  sx_settle : Nanos;
  sx_drain : Nanos;
  sx_max_events : Z;
  sx_check_every : Z;
  sx_check_durability_every : Z;
  sx_check_liveness : bool;
  sx_check_efficiency : bool;
  sx_linearizability_budget : Z;
  sx_net : NetConfig;
  sx_disk : DiskConfig;
  sx_faults : FaultConfig;
  sx_raft : RaftConfig;
  sx_workload : WorkloadConfig;
  sx_trace_level : Level;
}.
Definition sim_config_eta (c : SimConfig) : SimConfig :=
  mkSimConfig (sx_seed c) (sx_servers c) (sx_spares c) (sx_clients c) (sx_duration c) (sx_settle c)
    (sx_drain c) (sx_max_events c) (sx_check_every c) (sx_check_durability_every c)
    (sx_check_liveness c) (sx_check_efficiency c) (sx_linearizability_budget c) (sx_net c) (sx_disk c)
    (sx_faults c) (sx_raft c) (sx_workload c) (sx_trace_level c).
#[export] Instance set_sx_seed : Setter sx_seed. Proof. build_setter sim_config_eta. Defined.
#[export] Instance set_sx_servers : Setter sx_servers. Proof. build_setter sim_config_eta. Defined.
#[export] Instance set_sx_spares : Setter sx_spares. Proof. build_setter sim_config_eta. Defined.
#[export] Instance set_sx_clients : Setter sx_clients. Proof. build_setter sim_config_eta. Defined.
#[export] Instance set_sx_duration : Setter sx_duration. Proof. build_setter sim_config_eta. Defined.
#[export] Instance set_sx_settle : Setter sx_settle. Proof. build_setter sim_config_eta. Defined.
#[export] Instance set_sx_drain : Setter sx_drain. Proof. build_setter sim_config_eta. Defined.
#[export] Instance set_sx_net : Setter sx_net. Proof. build_setter sim_config_eta. Defined.
#[export] Instance set_sx_disk : Setter sx_disk. Proof. build_setter sim_config_eta. Defined.
#[export] Instance set_sx_faults : Setter sx_faults. Proof. build_setter sim_config_eta. Defined.
#[export] Instance set_sx_raft : Setter sx_raft. Proof. build_setter sim_config_eta. Defined.
#[export] Instance set_sx_workload : Setter sx_workload. Proof. build_setter sim_config_eta. Defined.
#[export] Instance set_sx_trace_level : Setter sx_trace_level. Proof. build_setter sim_config_eta. Defined.
#[export] Instance set_sx_max_events : Setter sx_max_events. Proof. build_setter sim_config_eta. Defined.
#[export] Instance set_sx_budget : Setter sx_linearizability_budget. Proof. build_setter sim_config_eta. Defined.
#[export] Instance set_sx_check_durability_every : Setter sx_check_durability_every.
Proof. build_setter sim_config_eta. Defined.
#[export] Instance set_sx_check_liveness : Setter sx_check_liveness. Proof. build_setter sim_config_eta. Defined.

Definition raft_config_eta (c : RaftConfig) : RaftConfig :=
  mkRaftConfig (cfg_election_timeout c) (cfg_heartbeat_interval c) (cfg_max_batch c)
    (cfg_snapshot_threshold c) (cfg_read_mode c) (cfg_leader_stickiness c) (cfg_pre_vote c) (cfg_bug c).
#[export] Instance set_cfg_read_mode : Setter cfg_read_mode. Proof. build_setter raft_config_eta. Defined.
#[export] Instance set_cfg_pre_vote : Setter cfg_pre_vote. Proof. build_setter raft_config_eta. Defined.
#[export] Instance set_cfg_bug : Setter cfg_bug. Proof. build_setter raft_config_eta. Defined.
#[export] Instance set_cfg_max_batch : Setter cfg_max_batch. Proof. build_setter raft_config_eta. Defined.
#[export] Instance set_cfg_snapshot_threshold : Setter cfg_snapshot_threshold.
Proof. build_setter raft_config_eta. Defined.
#[export] Instance set_cfg_leader_stickiness : Setter cfg_leader_stickiness.
Proof. build_setter raft_config_eta. Defined.
#[export] Instance set_fc_allow_quorum_loss : Setter fc_allow_quorum_loss.
Proof. build_setter fault_config_eta. Defined.
#[export] Instance set_fc_peer_isolate_weight : Setter fc_peer_isolate_weight.
Proof. build_setter fault_config_eta. Defined.
#[export] Instance set_fc_enable_reconfig : Setter fc_enable_reconfig.
Proof. build_setter fault_config_eta. Defined.
#[export] Instance set_fc_fresh_leader_reconfig_ppm : Setter fc_fresh_leader_reconfig_ppm.
Proof. build_setter fault_config_eta. Defined.

Definition with_bug (bug : InjectedBug) (c : SimConfig) : SimConfig :=
  c ⟨ sx_raft := (sx_raft c) ⟨ cfg_bug := bug ⟩ ⟩.
Definition with_reconfig (spares : nat) (c : SimConfig) : SimConfig :=
  c ⟨ sx_spares := spares ⟩ ⟨ sx_faults := (sx_faults c) ⟨ fc_enable_reconfig := true ⟩ ⟩.
Definition config_slots (c : SimConfig) : nat := (sx_servers c + sx_spares c)%nat.

Definition sim_config_default : SimConfig := {|
  sx_seed := 0;
  sx_servers := 3;
  sx_spares := 0;
  sx_clients := 4;
  sx_duration := 20 * SECONDS;
  sx_settle := 15 * SECONDS;
  sx_drain := 5 * SECONDS;
  sx_max_events := 4000000;
  sx_check_every := 1;
  sx_check_durability_every := 200;
  sx_check_liveness := true;
  sx_check_efficiency := true;
  sx_linearizability_budget := DEFAULT_BUDGET;
  sx_net := net_config_hostile;
  sx_disk := disk_config_hostile;
  sx_faults := fault_config_default ⟨ fc_window := (500 * MILLIS, 20 * SECONDS) ⟩;
  sx_raft := raft_config_default;
  sx_workload := workload_config_default;
  sx_trace_level := LOff;
|}.
Definition with_seed (seed : Z) : SimConfig := sim_config_default ⟨ sx_seed := seed ⟩.
Definition sim_config_benign (seed : Z) : SimConfig :=
  sim_config_default ⟨ sx_seed := seed ⟩ ⟨ sx_duration := 5 * SECONDS ⟩ ⟨ sx_settle := 2 * SECONDS ⟩
    ⟨ sx_drain := 2 * SECONDS ⟩ ⟨ sx_net := net_config_reliable ⟩ ⟨ sx_disk := disk_config_reliable ⟩
    ⟨ sx_faults := fault_config_none ⟩.

(** [normalise]: the fault window ends with the run. *)
Definition normalise (c : SimConfig) : SimConfig :=
  let start := Z.min (fc_window (sx_faults c)).1 (sx_duration c) in
  c ⟨ sx_faults := (sx_faults c) ⟨ fc_window := (start, sx_duration c) ⟩ ⟩.
Definition total_time (c : SimConfig) : option Nanos :=
  t ← u64_add (sx_duration c) (sx_settle c); u64_add t (sx_drain c).

Record RunStats : Type := mkRunStats {
  ru_events : Z; ru_sim_time : Nanos; ru_ops_started : Z; ru_ops_completed : Z; ru_ops_abandoned : Z;
  ru_retries : Z; ru_max_committed : Z; ru_elections : Z; ru_leaders_elected : Z; ru_truncations : Z;
  ru_crashes : Z; ru_restarts : Z; ru_io_failures : Z; ru_partitions : Z; ru_messages_sent : Z;
  ru_messages_delivered : Z; ru_messages_dropped : Z; ru_bad_messages : Z; ru_linearizability_steps : Z;
  ru_index_reads : Z; ru_reconfigs : Z; ru_reconfigs_refused : Z; ru_fresh_leader_reconfigs : Z;
}.

(** The rendered trace is left out. *)
Record RunOutcome : Type := mkRunOutcome {
  oc_seed : Z;
  oc_config : SimConfig;
  oc_fingerprint : Z;
  oc_report : Report;
  oc_verdict : Verdict;
  oc_stats : RunStats;
  oc_incomplete : bool;
  oc_history : History;
}.
Definition run_failed (o : RunOutcome) : bool := negb (report_is_empty (oc_report o)).
Definition run_signature (o : RunOutcome) : string :=
  default (if oc_incomplete o then "incomplete" else "ok")%string (report_signature (oc_report o)).
