(* ===== verification/Client.v ===== *)
(** * Client: simulated clients and the history they record ([harness/workload.rs])

    A client runs one operation at a time: it sends a request to the server it
    takes for the leader, tries again with the same sequence number on a timeout
    or a redirect, and gives up after a number of attempts.  Its handlers run on
    the client and on the history all clients share; [now] is the true time. *)
From Stdlib Require Import String.
From S2P Require Import Prelude Codec Crc LogFormat Messages Config StateMachine Io Rng Draw Faults Trace History Harness.
From Stdlib.Init Require Import Byte.
Local Open Scope Z_scope.

Definition TIMER_REQUEST : TimerTag := 1.
Definition TIMER_THINK : TimerTag := 2.
Definition TIMER_RETRY : TimerTag := 3.

Record InFlight : Type := mkInFlight {
  if_history_id : Z;
  if_seq : Z;
  if_req_id : Z;
  if_op : Op;
  if_attempts : Z;
  if_timer : option Z;
}.
Definition inflight_eta (f : InFlight) : InFlight :=
  mkInFlight (if_history_id f) (if_seq f) (if_req_id f) (if_op f) (if_attempts f) (if_timer f).
#[export] Instance set_if_req_id : Setter if_req_id. Proof. build_setter inflight_eta. Defined.
#[export] Instance set_if_attempts : Setter if_attempts. Proof. build_setter inflight_eta. Defined.
#[export] Instance set_if_timer : Setter if_timer. Proof. build_setter inflight_eta. Defined.

Record ClientStats : Type := mkClientStats {
  ct_started : Z;
  ct_completed : Z;
  ct_abandoned : Z;
  ct_retries : Z;
  ct_redirects : Z;
  ct_stale_replies : Z;
}.
Definition client_stats_default : ClientStats := mkClientStats 0 0 0 0 0 0.
Definition client_stats_eta (s : ClientStats) : ClientStats :=
  mkClientStats (ct_started s) (ct_completed s) (ct_abandoned s) (ct_retries s) (ct_redirects s)
    (ct_stale_replies s).
#[export] Instance set_ct_started : Setter ct_started. Proof. build_setter client_stats_eta. Defined.
#[export] Instance set_ct_completed : Setter ct_completed. Proof. build_setter client_stats_eta. Defined.
#[export] Instance set_ct_abandoned : Setter ct_abandoned. Proof. build_setter client_stats_eta. Defined.
#[export] Instance set_ct_retries : Setter ct_retries. Proof. build_setter client_stats_eta. Defined.
#[export] Instance set_ct_redirects : Setter ct_redirects. Proof. build_setter client_stats_eta. Defined.
#[export] Instance set_ct_stale_replies : Setter ct_stale_replies. Proof. build_setter client_stats_eta. Defined.

Record Client : Type := mkClient {
  cl_id : Z;
  cl_node : NodeId;
  cl_servers : list NodeId;
  cl_target : nat;
  cl_seq : Z;
  cl_next_req_id : Z;
  cl_next_history_id : Z;
  cl_inflight : option InFlight;
  cl_backing_off : bool;
  cl_known : gmap RString (option RString);
  cl_rng : Rng;
  cl_cfg : WorkloadConfig;
  cl_stopped : bool;
  cl_stats : ClientStats;
}.
Definition client_eta (c : Client) : Client :=
  mkClient (cl_id c) (cl_node c) (cl_servers c) (cl_target c) (cl_seq c) (cl_next_req_id c)
    (cl_next_history_id c) (cl_inflight c) (cl_backing_off c) (cl_known c) (cl_rng c) (cl_cfg c)
    (cl_stopped c) (cl_stats c).
#[export] Instance set_cl_target : Setter cl_target. Proof. build_setter client_eta. Defined.
#[export] Instance set_cl_seq : Setter cl_seq. Proof. build_setter client_eta. Defined.
#[export] Instance set_cl_next_req_id : Setter cl_next_req_id. Proof. build_setter client_eta. Defined.
#[export] Instance set_cl_next_history_id : Setter cl_next_history_id. Proof. build_setter client_eta. Defined.
#[export] Instance set_cl_inflight : Setter cl_inflight. Proof. build_setter client_eta. Defined.
#[export] Instance set_cl_backing_off : Setter cl_backing_off. Proof. build_setter client_eta. Defined.
#[export] Instance set_cl_known : Setter cl_known. Proof. build_setter client_eta. Defined.
#[export] Instance set_cl_rng : Setter cl_rng. Proof. build_setter client_eta. Defined.
#[export] Instance set_cl_stopped : Setter cl_stopped. Proof. build_setter client_eta. Defined.
#[export] Instance set_cl_stats : Setter cl_stats. Proof. build_setter client_eta. Defined.

Definition client_new (id : Z) (node : NodeId) (servers : list NodeId) (seed : Z) (cfg : WorkloadConfig)
  : option Client :=
  '(target, rng) ← rng_below (Z.of_nat (length servers)) (rng_new seed);
  Some (mkClient id node servers (Z.to_nat target) 0 1 1 None false ∅ rng cfg false client_stats_default).

Definition client_is_idle (c : Client) : bool := bool_decide (cl_inflight c = None).
Definition client_stop (c : Client) : Client := c ⟨ cl_stopped := true ⟩.
Definition client_resume (c : Client) : Client := c ⟨ cl_stopped := false ⟩.

(** [(id as u64) << 32 | history_id] *)
Definition history_key (id history_id : Z) : Z := Z.lor (shl64 id 32) history_id.

(** The text of a key or a value. *)
Definition text (s : string) : RString := String.list_byte_of_string s.

Definition client_remember (op : Op) (outcome : Outcome) (known : gmap RString (option RString))
  : gmap RString (option RString) :=
  match op, outcome with
  | Get key, OValue v => <[key := v]> known
  | Put key value, Written => <[key := Some value]> known
  | Delete key, Written => <[key := None]> known
  | Cas key _ value, OCas true => <[key := Some value]> known
  | Cas key _ _, OCas false => delete key known
  | _, _ => known
  end.

(** The operation a pick stands for. *)
Definition op_of_pick (c : WorkloadConfig) (known : gmap RString (option RString)) (key value : RString)
  (pick : Z) : Op :=
  if pick <? wl_read_weight c then Get key
  else
    let pick := pick - wl_read_weight c in
    if pick <? wl_write_weight c then Put key value
    else
      let pick := pick - wl_write_weight c in
      if pick <? wl_cas_weight c then Cas key (default None (known !! key)) value
      else Delete key.

Section Client.
Context {W : Type} `{Io W}.

(** A client at work, with the history. *)
Abbreviation CM := (M W (Client * History)).

Definition cl_get : CM Client := s ← get; mret s.1.
Definition cl_modify (f : Client -> Client) : CM unit := modify (fun s => (f s.1, s.2)).
Definition on_history {A} (f : History -> option (A * History)) : CM A :=
  s ← get;
  '(a, h) ← lift (f s.2);
  modify (fun s => (s.1, h)) ;;
  mret a.
Definition cl_draw {A} (m : Draw A) : CM A :=
  c ← cl_get;
  '(a, rng) ← lift (m (cl_rng c));
  cl_modify (fun c => c ⟨ cl_rng := rng ⟩) ;;
  mret a.
(** [self.stats.f += 1] *)
Definition cbump (f : ClientStats -> Z) `{!Setter f} : CM unit :=
  c ← cl_get;
  v ← add64 (f (cl_stats c)) 1;
  cl_modify (fun c => c ⟨ cl_stats := (cl_stats c) ⟨ f := v ⟩ ⟩).

Definition rotate_target : CM unit :=
  c ← cl_get;
  let n := length (cl_servers c) in
  when (1 <? n)%nat
    (next ← cl_draw (below (Z.of_nat n));
     let next := Z.to_nat next in
     let next := if (next =? cl_target c)%nat then (S next mod n)%nat else next in
     cl_modify (fun c => c ⟨ cl_target := next ⟩)).

Definition pick_op : CM Op :=
  c ← cl_get;
  let cfg := cl_cfg c in
  k ← cl_draw (below (Z.of_nat (wl_keys cfg)));
  let key := text ("k" ++ decimal k) in
  next ← add64 (cl_seq c) 1;
  let value := text ("c" ++ decimal (cl_id c) ++ "v" ++ decimal next) in
  total ← lift (u32_add (wl_read_weight cfg) (wl_write_weight cfg));
  total ← lift (u32_add total (wl_cas_weight cfg));
  total ← lift (u32_add total (wl_delete_weight cfg));
  pick ← cl_draw (below (Z.max total 1));
  mret (op_of_pick cfg (cl_known c) key value (wrap32 pick)).

(** Send the current operation to the current target. *)
Definition attempt : CM unit :=
  c ← cl_get;
  match cl_inflight c with
  | None => mret tt
  | Some f =>
      attempts ← lift (u32_add (if_attempts f) 1);
      req_id ← add64 (cl_next_req_id c) 1;
      cl_modify (fun c => c ⟨ cl_next_req_id := req_id ⟩) ;;
      to ← lift (cl_servers c !! cl_target c);
      handle ← set_timer (wl_request_timeout (cl_cfg c)) TIMER_REQUEST;
      cl_modify (fun c => c ⟨ cl_inflight :=
        Some (f ⟨ if_attempts := attempts ⟩ ⟨ if_req_id := req_id ⟩ ⟨ if_timer := Some handle ⟩) ⟩) ;;
      send_bytes to (message_encode (MClient (Request req_id (cl_id c) (if_seq f) (if_op f))))
  end.

Definition client_begin (now : Nanos) : CM unit :=
  c ← cl_get;
  if cl_stopped c || bool_decide (is_Some (cl_inflight c)) then mret tt
  else
    cl_modify (fun c => c ⟨ cl_backing_off := false ⟩) ;;
    op ← pick_op;
    seq ← add64 (cl_seq c) 1;
    let history_id := cl_next_history_id c in
    next ← add64 history_id 1;
    cl_modify (fun c => c ⟨ cl_seq := seq ⟩ ⟨ cl_next_history_id := next ⟩) ;;
    cbump ct_started ;;
    on_history (fun h => Some (tt, history_push
      (mkOperation (history_key (cl_id c) history_id) (cl_id c) op now None None) h)) ;;
    cl_modify (fun c => c ⟨ cl_inflight := Some (mkInFlight history_id seq 0 op 0 None) ⟩) ;;
    attempt.

Definition think (now : Nanos) : CM unit :=
  c ← cl_get;
  if cl_stopped c then mret tt
  else
    delay ← cl_draw (range (wl_think_time (cl_cfg c)).1 (wl_think_time (cl_cfg c)).2);
    if delay =? 0 then client_begin now
    else set_timer delay TIMER_THINK ;; mret tt.

(** Cancel the timer of the current attempt. *)
Definition cancel_attempt (timer : option Z) : CM unit :=
  match timer with Some h => cancel_timer h | None => mret tt end.

Definition retry (now delay : Nanos) : CM unit :=
  c ← cl_get;
  match cl_inflight c with
  | None => mret tt
  | Some f =>
      cl_modify (fun c => c ⟨ cl_inflight := Some (f ⟨ if_timer := None ⟩) ⟩) ;;
      cancel_attempt (if_timer f) ;;
      if wl_max_attempts (cl_cfg c) <=? if_attempts f then
        cbump ct_abandoned ;;
        cl_modify (fun c => c ⟨ cl_inflight := None ⟩) ;;
        think now
      else
        cbump ct_retries ;;
        if delay =? 0 then attempt
        else
          cl_modify (fun c => c ⟨ cl_backing_off := true ⟩) ;;
          set_timer delay TIMER_RETRY ;; mret tt
  end.

Definition client_finish (now : Nanos) (outcome : Outcome) : CM unit :=
  c ← cl_get;
  match cl_inflight c with
  | None => mret tt
  | Some f =>
      cl_modify (fun c => c ⟨ cl_inflight := None ⟩ ⟨ cl_backing_off := false ⟩) ;;
      cancel_attempt (if_timer f) ;;
      cbump ct_completed ;;
      cl_modify (fun c => c ⟨ cl_known := client_remember (if_op f) outcome (cl_known c) ⟩) ;;
      on_history (history_complete (history_key (cl_id c) (if_history_id f)) now outcome) ;;
      observe "client_done" [cl_id c; if_seq f] ;;
      think now
  end.

Definition position_in (n : NodeId) (servers : list NodeId) : option nat :=
  fst <$> list_find (fun s => s = n) servers.

(** Where to turn after an answer that is none. *)
Definition redirected (outcome : Outcome) : CM unit :=
  match outcome with
  | NotLeader hint =>
      cbump ct_redirects ;;
      match hint with
      | Some n =>
          c ← cl_get;
          match position_in n (cl_servers c) with
          | Some i => cl_modify (fun c => c ⟨ cl_target := i ⟩)
          | None => mret tt
          end
      | None => rotate_target
      end
  | _ => rotate_target
  end.

Definition client_on_bytes (now : Nanos) (bytes : list byte) : CM unit :=
  match message_decode bytes with
  | Ok (MClient (Reply req_id outcome)) =>
      c ← cl_get;
      match cl_inflight c with
      | None => cbump ct_stale_replies
      | Some f =>
          if negb (if_req_id f =? req_id) then cbump ct_stale_replies
          else if outcome_is_definite outcome then client_finish now outcome
          else
            redirected outcome ;;
            backoff ← cl_draw (range (wl_retry_backoff (cl_cfg c)).1 (wl_retry_backoff (cl_cfg c)).2);
            retry now backoff
      end
  | _ => cbump ct_stale_replies
  end.

Definition client_on_timer (now : Nanos) (tag : TimerTag) : CM unit :=
  if tag =? TIMER_REQUEST then
    c ← cl_get;
    when (bool_decide (is_Some (cl_inflight c)) && negb (cl_backing_off c))
      (rotate_target ;; retry now 0)
  else if tag =? TIMER_RETRY then
    c ← cl_get;
    when (cl_backing_off c && bool_decide (is_Some (cl_inflight c)))
      (cl_modify (fun c => c ⟨ cl_backing_off := false ⟩) ;; attempt)
  else if tag =? TIMER_THINK then client_begin now
  else mret tt.

End Client.
