(* ===== verification/ClientRules.v ===== *)
(** * ClientRules: what clients write into the history ([harness/workload.rs])

    Whatever arrives and whatever the world answers, the history stays well
    formed, a client adds only its own operations, one after the other, sends
    only requests for them, a bounded number each, and records as an answer only
    what a server replied to an attempt at that very operation. *)
From Stdlib Require Import String.
From S2P Require Import Prelude Codec Crc LogFormat Messages Config StateMachine Io Rng Draw Faults Trace History Harness Client.
From Stdlib.Init Require Import Byte.
Local Open Scope Z_scope.

(** ** Keys of the history *)

Lemma history_key_val id s : is_u32 id -> 0 <= s < 2 ^ 32 -> history_key id s = id * 2 ^ 32 + s.
Proof.
  intros Hid Hs. unfold history_key, shl64, wrap64. unfold is_u32 in Hid.
  rewrite Z.shiftl_mul_pow2 by lia. rewrite Z.mod_small by lia.
  rewrite <-Z.add_lor_land.
  assert (E : Z.land (id * 2 ^ 32) s = 0); [|lia].
  apply Z.bits_inj'. intros n Hn. rewrite Z.land_spec, Z.bits_0.
  destruct (Z.lt_ge_cases n 32).
  - by rewrite Z.mul_pow2_bits_low.
  - rewrite (Z.bits_above_log2 s n), andb_false_r; [done|lia|].
    destruct (Z.eq_dec s 0) as [->|]; [simpl; lia|].
    enough (Z.log2 s < 32) by lia. apply Z.log2_lt_pow2; lia.
Qed.

Lemma history_key_inj id s id' s' :
  is_u32 id -> is_u32 id' -> 0 <= s < 2 ^ 32 -> 0 <= s' < 2 ^ 32 ->
  history_key id s = history_key id' s' -> id = id' /\ s = s'.
Proof. intros ? ? ? ?. rewrite !history_key_val by done. unfold is_u32 in *. lia. Qed.

(** ** The history all clients share *)

(** The operations of one client, oldest first. *)
Definition own (id : Z) (h : History) : list Operation := filter (fun o => lo_client o = id) (h_ops h).

(** When an operation was invoked, and with what it was answered, if it was. *)
Definition op_times_ok (now : Nanos) (o : Operation) : Prop :=
  lo_invoked o <= now /\
  match lo_completed o, lo_outcome o with
  | Some t, Some out => lo_invoked o <= t <= now /\ outcome_is_definite out = true
  | None, None => True
  | _, _ => False
  end.

Record history_ok (now : Nanos) (h : History) : Prop := {
  ho_index : forall i o, h_ops h !! i = Some o -> h_index h !! lo_id o = Some i;
  ho_times : forall o, o ∈ h_ops h -> op_times_ok now o;
  ho_key : forall o, o ∈ h_ops h -> is_u32 (lo_client o) /\
    exists s, 0 < s < 2 ^ 32 /\ lo_id o = history_key (lo_client o) s;
}.

Lemma history_new_ok now : history_ok now history_new.
Proof. split; simpl; [by intros [|?]|by intros ? ?%elem_of_nil..]. Qed.

Lemma op_times_later now now' o : now <= now' -> op_times_ok now o -> op_times_ok now' o.
Proof.
  intros Hle [H1 H2]. split; [lia|]. destruct (lo_completed o), (lo_outcome o); try done.
  destruct H2. split; [lia|done].
Qed.

Lemma history_ok_later now now' h : now <= now' -> history_ok now h -> history_ok now' h.
Proof. intros Hle [H1 H2 H3]. split; eauto using op_times_later. Qed.

Lemma history_ids_nodup now h : history_ok now h -> NoDup (lo_id <$> h_ops h).
Proof.
  intros Hh. apply NoDup_alt. intros i j k. rewrite !list_lookup_fmap.
  destruct (h_ops h !! i) as [a|] eqn:Ea; [|done]. destruct (h_ops h !! j) as [b|] eqn:Eb; [|done].
  simpl. intros [= E1] [= E2]. apply (ho_index _ _ Hh) in Ea, Eb. congruence.
Qed.

Lemma own_elem id h o : o ∈ own id h <-> o ∈ h_ops h /\ lo_client o = id.
Proof. unfold own. rewrite list_elem_of_filter. naive_solver. Qed.

Lemma own_all id h : (forall o, o ∈ h_ops h -> lo_client o = id) -> own id h = h_ops h.
Proof.
  unfold own. induction (h_ops h) as [|o l IH]; intros Hl; [done|]. rewrite filter_cons.
  rewrite decide_True by (apply Hl; by left). f_equal. apply IH. intros x Hx. apply Hl. by right.
Qed.

Lemma own_ids_nodup now id h : history_ok now h -> NoDup (lo_id <$> own id h).
Proof.
  intros Hh. apply history_ids_nodup in Hh. unfold own. induction (h_ops h) as [|o l IH]; [done|].
  rewrite fmap_cons in Hh. apply NoDup_cons in Hh as [Hn Hl]. rewrite filter_cons. case_decide; [|auto].
  rewrite fmap_cons. apply NoDup_cons. split; [|auto]. intros (x & E & Hx)%list_elem_of_fmap.
  apply list_elem_of_filter in Hx as [_ Hx]. apply Hn. apply list_elem_of_fmap. eauto.
Qed.

(** What the driver asks of a history in the end. *)
Lemma well_formed_from_ok now seen ops :
  NoDup (lo_id <$> ops) -> (forall o, o ∈ ops -> lo_id o ∉ seen) -> (forall o, o ∈ ops -> op_times_ok now o) ->
  well_formed_from seen ops = Ok tt.
Proof.
  revert seen. induction ops as [|o ops IH]; intros seen Hnd Hseen Ht; [done|]. simpl.
  rewrite fmap_cons in Hnd. apply NoDup_cons in Hnd as [Hn Hnd].
  assert (Hc : check_operation seen o = Ok tt).
  { unfold check_operation. rewrite bool_decide_eq_false_2 by (apply Hseen; by left).
    destruct (Ht o ltac:(by left)) as [_ Hd]. destruct (lo_completed o), (lo_outcome o); try done.
    rewrite (proj2 (Z.ltb_ge _ _)) by lia. done. }
  rewrite Hc. simpl. apply IH; [done| |].
  - intros o' Ho' [E%elem_of_singleton|E]%elem_of_union.
    + apply Hn. rewrite <-E. by apply list_elem_of_fmap_2.
    + by apply (Hseen o'); [right|].
  - intros o' Ho'. apply Ht. by right.
Qed.

Lemma history_ok_well_formed now h : history_ok now h -> history_well_formed h = Ok tt.
Proof.
  intros Hh. eapply well_formed_from_ok; [by eapply history_ids_nodup| |].
  - intros o _. set_solver.
  - apply (ho_times _ _ Hh).
Qed.

(** ** Adding and answering an operation *)

Lemma own_push id op h : own id (history_push op h) = own id h ++ (if decide (lo_client op = id) then [op] else []).
Proof. unfold own, history_push. simpl. rewrite filter_app, filter_cons, filter_nil. done. Qed.

Lemma history_push_ok now h op s :
  history_ok now h -> is_u32 (lo_client op) -> 0 < s < 2 ^ 32 -> lo_id op = history_key (lo_client op) s ->
  (forall o s', o ∈ own (lo_client op) h -> lo_id o = history_key (lo_client op) s' -> 0 < s' < 2 ^ 32 -> s' ≠ s) ->
  op_times_ok now op -> history_ok now (history_push op h).
Proof.
  intros [H1 H2 H3] Hid Hs Hk Hfresh Ht.
  assert (Hne : forall o, o ∈ h_ops h -> lo_id o ≠ lo_id op).
  { intros o Ho E. destruct (H3 o Ho) as (Hu & s' & Hs' & Hk'). rewrite Hk, Hk' in E.
    apply history_key_inj in E as [Ec ->]; [|done|done|lia|lia].
    eapply (Hfresh o s); [by apply own_elem|by rewrite <-Ec|done|done]. }
  split; simpl.
  - intros i o. destruct (Nat.lt_ge_cases i (length (h_ops h))) as [Hi|Hi].
    + rewrite lookup_app_l by done. intros Ho. rewrite lookup_insert_ne; [by apply H1|].
      apply not_eq_sym, Hne. by eapply list_elem_of_lookup_2.
    + rewrite lookup_app_r by done. destruct (i - length (h_ops h))%nat eqn:E; [|done].
      intros [= <-]. rewrite lookup_insert_eq. f_equal. lia.
  - intros o [Ho| ->%list_elem_of_singleton]%elem_of_app; auto.
  - intros o [Ho| ->%list_elem_of_singleton]%elem_of_app; eauto.
Qed.

Definition answered_op (o : Operation) (t : Nanos) (out : Outcome) : Operation :=
  mkOperation (lo_id o) (lo_client o) (lo_op o) (lo_invoked o) (Some t) (Some out).

(** In a list without duplicates the last element occurs at the end only. *)
Lemma split_at_last {A B} (f : A -> B) (l1 l2 l : list A) (a : A) :
  NoDup (f <$> (l1 ++ a :: l2)) -> l1 ++ a :: l2 = l ++ [a] -> l1 = l /\ l2 = [].
Proof.
  intros Hnd E. destruct l2 as [|b l2 _] using rev_ind.
  - by apply app_inj_tail in E as [-> _].
  - exfalso. rewrite app_comm_cons, app_assoc in E. apply app_inj_tail in E as [_ ->].
    rewrite fmap_app in Hnd. apply NoDup_app in Hnd as (_ & _ & Hnd).
    rewrite fmap_cons in Hnd. apply NoDup_cons in Hnd as [Hn _]. apply Hn.
    rewrite fmap_app. simpl. set_solver.
Qed.

Lemma history_complete_ok now h l o out :
  history_ok now h -> own (lo_client o) h = l ++ [o] -> outcome_is_definite out = true ->
  exists h', history_complete (lo_id o) now out h = Some (true, h') /\ history_ok now h' /\
    own (lo_client o) h' = l ++ [answered_op o now out] /\
    forall d, d ≠ lo_client o -> own d h' = own d h.
Proof.
  intros Hh Hown Hdef.
  assert (Ho : o ∈ h_ops h) by (apply (own_elem (lo_client o)); rewrite Hown; set_solver).
  pose proof (own_ids_nodup _ (lo_client o) _ Hh) as Hnd. destruct Hh as [H1 H2 H3].
  destruct (list_elem_of_lookup_1 _ _ Ho) as [i Hi].
  unfold history_complete. rewrite (H1 _ _ Hi), Hi. simpl.
  eexists. split; [done|]. change (mkOperation _ _ _ _ _ _) with (answered_op o now out).
  set (o' := answered_op o now out). pose proof (lookup_lt_Some _ _ _ Hi) as Hlt.
  assert (Esplit : h_ops h = take i (h_ops h) ++ o :: drop (S i) (h_ops h)) by by rewrite take_drop_middle.
  assert (Eins : <[i:=o']> (h_ops h) = take i (h_ops h) ++ o' :: drop (S i) (h_ops h)).
  { rewrite insert_take_drop by done. done. }
  split; [|split].
  - split; simpl.
    + intros j x. destruct (decide (j = i)) as [->|Hne].
      * rewrite list_lookup_insert_eq by done. intros [= <-]. simpl. by apply H1.
      * rewrite list_lookup_insert_ne by done. apply H1.
    + intros x [j Hj]%list_elem_of_lookup. destruct (decide (j = i)) as [->|Hne].
      * rewrite list_lookup_insert_eq in Hj by done. injection Hj as <-.
        destruct (H2 o Ho). split; simpl; [done|]. split; [lia|done].
      * rewrite list_lookup_insert_ne in Hj by done. apply H2. by eapply list_elem_of_lookup_2.
    + intros x [j Hj]%list_elem_of_lookup. destruct (decide (j = i)) as [->|Hne].
      * rewrite list_lookup_insert_eq in Hj by done. injection Hj as <-. simpl. by apply H3.
      * rewrite list_lookup_insert_ne in Hj by done. apply H3. by eapply list_elem_of_lookup_2.
  - unfold own in *. simpl. rewrite Esplit, filter_app, filter_cons in Hown, Hnd. rewrite decide_True in Hown, Hnd by done.
    apply (split_at_last lo_id) in Hown as [E1 E2]; [|done].
    rewrite Eins, filter_app, filter_cons. simpl. rewrite decide_True by done. by rewrite E1, E2.
  - intros d Hd. unfold own. simpl. rewrite Eins. rewrite Esplit at 3.
    rewrite !filter_app, !filter_cons. simpl. rewrite !decide_False by (intros E; by apply Hd). done.
Qed.

(** ** What holds of a client between two events *)

Definition request_bytes (id r seq : Z) (op : Op) : list byte := message_encode (MClient (Request r id seq op)).

(** Operation [seq] of client [id] is in the history. *)
Definition asked (id seq : Z) (op : Op) (h : History) : Prop :=
  exists o, o ∈ own id h /\ lo_id o = history_key id seq /\ lo_op o = op.

Definition sent_ok (id : Z) (servers : list NodeId) (h : History) (ev : IoEvent) : Prop :=
  match ev with
  | EvSend to bytes =>
      to ∈ servers /\ exists r seq op, bytes = request_bytes id r seq op /\ asked id seq op h
  | _ => True
  end.
Definition attempted (id : Z) (tr : list IoEvent) (r seq : Z) (op : Op) : Prop :=
  exists to, EvSend to (request_bytes id r seq op) ∈ tr.

(** The answer says what became of the operation, and was received in reply to an
    attempt at it. *)
Definition answer_ok (id : Z) (tr : list IoEvent) (arrived : list (Nanos * list byte)) (o : Operation) : Prop :=
  forall t out, lo_completed o = Some t -> lo_outcome o = Some out ->
    outcome_is_definite out = true /\
    exists r seq bytes, lo_id o = history_key id seq /\ attempted id tr r seq (lo_op o) /\
      (t, bytes) ∈ arrived /\ message_decode bytes = Ok (MClient (Reply r out)).

(** [b] starts after [a] was answered, if it was. *)
Definition one_by_one (a b : Operation) : Prop := forall t, lo_completed a = Some t -> t <= lo_invoked b.

Definition max_tries (cfg : WorkloadConfig) : Z := Z.max 1 (wl_max_attempts cfg).
Definition is_send (ev : IoEvent) : bool := match ev with EvSend _ _ => true | _ => false end.

(** The number of the operation a request is for: after the checksum, the two tags,
    the request's id and the client's come its eight bytes. *)
Definition sent_seq (ev : IoEvent) : option Z :=
  match ev with EvSend _ bytes => Some (from_le_bytes (take 8 (drop 18 bytes))) | _ => None end.
(** The requests sent for operation [k]. *)
Definition sends (k : Z) (tr : list IoEvent) : Z :=
  Z.of_nat (length (List.filter (fun ev => bool_decide (sent_seq ev = Some k)) tr)).

Lemma sent_seq_request id to r seq op : is_u64 seq -> sent_seq (EvSend to (request_bytes id r seq op)) = Some seq.
Proof.
  intros Hs. unfold sent_seq, request_bytes, message_encode, frame, message_payload.
  rewrite client_msg_encode_app. unfold client_msg_bytes. cbn [client_msg_encode_into]. autorewrite with enc.
  unfold enc_u8, enc_u64, enc_u32, enc_new. f_equal.
  match goal with |- context [to_le_bytes 4 ?x] => generalize x end. intros crc.
  match goal with |- context [command_bytes ?x] => generalize (command_bytes x) end. intros rest.
  assert (E : to_le_bytes 4 crc ++ ([] ++ u8_bytes 2) ++ (((([] ++ u8_bytes 1) ++ u64_bytes r) ++ u32_bytes id) ++
      u64_bytes seq) ++ rest
    = (to_le_bytes 4 crc ++ u8_bytes 2 ++ u8_bytes 1 ++ u64_bytes r ++ u32_bytes id) ++ to_le_bytes 8 seq ++ rest)
    by (rewrite <-!app_assoc; done).
  rewrite E, drop_app_length' by (rewrite !length_app, !length_to_le_bytes; unfold u8_bytes, u64_bytes, u32_bytes, enc_u8, enc_u64, enc_u32, enc_new;
    simpl; rewrite ?length_app, ?length_to_le_bytes; done).
  rewrite take_app_length' by by rewrite length_to_le_bytes. by apply from_to_le_bytes.
Qed.

Lemma sends_app k a b : sends k (a ++ b) = sends k a + sends k b.
Proof. unfold sends. rewrite List.filter_app, length_app. lia. Qed.
Lemma sends_quiet k tr ev : is_send ev = false -> sends k (tr ++ [ev]) = sends k tr.
Proof. intros Hq. rewrite sends_app. unfold sends at 2. simpl. destruct ev; (discriminate || (simpl; lia)). Qed.
Lemma sends_request id to r seq op k tr :
  is_u64 seq -> sends k (tr ++ [EvSend to (request_bytes id r seq op)]) = sends k tr + if k =? seq then 1 else 0.
Proof.
  intros Hs. rewrite sends_app. unfold sends at 2. cbn [List.filter]. rewrite sent_seq_request by done.
  case_bool_decide as E; destruct (Z.eqb_spec k seq); (congruence || (simpl; lia)).
Qed.

Lemma attempted_app id tr ext r seq op : attempted id tr r seq op -> attempted id (tr ++ ext) r seq op.
Proof. intros [to H]. exists to. apply elem_of_app. by left. Qed.

Lemma answer_ok_app id tr ext arrived o : answer_ok id tr arrived o -> answer_ok id (tr ++ ext) arrived o.
Proof.
  intros Ha t out Ht Ho. destruct (Ha t out Ht Ho) as (? & r & seq & b & ? & ? & ? & ?). split; [done|].
  exists r, seq, b. split; [done|]. split; [by apply attempted_app|]. done.
Qed.

(** What the client's neutral steps keep. *)
Definition core (c : Client) :=
  (cl_id c, cl_servers c, cl_cfg c, cl_seq c, cl_next_history_id c, cl_inflight c, cl_backing_off c).
Definition same (c c' : Client) : Prop := core c' = core c /\ rng_ok (cl_rng c').

Section ClientInvariant.
Context (id : Z) (servers : list NodeId) (cfg : WorkloadConfig).
(** What the other clients recorded, and what arrived. *)
Context (others : Z -> list Operation) (arrived : list (Nanos * list byte)).

Definition in_flight (c : Client) (h : History) (f : InFlight) : Prop :=
  if_seq f = cl_seq c /\ if_history_id f = cl_seq c /\ 0 < cl_seq c /\ 0 <= if_attempts f <= max_tries cfg /\
  exists l o, own id h = l ++ [o] /\ lo_completed o = None /\ lo_id o = history_key id (cl_seq c) /\
    lo_op o = if_op f.

(** Attempts made so far at operation [k] are at most this many. *)
Definition tries (c : Client) (k : Z) : Z :=
  if cl_seq c <? k then 0
  else match cl_inflight c with
       | Some f => if k =? cl_seq c then if_attempts f else max_tries cfg
       | None => max_tries cfg
       end.

Record client_base (n : Z) (now : Nanos) (c : Client) (h : History) (tr : list IoEvent) : Prop := {
  cb_id : cl_id c = id;
  cb_u32 : is_u32 id;
  cb_servers : cl_servers c = servers;
  cb_cfg : cl_cfg c = cfg;
  cb_rng : rng_ok (cl_rng c);
  cb_seq : 0 <= cl_seq c <= n;
  cb_bound : n < 2 ^ 32;
  cb_next : cl_next_history_id c = cl_seq c + 1;
  cb_hist : history_ok now h;
  cb_ids : lo_id <$> own id h = history_key id <$> seqZ 1 (cl_seq c);
  cb_order : StronglySorted one_by_one (own id h);
  cb_others : forall d, d ≠ id -> own d h = others d;
  cb_inflight : forall f, cl_inflight c = Some f -> in_flight c h f;
  cb_sent : Forall (sent_ok id servers h) tr;
  cb_sends : forall k, sends k tr <= tries c k;
  cb_answers : forall o, o ∈ own id h -> answer_ok id tr arrived o;
}.

Record client_inv (n : Z) (now : Nanos) (c : Client) (h : History) (tr : list IoEvent) : Prop := {
  ci_base : client_base n now c h tr;
  ci_attempted : forall f, cl_inflight c = Some f -> attempted id tr (if_req_id f) (if_seq f) (if_op f);
  ci_backing : cl_backing_off c = true -> forall f, cl_inflight c = Some f -> if_attempts f < wl_max_attempts cfg;
}.

Lemma client_base_same n now c c' h tr : same c c' -> client_base n now c h tr -> client_base n now c' h tr.
Proof.
  unfold same, core. intros [[= E1 E2 E3 E4 E5 E6 E7] Hr] [].
  split; rewrite ?E1, ?E2, ?E3, ?E4, ?E5, ?E6; try done.
  - intros f Hf. unfold in_flight. rewrite E4. by apply cb_inflight0.
  - unfold tries. rewrite E4, E6. exact cb_sends0.
Qed.

Lemma client_inv_same n now c c' h tr : same c c' -> client_inv n now c h tr -> client_inv n now c' h tr.
Proof.
  intros Hs [Hb Ha Hk]. split; [by eapply client_base_same| |];
    destruct Hs as [[= E1 E2 E3 E4 E5 E6 E7] _]; [|rewrite E7; intros Hb'; specialize (Hk Hb')];
    rewrite E6; auto.
Qed.

Lemma client_base_quiet n now c h tr ev :
  is_send ev = false -> client_base n now c h tr -> client_base n now c h (tr ++ [ev]).
Proof.
  intros Hq []. split; try done.
  - apply Forall_app. split; [done|]. apply Forall_singleton. by destruct ev.
  - intros k. rewrite sends_quiet by done. apply cb_sends0.
  - intros o Ho. apply answer_ok_app. auto.
Qed.

Lemma client_inv_quiet n now c h tr ev :
  is_send ev = false -> client_inv n now c h tr -> client_inv n now c h (tr ++ [ev]).
Proof. intros Hq [Hb Ha Hk]. split; [by apply client_base_quiet| |done]. intros f Hf. apply attempted_app. auto. Qed.

Lemma client_inv_weaken n now c h tr : n + 1 < 2 ^ 32 -> client_inv n now c h tr -> client_inv (n + 1) now c h tr.
Proof. intros Hn [[] Ha Hk]. split; [|done..]. split; try done; lia. Qed.
End ClientInvariant.

(** ** Handlers *)

Lemma same_refl c : rng_ok (cl_rng c) -> same c c.
Proof. done. Qed.

Lemma same_trans c1 c2 c3 : same c1 c2 -> same c2 c3 -> same c1 c3.
Proof. unfold same. intros [-> _] [-> ?]. done. Qed.

Lemma same_inflight c c' f : same c c' -> same (c ⟨ cl_inflight := f ⟩) (c' ⟨ cl_inflight := f ⟩).
Proof. unfold same, core. simpl. intros [[= -> -> -> -> -> _ ->] Hr]. done. Qed.

Section ClientWp.
Context {W : Type} `{Io W}.
Implicit Types (e : Env W) (c : Client) (h : History).

Lemma wp_cl_get (Q : Client -> Client * History -> Env W -> Prop) c h e :
  Q c (c, h) e -> wp cl_get Q (c, h) e.
Proof. done. Qed.

Lemma wp_cl_modify f (Q : unit -> Client * History -> Env W -> Prop) c h e :
  Q tt (f c, h) e -> wp (cl_modify f) Q (c, h) e.
Proof. done. Qed.

Lemma wp_cl_draw {A} (m : Draw A) (P : A -> Prop) (Q : A -> Client * History -> Env W -> Prop) c h e :
  draws m P -> rng_ok (cl_rng c) -> (forall a c', P a -> same c c' -> Q a (c', h) e) -> wp (cl_draw m) Q (c, h) e.
Proof.
  intros Hm Hr HQ. unfold cl_draw. apply wp_bind, wp_cl_get, wp_bind, wp_lift. intros [a rng] E.
  destruct (Hm _ _ _ Hr E) as [Ha Hr']. apply wp_bind, wp_cl_modify, wp_ret. by apply HQ.
Qed.

Lemma wp_cbump (f : ClientStats -> Z) `{!Setter f} (Q : unit -> Client * History -> Env W -> Prop) c h e :
  rng_ok (cl_rng c) -> (forall c', same c c' -> Q tt (c', h) e) -> wp (cbump f) Q (c, h) e.
Proof.
  intros Hr HQ. unfold cbump. apply wp_bind, wp_cl_get, wp_bind, wp_add64. intros _.
  apply wp_cl_modify, HQ. done.
Qed.

Lemma wp_on_history {A} (f : History -> option (A * History)) (Q : A -> Client * History -> Env W -> Prop) c h e :
  (forall a h', f h = Some (a, h') -> Q a (c, h') e) -> wp (on_history f) Q (c, h) e.
Proof. intros HQ. unfold on_history. apply wp_bind, wp_get, wp_bind, wp_lift. intros [a h'] E. by apply wp_bind, wp_modify, wp_ret, HQ. Qed.

(** A request that is not a send. *)
Lemma wp_quiet {A} (f : W -> A * W) ev (Q : A -> Client * History -> Env W -> Prop) c h e :
  (forall a w, is_send (ev a) = false -> Q a (c, h) (mkEnv w (env_trace e ++ [ev a]))) ->
  (forall a, is_send (ev a) = false) -> wp (request f ev) Q (c, h) e.
Proof. intros HQ He. apply wp_request. auto. Qed.

Lemma wp_rotate_target (Q : unit -> Client * History -> Env W -> Prop) c h e :
  rng_ok (cl_rng c) -> (forall c', same c c' -> Q tt (c', h) e) -> wp rotate_target Q (c, h) e.
Proof.
  intros Hr HQ. unfold rotate_target. apply wp_bind, wp_cl_get, wp_when; [|intros _; by apply HQ].
  intros _. apply wp_bind. eapply wp_cl_draw; [by apply draws_below with (P := fun _ => True)|done|].
  intros a c' _ Hs. apply wp_cl_modify, HQ. exact Hs.
Qed.

Lemma wp_pick_op (Q : Op -> Client * History -> Env W -> Prop) c h e :
  rng_ok (cl_rng c) -> (forall op c', same c c' -> Q op (c', h) e) -> wp pick_op Q (c, h) e.
Proof.
  intros Hr HQ. unfold pick_op. apply wp_bind, wp_cl_get, wp_bind.
  eapply wp_cl_draw; [by apply draws_below with (P := fun _ => True)|done|]. intros k c1 _ Hs1.
  apply wp_bind, wp_add64. intros _. do 3 (apply wp_bind, wp_lift; intros ? _). apply wp_bind.
  eapply wp_cl_draw; [by apply draws_below with (P := fun _ => True)|apply Hs1|]. intros p c2 _ Hs2.
  apply wp_ret, HQ. by eapply same_trans.
Qed.

Lemma wp_redirected outcome (Q : unit -> Client * History -> Env W -> Prop) c h e :
  rng_ok (cl_rng c) -> (forall c', same c c' -> Q tt (c', h) e) -> wp (redirected outcome) Q (c, h) e.
Proof.
  intros Hr HQ. unfold redirected. destruct outcome as [| | |[n|]|]; try by apply wp_rotate_target.
  - apply wp_bind, wp_cbump; [done|]. intros c1 Hs. apply wp_bind, wp_cl_get.
    destruct (position_in _ _); [apply wp_cl_modify|apply wp_ret]; by apply HQ.
  - apply wp_bind, wp_cbump; [done|]. intros c1 Hs. apply wp_rotate_target; [apply Hs|].
    intros c2 Hs2. apply HQ. by eapply same_trans.
Qed.

Context (id : Z) (servers : list NodeId) (cfg : WorkloadConfig).
Context (others : Z -> list Operation) (arrived : list (Nanos * list byte)) (pre : list IoEvent).
Context (Hpos : 0 < (wl_retry_backoff cfg).1).

(** The invariant on a handler's state and environment. *)
Definition kept (n : Z) (now : Nanos) : unit -> Client * History -> Env W -> Prop :=
  fun _ s e => client_inv id servers cfg others arrived n now s.1 s.2 (pre ++ env_trace e).

Lemma asked_last c h f : in_flight id cfg c h f -> asked id (if_seq f) (if_op f) h.
Proof.
  intros (Hs & _ & _ & _ & l & o & Ho & _ & Hid & Hop). exists o. rewrite Ho, Hs. split; [set_solver|done].
Qed.

(** Another attempt at the operation in flight. *)
Lemma client_base_attempt n now f f' c h tr handle delay tag to r :
  client_base id servers cfg others arrived n now c h tr ->
  cl_inflight c = Some f -> if_attempts f < max_tries cfg -> to ∈ servers ->
  if_history_id f' = if_history_id f -> if_seq f' = if_seq f -> if_op f' = if_op f ->
  if_attempts f' = if_attempts f + 1 ->
  client_base id servers cfg others arrived n now (c ⟨ cl_next_req_id := r ⟩ ⟨ cl_inflight := Some f' ⟩) h
    ((tr ++ [EvSetTimer handle delay tag]) ++ [EvSend to (request_bytes id r (if_seq f) (if_op f))]).
Proof.
  intros Hb Hf Ht Hto E1 E2 E3 E4. pose proof (cb_inflight _ _ _ _ _ _ _ _ _ _ Hb f Hf) as Hfl.
  pose proof (asked_last _ _ _ Hfl) as Hask.
  destruct (client_base_quiet _ _ _ _ _ _ _ _ _ _ (EvSetTimer handle delay tag) eq_refl Hb). split; try done.
  - intros g [= <-]. destruct Hfl as (F1 & F2 & F3 & F4 & F5). unfold in_flight. rewrite E1, E2, E3, E4.
    split_and!; try done; lia.
  - apply Forall_app. split; [done|]. apply Forall_singleton. simpl. split; [done|]. eauto 10.
  - intros k. assert (Hu : is_u64 (if_seq f)) by (destruct Hfl as (-> & _); unfold is_u64; lia).
    rewrite sends_request by done. specialize (cb_sends0 k). unfold tries in *. rewrite Hf in cb_sends0. simpl.
    rewrite E4. destruct Hfl as (-> & _).
    destruct (Z.ltb_spec (cl_seq c) k), (Z.eqb_spec k (cl_seq c)); lia.
  - intros o Ho. apply answer_ok_app. auto.
Qed.

Lemma wp_attempt n now f c h e :
  client_base id servers cfg others arrived n now c h (pre ++ env_trace e) ->
  cl_inflight c = Some f -> if_attempts f < max_tries cfg -> cl_backing_off c = false ->
  wp attempt (kept n now) (c, h) e.
Proof.
  intros Hb Hf Ht Hk. unfold attempt. apply wp_bind, wp_cl_get. rewrite Hf.
  apply wp_bind, wp_lift. intros k Ek. unfold u32_add in Ek. destruct (_ <=? _); [|done]. injection Ek as <-.
  apply wp_bind, wp_add64. intros _. apply wp_bind, wp_cl_modify, wp_bind, wp_lift. intros to Hto.
  apply wp_bind, wp_request. intros handle w _. apply wp_bind, wp_cl_modify, wp_request. intros [] w' _.
  unfold kept. simpl. rewrite !app_assoc, (cb_id _ _ _ _ _ _ _ _ _ _ Hb).
  assert (Hto' : to ∈ servers).
  { rewrite <-(cb_servers _ _ _ _ _ _ _ _ _ _ Hb). by eapply list_elem_of_lookup_2. }
  split; simpl.
  - by apply (client_base_attempt n now f).
  - intros g [= <-]. exists to. set_solver.
  - by rewrite Hk.
Qed.

Lemma client_base_backing n now c h tr b :
  client_base id servers cfg others arrived n now c h tr ->
  client_base id servers cfg others arrived n now (c ⟨ cl_backing_off := b ⟩) h tr.
Proof. by intros []. Qed.

Lemma seqZ_snoc k : 0 <= k -> seqZ 1 (k + 1) = seqZ 1 k ++ [k + 1].
Proof. intros. rewrite seqZ_app by lia. f_equal. rewrite seqZ_cons by lia. simpl. f_equal. lia. Qed.

(** The next operation goes into the history. *)
Lemma client_base_begin n now c h tr op :
  client_base id servers cfg others arrived n now c h tr -> cl_inflight c = None -> n + 1 < 2 ^ 32 ->
  client_base id servers cfg others arrived (n + 1) now
    (c ⟨ cl_seq := cl_seq c + 1 ⟩ ⟨ cl_next_history_id := cl_next_history_id c + 1 ⟩
       ⟨ cl_inflight := Some (mkInFlight (cl_next_history_id c) (cl_seq c + 1) 0 op 0 None) ⟩)
    (history_push (mkOperation (history_key (cl_id c) (cl_next_history_id c)) (cl_id c) op now None None) h) tr.
Proof.
  intros [] Hf Hn. rewrite cb_next0, cb_id0. set (o := mkOperation _ _ _ _ _ _).
  assert (Eown : own id (history_push o h) = own id h ++ [o]) by (rewrite own_push; simpl; by rewrite decide_True).
  split; simpl; try done; try lia.
  - apply (history_push_ok _ _ _ (cl_seq c + 1)); simpl; try done; [lia|].
    intros x s' Hx Ex Hs' ->. assert (Hin : lo_id x ∈ history_key id <$> seqZ 1 (cl_seq c)).
    { rewrite <-cb_ids0. by apply list_elem_of_fmap_2. }
    apply list_elem_of_fmap in Hin as (s & Es & Hs%elem_of_seqZ). rewrite Ex in Es.
    apply history_key_inj in Es as [_ Es]; try done; lia.
  - rewrite Eown, fmap_app, cb_ids0, seqZ_snoc, fmap_app by lia. done.
  - rewrite Eown. apply StronglySorted_app_2; [|done|by repeat constructor].
    intros a b Ha ->%list_elem_of_singleton t Ht. simpl.
    apply own_elem in Ha as [Ha _]. destruct (ho_times _ _ cb_hist0 a Ha) as [_ Hd]. rewrite Ht in Hd.
    destruct (lo_outcome a); [lia|done].
  - intros d Hd. rewrite own_push. simpl. rewrite decide_False by congruence. rewrite app_nil_r. auto.
  - intros f [= <-]. unfold in_flight, max_tries. simpl. split_and!; try done; try lia.
    eexists (own id h), o. done.
  - eapply Forall_impl; [exact cb_sent0|]. intros [] He; try done.
    destruct He as (Hto & r & seq & op' & -> & x & Hx & ? & ?). split; [done|]. exists r, seq, op'.
    split; [done|]. exists x. rewrite Eown. set_solver.
  - intros k. specialize (cb_sends0 k). unfold tries, max_tries in *. simpl. rewrite Hf in cb_sends0.
    destruct (Z.ltb_spec (cl_seq c) k), (Z.ltb_spec (cl_seq c + 1) k), (Z.eqb_spec k (cl_seq c + 1)); lia.
  - intros x. rewrite Eown. intros [Hx| ->%list_elem_of_singleton]%elem_of_app; [auto|by intros t out].
Qed.

Lemma wp_client_begin n now c h e :
  client_inv id servers cfg others arrived n now c h (pre ++ env_trace e) -> n + 1 < 2 ^ 32 ->
  wp (client_begin now) (kept (n + 1) now) (c, h) e.
Proof.
  intros Hi Hn. unfold client_begin. apply wp_bind, wp_cl_get.
  destruct (cl_stopped c || _) eqn:E; [by apply wp_ret, client_inv_weaken|].
  apply orb_false_iff in E as [_ E%bool_decide_eq_false]. apply eq_None_not_Some in E.
  pose proof (client_base_backing _ _ _ _ _ false (ci_base _ _ _ _ _ _ _ _ _ _ Hi)) as Hb.
  apply wp_bind, wp_cl_modify, wp_bind, wp_pick_op; [apply Hb|]. intros op c1 Hs.
  pose proof (client_base_same _ _ _ _ _ _ _ _ _ _ _ Hs Hb) as Hb1.
  destruct Hs as [[= E1 E2 E3 E4 E5 E6 E7] Hr]. rewrite E in E6.
  rewrite <-E4, <-E5. clear Hi Hb E4 E5.
  apply wp_bind, wp_add64. intros _. apply wp_bind, wp_add64. intros _. apply wp_bind, wp_cl_modify.
  set (d := (_ ⟨ cl_next_history_id := _ ⟩)). apply wp_bind, wp_cbump; [done|]. intros d' Hd.
  apply wp_bind, wp_on_history. intros [] h' [= <-]. apply wp_bind, wp_cl_modify.
  eapply wp_attempt; [|done|simpl; unfold max_tries; lia|].
  - eapply client_base_same; [by apply same_inflight, Hd|]. rewrite <-E1. by apply client_base_begin.
  - destruct Hd as [[= F1 F2 F3 F4 F5 F6 F7] _]. simpl. by rewrite F7, E7.
Qed.

Lemma client_idle_inv n now c h tr :
  client_base id servers cfg others arrived n now c h tr -> cl_inflight c = None ->
  client_inv id servers cfg others arrived n now c h tr.
Proof. intros Hb E. split; [done|..]; rewrite E; done. Qed.

Lemma wp_think n now c h e :
  client_base id servers cfg others arrived n now c h (pre ++ env_trace e) -> cl_inflight c = None ->
  n + 1 < 2 ^ 32 -> wp (think now) (kept (n + 1) now) (c, h) e.
Proof.
  intros Hb Hf Hn. unfold think. apply wp_bind, wp_cl_get.
  destruct (cl_stopped c); [by apply wp_ret, client_inv_weaken, client_idle_inv|].
  apply wp_bind. eapply wp_cl_draw; [by apply draws_range with (P := fun _ => True)|apply Hb|].
  intros d c' _ Hs. pose proof (client_inv_same _ _ _ _ _ _ _ _ _ _ _ Hs (client_idle_inv _ _ _ _ _ Hb Hf)) as Hi.
  destruct (d =? 0); [by apply wp_client_begin|]. apply wp_bind, wp_request. intros t w _. apply wp_ret.
  unfold kept. simpl. rewrite app_assoc. apply client_inv_weaken; [done|]. by apply client_inv_quiet.
Qed.

(** Dropping the timer of the attempt. *)
Lemma wp_cancel_attempt timer (Q : unit -> Client * History -> Env W -> Prop) c h e :
  Q tt (c, h) e -> (forall t w, Q tt (c, h) (mkEnv w (env_trace e ++ [EvCancelTimer t]))) ->
  wp (cancel_attempt timer) Q (c, h) e.
Proof. intros H0 H1. destruct timer; [apply wp_request; intros [] w _|apply wp_ret]; auto. Qed.

Lemma client_inv_untimed n now c h tr f :
  client_inv id servers cfg others arrived n now c h tr -> cl_inflight c = Some f ->
  client_inv id servers cfg others arrived n now (c ⟨ cl_inflight := Some (f ⟨ if_timer := None ⟩) ⟩) h tr.
Proof.
  intros [[] Ha Hk] Hf. split; [split; try done|..]; simpl.
  - intros g [= <-]. exact (cb_inflight0 f Hf).
  - unfold tries in *. simpl. by rewrite Hf in cb_sends0.
  - intros g [= <-]. exact (Ha f Hf).
  - intros Hb g [= <-]. exact (Hk Hb f Hf).
Qed.

(** An operation given up: its attempts are within the bound. *)
Lemma client_base_abandon n now c h tr f :
  client_base id servers cfg others arrived n now c h tr -> cl_inflight c = Some f ->
  client_base id servers cfg others arrived n now (c ⟨ cl_inflight := None ⟩) h tr.
Proof.
  intros [] Hf. split; try done. intros k. specialize (cb_sends0 k). unfold tries in *. simpl. rewrite Hf in cb_sends0.
  destruct (cb_inflight0 f Hf) as (_ & _ & _ & ? & _). repeat case_match; lia.
Qed.

(** The clause on the delay: a client that waits does not retry at once. *)
Lemma wp_retry n now delay c h e :
  client_inv id servers cfg others arrived n now c h (pre ++ env_trace e) -> n + 1 < 2 ^ 32 ->
  (delay = 0 -> cl_backing_off c = false) ->
  wp (retry now delay) (kept (n + 1) now) (c, h) e.
Proof.
  intros Hi Hn Hd. unfold retry. apply wp_bind, wp_cl_get.
  destruct (cl_inflight c) as [f|] eqn:Hf; [|by apply wp_ret, client_inv_weaken].
  apply wp_bind, wp_cl_modify, wp_bind.
  pose proof (client_inv_untimed _ _ _ _ _ _ Hi Hf) as Hi'. clear Hi.
  set (c0 := c ⟨ cl_inflight := _ ⟩) in *.
  assert (Hrest : forall e', client_inv id servers cfg others arrived n now c0 h (pre ++ env_trace e') ->
    wp (if wl_max_attempts (cl_cfg c) <=? if_attempts f then
        cbump ct_abandoned ;; cl_modify (fun c => c ⟨ cl_inflight := None ⟩) ;; think now
      else cbump ct_retries ;;
        if delay =? 0 then attempt
        else cl_modify (fun c => c ⟨ cl_backing_off := true ⟩) ;; set_timer delay TIMER_RETRY ;; mret tt)
      (kept (n + 1) now) (c0, h) e').
  { clear e Hi'. intros e Hi. destruct (Z.leb_spec (wl_max_attempts (cl_cfg c)) (if_attempts f)) as [Hmax|Hmax].
    - apply wp_bind, wp_cbump; [apply Hi|]. intros c1 Hs. apply wp_bind, wp_cl_modify.
      pose proof (client_base_same _ _ _ _ _ _ _ _ _ _ _ Hs (ci_base _ _ _ _ _ _ _ _ _ _ Hi)) as Hb.
      apply wp_think; [|done|done]. destruct Hs as [[= _ _ _ _ _ E6 _] _]. by eapply client_base_abandon.
    - change (cl_cfg c) with (cl_cfg c0) in Hmax. rewrite (cb_cfg _ _ _ _ _ _ _ _ _ _ (ci_base _ _ _ _ _ _ _ _ _ _ Hi)) in Hmax.
      apply wp_bind, wp_cbump; [apply Hi|]. intros c1 Hs.
      pose proof (client_inv_same _ _ _ _ _ _ _ _ _ _ _ Hs Hi) as Hi1.
      destruct Hs as [[= _ _ _ _ _ E6 E7] _]. destruct (Z.eqb_spec delay 0) as [->|Hnz].
      + eapply wp_mono; [eapply wp_attempt; [apply Hi1|exact E6|simpl; unfold max_tries; lia|]|].
        * rewrite E7. by apply Hd.
        * intros [] s' e' Hk. by apply client_inv_weaken.
      + apply wp_bind, wp_cl_modify, wp_bind, wp_request. intros t w _. apply wp_ret. unfold kept. simpl.
        rewrite app_assoc. apply client_inv_weaken; [done|]. apply client_inv_quiet; [done|].
        destruct Hi1 as [Hb1 Ha1 _]. split; [by apply client_base_backing|done|].
        simpl. intros _ g. rewrite E6. intros [= <-]. done. }
  apply wp_cancel_attempt; [by apply Hrest|]. intros t w. apply Hrest. simpl. rewrite app_assoc.
  by apply client_inv_quiet.
Qed.

(** The operation in flight is answered. *)
Lemma client_base_answer n now c h tr f out bytes :
  client_base id servers cfg others arrived n now c h tr -> cl_inflight c = Some f ->
  attempted id tr (if_req_id f) (if_seq f) (if_op f) -> (now, bytes) ∈ arrived ->
  message_decode bytes = Ok (MClient (Reply (if_req_id f) out)) -> outcome_is_definite out = true ->
  exists h', history_complete (history_key (cl_id c) (if_history_id f)) now out h = Some (true, h') /\
    client_base id servers cfg others arrived n now (c ⟨ cl_inflight := None ⟩) h' tr.
Proof.
  intros Hb Hf Hatt Harr Hdec Hdef. destruct (cb_inflight _ _ _ _ _ _ _ _ _ _ Hb f Hf) as
    (F1 & F2 & F3 & F4 & l & o & Hown & Hpend & Hid & Hop).
  destruct (client_base_abandon _ _ _ _ _ _ Hb Hf).
  assert (Hcl : lo_client o = id) by (apply (own_elem _ h); rewrite Hown; set_solver).
  destruct (history_complete_ok now h l o out cb_hist0) as (h' & Hc & Hh' & Hown' & Hothers');
    [by rewrite Hcl|done|]. rewrite Hcl in Hown', Hothers'.
  exists h'. change (cl_id (c ⟨ cl_inflight := None ⟩)) with (cl_id c) in cb_id0.
  rewrite cb_id0, F2, <-Hid. split; [exact Hc|].
  assert (Hids : lo_id <$> own id h' = lo_id <$> own id h) by (by rewrite Hown', Hown, !fmap_app).
  split; try done.
  - by rewrite Hids.
  - rewrite Hown'. rewrite Hown in cb_order0. apply StronglySorted_app in cb_order0 as (Hl & Hs & _).
    apply StronglySorted_app_2; [|done|by repeat constructor].
    intros a b Ha ->%list_elem_of_singleton. exact (Hl a o Ha ltac:(set_solver)).
  - intros d Hd. rewrite Hothers' by done. auto.
  - eapply Forall_impl; [exact cb_sent0|]. intros [] He; try done.
    destruct He as (Hto & r & seq & op' & -> & x & Hx & Ex1 & Ex2). split; [done|]. exists r, seq, op'.
    split; [done|]. rewrite Hown in Hx. unfold asked. rewrite Hown'. apply elem_of_app in Hx as [Hx| ->%list_elem_of_singleton].
    + exists x. set_solver.
    + exists (answered_op o now out). set_solver.
  - intros x. rewrite Hown'. intros [Hx| ->%list_elem_of_singleton]%elem_of_app.
    + apply cb_answers0. rewrite Hown. set_solver.
    + intros t out' [= <-] [= <-]. split; [done|]. simpl. exists (if_req_id f), (cl_seq c), bytes.
      rewrite Hop, <-F1. split_and!; try done. by rewrite F1.
Qed.

Lemma wp_client_finish n now f out bytes c h e :
  client_inv id servers cfg others arrived n now c h (pre ++ env_trace e) -> n + 1 < 2 ^ 32 ->
  cl_inflight c = Some f -> (now, bytes) ∈ arrived ->
  message_decode bytes = Ok (MClient (Reply (if_req_id f) out)) -> outcome_is_definite out = true ->
  wp (client_finish now out) (kept (n + 1) now) (c, h) e.
Proof.
  intros Hi Hn Hf Harr Hdec Hdef. unfold client_finish. apply wp_bind, wp_cl_get. rewrite Hf.
  destruct (client_base_answer _ _ _ _ _ _ _ _ (ci_base _ _ _ _ _ _ _ _ _ _ Hi) Hf
    (ci_attempted _ _ _ _ _ _ _ _ _ _ Hi f Hf) Harr Hdec Hdef) as (h' & Hc & Hb).
  apply wp_bind, wp_cl_modify, wp_bind. clear Hi.
  set (c0 := c ⟨ cl_inflight := None ⟩ ⟨ cl_backing_off := false ⟩).
  assert (Hb0 : client_base id servers cfg others arrived n now c0 h' (pre ++ env_trace e)) by by apply client_base_backing.
  assert (Hrest : forall e', client_base id servers cfg others arrived n now c0 h' (pre ++ env_trace e') ->
    wp (cbump ct_completed ;;
      cl_modify (fun c => c ⟨ cl_known := client_remember (if_op f) out (cl_known c) ⟩) ;;
      on_history (history_complete (history_key (cl_id c) (if_history_id f)) now out) ;;
      observe "client_done" [cl_id c; if_seq f] ;; think now) (kept (n + 1) now) (c0, h) e').
  { clear e Hb Hb0. intros e Hb. apply wp_bind, wp_cbump; [apply Hb|]. intros c1 Hs.
    pose proof (client_base_same _ _ _ _ _ _ _ _ _ _ _ Hs Hb) as Hb1. destruct Hs as [[= _ _ _ _ _ E6 _] _].
    apply wp_bind, wp_cl_modify, wp_bind, wp_on_history. intros b h1. rewrite Hc. intros [= <- <-].
    apply wp_bind, wp_request. intros [] w _. apply wp_think; [|exact E6|done].
    simpl. rewrite app_assoc. apply client_base_quiet; [done|]. eapply client_base_same; [|exact Hb1].
    split; [done|]. apply Hb1. }
  apply wp_cancel_attempt; [by apply Hrest|]. intros t w. apply Hrest. simpl. rewrite app_assoc.
  by apply client_base_quiet.
Qed.

Lemma wp_client_on_bytes n now bytes c h e :
  client_inv id servers cfg others arrived n now c h (pre ++ env_trace e) -> n + 1 < 2 ^ 32 ->
  (now, bytes) ∈ arrived -> wp (client_on_bytes now bytes) (kept (n + 1) now) (c, h) e.
Proof.
  intros Hi Hn Harr. unfold client_on_bytes.
  assert (Hstale : wp (cbump ct_stale_replies) (kept (n + 1) now) (c, h) e).
  { apply wp_cbump; [apply Hi|]. intros c' Hs. eapply client_inv_same; [exact Hs|]. by apply client_inv_weaken. }
  destruct (message_decode bytes) as [[|[|r out]]|] eqn:Hdec; try exact Hstale.
  apply wp_bind, wp_cl_get. destruct (cl_inflight c) as [f|] eqn:Hf; [|exact Hstale].
  destruct (Z.eqb_spec (if_req_id f) r) as [<-|]; [|exact Hstale]. simpl.
  destruct (outcome_is_definite out) eqn:Hdef; [by eapply wp_client_finish|].
  apply wp_bind, wp_redirected; [apply Hi|]. intros c1 Hs1. apply wp_bind.
  rewrite (cb_cfg _ _ _ _ _ _ _ _ _ _ (ci_base _ _ _ _ _ _ _ _ _ _ Hi)).
  eapply wp_cl_draw; [apply draws_range with (P := fun x => 0 < x); intros; lia|apply Hs1|].
  cbn beta. intros d c2 Hd Hs2. apply wp_retry; [|done|lia].
  eapply client_inv_same; [exact Hs2|]. by eapply client_inv_same.
Qed.

Lemma wp_client_on_timer n now tag c h e :
  client_inv id servers cfg others arrived n now c h (pre ++ env_trace e) -> n + 1 < 2 ^ 32 ->
  wp (client_on_timer now tag) (kept (n + 1) now) (c, h) e.
Proof.
  intros Hi Hn. unfold client_on_timer. destruct (tag =? TIMER_REQUEST).
  { apply wp_bind, wp_cl_get, wp_when; [|intros _; by apply client_inv_weaken].
    intros [_ Hk%negb_true_iff]%andb_true_iff. apply wp_bind, wp_rotate_target; [apply Hi|]. intros c1 Hs.
    apply wp_retry; [by eapply client_inv_same|done|]. intros _. by destruct Hs as [[= _ _ _ _ _ _ ->] _]. }
  destruct (tag =? TIMER_RETRY).
  { apply wp_bind, wp_cl_get, wp_when; [|intros _; by apply client_inv_weaken].
    intros [Hk [f Hf]%bool_decide_eq_true]%andb_true_iff. apply wp_bind, wp_cl_modify.
    pose proof (ci_backing _ _ _ _ _ _ _ _ _ _ Hi Hk f Hf).
    eapply wp_mono; [eapply (wp_attempt n now f); [apply client_base_backing, Hi|exact Hf|unfold max_tries; lia|done]|].
    intros [] s' e' Hk'. by apply client_inv_weaken. }
  destruct (tag =? TIMER_THINK); [by apply wp_client_begin|]. by apply wp_ret, client_inv_weaken.
Qed.
End ClientWp.

(** ** Runs of one client *)

Inductive ClientEvent : Type :=
| CeBytes (bytes : list byte)
| CeTimer (tag : TimerTag)
| CeStop.

Definition client_event {W} `{Io W} (ev : Nanos * ClientEvent) : M W (Client * History) unit :=
  match ev.2 with
  | CeBytes bytes => client_on_bytes ev.1 bytes
  | CeTimer tag => client_on_timer ev.1 tag
  | CeStop => cl_modify client_stop
  end.
Definition client_run {W} `{Io W} (evs : list (Nanos * ClientEvent)) : M W (Client * History) unit := for_each evs client_event.

(** The messages among the events. *)
Definition messages_of (evs : list (Nanos * ClientEvent)) : list (Nanos * list byte) :=
  omap (fun ev => match ev.2 with CeBytes bytes => Some (ev.1, bytes) | _ => None end) evs.

Lemma client_inv_later id servers cfg others arrived n now now' c h tr :
  now <= now' -> client_inv id servers cfg others arrived n now c h tr ->
  client_inv id servers cfg others arrived n now' c h tr.
Proof. intros Hle [[] Ha Hk]. split; [|done..]. split; try done. by eapply history_ok_later. Qed.

Lemma client_inv_stop id servers cfg others arrived n now c h tr :
  client_inv id servers cfg others arrived n now c h tr ->
  client_inv id servers cfg others arrived n now (client_stop c) h tr.
Proof. intros Hi. eapply client_inv_same; [|exact Hi]. split; [done|]. apply Hi. Qed.

Lemma client_inv_arrived id servers cfg others arrived arrived' n now c h tr :
  arrived ⊆ arrived' -> client_inv id servers cfg others arrived n now c h tr ->
  client_inv id servers cfg others arrived' n now c h tr.
Proof.
  intros Hsub [[] Ha Hk]. split; [|done..]. split; try done. intros o Ho t out Ht Hout.
  destruct (cb_answers0 o Ho t out Ht Hout) as (? & r & seq & b & ? & ? & ? & ?). split; [done|]. exists r, seq, b. auto.
Qed.

(** A client does not notice what others add to the history. *)
Lemma client_inv_frame id servers cfg arrived n now c h h' tr :
  own id h' = own id h -> history_ok now h' ->
  client_inv id servers cfg (fun d => own d h) arrived n now c h tr ->
  client_inv id servers cfg (fun d => own d h') arrived n now c h' tr.
Proof.
  intros Ho Hh [[] Ha Hk]. split; [|done..]. split; rewrite ?Ho; try done.
  - intros f Hf. unfold in_flight. rewrite Ho. by apply cb_inflight0.
  - eapply Forall_impl; [exact cb_sent0|]. intros ev. cbv beta. unfold sent_ok, asked. by rewrite Ho.
Qed.

Lemma client_new_inv id node servers seed cfg c arrived now h :
  client_new id node servers seed cfg = Some c -> is_u32 id -> history_ok now h -> own id h = [] ->
  client_inv id servers cfg (fun d => own d h) arrived 0 now c h [].
Proof.
  intros Hc Hid Hh Hown. unfold client_new in Hc.
  destruct (rng_below _ _) as [[t rng]|] eqn:Er; [|done]. injection Hc as <-.
  split; [split; try done|done..]; simpl; try lia.
  - destruct (draws_below (Z.of_nat (length servers)) (fun _ => True) ltac:(done) _ _ _ (rng_new_ok seed) Er). done.
  - by rewrite Hown.
  - rewrite Hown. constructor.
  - intros k. unfold sends, tries, max_tries. simpl. case_match; lia.
  - rewrite Hown. by intros o ?%elem_of_nil.
Qed.

Lemma wp_client_event {W} `{Io W} id servers cfg others arrived pre n now ev c h (e : Env W) :
  0 < (wl_retry_backoff cfg).1 -> now <= ev.1 -> n + 1 < 2 ^ 32 ->
  (forall bytes, ev.2 = CeBytes bytes -> (ev.1, bytes) ∈ arrived) ->
  client_inv id servers cfg others arrived n now c h (pre ++ env_trace e) ->
  wp (client_event ev) (kept id servers cfg others arrived pre (n + 1) ev.1) (c, h) e.
Proof.
  intros Hpos Hle Hn Harr Hi. apply (client_inv_later _ _ _ _ _ _ _ ev.1) in Hi; [|done].
  unfold client_event. destruct ev as [t [bytes|tag|]]; simpl in *.
  - apply wp_client_on_bytes; auto.
  - by apply wp_client_on_timer.
  - apply wp_cl_modify. by apply client_inv_weaken, client_inv_stop.
Qed.

Lemma wp_client_run {W} `{Io W} id servers cfg others arrived evs n now c h (e : Env W) :
  0 < (wl_retry_backoff cfg).1 -> StronglySorted Z.le (now :: evs.*1) ->
  n + Z.of_nat (length evs) < 2 ^ 32 -> messages_of evs ⊆ arrived ->
  client_inv id servers cfg others arrived n now c h (env_trace e) ->
  wp (client_run evs) (fun _ s e' => exists n' now', client_inv id servers cfg others arrived n' now' s.1 s.2 (env_trace e')) (c, h) e.
Proof.
  intros Hpos. revert n now c h e. induction evs as [|ev evs IH]; intros n now c h e Hs Hn Harr Hi.
  { apply wp_ret. eauto. }
  rewrite fmap_cons in Hs. apply StronglySorted_cons in Hs as [Hle Hs]. apply Forall_cons in Hle as [Hle _].
  apply wp_bind. eapply wp_mono; [eapply (wp_client_event id servers cfg others arrived [] n now); try done|].
  - simpl in Hn. lia.
  - intros bytes E. apply Harr. unfold messages_of. simpl. rewrite E. by left.
  - intros [] [c' h'] e' Hk. eapply IH; [done| | |exact Hk]; [simpl in Hn; lia|].
    etransitivity; [|exact Harr]. unfold messages_of. simpl. destruct ev as [t []]; set_solver.
Qed.

(** C32. A client's part of the history is what it did.  Whatever the world answers
    and whatever arrives, the history stays well formed and holds the client's
    operations one after the other; every request it sends is for one of them,
    with that operation's number and text, at most [max_attempts] requests with
    any one number (one, if the bound is zero); and an operation is answered only with a
    definite outcome that arrived in reply to an attempt at that operation.  A
    bound on the number of events keeps the keys of the history apart. *)
Theorem client_records_what_happened {W} `{Io W} id node servers seed cfg c0 w evs c h (e : Env W) :
  client_new id node servers seed cfg = Some c0 -> is_u32 id -> 0 < (wl_retry_backoff cfg).1 ->
  StronglySorted Z.le evs.*1 -> Z.of_nat (length evs) < 2 ^ 32 ->
  client_run evs (c0, history_new) (mkEnv w []) = Some (tt, (c, h), e) ->
  history_well_formed h = Ok tt /\
  lo_id <$> h_ops h = history_key id <$> seqZ 1 (cl_seq c) /\
  StronglySorted one_by_one (h_ops h) /\
  Forall (sent_ok id servers h) (env_trace e) /\
  (forall k, sends k (env_trace e) <= max_tries cfg) /\
  forall o, o ∈ h_ops h -> answer_ok id (env_trace e) (messages_of evs) o.
Proof.
  intros Hc Hid Hpos Hs Hlen Hrun. set (t0 := default 0 (head evs.*1)).
  pose proof (wp_client_run id servers cfg (fun d => own d history_new) (messages_of evs) evs 0 t0 c0 history_new
    (mkEnv w []) Hpos) as Hwp.
  eapply wp_Some in Hrun; [|apply Hwp; [|lia|done|]].
  - destruct Hrun as (n & now & [[] _ _]). simpl in *.
    assert (Hall : own id h = h_ops h).
    { apply own_all. intros o Ho. destruct (decide (lo_client o = id)) as [|Hne]; [done|exfalso].
      assert (Hin : o ∈ own (lo_client o) h) by by apply own_elem.
      rewrite cb_others0 in Hin by done. by apply elem_of_nil in Hin. }
    rewrite Hall in *. split; [by eapply history_ok_well_formed|]. split; [done|]. split; [done|]. split; [done|].
    split; [|done]. intros k. etransitivity; [apply cb_sends0|]. unfold tries, max_tries in *.
    destruct (Z.ltb_spec (cl_seq c) k); [lia|]. destruct (cl_inflight c) as [f|] eqn:Hf; [|lia].
    destruct (cb_inflight0 f eq_refl) as (_ & _ & _ & Hb & _). unfold max_tries in Hb. case_match; lia.
  - apply StronglySorted_cons. split; [|done]. unfold t0. destruct evs as [|ev evs]; [done|]. simpl.
    rewrite fmap_cons in Hs. apply StronglySorted_cons in Hs as [Hs _]. by apply Forall_cons.
  - eapply client_new_inv; [exact Hc|done|apply history_new_ok|done].
Qed.

(** ** Witness: one operation, redirected once and answered. *)

Definition demo_client_events : list (Nanos * ClientEvent) :=
  [(1, CeTimer TIMER_THINK);
   (20, CeBytes (message_encode (MClient (Reply 2 (NotLeader (Some 1))))));
   (60, CeTimer TIMER_RETRY);
   (70, CeBytes (message_encode (MClient (Reply 2 (NotLeader None)))));
   (90, CeBytes (message_encode (MClient (Reply 3 Written)))); (95, CeStop)].
Definition demo_client_run : option (unit * (Client * History) * Env Z) :=
  c0 ← client_new 1 3 [0; 1; 2] 5 workload_config_default;
  client_run (H := counter_io) demo_client_events (c0, history_new) (mkEnv 100 []).
Definition demo_client_summary : option (list (Z * option Nanos * option Outcome) * list Z) :=
  '(_, (_, h), e) ← demo_client_run;
  Some ((fun o => (lo_id o, lo_completed o, lo_outcome o)) <$> h_ops h, (fun k => sends k (env_trace e)) <$> [1; 2]).

Example demo_client_result :
  demo_client_summary = Some ([(2 ^ 32 + 1, Some 90, Some Written)], [2; 0]).
Proof. vm_compute. reflexivity. Qed.

Lemma client_records_what_happened_witness :
  exists c h e, demo_client_run = Some (tt, (c, h), e) /\ history_well_formed h = Ok tt /\
    forall k, sends k (env_trace e) <= max_tries workload_config_default.
Proof.
  destruct (client_new 1 3 [0; 1; 2] 5 workload_config_default) as [c0|] eqn:E0; [|vm_compute in E0; discriminate E0].
  assert (Ed : demo_client_run =
    client_run (H := counter_io) demo_client_events (c0, history_new) (mkEnv 100 [])) by (unfold demo_client_run; by rewrite E0).
  destruct demo_client_run as [[[[] [c h]] e]|] eqn:E; [|vm_compute in E; discriminate E].
  exists c, h, e. split; [reflexivity|].
  destruct (client_records_what_happened (H := counter_io) 1 3 [0; 1; 2] 5 workload_config_default c0 100 demo_client_events
    c h e E0) as (Hw & _ & _ & _ & Hs & _); [split; done|done| |done|by symmetry|by split].
  repeat constructor; vm_compute; discriminate.
Defined.
