(* ===== verification/IoRules.v ===== *)
(** * IoRules: a handler touches the world only through the requests it records

    Every handler of Raft, of the server and of the clients is regular: put
    together from the primitives of [Io] by sequencing, so what holds of the
    primitives and survives sequencing holds of it.  [io_steps evs w w'] replays
    recorded requests on a world, with the handles and operation numbers the world
    gave; regular computations are faithful, the world they leave being the replay
    of what they added to their record. *)
From Stdlib Require Import String.
From S2P Require Import Prelude Codec Crc LogFormat RaftLog Recovery Durable Messages Config StateMachine Io Rng Draw.
From S2P Require Import Faults Trace Persister RaftState Raft History Server Harness Client.
From Stdlib.Init Require Import Byte.
Local Open Scope Z_scope.

Section Faithful.
Context {W : Type} `{Io W}.

Definition io_step (ev : IoEvent) (w w' : W) : Prop :=
  match ev with
  | EvSend to bytes => w' = io_send w to bytes
  | EvWriteAt op file offset bytes => io_write_at w file offset bytes = (op, w')
  | EvSetLen op file len => io_set_len w file len = (op, w')
  | EvSync op file => io_sync w file = (op, w')
  | EvSetTimer handle delay tag => io_set_timer w delay tag = (handle, w')
  | EvCancelTimer handle => w' = io_cancel_timer w handle
  | EvObserve tag args => w' = io_observe w tag args
  end.
Fixpoint io_steps (evs : list IoEvent) (w w' : W) : Prop :=
  match evs with
  | [] => w' = w
  | ev :: evs => exists w1, io_step ev w w1 /\ io_steps evs w1 w'
  end.

Lemma io_steps_app a b w1 w2 w3 : io_steps a w1 w2 -> io_steps b w2 w3 -> io_steps (a ++ b) w1 w3.
Proof.
  revert w1. induction a as [|ev a IH]; intros w1; simpl; [by intros ->|].
  intros (w & H1 & H2) H3. exists w. eauto.
Qed.

Definition faithful {S A} (m : M W S A) : Prop :=
  forall s e a s' e', m s e = Some (a, s', e') ->
    exists evs, env_trace e' = env_trace e ++ evs /\ io_steps evs (env_world e) (env_world e').


(** ** Computations put together from the primitives *)

(** A property of computations that the primitives have and that sequencing keeps. *)
Record closed (P : forall S A : Type, M W S A -> Prop) : Prop := {
  cp_ret : forall S A (a : A), P S A (mret a);
  cp_bind : forall S A B (m : M W S A) (k : A -> M W S B), P S A m -> (forall a, P S B (k a)) -> P S B (m ≫= k);
  cp_get : forall S, P S S get;
  cp_modify : forall S f, P S unit (modify f);
  cp_lift : forall S A (o : option A), P S A (lift o);
  cp_panic : forall S A, P S A panic;
  cp_zoom : forall S T A (proj : S -> T) (put : T -> S -> S) (m : M W T A), P T A m -> P S A (zoom proj put m);
  cp_with_state : forall S T (t : T) (m : M W T unit), P T unit m -> P S T (with_state t m);
  cp_read_all : forall S file, P S (list byte) (read_all file);
  cp_now : forall S, P S Nanos now;
  cp_set_timer : forall S delay tag, P S Z (set_timer delay tag);
  cp_cancel_timer : forall S handle, P S unit (cancel_timer handle);
  cp_send_bytes : forall S to b, P S unit (send_bytes to b);
  cp_write_at : forall S file off b, P S OpId (write_at file off b);
  cp_set_len : forall S file len, P S OpId (set_len file len);
  cp_sync : forall S file, P S OpId (sync file);
  cp_observe : forall S tag args, P S unit (observe tag args);
}.
(** Such a computation has every property of that kind. *)
Definition regular {S A} (m : M W S A) : Prop := forall P, closed P -> P S A m.

Lemma regular_ret {S A} (a : A) : regular (mret (M := M W S) a).
Proof. intros P HP. by apply cp_ret. Qed.
Lemma regular_bind {S A B} (m : M W S A) (k : A -> M W S B) : regular m -> (forall a, regular (k a)) -> regular (m ≫= k).
Proof. intros Hm Hk P HP. apply cp_bind; [done|by apply Hm|]. intros a. by apply Hk. Qed.
Lemma regular_get {S} : regular (get (W := W) (S := S)).
Proof. intros P HP. by apply cp_get. Qed.
Lemma regular_modify {S} (f : S -> S) : regular (modify (W := W) f).
Proof. intros P HP. by apply cp_modify. Qed.
Lemma regular_lift {S A} (o : option A) : regular (lift (W := W) (S := S) o).
Proof. intros P HP. by apply cp_lift. Qed.
Lemma regular_add64 {S} a b : regular (add64 (W := W) (S := S) a b).
Proof. apply regular_lift. Qed.
Lemma regular_sub64 {S} a b : regular (sub64 (W := W) (S := S) a b).
Proof. apply regular_lift. Qed.
Lemma regular_panic {S A} : regular (panic (W := W) (S := S) (A := A)).
Proof. intros P HP. by apply cp_panic. Qed.
Lemma regular_when {S} b (m : M W S unit) : regular m -> regular (when b m).
Proof. intros Hm. destruct b; [done|apply regular_ret]. Qed.
Lemma regular_for_each {S A} (l : list A) (f : A -> M W S unit) : (forall a, regular (f a)) -> regular (for_each l f).
Proof.
  intros Hf. induction l as [|a l IH]; [apply regular_ret|]. apply regular_bind; [apply Hf|]. by intros _.
Qed.
Lemma regular_zoom {S T A} (proj : S -> T) (put : T -> S -> S) (m : M W T A) : regular m -> regular (zoom proj put m).
Proof. intros Hm P HP. apply cp_zoom; [done|by apply Hm]. Qed.
Lemma regular_with_state {S T} (t : T) (m : M W T unit) : regular m -> regular (with_state (S := S) t m).
Proof. intros Hm P HP. apply cp_with_state; [done|by apply Hm]. Qed.
Lemma regular_read_all {S} file : regular (read_all (W := W) (S := S) file).
Proof. intros P HP. by apply cp_read_all. Qed.
Lemma regular_now {S} : regular (now (W := W) (S := S)).
Proof. intros P HP. by apply cp_now. Qed.
Lemma regular_set_timer {S} delay tag : regular (set_timer (S := S) delay tag).
Proof. intros P HP. by apply cp_set_timer. Qed.
Lemma regular_cancel_timer {S} h : regular (cancel_timer (S := S) h).
Proof. intros P HP. by apply cp_cancel_timer. Qed.
Lemma regular_send_bytes {S} to b : regular (send_bytes (S := S) to b).
Proof. intros P HP. by apply cp_send_bytes. Qed.
Lemma regular_write_at {S} file off b : regular (write_at (S := S) file off b).
Proof. intros P HP. by apply cp_write_at. Qed.
Lemma regular_set_len {S} file len : regular (set_len (S := S) file len).
Proof. intros P HP. by apply cp_set_len. Qed.
Lemma regular_sync {S} file : regular (sync (S := S) file).
Proof. intros P HP. by apply cp_sync. Qed.
Lemma regular_observe {S} tag args : regular (observe (S := S) tag args).
Proof. intros P HP. by apply cp_observe. Qed.

(** ** Faithful computations *)

Lemma faithful_request {S A} (f : W -> A * W) ev :
  (forall a w w', f w = (a, w') -> io_step (ev a) w w') -> faithful (request (S := S) f ev).
Proof.
  intros Hf s e a s' e'. unfold request. destruct (f (env_world e)) as [b w] eqn:E. intros [= <- <- <-].
  exists [ev b]. split; [done|]. exists w. split; [by apply Hf|done].
Qed.
Lemma faithful_still {S A} (m : M W S A) : (forall s e a s' e', m s e = Some (a, s', e') -> e' = e) -> faithful m.
Proof. intros Hm s e a s' e' E. apply Hm in E as ->. exists []. by rewrite app_nil_r. Qed.

Lemma faithful_closed : closed (@faithful).
Proof.
  split; intros; try (apply faithful_still; by intros ????? [= _ _ <-]).
  - intros s e b s' e'. unfold mbind, M_bind. destruct (m s e) as [[[a s1] e1]|] eqn:E; [|done].
    intros Ek. destruct (H0 _ _ _ _ _ E) as (e1s & T1 & W1). destruct (H1 _ _ _ _ _ _ Ek) as (e2s & T2 & W2).
    exists (e1s ++ e2s). rewrite T2, T1, app_assoc. split; [done|]. by eapply io_steps_app.
  - apply faithful_still. intros s e a s' e'. unfold lift. destruct o; [|done]. by intros [= _ _ <-].
  - intros s e a s' e'. unfold zoom. destruct (m (proj s) e) as [[[b t] e1]|] eqn:E; [|done].
    intros [= _ _ <-]. by eapply H0.
  - intros s e a s' e'. unfold with_state. destruct (m t e) as [[[b t'] e1]|] eqn:E; [|done].
    intros [= _ _ <-]. by eapply H0.
  - by apply faithful_request.
  - apply faithful_request. by intros a w w' [= _ <-].
  - apply faithful_request. by intros a w w' [= _ <-].
  - by apply faithful_request.
  - by apply faithful_request.
  - by apply faithful_request.
  - apply faithful_request. by intros a w w' [= _ <-].
Qed.
Lemma regular_faithful {S A} (m : M W S A) : regular m -> faithful m.
Proof. intros Hm. apply Hm, faithful_closed. Qed.
End Faithful.

Create HintDb regular discriminated.
#[export] Hint Resolve regular_ret regular_get regular_modify regular_lift regular_add64 regular_sub64
  regular_panic regular_read_all regular_now regular_set_timer regular_cancel_timer regular_send_bytes
  regular_write_at regular_set_len regular_sync regular_observe : regular.

(** Walk through a handler's code, unfolding what has no lemma of its own. *)
Ltac regular_step :=
  first
    [ solve [auto with regular]
    | simple apply regular_bind; [|intro]
    | simple apply regular_when
    | simple apply regular_for_each; intro
    | simple apply regular_zoom
    | simple apply regular_with_state
    | match goal with
      | |- regular (match ?x with _ => _ end) => destruct x
      | |- regular ?m => let h := head_of m in progress unfold h
      end ].
Ltac regular := intros; repeat (cbv beta zeta; regular_step).

Section Handlers.
Context {W : Type} `{Io W}.

(** ** Raft *)

Lemma regular_send to msg : regular (send to msg).
Proof. regular. Qed.
#[local] Hint Resolve regular_send : regular.
Lemma regular_reset_election : regular reset_election_timer.
Proof. regular. Qed.
#[local] Hint Resolve regular_reset_election : regular.
Lemma regular_persist_log from truncated reply_to reply_term verified :
  regular (persist_log_from from truncated reply_to reply_term verified).
Proof. regular. Qed.
#[local] Hint Resolve regular_persist_log : regular.
Lemma regular_send_append to : regular (send_append_to to).
Proof. regular. Qed.
#[local] Hint Resolve regular_send_append : regular.
Lemma regular_refresh_config : regular refresh_config.
Proof. regular. Qed.
#[local] Hint Resolve regular_refresh_config : regular.
Lemma regular_maybe_commit : regular maybe_commit.
Proof. regular. Qed.
#[local] Hint Resolve regular_maybe_commit : regular.
Lemma regular_advance_loop fuel cap : regular (advance_loop fuel cap).
Proof. induction fuel; simpl; regular. Qed.
#[local] Hint Resolve regular_advance_loop : regular.
Lemma regular_step_down term : regular (step_down term).
Proof. regular. Qed.
#[local] Hint Resolve regular_step_down : regular.
Lemma regular_step_down_and_persist term : regular (step_down_and_persist term).
Proof. regular. Qed.
#[local] Hint Resolve regular_step_down_and_persist : regular.
Lemma regular_become_leader : regular become_leader.
Proof. regular. Qed.
#[local] Hint Resolve regular_become_leader : regular.
Lemma regular_become_candidate : regular become_candidate.
Proof. regular. Qed.
#[local] Hint Resolve regular_become_candidate : regular.
Lemma regular_decide_vote from candidate i t dirty : regular (decide_vote from candidate i t dirty).
Proof. regular. Qed.
#[local] Hint Resolve regular_decide_vote : regular.
Lemma regular_take_entries start conflict new : regular (take_entries start conflict new).
Proof. regular. Qed.
#[local] Hint Resolve regular_take_entries : regular.
Lemma regular_append_matched from prev last es commit dirty : regular (append_matched from prev last es commit dirty).
Proof. regular. Qed.
#[local] Hint Resolve regular_append_matched : regular.
Lemma regular_install_image from i t data : regular (install_image from i t data).
Proof. regular. Qed.
#[local] Hint Resolve regular_install_image : regular.
Lemma regular_on_durable action : regular (on_durable action).
Proof. regular. Qed.
#[local] Hint Resolve regular_on_durable : regular.

Lemma regular_on_message from msg : regular (on_message from msg).
Proof. regular. Qed.
#[local] Hint Resolve regular_on_message : regular.
Lemma regular_on_timer tag : regular (on_timer tag).
Proof. regular. Qed.
#[local] Hint Resolve regular_on_timer : regular.
Lemma regular_on_storage op ok : regular (on_storage op ok).
Proof. regular. Qed.
#[local] Hint Resolve regular_on_storage : regular.
Lemma regular_propose cmd : regular (propose cmd).
Proof. regular. Qed.
#[local] Hint Resolve regular_propose : regular.
Lemma regular_recover {S} id members cfg seed : regular (recover (S := S) id members cfg seed).
Proof. regular. Qed.
#[local] Hint Resolve regular_recover : regular.

(** ** The server *)

Lemma regular_drop_all : regular drop_all_waiting.
Proof. regular. Qed.
#[local] Hint Resolve regular_drop_all : regular.
Lemma regular_drain : regular drain.
Proof. regular. Qed.
#[local] Hint Resolve regular_drain : regular.
Lemma regular_propose_request from req_id client seq op : regular (propose_request from req_id client seq op).
Proof. regular. Qed.
#[local] Hint Resolve regular_propose_request : regular.
Lemma regular_on_bytes from bytes : regular (on_bytes from bytes).
Proof. regular. Qed.
Lemma regular_server_on_timer tag : regular (server_on_timer tag).
Proof. regular. Qed.
Lemma regular_server_on_storage op ok : regular (server_on_storage op ok).
Proof. regular. Qed.
Lemma regular_server_propose_membership members : regular (server_propose_membership members).
Proof. regular. Qed.
Lemma regular_server_recover {S} id members cfg seed : regular (server_recover (S := S) id members cfg seed).
Proof. regular. Qed.

(** ** A client *)

Lemma regular_attempt : regular attempt.
Proof. regular. Qed.
#[local] Hint Resolve regular_attempt : regular.
Lemma regular_think now : regular (think now).
Proof. regular. Qed.
#[local] Hint Resolve regular_think : regular.
Lemma regular_client_on_bytes now bytes : regular (client_on_bytes now bytes).
Proof. regular. Qed.
Lemma regular_client_on_timer now tag : regular (client_on_timer now tag).
Proof. regular. Qed.
End Handlers.
