(* ===== verification/Drain.v ===== *)
(** * Drain: what handling an event leaves behind ([kvstore/server.rs])

    Handlers end with [drain]: it adopts a snapshot, applies what is committed,
    answers the clients whose commands were applied and the reads that are ready,
    and gives up what this node can no longer answer.  Here is the whole of its
    contract: what is applied, what is answered and with what, that no client is
    forgotten, and what remains. *)
From Stdlib Require Import String.
From S2P Require Import Prelude Codec Crc LogFormat RaftLog Recovery Durable Messages Config.
From S2P Require Import StateMachine Io Rng Persister RaftState Raft RaftInv RaftRecover RaftSafety.
From S2P Require Import RaftRules Reads Server ServerRules IoRules.
From Stdlib.Init Require Import Byte.

(** ** What is sent *)

Section Emits.
Context {W : Type}.

(** [ev] happened between [e] and [e']. *)
Definition emits (e e' : Env W) (ev : IoEvent) : Prop :=
  exists new, env_trace e' = env_trace e ++ new /\ ev ∈ new.
Definition grows (e e' : Env W) : Prop := exists new, env_trace e' = env_trace e ++ new.

#[export] Instance grows_preorder : PreOrder grows.
Proof.
  split; [intros e; exists []; by rewrite app_nil_r|]. intros a b c [x Hx] [y Hy].
  exists (x ++ y). by rewrite Hy, Hx, app_assoc.
Qed.
Lemma emits_later a b c ev : grows a b -> emits b c ev -> emits a c ev.
Proof. intros [x Hx] (y & Hy & Hin). exists (x ++ y). rewrite Hy, Hx, app_assoc. set_solver. Qed.
Lemma emits_before a b c ev : emits a b ev -> grows b c -> emits a c ev.
Proof. intros (x & Hx & Hin) [y Hy]. exists (x ++ y). rewrite Hy, Hx, app_assoc. set_solver. Qed.
Lemma emits_grows a b ev : emits a b ev -> grows a b.
Proof. intros (x & Hx & _). by exists x. Qed.

Context `{Io W}.
Lemma wp_grows {S A} (m : M W S A) s e : regular m -> wp m (fun _ _ e' => grows e e') s e.
Proof.
  intros Hm. unfold wp. destruct (m s e) as [[[a s'] e']|] eqn:E; [|done].
  destruct (regular_faithful m Hm _ _ _ _ _ E) as (evs & Ht & _). by exists evs.
Qed.
End Emits.

(** The answers given to who waits. *)
Definition waiter_reply (w : Waiting) (o : Outcome) : IoEvent :=
  EvSend (wt_to w) (message_encode (MClient (Reply (wt_req_id w) o))).
Definition read_reply (r : WaitingRead) (o : Outcome) : IoEvent :=
  EvSend (wr_to r) (message_encode (MClient (Reply (wr_req_id r) o))).
(** The waiter asked for this very command. *)
Definition waits_for (w : Waiting) (en : Entry) : Prop :=
  wt_client w = c_client (e_cmd en) /\ wt_seq w = c_seq (e_cmd en).

(** ** The parts of [drain] *)

Section Drain.
Context {W : Type} `{Io W}.

(** All but the clients waiting for an index. *)
Definition waiters_only (s s' : KvServer) : Prop :=
  sv_raft s' = sv_raft s /\ sv_sm s' = sv_sm s /\ sv_bug s' = sv_bug s /\
  sv_waiting_reads s' = sv_waiting_reads s.
(** All but the waiting reads. *)
Definition reads_only (s s' : KvServer) : Prop :=
  sv_raft s' = sv_raft s /\ sv_sm s' = sv_sm s /\ sv_bug s' = sv_bug s /\ sv_waiting s' = sv_waiting s.

#[local] Instance waiters_only_preorder : PreOrder waiters_only.
Proof. split; [done|]. unfold waiters_only. intros ???. intuition congruence. Qed.
#[local] Instance reads_only_preorder : PreOrder reads_only.
Proof. split; [done|]. unfold reads_only. intros ???. intuition congruence. Qed.

Lemma reply_spec to req_id o (s : KvServer) (e : Env W) :
  wp (reply to req_id o) (fun _ s' e' => s' = s /\
    emits e e' (EvSend to (message_encode (MClient (Reply req_id o))))) s e.
Proof. apply wp_request. intros [] w _. split; [done|]. eexists. split; [done|]. left. Qed.

Lemma drop_waiter_spec i s (e : Env W) :
  wp (drop_waiter i) (fun _ s' _ => waiters_only s s' /\ sv_waiting s' = delete i (sv_waiting s)) s e.
Proof.
  unfold drop_waiter. do 3 wp_step.
  - do 3 wp_step. unfold sbump. do 5 wp_step.
    eapply wp_mono; [apply reply_spec|]. by intros [] s1 e1 [-> _].
  - split; [done|]. by rewrite delete_id.
Qed.

Lemma drop_waiters_spec l s (e : Env W) :
  wp (for_each l drop_waiter) (fun _ s' _ => waiters_only s s' /\
    forall i, sv_waiting s' !! i = if decide (i ∈ l) then None else sv_waiting s !! i) s e.
Proof.
  revert s e. induction l as [|i l IH]; intros s e; simpl.
  - by wp_step.
  - wp_step. eapply wp_mono; [apply drop_waiter_spec|]. intros [] s1 e1 [Hs1 Hw1].
    eapply wp_mono; [apply IH|]. intros [] s2 e2 [Hs2 Hw2].
    split; [by etransitivity|]. intros j. rewrite Hw2, Hw1.
    destruct (decide (j ∈ l)); [by rewrite decide_True by by right|].
    destruct (decide (j = i)) as [->|Hne].
    + by rewrite lookup_delete_eq, decide_True by by left.
    + rewrite lookup_delete_ne by congruence. rewrite decide_False; [done|].
      by intros [?|?]%elem_of_cons.
Qed.

Lemma drop_all_spec s (e : Env W) :
  wp drop_all_waiting (fun _ s' _ => waiters_only s s' /\ sv_waiting s' = ∅) s e.
Proof.
  unfold drop_all_waiting. do 2 wp_step. eapply wp_mono; [apply drop_waiters_spec|].
  intros [] s1 e1 [Hs Hw]. split; [done|]. apply map_eq. intros i. rewrite Hw, lookup_empty.
  case_decide as D; [done|]. destruct (sv_waiting s !! i) as [w|] eqn:E; [|done].
  exfalso. apply D, list_elem_of_fmap. exists (i, w). split; [done|]. by apply by_index_elem.
Qed.

Lemma drop_stale_spec s (e : Env W) :
  wp drop_stale (fun _ s' _ => waiters_only s s' /\
    forall i w, sv_waiting s' !! i = Some w -> r_last_applied (sv_raft s) < i) s e.
Proof.
  unfold drop_stale. do 2 wp_step. eapply wp_mono; [apply drop_waiters_spec|].
  intros [] s1 e1 [Hs Hw]. split; [done|]. intros i w. rewrite Hw.
  case_decide as D; [done|]. intros E. apply Z.nle_gt. intros Hle. apply D, list_elem_of_fmap.
  exists (i, w). split; [done|]. apply list_elem_of_In, List.filter_In.
  split; [apply list_elem_of_In; by apply by_index_elem|]. simpl. by apply Z.leb_le.
Qed.

(** The state machine after a snapshot is adopted. *)
Definition restored (s : KvServer) (restore : option (list byte)) : StateMachine :=
  match restore with
  | Some data => match sm_restore data (sv_bug s) with Ok sm => sm | Err _ => sv_sm s end
  | None => sv_sm s
  end.

Lemma adopt_snapshot_spec s (e : Env W) :
  wp adopt_snapshot (fun _ s' _ =>
    sv_raft s' = (take_pending_restore (sv_raft s)).2 /\
    sv_sm s' = restored s (r_pending_restore (sv_raft s)) /\ sv_waiting_reads s' = sv_waiting_reads s /\
    (r_pending_restore (sv_raft s) = None -> sv_waiting s' = sv_waiting s)) s e.
Proof.
  unfold adopt_snapshot, on_raft_pure. do 3 wp_step. simpl. do 3 wp_step.
  destruct (r_pending_restore (sv_raft s)) as [data|] eqn:E; [|by wp_step].
  wp_step. wp_step. wp_step. simpl sv_bug.
  eapply (wp_mono _ (fun _ s' _ => sv_raft s' = (sv_raft s) ⟨ r_pending_restore := None ⟩ /\
    sv_sm s' = restored s (Some data) /\ sv_waiting_reads s' = sv_waiting_reads s)).
  - simpl restored. destruct (sm_restore data (sv_bug s)) as [sm|].
    + do 2 wp_step. unfold sbump. by do 5 wp_step.
    + by wp_step.
  - intros [] s1 e1 (Hr & Hsm & Hrd). eapply wp_mono; [apply drop_all_spec|].
    intros [] s2 e2 [(Hr2 & Hsm2 & _ & Hrd2) _]. rewrite Hr2, Hsm2, Hrd2. done.
Qed.

(** *** Applying *)

Lemma regular_apply_entry en : regular (apply_entry en).
Proof. regular. Qed.

Lemma apply_entry_spec en s (e : Env W) :
  wp (apply_entry en) (fun _ s' e' => sv_raft s' = sv_raft s /\
    sv_sm s' = (sm_apply (sv_sm s) (e_cmd en)).2 /\ sv_waiting_reads s' = sv_waiting_reads s /\
    sv_waiting s' = delete (e_index en) (sv_waiting s) /\
    forall w, sv_waiting s !! e_index en = Some w -> waits_for w en ->
      emits e e' (waiter_reply w (sm_apply (sv_sm s) (e_cmd en)).1)) s e.
Proof.
  unfold apply_entry. do 2 wp_step. destruct (sm_apply (sv_sm s) (e_cmd en)) as [o sm].
  do 3 wp_step. unfold sbump at 1. do 5 wp_step. wp_step.
  - simpl in Heqo0. do 2 wp_step. wp_step.
    + eapply wp_mono; [apply reply_spec|]. intros [] s1 e1 [-> He]. split_and!; try done.
      intros w' Hw' _. by simplify_eq/=.
    + wp_step. unfold sbump. do 5 wp_step. eapply wp_mono; [apply reply_spec|]. intros [] s1 e1 [-> _].
      split_and!; try done. intros w' Hw' [Hc Hq]. simplify_eq/=. by rewrite Hc, Hq, !Z.eqb_refl in *.
  - simpl in Heqo0. split_and!; [done..|simpl; by rewrite delete_id|]. intros w Hw. congruence.
Qed.

Lemma apply_entries_spec es s (e : Env W) :
  wp (for_each es apply_entry) (fun _ s' _ => sv_raft s' = sv_raft s /\
    sv_sm s' = sm_run (sv_sm s) (map e_cmd es) /\ sv_waiting_reads s' = sv_waiting_reads s) s e.
Proof.
  revert s e. induction es as [|en es IH]; intros s e; simpl; [by wp_step|].
  wp_step. eapply wp_mono; [apply apply_entry_spec|]. intros [] s1 e1 (Hr1 & Hsm1 & Hrd1 & _).
  eapply wp_mono; [apply IH|]. intros [] s2 e2 (Hr2 & Hsm2 & Hrd2). rewrite Hr2, Hsm2, Hsm1, Hrd2. done.
Qed.

(** Whoever waits for an entry is told what its command did. *)
Lemma apply_entries_answer es k en w s (e : Env W) :
  NoDup (map e_index es) -> es !! k = Some en -> sv_waiting s !! e_index en = Some w -> waits_for w en ->
  wp (for_each es apply_entry) (fun _ _ e' =>
    emits e e' (waiter_reply w (sm_apply (sm_run (sv_sm s) (map e_cmd (take k es))) (e_cmd en)).1)) s e.
Proof.
  revert k s e. induction es as [|en0 es IH]; intros k s e Hnd Hk Hw Hwf; [done|].
  apply NoDup_cons in Hnd as [Hni Hnd]. simpl for_each. wp_step.
  eapply wp_mono; [apply wp_and; [apply (apply_entry_spec en0)|apply wp_grows, regular_apply_entry]|].
  intros [] s1 e1 [(_ & Hsm1 & _ & Hw1 & Ha) Hg]. destruct k as [|k]; simpl in Hk.
  - injection Hk as ->. eapply wp_mono; [apply wp_grows, regular_for_each, regular_apply_entry|].
    intros ? s2 e2 Hg2. eapply emits_before; [by apply Ha|done].
  - eapply wp_mono; [apply (IH k); [done|done| |done]|].
    + rewrite Hw1, lookup_delete_ne; [done|]. intros E. apply Hni. rewrite E.
      apply list_elem_of_fmap. exists en. split; [done|]. by eapply list_elem_of_lookup_2.
    + intros ? s2 e2 He. simpl. rewrite <-Hsm1. by eapply emits_later.
Qed.

(** *** Reads *)

(** Take the reads [l] out, answering each with [out]. *)
Definition takes_read (out : StateMachine -> WaitingRead -> Outcome) (f : Z -> M W KvServer unit) : Prop :=
  forall id s e, wp (f id) (fun _ s' e' => reads_only s s' /\ grows e e' /\
    sv_waiting_reads s' = delete id (sv_waiting_reads s) /\
    forall r, sv_waiting_reads s !! id = Some r -> emits e e' (read_reply r (out (sv_sm s) r))) s e.

Lemma answer_read_takes : takes_read (fun sm r => OValue (sm_state sm !! wr_key r)) answer_read.
Proof.
  intros id s e. unfold answer_read. do 3 wp_step.
  - do 3 wp_step. unfold sbump. do 5 wp_step.
    eapply wp_mono; [apply reply_spec|]. intros [] s1 e1 [-> He].
    split; [done|]. split; [by eapply emits_grows|]. split; [done|]. intros r' Hr'. simplify_eq. exact He.
  - split; [done|]. split; [done|]. split; [by rewrite delete_id|congruence].
Qed.

Lemma drop_read_takes : takes_read (fun _ _ => Dropped) drop_read.
Proof.
  intros id s e. unfold drop_read. do 3 wp_step.
  - do 3 wp_step. unfold sbump. do 5 wp_step.
    eapply wp_mono; [apply reply_spec|]. intros [] s1 e1 [-> He].
    split; [done|]. split; [by eapply emits_grows|]. split; [done|]. intros r' Hr'. simplify_eq. exact He.
  - split; [done|]. split; [done|]. split; [by rewrite delete_id|congruence].
Qed.

Lemma takes_reads out f l s (e : Env W) :
  takes_read out f ->
  wp (for_each l f) (fun _ s' e' => reads_only s s' /\ grows e e' /\
    (forall id, sv_waiting_reads s' !! id = if decide (id ∈ l) then None else sv_waiting_reads s !! id) /\
    forall id r, id ∈ l -> sv_waiting_reads s !! id = Some r -> emits e e' (read_reply r (out (sv_sm s) r))) s e.
Proof.
  intros Hf. revert s e. induction l as [|i l IH]; intros s e; simpl.
  - wp_step. split; [done|]. split; [done|]. split; [done|]. by intros id r ?%elem_of_nil.
  - wp_step. eapply wp_mono; [apply Hf|]. intros [] s1 e1 (Hs1 & Hg1 & Hr1 & Ha1).
    eapply wp_mono; [apply IH|]. intros [] s2 e2 (Hs2 & Hg2 & Hr2 & Ha2).
    assert (Hsm : sv_sm s1 = sv_sm s) by apply Hs1. rewrite Hsm in Ha2.
    split; [by etransitivity|]. split; [by etransitivity|]. split.
    + intros id. rewrite Hr2, Hr1. destruct (decide (id = i)) as [->|Hne].
      * rewrite lookup_delete_eq, (decide_True (P := i ∈ i :: l)) by by left. by case_decide.
      * rewrite lookup_delete_ne by congruence. by apply decide_ext; set_solver.
    + intros id r Hin Hr. destruct (decide (id = i)) as [->|Hne].
      * eapply emits_before; [by apply Ha1|done].
      * eapply emits_later; [done|]. apply (Ha2 id); [set_solver|]. by rewrite Hr1, lookup_delete_ne by congruence.
Qed.

(** *** What is handed over *)

(** The entries handed over are those of the log, in order, none skipped. *)
Lemma take_applied_entries fuel l commit start :
  let '(es, applied) := take_applied_loop fuel l commit start in
  (forall i en, es !! i = Some en -> log_get l (start + 1 + Z.of_nat i) = Some en) /\
  applied = start + Z.of_nat (length es).
Proof.
  revert start. induction fuel as [|fuel IH]; intros start; simpl.
  - split; [done|simpl; lia].
  - destruct (start <? commit); [|split; [done|simpl; lia]].
    destruct (log_get l (start + 1)) as [en|] eqn:E; [|split; [done|simpl; lia]].
    specialize (IH (start + 1)). destruct (take_applied_loop fuel l commit (start + 1)) as [es a].
    destruct IH as [IH ->]. split; [|simpl; lia].
    intros [|i] x; simpl; [intros [= <-]; by rewrite Z.add_0_r|].
    intros Hx%IH. by replace (start + 1 + Z.of_nat (S i)) with (start + 1 + 1 + Z.of_nat i) by lia.
Qed.

(** With the log intact nothing that is committed is left behind. *)
Lemma take_applied_all fuel l commit start :
  log_wf l -> l_snapshot_index l <= start -> commit <= log_last_index l ->
  commit - start <= Z.of_nat fuel -> start <= commit ->
  (take_applied_loop fuel l commit start).2 = commit.
Proof.
  intros Hwf. revert start. induction fuel as [|fuel IH]; intros start Hs Hc Hf Hle; simpl; [lia|].
  destruct (Z.ltb_spec start commit); [|simpl; lia].
  destruct (proj2 (wf_get_is_Some l Hwf (start + 1))) as [en ->]; [lia|].
  specialize (IH (start + 1) ltac:(lia) Hc ltac:(lia) ltac:(lia)).
  destruct (take_applied_loop fuel l commit (start + 1)). exact IH.
Qed.

Lemma take_applied_pending r es applied :
  take_applied_loop (S (length (l_entries (r_log r)))) (r_log r) (r_commit_index r)
    (Z.max (r_last_applied r) (l_snapshot_index (r_log r))) = (es, applied) ->
  take_applied (take_pending_restore r).2 =
    (es, (take_pending_restore r).2 ⟨ r_last_applied := applied ⟩).
Proof.
  intros E. unfold take_applied. cbv zeta.
  change (r_log (take_pending_restore r).2) with (r_log r).
  change (r_last_applied (take_pending_restore r).2) with (r_last_applied r).
  change (r_commit_index (take_pending_restore r).2) with (r_commit_index r).
  by rewrite E.
Qed.


Lemma applied_indices l start (es : list Entry) :
  log_wf l -> (forall i en, es !! i = Some en -> log_get l (start + 1 + Z.of_nat i) = Some en) ->
  forall i en, es !! i = Some en -> e_index en = start + 1 + Z.of_nat i.
Proof. intros Hwf Hes i en Hi. eapply wf_get_index; eauto. Qed.
Lemma applied_NoDup (es : list Entry) start :
  (forall i en, es !! i = Some en -> e_index en = start + 1 + Z.of_nat i) -> NoDup (map e_index es).
Proof.
  intros Hi. apply NoDup_alt. intros i j x Hx Hy. rewrite list_lookup_fmap in Hx, Hy.
  destruct (es !! i) as [a|] eqn:Ea; [|done]. destruct (es !! j) as [b|] eqn:Eb; [|done].
  simplify_eq/=. rewrite (Hi i a Ea), (Hi j b Eb) in *. lia.
Qed.

Lemma on_raft_pure_spec {A} (f : Raft -> A * Raft) s (e : Env W) :
  wp (on_raft_pure f) (fun a s' e' => a = (f (sv_raft s)).1 /\ e' = e /\
    s' = s ⟨ sv_raft := (f (sv_raft s)).2 ⟩) s e.
Proof. unfold on_raft_pure. do 2 wp_step. destruct (f (sv_raft s)). by do 3 wp_step. Qed.

Lemma take_snapshot_frame data s (e : Env W) :
  wp (take_snapshot data) (fun _ s' _ => r_last_applied s' = r_last_applied s /\ r_role s' = r_role s /\
    r_pending_reads s' = r_pending_reads s) s e.
Proof.
  unfold take_snapshot, persisting, bump, bump_by, start_batch, write_at, set_len, observe.
  frame_go; done.
Qed.

(** ** Reads *)

(** Every read a client waits for is among those the node holds. *)
Definition reads_matched (s : KvServer) : Prop :=
  forall id, is_Some (sv_waiting_reads s !! id) -> id ∈ map pr_id (r_pending_reads (sv_raft s)).

Definition answer_reads : M W KvServer unit :=
  ready ← on_raft_pure take_ready_reads;
  for_each ready answer_read ;;
  failed ← on_raft_pure take_failed_reads;
  for_each failed drop_read.

(** The reads once the committed entries are applied. *)
Lemma answer_reads_spec s (e : Env W) :
  wp answer_reads (fun _ s' e' =>
    sv_sm s' = sv_sm s /\ sv_waiting s' = sv_waiting s /\ r_role (sv_raft s') = r_role (sv_raft s) /\
    r_last_applied (sv_raft s') = r_last_applied (sv_raft s) /\
    (forall id r p, sv_waiting_reads s !! id = Some r -> p ∈ r_pending_reads (sv_raft s) -> pr_id p = id ->
       is_leader (sv_raft s) = true -> read_is_ready (sv_raft s) p = true ->
       emits e e' (read_reply r (OValue (sm_state (sv_sm s) !! wr_key r)))) /\
    (reads_matched s -> reads_matched s' /\
       Forall (fun p => read_is_ready (sv_raft s) p = false) (r_pending_reads (sv_raft s')) /\
       (is_leader (sv_raft s) = false -> sv_waiting_reads s' = ∅))) s e.
Proof.
  unfold answer_reads. wp_step. eapply wp_mono; [apply on_raft_pure_spec|].
  intros ready s1 e1 (Hready & -> & ->). wp_step. eapply wp_mono; [apply (takes_reads _ _ _ _ _ answer_read_takes)|].
  intros [] s2 e2 ((Hr2 & Hsm2 & _ & Hw2) & Hg2 & Hrd2 & Ha2).
  wp_step. eapply wp_mono; [apply on_raft_pure_spec|]. intros failed s3 e3 (Hfailed & -> & ->).
  eapply wp_mono; [apply (takes_reads _ _ _ _ _ drop_read_takes)|].
  intros [] s4 e4 ((Hr4 & Hsm4 & _ & Hw4) & Hg4 & Hrd4 & _).
  assert (Hrd : forall id, sv_waiting_reads s4 !! id =
    if decide (id ∈ failed) then None else if decide (id ∈ ready) then None else sv_waiting_reads s !! id)
    by (intros id; rewrite Hrd4; case_decide; [done|apply Hrd2]).
  clear Hrd4 Hrd2. simpl in Hr2, Hsm2, Hw2, Ha2, Hr4, Hsm4, Hw4. rewrite Hr2 in Hr4, Hfailed. clear Hr2.
  rewrite Hr4, Hsm4, Hw4, Hsm2, Hw2. unfold reads_matched. rewrite Hr4. clear Hr4 Hsm4 Hw4 Hsm2 Hw2.
  destruct (is_leader (sv_raft s)) eqn:Hl.
  - assert (Hl2 : is_leader (take_ready_reads (sv_raft s)).2 = true) by (unfold take_ready_reads; by rewrite Hl).
    unfold take_failed_reads in *. rewrite Hl2 in *. unfold take_ready_reads in *. rewrite Hl in *. simpl in *. subst.
    assert (Hready : forall p, p ∈ r_pending_reads (sv_raft s) -> read_is_ready (sv_raft s) p = true ->
      pr_id p ∈ map pr_id (List.filter (read_is_ready (sv_raft s)) (r_pending_reads (sv_raft s)))).
    { intros p Hp Hpr. apply list_elem_of_fmap. exists p. split; [done|].
      apply list_elem_of_In, filter_In. by rewrite <-list_elem_of_In. }
    split_and!; try done.
    + intros id r p Hw Hp <- _ Hpr. eapply emits_before; [|exact Hg4]. apply (Ha2 (pr_id p)); auto.
    + intros Hm. split; [|split; [|done]].
      * intros id. rewrite Hrd, decide_False by by intros ?%elem_of_nil. intros Hid.
        case_decide as D; [by destruct Hid|]. destruct (proj1 (list_elem_of_fmap _ _ _) (Hm id Hid)) as (p & -> & Hp).
        apply list_elem_of_fmap. exists p. split; [done|]. apply list_elem_of_In, filter_In.
        rewrite <-list_elem_of_In. split; [done|]. apply negb_true_iff.
        destruct (read_is_ready (sv_raft s) p) eqn:E; [|done]. by destruct D; apply Hready.
      * apply Forall_forall. intros p [_ Hp%negb_true_iff]%list_elem_of_In%filter_In. done.
  - assert (Hl2 : take_ready_reads (sv_raft s) = ([], sv_raft s)) by (unfold take_ready_reads; by rewrite Hl).
    rewrite Hl2 in *. simpl in *. unfold take_failed_reads in *. rewrite Hl in *. simpl in *.
    split_and!; try done. intros Hm.
    assert (Hnone : sv_waiting_reads s4 = ∅).
    { apply map_eq. intros id. rewrite Hrd, lookup_empty. case_decide as D; [done|].
      case_decide; [done|]. destruct (sv_waiting_reads s !! id) eqn:E; [|done]. destruct D. rewrite Hfailed.
      apply Hm. by rewrite E. }
    split; [|split; [constructor|done]]. intros id. rewrite Hnone, lookup_empty. by intros [].
Qed.

(** The rest of [drain]. *)
Definition finish : M W KvServer unit :=
  s ← get;
  when (wants_snapshot (sv_raft s)) (on_raft_node (take_snapshot (sm_encode (sv_sm s)))) ;;
  s ← get;
  when (negb (is_leader (sv_raft s))) drop_all_waiting.

Lemma finish_spec s (e : Env W) :
  wp finish (fun _ s' _ => sv_sm s' = sv_sm s /\ sv_waiting_reads s' = sv_waiting_reads s /\
    r_last_applied (sv_raft s') = r_last_applied (sv_raft s) /\ r_role (sv_raft s') = r_role (sv_raft s) /\
    r_pending_reads (sv_raft s') = r_pending_reads (sv_raft s) /\
    (forall i w, sv_waiting s' !! i = Some w -> sv_waiting s !! i = Some w) /\
    (is_leader (sv_raft s) = false -> sv_waiting s' = ∅)) s e.
Proof.
  unfold finish. do 3 wp_step.
  eapply (wp_mono _ (fun _ s' _ => sv_sm s' = sv_sm s /\ sv_waiting_reads s' = sv_waiting_reads s /\
    r_last_applied (sv_raft s') = r_last_applied (sv_raft s) /\ r_role (sv_raft s') = r_role (sv_raft s) /\
    r_pending_reads (sv_raft s') = r_pending_reads (sv_raft s) /\ sv_waiting s' = sv_waiting s)).
  { wp_step; [|done]. pose proof (take_snapshot_frame (sm_encode (sv_sm s)) (sv_raft s) e) as Hs.
    unfold wp, on_raft_node, zoom in *. destruct (take_snapshot _ _ _) as [[[[] r'] e']|]; [|done].
    simpl. by destruct Hs as (-> & -> & ->). }
  intros [] s1 e1 (Hsm & Hrd & Hla & Hro & Hp & Hw). do 2 wp_step.
  assert (Hl : is_leader (sv_raft s1) = is_leader (sv_raft s)) by (unfold is_leader; by rewrite Hro). wp_step.
  - eapply wp_mono; [apply drop_all_spec|]. intros [] s2 e2 [(Hr2 & Hsm2 & _ & Hrd2) Hw2].
    rewrite Hr2, Hsm2, Hrd2. split_and!; try done. intros i w. by rewrite Hw2, lookup_empty.
  - split_and!; try done; [by rewrite Hw|]. rewrite <-Hl. intros Hf. by rewrite Hf in *.
Qed.

(** A run of [drain] is a run of its parts. *)
Lemma bind_runs {A B} (m : M W KvServer A) (k : A -> M W KvServer B) s e r :
  (m ≫= k) s e = Some r -> exists a s1 e1, m s e = Some (a, s1, e1) /\ k a s1 e1 = Some r.
Proof. unfold mbind, M_bind. destruct (m s e) as [[[a s1] e1]|]; [eauto|done]. Qed.

Lemma drain_runs s (e : Env W) s' e' :
  drain s e = Some (tt, s', e') ->
  exists s1 e1 es s2 s3 e3 s4 e4 s5 e5,
    adopt_snapshot s e = Some (tt, s1, e1) /\ on_raft_pure take_applied s1 e1 = Some (es, s2, e1) /\
    for_each es apply_entry s2 e1 = Some (tt, s3, e3) /\ drop_stale s3 e3 = Some (tt, s4, e4) /\
    answer_reads s4 e4 = Some (tt, s5, e5) /\ finish s5 e5 = Some (tt, s', e').
Proof.
  intros ([] & s1 & e1 & E1 & (es & s2 & e2 & E2 & ([] & s3 & e3 & E3 & ([] & s4 & e4 & E4 & H5)%bind_runs)%bind_runs)%bind_runs)%bind_runs.
  assert (e2 = e1) as -> by (by destruct (wp_Some _ _ _ _ _ _ _ (on_raft_pure_spec take_applied s1 e1) E2) as (_ & ? & _)).
  exists s1, e1, es, s2, s3, e3, s4, e4. revert H5.
  intros (ready & x1 & y1 & F1 & ([] & x2 & y2 & F2 & (failed & x3 & y3 & F3 & ([] & x4 & y4 & F4 & F5)%bind_runs)%bind_runs)%bind_runs)%bind_runs.
  exists x4, y4. split_and!; try done. unfold answer_reads, mbind, M_bind. by rewrite F1, F2, F3, F4.
Qed.

(** Nothing is lost: every client waiting before is answered, or still waits. *)
Lemma drain_accounts s (e : Env W) s' e' :
  Inv (sv_raft s) -> drain s e = Some (tt, s', e') ->
  exists new, env_trace e' = env_trace e ++ new /\ open_tickets s ≡ₚ replies new ++ open_tickets s'.
Proof.
  intros Hi E. assert (Hp : Proper ((≡ₚ) ==> iff) (fun l => open_tickets s ≡ₚ l)) by (by intros l k ->).
  assert (HA : Acc (fun l => open_tickets s ≡ₚ l) e [] s e).
  { split; [done|]. exists []. by rewrite app_nil_r. }
  by destruct (wp_Some _ _ _ _ _ _ _ (keeps_drain _ e [] s e HA) E) as [_ Hnew].
Qed.

(** What is applied. *)
Lemma drain_applies s (e : Env W) s1 e1 es s2 :
  Inv (sv_raft s) -> st_truncated_committed (r_stats (sv_raft s)) = 0 ->
  adopt_snapshot s e = Some (tt, s1, e1) -> on_raft_pure take_applied s1 e1 = Some (es, s2, e1) ->
  let r := sv_raft s in
  let start := Z.max (r_last_applied r) (l_snapshot_index (r_log r)) in
  (forall i en, es !! i = Some en -> log_get (r_log r) (start + 1 + Z.of_nat i) = Some en) /\
  start + Z.of_nat (length es) = r_commit_index r /\
  sv_raft s2 = (take_pending_restore r).2 ⟨ r_last_applied := r_commit_index r ⟩ /\
  sv_sm s2 = restored s (r_pending_restore r) /\ sv_waiting_reads s2 = sv_waiting_reads s /\
  (r_pending_restore r = None -> sv_waiting s2 = sv_waiting s).
Proof.
  intros Hi Htr E1 E2 r start. destruct Hi as [_ Hwf _ Hsc Hac _ Hc _ _ _ _ _ _].
  specialize (Hc Htr). fold r in Hwf, Hsc, Hac, Hc.
  destruct (wp_Some _ _ _ _ _ _ _ (adopt_snapshot_spec s e) E1) as (Hr1 & Hsm1 & Hrd1 & Hw1). fold r in Hr1, Hsm1, Hw1.
  destruct (wp_Some _ _ _ _ _ _ _ (on_raft_pure_spec take_applied s1 e1) E2) as (Ees & _ & ->).
  pose proof (take_applied_entries (S (length (l_entries (r_log r)))) (r_log r) (r_commit_index r) start) as Hes.
  pose proof (take_applied_all (S (length (l_entries (r_log r)))) (r_log r)
    (r_commit_index r) start Hwf ltac:(subst start; lia) Hc) as Hall.
  rewrite (wf_last_index _ Hwf) in Hc. specialize (Hall ltac:(subst start; lia) ltac:(subst start; lia)).
  rewrite Hr1 in Ees |- *. destruct (take_applied_loop _ _ _ _) as [es' applied] eqn:El.
  simpl in Hall. subst applied. subst start. rewrite (take_applied_pending _ _ _ El) in Ees |- *. simpl in Ees. subst es'.
  destruct Hes as [Hget Hlen]. simpl. split_and!; try done; lia.
Qed.
End Drain.

(** C20. Handling an event ends with [drain], which settles what can be settled.  It
    applies to the state machine, or to the snapshot that arrived, exactly the
    committed entries that follow the last applied one, in order and none skipped.
    Every client that was waiting gets one answer or still waits.  Who waits for
    the very command applied at its index is told what that command did; who
    waits for a confirmed read at or below the commit index is told the value its
    key has once everything committed is applied.  Afterwards nobody waits for an
    index that is applied, no confirmed read at or below it is left, every read
    waited for is one the node still holds, and a server that does not lead holds
    no request of either kind. *)
Theorem drain_settles {W} `{Io W} s (e : Env W) s' e' :
  Inv (sv_raft s) -> st_truncated_committed (r_stats (sv_raft s)) = 0 -> reads_matched s ->
  drain s e = Some (tt, s', e') ->
  let r := sv_raft s in
  let start := Z.max (r_last_applied r) (l_snapshot_index (r_log r)) in
  let sm := restored s (r_pending_restore r) in
  exists es,
    (forall i en, es !! i = Some en -> log_get (r_log r) (start + 1 + Z.of_nat i) = Some en) /\
    start + Z.of_nat (length es) = r_commit_index r /\
    sv_sm s' = sm_run sm (map e_cmd es) /\ r_last_applied (sv_raft s') = r_commit_index r /\
    (exists new, env_trace e' = env_trace e ++ new /\ open_tickets s ≡ₚ replies new ++ open_tickets s') /\
    (forall k en w, r_pending_restore r = None -> es !! k = Some en ->
       sv_waiting s !! e_index en = Some w -> waits_for w en ->
       emits e e' (waiter_reply w (sm_apply (sm_run sm (map e_cmd (take k es))) (e_cmd en)).1)) /\
    (forall id q p, sv_waiting_reads s !! id = Some q -> p ∈ r_pending_reads r -> pr_id p = id ->
       is_leader r = true -> pr_confirmed p = true -> pr_read_index p <= r_commit_index r ->
       emits e e' (read_reply q (OValue (sm_state (sv_sm s') !! wr_key q)))) /\
    (forall i w, sv_waiting s' !! i = Some w -> r_commit_index r < i) /\
    (forall id, is_Some (sv_waiting_reads s' !! id) -> exists p, p ∈ r_pending_reads (sv_raft s') /\ pr_id p = id) /\
    (forall p, p ∈ r_pending_reads (sv_raft s') -> pr_confirmed p = true -> r_commit_index r < pr_read_index p) /\
    (is_leader (sv_raft s') = false -> sv_waiting s' = ∅ /\ sv_waiting_reads s' = ∅).
Proof.
  intros Hi Htr Hm E r start sm. pose proof (drain_accounts s e s' e' Hi E) as Hacc.
  destruct (drain_runs s e s' e' E) as (s1 & e1 & es & s2 & s3 & e3 & s4 & e4 & s5 & e5 & E1 & E2 & E3 & E4 & E5 & E6).
  destruct (drain_applies s e s1 e1 es s2 Hi Htr E1 E2) as (Hes & Hlen & Hr2 & Hsm2 & Hrd2 & Hw2).
  destruct (wp_Some _ _ _ _ _ _ _ (apply_entries_spec es s2 e1) E3) as (Hr3 & Hsm3 & Hrd3).
  destruct (wp_Some _ _ _ _ _ _ _ (drop_stale_spec s3 e3) E4) as ((Hr4 & Hsm4 & _ & Hrd4) & Hst).
  destruct (wp_Some _ _ _ _ _ _ _ (answer_reads_spec s4 e4) E5) as (Hsm5 & Hw5 & Hro5 & Hla5 & Hans & Hleft).
  destruct (wp_Some _ _ _ _ _ _ _ (finish_spec s5 e5) E6) as (Hsm6 & Hrd6 & Hla6 & Hro6 & Hp6 & Hw6 & Hnl).
  assert (Hr : sv_raft s4 = (take_pending_restore r).2 ⟨ r_last_applied := r_commit_index r ⟩) by (rewrite Hr4, Hr3; exact Hr2).
  assert (Hg : grows e e1 /\ grows e3 e4 /\ grows e4 e5 /\ grows e5 e').
  { split_and!; [refine (wp_Some _ _ _ _ _ _ _ (wp_grows _ _ _ _) E1)|refine (wp_Some _ _ _ _ _ _ _ (wp_grows _ _ _ _) E4)
      |refine (wp_Some _ _ _ _ _ _ _ (wp_grows _ _ _ _) E5)|refine (wp_Some _ _ _ _ _ _ _ (wp_grows _ _ _ _) E6)]; regular. }
  destruct Hg as (Hg1 & Hg4 & Hg5 & Hg6).
  assert (Hg3 : grows e1 e3) by refine (wp_Some _ _ _ _ _ _ _ (wp_grows _ _ _ (regular_for_each _ _ regular_apply_entry)) E3).
  assert (Hlast : r_last_applied (sv_raft s4) = r_commit_index r) by by rewrite Hr.
  assert (Hrd : sv_waiting_reads s4 = sv_waiting_reads s) by by rewrite Hrd4, Hrd3, Hrd2.
  assert (Hm4 : reads_matched s4) by (intros id; rewrite Hrd, Hr; apply Hm).
  destruct (Hleft Hm4) as (Hm5 & Hnot & Hnone).
  assert (Hl : is_leader (sv_raft s5) = is_leader (sv_raft s4)) by (unfold is_leader; by rewrite Hro5).
  assert (Hl' : is_leader (sv_raft s') = is_leader (sv_raft s4)) by (unfold is_leader; by rewrite Hro6, Hro5).
  exists es. split; [done|]. split; [done|]. split; [by rewrite Hsm6, Hsm5, Hsm4, Hsm3, Hsm2|].
  split; [by rewrite Hla6, Hla5|]. split; [done|]. split_and!.
  - intros k en w Hnr Hk Hw Hwf.
    assert (He : emits e1 e3 (waiter_reply w (sm_apply (sm_run sm (map e_cmd (take k es))) (e_cmd en)).1)).
    { unfold sm, r. rewrite <-Hsm2. refine (wp_Some _ _ _ _ _ _ _ (apply_entries_answer es k en w s2 e1 _ Hk _ Hwf) E3); [|by rewrite Hw2].
      eapply applied_NoDup, applied_indices; [|exact Hes]. apply Hi. }
    eapply emits_later; [exact Hg1|]. eapply emits_before; [exact He|]. by do 2 (etransitivity; [eassumption|]).
  - intros id q p Hq Hp Hid Hlead Hc Hle.
    assert (He : emits e4 e5 (read_reply q (OValue (sm_state (sv_sm s4) !! wr_key q)))).
    { apply (Hans id q p); [by rewrite Hrd|by rewrite Hr|done|by rewrite Hr|].
      unfold read_is_ready. rewrite Hc, Hlast. by apply Z.leb_le. }
    rewrite Hsm6, Hsm5.
    eapply emits_later; [|eapply emits_before; [exact He|exact Hg6]]. do 2 (etransitivity; [eassumption|]). done.
  - intros i w Hw. rewrite <-Hlast, Hr4. apply (Hst i w). rewrite <-Hw5. by apply Hw6.
  - intros id. rewrite Hrd6, Hp6. intros (p & -> & Hp)%Hm5%list_elem_of_fmap. by exists p.
  - intros p. rewrite Hp6. intros Hp Hc. rewrite Forall_forall in Hnot. specialize (Hnot p Hp).
    unfold read_is_ready in Hnot. rewrite Hc, Hlast in Hnot. by apply Z.leb_gt in Hnot.
  - rewrite Hl'. intros Hf. split; [apply Hnl; by rewrite Hl|]. rewrite Hrd6. by apply Hnone.
Qed.

(** ** The reads of a run *)

Section Matched.
Context {W : Type} `{Io W}.

Definition kept {A} (m : M W KvServer A) : Prop :=
  forall s e, reads_matched s -> wp m (fun _ s' _ => reads_matched s') s e.

Lemma kept_then {A B} (m : M W KvServer A) (k : A -> M W KvServer B) : kept m -> (forall a, kept (k a)) -> kept (m ≫= k).
Proof. intros Hm Hk s e Hs. apply wp_bind. eapply wp_mono; [by apply Hm|]. intros a s1 e1. by apply Hk. Qed.
Lemma kept_same {A} (m : M W KvServer A) :
  (forall s e, wp m (fun _ s' _ => sv_waiting_reads s' = sv_waiting_reads s /\
     map pr_id (r_pending_reads (sv_raft s')) = map pr_id (r_pending_reads (sv_raft s))) s e) -> kept m.
Proof. intros Hm s e Hs. eapply wp_mono; [apply Hm|]. intros a s1 e1 [Hr Hp] id. rewrite Hr, Hp. apply Hs. Qed.
Lemma kept_ret {A} (a : A) : kept (mret a).
Proof. by apply kept_same. Qed.
Lemma kept_get : kept get.
Proof. by apply kept_same. Qed.

Lemma kept_raft {A} (m : M W Raft A) :
  (forall s e, wp m (fun _ s' _ => map pr_id (r_pending_reads s') = map pr_id (r_pending_reads s)) s e) ->
  kept (on_raft_node m).
Proof.
  intros Hm. apply kept_same. intros s e. specialize (Hm (sv_raft s) e). unfold wp, on_raft_node, zoom in *.
  by destruct (m (sv_raft s) e) as [[[a r] e']|].
Qed.
Lemma calm_ids {A} (m : M W Raft A) : calm m ->
  forall s e, wp m (fun _ s' _ => map pr_id (r_pending_reads s') = map pr_id (r_pending_reads s)) s e.
Proof. intros Hm s e. eapply wp_mono; [by apply calm_wp|]. by intros a s' e' [_ _ -> _]. Qed.

Lemma confirm_ids s l : map pr_id (map (confirm_read s) l) = map pr_id l.
Proof. rewrite map_map. apply map_ext. intros p. unfold confirm_read. by case_match. Qed.

Lemma on_message_ids from msg s (e : Env W) :
  wp (on_message from msg) (fun _ s' _ => map pr_id (r_pending_reads s') = map pr_id (r_pending_reads s)) s e.
Proof.
  assert (Hm : (exists term seq, msg = ReadProbeResp term seq) \/ forall term seq, msg <> ReadProbeResp term seq)
    by (destruct msg; eauto).
  destruct Hm as [(term & seq & ->)|Hm]; [|by apply calm_ids, calm_on_message].
  unfold on_message, on_read_probe_resp. do 3 wp_step; [by wp_step|]. do 2 wp_step.
  wp_step; [apply calm_ids, calm_step_down_and_persist|]. wp_step; [by wp_step|].
  cbv zeta. repeat wp_step. simpl. apply confirm_ids.
Qed.

Lemma request_read_ids id s (e : Env W) :
  wp (request_read id) (fun b s' _ => map pr_id (r_pending_reads s') =
    map pr_id (r_pending_reads s) ++ if (b : bool) then [id] else []) s e.
Proof.
  unfold request_read, bump, bump_by. cbv zeta. repeat wp_step; try by rewrite app_nil_r.
  apply wp_request. intros _ w _. wp_step.
  eapply wp_mono; [apply calm_wp; calm_walk|]. intros [] s2 e2 [_ _ Hp _]. wp_step. rewrite Hp. simpl. by rewrite map_app.
Qed.

Lemma kept_drain : kept drain.
Proof.
  intros s e Hm. unfold wp. destruct (drain s e) as [[[[] s'] e']|] eqn:E; [|done].
  destruct (drain_runs s e s' e' E) as (s1 & e1 & es & s2 & s3 & e3 & s4 & e4 & s5 & e5 & E1 & E2 & E3 & E4 & E5 & E6).
  destruct (wp_Some _ _ _ _ _ _ _ (adopt_snapshot_spec s e) E1) as (Hr1 & _ & Hrd1 & _).
  destruct (wp_Some _ _ _ _ _ _ _ (on_raft_pure_spec take_applied s1 e1) E2) as (_ & _ & ->).
  destruct (wp_Some _ _ _ _ _ _ _ (apply_entries_spec es _ e1) E3) as (Hr3 & _ & Hrd3).
  destruct (wp_Some _ _ _ _ _ _ _ (drop_stale_spec s3 e3) E4) as ((Hr4 & _ & _ & Hrd4) & _).
  destruct (wp_Some _ _ _ _ _ _ _ (answer_reads_spec s4 e4) E5) as (_ & _ & _ & _ & _ & Hleft).
  destruct (wp_Some _ _ _ _ _ _ _ (finish_spec s5 e5) E6) as (_ & Hrd6 & _ & _ & Hp6 & _).
  destruct Hleft as [Hm5 _].
  - intros id. rewrite Hrd4, Hr4, Hr3, Hrd3. simpl. rewrite Hrd1, Hr1. unfold take_applied. case_match. apply Hm.
  - intros id. rewrite Hrd6, Hp6. apply Hm5.
Qed.

Ltac kept_same_tac := apply kept_same; intros; unfold redirect, reply, send_bytes, sbump; frame_go; done.

Lemma kept_propose_request from req_id client seq op : kept (propose_request from req_id client seq op).
Proof.
  unfold propose_request. apply kept_then; [apply kept_get|]. intros s. destruct (List.find _ _) as [[i w]|]; [kept_same_tac|].
  apply kept_then; [apply kept_raft, calm_ids, calm_propose|]. intros idx.
  apply kept_then; [destruct idx; kept_same_tac|]. intros _. apply kept_drain.
Qed.

Lemma kept_on_request from req_id client seq op : kept (on_request from req_id client seq op).
Proof.
  unfold on_request. apply kept_then; [kept_same_tac|]. intros _. apply kept_then; [apply kept_get|]. intros s0.
  destruct (negb _); [kept_same_tac|]. destruct (sm_cached _ _ _); [kept_same_tac|].
  destruct op; try apply kept_propose_request. cbv zeta. apply kept_then; [kept_same_tac|]. intros next.
  apply kept_then; [kept_same_tac|]. intros _ s e Hm. apply wp_bind.
  eapply (wp_mono _ (fun b s' _ => sv_waiting_reads s' = sv_waiting_reads s /\
    map pr_id (r_pending_reads (sv_raft s')) =
      map pr_id (r_pending_reads (sv_raft s)) ++ if (b : bool) then [sv_next_read_id s0] else [])).
  { pose proof (request_read_ids (sv_next_read_id s0) (sv_raft s) e) as Hr. unfold wp, on_raft_node, zoom in *.
    by destruct (request_read _ _ _) as [[[a r] e']|]. }
  intros b s1 e1 [Hrd Hp]. destruct b.
  - wp_step. wp_step. apply kept_drain. intros id. simpl. rewrite Hrd, Hp, elem_of_app. intros Hid.
    destruct (decide (id = sv_next_read_id s0)) as [->|Hne]; [right; left|left]. apply Hm.
    by rewrite lookup_insert_ne in Hid by congruence.
  - apply kept_propose_request. intros id. rewrite Hrd, Hp, app_nil_r. apply Hm.
Qed.

Lemma kept_server_handle ev : kept (server_handle ev).
Proof.
  destruct ev as [from bytes|tag|op ok|members]; simpl.
  - unfold on_bytes, server_on_raft. destruct (message_decode bytes) as [[m|[]]|]; try kept_same_tac.
    + apply kept_then; [apply kept_raft, on_message_ids|]. intros _. apply kept_drain.
    + apply kept_on_request.
  - apply kept_then; [apply kept_raft, calm_ids, calm_on_timer|]. intros _. apply kept_drain.
  - apply kept_then; [apply kept_raft, calm_ids, calm_on_storage|]. intros _. apply kept_drain.
  - apply kept_then; [apply kept_raft, calm_ids, calm_propose_membership|]. intros _. apply kept_ret.
Qed.

(** In every run of a server, each read a client waits for is one the node holds:
    the assumption of [drain_settles] is met. *)
Theorem waiting_reads_are_held id members cfg seed evs w s e :
  server_started id members cfg seed evs w s e -> reads_matched s.
Proof.
  intros (_ & r & e1 & Hrec & Hrun).
  assert (Hr : reads_matched r).
  { assert (Hw : wp (server_recover id members cfg seed) (fun r _ _ => reads_matched r) tt (mkEnv w [])).
    { unfold server_recover. wp_step. unfold wp at 1. destruct (recover _ _ _ _ _ _) as [[[raft []] e0]|]; [|done].
      apply wp_with_state. eapply wp_mono; [apply adopt_snapshot_spec|]. intros [] s1 e2 (_ & _ & Hrd & _) i.
      rewrite Hrd. simpl. rewrite lookup_empty. by intros []. }
    exact (wp_Some _ _ _ _ _ _ _ Hw Hrec). }
  clear Hrec. unfold server_run in Hrun. revert r e1 Hr Hrun.
  induction evs as [|ev evs IH]; intros r e1 Hr Hrun; [by injection Hrun as <- _|].
  apply bind_runs in Hrun as ([] & r1 & e2 & E1 & E2). eapply IH; [|exact E2].
  exact (wp_Some _ _ _ _ _ _ _ (kept_server_handle ev r e1 Hr) E1).
Qed.
End Matched.

(** The same node without its server: two entries committed, none applied. *)
Definition solo_node_events : list node_event :=
  [NodeTimer TIMER_ELECTION; NodeStorage 2 true; NodeStorage 4 true; NodeStorage 5 true;
   NodeStorage 7 true; NodePropose (mkCommand 5 1 solo_put); NodeStorage 8 true; NodeStorage 9 true].

Definition solo_node : option (Raft * Env Z) :=
  match @recover Z counter_io unit 0 [0] raft_config_default 1 tt (mkEnv 0 []) with
  | Some (r, _, e) =>
      match @node_run Z counter_io solo_node_events r e with
      | Some (_, s, e') => Some (s, e')
      | None => None
      end
  | None => None
  end.

Definition solo_server (r : Raft) : KvServer :=
  mkKvServer r sm_new {[2 := mkWaiting 9 77 5 1]} ∅ 1 server_stats_default BugNone.

Lemma solo_node_inv r e : solo_node = Some (r, e) -> Inv r.
Proof.
  unfold solo_node. intros He.
  destruct (recover _ _ _ _ _ _) as [[[r0 []] e0]|] eqn:E0; [|done].
  destruct (node_run _ r0 e0) as [[[[] s0] e1]|] eqn:E1; [|done]. injection He as <- _.
  destruct (@started_good Z counter_io 0 [0] raft_config_default 1 solo_node_events 0 r0 s0 e1)
    as (e2 & _ & [Hi _] & _); [|exact Hi].
  split; [done|]. exists e0. exact (conj E0 E1).
Qed.

Lemma drain_settles_witness :
  exists r e s' e', solo_node = Some (r, e) /\
    @drain Z counter_io (solo_server r) e = Some (tt, s', e') /\
    r_last_applied (sv_raft s') = 2 /\ sv_waiting s' = ∅ /\
    exists es, sv_sm s' = sm_run sm_new (map e_cmd es) /\ Z.of_nat (length es) = 2.
Proof.
  assert (Hb : match solo_node with
    | Some (r, e) =>
        match @drain Z counter_io (solo_server r) e with
        | Some (_, s', e') => (r_commit_index r =? 2) && (r_last_applied r =? 0) &&
            (l_snapshot_index (r_log r) =? 0) &&
            (st_truncated_committed (r_stats r) =? 0) && bool_decide (sv_waiting s' = ∅) &&
            bool_decide (r_pending_restore r = None)
        | None => false end
    | None => false end = true) by (vm_compute; reflexivity).
  destruct solo_node as [[r e]|] eqn:E; [|discriminate Hb].
  destruct (@drain Z counter_io (solo_server r) e) as [[[[] s'] e']|] eqn:Ed; [|discriminate Hb].
  repeat (apply andb_true_iff in Hb; destruct Hb as [Hb ?]).
  apply Z.eqb_eq in Hb, H2, H3, H1. apply bool_decide_eq_true_1 in H0, H.
  exists r, e, s', e'. split; [reflexivity|]. split; [exact Ed|].
  assert (Hm : reads_matched (solo_server r)) by (intros id; simpl; rewrite lookup_empty; intros [? [=]]).
  destruct (@drain_settles Z counter_io (solo_server r) e s' e' (solo_node_inv _ _ E) H1 Hm Ed)
    as (es & _ & Hlen & Hsm & Hla & _).
  simpl sv_raft in Hlen, Hsm, Hla. rewrite H, Hb, H2, H3 in *.
  split; [exact Hla|]. split; [exact H0|]. exists es. split; [exact Hsm|]. simpl in Hlen. lia.
Defined.
