(* ===== verification/Slots.v ===== *)
(** * Slots: the hard state on a disk that writes whole ([kvstore/log.rs], [simcore/disk.rs])

    [VoteLoss] shows a torn write taking back a durable hard state: two were in
    flight.  Here is what holds.  When writes are lost, reordered or delayed, but
    whole: with the hard states a node writes numbered one after the other and
    each aimed at its slot, every image a crash can leave recovers the last synced
    one or a later one.  When they are torn too: a crash with one hard state in
    flight recovers the durable one or that one.  Hard states are followed by the
    bytes they are written as. *)
From S2P Require Import Prelude Codec Crc LogFormat Durable Io Rng Draw Disk DiskSafety RaftState Raft RaftInv.
From Stdlib.Init Require Import Byte.

(** ** One image of the file *)

Definition slot (i : nat) (image : list byte) : list byte := take SLOT_SIZE (drop (i * SLOT_SIZE) image).

(** Slot [i] is unreadable or holds one of the hard states in [G] that belong there. *)
Definition slot_in (G : list HardState) (i : nat) (image : list byte) : Prop :=
  hard_state_from_slot (slot i image) = None \/
  exists h, h ∈ G /\ hard_state_slot_offset (hs_seq h) = (i * SLOT_SIZE)%nat /\ slot i image = hard_state_to_slot h.
(** The slot of [d] holds [d], or what was written over it since. *)
Definition slot_holds (G : list HardState) (d : HardState) (image : list byte) : Prop :=
  exists i h, (i < 2)%nat /\ h ∈ G /\ hs_seq d <= hs_seq h /\ hard_state_slot_offset (hs_seq d) = (i * SLOT_SIZE)%nat /\
    slot i image = hard_state_to_slot h.

Record image_ok (G : list HardState) (d : HardState) (image : list byte) : Prop := {
  im_whole : length image = 0%nat \/ length image = SLOT_SIZE \/ (STATE_FILE_SIZE <= length image)%nat;
  im_slots : forall i, (i < 2)%nat -> slot_in G i image;
  im_holds : d = hard_state_default \/ slot_holds G d image;
}.

(** A write of the hard state [h] in its slot, or one of the log behind the slots. *)
Definition wal_write (G : list HardState) (d : HardState) (w : WriteKind) : Prop :=
  match w with
  | WData offset bytes =>
      (STATE_FILE_SIZE <= offset)%nat \/
      exists h, h ∈ G /\ hs_seq d <= hs_seq h /\ offset = hard_state_slot_offset (hs_seq h) /\ bytes = hard_state_to_slot h
  | WSetLen len => (STATE_FILE_SIZE <= len)%nat
  end.

Lemma slot_offset_cases seq : exists i, (i < 2)%nat /\ hard_state_slot_offset seq = (i * SLOT_SIZE)%nat.
Proof.
  exists (Z.to_nat (seq mod 2)). split; [|done]. pose proof (Z.mod_pos_bound seq 2). lia.
Qed.

Lemma zero_slot bytes : (forall (p : nat) b, bytes !! p = Some b -> b = x00) -> hard_state_from_slot (take SLOT_SIZE bytes) = None.
Proof.
  intros Hz. destruct (decide (length bytes < SLOT_SIZE)%nat) as [Hl|Hl].
  - unfold hard_state_from_slot. rewrite decide_True; [done|]. rewrite length_take. lia.
  - assert (Hr : take SLOT_SIZE bytes = replicate SLOT_SIZE x00); [|rewrite Hr; vm_compute; reflexivity].
    apply list_eq. intros p. destruct (decide (p < SLOT_SIZE)%nat) as [Hp|Hp].
    + rewrite lookup_take_lt, lookup_replicate_2 by done.
      destruct (lookup_lt_is_Some_2 bytes p ltac:(lia)) as [b Hb]. by rewrite Hb, (Hz p b).
    + rewrite !lookup_ge_None_2; [done|rewrite length_replicate; lia|rewrite length_take; lia].
Qed.

(** Bytes past the end that a write spares are zero or still missing. *)
Lemma spares_past_end image w a b p x :
  spares a b w -> (length image <= a)%nat -> (a <= p < b)%nat -> apply_write image w !! p = Some x -> x = x00.
Proof.
  intros Hs Hl Hp. destruct w as [offset bytes|len]; simpl in *.
  - destruct (Nat.ltb_spec (length image) (offset + length bytes)) as [Hlt|Hge].
    + destruct Hs as [Hs|Hs].
      * intros Hx%lookup_lt_Some. rewrite !length_app, length_take, length_drop, length_resize in Hx. lia.
      * rewrite lookup_app_l by (rewrite length_take, length_resize; lia). rewrite lookup_take_lt by lia.
        rewrite lookup_resize_new by lia. by intros [= <-].
    + intros Hx%lookup_lt_Some. rewrite !length_app, length_take, length_drop in Hx. lia.
  - rewrite lookup_resize_new by lia. by intros [= <-].
Qed.

(** A slot no byte of which is written. *)
Lemma slot_spared i image w :
  (i < 2)%nat -> length image = 0%nat \/ length image = SLOT_SIZE \/ (STATE_FILE_SIZE <= length image)%nat ->
  spares (i * SLOT_SIZE) (i * SLOT_SIZE + SLOT_SIZE) w ->
  slot i (apply_write image w) = slot i image \/ hard_state_from_slot (slot i (apply_write image w)) = None /\
    (length image <= i * SLOT_SIZE)%nat.
Proof.
  intros Hi Hwhole Hs. destruct (decide (i * SLOT_SIZE + SLOT_SIZE <= length image)%nat) as [Hp|Hp].
  - left. unfold slot.
    pose proof (agree_slice (i * SLOT_SIZE) (i * SLOT_SIZE + SLOT_SIZE) image (apply_write image w) Hp) as Ha.
    replace (i * SLOT_SIZE + SLOT_SIZE - i * SLOT_SIZE)%nat with SLOT_SIZE in Ha by lia. apply Ha.
    apply agree_apply; [done|by split].
  - assert (Hle : (length image <= i * SLOT_SIZE)%nat).
    { unfold STATE_FILE_SIZE, SLOT_SIZE in *. destruct i as [|[|]]; lia. }
    right. split; [|done]. unfold slot.
    assert (Hz : forall (p : nat) b, take SLOT_SIZE (drop (i * SLOT_SIZE) (apply_write image w)) !! p = Some b -> b = x00).
    { intros p b. intros Hb. apply lookup_take_Some in Hb as [Hb Hlt]. rewrite lookup_drop in Hb.
      eapply (spares_past_end image w _ _ _ b Hs Hle); [|exact Hb]. lia. }
    apply zero_slot in Hz. by rewrite take_take, Nat.min_id in Hz.
Qed.

(** The slot that is written. *)
Lemma slot_written i image bytes :
  length bytes = SLOT_SIZE -> slot i (apply_write image (WData (i * SLOT_SIZE) bytes)) = bytes.
Proof.
  intros Hb. unfold slot. cbn [apply_write].
  set (buf := if (length image <? i * SLOT_SIZE + length bytes)%nat then resize (i * SLOT_SIZE + length bytes) x00 image else image).
  assert (Hl : (i * SLOT_SIZE <= length buf)%nat).
  { subst buf. destruct (Nat.ltb_spec (length image) (i * SLOT_SIZE + length bytes)); [rewrite length_resize|]; lia. }
  rewrite drop_app_length' by (rewrite length_take; lia). by rewrite take_app_length'.
Qed.

Lemma log_write_spares i w :
  (i < 2)%nat -> match w with WData offset _ => (STATE_FILE_SIZE <= offset)%nat | WSetLen len => (STATE_FILE_SIZE <= len)%nat end ->
  spares (i * SLOT_SIZE) (i * SLOT_SIZE + SLOT_SIZE) w.
Proof. intros Hi. unfold STATE_FILE_SIZE, SLOT_SIZE. destruct w; simpl; destruct i as [|[|]]; lia. Qed.

Lemma whole_apply image G d w :
  wal_write G d w -> length image = 0%nat \/ length image = SLOT_SIZE \/ (STATE_FILE_SIZE <= length image)%nat ->
  length (apply_write image w) = 0%nat \/ length (apply_write image w) = SLOT_SIZE \/
    (STATE_FILE_SIZE <= length (apply_write image w))%nat.
Proof.
  destruct w as [offset bytes|len]; [|simpl; intros Hw _; rewrite length_resize; auto].
  rewrite length_apply_data. intros [Hw|(h & _ & _ & -> & ->)] Hl.
  - right. right. lia.
  - rewrite length_hard_state_to_slot. destruct (slot_offset_cases (hs_seq h)) as (i & Hi & ->).
    unfold STATE_FILE_SIZE, SLOT_SIZE in *. destruct i as [|[|]]; lia.
Qed.

(** A slot after a write: as it was, unreadable where it was missing, or what was written. *)
Lemma slot_after G d image w i :
  (i < 2)%nat -> length image = 0%nat \/ length image = SLOT_SIZE \/ (STATE_FILE_SIZE <= length image)%nat ->
  wal_write G d w ->
  slot i (apply_write image w) = slot i image \/
  (hard_state_from_slot (slot i (apply_write image w)) = None /\ (length image <= i * SLOT_SIZE)%nat) \/
  exists h, h ∈ G /\ hs_seq d <= hs_seq h /\ hard_state_slot_offset (hs_seq h) = (i * SLOT_SIZE)%nat /\
    slot i (apply_write image w) = hard_state_to_slot h.
Proof.
  intros Hi Hl Hw.
  assert (Hor : spares (i * SLOT_SIZE) (i * SLOT_SIZE + SLOT_SIZE) w \/
    exists h, h ∈ G /\ hs_seq d <= hs_seq h /\ hard_state_slot_offset (hs_seq h) = (i * SLOT_SIZE)%nat /\
      w = WData (i * SLOT_SIZE) (hard_state_to_slot h)).
  { destruct w as [offset bytes|len]; [|left; by apply log_write_spares].
    destruct Hw as [Hw|(h & Hh & Hseq & -> & ->)]; [left; by apply log_write_spares|].
    destruct (slot_offset_cases (hs_seq h)) as (j & Hj & Ej). destruct (decide (i = j)) as [<-|Hne].
    - right. exists h. by rewrite Ej.
    - left. cbn [spares]. rewrite Ej, length_hard_state_to_slot. unfold SLOT_SIZE. destruct i as [|[|]], j as [|[|]]; lia. }
  destruct Hor as [Hs|(h & Hh & Hseq & Ho & ->)].
  - destruct (slot_spared i image w Hi Hl Hs) as [?|?]; auto.
  - right. right. exists h. split_and?; try done. apply slot_written, length_hard_state_to_slot.
Qed.

Lemma hard_state_slot_long h : (0 < length (hard_state_to_slot h))%nat.
Proof. rewrite length_hard_state_to_slot. unfold SLOT_SIZE. lia. Qed.

Lemma slot_missing i image : (length image <= i * SLOT_SIZE)%nat -> slot i image = [].
Proof. intros Hl. unfold slot. by rewrite drop_ge. Qed.

(** Any of the node's writes keeps an image in order. *)
Lemma image_apply G d image w : image_ok G d image -> wal_write G d w -> image_ok G d (apply_write image w).
Proof.
  intros [Hl Hs Hh] Hw. split; [by eapply whole_apply| |].
  - intros i Hi. destruct (slot_after G d image w i Hi Hl Hw) as [E|[[E _]|(h & ? & _ & ? & ?)]].
    + unfold slot_in. rewrite E. by apply Hs.
    + by left.
    + right. by exists h.
  - destruct Hh as [Hd|(i & h & Hi & Hin & Hseq & Ho & E)]; [by left|right].
    destruct (slot_after G d image w i Hi Hl Hw) as [E'|[[_ Hlen]|(h' & Hin' & Hseq' & _ & E')]].
    + exists i, h. by rewrite E'.
    + exfalso. rewrite slot_missing in E by done. pose proof (hard_state_slot_long h). rewrite <-E in *. simpl in *. lia.
    + by exists i, h'.
Qed.

(** Writing [h] makes it the one its slot holds. *)
Lemma image_written G d image h :
  image_ok G d image -> h ∈ G -> hs_seq d <= hs_seq h ->
  image_ok G h (apply_write image (WData (hard_state_slot_offset (hs_seq h)) (hard_state_to_slot h))).
Proof.
  intros Hi Hin Hseq. assert (Hw : wal_write G d (WData (hard_state_slot_offset (hs_seq h)) (hard_state_to_slot h)))
    by (right; by exists h).
  destruct (image_apply _ _ _ _ Hi Hw) as [Hl Hs _]. split; [done|done|]. right.
  destruct (slot_offset_cases (hs_seq h)) as (j & Hj & Ej). exists j, h. split_and?; try done.
  rewrite Ej. apply slot_written, length_hard_state_to_slot.
Qed.

Lemma image_fold G d ws image :
  image_ok G d image -> Forall (wal_write G d) ws -> image_ok G d (fold_left apply_write ws image).
Proof. intros Hi Hw. revert image Hi. induction Hw as [|w ws Hw _ IH]; intros image Hi; [done|]. by apply IH, image_apply. Qed.

Lemma image_sub G G' d image : (forall h, h ∈ G -> h ∈ G') -> image_ok G d image -> image_ok G' d image.
Proof.
  intros Hs [Hl Hi Hh]. split; [done| |].
  - intros i Hlt. destruct (Hi i Hlt) as [?|(h & ? & ? & ?)]; [by left|right]. exists h. auto.
  - destruct Hh as [?|(i & h & ? & ? & ?)]; [by left|right]. exists i, h. auto.
Qed.
Lemma wal_write_sub G G' d w : (forall h, h ∈ G -> h ∈ G') -> wal_write G d w -> wal_write G' d w.
Proof. intros Hs. destruct w; [|done]. intros [?|(h & ? & ? & ? & ?)]; [by left|right]. exists h. auto. Qed.

Lemma image_empty d : d = hard_state_default -> image_ok [d] d [].
Proof. intros ->. split; [by left|intros [|[|]] Hi; [by left..|lia]|by left]. Qed.

(** ** What is read back *)

Lemma recover_slot_of image best i :
  recover_slot image best i =
  match hard_state_from_slot (slot i image) with
  | Some h => if hs_seq best <=? hs_seq h then h else best
  | None => best
  end.
Proof.
  unfold recover_slot, slot. case_decide as Hl; [|done].
  unfold hard_state_from_slot at 1. rewrite decide_True; [done|]. rewrite length_take, length_drop. lia.
Qed.

(** What slot [i] reads as. *)
Definition slot_reads (G : list HardState) (i : nat) (image : list byte) (o : option HardState) : Prop :=
  match o with
  | Some h => h ∈ G /\ hard_state_slot_offset (hs_seq h) = (i * SLOT_SIZE)%nat /\ slot i image = hard_state_to_slot h
  | None => hard_state_from_slot (slot i image) = None
  end.

(** The newest of what the slots read as. *)
Definition newest (o0 o1 : option HardState) : HardState :=
  foldl (fun best o => match o with Some h => if hs_seq best <=? hs_seq h then h else best | None => best end)
    hard_state_default [o0; o1].

Lemma recover_newest image :
  recover_hard_state image = newest (hard_state_from_slot (slot 0 image)) (hard_state_from_slot (slot 1 image)).
Proof. unfold recover_hard_state. simpl. by rewrite !recover_slot_of. Qed.

Lemma slot_read G i image :
  Forall hard_state_ok G -> slot_in G i image ->
  exists o, hard_state_from_slot (slot i image) = o /\ slot_reads G i image o.
Proof.
  intros Hok [E|(h & Hh & Ho & E)]; [by exists None|]. exists (Some h). split; [|done].
  rewrite E. apply hard_state_slot_decodes. rewrite Forall_forall in Hok. auto.
Qed.

Lemma newest_spec o0 o1 :
  (forall h, o0 = Some h \/ o1 = Some h -> 0 <= hs_seq h) ->
  let r := newest o0 o1 in
  (r = hard_state_default /\ o0 = None /\ o1 = None \/ o0 = Some r \/ o1 = Some r) /\
  forall h, o0 = Some h \/ o1 = Some h -> hs_seq h <= hs_seq r.
Proof.
  intros Hpos. unfold newest. cbn [foldl].
  assert (Hd : forall h, o0 = Some h \/ o1 = Some h -> (hs_seq hard_state_default <=? hs_seq h) = true)
    by (intros h Hh; apply Z.leb_le; by apply Hpos).
  destruct o0 as [h0|]; [rewrite (Hd h0) by auto|]; (destruct o1 as [h1|]; [try rewrite (Hd h1) by auto|]).
  - destruct (Z.leb_spec (hs_seq h0) (hs_seq h1)); (split; [auto|]); intros h [[= <-]|[= <-]]; lia.
  - split; [auto|]. by intros h [[= <-]|?].
  - split; [auto|]. by intros h [?|[= <-]].
  - split; [auto|]. by intros h [?|?].
Qed.

(** The hard state read back was written, is no older than the one held, and every
    other one in the file is older: it is the one held from now on. *)
Lemma recover_image G d image :
  image_ok G d image -> Forall hard_state_ok G -> d ∈ G -> hard_state_default ∈ G ->
  let r := recover_hard_state image in
  r ∈ G /\ hs_seq d <= hs_seq r /\ image_ok (filter (fun g => hs_seq g <= hs_seq r) G) r image.
Proof.
  intros [Hl Hs Hh] Hok Hd H0.
  destruct (slot_read G 0 image Hok (Hs 0%nat ltac:(lia))) as (o0 & E0 & R0).
  destruct (slot_read G 1 image Hok (Hs 1%nat ltac:(lia))) as (o1 & E1 & R1).
  assert (Hpos : forall h, h ∈ G -> 0 <= hs_seq h).
  { intros h Hin. rewrite Forall_forall in Hok. by apply Hok. }
  assert (Hr : recover_hard_state image = newest o0 o1) by by rewrite recover_newest, E0, E1.
  destruct (newest_spec o0 o1) as [Hbest Hmax].
  { intros h [ -> | -> ]; apply Hpos; [apply R0|apply R1]. }
  rewrite <-Hr in Hbest, Hmax. set (r := recover_hard_state image) in *. cbv zeta.
  assert (HrG : r ∈ G).
  { destruct Hbest as [[-> _]|[ -> | -> ]]; [done|by apply R0|by apply R1]. }
  split; [done|]. split.
  - destruct Hh as [->|(i & h & Hi & Hin & Hseq & Ho & E)]; [by apply Hpos|].
    assert (Hio : i = 0%nat \/ i = 1%nat) by lia.
    assert (Eh : hard_state_from_slot (slot i image) = Some h).
    { rewrite E. apply hard_state_slot_decodes. rewrite Forall_forall in Hok. auto. }
    etrans; [exact Hseq|]. apply Hmax. destruct Hio as [ -> | -> ]; [left|right]; congruence.
  - split; [done| |].
    + intros i Hi. assert (Hio : i = 0%nat \/ i = 1%nat) by lia.
      destruct Hio as [ -> | -> ]; [destruct o0 as [h|]|destruct o1 as [h|]]; try (by left); right; exists h;
        [destruct R0 as (? & ? & ?)|destruct R1 as (? & ? & ?)]; (split; [|done]); apply list_elem_of_filter; (split; [apply Hmax; auto|done]).
    + assert (Hin : r ∈ filter (fun g => hs_seq g <= hs_seq r) G) by by apply list_elem_of_filter.
      destruct Hbest as [[-> _]|[ -> | -> ]]; [by left|right; exists 0%nat, r|right; exists 1%nat, r];
        [destruct R0 as (? & ? & ?)|destruct R1 as (? & ? & ?)]; split_and?; (done || lia).
Qed.

(** ** The file between crashes *)

(** [d] is held by what is synced, [l] by what is read. *)
Record wal_ok (G : list HardState) (d l : HardState) (f : SimFile) : Prop := {
  wl_file : file_ok f;
  wl_durable : image_ok G d (sf_durable f);
  wl_pending : Forall (wal_write G d) (sf_pending f);
  wl_cache : image_ok G l (sf_cache f);
  wl_d : d ∈ G;
  wl_l : l ∈ G;
  wl_order : hs_seq d <= hs_seq l;
}.

Lemma wal_ok_new : wal_ok [hard_state_default] hard_state_default hard_state_default simfile_default.
Proof.
  split; [done|by apply image_empty|done|by apply image_empty| | |done]; by apply list_elem_of_singleton.
Qed.

(** A write of the log or a change of length behind the slots. *)
Lemma wal_ok_log G d l f w :
  match w with WData offset _ => (STATE_FILE_SIZE <= offset)%nat | WSetLen len => (STATE_FILE_SIZE <= len)%nat end ->
  wal_ok G d l f -> wal_ok G d l (mkSimFile (sf_durable f) (apply_write (sf_cache f) w) (sf_pending f ++ [w])).
Proof.
  intros Hw []. assert (Hww : forall x, wal_write G x w) by (intros x; destruct w; simpl; auto).
  split; simpl; try done.
  - unfold file_ok in *. simpl. by rewrite fold_left_app, wl_file0.
  - apply Forall_app. split; [done|by apply Forall_singleton].
  - by apply image_apply.
Qed.

(** The next hard state. *)
Lemma wal_ok_state G d l f h :
  hs_seq l <= hs_seq h -> wal_ok G d l f ->
  let w := WData (hard_state_slot_offset (hs_seq h)) (hard_state_to_slot h) in
  wal_ok (h :: G) d h (mkSimFile (sf_durable f) (apply_write (sf_cache f) w) (sf_pending f ++ [w])).
Proof.
  intros Hseq [] w. assert (Hsub : forall g, g ∈ G -> g ∈ h :: G) by (intros; by right).
  split; simpl; [|by eapply image_sub| | |by right|by left|lia].
  - unfold file_ok in *. simpl. by rewrite fold_left_app, wl_file0.
  - apply Forall_app. split.
    + eapply Forall_impl; [exact wl_pending0|]. intros x. by apply wal_write_sub.
    + apply Forall_singleton. right. exists h. split_and?; [left|lia|done|done].
  - eapply image_written; [by eapply image_sub|left|done].
Qed.

Lemma wal_ok_sync G d l f :
  wal_ok G d l f -> wal_ok G l l (mkSimFile (fold_left apply_write (sf_pending f) (sf_durable f)) (sf_cache f) []).
Proof. intros []. unfold file_ok in *. rewrite <-wl_file0. by split. Qed.

(** ** A crash *)

Lemma draws_resolve_image cfg G d w fs :
  dc_torn_write_ppm cfg = 0 -> wal_write G d w -> image_ok G d fs.1 ->
  draws (resolve_write cfg w fs) (fun fs' => image_ok G d fs'.1).
Proof.
  intros Ht Hw Hi. destruct fs as [cur st]. simpl in Hi. unfold resolve_write. draws_step.
  draws_step.
  { eapply draws_bind; [apply draws_count|]. intros st' _. by draws_step. }
  destruct w as [offset bytes|len]; [|draws_step; by apply image_apply].
  rewrite Ht. draws_step. draws_step; [|draws_step; by apply image_apply].
  match goal with H : 0 = 0 -> _ |- _ => specialize (H eq_refl) end. congruence.
Qed.

Lemma draws_crash_wal cfg G d l f st :
  dc_torn_write_ppm cfg = 0 -> wal_ok G d l f ->
  draws (crash_file cfg f st) (fun fs => image_ok G d (sf_durable fs.1) /\
    sf_cache fs.1 = sf_durable fs.1 /\ sf_pending fs.1 = []).
Proof.
  intros Ht []. unfold crash_file.
  eapply (draws_bind _ _ (fun ws => ws ≡ₚ sf_pending f)).
  { destruct (dc_reorder_unsynced cfg); [apply draws_shuffle; auto|by draws_step]. }
  intros ws Hws. rewrite <-Hws in wl_pending0. rewrite Forall_forall in wl_pending0.
  eapply draws_bind.
  { apply (draws_fold _ _ (fun fs => image_ok G d fs.1)); [done|].
    intros w fs Hin Hi. apply draws_resolve_image; auto. }
  intros [dur st'] Hi. by draws_step.
Qed.

(** The file after a crash, read back: the hard state recovered is one that was
    written, and no older than the last one synced. *)
Lemma wal_ok_recovered G d f :
  image_ok G d (sf_durable f) -> sf_cache f = sf_durable f -> sf_pending f = [] ->
  Forall hard_state_ok G -> d ∈ G -> hard_state_default ∈ G ->
  let r := recover_hard_state (sf_cache f) in
  r ∈ G /\ hs_seq d <= hs_seq r /\ wal_ok (filter (fun g => hs_seq g <= hs_seq r) G) r r f.
Proof.
  intros Hi Hc Hp Hok Hd H0. destruct (recover_image G d _ Hi Hok Hd H0) as (Hr & Hle & Hi').
  rewrite Hc. cbv zeta. split; [done|]. split; [done|].
  split; rewrite ?Hp, ?Hc; try done; try (by apply list_elem_of_filter).
  unfold file_ok. by rewrite Hp, Hc.
Qed.

(** ** A torn write *)

Definition log_write (w : WriteKind) : Prop :=
  match w with WData offset _ => (STATE_FILE_SIZE <= offset)%nat | WSetLen len => (STATE_FILE_SIZE <= len)%nat end.
Definition state_write (h : HardState) : WriteKind :=
  WData (hard_state_slot_offset (hs_seq h)) (hard_state_to_slot h).

(** The slot of [h] over [old], [k] bytes of it written. *)
Definition half_written (h : HardState) (old : list byte) (k : nat) : list byte :=
  take k (hard_state_to_slot h) ++ drop k old.
(** The checksum tells every torn slot: none reads as a third hard state. *)
Definition tears_detected (h : HardState) (old : list byte) : Prop :=
  Forall (fun k => match hard_state_from_slot (half_written h old k) with
                   | Some g => g = h \/ hard_state_from_slot old = Some g
                   | None => True
                   end) (seq 0 (S SLOT_SIZE)).
#[export] Instance tears_detected_dec h old : Decision (tears_detected h old).
Proof. apply Forall_dec. intros k. case_match; apply _. Defined.

(** A write at the start of a slot leaves the rest of it. *)
Lemma slot_overwritten j image bytes :
  (j < 2)%nat -> (STATE_FILE_SIZE <= length image)%nat -> (length bytes <= SLOT_SIZE)%nat ->
  slot j (apply_write image (WData (j * SLOT_SIZE) bytes)) = bytes ++ drop (length bytes) (slot j image).
Proof.
  unfold STATE_FILE_SIZE. intros Hj Hi Hb. assert (j * SLOT_SIZE + SLOT_SIZE <= length image)%nat by (unfold SLOT_SIZE in *; lia).
  unfold slot. cbn [apply_write]. destruct (Nat.ltb_spec (length image) (j * SLOT_SIZE + length bytes)); [lia|].
  rewrite drop_app_length' by (rewrite length_take; lia).
  rewrite take_app_ge by done. f_equal. rewrite <- drop_drop.
  by rewrite <- skipn_firstn_comm.
Qed.

Section Torn.
Context (old : list byte) (d h : HardState) (i j : nat).
Context (Hi : (i < 2)%nat) (Hj : (j < 2)%nat) (Hij : i <> j) (Hold : length old = SLOT_SIZE).

(** [d] is in slot [i], part of [h] in slot [j]. *)
Record torn_image (image : list byte) : Prop := {
  ti_length : (STATE_FILE_SIZE <= length image)%nat;
  ti_held : slot i image = hard_state_to_slot d;
  ti_torn : exists k, (k <= SLOT_SIZE)%nat /\ slot j image = half_written h old k;
}.

Lemma spared_slot s image w :
  (s < 2)%nat -> (STATE_FILE_SIZE <= length image)%nat -> spares (s * SLOT_SIZE) (s * SLOT_SIZE + SLOT_SIZE) w ->
  slot s (apply_write image w) = slot s image.
Proof.
  intros Hs Hl Hsp. destruct (slot_spared s image w) as [?|[_ Hlt]]; [done|auto|done..|].
  unfold STATE_FILE_SIZE, SLOT_SIZE in *. lia.
Qed.

Lemma torn_log image w : log_write w -> torn_image image -> torn_image (apply_write image w).
Proof.
  intros Hw [Hl Hh (k & Hk & Ht)]. split.
  - destruct w as [offset bytes|len]; [rewrite length_apply_data|simpl in *; rewrite length_resize]; lia.
  - rewrite spared_slot by (done || by apply log_write_spares). done.
  - exists k. split; [done|]. rewrite spared_slot by (done || by apply log_write_spares). done.
Qed.

(** Written again, a slot holds the longer of the two parts. *)
Lemma half_written_again k m :
  (k <= SLOT_SIZE)%nat -> (m <= SLOT_SIZE)%nat ->
  take m (hard_state_to_slot h) ++ drop m (half_written h old k) = half_written h old (k `max` m).
Proof.
  pose proof (length_hard_state_to_slot h) as Hn. intros Hk Hm. unfold half_written.
  destruct (Nat.le_gt_cases m k).
  - rewrite Nat.max_l by done. rewrite drop_app_le by (rewrite length_take; lia). rewrite app_assoc. f_equal.
    rewrite <-(take_drop m (take k _)) at 2. by rewrite take_take, Nat.min_l.
  - rewrite Nat.max_r by lia. f_equal. rewrite drop_app_ge by (rewrite length_take; lia).
    rewrite length_take, Nat.min_l, drop_drop by lia. f_equal. lia.
Qed.

Lemma torn_state image m : (m <= SLOT_SIZE)%nat -> torn_image image ->
  torn_image (apply_write image (WData (j * SLOT_SIZE) (take m (hard_state_to_slot h)))).
Proof.
  pose proof (length_hard_state_to_slot h) as Hn. intros Hm [Hl Hh (k & Hk & Ht)].
  assert (Hlen : length (take m (hard_state_to_slot h)) = m) by (rewrite length_take; lia). split.
  - rewrite length_apply_data. lia.
  - rewrite spared_slot; [done..|]. simpl. rewrite Hlen. unfold SLOT_SIZE in *. lia.
  - exists (k `max` m)%nat. split; [lia|]. rewrite slot_overwritten by (done || lia).
    rewrite Hlen, Ht. by apply half_written_again.
Qed.

Lemma torn_resolve cfg w fs :
  log_write w \/ w = WData (j * SLOT_SIZE) (hard_state_to_slot h) -> torn_image fs.1 ->
  draws (resolve_write cfg w fs) (fun fs' => torn_image fs'.1).
Proof.
  intros Hw Hi'. destruct fs as [cur st]. simpl in Hi'. unfold resolve_write. draws_step. draws_step.
  { eapply draws_bind; [apply draws_count|]. intros st' _. by draws_step. }
  destruct w as [offset bytes|len]; [|draws_step; apply torn_log; [by destruct Hw|done]].
  assert (Hpart : forall m, (m <= length bytes)%nat -> torn_image (apply_write cur (WData offset (take m bytes)))).
  { intros m Hm. destruct Hw as [Hw|[= -> ->]]; [by apply torn_log|].
    rewrite length_hard_state_to_slot in Hm. by apply torn_state. }
  draws_step. draws_step.
  2: { draws_step. simpl. rewrite <-(take_ge bytes (length bytes)) by done. by apply Hpart. }
  eapply draws_bind; [apply draws_tear_length|]. intros keep Hk. draws_step.
  - eapply draws_bind; [apply draws_count|]. intros st' _. draws_step. draws_step.
    case_match; simplify_eq. simpl. by apply Hpart.
  - eapply draws_bind; [apply draws_count|]. intros st' _. by draws_step.
Qed.

Lemma torn_crash cfg f st :
  torn_image (sf_durable f) ->
  Forall (fun w => log_write w \/ w = WData (j * SLOT_SIZE) (hard_state_to_slot h)) (sf_pending f) ->
  draws (crash_file cfg f st) (fun fs => torn_image (sf_cache fs.1)).
Proof.
  intros Hd Hp. unfold crash_file. eapply (draws_bind _ _ (fun ws => ws ≡ₚ sf_pending f)).
  { destruct (dc_reorder_unsynced cfg); [apply draws_shuffle; auto|by draws_step]. }
  intros ws Hws. rewrite <-Hws in Hp. rewrite Forall_forall in Hp. eapply draws_bind.
  { apply (draws_fold _ _ (fun fs => torn_image fs.1)); [done|]. intros w fs Hin. apply torn_resolve; auto. }
  intros [dur st'] Hdur. by draws_step.
Qed.

(** What such an image is read back as. *)
Lemma torn_recovers image image' :
  hard_state_ok d -> hard_state_ok h -> hs_seq h = hs_seq d + 1 -> tears_detected h old ->
  slot i image = hard_state_to_slot d -> slot j image = old -> recover_hard_state image = d ->
  torn_image image' -> recover_hard_state image' = d \/ recover_hard_state image' = h.
Proof.
  intros Hd Hh Hseq Hdet Ei Ej Hr [_ Ei' (k & Hk & Ej')].
  assert (Hok : 0 <= hs_seq d) by apply Hd.
  unfold tears_detected in Hdet. rewrite Forall_forall in Hdet. specialize (Hdet k).
  rewrite <-Ej' in Hdet. rewrite <-Ej in Hdet.
  assert (Hin : k ∈ seq 0 (S SLOT_SIZE)) by (apply elem_of_seq; lia). specialize (Hdet Hin).
  assert (Hcases : i = 0%nat /\ j = 1%nat \/ i = 1%nat /\ j = 0%nat) by lia.
  rewrite recover_newest in Hr |- *.
  destruct Hcases as [[Ei0 Ej1]|[Ei0 Ej1]]; rewrite Ei0, Ej1 in *; rewrite Ei, Ei', hard_state_slot_decodes in * by done;
    (destruct (hard_state_from_slot (slot _ image')) as [g|]; [destruct Hdet as [ -> |Eg]|]).
  all: try (left; congruence).
  all: unfold newest; cbn [foldl hs_seq hard_state_default].
  all: repeat match goal with |- context [?a <=? ?b] => destruct (Z.leb_spec a b); [|] end; auto; lia.
Qed.
End Torn.

(** C10. One hard state in flight cannot be lost together with the durable one:
    when a file holds a hard state [d] in its slot and recovers as [d], and the
    writes no sync has covered are the next state [h] and writes of the log
    behind the slots, then whatever a crash does to those writes, losing,
    tearing and reordering them, the node reads back [d] or [h].  The checksum
    is taken at its word: no torn slot passes it as a third state. *)
Theorem one_unsynced_state_survives_crash disk disk' r r' file f d h :
  rng_ok r -> disk_crash disk r = Some (disk', r') -> dk_files disk !! file = Some f ->
  (STATE_FILE_SIZE <= length (sf_durable f))%nat ->
  take SLOT_SIZE (drop (hard_state_slot_offset (hs_seq d)) (sf_durable f)) = hard_state_to_slot d ->
  recover_hard_state (sf_durable f) = d ->
  hard_state_ok d -> hard_state_ok h -> hs_seq h = hs_seq d + 1 ->
  Forall (fun w => log_write w \/ w = state_write h) (sf_pending f) ->
  tears_detected h (take SLOT_SIZE (drop (hard_state_slot_offset (hs_seq h)) (sf_durable f))) ->
  recover_hard_state (disk_read_all disk' file) = d \/ recover_hard_state (disk_read_all disk' file) = h.
Proof.
  intros Hr Hcrash Hf Hl Hd Hrec Hokd Hokh Hseq Hp Hdet.
  set (i := Z.to_nat (hs_seq d mod 2)). set (j := Z.to_nat (hs_seq h mod 2)).
  assert (Hm : 0 <= hs_seq d mod 2 < 2 /\ 0 <= hs_seq h mod 2 < 2) by (split; by apply Z.mod_pos_bound).
  assert (Hij : i <> j).
  { subst i j. rewrite Hseq, Z.add_mod by done. destruct Hm as [Hm _].
    assert (hs_seq d mod 2 = 0 \/ hs_seq d mod 2 = 1) as [-> | ->] by lia; by vm_compute. }
  assert (Hi : (i < 2)%nat) by lia. assert (Hj : (j < 2)%nat) by lia.
  change (slot i (sf_durable f) = hard_state_to_slot d) in Hd.
  set (old := slot j (sf_durable f)). change (tears_detected h old) in Hdet.
  assert (Hold : length old = SLOT_SIZE).
  { unfold old, slot. rewrite length_take, length_drop. unfold STATE_FILE_SIZE, SLOT_SIZE in *. lia. }
  assert (Ht : torn_image old d h i j (sf_durable f)).
  { split; [done|done|]. exists 0%nat. split; [lia|done]. }
  destruct (draws_crash_at disk file f (fun f' => torn_image old d h i j (sf_cache f'))) with (r := r) (a := disk') (r' := r')
    as [(f' & Hf' & Ht') _]; [done|intros st; by apply torn_crash|done..|].
  unfold disk_read_all. rewrite Hf'. simpl.
  by apply (torn_recovers old d h i j Hi Hj Hij Hold (sf_durable f)).
Qed.

(** A vote made durable, then the next one and a record of the log in flight on
    the hostile disk. *)
Definition synced_vote : HardState := mkHardState 1 (Some 1) 1.
Definition next_vote : HardState := mkHardState 2 (Some 2) 2.
Definition torn_demo : option (Disk * Rng) :=
  fold_draw disk_handle
    [DeWriteAt 0 64 (hard_state_to_slot synced_vote); DeSync 0; DeWriteAt 0 0 (hard_state_to_slot next_vote);
     DeWriteAt 0 128 [x01; x02; x03]] (disk_new disk_config_hostile) (rng_new 6).
Definition torn_demo_end : Disk * Rng := default (disk_new disk_config_default, rng_new 6) torn_demo.

Lemma torn_demo_rng : rng_ok torn_demo_end.2.
Proof.
  assert (E : torn_demo = Some torn_demo_end) by (vm_compute; reflexivity).
  rewrite (surjective_pairing torn_demo_end) in E. eapply (draws_fold disk_handle _ disk_ok _) in E as [_ ?]; [done| | |apply rng_new_ok].
  - apply map_Forall_empty.
  - intros ev d' _. apply handle_ok.
Qed.

Lemma one_unsynced_state_survives_crash_witness :
  exists disk' r', disk_crash torn_demo_end.1 torn_demo_end.2 = Some (disk', r') /\
    length (sf_pending (disk_file torn_demo_end.1 0)) = 2%nat /\
    (recover_hard_state (disk_read_all disk' 0) = synced_vote \/ recover_hard_state (disk_read_all disk' 0) = next_vote).
Proof.
  destruct (disk_crash torn_demo_end.1 torn_demo_end.2) as [[disk' r']|] eqn:E; [|vm_compute in E; discriminate E].
  exists disk', r'. split; [reflexivity|]. split; [vm_compute; reflexivity|].
  apply (one_unsynced_state_survives_crash torn_demo_end.1 disk' torn_demo_end.2 r' 0 (disk_file torn_demo_end.1 0)
    synced_vote next_vote torn_demo_rng E).
  - vm_compute. reflexivity.
  - apply (bool_decide_unpack _). vm_compute. exact I.
  - vm_compute. reflexivity.
  - vm_compute. reflexivity.
  - repeat split; vm_compute; discriminate.
  - repeat split; vm_compute; discriminate.
  - vm_compute. reflexivity.
  - assert (Hp : sf_pending (disk_file torn_demo_end.1 0) = [state_write next_vote; WData 128 [x01; x02; x03]])
      by (vm_compute; reflexivity).
    rewrite Hp. constructor; [right; reflexivity|]. constructor; [left; apply le_n|constructor].
  - apply (bool_decide_unpack _). vm_compute. exact I.
Defined.
