(* ===== verification/Journal.v ===== *)
(** * Journal: a node's hard states, its persister and its simulated disk

    What ties a running node to the disk it was lent: every hard state in a batch
    is in the page cache or waits for a write that failed, and is synced once the
    batch's sync is on its way back as a success; the durable hard state the node
    claims is held by the synced image.  Every handler of the node keeps this,
    on a disk that does not tear writes.  The handlers are walked like in [IoRules]:
    what holds of the primitives and of the persister's few operations and
    survives sequencing holds of them. *)
From Stdlib Require Import String.
From S2P Require Import Prelude Codec Crc LogFormat RaftLog Recovery Durable Messages Config Io Rng Draw.
From S2P Require Import Disk DiskSafety Faults Scheduler Net Trace World WorldRules Persister RaftState Raft RaftInv Slots.
From Stdlib.Init Require Import Byte.
Local Open Scope Z_scope.

(** ** Requests to the disk *)

(** The event tells node [v] that operation [op] succeeded. *)
Definition succeeded (v : NodeId) (op : OpId) (e : Event) : Prop := e = SeStorage v op IoOk.

(** Operations are numbered one after the other. *)
Definition numbers (d : Disk) (res : Issued * Disk) : Prop :=
  is_op res.1 = dk_next_op d /\ dk_next_op res.2 = dk_next_op d + 1 /\ dk_cfg res.2 = dk_cfg d.

Lemma draws_next_op d :
  draws (disk_next d) (fun od => od.1 = dk_next_op d /\ dk_next_op od.2 = dk_next_op d + 1 /\ dk_cfg od.2 = dk_cfg d).
Proof. unfold disk_next. draws_step. by draws_step. Qed.
Lemma draws_count_op (f : DiskStats -> Z) `{!Setter f} n d :
  draws (disk_count f n d) (fun d' => dk_next_op d' = dk_next_op d /\ dk_cfg d' = dk_cfg d).
Proof. eapply draws_mono; [apply draws_disk_count|]. by intros d' [st ->]. Qed.

Lemma draws_issue_op kind file d : draws (disk_issue kind file d) (numbers d).
Proof.
  unfold disk_issue, numbers. eapply draws_bind; [apply draws_next_op|]. intros [op d1] (E1 & E2 & E3). simpl in E1, E2, E3.
  eapply draws_bind; [apply draws_disk_latency|]. intros delay _. draws_step. draws_step.
  - eapply draws_bind; [apply draws_count_op|]. intros d2 [F2 C2]. draws_step. simpl. split_and?; congruence.
  - eapply draws_bind; [apply draws_count_op|]. intros d2 [F2 C2].
    eapply (draws_bind _ _ (fun d3 => dk_next_op d3 = dk_next_op d2 /\ dk_cfg d3 = dk_cfg d2)).
    { destruct kind; [apply draws_count_op|by draws_step]. }
    intros d3 [F3 C3]. draws_step. simpl. split_and?; congruence.
Qed.
Lemma draws_sync_op file d : draws (disk_sync file d) (numbers d).
Proof.
  unfold disk_sync, numbers. eapply draws_bind; [apply draws_next_op|]. intros [op d1] (E1 & E2 & E3). simpl in E1, E2, E3.
  eapply draws_bind; [apply draws_disk_latency|]. intros delay _. draws_step. draws_step;
    (eapply draws_bind; [apply draws_count_op|]; intros d2 [F2 C2]; draws_step; simpl; split_and?; congruence).
Qed.

Lemma disk_file_insert d id f :
  forall i, disk_file (d ⟨ dk_files := <[id := f]> (dk_files d) ⟩) i = if decide (i = id) then f else disk_file d i.
Proof.
  intros i. unfold disk_file. simpl. case_decide as Hi; [subst; by rewrite lookup_insert_eq|by rewrite lookup_insert_ne].
Qed.

(** What an operation that succeeds makes of the file it names. *)
Definition file_after (req : disk_event) (f : SimFile) : SimFile :=
  match req with
  | DeWriteAt _ offset bytes => mkSimFile (sf_durable f) (apply_write (sf_cache f) (WData offset bytes)) (sf_pending f ++ [WData offset bytes])
  | DeSetLen _ len => mkSimFile (sf_durable f) (apply_write (sf_cache f) (WSetLen len)) (sf_pending f ++ [WSetLen len])
  | DeSync _ => mkSimFile (fold_left apply_write (sf_pending f) (sf_durable f)) (sf_cache f) []
  | _ => f
  end.
Definition disk_do (req : disk_event) : option (FileId * (Disk -> Draw (Issued * Disk))) :=
  match req with
  | DeWriteAt file offset bytes => Some (file, disk_write_at file offset bytes)
  | DeSetLen file len => Some (file, disk_set_len file len)
  | DeSync file => Some (file, disk_sync file)
  | _ => None
  end.

(** An operation of the node on its disk: it gets the next number, its completion is
    queued, and if it succeeds the file changes. *)
Record requested (v : NodeId) (file : FileId) (req : disk_event) (op : OpId) (w w' : World) : Prop := {
  rq_rng : rng_ok (wd_rng w');
  rq_disk : exists d d' res, wd_disks w !! node_idx v = Some d /\ wd_disks w' !! node_idx v = Some d' /\
    op = dk_next_op d /\ dk_next_op d' = dk_next_op d + 1 /\ dk_cfg d' = dk_cfg d /\
    (forall i, disk_file d' i =
       if decide (io_is_ok res = true /\ i = file) then file_after req (disk_file d file) else disk_file d i) /\
    exists e, sc_queue (wd_sched w') = sc_queue (wd_sched w) ++ [e] /\ se_event e = SeStorage v op res;
}.

Lemma disk_do_spec req file f d :
  disk_do req = Some (file, f) ->
  draws (f d) (fun res => numbers d res /\ forall i, disk_file res.2 i =
    if decide (io_is_ok (is_result res.1) = true /\ i = file) then file_after req (disk_file d file) else disk_file d i).
Proof.
  assert (Hfile : forall d' b g, dk_files d' = (if (b : bool) then <[file := g]> (dk_files d) else dk_files d) ->
    forall i, disk_file d' i = if decide (b = true /\ i = file) then g else disk_file d i).
  { intros d' b g E i. unfold disk_file. rewrite E. destruct b.
    - destruct (decide (i = file)) as [->|Hi]; [rewrite decide_True by done; by rewrite lookup_insert_eq|].
      rewrite decide_False by tauto. by rewrite lookup_insert_ne.
    - rewrite decide_False; [done|]. by intros [? _]. }
  destruct req as [g offset bytes|?|g len|g|]; try done; simpl; intros [= -> <-].
  - eapply draws_mono; [apply draws_and; [apply draws_issue_op|apply draws_issue]|].
    intros [iss d'] [Hn [_ E]]. split; [done|]. simpl in E. by apply Hfile.
  - eapply draws_mono; [apply draws_and; [apply draws_issue_op|apply draws_issue]|].
    intros [iss d'] [Hn [_ E]]. split; [done|]. simpl in E. by apply Hfile.
  - eapply draws_mono; [apply draws_and; [apply draws_sync_op|apply draws_sync]|].
    intros [iss d'] [Hn [_ E]]. split; [done|]. simpl in E. by apply Hfile.
Qed.

Lemma disk_request_requested v req file f w op w' :
  rng_ok (wd_rng w) -> disk_do req = Some (file, f) -> disk_request v f w = Some (op, w') -> requested v file req op w w'.
Proof.
  intros Hr Hf. unfold disk_request. destruct (wd_disks w !! node_idx v) as [d|] eqn:Ed; [|done]. simpl.
  destruct (f d (wd_rng w)) as [[[iss d'] r]|] eqn:E; [|done].
  apply (disk_do_spec req file f d Hf) in E as [[(E1 & E2 & E3) Hfiles] Hr']; [|done]. simpl in *.
  unfold complete_storage. simpl. destruct (sched_after _ _ _) as [[i s]|] eqn:Es; [|done]. simpl.
  intros [= <- <-]. apply sched_after_queued in Es as (e & (_ & _ & Hq) & _ & He). split; [done|].
  exists d, d', (is_result iss). simpl. rewrite list_lookup_insert_eq by (by eapply lookup_lt_Some).
  split_and?; try done. exists e. done.
Qed.

(** ** The link *)

Section Link.
Context (v : NodeId) (G0 : list HardState) (D : OpId -> Prop).

(** [Done] are the operations whose success is known or on its way; [G] the hard
    states written, of which [d] is held by what is synced and [l] is the newest. *)
Record Link (dk : Disk) (G : list HardState) (d l : HardState) (Done : OpId -> Prop) (s : Raft) (w : World) : Prop := {
  lk_rng : rng_ok (wd_rng w);
  lk_at : wd_disks w !! node_idx v = Some dk;
  lk_torn : dc_torn_write_ppm (dk_cfg dk) = 0;
  lk_wal : wal_ok G d l (disk_file dk FILE_WAL);
  lk_zero : hard_state_default ∈ G;
  lk_known : forall op, D op -> Done op;
  lk_done : forall op, Done op -> op < dk_next_op dk;
  lk_queue : forall e op, e ∈ sc_queue (wd_sched w) -> succeeded v op (se_event e) -> Done op;
  lk_new : forall g, g ∈ G -> g ∈ G0 \/ g ∈ hards (p_batches (r_persister s));
  lk_seq : forall g, g ∈ G -> is_u64 (hs_seq g) /\ hs_seq g < r_state_seq s;
  lk_durable : r_durable_hard_state s ∈ G;
  lk_claim : hs_seq (r_durable_hard_state s) <= hs_seq d;
  lk_hards : forall b h, b ∈ p_batches (r_persister s) -> b_hard b = Some h ->
    (h ∈ G /\ hs_seq h <= hs_seq l) \/ exists op, (op, (b_id b, OpWrite)) ∈ p_ops (r_persister s) /\ ~ Done op;
  lk_synced : forall b h op, b ∈ p_batches (r_persister s) -> b_hard b = Some h ->
    (op, (b_id b, OpSync)) ∈ p_ops (r_persister s) -> Done op -> h ∈ G /\ hs_seq h <= hs_seq d;
  lk_files : forall b h, b ∈ p_batches (r_persister s) -> b_hard b = Some h -> b_file b = FILE_WAL;
  lk_pers : exists hist, persister_wf (r_persister s) hist;
  lk_ops : NoDup (p_ops (r_persister s)).*1;
  lk_next : forall q, q ∈ p_ops (r_persister s) -> q.1 < dk_next_op dk;
}.
Definition Linked (s : Raft) (w : World) : Prop := exists dk G d l Done, Link dk G d l Done s w.

(** The fields of a node it speaks of. *)
Definition link_view (s : Raft) := (r_persister s, r_state_seq s, r_durable_hard_state s).

Lemma link_view_eq dk G d l Done s s' w : link_view s' = link_view s -> Link dk G d l Done s w -> Link dk G d l Done s' w.
Proof. unfold link_view. intros [= E1 E2 E3] []. split; rewrite ?E1, ?E2, ?E3; done. Qed.

(** The world changed elsewhere. *)
Lemma link_elsewhere dk G d l Done s w w' :
  rng_ok (wd_rng w') -> wd_disks w' !! node_idx v = wd_disks w !! node_idx v ->
  (forall e op, e ∈ sc_queue (wd_sched w') -> succeeded v op (se_event e) -> e ∈ sc_queue (wd_sched w)) ->
  Link dk G d l Done s w -> Link dk G d l Done s w'.
Proof. intros Hr Hd Hq []. split; rewrite ?Hd; try done. eauto. Qed.

(** A request that leaves the slots alone. *)
Definition harmless (file : FileId) (req : disk_event) : Prop :=
  file <> FILE_WAL \/
  match req with
  | DeWriteAt _ offset _ => (STATE_FILE_SIZE <= offset)%nat
  | DeSetLen _ len => (STATE_FILE_SIZE <= len)%nat
  | DeSync _ => True
  | _ => False
  end.

Definition is_sync (req : disk_event) : bool := match req with DeSync _ => true | _ => false end.

(** The new completion: a success, if the operation succeeded. *)
Lemma queue_after (Done : OpId -> Prop) w w' e op res :
  sc_queue (wd_sched w') = sc_queue (wd_sched w) ++ [e] -> se_event e = SeStorage v op res ->
  (forall e op, e ∈ sc_queue (wd_sched w) -> succeeded v op (se_event e) -> Done op) ->
  forall e o, e ∈ sc_queue (wd_sched w') -> succeeded v o (se_event e) -> Done o \/ (o = op /\ res = IoOk).
Proof.
  intros -> He Hq x o [Hx| ->%list_elem_of_singleton]%elem_of_app Hs; [left; eauto|].
  right. unfold succeeded in Hs. rewrite He in Hs. by injection Hs as <- ->.
Qed.

Lemma link_request dk G d l Done s file req op w w' :
  harmless file req -> requested v file req op w w' -> Link dk G d l Done s w ->
  exists dk' d' (Done' : OpId -> Prop), Link dk' G d' l Done' s w' /\ op < dk_next_op dk' /\
    (forall q, q ∈ p_ops (r_persister s) -> q.1 < op) /\
    (Done' op -> is_sync req = true -> file = FILE_WAL -> d' = l).
Proof.
  intros Hh [Hr (d0 & dk' & res & Hd0 & Hd' & Eop & Hnext & Hcfg & Hfiles & e & Hq & He)] [].
  rewrite Hd0 in lk_at0. injection lk_at0 as ->.
  set (synced := io_is_ok res && (file =? FILE_WAL) && is_sync req).
  assert (Hwal : wal_ok G (if synced then l else d) l (disk_file dk' FILE_WAL)).
  { rewrite Hfiles. subst synced. destruct (decide (io_is_ok res = true /\ FILE_WAL = file)) as [[-> <-]|Hno].
    - rewrite Z.eqb_refl. destruct Hh as [?|Hh]; [done|]. destruct req as [g offset bytes|?|g len|g|]; try done; simpl.
      + by apply (wal_ok_log G d l _ (WData offset bytes)).
      + by apply (wal_ok_log G d l _ (WSetLen len)).
      + by eapply wal_ok_sync.
    - destruct (io_is_ok res), (Z.eqb_spec file FILE_WAL); simpl; try done. by destruct Hno. }
  assert (Hle : hs_seq d <= hs_seq (if synced then l else d)).
  { destruct synced; [apply lk_wal0|done]. }
  exists dk', (if synced then l else d), (fun o => Done o \/ (o = op /\ res = IoOk)). split_and?.
  - split; try done.
    + by rewrite Hcfg.
    + intros o Ho. left. by apply lk_known0.
    + intros o [Ho|[-> _]]; [apply lk_done0 in Ho; lia|lia].
    + by eapply queue_after.
    + lia.
    + intros b h Hb Hh'. destruct (lk_hards0 b h Hb Hh') as [?|(o & Ho & Hn)]; [by left|right].
      exists o. split; [done|]. intros [?|[-> _]]; [done|]. apply lk_next0 in Ho. simpl in Ho. lia.
    + intros b h o Hb Hh' Ho [Hdn|[-> _]]; [|apply lk_next0 in Ho; simpl in Ho; lia].
      destruct (lk_synced0 b h o Hb Hh' Ho Hdn). split; [done|lia].
    + intros q Hqq. apply lk_next0 in Hqq. lia.
  - lia.
  - intros q Hqq. apply lk_next0 in Hqq. lia.
  - intros [Hd|[_ ->]] Hs ->; [apply lk_done0 in Hd; lia|]. subst synced. by rewrite Hs.
Qed.

(** ** The persister's operations *)

(** A batch that still takes writes, named by its number. *)
Definition taking (id : Z) (s : Raft) : Prop :=
  exists b, b ∈ p_batches (r_persister s) /\ b_id b = id /\ b_sync_issued b = false /\ b_file b = FILE_WAL.
(** And that carries no hard state. *)
Definition plain_batch (id : Z) (s : Raft) : Prop :=
  forall b, b ∈ p_batches (r_persister s) -> b_id b = id -> b_hard b = None.

(** The same batches for the link: numbers, hard states and files are as they were. *)
Definition same_batches (bs bs' : list Batch) : Prop :=
  forall b', b' ∈ bs' -> exists b, b ∈ bs /\ b_id b' = b_id b /\ b_hard b' = b_hard b /\ b_file b' = b_file b /\
    b_sync_issued b' = b_sync_issued b.

Lemma same_hards bs bs' h : same_batches bs bs' -> h ∈ hards bs' -> h ∈ hards bs.
Proof.
  intros Hs. rewrite !elem_of_hards. intros (b' & Hb' & Hh). destruct (Hs b' Hb') as (b & ? & _ & E & _).
  exists b. split; [done|congruence].
Qed.
Lemma same_batches_refl bs : same_batches bs bs.
Proof. intros b Hb. exists b. done. Qed.

Lemma link_batches dk G d l Done s w p :
  Link dk G d l Done s w -> same_batches (p_batches (r_persister s)) (p_batches p) ->
  (forall g, g ∈ hards (p_batches (r_persister s)) -> g ∈ G0 \/ g ∈ hards (p_batches p)) ->
  p_ops p = p_ops (r_persister s) -> (exists hist, persister_wf p hist) ->
  Link dk G d l Done (s ⟨ r_persister := p ⟩) w.
Proof.
  intros [] Hs Hkeep Ho Hp. split; simpl; rewrite ?Ho; try done.
  - intros g Hg. destruct (lk_new0 g Hg) as [?|?]; auto.
  - intros b' h Hb' Hh. destruct (Hs b' Hb') as (b & Hb & -> & Eh & _). rewrite Eh in Hh. by apply lk_hards0.
  - intros b' h op Hb' Hh. destruct (Hs b' Hb') as (b & Hb & -> & Eh & _). rewrite Eh in Hh. by apply lk_synced0.
  - intros b' h Hb' Hh. destruct (Hs b' Hb') as (b & Hb & _ & Eh & -> & _). rewrite Eh in Hh. by eapply lk_files0.
Qed.

Lemma hards_update id f bs : (forall b, b_hard (f b) = b_hard b) -> hards (batch_update id f bs) = hards bs.
Proof.
  intros Hf. induction bs as [|b bs IH]; [done|]. cbn [batch_update]. unfold hards in *.
  case_match; cbn; [by rewrite Hf|]. by destruct (b_hard b); rewrite IH.
Qed.
Lemma same_batches_update id f bs :
  NoDup (b_id <$> bs) ->
  (forall b, b_id (f b) = b_id b /\ b_hard (f b) = b_hard b /\ b_file (f b) = b_file b /\ b_sync_issued (f b) = b_sync_issued b) ->
  same_batches bs (batch_update id f bs).
Proof.
  intros Hnd Hf b' (b & Hb & ->)%elem_of_batch_update; [|done]. exists b. split; [done|]. case_match; [apply Hf|done].
Qed.
Lemma update_in id f bs b : b ∈ bs -> b_id b = id -> NoDup (b_id <$> bs) -> f b ∈ batch_update id f bs.
Proof.
  intros Hb Hid Hnd. rewrite batch_update_map by done. apply list_elem_of_In, in_map_iff. exists b.
  rewrite Hid, Z.eqb_refl. split; [done|by apply list_elem_of_In].
Qed.

(** A batch is started. *)
Lemma link_started dk G d l Done s w action p id :
  persister_start action (r_persister s) = Some (id, p) -> Link dk G d l Done s w ->
  Link dk G d l Done (s ⟨ r_persister := p ⟩) w /\ taking id (s ⟨ r_persister := p ⟩) /\ plain_batch id (s ⟨ r_persister := p ⟩).
Proof.
  unfold persister_start. destruct (u64_add _ 1) as [i|] eqn:Ei; [|done]. apply u64_add_Some in Ei as [-> _].
  simpl. intros [= <- <-] []. destruct lk_pers0 as [hist Hwf]. split; [|split].
  - split; simpl; try done.
    + intros g Hg. destruct (lk_new0 g Hg) as [?|?]; [by left|right]. unfold hards in *. rewrite omap_app.
      apply elem_of_app. by left.
    + intros b h [Hb|Hb]%elem_of_app Hh; [by apply lk_hards0|]. by apply list_elem_of_singleton in Hb as ->.
    + intros b h op [Hb|Hb]%elem_of_app Hh; [by apply lk_synced0|]. by apply list_elem_of_singleton in Hb as ->.
    + intros b h [Hb|Hb]%elem_of_app Hh; [by eapply lk_files0|]. by apply list_elem_of_singleton in Hb as ->.
    + exists hist. by apply persister_wf_start.
  - eexists. split; [apply elem_of_app; right; by apply list_elem_of_singleton|]. done.
  - intros b [Hb|Hb]%elem_of_app Hid; [|by apply list_elem_of_singleton in Hb as ->].
    apply (pwf_id_bound _ _ Hwf) in Hb. lia.
Qed.

(** A write of a batch is noted. *)
Lemma link_noted dk G d l Done s w id op :
  taking id s -> op < dk_next_op dk -> (forall q, q ∈ p_ops (r_persister s) -> q.1 < op) -> Link dk G d l Done s w ->
  let s' := s ⟨ r_persister := persister_note_write id op (r_persister s) ⟩ in
  Link dk G d l Done s' w /\ taking id s' /\ (plain_batch id s -> plain_batch id s').
Proof.
  intros (b & Hb & Hid & Hsi & Hfile) Hop Hfresh []. destruct lk_pers0 as [hist Hwf].
  assert (Hnd : NoDup (b_id <$> p_batches (r_persister s))) by apply Hwf.
  set (f := fun b => mkBatch (b_id b) (b_file b) (S (b_writes_outstanding b)) (b_sync_issued b) (b_action b) (b_hard b)).
  assert (Hs : same_batches (p_batches (r_persister s)) (batch_update id f (p_batches (r_persister s))))
    by (by apply same_batches_update).
  split; [|split].
  - split; simpl; try done.
    + rewrite hards_update by done. done.
    + intros b' h Hb' Hh. destruct (Hs b' Hb') as (c & Hc & -> & Eh & _). rewrite Eh in Hh.
      destruct (lk_hards0 c h Hc Hh) as [?|(o & Ho & Hn)]; [by left|right]. exists o. split; [|done].
      apply elem_of_app. by left.
    + intros b' h o Hb' Hh. destruct (Hs b' Hb') as (c & Hc & -> & Eh & _). rewrite Eh in Hh.
      intros [Ho|Ho%list_elem_of_singleton]%elem_of_app; [by apply (lk_synced0 c h o)|by injection Ho].
    + intros b' h Hb' Hh. destruct (Hs b' Hb') as (c & Hc & _ & Eh & -> & _). rewrite Eh in Hh. by eapply lk_files0.
    + exists (PeWrite id op :: hist). by apply (persister_wf_note_write _ _ _ _ b).
    + unfold pending_insert. rewrite fmap_app. apply NoDup_app. split; [done|]. split; [|apply NoDup_singleton].
      intros o (q & -> & Hq)%list_elem_of_fmap Ho%list_elem_of_singleton. apply Hfresh in Hq. simpl in Ho. lia.
    + intros q [Hq|Hq%list_elem_of_singleton]%elem_of_app; [by apply lk_next0|by subst].
  - exists (f b). split; [by apply update_in|done].
  - intros Hp b' Hb' Hi. destruct (Hs b' Hb') as (c & Hc & Ei & -> & _). apply Hp; [done|congruence].
Qed.

(** The batch's file is another one: it carries no hard state. *)
Lemma link_filed dk G d l Done s w id file :
  plain_batch id s -> Link dk G d l Done s w ->
  Link dk G d l Done (s ⟨ r_persister := persister_note_file id file (r_persister s) ⟩) w.
Proof.
  intros Hp []. destruct lk_pers0 as [hist Hwf].
  assert (Hnd : NoDup (b_id <$> p_batches (r_persister s))) by apply Hwf.
  set (f := fun b => mkBatch (b_id b) file (b_writes_outstanding b) (b_sync_issued b) (b_action b) (b_hard b)).
  assert (Hb : forall b' h, b' ∈ batch_update id f (p_batches (r_persister s)) -> b_hard b' = Some h ->
    b' ∈ p_batches (r_persister s)).
  { intros b' h (b & Hb & ->)%elem_of_batch_update; [|done]. destruct (Z.eqb_spec (b_id b) id) as [E|]; [|done].
    simpl. by rewrite (Hp b Hb E). }
  split; simpl; try done.
  - rewrite hards_update by done. done.
  - intros b h Hin Hh. eauto.
  - intros b h op Hin Hh. eauto.
  - intros b h Hin Hh. eauto.
  - exists hist. by apply persister_wf_with_batch.
Qed.

(** The claims of the batches are capped. *)
Lemma link_clamped dk G d l Done s w cap :
  Link dk G d l Done s w -> Link dk G d l Done (s ⟨ r_persister := persister_clamp_all cap (r_persister s) ⟩) w.
Proof.
  intros HL. pose proof HL as [Hpers]. apply link_batches; [done|..|done|].
  - intros b' (b & <- & Hb)%list_elem_of_In%in_map_iff. exists b. split; [by apply list_elem_of_In|done].
  - intros g (b & Hb & Hh)%elem_of_hards. right. apply elem_of_hards. simpl.
    exists (mkBatch (b_id b) (b_file b) (b_writes_outstanding b) (b_sync_issued b) (persist_clamp cap (b_action b)) (b_hard b)).
    split; [|done]. apply list_elem_of_In, in_map_iff. exists b. split; [done|by apply list_elem_of_In].
  - destruct (lk_pers _ _ _ _ _ _ _ HL) as [hist Hwf]. exists hist. apply persister_wf_batches; [done| |].
    + rewrite <-list_fmap_compose. apply Hwf.
    + intros b (b0 & -> & ?)%list_elem_of_fmap. by exists b0.
Qed.

(** The hard state goes to its slot, in a batch that takes writes. *)
(** The hard state is noted in its batch, with one more write. *)
Definition with_state (h : HardState) (b : Batch) : Batch :=
  mkBatch (b_id b) (b_file b) (S (b_writes_outstanding b)) (b_sync_issued b) (b_action b) (Some h).
Definition state_noted (id : Z) (op : OpId) (s : Raft) : Raft :=
  s ⟨ r_state_seq := r_state_seq s + 1 ⟩
    ⟨ r_persister := persister_note_write id op (persister_note_hard_state id (current_hs s) (r_persister s)) ⟩.
Lemma noted_batches id op s :
  p_batches (r_persister (state_noted id op s)) = batch_update id (with_state (current_hs s)) (p_batches (r_persister s)).
Proof.
  simpl. generalize (current_hs s). intros h. induction (p_batches (r_persister s)) as [|c bs IH]; [done|]. cbn [batch_update].
  destruct (Z.eqb_spec (b_id c) id) as [E|Hne]; cbn [batch_update b_id].
  - by rewrite (proj2 (Z.eqb_eq _ _) E).
  - by rewrite (proj2 (Z.eqb_neq _ _) Hne), IH.
Qed.

Section HardWrite.
Context (id : Z) (op : OpId) (s : Raft) (b : Batch) (hist : list PEvent).
Context (Hwf : persister_wf (r_persister s) hist) (Hb : b ∈ p_batches (r_persister s)) (Hid : b_id b = id).
Context (Hplain : plain_batch id s).
Abbreviation h := (current_hs s).
Abbreviation bs := (p_batches (r_persister s)).
Abbreviation s' := (state_noted id op s).

Lemma noted_cases b' :
  b' ∈ p_batches (r_persister s') ->
  (b_id b' = id /\ b_hard b' = Some h /\ b_file b' = b_file b) \/ (b_id b' <> id /\ b' ∈ bs).
Proof.
  rewrite noted_batches. intros (b0 & Hb0 & ->)%elem_of_batch_update; [|apply Hwf].
  destruct (Z.eqb_spec (b_id b0) id) as [E|Hne]; [left|by right].
  assert (b0 = b) as -> by (eapply batch_unique; [done..|congruence]). done.
Qed.
Lemma noted_keeps x : x ∈ hards bs -> x ∈ hards (p_batches (r_persister s')).
Proof.
  intros (c & Hc & Ex)%elem_of_hards. apply elem_of_hards. exists c. split; [|done].
  rewrite noted_batches, batch_update_map by apply Hwf. apply list_elem_of_In, in_map_iff. exists c.
  destruct (Z.eqb_spec (b_id c) id) as [E|Hne]; [rewrite (Hplain c Hc E) in Ex; done|].
  split; [done|by apply list_elem_of_In].
Qed.
Lemma noted_in : with_state h b ∈ p_batches (r_persister s').
Proof. rewrite noted_batches. apply update_in; [done..|apply Hwf]. Qed.
Lemma noted_hard : h ∈ hards (p_batches (r_persister s')).
Proof. apply elem_of_hards. exists (with_state h b). split; [apply noted_in|done]. Qed.
(** Nothing syncs it yet. *)
Lemma not_synced c o : b_sync_issued b = false -> c ∈ bs -> (o, (b_id c, OpSync)) ∈ p_ops (r_persister s) -> b_id c <> id.
Proof.
  intros Hsi Hc Ho E. destruct (pwf_synced _ _ Hwf c o Hc Ho) as [Hi _].
  assert (c = b) as -> by (eapply batch_unique; [done..|congruence]). congruence.
Qed.
Lemma noted_wf :
  op ∉ (p_ops (r_persister s)).*1 -> b_sync_issued b = false -> persister_wf (r_persister s') (PeWrite id op :: hist).
Proof.
  intros Hop Hsi. set (fg := fun b => mkBatch (b_id b) (b_file b) (b_writes_outstanding b) (b_sync_issued b) (b_action b) (Some h)).
  eapply (persister_wf_note_write _ _ _ _ (fg b)); [|..|done].
  - by apply persister_wf_with_batch.
  - apply (update_in id fg); [done..|apply Hwf].
  - done.
Qed.
End HardWrite.

(** The write went to the disk as [dk'], and its outcome to the queue. *)
Lemma link_state_with dk dk' G G' d l l' (Done : OpId -> Prop) s w w' id op res :
  r_state_seq s + 1 <= U64_MAX -> taking id s -> plain_batch id s -> Link dk G d l Done s w ->
  rng_ok (wd_rng w') -> wd_disks w' !! node_idx v = Some dk' -> dk_cfg dk' = dk_cfg dk ->
  op = dk_next_op dk -> dk_next_op dk' = dk_next_op dk + 1 ->
  (exists e, sc_queue (wd_sched w') = sc_queue (wd_sched w) ++ [e] /\ se_event e = SeStorage v op res) ->
  wal_ok G' d l' (disk_file dk' FILE_WAL) -> hs_seq l <= hs_seq l' ->
  (forall x, x ∈ G -> x ∈ G') -> (forall x, x ∈ G' -> x ∈ G \/ x = current_hs s) ->
  (current_hs s ∈ G' /\ hs_seq (current_hs s) <= hs_seq l' \/ res <> IoOk) ->
  Link dk' G' d l' (fun o => Done o \/ (o = op /\ res = IoOk)) (state_noted id op s) w'.
Proof.
  intros Hmax (b & Hb & Hid & Hsi & Hfile) Hplain [] Hr Hd' Hcfg Eop Hnext (e & Hq & He) Hwal Hle Hsub Hin Hh.
  destruct lk_pers0 as [hist Hwf]. pose proof (noted_cases id op s b hist Hwf Hb Hid) as Hcase.
  assert (Hfresh : forall q, q ∈ p_ops (r_persister s) -> q.1 <> op) by (intros q Hqq; apply lk_next0 in Hqq; lia).
  assert (Hops : p_ops (r_persister (state_noted id op s)) = p_ops (r_persister s) ++ [(op, (id, OpWrite))]) by done.
  assert (H0 : 0 <= r_state_seq s) by (destruct (lk_seq0 _ lk_zero0) as [[? _] ?]; lia).
  split; try done; rewrite ?Hops; auto.
  - by rewrite Hcfg.
  - intros o [Ho|[-> _]]; [apply lk_done0 in Ho; lia|lia].
  - by eapply queue_after.
  - intros x [Hx| ->]%Hin; [|right; by eapply noted_hard].
    destruct (lk_new0 x Hx) as [?|?]; [by left|right; by eapply noted_keeps].
  - intros x [Hx| ->]%Hin; simpl; [destruct (lk_seq0 x Hx); split; [done|lia]|]. unfold is_u64, U64_MAX in *. simpl. lia.
  - intros b' x Hb' Hx. destruct (Hcase b' Hb') as [(Ei & Eh & _)|[Hne Hb0]].
    + rewrite Eh in Hx. injection Hx as <-. destruct Hh as [?|?]; [by left|right]. exists op. split.
      * rewrite Ei. apply elem_of_app. right. by apply list_elem_of_singleton.
      * intros [Hdn|[_ ?]]; [|done]. apply lk_done0 in Hdn. lia.
    + destruct (lk_hards0 b' x Hb0 Hx) as [[? ?]|(o & Ho & Hn)]; [left; split; [auto|lia]|right].
      exists o. split; [apply elem_of_app; by left|]. intros [?|[-> _]]; [done|]. by apply Hfresh in Ho.
  - intros b' x o Hb' Hx [Ho|Ho%list_elem_of_singleton]%elem_of_app Hdn; [|by injection Ho].
    destruct (Hcase b' Hb') as [(Ei & _)|[Hne Hb0]].
    + exfalso. rewrite Ei, <-Hid in Ho. by apply (not_synced id s b hist Hwf Hb Hid b o Hsi Hb Ho).
    + destruct Hdn as [Hdn|[-> _]]; [|by apply Hfresh in Ho].
      destruct (lk_synced0 b' x o Hb0 Hx Ho Hdn). auto.
  - intros b' x Hb' Hx. destruct (Hcase b' Hb') as [(_ & _ & ->)|[_ Hb0]]; [done|]. by eapply lk_files0.
  - eexists. eapply noted_wf; [done..| |done]. intros (q & -> & Hqq)%list_elem_of_fmap. by apply Hfresh in Hqq.
  - rewrite fmap_app. apply NoDup_app. split; [done|]. split; [|apply NoDup_singleton].
    intros o (q & -> & Hqq)%list_elem_of_fmap Ho%list_elem_of_singleton. by apply Hfresh in Hqq.
  - intros q [Hqq|Hqq%list_elem_of_singleton]%elem_of_app; [apply lk_next0 in Hqq; lia|subst; simpl; lia].
Qed.

Lemma link_state dk G d l Done s w w' id op :
  r_state_seq s + 1 <= U64_MAX -> taking id s -> plain_batch id s ->
  requested v FILE_WAL (DeWriteAt FILE_WAL (hard_state_slot_offset (r_state_seq s)) (hard_state_to_slot (current_hs s))) op w w' ->
  Link dk G d l Done s w -> Linked (state_noted id op s) w' /\ taking id (state_noted id op s).
Proof.
  intros Hmax Ht Hplain [Hr (d0 & dk' & res & Hd0 & Hd' & Eop & Hnext & Hcfg & Hfiles & Hq)] HL.
  pose proof HL as []. rewrite Hd0 in lk_at0. injection lk_at0 as ->. split.
  - assert (Hll : hs_seq l <= hs_seq (current_hs s)).
    { destruct (lk_seq0 l (wl_l _ _ _ _ lk_wal0)) as [_ ?]. simpl. lia. }
    set (Done' := fun o => Done o \/ (o = op /\ res = IoOk)).
    destruct res; [exists dk', (current_hs s :: G), d, (current_hs s), Done'|exists dk', G, d, l, Done'];
      eapply link_state_with; try done; try (by auto).
    + rewrite Hfiles, decide_True by done. by apply (wal_ok_state G d l _ (current_hs s)).
    + intros x Hx. by right.
    + intros x [->|?]%elem_of_cons; auto.
    + left. split; [left|done].
    + rewrite Hfiles. by rewrite decide_False by (intros [? _]; done).
  - destruct Ht as (b & Hb & Hid & Hsi & Hfile). destruct lk_pers0 as [hist Hwf].
    exists (with_state (current_hs s) b). split; [by eapply noted_in|done].
Qed.

(** A completion arrives. *)
Lemma complete_batches op ok p ev p' :
  NoDup (b_id <$> p_batches p) -> NoDup (p_ops p).*1 -> persister_on_complete op ok p = Some (ev, p') ->
  same_batches (p_batches p) (p_batches p') /\
  (forall q, q ∈ p_ops p' -> q ∈ p_ops p) /\ (forall q, q ∈ p_ops p -> q.1 <> op -> q ∈ p_ops p') /\ NoDup (p_ops p').*1 /\
  (ok = false -> forall id b, (op, (id, OpWrite)) ∈ p_ops p -> b ∈ p_batches p' -> b_id b <> id) /\
  (forall a h, ev = BeDone a (Some h) -> ok = true /\
     exists b, b ∈ p_batches p /\ b_hard b = Some h /\ (op, (b_id b, OpSync)) ∈ p_ops p).
Proof.
  intros Hids Hnd. unfold persister_on_complete.
  destruct (pending_take op (p_ops p)) as [[[id kind] ops]|] eqn:Et.
  2: { intros [= <- <-]. split_and?; try done; [apply same_batches_refl|].
       intros _ i b Hin. exfalso. clear -Et Hin. induction (p_ops p) as [|[o x] q IH]; [by apply elem_of_nil in Hin|].
       simpl in Et. destruct (Z.eqb_spec o op) as [->|Hne]; [done|]. destruct (pending_take op q) as [[]|]; [done|].
       apply elem_of_cons in Hin as [Hin|Hin]; [congruence|]. by apply IH. }
  apply pending_take_elem in Et as (a & k & Hops & -> & Hne). rewrite Hops in *.
  rewrite fmap_app, fmap_cons in Hnd. simpl in Hnd. apply NoDup_app in Hnd as (Ha & Hd & Hk).
  apply NoDup_cons in Hk as [Hk1 Hk2].
  assert (Hsub : forall q, q ∈ a ++ k -> q ∈ a ++ (op, (id, kind)) :: k) by set_solver.
  assert (Hback : forall q, q ∈ a ++ (op, (id, kind)) :: k -> q.1 <> op -> q ∈ a ++ k) by set_solver.
  assert (Hnd' : NoDup (a ++ k).*1).
  { rewrite fmap_app. apply NoDup_app. split; [done|]. split; [|done]. set_solver. }
  assert (Hone : forall i kd, (op, (i, kd)) ∈ a ++ (op, (id, kind)) :: k -> i = id /\ kd = kind).
  { intros i kd [Hin|[Hin|Hin]%elem_of_cons]%elem_of_app.
    - rewrite Forall_forall in Hne. by destruct (Hne _ Hin).
    - by injection Hin.
    - destruct Hk1. apply list_elem_of_fmap. exists (op, (i, kd)). done. }
  destruct ok; simpl.
  2: { intros [= <- <-]. split_and?; try done; simpl.
       - intros b [Hb _]%list_elem_of_In%filter_In. exists b. by rewrite list_elem_of_In.
       - intros _ i b [-> _]%Hone [_ Hb]%list_elem_of_In%filter_In. by apply negb_true_iff, Z.eqb_neq in Hb. }
  destruct kind.
  - destruct (persister_batch id _) as [b|].
    2: { intros [= <- <-]. split_and?; try done; apply same_batches_refl. }
    destruct (b_writes_outstanding b) as [|n]; [done|].
    case_match; intros [= <- <-]; (split_and?; try done; simpl; by apply same_batches_update).
  - destruct (batch_remove id (p_batches p)) as [[b bs]|] eqn:Er; simpl; intros [= <- <-];
      [|split_and?; try done; apply same_batches_refl].
    apply batch_remove_elem in Er as (l1 & k1 & Hbs & -> & Hid). rewrite Hbs.
    split_and?; try done; simpl.
    + intros c Hc. exists c. split; [set_solver|done].
    + intros act h [= _ Eh]. split; [done|]. exists b. split; [set_solver|]. split; [done|]. rewrite Hid. set_solver.
Qed.

Lemma link_completed dk G d l Done s w op ok ev p :
  persister_on_complete op ok (r_persister s) = Some (ev, p) -> (ok = true -> Done op) -> (forall g, g ∈ G -> g ∈ G0) ->
  Link dk G d l Done s w ->
  Link dk G d l Done (s ⟨ r_persister := p ⟩) w /\
  (forall a h, ev = BeDone a (Some h) -> h ∈ G /\ hs_seq h <= hs_seq d).
Proof.
  intros Hc Hdone Hold HL. pose proof HL as []. destruct lk_pers0 as [hist Hwf].
  destruct (complete_batches op ok (r_persister s) ev p (pwf_ids _ _ Hwf) lk_ops0 Hc) as (Hs & Hsub & Hback & Hnd & Hfail & Hev).
  split.
  - split; simpl; try done.
    + intros g Hg. left. auto.
    + intros b' h Hb' Hh. destruct (Hs b' Hb') as (b & Hb & Ei & Eh & _). rewrite Eh in Hh. rewrite Ei.
      destruct (lk_hards0 b h Hb Hh) as [?|(o & Ho & Hn)]; [by left|right]. exists o. split; [|done].
      apply Hback; [done|]. simpl. intros ->. destruct ok; [by apply Hn, Hdone|].
      by apply (Hfail eq_refl (b_id b) b' Ho Hb').
    + intros b' h o Hb' Hh Ho. destruct (Hs b' Hb') as (b & Hb & Ei & Eh & _). rewrite Eh in Hh. rewrite Ei in Ho.
      apply (lk_synced0 b h o Hb Hh). by apply Hsub.
    + intros b' h Hb' Hh. destruct (Hs b' Hb') as (b & Hb & _ & Eh & -> & _). rewrite Eh in Hh. by eapply lk_files0.
    + eexists. by eapply persister_on_complete_wf.
    + intros q Hq. by apply lk_next0, Hsub.
  - intros a h E. destruct (Hev a h E) as (-> & b & Hb & Hh & Ho). by apply (lk_synced0 b h op Hb Hh Ho), Hdone.
Qed.

(** The sync a batch waited for is issued. *)
Lemma link_sync_noted dk G d l Done s w w' id file op b :
  b ∈ p_batches (r_persister s) -> b_id b = id -> b_writes_outstanding b = 0%nat -> b_file b = file ->
  requested v file (DeSync file) op w w' -> Link dk G d l Done s w ->
  Linked (s ⟨ r_persister := persister_note_sync id op (r_persister s) ⟩) w'.
Proof.
  intros Hb Hid Hz Hfile Hrq HL. pose proof (lk_pers _ _ _ _ _ _ _ HL) as [hist Hwf].
  assert (Hnot : forall h, b_hard b = Some h -> h ∈ G /\ hs_seq h <= hs_seq l).
  { intros h Hh. destruct (lk_hards _ _ _ _ _ _ _ HL b h Hb Hh) as [?|(o & Ho & _)]; [done|].
    rewrite (pwf_outstanding _ _ Hwf b Hb) in Hz. by apply pending_writes_zero with (op := o) in Hz. }
  destruct (link_request dk G d l Done s file (DeSync file) op w w' ltac:(by right) Hrq HL)
    as (dk' & d' & Done' & HL' & Hop & Hfresh & Hdone).
  pose proof HL' as []. exists dk', G, d', l, Done'.
  set (f := fun b => mkBatch (b_id b) (b_file b) (b_writes_outstanding b) true (b_action b) (b_hard b)).
  assert (Hbatch : forall b', b' ∈ batch_update id f (p_batches (r_persister s)) -> exists c, c ∈ p_batches (r_persister s) /\
    b_id b' = b_id c /\ b_hard b' = b_hard c /\ b_file b' = b_file c).
  { intros b' (c & Hc & ->)%elem_of_batch_update; [|apply Hwf]. exists c. split; [done|]. by case_match. }
  split; simpl; try done.
  - rewrite hards_update by done. done.
  - intros b' h Hb' Hh. destruct (Hbatch b' Hb') as (c & Hc & -> & Eh & _). rewrite Eh in Hh.
    destruct (lk_hards0 c h Hc Hh) as [?|(o & Ho & Hn)]; [by left|right]. exists o. split; [|done].
    apply elem_of_app. by left.
  - intros b' h o Hb' Hh Ho Hdn. destruct (Hbatch b' Hb') as (c & Hc & Ei & Eh & _). rewrite Eh in Hh. rewrite Ei in Ho.
    apply elem_of_app in Ho as [Ho|Ho%list_elem_of_singleton]; [by apply (lk_synced0 c h o)|].
    injection Ho as -> Hi. assert (c = b) as -> by (eapply batch_unique; [done..|congruence]).
    destruct (Hnot h Hh) as [Hin Hle]. split; [done|]. rewrite Hdone; [done|done|done|].
    rewrite <-Hfile. by apply (lk_files0 b h Hb).
  - intros b' h Hb' Hh. destruct (Hbatch b' Hb') as (c & Hc & _ & Eh & ->). rewrite Eh in Hh. by eapply lk_files0.
  - exists (PeSync id op :: hist). by apply (persister_wf_note_sync (r_persister s) hist id op b).
  - unfold pending_insert. rewrite fmap_app. apply NoDup_app. split; [done|]. split; [|apply NoDup_singleton].
    intros o (q & -> & Hq)%list_elem_of_fmap Ho%list_elem_of_singleton. apply Hfresh in Hq. simpl in Ho. lia.
  - intros q [Hq|Hq%list_elem_of_singleton]%elem_of_app; [by apply lk_next0|by subst].
Qed.

(** The node takes a newer durable hard state. *)
Lemma link_durable dk G d l Done s w h :
  h ∈ G -> hs_seq h <= hs_seq d -> Link dk G d l Done s w -> Link dk G d l Done (s ⟨ r_durable_hard_state := h ⟩) w.
Proof. intros Hh Hle []. by split. Qed.
End Link.
