(* ===== verification/Lent.v ===== *)
(** * Lent: a Raft node on its simulated disk

    Every handler of the node, lent the world, keeps what [Journal] says of its
    hard states and its disk.  Between handlers the node is [Idle]; within one a
    batch may be open, be ready for its sync, or have released the hard state it
    carried; [Old] says that nothing was written since the event began.  [links m m' h] says that the handler [h] goes from the one to the
    other; it is proved by walking through the code. *)
From Stdlib Require Import String.
From S2P Require Import Prelude Codec Crc LogFormat RaftLog Recovery Durable Messages Config Io Rng Draw.
From S2P Require Import Disk DiskSafety Faults Scheduler Net Trace World WorldRules Persister RaftState Raft RaftInv IoRules Slots Journal.
From Stdlib.Init Require Import Byte.
Local Open Scope Z_scope.

Inductive mode : Type :=
| Idle
| Old
| Open (id : Z) (plain : bool)
| Ready (id : Z) (file : FileId)
| Holds (h : HardState).

Section Lent.
Context (v : NodeId) (G0 : list HardState) (D : OpId -> Prop).

Definition mode_ok (m : mode) (G : list HardState) (d : HardState) (s : Raft) : Prop :=
  match m with
  | Idle => True
  | Old => forall g, g ∈ G -> g ∈ G0
  | Open id plain => taking id s /\ (plain = true -> plain_batch id s)
  | Ready id file => exists b, b ∈ p_batches (r_persister s) /\ b_id b = id /\ b_writes_outstanding b = 0%nat /\ b_file b = file
  | Holds h => h ∈ G /\ hs_seq h <= hs_seq d
  end.
Definition LinkedW (m : mode) (s : Raft) (w : World) : Prop :=
  exists dk G d l Done, Link v G0 D dk G d l Done s w /\ mode_ok m G d s.
(** The node [s] is linked to the world it is lent, if that still runs. *)
Definition LinkedE (m : mode) (s : Raft) (e : Env SimIo) : Prop :=
  si_node (env_world e) = v /\ forall w, si_world (env_world e) = Some w -> LinkedW m s w.
Definition links {A} (m m' : mode) (h : M SimIo Raft A) : Prop :=
  forall s e, LinkedE m s e -> wp h (fun _ s' e' => LinkedE m' s' e') s e.

(** ** Sequencing *)

Lemma LinkedE_idle m s e : LinkedE m s e -> LinkedE Idle s e.
Proof.
  intros [Hv Hw]. split; [done|]. intros w E. destruct (Hw w E) as (dk & G & d & l & Done & HL & _).
  by exists dk, G, d, l, Done.
Qed.
Lemma links_idle {A} m m' (h : M SimIo Raft A) : links m m' h -> links m Idle h.
Proof. intros Hh s e Hs. eapply wp_mono; [by apply Hh|]. intros a s' e'. apply LinkedE_idle. Qed.
Lemma links_from_idle {A} m m' (h : M SimIo Raft A) : links Idle m' h -> links m m' h.
Proof. intros Hh s e Hs. by eapply Hh, LinkedE_idle. Qed.
Lemma links_bind {A B} m m1 m' (h : M SimIo Raft A) (k : A -> M SimIo Raft B) :
  links m m1 h -> (forall a, links m1 m' (k a)) -> links m m' (h ≫= k).
Proof. intros Hh Hk s e Hs. apply wp_bind. eapply wp_mono; [by apply Hh|]. intros a s' e'. apply Hk. Qed.
Lemma links_keep {A B} m m' (h : M SimIo Raft A) (k : A -> M SimIo Raft B) :
  links m m h -> (forall a, links m m' (k a)) -> links m m' (h ≫= k).
Proof. apply links_bind. Qed.
Lemma links_ret {A} m (a : A) : links m m (mret a).
Proof. by intros s e Hs. Qed.
Lemma links_get m : links m m get.
Proof. by intros s e Hs. Qed.
Lemma links_lift {A} m (o : option A) : links m m (lift o).
Proof. intros s e Hs. apply wp_lift. by intros. Qed.
Lemma links_panic {A} m m' : links m m' (panic (A := A)).
Proof. by intros s e Hs. Qed.
Lemma links_now m : links m m now.
Proof. by intros s e Hs. Qed.
Lemma links_when m b h : links m m h -> links m m (when b h).
Proof. intros Hh. destruct b; [done|apply links_ret]. Qed.
Lemma links_for_each {A} m (l : list A) (f : A -> M SimIo Raft unit) : (forall a, links m m (f a)) -> links m m (for_each l f).
Proof.
  intros Hf. induction l as [|a l IH]; [apply links_ret|]. apply links_keep; [apply Hf|]. by intros _.
Qed.

(** A change of what the link does not speak of. *)
Lemma mode_ok_view m G d s s' : link_view s' = link_view s -> mode_ok m G d s -> mode_ok m G d s'.
Proof.
  unfold link_view. intros [= E _ _]. unfold mode_ok, taking, plain_batch. by rewrite E.
Qed.
Lemma LinkedE_view m s s' e : link_view s' = link_view s -> LinkedE m s e -> LinkedE m s' e.
Proof.
  intros Hf [Hv Hw]. split; [done|]. intros w E. destruct (Hw w E) as (dk & G & d & l & Done & HL & Hm).
  exists dk, G, d, l, Done. split; [by eapply link_view_eq|by eapply mode_ok_view].
Qed.
Lemma links_modify m f : (forall s, link_view (f s) = link_view s) -> links m m (modify f).
Proof. intros Hf s e Hs. apply wp_modify. eapply LinkedE_view; [apply Hf|done]. Qed.

(** ** Requests *)

(** The world after a request of the node, if it still runs. *)
Lemma sim_do_world {A} (a : A) f s b s' w' :
  sim_do a f s = (b, s') -> si_world s' = Some w' ->
  si_node s' = si_node s /\ exists w, si_world s = Some w /\ f (si_node s) w = Some (b, w').
Proof.
  unfold sim_do. destruct (si_world s) as [w|]; simpl.
  - destruct (f (si_node s) w) as [[c w1]|] eqn:E; intros [= <- <-]; simpl; [|done]. intros [= <-]. eauto.
  - by intros [= <- <-].
Qed.
Lemma sim_do_same_node {A} (a : A) f s b s' : sim_do a f s = (b, s') -> si_node s' = si_node s.
Proof. intros E. pose proof (sim_do_node a f s) as H. by rewrite E in H. Qed.

(** A request that leaves the disk and the completions alone. *)
Lemma links_world {A} m (a : A) (f : NodeId -> World -> option (A * World)) (ev : A -> IoEvent) :
  (forall w b w', rng_ok (wd_rng w) -> f v w = Some (b, w') ->
     rng_ok (wd_rng w') /\ wd_disks w' = wd_disks w /\
     forall e op, e ∈ sc_queue (wd_sched w') -> succeeded v op (se_event e) -> e ∈ sc_queue (wd_sched w)) ->
  links m m (request (sim_do a f) ev).
Proof.
  intros Hf s e [Hv Hw]. apply wp_request. intros b io E. split; simpl.
  { by rewrite (sim_do_same_node _ _ _ _ _ E). }
  intros w' Ew'. destruct (sim_do_world _ _ _ _ _ _ E Ew') as (_ & w & Ew & Ef). rewrite Hv in Ef.
  destruct (Hw w Ew) as (dk & G & d & l & Done & HL & Hm). exists dk, G, d, l, Done. split; [|done].
  destruct (Hf w b w' ltac:(apply HL) Ef) as (Hr & Hd & Hq). eapply link_elsewhere; [done|by rewrite Hd|done|done].
Qed.

Lemma links_set_timer m delay tag : links m m (set_timer delay tag).
Proof.
  apply (links_world m 0). intros w b w' Hr. unfold world_set_timer. destruct (sched_after _ _ _) as [[i s]|] eqn:E; [|done].
  intros [= _ <-]. split; [done|]. split; [done|]. apply sched_after_queued in E as (x & (_ & _ & Hq) & _ & Hx). simpl. rewrite Hq.
  intros e op [He| ->%list_elem_of_singleton]%elem_of_app; [done|]. unfold succeeded. by rewrite Hx.
Qed.
(** A request without a result. *)
Lemma links_unit m (f : NodeId -> World -> option (unit * World)) (g : SimIo -> SimIo) (ev : IoEvent) :
  links m m (request (sim_do tt f) (fun _ => ev)) -> (forall s, g s = (sim_do tt f s).2) ->
  links m m (request (fun w => (tt, g w)) (fun _ => ev)).
Proof.
  intros Hl Hg s e Hs. specialize (Hl s e Hs). unfold wp, request in *. rewrite Hg.
  by destruct (sim_do tt f (env_world e)) as [[] w].
Qed.
Lemma links_cancel_timer m h : links m m (cancel_timer h).
Proof.
  eapply links_unit; [|by intros]. apply links_world. intros w [] w' Hr [= <-]. done.
Qed.
Lemma links_observe m tag args : links m m (observe tag args).
Proof.
  eapply links_unit; [|by intros]. apply links_world. intros w [] w' Hr. unfold world_observe.
  destruct (trace_observe _ _ _ _ _); [|done]. by intros [= <-].
Qed.
Lemma links_send_bytes m to bytes : links m m (send_bytes to bytes).
Proof.
  eapply links_unit; [|by intros]. apply links_world. intros w [] w' Hr. unfold sim_send. destruct (to =? v).
  { by intros [= <-]. }
  unfold world_send. destruct (is_up v w) as [[]|]; [| |done]; simpl; [|by intros [= <-]].
  destruct (net_send _ _ _ _ _ _) as [[[c [n s]] r]|] eqn:E; [|done]. simpl. intros [= <-].
  apply draws_net_send in E as [(_ & _ & _ & es & (_ & _ & Hq) & _ & Hes) Hr']; [|done]. split; [done|]. split; [done|].
  simpl in *. rewrite Hq. intros e op [He|He]%elem_of_app Hs; [done|]. rewrite Forall_forall in Hes.
  destruct (Hes e He) as (_ & b & msg & Ee & _). unfold succeeded in Hs. congruence.
Qed.

(** The node asks its disk. *)
Definition disk_op (file : FileId) (req : disk_event) (m : M SimIo Raft OpId) : Prop :=
  forall s e, si_node (env_world e) = v -> (forall w, si_world (env_world e) = Some w -> rng_ok (wd_rng w)) ->
  wp m (fun op s' e' => s' = s /\ si_node (env_world e') = v /\ forall w', si_world (env_world e') = Some w' ->
    exists w, si_world (env_world e) = Some w /\ requested v file req op w w') s e.
Lemma disk_op_request file req f (g : SimIo -> OpId * SimIo) ev :
  disk_do req = Some (file, f) -> (forall s, g s = sim_do 0 (fun me => disk_request me f) s) -> disk_op file req (request g ev).
Proof.
  intros Hf Hg s e Hv Hr. apply wp_request. intros op io. rewrite Hg. intros E. split; [done|]. simpl. split.
  { by rewrite (sim_do_same_node _ _ _ _ _ E). }
  intros w' Ew'. destruct (sim_do_world _ _ _ _ _ _ E Ew') as (_ & w & Ew & Ef). rewrite Hv in Ef. exists w.
  split; [done|]. eapply disk_request_requested; [by apply Hr|done|done].
Qed.
Lemma disk_op_write_at file off bytes : disk_op file (DeWriteAt file off bytes) (write_at file off bytes).
Proof. by eapply disk_op_request. Qed.
Lemma disk_op_set_len file len : disk_op file (DeSetLen file len) (set_len file len).
Proof. by eapply disk_op_request. Qed.
Lemma disk_op_sync file : disk_op file (DeSync file) (sync file).
Proof. by eapply disk_op_request. Qed.

Lemma LinkedE_rng m s e w : LinkedE m s e -> si_world (env_world e) = Some w -> rng_ok (wd_rng w).
Proof. intros [_ Hw] E. destruct (Hw w E) as (? & ? & ? & ? & ? & HL & _). apply HL. Qed.

Lemma links_disk_op file req h : disk_op file req h -> harmless file req -> links Idle Idle h.
Proof.
  intros Hd Hh s e Hs. eapply wp_mono; [apply Hd; [apply Hs|intros w E; by eapply LinkedE_rng]|].
  intros op s' e' (-> & Hv & Hw'). split; [done|]. intros w' Ew'. destruct (Hw' w' Ew') as (w & Ew & Hrq).
  destruct (proj2 Hs w Ew) as (dk & G & d & l & Done & HL & _).
  destruct (link_request _ _ _ _ _ _ _ _ _ _ _ _ _ _ Hh Hrq HL) as (dk' & d' & Done' & HL' & _).
  by exists dk', G, d', l, Done'.
Qed.

(** A write that its open batch waits for. *)
Lemma links_noted file req h id plain :
  disk_op file req h -> harmless file req ->
  links (Open id plain) (Open id plain) (op ← h; persisting (persister_note_write id op)).
Proof.
  intros Hd Hh s e Hs. apply wp_bind. eapply wp_mono; [apply Hd; [apply Hs|intros w E; by eapply LinkedE_rng]|].
  intros op s' e' (-> & Hv & Hw'). apply wp_modify. split; [done|]. intros w' Ew'. destruct (Hw' w' Ew') as (w & Ew & Hrq).
  destruct (proj2 Hs w Ew) as (dk & G & d & l & Done & HL & Ht & Hp).
  destruct (link_request _ _ _ _ _ _ _ _ _ _ _ _ _ _ Hh Hrq HL) as (dk' & d' & Done' & HL' & Hop & Hfresh & _).
  destruct (link_noted _ _ _ _ _ _ _ _ _ _ id op Ht Hop Hfresh HL') as (HL2 & Ht2 & Hp2).
  exists dk', G, d', l, Done'. split; [done|]. split; [done|]. auto.
Qed.
Lemma links_noted_then {B} file req h id plain m' (k : M SimIo Raft B) :
  disk_op file req h -> harmless file req -> links (Open id plain) m' k ->
  links (Open id plain) m' (op ← h; persisting (persister_note_write id op) ;; k).
Proof.
  intros Hd Hh Hk s e Hs. pose proof (links_noted _ _ _ id plain Hd Hh s e Hs) as Hw.
  unfold wp, mbind, M_bind in *. destruct (h s e) as [[[op s1] e1]|]; [|done].
  destruct (persisting _ s1 e1) as [[[[] s2] e2]|]; [|done]. by apply Hk.
Qed.

(** ** Batches *)

Lemma links_start_batch {B} action m' (k : Z -> M SimIo Raft B) :
  (forall id, links (Open id true) m' (k id)) -> links Idle m' (start_batch action ≫= k).
Proof.
  intros Hk s e Hs. apply wp_bind. unfold start_batch. wp_step. wp_step. wp_step. apply wp_lift. intros [id p] Hp0.
  do 3 wp_step. apply Hk. split; [apply Hs|]. intros w Ew. destruct (proj2 Hs w Ew) as (dk & G & d & l & Done & HL & _).
  destruct (link_started _ _ _ _ _ _ _ _ _ _ action p id Hp0 HL) as (HL' & Ht & Hp).
  by exists dk, G, d, l, Done.
Qed.
Lemma links_note_file id file : links (Open id true) Idle (persisting (persister_note_file id file)).
Proof.
  intros s e Hs. apply wp_modify. split; [apply Hs|]. intros w Ew.
  destruct (proj2 Hs w Ew) as (dk & G & d & l & Done & HL & _ & Hp). exists dk, G, d, l, Done.
  split; [|done]. apply link_filed; auto.
Qed.
Lemma links_write_hard_state id : links (Open id true) (Open id false) (write_hard_state id).
Proof.
  intros s e Hs. unfold write_hard_state, persisting. do 7 wp_step. cbn [r_term r_voted_for r_state_seq].
  eapply wp_mono; [apply disk_op_write_at; [apply Hs|intros w E; by eapply LinkedE_rng]|].
  intros op s1 e1 (-> & Hv & Hw'). do 3 wp_step. split; [done|].
  intros w' Ew'. destruct (Hw' w' Ew') as (w & Ew & Hrq). destruct (proj2 Hs w Ew) as (dk & G & d & l & Done & HL & Ht & Hp).
  destruct (link_state v G0 D dk G d l Done s w w' id op ltac:(done) Ht (Hp eq_refl) Hrq HL) as ((dk' & G' & d' & l' & Done' & HL') & Ht').
  exists dk', G', d', l', Done'. split; [exact HL'|]. by split.
Qed.
Lemma links_clamp cap f :
  (forall s, link_view (f s) = link_view (s ⟨ r_persister := persister_clamp_all cap (r_persister s) ⟩)) -> links Idle Idle (modify f).
Proof.
  intros Hf s e Hs. apply wp_modify. split; [apply Hs|]. intros w Ew. destruct (proj2 Hs w Ew) as (dk & G & d & l & Done & HL & _).
  exists dk, G, d, l, Done. split; [|done]. eapply link_view_eq; [apply Hf|]. by apply link_clamped.
Qed.
Lemma links_note_sync id file :
  links (Ready id file) Idle (op ← sync file; persisting (persister_note_sync id op)).
Proof.
  intros s e Hs. apply wp_bind. eapply wp_mono; [apply disk_op_sync; [apply Hs|intros w E; by eapply LinkedE_rng]|].
  intros op s' e' (-> & Hv & Hw'). apply wp_modify. split; [done|]. intros w' Ew'. destruct (Hw' w' Ew') as (w & Ew & Hrq).
  destruct (proj2 Hs w Ew) as (dk & G & d & l & Done & HL & b & Hb & Hid & Hz & Hf).
  destruct (link_sync_noted v G0 D dk G d l Done s w w' id file op b Hb Hid Hz Hf Hrq HL) as (dk' & G' & d' & l' & Done' & HL').
  by exists dk', G', d', l', Done'.
Qed.
(** The hard state of a batch that is done becomes the durable one. *)
Lemma links_hold h b : links (Holds h) Idle (when b (modify (fun s => s ⟨ r_durable_hard_state := h ⟩))).
Proof.
  destruct b; [|eapply links_idle, links_ret]. intros s e Hs. apply wp_modify. split; [apply Hs|]. intros w Ew.
  destruct (proj2 Hs w Ew) as (dk & G & d & l & Done & HL & Hh & Hle). exists dk, G, d, l, Done. split; [|done].
  by apply link_durable.
Qed.
(** What a completion makes of the node, by what its batch then waits for. *)
Definition next_mode (ev : BatchEvent) : mode :=
  match ev with
  | BeNeedSync id file => Ready id file
  | BeDone _ (Some h) => Holds h
  | _ => Idle
  end.
Lemma links_complete op ok ev p s e :
  (ok = true -> D op) -> persister_on_complete op ok (r_persister s) = Some (ev, p) -> LinkedE Old s e ->
  LinkedE (next_mode ev) (s ⟨ r_persister := p ⟩) e.
Proof.
  intros Hop Hc [Hv Hw]. split; [done|]. intros w Ew. destruct (Hw w Ew) as (dk & G & d & l & Done & HL & Hold).
  destruct (link_completed _ _ _ _ _ _ _ _ _ _ op ok ev p Hc ltac:(intros Hok; eapply lk_known; eauto) Hold HL) as [HL' Hev].
  exists dk, G, d, l, Done. split; [done|]. destruct ev as [|id file|a [h|]|]; try done; simpl.
  - destruct ok.
    + destruct (persister_need_sync _ _ _ _ _ Hc) as (b & ? & ? & ? & ? & _). by exists b.
    + exfalso. unfold persister_on_complete in Hc. by destruct (pending_take op _) as [[[]]|].
  - by apply (Hev a h).
Qed.

Lemma links_write_then {B} id m' (k : M SimIo Raft B) :
  links (Open id false) m' k -> links (Open id true) m' (write_hard_state id ;; k).
Proof. intros Hk. eapply links_bind; [apply links_write_hard_state|]. by intros _. Qed.
Lemma links_file_then {B} id file m' (k : M SimIo Raft B) :
  links Idle m' k -> links (Open id true) m' (persisting (persister_note_file id file) ;; k).
Proof. intros Hk. eapply links_bind; [apply links_note_file|]. by intros _. Qed.
Lemma links_write_last id : links (Open id true) Idle (write_hard_state id).
Proof. eapply links_idle, links_write_hard_state. Qed.

End Lent.

Create HintDb links discriminated.
#[export] Hint Resolve links_ret links_get links_lift links_panic links_now links_set_timer links_cancel_timer links_observe
  links_send_bytes links_write_hard_state links_write_last links_note_file : links.
#[export] Hint Extern 1 (links _ _ _ _ _ (add64 _ _)) => (simple apply links_lift) : links.
#[export] Hint Extern 1 (links _ _ _ _ _ (sub64 _ _)) => (simple apply links_lift) : links.
#[export] Hint Extern 2 (links _ _ _ _ _ (modify _)) => (simple apply links_modify; intro; reflexivity) : links.

Lemma snapshot_file_elsewhere s : next_snapshot_file s <> FILE_WAL.
Proof. unfold next_snapshot_file. by repeat case_match. Qed.

(** A request, and that it leaves the slots alone. *)
Ltac ask :=
  lazymatch goal with
  | |- disk_op _ _ _ (write_at _ _ _) => simple apply disk_op_write_at
  | |- disk_op _ _ _ (set_len _ _) => simple apply disk_op_set_len
  | |- disk_op _ _ _ (sync _) => simple apply disk_op_sync
  | |- harmless _ (DeSync _) => right; exact I
  | |- harmless FILE_WAL (DeWriteAt _ _ _) => right; exact (Nat.le_add_r _ _)
  | |- harmless FILE_WAL (DeSetLen _ LOG_REGION) => right; exact (le_n _)
  | |- harmless FILE_WAL (DeSetLen _ _) => right; exact (Nat.le_add_r _ _)
  | |- harmless (next_snapshot_file _) _ => left; apply snapshot_file_elsewhere
  end.
(** Walk through a handler's code. *)
Ltac links_step :=
  first
    [ solve [auto with links]
    | solve [lazymatch goal with |- links _ _ _ ?m Idle _ => simple apply (links_idle _ _ _ m m); auto with links end]
    | lazymatch goal with
      | |- links _ _ _ _ _ (start_batch _ ≫= _) => simple apply links_start_batch; intro
      | |- links _ _ _ _ _ (write_hard_state ?id ≫= ?k) =>
          simple apply links_write_then;
          lazymatch k with context [id] => idtac | _ => simple apply links_from_idle end
      | |- links _ _ _ _ _ (persisting (persister_note_file _ _) ≫= _) => simple apply links_file_then
      | |- links _ _ _ (Open _ _) _ (_ ≫= fun op => persisting (persister_note_write _ op) ≫= _) =>
          eapply links_noted_then; [ask|ask|]
      | |- links _ _ _ (Open ?id ?b) Idle (_ ≫= fun op => persisting (persister_note_write _ op)) =>
          apply (links_idle _ _ _ _ (Open id b)); eapply links_noted; [ask|ask]
      | |- links _ _ _ (Open _ _) (Open _ _) (_ ≫= fun op => persisting (persister_note_write _ op)) =>
          eapply links_noted; [ask|ask]
      | |- links _ _ _ Idle Idle (set_len _ _) => eapply links_disk_op; [ask|ask]
      | |- links _ _ _ Idle Idle (sync _) => eapply links_disk_op; [ask|ask]
      | |- links _ _ _ _ _ (_ ≫= _) => simple apply links_keep; [|intro]
      | |- links _ _ _ _ _ (when _ _) => simple apply links_when
      | |- links _ _ _ _ _ (for_each _ _) => simple apply links_for_each; intro
      | |- links _ _ _ _ _ (match ?x with _ => _ end) => destruct x
      | |- links _ _ _ _ _ ?m => let h := head_of m in progress unfold h
      end ].
Ltac links := intros; repeat (cbv beta zeta; links_step).

Section Walk.
Context (v : NodeId) (G0 : list HardState) (D : OpId -> Prop).
Abbreviation links m m' h := (links v G0 D m m' h).
Abbreviation still h := (links Idle Idle h).

Lemma links_send m to msg : links m m (send to msg).
Proof. links. Qed.
Lemma links_bump_by m (f : RaftStats -> Z) `{!Setter f} n : links m m (bump_by f n).
Proof. links. Qed.
Lemma links_bump m (f : RaftStats -> Z) `{!Setter f} : links m m (bump f).
Proof. apply links_bump_by. Qed.
Lemma links_reset_election m : links m m reset_election_timer.
Proof. links. Qed.
Lemma links_reset_heartbeat m : links m m reset_heartbeat_timer.
Proof. links. Qed.
Lemma links_disarm_heartbeat m : links m m disarm_heartbeat.
Proof. links. Qed.
Lemma links_refresh_config m : links m m refresh_config.
Proof. links. Qed.
#[local] Hint Resolve links_send links_bump_by links_bump links_reset_election links_reset_heartbeat links_disarm_heartbeat
  links_refresh_config : links.

Lemma links_write_log id b from truncated : links (Open id b) (Open id b) (write_log_from id from truncated).
Proof. links. Qed.
#[local] Hint Resolve links_write_log : links.
Lemma links_persist_log from truncated reply_to reply_term verified :
  still (persist_log_from from truncated reply_to reply_term verified).
Proof. links. Qed.
#[local] Hint Resolve links_persist_log : links.
Lemma links_send_append to : still (send_append_to to).
Proof. links. Qed.
#[local] Hint Resolve links_send_append : links.
Lemma links_advance_loop m fuel cap : links m m (advance_loop fuel cap).
Proof. induction fuel; simpl; links. Qed.
#[local] Hint Resolve links_advance_loop : links.
Lemma links_advance_durable m : links m m advance_durable.
Proof. links. Qed.
#[local] Hint Resolve links_advance_durable : links.
Lemma links_maybe_commit : still maybe_commit.
Proof. links. Qed.
#[local] Hint Resolve links_maybe_commit : links.
Lemma links_step_down term : still (step_down term).
Proof. links. Qed.
#[local] Hint Resolve links_step_down : links.
Lemma links_step_down_and_persist term : still (step_down_and_persist term).
Proof. links. Qed.
#[local] Hint Resolve links_step_down_and_persist : links.
Lemma links_become_leader : still become_leader.
Proof. links. Qed.
#[local] Hint Resolve links_become_leader : links.
Lemma links_become_candidate : still become_candidate.
Proof. links. Qed.
#[local] Hint Resolve links_become_candidate : links.
Lemma links_decide_vote from candidate i t dirty : still (decide_vote from candidate i t dirty).
Proof. links. Qed.
#[local] Hint Resolve links_decide_vote : links.
Lemma links_truncate at' : still (truncate at').
Proof.
  unfold truncate. do 7 (apply links_keep; [links|intro]). apply links_keep; [links|intros cap].
  apply (links_clamp _ _ _ cap). reflexivity.
Qed.
#[local] Hint Resolve links_truncate : links.
Lemma links_take_entries start conflict new : still (take_entries start conflict new).
Proof. links. Qed.
#[local] Hint Resolve links_take_entries : links.
Lemma links_append_matched from prev last es commit dirty : still (append_matched from prev last es commit dirty).
Proof. links. Qed.
#[local] Hint Resolve links_append_matched : links.
Lemma links_follow_leader leader : still (follow_leader leader).
Proof. links. Qed.
#[local] Hint Resolve links_follow_leader : links.
Lemma links_install_image from i t data : still (install_image from i t data).
Proof. links. Qed.
#[local] Hint Resolve links_install_image : links.
Lemma links_on_durable action : still (on_durable action).
Proof. links. Qed.
#[local] Hint Resolve links_on_durable : links.

Lemma links_on_message from msg : still (on_message from msg).
Proof. links. Qed.
Lemma links_on_timer tag : still (on_timer tag).
Proof. links. Qed.
Lemma links_note_durable h : links (Holds h) Idle (note_durable h).
Proof.
  unfold note_durable. apply links_keep; [links|intro]. eapply links_bind; [apply links_hold|]. links.
Qed.
Lemma links_on_storage op ok : (ok = true -> D op) -> links Old Idle (on_storage op ok).
Proof.
  intros Hop s e Hs. unfold on_storage. wp_step. wp_step. wp_step; [by eapply LinkedE_idle|].
  wp_step. apply wp_lift. intros [ev p] Hc. wp_step. wp_step.
  pose proof (links_complete _ _ _ op ok ev p s e Hop Hc Hs) as Hl. revert Hl. generalize (s ⟨ r_persister := p ⟩). clear.
  destruct ev as [|id file|a hard|]; simpl next_mode; intros s Hl.
  - done.
  - by apply links_note_sync.
  - assert (Hk : links (match hard with Some h => Holds h | None => Idle end) Idle
      (match hard with Some hs => note_durable hs | None => mret tt end ;; on_durable a)).
    { eapply links_bind; [|intros; apply links_on_durable]. destruct hard; [apply links_note_durable|apply links_ret]. }
    apply Hk. by destruct hard.
  - assert (Hk : still (modify (fun s => s ⟨ r_failed := true ⟩) ;; observe "io_failed" [])) by links. by apply Hk.
Qed.
Lemma links_propose cmd : still (propose cmd).
Proof. links. Qed.
Lemma links_propose_membership members : still (propose_membership members).
Proof. links. Qed.
Lemma links_request_read id : still (request_read id).
Proof. links. Qed.
Lemma links_take_snapshot data : still (take_snapshot data).
Proof. links. Qed.
End Walk.
