(* ===== verification/Served.v ===== *)
(** * Served: a key-value server lent the simulated world

    A server at rest is a node whose written hard states are what its disk holds
    or is about to hold ([rests]); a disk of a node that is down holds its last
    durable hard state or a later one ([stopped]).  Every event of the server
    leads from rest to rest, a crash from rest to a stopped disk, and a restart
    back, if the disk does not tear writes; on the way the ledger of votes of
    [Election] grows as it should. *)
From Stdlib Require Import String.
From S2P Require Import Prelude Codec Crc LogFormat RaftLog Recovery Durable Messages Config StateMachine Io Rng Draw.
From S2P Require Import Disk DiskSafety Faults Scheduler Net Trace World WorldRules Persister RaftState Raft RaftInv RaftRecover.
From S2P Require Import RaftSafety IoRules Server ServerRules Ballot Election Slots Journal Lent.
From Stdlib.Init Require Import Byte.
Local Open Scope Z_scope.

(** ** During an event *)

Section Served.
Context (v : NodeId) (G0 : list HardState) (D : OpId -> Prop) (asked got : NodeId -> Z -> Prop).
(** The node and its record when the event began. *)
Context (r0 : Raft) (e0 : Env SimIo).
Abbreviation links m m' h := (links v G0 D m m' h).

Record served (s : KvServer) (e : Env SimIo) : Prop := {
  sd_inv : Inv (sv_raft s);
  sd_durable : hs_le (r_durable_hard_state r0) (r_durable_hard_state (sv_raft s));
  sd_fair : Fair asked got r0 e0 (sv_raft s) e;
  sd_link : LinkedE v G0 D Idle (sv_raft s) e;
}.
Definition serves {A} (h : M SimIo KvServer A) : Prop :=
  forall s e, served s e -> wp h (fun _ s' e' => served s' e') s e.

Lemma serves_bind {A B} (h : M SimIo KvServer A) (k : A -> M SimIo KvServer B) :
  serves h -> (forall a, serves (k a)) -> serves (h ≫= k).
Proof. intros Hh Hk s e Hs. apply wp_bind. eapply wp_mono; [by apply Hh|]. intros a s' e'. apply Hk. Qed.
Lemma serves_ret {A} (a : A) : serves (mret a).
Proof. by intros s e Hs. Qed.
Lemma serves_get : serves get.
Proof. by intros s e Hs. Qed.
Lemma serves_lift {A} (o : option A) : serves (lift o).
Proof. intros s e Hs. apply wp_lift. by intros. Qed.
Lemma serves_when b h : serves h -> serves (when b h).
Proof. intros Hh. destruct b; [done|apply serves_ret]. Qed.
Lemma serves_for_each {A} (l : list A) (f : A -> M SimIo KvServer unit) : (forall a, serves (f a)) -> serves (for_each l f).
Proof. intros Hf. induction l as [|a l IH]; [apply serves_ret|]. apply serves_bind; [apply Hf|done]. Qed.
(** What is not the node's. *)
Lemma serves_modify f : (forall s, sv_raft (f s) = sv_raft s) -> serves (modify f).
Proof. intros Hf s e []. apply wp_modify. split; by rewrite Hf. Qed.

(** A reply to a client. *)
Lemma serves_reply to req_id o : serves (reply to req_id o).
Proof.
  intros s e []. unfold reply.
  assert (HL : wp (send_bytes to (message_encode (MClient (Reply req_id o))))
    (fun _ r' e' => LinkedE v G0 D Idle r' e' /\ r' = sv_raft s /\ Fair asked got r0 e0 r' e') (sv_raft s) e).
  { eapply wp_and; [by apply links_send_bytes|].
    eapply wp_mono; [apply (fair_request asked got _ (fun _ => EvSend to _)); [|done]|by intros [] r e1 [-> ?]].
    intros _. by exists (MClient (Reply req_id o)). }
  unfold wp, send_bytes, request in *. destruct HL as (HL & _ & HF). by split.
Qed.

(** A call into the node. *)
Lemma serves_raft {A} (h : M SimIo Raft A) :
  (forall s e, Inv s -> wp h (fun _ s' e' => Good s e s' e') s e) ->
  (forall s e, Fair asked got r0 e0 s e -> wp h (fun _ s' e' => Fair asked got r0 e0 s' e') s e) ->
  links Idle Idle h -> serves (on_raft_node h).
Proof.
  intros HG HF HL s e [].
  assert (Hw : wp h (fun _ r e' => Good (sv_raft s) e r e' /\ Fair asked got r0 e0 r e' /\ LinkedE v G0 D Idle r e') (sv_raft s) e)
    by (apply wp_and; [by apply HG|]; apply wp_and; [by apply HF|by apply HL]).
  unfold wp, on_raft_node, zoom in *. destruct (h (sv_raft s) e) as [[[a r] e1]|]; [|done].
  destruct Hw as ([Hi HG'] & HF' & HL'). split; [done| |done|done]. simpl. etrans; [done|]. apply HG'.
Qed.
(** The call the event begins with. *)
Lemma serves_first {A} (h : M SimIo Raft A) m s :
  sv_raft s = r0 -> Inv r0 -> LinkedE v G0 D m r0 e0 ->
  wp h (fun _ s' e' => Good r0 e0 s' e') r0 e0 -> wp h (fun _ s' e' => Fair asked got r0 e0 s' e') r0 e0 ->
  links m Idle h -> wp (on_raft_node h) (fun _ s' e' => served s' e') s e0.
Proof.
  intros Hs Hi Hl HG HF HL.
  assert (Hw : wp h (fun _ r e' => Good r0 e0 r e' /\ Fair asked got r0 e0 r e' /\ LinkedE v G0 D Idle r e') r0 e0)
    by (apply wp_and; [done|]; apply wp_and; [done|by apply HL]).
  unfold wp, on_raft_node, zoom in *. rewrite Hs. destruct (h r0 e0) as [[[a r] e1]|]; [|done].
  destruct Hw as ([Hi' HG'] & HF' & HL'). split; [done|apply HG'|done|done].
Qed.

(** A method of the node that makes no requests. *)
Lemma serves_pure {A} (f : Raft -> A * Raft) :
  (forall r (e : Env SimIo), Inv r -> Good r e (f r).2 e) ->
  (forall r (e : Env SimIo), Fair asked got r0 e0 r e -> Fair asked got r0 e0 (f r).2 e) ->
  (forall r, link_view (f r).2 = link_view r) -> serves (on_raft_pure f).
Proof.
  intros HG HF HL. unfold on_raft_pure. intros s e Hs. wp_step. wp_step.
  destruct (f (sv_raft s)) as [a r] eqn:E. do 3 wp_step. destruct Hs.
  specialize (HG _ e sd_inv0). specialize (HF _ e sd_fair0). specialize (HL (sv_raft s)). rewrite E in *. simpl in *.
  destruct HG as [Hi HG]. split; simpl; [done| |done|].
  - etrans; [done|]. apply HG.
  - by eapply LinkedE_view.
Qed.
End Served.

Create HintDb serves discriminated.
#[export] Hint Resolve serves_ret serves_get serves_lift serves_reply : serves.
#[export] Hint Extern 1 (serves _ _ _ _ _ _ _ (add64 _ _)) => (simple apply serves_lift) : serves.
#[export] Hint Extern 2 (serves _ _ _ _ _ _ _ (modify _)) => (simple apply serves_modify; intro; reflexivity) : serves.
(** Walk through a handler's code. *)
Ltac serves_step :=
  first
    [ solve [auto with serves]
    | lazymatch goal with
      | |- serves _ _ _ _ _ _ _ (_ ≫= _) => simple apply serves_bind; [|intro]
      | |- serves _ _ _ _ _ _ _ (when _ _) => simple apply serves_when
      | |- serves _ _ _ _ _ _ _ (for_each _ _) => simple apply serves_for_each; intro
      | |- serves _ _ _ _ _ _ _ (match ?x with _ => _ end) => destruct x
      | |- serves _ _ _ _ _ _ _ ?m => let h := head_of m in progress unfold h
      end ].
Ltac serves := intros; repeat (cbv beta zeta; serves_step).

Section Events.
Context (v : NodeId) (G0 : list HardState) (D : OpId -> Prop) (asked got : NodeId -> Z -> Prop).
Context (r0 : Raft) (e0 : Env SimIo).
Abbreviation serves h := (serves v G0 D asked got r0 e0 h).
Abbreviation served := (served v G0 D asked got r0 e0).

Lemma serves_take_snapshot data : serves (on_raft_node (take_snapshot data)).
Proof.
  apply serves_raft; [|apply fair_take_snapshot|apply links_take_snapshot].
  intros s e Hi. by apply keeps_take_snapshot, Good_refl.
Qed.
Lemma serves_propose cmd : serves (on_raft_node (propose cmd)).
Proof.
  apply serves_raft; [|apply fair_propose|apply links_propose]. intros s e Hi. by apply keeps_propose, Good_refl.
Qed.
Lemma serves_request_read id : serves (on_raft_node (request_read id)).
Proof.
  apply serves_raft; [|apply fair_request_read|apply links_request_read].
  intros s e Hi. by apply keeps_request_read, Good_refl.
Qed.
Lemma serves_take_restore : serves (on_raft_pure take_pending_restore).
Proof.
  apply serves_pure; [| |done]; intros r e Hr; [apply (Good_refl r e) in Hr|]; simpl; [good_tac|fair_tac].
Qed.
Lemma serves_take_applied : serves (on_raft_pure take_applied).
Proof.
  apply serves_pure.
  - intros r e Hr. by apply keeps_take_applied, Good_refl.
  - intros r e Hr. unfold take_applied. destruct (take_applied_loop _ _ _ _). simpl. fair_tac.
  - intros r. unfold take_applied. by destruct (take_applied_loop _ _ _ _).
Qed.
Lemma serves_take_ready : serves (on_raft_pure take_ready_reads).
Proof.
  apply serves_pure.
  - intros r e Hr. apply (Good_refl r e) in Hr. unfold take_ready_reads. case_match; [done|]. simpl. good_tac.
  - intros r e Hr. unfold take_ready_reads. case_match; [done|]. simpl. fair_tac.
  - intros r. unfold take_ready_reads. by case_match.
Qed.
Lemma serves_take_failed : serves (on_raft_pure take_failed_reads).
Proof.
  apply serves_pure.
  - intros r e Hr. apply (Good_refl r e) in Hr. unfold take_failed_reads. case_match; [done|]. simpl. good_tac.
  - intros r e Hr. unfold take_failed_reads. case_match; [done|]. simpl. fair_tac.
  - intros r. unfold take_failed_reads. by case_match.
Qed.
#[local] Hint Resolve serves_take_snapshot serves_propose serves_request_read serves_take_restore serves_take_applied
  serves_take_ready serves_take_failed : serves.

Lemma serves_drop_all : serves drop_all_waiting.
Proof. serves. Qed.
#[local] Hint Resolve serves_drop_all : serves.
Lemma serves_adopt_snapshot : serves adopt_snapshot.
Proof. serves. Qed.
#[local] Hint Resolve serves_adopt_snapshot : serves.
Lemma serves_drain : serves drain.
Proof. serves. Qed.
#[local] Hint Resolve serves_drain : serves.
Lemma serves_propose_request from req_id client seq op : serves (propose_request from req_id client seq op).
Proof. serves. Qed.
#[local] Hint Resolve serves_propose_request : serves.
Lemma serves_on_request from req_id client seq op : serves (on_request from req_id client seq op).
Proof. serves. Qed.
Lemma serves_bad_message : serves (sbump ss_bad_messages).
Proof. serves. Qed.

(** What an event may assume, and how the link stands when it begins. *)
Definition event_fits (ev : server_event) : Prop :=
  match ev with
  | SvBytes from bytes => forall m, message_decode bytes = Ok (MRaft m) -> answers asked got r0 from m
  | SvStorage op ok => ok = true -> D op
  | _ => True
  end.

Lemma served_first {A B} (h : M SimIo Raft A) (k : A -> M SimIo KvServer B) m s :
  sv_raft s = r0 -> Inv r0 -> LinkedE v G0 D m r0 e0 ->
  wp h (fun _ s' e' => Good r0 e0 s' e') r0 e0 -> wp h (fun _ s' e' => Fair asked got r0 e0 s' e') r0 e0 ->
  links v G0 D m Idle h -> (forall a, serves (k a)) -> wp (on_raft_node h ≫= k) (fun _ s' e' => served s' e') s e0.
Proof.
  intros Hs Hi Hl HG HF HL Hk. apply wp_bind. eapply wp_mono; [by eapply (serves_first v G0 D asked got r0 e0)|].
  intros a s' e'. apply Hk.
Qed.

Lemma served_handle ev s :
  sv_raft s = r0 -> Inv r0 -> Ballot asked got r0 -> LinkedE v G0 D Old r0 e0 -> event_fits ev ->
  wp (server_handle ev) (fun _ s' e' => served s' e') s e0.
Proof.
  intros Hs Hi Hb Hl Hev.
  assert (HG : Good r0 e0 r0 e0) by by apply Good_refl.
  assert (HF : Fair asked got r0 e0 r0 e0) by by apply Fair_refl.
  assert (Hidle : LinkedE v G0 D Idle r0 e0) by by eapply LinkedE_idle.
  assert (Hstart : served s e0) by (split; by rewrite Hs).
  destruct ev as [from bytes|tag|op ok|members]; simpl server_handle.
  - unfold on_bytes. destruct (message_decode bytes) as [[m|[req_id client seq op|req_id o]]|err] eqn:Em.
    + unfold server_on_raft. eapply served_first;
        [done|done|exact Hidle|by apply keeps_on_message| |apply links_on_message|by intros []; apply serves_drain].
      apply fair_on_message; [done| |by apply Hev]. destruct Hi. destruct inv_chain as [_ Hc _]. rewrite Forall_forall in Hc. apply Hc. left.
    + by apply serves_on_request.
    + by apply serves_bad_message.
    + by apply serves_bad_message.
  - unfold server_on_timer. eapply served_first;
        [done|done|exact Hidle|by apply keeps_on_timer|by apply fair_on_timer|apply links_on_timer|by intros []; apply serves_drain].
  - unfold server_on_storage. eapply served_first;
        [done|done|exact Hl|by apply keeps_on_storage| |by apply links_on_storage|by intros []; apply serves_drain].
    apply fair_on_storage; [done|]. apply Hi.
  - unfold server_propose_membership. eapply served_first; [done|done|exact Hidle| | |apply links_propose_membership|].
    + by apply keeps_propose_membership.
    + by apply fair_propose_membership.
    + intros a. apply serves_ret.
Qed.
End Events.

(** ** Between events *)

(** [D] are operations whose success is known although no completion is queued. *)
Definition rests (D : OpId -> Prop) (v : NodeId) (r : Raft) (w : World) : Prop :=
  exists dk G d l Done, Link v G D dk G d l Done r w /\ chain (current_hs r) (G ++ written r) /\ Forall hard_state_ok G.
Definition known : OpId -> Prop := fun _ => False.

Lemma rests_old D v r w :
  rests D v r w -> exists G, chain (current_hs r) (G ++ written r) /\ Forall hard_state_ok G /\ LinkedW v G D Old r w.
Proof.
  intros (dk & G & d & l & Done & HL & Hch & Hok). exists G. split; [done|]. split; [done|].
  exists dk, G, d, l, Done. split; [done|]. by intros g.
Qed.

(** What the node wrote during an event goes on the chain. *)
Lemma chain_grows {W} asked got r r' (e e' : Env W) G0 :
  chain (current_hs r) (G0 ++ written r) -> Inv r' -> BallotFacts asked got r e r' e' ->
  chain (current_hs r') (G0 ++ written r').
Proof.
  intros [Hs Hc Hl] Hi []. destruct (inv_chain _ Hi) as [Hs' Hc' Hl'].
  rewrite Forall_forall in Hs, Hc, Hs', Hc'.
  assert (Hcur : hs_le (current_hs r) (current_hs r')) by by apply current_le.
  assert (Hold : forall a, a ∈ G0 -> a ∈ G0 ++ written r) by (intros; apply elem_of_app; by left).
  assert (Hnew : forall b, b ∈ written r' -> b ∈ G0 ++ written r \/ written_since r b).
  { intros b [?|?]%bf_written; [left; apply elem_of_app|]; auto. }
  split.
  - apply Forall_forall. intros a [Ha|Ha]%elem_of_app; [|by apply Hs'].
    specialize (Hs a (Hold a Ha)). simpl in *. lia.
  - apply Forall_forall. intros a [Ha|Ha]%elem_of_app; [|by apply Hc'].
    etrans; [|exact Hcur]. by apply Hc, Hold.
  - intros a b [Ha|Ha]%elem_of_app [Hb|Hb]%elem_of_app Hab; [apply Hl; auto| | |by apply Hl'].
    + destruct (Hnew b Hb) as [?|(_ & _ & Hle)]; [apply Hl; auto|]. etrans; [|exact Hle]. by apply Hc, Hold.
    + destruct (Hnew a Ha) as [?|(Hseq & _)]; [apply Hl; auto|]. specialize (Hs b (Hold b Hb)). simpl in *. lia.
Qed.

Lemma rests_after {W} D v asked got r r' (e e' : Env W) w' G0 :
  chain (current_hs r) (G0 ++ written r) -> Forall hard_state_ok G0 -> LinkedW v G0 D Idle r' w' ->
  Inv r' -> BallotFacts asked got r e r' e' -> (forall h, h ∈ written r' -> state_fits h) -> rests known v r' w'.
Proof.
  intros Hch Hok (dk & G & d & l & Done & HL & _) Hi HF Hfit. exists dk, G, d, l, Done.
  assert (Hin : forall g, g ∈ G -> g ∈ G0 ++ written r').
  { intros g Hg. apply elem_of_app. destruct (lk_new _ _ _ _ _ _ _ _ _ _ HL g Hg) as [?|?]; [by left|right]. by right. }
  split; [|split].
  - destruct HL. split; try done. by left.
  - eapply chain_subset; [|by eapply chain_grows]. intros h [Hh|Hh]%elem_of_app; [auto|]. apply elem_of_app. by right.
  - apply Forall_forall. intros g Hg. destruct (elem_of_app G0 (written r') g) as [Hc _].
    destruct (Hc (Hin g Hg)) as [?|Hw]; [rewrite Forall_forall in Hok; auto|].
    destruct (Hfit g Hw) as [Ht Hv]. destruct (lk_seq _ _ _ _ _ _ _ _ _ _ HL g Hg) as [? _].
    unfold hard_state_ok. split_and?; done.
Qed.

(** The world moves without the node. *)
Lemma rests_elsewhere D D' v r w w' :
  rng_ok (wd_rng w') -> wd_disks w' !! node_idx v = wd_disks w !! node_idx v ->
  (forall e op, e ∈ sc_queue (wd_sched w') -> succeeded v op (se_event e) -> e ∈ sc_queue (wd_sched w)) ->
  (forall op, D' op -> D op) -> rests D v r w -> rests D' v r w'.
Proof.
  intros Hr Hd Hq HD (dk & G & d & l & Done & HL & Hch & Hok). exists dk, G, d, l, Done. split; [|done].
  apply (link_elsewhere _ _ _ _ _ _ _ _ _ _ w'  Hr Hd Hq) in HL. destruct HL. split; eauto.
Qed.

(** The event that is about to be handled was queued. *)
Lemma rests_known v r w op e :
  e ∈ sc_queue (wd_sched w) -> succeeded v op (se_event e) -> rests known v r w -> rests (eq op) v r w.
Proof.
  intros He Hs (dk & G & d & l & Done & HL & Hch & Hok). exists dk, G, d, l, Done. split; [|done].
  destruct HL. split; try done. intros o <-. eauto.
Qed.

(** ** A crash *)

Record stopped_at (v : NodeId) (dk : Disk) (G : list HardState) (d : HardState) (w : World) : Prop := {
  sp_at : wd_disks w !! node_idx v = Some dk;
  sp_torn : dc_torn_write_ppm (dk_cfg dk) = 0;
  sp_image : image_ok G d (sf_durable (disk_file dk FILE_WAL));
  sp_cache : sf_cache (disk_file dk FILE_WAL) = sf_durable (disk_file dk FILE_WAL);
  sp_pending : sf_pending (disk_file dk FILE_WAL) = [];
  sp_d : d ∈ G;
  sp_zero : hard_state_default ∈ G;
  sp_ok : Forall hard_state_ok G;
  sp_order : forall a b, a ∈ G -> b ∈ G -> hs_seq a <= hs_seq b -> hs_le a b;
  sp_queue : forall e op, e ∈ sc_queue (wd_sched w) -> ~ succeeded v op (se_event e);
}.
(** The node is down; every vote of it is in the hard state its disk holds. *)
Definition stopped (k : Ledger) (v : NodeId) (w : World) : Prop :=
  exists dk G d, stopped_at v dk G d w /\ settled k v d.

Lemma stopped_elsewhere k v w w' :
  wd_disks w' !! node_idx v = wd_disks w !! node_idx v ->
  (forall e op, e ∈ sc_queue (wd_sched w') -> succeeded v op (se_event e) -> e ∈ sc_queue (wd_sched w)) ->
  stopped k v w -> stopped k v w'.
Proof.
  intros Hd Hq (dk & G & d & [] & Hs). exists dk, G, d. split; [|done]. split; try done; [by rewrite Hd|].
  intros e op He Hsu. by eapply sp_queue0; [eapply Hq|].
Qed.

Lemma draws_crash_any cfg f st : draws (crash_file cfg f st) (fun _ => True).
Proof. eapply draws_true. apply (draws_crash_file _ _ _ 0 0); [|lia]. apply Forall_true. intros [|]; simpl; lia. Qed.
Lemma draws_disk_crash_frame d :
  draws (disk_crash d) (fun d' => dk_cfg d' = dk_cfg d /\ forall i, dk_files d !! i = None -> dk_files d' !! i = None).
Proof.
  unfold disk_crash. eapply draws_bind; [apply draws_disk_count|]. intros d1 [st ->]. simpl.
  apply (draws_fold _ _ (fun d' => dk_cfg d' = dk_cfg d /\ forall i, dk_files d !! i = None -> dk_files d' !! i = None)); [done|].
  intros [i f] d2 Hin%by_index_elem [Hc Hf]. unfold crash_step. eapply draws_skip; [by eapply draws_crash_any|].
  intros [f' st']. draws_step. simpl. split; [done|]. intros j Hj. rewrite lookup_insert_ne; [auto|]. intros ->. congruence.
Qed.

Lemma rests_crash k D v r w w' :
  rng_ok (wd_rng w) -> is_up v w = Some true -> crash_node v w = Some w' -> rests D v r w -> voter k v r -> stopped k v w'.
Proof.
  intros Hr Hup Hc (dk & G & d & l & Done & HL & Hch & Hok) Hv. pose proof HL as []. unfold crash_node in Hc.
  rewrite Hup in Hc. simpl in Hc. rewrite lk_at in Hc. simpl in Hc.
  destruct (disk_crash dk (wd_rng w)) as [[dk' rng]|] eqn:Ec; [|done]. simpl in Hc.
  destruct (wd_incarnation w !! node_idx v) as [inc|]; [|done]. simpl in Hc.
  destruct (u64_add inc 1) as [inc'|]; [|done]. simpl in Hc. unfold world_observe in Hc.
  destruct (trace_observe _ _ _ _ _) as [t|]; [|done]. injection Hc as <-.
  assert (Hfile : dk_cfg dk' = dk_cfg dk /\ image_ok G d (sf_durable (disk_file dk' FILE_WAL)) /\
    sf_cache (disk_file dk' FILE_WAL) = sf_durable (disk_file dk' FILE_WAL) /\ sf_pending (disk_file dk' FILE_WAL) = []).
  { destruct (draws_disk_crash_frame dk _ _ _ Hr Ec) as [[Ecfg Hnone] _]. split; [done|].
    destruct (dk_files dk !! FILE_WAL) as [f|] eqn:Ef.
    - destruct (draws_disk_crash (fun i f f' => i = FILE_WAL -> wal_ok G d l f -> image_ok G d (sf_durable f') /\
        sf_cache f' = sf_durable f' /\ sf_pending f' = []) dk) with (r := wd_rng w) (a := dk') (r' := rng) as [HP _]; [|done..|].
      { intros i g st _ q a q' Hq E. destruct (draws_crash_any _ _ _ _ _ _ Hq E) as [_ Hq']. split; [|done].
        intros _ Hg. by destruct (draws_crash_wal _ _ _ _ _ _ lk_torn Hg _ _ _ Hq E). }
      destruct (HP _ _ Ef) as (f' & Ef' & Hf'). unfold disk_file. rewrite Ef'. simpl. apply Hf'; [done|].
      unfold disk_file in lk_wal. by rewrite Ef in lk_wal.
    - unfold disk_file in *. rewrite (Hnone _ Ef). rewrite Ef in lk_wal. simpl in *. split; [apply lk_wal|done]. }
  destruct Hfile as (Ecfg & Him & Hca & Hpe). destruct Hch as [_ _ Hle].
  assert (Hin : forall g, g ∈ G -> g ∈ G ++ written r) by (intros; apply elem_of_app; by left).
  exists dk', G, d. split.
  - split; simpl; try done.
    + apply list_lookup_insert_eq. by eapply lookup_lt_Some.
    + by rewrite Ecfg.
    + apply lk_wal.
    + intros a b Ha Hb. apply Hle; auto.
    + intros e op He%list_elem_of_In%filter_In Hs. destruct He as [_ He]. unfold succeeded in Hs. rewrite Hs in He.
      simpl in He. by rewrite Z.eqb_refl in He.
  - intros u c Hk. eapply vote_stays_le; [|by eapply vt_settled]. apply Hle; [apply elem_of_app; right; left|apply Hin, lk_wal|done].
Qed.

(** ** An event of a server at rest *)

(** The ledger grows by votes of [v], and the requests in [evs] say nothing that is not in it. *)
Record advances (k k' : Ledger) (v : NodeId) (evs : list IoEvent) : Prop := {
  ad_ok : ledger_ok k';
  ad_le : ledger_le k k';
  ad_back : forall u t c, u <> v -> k' u t c -> k u t c;
  ad_sent : forall to bytes, EvSend to bytes ∈ evs -> payload_fact k' v to bytes;
}.

Definition event_known (ev : server_event) : OpId -> Prop :=
  match ev with SvStorage op true => eq op | _ => known end.
(** What arrives says what is in the ledger, or was corrupted on the way. *)
Definition heard (k : Ledger) (from to : NodeId) (bytes : list byte) : Prop :=
  payload_fact k from to bytes \/ exists err, message_decode bytes = Err err.
Definition event_heard (k : Ledger) (v : NodeId) (ev : server_event) : Prop :=
  match ev with SvBytes from bytes => heard k from v bytes | _ => True end.
(** It leads a term it led before, or won an election of. *)
Definition leads_fairly (k : Ledger) (v : NodeId) (r r' : Raft) : Prop :=
  r_role r' = Leader -> (r_role r = Leader /\ r_term r' = r_term r) \/ won k (r_members r') (r_term r') v.

Lemma voter_advances {W} `{Io W} k v r r' (e e' : Env W) :
  ledger_ok k -> voter k v r -> Inv r' -> hs_le (r_durable_hard_state r) (r_durable_hard_state r') ->
  Fair (asked_in k) (got_in k v) r e r' e' ->
  exists k' new, env_trace e' = env_trace e ++ new /\ advances k k' v new /\ voter k' v r' /\ leads_fairly k' v r r'.
Proof.
  intros Hk Hv Hi Hd HF. destruct (voter_event k v r r' e e' Hk Hv Hi Hd HF) as (Hk' & Hv' & (new & Hn & Hs) & Hl).
  exists (entered k v r r'), new. split; [done|]. split; [|done]. split; [done|apply entered_le| |done].
  intros u t c Hne [?|(? & _)]; done.
Qed.

Lemma event_answered k v r ev :
  ledger_ok k -> voter k v r -> event_heard k v ev -> event_fits (event_known ev) (asked_in k) (got_in k v) r ev.
Proof.
  intros Hk Hv Hh. destruct ev as [from bytes|tag|op ok|members]; simpl; try done; [|by intros ->].
  intros m Hm. destruct Hh as [Hh|[err Herr]]; [|congruence].
  assert (Hid : r_id r = v) by apply Hv. rewrite <-Hid in *. by eapply payload_answers.
Qed.

Lemma server_event_lifts k v s ev w :
  ledger_ok k -> voter k v (sv_raft s) -> rests (event_known ev) v (sv_raft s) w -> event_heard k v ev ->
  wp (server_handle ev) (fun _ s' e' => exists k', advances k k' v (env_trace e') /\ voter k' v (sv_raft s') /\
      leads_fairly k' v (sv_raft s) (sv_raft s') /\
      forall w', si_world (env_world e') = Some w' -> rests known v (sv_raft s') w')
    s (mkEnv (mkSimIo (Some w) v) []).
Proof.
  intros Hk Hv Hr Hh. destruct (rests_old _ _ _ _ Hr) as (G & Hch & Hok & HL).
  set (e0 := mkEnv (mkSimIo (Some w) v) []).
  assert (Hlink : LinkedE v G (event_known ev) Old (sv_raft s) e0) by (split; [done|]; by intros ? [= <-]).
  eapply wp_mono; [eapply (served_handle v G (event_known ev) (asked_in k) (got_in k v) (sv_raft s) e0 ev s); try done; try apply Hv|].
  { by eapply event_answered. }
  intros [] s' e' [Hi Hd HF Hl].
  destruct (voter_advances k v _ _ _ _ Hk Hv Hi Hd HF) as (k' & new & Hn & Ha & Hv' & Hlead). simpl in Hn. subst new.
  exists k'. split; [done|]. split; [done|]. split; [done|]. intros w' Ew'.
  eapply rests_after; [done|done|by apply Hl|done|apply HF|apply Hv'].
Qed.

(** ** A restart *)

Lemma linked_restart v G d dk w r0 wal a b members cfg seed :
  stopped_at v dk G d w -> rng_ok (wd_rng w) -> world_read v FILE_WAL w = Some wal ->
  recover_state wal a b v members cfg seed = Some r0 -> cfg_bug cfg = BugNone ->
  let G' := filter (fun g => hs_seq g <= hs_seq (r_durable_hard_state r0)) G in
  chain (current_hs r0) (G' ++ written r0) /\ Forall hard_state_ok G' /\ LinkedW v G' known Idle r0 w /\
  hs_le d (r_durable_hard_state r0).
Proof.
  intros [] Hr Hread Hrec Hbug G'.
  assert (Hwal : wal = sf_cache (disk_file dk FILE_WAL)).
  { unfold world_read in Hread. rewrite sp_at0 in Hread. injection Hread as <-. unfold disk_read_all, disk_file.
    by destruct (dk_files dk !! FILE_WAL). }
  destruct (wal_ok_recovered G d _ sp_image0 sp_cache0 sp_pending0 sp_ok0 sp_d0 sp_zero0) as (Hin & Hle & Hok).
  rewrite <-Hwal in *.
  assert (Hhs : r_durable_hard_state r0 = recover_hard_state wal /\ r_state_seq r0 = hs_seq (recover_hard_state wal) + 1 /\
    r_term r0 = hs_term (recover_hard_state wal) /\ r_voted_for r0 = hs_voted_for (recover_hard_state wal) /\
    r_persister r0 = persister_default).
  { unfold recover_state in Hrec. destruct (recover_log_any_start _) as [rl|]; [|done]. cbn [mbind option_bind] in Hrec.
    destruct (splice _ _ _ _ _) as [[[es offs] gap]|]; [|done]. cbn [mbind option_bind] in Hrec.
    destruct (u64_add (from_option _ 0 _) 1) as [ss|]; [|done]. cbn [mbind option_bind] in Hrec.
    destruct (u64_add (hs_seq _) 1) as [q|] eqn:Eq; [|done]. cbn [mbind option_bind] in Hrec. injection Hrec as <-.
    apply u64_add_Some in Eq as [-> _]. done. }
  destruct Hhs as (Ed & Eseq & Et & Ev & Ep). set (h := recover_hard_state wal) in *. subst G'. rewrite Ed.
  assert (Hw : written r0 = [h]) by (unfold written; by rewrite Ep, Ed).
  assert (HG' : forall g, g ∈ filter (fun g => hs_seq g <= hs_seq h) G -> g ∈ G /\ hs_seq g <= hs_seq h).
  { intros g [? ?]%list_elem_of_filter. done. }
  assert (Hh : h ∈ filter (fun g => hs_seq g <= hs_seq h) G) by by apply list_elem_of_filter.
  split; [|split; [|split; [|by apply sp_order0]]].
  - assert (Hcur : forall g, g ∈ G -> hs_seq g <= hs_seq h -> hs_le g (current_hs r0)).
    { intros g Hg Hq. assert (Hgh : hs_le g h) by by apply sp_order0. unfold hs_le in *. simpl. by rewrite Et, Ev. }
    apply (chain_subset _ (filter (fun g => hs_seq g <= hs_seq h) G)).
    { rewrite Hw. intros g [?| ->%list_elem_of_singleton]%elem_of_app; done. }
    split; [apply Forall_forall..|].
    + intros g [? ?]%HG'. simpl. lia.
    + intros g [? ?]%HG'. auto.
    + intros x y [? ?]%HG' [? ?]%HG'. auto.
  - apply Forall_forall. intros g [? _]%HG'. rewrite Forall_forall in sp_ok0. auto.
  - exists dk, (filter (fun g => hs_seq g <= hs_seq h) G), h, h, known. split; [|done].
    split; rewrite ?Ep, ?Ed; try done; simpl.
    + apply list_elem_of_filter. split; [|done]. rewrite Forall_forall in sp_ok0. by apply sp_ok0.
    + intros g Hg. by left.
    + intros g [Hg ?]%HG'. rewrite Forall_forall in sp_ok0. split; [by apply sp_ok0|lia].
    + by intros ? ? ?%elem_of_nil.
    + by intros ? ? ?%elem_of_nil ?.
    + exists []. apply persister_run_wf, run_init.
    + constructor.
    + by intros ? ?%elem_of_nil.
Qed.

Lemma server_restart_lifts k v members cfg seed w :
  ledger_ok k -> votable v -> cfg_bug cfg = BugNone -> stopped k v w -> rng_ok (wd_rng w) ->
  wp (server_recover v members cfg seed) (fun s _ e' => exists k', advances k k' v (env_trace e') /\ voter k' v (sv_raft s) /\
      (r_role (sv_raft s) = Leader -> won k' (r_members (sv_raft s)) (r_term (sv_raft s)) v) /\
      forall w', si_world (env_world e') = Some w' -> rests known v (sv_raft s) w')
    tt (mkEnv (mkSimIo (Some w) v) []).
Proof.
  intros Hk Hvt Hbug (dk & G & d & Hst & Hset) Hr. set (e0 := mkEnv (mkSimIo (Some w) v) []).
  assert (Hread : forall file, exists bs, world_read v file w = Some bs /\ io_read_all (env_world e0) file = bs).
  { intros file. simpl. unfold sim_read, world_read. simpl. rewrite (sp_at _ _ _ _ _ Hst). simpl. eauto. }
  destruct (Hread FILE_WAL) as (wal & Hwal & Ewal).
  unfold server_recover, recover. apply wp_bind.
  apply wp_bind. unfold read_all at 1, wp at 1. apply wp_bind. unfold read_all at 1, wp at 1.
  apply wp_bind. unfold read_all at 1, wp at 1. apply wp_bind. rewrite Ewal. apply wp_lift. intros r0 Hr0. apply wp_with_state.
  destruct (linked_restart v G d dk w r0 _ _ _ _ _ _ Hst Hr Hwal Hr0 Hbug) as (Hch & Hok & HL & Hle). set (G' := filter _ G) in *.
  destruct (recover_state_ballot (asked_in k) (got_in k v) _ _ _ _ _ _ _ _ Hr0 Hbug Hvt) as (Hb & Hid & Hrole & Hd & Hw).
  destruct (recover_state_inv _ _ _ _ _ _ _ _ Hr0 Hbug) as [Hi _].
  assert (Hv0 : voter k v r0).
  { apply voter_restart; try done; [|by rewrite Hd|rewrite Hd; apply recover_hard_state_fits].
    intros t c Hkt. eapply vote_stays_le; [exact Hle|by apply Hset]. }
  assert (Hlink : LinkedE v G' known Idle r0 e0) by (split; [done|]; by intros ? [= <-]).
  eapply wp_mono.
  { apply wp_and; [by apply (fair_first_steps (asked_in k) (got_in k v))|].
    assert (Hl : links v G' known Idle Idle first_steps) by (unfold first_steps; links). by apply Hl. }
  intros [] r e1 (([Hi1 HG1] & HF1 & Hr1) & HL1). apply wp_with_state.
  assert (Hs1 : forall s, sv_raft s = r -> served v G' known (asked_in k) (got_in k v) r0 e0 s e1).
  { intros s E. split; rewrite E; try done. apply HG1. }
  eapply wp_mono; [apply (serves_adopt_snapshot v G' known (asked_in k) (got_in k v) r0 e0); by apply Hs1|].
  intros [] s' e' [Hi' Hd' HF' HL'].
  destruct (voter_advances k v _ _ _ _ Hk Hv0 Hi' Hd' HF') as (k' & new & Hn & Ha & Hv' & Hlead). simpl in Hn. subst new.
  exists k'. split; [done|]. split; [done|]. split.
  - intros Hl. destruct (Hlead Hl) as [[? _]|Hwon]; [congruence|done].
  - intros w' Ew'. eapply rests_after; [done|done|by apply HL'|done|apply HF'|apply Hv'].
Qed.
