(* ===== verification/Cluster.v ===== *)
(** * Cluster: the driver of one simulated run ([harness/cluster.rs])

    The driver owns the world, the servers, the clients and the checkers.  Its
    methods are computations over the whole driver; a server's or a client's
    handler runs against a [SimIo] that lends it the world.  [ClusterRun] adds
    the oracles, the loop and the verdict.  Texts are left out. *)
From Stdlib Require Import String.
From S2P Require Import Prelude Codec Crc LogFormat RaftLog Recovery Durable Messages Config StateMachine Io Rng Draw.
From S2P Require Import Disk Faults Scheduler Net Trace World Oracle RaftState Raft History Server Invariants Durability.
From S2P Require Import Harness Client.
From Stdlib.Init Require Import Byte.
Local Open Scope Z_scope.

Definition APP_FAULT_TICK : Z := 1.
Definition APP_HEAL : Z := 2.
Definition APP_RESTART : Z := 3.
Definition APP_STOP_CLIENTS : Z := 4.
Definition APP_STOP : Z := 5.
Definition APP_FRESH_RECONFIG : Z := 6.

(** [PendingRead]: a ReadIndex read between being accepted and being served. *)
Record WatchedRead : Type := mkWatchedRead {
  wa_read_index : Z;
  wa_term : Z;
  wa_committed_before : Z;
  wa_leader_term_before : Z;
  wa_seq : Z;
  wa_confirmed : bool;
}.

Record Cluster : Type := mkCluster {
  cs_world : World;
  cs_slots : nat;
  cs_servers : list (option KvServer);
  cs_clients : list Client;
  cs_members : list NodeId;
  cs_cfg : SimConfig;
  cs_history : History;
  cs_invariants : Invariants;
  cs_report : Report;
  cs_pre_crash_log : gmap NodeId (list Entry * Z);
  cs_retired : list (RaftStats * ServerStats);
  cs_acted_term : gmap NodeId Z;
  cs_truncated_committed_seen : list Z;
  cs_durable_high_water : list Z;
  cs_pending_reads : gmap (NodeId * Z) WatchedRead;
  cs_max_leader_term : Z;
  cs_probe_acks : gmap (NodeId * Z) (gmap NodeId Z);
  cs_events : Z;
  cs_incomplete : bool;
  cs_finished : bool;
  cs_recovered_at : option Nanos;
  cs_completed_at_recovery : nat;
  cs_run_stats : RunStats;
}.
Definition cluster_eta (c : Cluster) : Cluster :=
  mkCluster (cs_world c) (cs_slots c) (cs_servers c) (cs_clients c) (cs_members c) (cs_cfg c)
    (cs_history c) (cs_invariants c) (cs_report c) (cs_pre_crash_log c) (cs_retired c)
    (cs_acted_term c) (cs_truncated_committed_seen c) (cs_durable_high_water c) (cs_pending_reads c)
    (cs_max_leader_term c) (cs_probe_acks c) (cs_events c) (cs_incomplete c) (cs_finished c)
    (cs_recovered_at c) (cs_completed_at_recovery c) (cs_run_stats c).
#[export] Instance set_cs_world : Setter cs_world. Proof. build_setter cluster_eta. Defined.
#[export] Instance set_cs_servers : Setter cs_servers. Proof. build_setter cluster_eta. Defined.
#[export] Instance set_cs_clients : Setter cs_clients. Proof. build_setter cluster_eta. Defined.
#[export] Instance set_cs_history : Setter cs_history. Proof. build_setter cluster_eta. Defined.
#[export] Instance set_cs_invariants : Setter cs_invariants. Proof. build_setter cluster_eta. Defined.
#[export] Instance set_cs_report : Setter cs_report. Proof. build_setter cluster_eta. Defined.
#[export] Instance set_cs_pre_crash_log : Setter cs_pre_crash_log. Proof. build_setter cluster_eta. Defined.
#[export] Instance set_cs_retired : Setter cs_retired. Proof. build_setter cluster_eta. Defined.
#[export] Instance set_cs_acted_term : Setter cs_acted_term. Proof. build_setter cluster_eta. Defined.
#[export] Instance set_cs_truncated : Setter cs_truncated_committed_seen. Proof. build_setter cluster_eta. Defined.
#[export] Instance set_cs_high_water : Setter cs_durable_high_water. Proof. build_setter cluster_eta. Defined.
#[export] Instance set_cs_pending_reads : Setter cs_pending_reads. Proof. build_setter cluster_eta. Defined.
#[export] Instance set_cs_max_leader_term : Setter cs_max_leader_term. Proof. build_setter cluster_eta. Defined.
#[export] Instance set_cs_probe_acks : Setter cs_probe_acks. Proof. build_setter cluster_eta. Defined.
#[export] Instance set_cs_events : Setter cs_events. Proof. build_setter cluster_eta. Defined.
#[export] Instance set_cs_incomplete : Setter cs_incomplete. Proof. build_setter cluster_eta. Defined.
#[export] Instance set_cs_finished : Setter cs_finished. Proof. build_setter cluster_eta. Defined.
#[export] Instance set_cs_recovered_at : Setter cs_recovered_at. Proof. build_setter cluster_eta. Defined.
#[export] Instance set_cs_completed : Setter cs_completed_at_recovery. Proof. build_setter cluster_eta. Defined.
#[export] Instance set_cs_run_stats : Setter cs_run_stats. Proof. build_setter cluster_eta. Defined.

Definition run_stats_default : RunStats := mkRunStats 0 0 0 0 0 0 0 0 0 0 0 0 0 0 0 0 0 0 0 0 0 0 0.
Definition run_stats_eta (s : RunStats) : RunStats :=
  mkRunStats (ru_events s) (ru_sim_time s) (ru_ops_started s) (ru_ops_completed s) (ru_ops_abandoned s)
    (ru_retries s) (ru_max_committed s) (ru_elections s) (ru_leaders_elected s) (ru_truncations s)
    (ru_crashes s) (ru_restarts s) (ru_io_failures s) (ru_partitions s) (ru_messages_sent s)
    (ru_messages_delivered s) (ru_messages_dropped s) (ru_bad_messages s) (ru_linearizability_steps s)
    (ru_index_reads s) (ru_reconfigs s) (ru_reconfigs_refused s) (ru_fresh_leader_reconfigs s).
#[export] Instance set_ru_crashes : Setter ru_crashes. Proof. build_setter run_stats_eta. Defined.
#[export] Instance set_ru_restarts : Setter ru_restarts. Proof. build_setter run_stats_eta. Defined.
#[export] Instance set_ru_io_failures : Setter ru_io_failures. Proof. build_setter run_stats_eta. Defined.
#[export] Instance set_ru_partitions : Setter ru_partitions. Proof. build_setter run_stats_eta. Defined.
#[export] Instance set_ru_messages_delivered : Setter ru_messages_delivered. Proof. build_setter run_stats_eta. Defined.
#[export] Instance set_ru_reconfigs : Setter ru_reconfigs. Proof. build_setter run_stats_eta. Defined.
#[export] Instance set_ru_reconfigs_refused : Setter ru_reconfigs_refused. Proof. build_setter run_stats_eta. Defined.
#[export] Instance set_ru_fresh : Setter ru_fresh_leader_reconfigs. Proof. build_setter run_stats_eta. Defined.

(** ** Computations over the driver *)

Definition Driver (A : Type) : Type := Cluster -> option (A * Cluster).
#[export] Instance Driver_ret : MRet Driver := fun A a c => Some (a, c).
#[export] Instance Driver_bind : MBind Driver :=
  fun A B k m c => match m c with Some (a, c) => k a c | None => None end.

Definition dget : Driver Cluster := fun c => Some (c, c).
Definition dmodify (f : Cluster -> Cluster) : Driver unit := fun c => Some (tt, f c).
Definition dlift {A} (o : option A) : Driver A := fun c => match o with Some a => Some (a, c) | None => None end.
Definition dwhen (b : bool) (m : Driver unit) : Driver unit := if b then m else mret tt.
Fixpoint dfor_each {A} (l : list A) (f : A -> Driver unit) : Driver unit :=
  match l with [] => mret tt | a :: l => f a ;; dfor_each l f end.

Definition on_world {A} (f : World -> option (A * World)) : Driver A :=
  c ← dget;
  '(a, w) ← dlift (f (cs_world c));
  dmodify (fun c => c ⟨ cs_world := w ⟩) ;;
  mret a.
(** An operation of the world without a result. *)
Definition on_world_ (f : World -> option World) : Driver unit :=
  on_world (fun w => w ← f w; Some (tt, w)).
Definition on_net (f : Network -> Network) : Driver unit :=
  on_world_ (fun w => Some (w ⟨ wd_net := f (wd_net w) ⟩)).
Definition on_rng {A} (m : Draw A) : Driver A :=
  on_world (fun w => '(a, rng) ← m (wd_rng w); Some (a, w ⟨ wd_rng := rng ⟩)).
Definition on_sched (f : Scheduler -> option (EventId * Scheduler)) : Driver unit :=
  on_world_ (fun w => '(_, sched) ← f (wd_sched w); Some (w ⟨ wd_sched := sched ⟩)).
Definition ask_world {A} (f : World -> option A) : Driver A := c ← dget; dlift (f (cs_world c)).

(** [self.stats.f += 1] *)
Definition dbump (f : RunStats -> Z) `{!Setter f} : Driver unit :=
  c ← dget;
  v ← dlift (u64_add (f (cs_run_stats c)) 1);
  dmodify (fun c => c ⟨ cs_run_stats := (cs_run_stats c) ⟨ f := v ⟩ ⟩).
Definition add_report (kind : string) (time : Nanos) (node : option NodeId) : Driver unit :=
  dmodify (fun c => c ⟨ cs_report := report_add (cs_report c) (mkViolation kind time node) ⟩).
Definition extend_report (vs : list Oracle.Violation) : Driver unit :=
  dmodify (fun c => c ⟨ cs_report := report_extend (cs_report c) vs ⟩).

(** A handler with the world lent to [node]. *)
Definition lend {S A} (node : NodeId) (m : M SimIo S A) (s : S) (w : World) : option (A * S * World) :=
  '(a, s, e) ← m s (mkEnv (mkSimIo (Some w) node) []);
  w ← si_world (env_world e);
  Some (a, s, w).

(** A handler of the server on [node], if it runs. *)
Definition at_server {A} (node : NodeId) (m : M SimIo KvServer A) : Driver (option A) :=
  c ← dget;
  slot ← dlift (cs_servers c !! node_idx node);
  match slot with
  | None => mret None
  | Some s =>
      '(a, s, w) ← dlift (lend node m s (cs_world c));
      dmodify (fun c => c ⟨ cs_world := w ⟩ ⟨ cs_servers := <[node_idx node := Some s]> (cs_servers c) ⟩) ;;
      mret (Some a)
  end.

(** A handler of the client on [node], with the history. *)
Definition at_client (node : NodeId) (m : M SimIo (Client * History) unit) : Driver unit :=
  c ← dget;
  let i := (node_idx node - cs_slots c)%nat in
  client ← dlift (cs_clients c !! i);
  '(_, (client, h), w) ← dlift (lend node m (client, cs_history c) (cs_world c));
  dmodify (fun c => c ⟨ cs_world := w ⟩ ⟨ cs_clients := <[i := client]> (cs_clients c) ⟩ ⟨ cs_history := h ⟩).

Definition is_client (c : Cluster) (node : NodeId) : bool := (cs_slots c <=? node_idx node)%nat.
Definition server_slots (c : Cluster) : list NodeId := node_id <$> seq 0 (cs_slots c).

(** ** Looking at the cluster *)

(** Everything of a node's that would survive a power cut. *)
Definition disk_view (node : NodeId) (w : World) : option DiskView :=
  bytes ← world_durable_image node FILE_WAL w;
  a ← world_durable_image node FILE_SNAPSHOT_A w;
  b ← world_durable_image node FILE_SNAPSHOT_B w;
  Some (mkDiskView node bytes (a, b)).

(** A live leader, at the highest term; the first of them. *)
Definition better_leader (c : Cluster) (best : option (Z * NodeId)) (id : NodeId) : option (option (Z * NodeId)) :=
  up ← is_up id (cs_world c);
  if negb up then Some best
  else
    slot ← cs_servers c !! node_idx id;
    match slot with
    | Some s =>
        let term := r_term (sv_raft s) in
        if RaftState.is_leader (sv_raft s) && (if best is Some (t, _) then t <? term else true)
        then Some (Some (term, id)) else Some best
    | None => Some best
    end.
Definition current_leader (c : Cluster) : option (option NodeId) :=
  foldl_option (better_leader c) None (server_slots c) ≫= fun best : option (Z * NodeId) => Some (snd <$> best).

Definition unsynced_flags (c : Cluster) : option (list bool) :=
  mapM (fun id =>
    up ← is_up id (cs_world c);
    if (up : bool) then world_has_unsynced id FILE_WAL (cs_world c) else Some false) (server_slots c).

(** [max_by_key]: of several greatest, the last. *)
Definition up_to_date_key (s : KvServer) : Z * Z :=
  (r_term (sv_raft s), log_last_index (r_log (sv_raft s))).
Definition later_server (best : option KvServer) (s : KvServer) : option KvServer :=
  match best with
  | None => Some s
  | Some b =>
      let '(bt, bi) := up_to_date_key b in
      let '(t, i) := up_to_date_key s in
      if (bt <? t) || ((bt =? t) && (bi <=? i)) then Some s else Some b
  end.
Definition most_up_to_date (servers : list (option KvServer)) : option KvServer :=
  foldl later_server None (omap id servers).

Definition cluster_config (c : Cluster) : option (list NodeId) :=
  leader ← current_leader c;
  leading ← match leader with
    | Some l => slot ← cs_servers c !! node_idx l; Some (slot : option KvServer)
    | None => Some None
    end;
  Some match leading with
    | Some s => r_members (sv_raft s)
    | None => default (cs_members c) ((fun s => r_members (sv_raft s)) <$> most_up_to_date (take (cs_slots c) (cs_servers c)))
    end.

(** ** Crashes and restarts *)

Definition node_seed (seed : Z) (node : NodeId) (incarnation : Z) : Z :=
  Z.lxor (Z.lxor seed (wrapping_mul node 0x9E3779B97F4A7C15)) (wrapping_mul incarnation 0xD6E8FEB86659FD93).

Definition cluster_crash (node : NodeId) : Driver unit :=
  up ← ask_world (is_up node);
  dwhen up
    (c ← dget;
     slot ← dlift (cs_servers c !! node_idx node);
     match slot with
     | Some s => dmodify (fun c => c
         ⟨ cs_pre_crash_log := <[node := (l_entries (r_log (sv_raft s)), r_durable_index (sv_raft s))]> (cs_pre_crash_log c) ⟩
         ⟨ cs_retired := cs_retired c ++ [(r_stats (sv_raft s), sv_stats s)] ⟩)
     | None => mret tt
     end ;;
     dmodify (fun c => c ⟨ cs_servers := <[node_idx node := None]> (cs_servers c) ⟩) ;;
     on_world_ (crash_node node)).

Definition cluster_restart (node : NodeId) (now : Nanos) : Driver unit :=
  up ← ask_world (is_up node);
  dwhen (negb up)
    (on_world_ (restart_node node) ;;
     c ← dget;
     incarnation ← dlift (incarnation_of node (cs_world c));
     let seed := node_seed (sx_seed (cs_cfg c)) node incarnation in
     '(server, _, w) ← dlift (lend node
       (server_recover node (cs_members c) (sx_raft (cs_cfg c)) seed) tt (cs_world c));
     dmodify (fun c => c ⟨ cs_world := w ⟩) ;;
     match cs_pre_crash_log c !! node with
     | Some (before, durable) => extend_report (check_recovery now node before durable
         (l_entries (r_log (sv_raft server))) (l_snapshot_index (r_log (sv_raft server))))
     | None => mret tt
     end ;;
     match cs_acted_term c !! node with
     | Some acted =>
         disk ← ask_world (disk_view node);
         vs ← dlift (check_term_durable now node acted disk);
         extend_report vs
     | None => mret tt
     end ;;
     _ ← dlift (cs_servers c !! node_idx node);
     dmodify (fun c => c ⟨ cs_servers := <[node_idx node := Some server]> (cs_servers c) ⟩) ;;
     dbump ru_restarts).

(** One slot of [reap_failed]. *)
Definition reap_slot (node : NodeId) : Driver unit :=
  c ← dget;
  slot ← dlift (cs_servers c !! node_idx node);
  dwhen (if (slot : option KvServer) is Some s then r_failed (sv_raft s) else false)
    (cluster_crash node ;;
     dbump ru_io_failures ;;
     delay ← on_rng (restart_delay (wd_faults (cs_world c)));
     on_sched (sched_after delay (SeApp APP_RESTART node))).
Definition reap_failed : Driver unit := c ← dget; dfor_each (server_slots c) reap_slot.

(** ** Membership changes *)

Definition reconfigure : Driver unit :=
  c ← dget;
  leader ← dlift (current_leader c);
  match leader with
  | None => mret tt
  | Some leader =>
      slot ← dlift (cs_servers c !! node_idx leader);
      match slot with
      | None => mret tt
      | Some s =>
          let current := r_members (sv_raft s) in
          let outside := List.filter (fun n => negb (bool_decide (n ∈ current))) (server_slots c) in
          let can_add := negb (bool_decide (outside = [])) in
          let can_remove := (3 <? length current)%nat in
          let change (add : bool) : Driver unit :=
            n ← on_rng (choose (if add then outside else current));
            match n with
            | None => mret tt
            | Some n =>
                let next := if add then current ++ [n] else List.filter (fun m => negb (m =? n)) current in
                r ← at_server leader (server_propose_membership next);
                match r with
                | Some (Ok _) => dbump ru_reconfigs
                | Some (Err _) => dbump ru_reconfigs_refused
                | None => mret tt
                end
            end in
          match can_add, can_remove with
          | true, true => add ← on_rng (chance 500000); change add
          | true, false => change true
          | false, true => change false
          | false, false => mret tt
          end
      end
  end.

(** ** Faults *)

Definition schedule_heal : Driver unit :=
  c ← dget;
  d ← on_rng (partition_duration (wd_faults (cs_world c)));
  on_sched (sched_after d (SeApp APP_HEAL 0)).

(** A client is placed in one of the groups. *)
Definition place_client (groups : list (list NodeId)) (client : Client) : Draw (list (list NodeId)) :=
  g ← below (Z.of_nat (length groups));
  group ← ensure (groups !! Z.to_nat g);
  mret (<[Z.to_nat g := group ++ [cl_node client]]> groups).
Definition place_clients (clients : list Client) (groups : list (list NodeId)) : Draw (list (list NodeId)) :=
  fold_draw (fun client groups => place_client groups client) clients groups.

Definition apply_fault (action : FaultAction) (now : Nanos) : Driver unit :=
  c ← dget;
  match action with
  | FaTick => mret tt
  | FaCrash node => cluster_crash node ;; dbump ru_crashes
  | FaRestart node => cluster_restart node now
  | FaPartition groups =>
      groups ← on_rng (place_clients (cs_clients c) groups);
      on_net net_heal_all ;;
      on_net (net_partition groups) ;;
      dbump ru_partitions ;;
      on_world_ (world_observe None "partition" [Z.of_nat (length groups)]) ;;
      schedule_heal
  | FaIsolate node =>
      on_net (net_isolate node) ;;
      dbump ru_partitions ;;
      on_world_ (world_observe (Some node) "isolate" []) ;;
      schedule_heal
  | FaIsolateFromPeers node =>
      dfor_each (server_slots c) (fun peer =>
        dwhen (negb (peer =? node)) (on_net (net_cut node peer) ;; on_net (net_cut peer node))) ;;
      dbump ru_partitions ;;
      on_world_ (world_observe (Some node) "isolate_from_peers" []) ;;
      schedule_heal
  | FaSlowLink a b => on_net (net_slow_link a b)
  | FaHealNetwork => on_net net_heal_all
  | FaClockJump node delta => on_world_ (clock_jump node delta)
  | FaReconfigure => reconfigure
  | FaRecover =>
      on_net net_heal_all ;;
      c ← dget;
      down ← dlift (mapM (fun n => up ← is_up n (cs_world c); Some (n, negb up)) (server_slots c));
      dfor_each (List.filter snd down) (fun n => cluster_restart n.1 now) ;;
      dmodify (fun c => c ⟨ cs_recovered_at := Some now ⟩
        ⟨ cs_completed_at_recovery := history_completed (cs_history c) ⟩) ;;
      on_world_ (world_log LInfo None "harness" "fault window closed; cluster healed")
  end.
