(* ===== verification/ClusterRun.v ===== *)
(** * ClusterRun: the driver's oracles, its loop and its verdict ([harness/cluster.rs])

    The dispatch of an event, the checks that run beside it (acknowledged and
    voted only what is durable, ReadIndex, durability claims, the invariants),
    the construction of a cluster, the loop over the scheduler and the final
    judgement.  The loop takes fuel; [ClusterRules] shows how much is enough. *)
From Stdlib Require Import String.
From S2P Require Import Prelude Codec Crc LogFormat RaftLog Recovery Durable Messages Config StateMachine Io Rng Draw.
From S2P Require Import Disk Faults Scheduler Net Trace World Oracle RaftState Raft History Server Invariants Durability.
From S2P Require Import Harness Client Cluster.
From Stdlib.Init Require Import Byte.
Local Open Scope Z_scope.

(** ** Messages *)

(** What a message of a server proves about its sender, arrived or not. *)
Definition judge_ack (from : NodeId) (match_index : Z) (now : Nanos) : Driver unit :=
  c ← dget;
  seen ← dlift (cs_durable_high_water c !! node_idx from);
  dwhen (seen <? match_index) (add_report "ack_beyond_durable" now (Some from)).

Definition vote_kept (hs : HardState) (term : Z) (to : NodeId) : bool :=
  (term <? hs_term hs) || ((hs_term hs =? term) && bool_decide (hs_voted_for hs = Some to)).
Definition judge_vote (from to : NodeId) (term : Z) (now : Nanos) : Driver unit :=
  wal ← ask_world (world_durable_image from FILE_WAL);
  dwhen (negb (vote_kept (recover_hard_state wal) term to)) (add_report "vote_beyond_durable" now (Some from)).

Definition judge_message (from to : NodeId) (m : RaftMsg) (now : Nanos) : Driver unit :=
  let term := msg_term m in
  dmodify (fun c => c ⟨ cs_invariants := note_sent from term (cs_invariants c) ⟩
    ⟨ cs_acted_term := <[from := Z.max (default 0 (cs_acted_term c !! from)) term]> (cs_acted_term c) ⟩) ;;
  match m with
  | AppendEntriesResp _ true match_index _ => judge_ack from match_index now
  | RequestVoteResp term true => judge_vote from to term now
  | _ => mret tt
  end.

(** Whether a quorum of the leader's members has answered a probe for the read. *)
Definition confirm_watched (members : list NodeId) (to : NodeId) (acks : gmap NodeId Z) (term : Z)
  (key : NodeId * Z) (r : WatchedRead) : WatchedRead :=
  if negb (key.1 =? to) || negb (wa_term r =? term) || wa_confirmed r then r
  else
    let n := length (List.filter (fun ps => bool_decide (ps.1 ∈ members) && (wa_seq r <=? ps.2)) (map_to_list acks)) in
    let own := if bool_decide (to ∈ members) then 1%nat else 0%nat in
    if (length members / 2 + 1 <=? own + n)%nat
    then mkWatchedRead (wa_read_index r) (wa_term r) (wa_committed_before r) (wa_leader_term_before r) (wa_seq r) true
    else r.

Definition note_probe_ack (from to : NodeId) (payload : list byte) : Driver unit :=
  match message_decode payload with
  | Ok (MRaft (ReadProbeResp term seq)) =>
      c ← dget;
      slot ← dlift (cs_servers c !! node_idx to);
      match slot with
      | None => mret tt
      | Some s =>
          let acks := default ∅ (cs_probe_acks c !! (to, term)) in
          let acks := <[from := Z.max (default 0 (acks !! from)) seq]> acks in
          dmodify (fun c => c ⟨ cs_probe_acks := <[(to, term) := acks]> (cs_probe_acks c) ⟩
            ⟨ cs_pending_reads := map_imap (fun key r =>
                Some (confirm_watched (r_members (sv_raft s)) to acks term key r)) (cs_pending_reads c) ⟩)
      end
  | _ => mret tt
  end.

Definition cluster_on_deliver (from to : NodeId) (payload : list byte) (now : Nanos) : Driver unit :=
  c ← dget;
  match is_client c from, message_decode payload with
  | false, Ok (MRaft m) => judge_message from to m now
  | _, _ => mret tt
  end ;;
  accepted ← on_world (world_accept from to);
  dwhen accepted
    (dbump ru_messages_delivered ;;
     dwhen (negb (is_client c to) && negb (is_client c from)) (note_probe_ack from to payload) ;;
     if is_client c to then at_client to (client_on_bytes now payload)
     else _ ← at_server to (on_bytes from payload); mret tt).

(** ** The other events *)

Definition cluster_on_timer (node : NodeId) (timer : Z) (now : Nanos) : Driver unit :=
  c ← dget;
  if is_client c node then at_client node (client_on_timer now timer)
  else
    up ← ask_world (is_up node);
    dwhen up (_ ← at_server node (server_on_timer timer); mret tt).

Definition cluster_on_storage (node : NodeId) (op : OpId) (result : IoResult) : Driver unit :=
  up ← ask_world (is_up node);
  dwhen up (_ ← at_server node (server_on_storage op (io_is_ok result)); mret tt).

Definition fault_tick (now : Nanos) : Driver unit :=
  c ← dget;
  config ← dlift (cluster_config c);
  leader ← dlift (current_leader c);
  unsynced ← dlift (unsynced_flags c);
  let up := take (cs_slots c) (wd_up (cs_world c)) in
  let members := (fun n => bool_decide (n ∈ config)) <$> server_slots c in
  action ← on_world (fun w =>
    '((action, i), rng) ← fault_decide (wd_faults w) now up (mkFaultHint leader unsynced members) (wd_rng w);
    Some (action, w ⟨ wd_rng := rng ⟩ ⟨ wd_faults := i ⟩));
  match action with Some action => apply_fault action now | None => mret tt end ;;
  c ← dget;
  dwhen (negb (fi_recovered (wd_faults (cs_world c))))
    (delay ← on_rng (next_tick_delay (wd_faults (cs_world c)));
     on_sched (sched_after delay (SeApp APP_FAULT_TICK 0))).

Definition fresh_reconfig (term : Z) : Driver unit :=
  c ← dget;
  leader ← dlift (current_leader c);
  slot ← dlift match leader with Some l => cs_servers c !! node_idx l | None => Some None end;
  dwhen ((if (slot : option KvServer) is Some s then r_term (sv_raft s) =? term else false)
         && bool_decide (cs_recovered_at c = None))
    (dbump ru_fresh_leader_reconfigs ;; reconfigure).

Definition cluster_on_app (tag arg : Z) (now : Nanos) : Driver unit :=
  if tag =? APP_FAULT_TICK then fault_tick now
  else if tag =? APP_HEAL then on_net net_heal_all ;; on_world_ (world_observe None "heal" [])
  else if tag =? APP_RESTART then cluster_restart (wrap32 arg) now
  else if tag =? APP_STOP_CLIENTS then dmodify (fun c => c ⟨ cs_clients := client_stop <$> cs_clients c ⟩)
  else if tag =? APP_STOP then dmodify (fun c => c ⟨ cs_finished := true ⟩)
  else if tag =? APP_FRESH_RECONFIG then fresh_reconfig arg
  else mret tt.

Definition dispatch (f : Fired) : Driver unit :=
  let now := fd_time f in
  match fd_event f with
  | SeTimer node timer => cluster_on_timer node timer now
  | SeDeliver from to payload _ => cluster_on_deliver from to payload now
  | SeStorage node op result => cluster_on_storage node op result
  | SeFault action => apply_fault action now
  | SeApp tag arg => cluster_on_app tag arg now
  end.

(** ** ReadIndex *)

Definition judge_read (node : NodeId) (now : Nanos) (committed_before : Z) (sole_member : bool)
  (ev : ReadEvent * option Z) : Driver unit :=
  match ev with
  | (ReadRequested id read_index term seq, index_term) =>
      dwhen (if index_term is Some t then negb (t =? term) else false)
        (add_report "read_before_term_commit" now (Some node)) ;;
      dmodify (fun c => c ⟨ cs_pending_reads :=
        <[(node, id) := mkWatchedRead read_index term committed_before (cs_max_leader_term c) seq sole_member]>
          (cs_pending_reads c) ⟩)
  | (ReadServed id, _) =>
      c ← dget;
      match cs_pending_reads c !! (node, id) with
      | None => mret tt
      | Some read =>
          dmodify (fun c => c ⟨ cs_pending_reads := delete (node, id) (cs_pending_reads c) ⟩) ;;
          dwhen (negb (wa_confirmed read)) (add_report "read_unconfirmed" now (Some node)) ;;
          dwhen (wa_term read <? wa_leader_term_before read) (add_report "read_by_deposed_leader" now (Some node)) ;;
          dwhen (wa_read_index read <? wa_committed_before read) (add_report "stale_read_index" now (Some node))
      end
  end.

Definition check_reads_of (now : Nanos) (committed_before : Z) (node : NodeId) : Driver unit :=
  c ← dget;
  slot ← dlift (cs_servers c !! node_idx node);
  match slot with
  | None => mret tt
  | Some s =>
      let '(evs, r) := take_read_events (sv_raft s) in
      dmodify (fun c => c ⟨ cs_servers := <[node_idx node := Some (s ⟨ sv_raft := r ⟩)]> (cs_servers c) ⟩) ;;
      dfor_each ((fun ev => (ev, match ev with
          | ReadRequested _ read_index _ _ => log_term_at (r_log r) read_index
          | ReadServed _ => None
          end)) <$> evs)
        (judge_read node now committed_before (bool_decide (r_members r = [node])))
  end.
Definition check_reads : Driver unit :=
  c ← dget;
  dfor_each (server_slots c) (check_reads_of (world_now (cs_world c)) (iv_max_committed (cs_invariants c))).

(** ** Durability claims and invariants *)

Definition check_claim_of (now : Nanos) (node : NodeId) : Driver unit :=
  c ← dget;
  up ← ask_world (is_up node);
  dwhen up
    (slot ← dlift (cs_servers c !! node_idx node);
     match (slot : option KvServer) with
     | None => mret tt
     | Some s =>
         disk ← ask_world (disk_view node);
         found ← dlift (check_durable_claim now node (l_entries (r_log (sv_raft s))) (r_durable_index (sv_raft s)) disk);
         extend_report found
     end).
Definition check_durable_claims : Driver unit :=
  c ← dget; dfor_each (server_slots c) (check_claim_of (world_now (cs_world c))).

(** A server that newly cut its log at or below its commit index. *)
Definition check_truncated (now : Nanos) (node : NodeId) : Driver unit :=
  c ← dget;
  slot ← dlift (cs_servers c !! node_idx node);
  match slot with
  | None => mret tt
  | Some s =>
      let n := st_truncated_committed (r_stats (sv_raft s)) in
      seen ← dlift (cs_truncated_committed_seen c !! node_idx node);
      dwhen (seen <? n)
        (dmodify (fun c => c ⟨ cs_truncated_committed_seen := <[node_idx node := n]> (cs_truncated_committed_seen c) ⟩) ;;
         add_report "truncated_committed" now (Some node))
  end.

Definition node_view (c : Cluster) (id : NodeId) : option NodeView :=
  slot ← cs_servers c !! node_idx id;
  incarnation ← incarnation_of id (cs_world c);
  match slot with
  | Some s =>
      up ← is_up id (cs_world c);
      let r := sv_raft s in
      Some (mkNodeView id up (r_role r) (r_term r) (r_log r) (r_commit_index r) (r_last_applied r)
        (r_durable_index r) incarnation (st_truncations (r_stats r)) (l_snapshot_index (r_log r)) (r_members r))
  | None => Some (mkNodeView id false Follower 0 log_new 0 0 0 incarnation 0 0 [])
  end.

Definition raise_high_water (water : list Z) (v : NodeView) : option (list Z) :=
  seen ← water !! node_idx (nv_id v);
  Some (if nv_up v && (seen <? nv_durable_index v) then <[node_idx (nv_id v) := nv_durable_index v]> water else water).

(** The newest term with a leader, and whether one leads a term unseen so far. *)
Definition see_leader (acc : option Z * Z) (v : NodeView) : option Z * Z :=
  let '(fresh, newest) := acc in
  if nv_up v && bool_decide (nv_role v = Leader)
  then (if newest <? nv_term v then Some (nv_term v) else fresh, Z.max newest (nv_term v))
  else acc.

Definition schedule_fresh_reconfig (now : Nanos) (term : Z) : Driver unit :=
  c ← dget;
  let f := sx_faults (cs_cfg c) in
  if fc_enable_reconfig f && (0 <? fc_fresh_leader_reconfig_ppm f) && ((fc_window f).1 <=? now)
     && (now <? (fc_window f).2) && bool_decide (cs_recovered_at c = None)
  then
    hit ← on_rng (chance (fc_fresh_leader_reconfig_ppm f));
    dwhen hit
      (delay ← on_rng (below (20 * MILLIS));
       at_ ← dlift (u64_add now delay);
       on_sched (sched_at at_ (SeApp APP_FRESH_RECONFIG term)))
  else mret tt.

Definition check_invariants : Driver unit :=
  c ← dget;
  let now := world_now (cs_world c) in
  dfor_each (server_slots c) (check_truncated now) ;;
  c ← dget;
  views ← dlift (mapM (node_view c) (server_slots c));
  water ← dlift (foldl_option raise_high_water (cs_durable_high_water c) views);
  let '(fresh, newest) := foldl see_leader (None, cs_max_leader_term c) views in
  '(i, found) ← dlift (invariants_observe now views (cs_invariants c));
  dmodify (fun c => c ⟨ cs_durable_high_water := water ⟩ ⟨ cs_max_leader_term := newest ⟩ ⟨ cs_invariants := i ⟩) ;;
  extend_report found ;;
  match fresh with Some term => schedule_fresh_reconfig now term | None => mret tt end.

(** ** The verdict *)

Definition sum_u64 (l : list Z) : option Z := foldl_option u64_add 0 l.

Definition live_states (c : Cluster) : option (list (NodeId * Z * gmap RString RString)) :=
  states ← mapM (fun id =>
    slot ← cs_servers c !! node_idx id;
    match slot with
    | None => Some []
    | Some s =>
        up ← is_up id (cs_world c);
        Some (if (up : bool) then [(id, r_last_applied (sv_raft s), sm_state (sv_sm s))] else [])
    end) (server_slots c);
  Some (concat states).

Definition committed_entries (i : Invariants) : list CommittedEntry :=
  omap (fun index =>
    (fun rec => mkCommittedEntry index (cr_term rec) (cr_cmd rec) (cr_members rec)) <$> committed_entry i index)
    (span 1 (iv_max_committed i)).

Definition judge_history (now : Nanos) : Driver unit :=
  c ← dget;
  match history_well_formed (cs_history c) with
  | Ok _ => mret tt
  | Err _ => add_report "history_malformed" now None
  end.

Definition judge_states (now : Nanos) : Driver unit :=
  c ← dget;
  states ← dlift (live_states c);
  extend_report (check_convergence now states).

Definition judge_disks (now : Nanos) : Driver unit :=
  c ← dget;
  disks ← dlift (mapM (fun n => disk_view n (cs_world c)) (server_slots c));
  found ← dlift (check_committed_durable now (committed_entries (cs_invariants c)) disks (cs_slots c));
  extend_report found.

Definition judge_efficiency (now : Nanos) : Driver unit :=
  c ← dget;
  let completed := Z.of_nat (history_completed (cs_history c)) in
  if sx_check_efficiency (cs_cfg c) && negb (cs_incomplete c) && (100 <=? completed) then
    bound ← dlift (u64_add (40 * Z.of_nat (Nat.max (cs_slots c) 1)) 0);
    dwhen (bound <? cs_events c / completed) (add_report "message_storm" now None)
  else mret tt.

Definition judge_liveness (now : Nanos) : Driver unit :=
  c ← dget;
  if sx_check_liveness (cs_cfg c) && negb (cs_incomplete c) && negb (bool_decide (cs_clients c = [])) then
    match cs_recovered_at c with
    | None => mret tt
    | Some _ =>
        let completed := history_completed (cs_history c) in
        if (completed <? cs_completed_at_recovery c)%nat then dlift None
        else dwhen (completed - cs_completed_at_recovery c =? 0)%nat (add_report "no_progress_after_recovery" now None)
    end
  else mret tt.

Definition judge_answers (now : Nanos) : Driver (Verdict * Z) :=
  c ← dget;
  '(verdict, lin) ← dlift (check
    (mkChecker (sx_linearizability_budget (cs_cfg c)) (ck_stats checker_new)) (cs_history c));
  dwhen (is_violation verdict) (add_report "linearizability" now None) ;;
  mret (verdict, cs_steps (ck_stats lin)).

(** Every incarnation counts, not only those still up. *)
Definition all_stats (c : Cluster) : list (RaftStats * ServerStats) :=
  ((fun s => (r_stats (sv_raft s), sv_stats s)) <$> omap id (cs_servers c)) ++ cs_retired c.

Definition final_stats (c : Cluster) (now : Nanos) (steps : Z) : option RunStats :=
  let s := cs_run_stats c in
  let net := nt_stats (wd_net (cs_world c)) in
  started ← sum_u64 ((fun cl => ct_started (cl_stats cl)) <$> cs_clients c);
  abandoned ← sum_u64 ((fun cl => ct_abandoned (cl_stats cl)) <$> cs_clients c);
  retries ← sum_u64 ((fun cl => ct_retries (cl_stats cl)) <$> cs_clients c);
  elections ← sum_u64 ((fun rk => st_elections_started rk.1) <$> all_stats c);
  leaders ← sum_u64 ((fun rk => st_elections_won rk.1) <$> all_stats c);
  truncations ← sum_u64 ((fun rk => st_truncations rk.1) <$> all_stats c);
  bad ← sum_u64 ((fun rk => ss_bad_messages rk.2) <$> all_stats c);
  reads ← sum_u64 ((fun rk => ss_index_reads rk.2) <$> all_stats c);
  dropped ← u64_add (ns_dropped_loss net) (ns_dropped_partition net);
  Some (mkRunStats (cs_events c) now started (Z.of_nat (history_completed (cs_history c))) abandoned retries
    (iv_max_committed (cs_invariants c)) elections leaders truncations (ru_crashes s) (ru_restarts s)
    (ru_io_failures s) (ru_partitions s) (ns_sent net) (ru_messages_delivered s) dropped bad steps reads
    (ru_reconfigs s) (ru_reconfigs_refused s) (ru_fresh_leader_reconfigs s)).

Definition finalize : Driver RunOutcome :=
  c ← dget;
  let now := world_now (cs_world c) in
  judge_history now ;;
  judge_states now ;;
  judge_disks now ;;
  judge_efficiency now ;;
  judge_liveness now ;;
  '(verdict, steps) ← judge_answers now;
  c ← dget;
  stats ← dlift (final_stats c now steps);
  mret (mkRunOutcome (sx_seed (cs_cfg c)) (cs_cfg c) (tc_fingerprint (wd_trace (cs_world c))) (cs_report c)
    verdict stats (cs_incomplete c) (cs_history c)).

(** ** The run *)

(** Every slot runs a server from the start. *)
Fixpoint start_servers (members : list NodeId) (cfg : SimConfig) (nodes : list NodeId) (w : World)
  : option (list (option KvServer) * World) :=
  match nodes with
  | [] => Some ([], w)
  | node :: nodes =>
      '(s, _, w) ← lend node
        (server_recover node members (sx_raft cfg) (node_seed (sx_seed cfg) node 0)) tt w;
      '(rest, w) ← start_servers members cfg nodes w;
      Some (Some s :: rest, w)
  end.

Definition new_client (cfg : SimConfig) (i : nat) : option Client :=
  client_new (node_id i) (node_id (config_slots cfg + i)) (node_id <$> seq 0 (config_slots cfg))
    (Z.lxor (Z.lxor (sx_seed cfg) 0xC11E0000) (Z.of_nat i)) (sx_workload cfg).

Definition cluster_new (cfg : SimConfig) : option Cluster :=
  let members := node_id <$> seq 0 (sx_servers cfg) in
  let n := config_slots cfg in
  w ← world_new (mkWorldConfig (n + sx_clients cfg) (sx_seed cfg) (sx_net cfg) (sx_disk cfg) (sx_faults cfg)
    (sx_trace_level cfg));
  '(servers, w) ← start_servers members cfg (node_id <$> seq 0 n) w;
  clients ← mapM (new_client cfg) (seq 0 (sx_clients cfg));
  Some (mkCluster w n servers clients members cfg history_new invariants_new [] ∅ [] ∅
    (replicate n 0) (replicate n 0) ∅ 0 ∅ 0 false false None 0 run_stats_default).

Definition bootstrap : Driver unit :=
  c ← dget;
  let cfg := cs_cfg c in
  stop_clients ← dlift (u64_add (sx_duration cfg) (sx_settle cfg));
  stop ← dlift (u64_add stop_clients (sx_drain cfg));
  on_sched (sched_at (fc_window (sx_faults cfg)).1 (SeApp APP_FAULT_TICK 0)) ;;
  on_sched (sched_at stop_clients (SeApp APP_STOP_CLIENTS 0)) ;;
  on_sched (sched_at stop (SeApp APP_STOP 0)) ;;
  dfor_each (cs_clients c) (fun cl =>
    delay ← on_rng (range 0 (20 * MILLIS));
    on_world_ (fun w => '(_, w) ← world_set_timer (cl_node cl) delay TIMER_THINK w; Some w)).

Definition is_multiple_of (n k : Z) : bool := if k =? 0 then n =? 0 else n mod k =? 0.

(** One event and the checks after it. *)
Definition cluster_step (f : Fired) : Driver unit :=
  dispatch f ;;
  check_reads ;;
  reap_failed ;;
  c ← dget;
  dwhen (is_multiple_of (cs_events c) (sx_check_every (cs_cfg c))) check_invariants ;;
  c ← dget;
  dwhen (is_multiple_of (cs_events c) (sx_check_durability_every (cs_cfg c))) check_durable_claims.

(** [None] is a panic, [Some None] an exhausted fuel. *)
Fixpoint cluster_loop (fuel : nat) (c : Cluster) : option (option Cluster) :=
  match fuel with
  | O => Some None
  | S fuel =>
      if cs_finished c then Some (Some c)
      else
        '(fired, sched) ← sched_next (wd_sched (cs_world c));
        let c := c ⟨ cs_world := (cs_world c) ⟨ wd_sched := sched ⟩ ⟩ in
        match fired with
        | None => Some (Some c)
        | Some f =>
            events ← u64_add (cs_events c) 1;
            let c := c ⟨ cs_events := events ⟩ in
            if sx_max_events (cs_cfg c) <? events then Some (Some (c ⟨ cs_incomplete := true ⟩))
            else
              '(_, c) ← cluster_step f c;
              cluster_loop fuel c
        end
  end.

Definition cluster_run_fuel (fuel : nat) (c : Cluster) : option (option RunOutcome) :=
  '(_, c) ← bootstrap c;
  r ← cluster_loop fuel c;
  match r with
  | None => Some None
  | Some c =>
      '(_, c) ← check_invariants c;
      '(o, _) ← finalize c;
      Some (Some o)
  end.

(** [run]: one simulation, [None] if it panics. *)
Definition cluster_run (c : Cluster) : option RunOutcome :=
  mjoin (cluster_run_fuel (Z.to_nat (sx_max_events (cs_cfg c)) + 2) c).
Definition run (cfg : SimConfig) : option RunOutcome := c ← cluster_new cfg; cluster_run c.
