(* ===== verification/ClusterRules.v ===== *)
(** * ClusterRules: what every run of the driver keeps ([harness/cluster.rs])

    A handler that is lent the world reaches only what its node may reach.  At
    every moment of a run a server runs exactly on the slots that are up, and the
    history is well formed with each client's operations one after the other.
    The loop ends within the event budget, and what it ends in is judged. *)
From Stdlib Require Import String.
From S2P Require Import Prelude Codec Crc LogFormat RaftLog Recovery Durable Messages Config StateMachine Io Rng Draw.
From S2P Require Import Disk DiskSafety Faults FaultRules Scheduler Net Trace World WorldRules Oracle RaftState Raft RaftInv History.
From S2P Require Import Server ServerRules Invariants Durability Harness Client ClientRules IoRules Cluster ClusterRun.
From Stdlib.Init Require Import Byte.
Local Open Scope Z_scope.

(** ** A handler that is lent the world *)

Definition sim_op (ev : IoEvent) : SimOp :=
  match ev with
  | EvSend to bytes => OpSend to bytes
  | EvWriteAt _ file offset bytes => OpWriteAt file offset bytes
  | EvSetLen _ file len => OpSetLen file len
  | EvSync _ file => OpSync file
  | EvSetTimer _ delay tag => OpSetTimer delay tag
  | EvCancelTimer handle => OpCancel handle
  | EvObserve tag args => OpObserve tag args
  end.

Lemma io_step_sim ev (s s' : SimIo) : io_step ev s s' -> s' = sim_step (sim_op ev) s.
Proof.
  destruct ev; cbn [io_step sim_op sim_step]; intros E; try exact E.
  - exact (f_equal snd (eq_sym E)).
  - exact (f_equal snd (eq_sym E)).
  - exact (f_equal snd (eq_sym E)).
  - exact (f_equal snd (eq_sym E)).
Qed.

Lemma io_steps_sim evs (s s' : SimIo) : io_steps evs s s' -> s' = sim_run (sim_op <$> evs) s.
Proof.
  revert s. induction evs as [|ev evs IH]; intros s; simpl; [done|].
  intros (s1 & ->%io_step_sim & H). by apply IH in H.
Qed.

(** The timers a record of requests cancels. *)
Definition cancelled_by (evs : list IoEvent) : list EventId := concat (cancels <$> (sim_op <$> evs)).

Lemma lend_confined {S A} node (m : M SimIo S A) s w a s' w' :
  regular m -> rng_ok (wd_rng w) -> lend node m s w = Some (a, s', w') ->
  exists evs e, m s (mkEnv (mkSimIo (Some w) node) []) = Some (a, s', mkEnv e evs) /\
    confined node (cancelled_by evs) w w'.
Proof.
  intros Hm Hr. unfold lend. destruct (m s _) as [[[b t] e]|] eqn:E; [|done]. simpl.
  destruct (si_world (env_world e)) as [w1|] eqn:Ew; [|done]. simpl. intros [= <- <- <-].
  destruct (regular_faithful m Hm _ _ _ _ _ E) as (evs & Ht & Hw). simpl in Ht, Hw. apply io_steps_sim in Hw.
  exists evs, (env_world e). split; [destruct e; simpl in *; by subst|].
  rewrite Hw in Ew. exact (sim_run_confined (sim_op <$> evs) (mkSimIo (Some w) node) w w1 Hr eq_refl Ew).
Qed.

(** ** What the driver's steps leave of the world *)

Definition on_time (s : Scheduler) : Prop := Forall (fun e => sc_now s <= se_time e) (sc_queue s).

Record world_ok (w : World) : Prop := {
  wo_rng : rng_ok (wd_rng w);
  wo_time : on_time (wd_sched w);
}.
(** Time stands still and nobody goes down or comes up. *)
Record steady (w w' : World) : Prop := {
  st_ok : world_ok w';
  st_now : world_now w' = world_now w;
  st_up : wd_up w' = wd_up w;
}.

Lemma steady_refl w : world_ok w -> steady w w.
Proof. done. Qed.

Lemma confined_steady node hs w w' : world_ok w -> confined node hs w w' -> steady w w'.
Proof.
  intros [Hr Ht] Hc. split; [split|apply (cf_now _ _ _ _ Hc)|apply (cf_up _ _ _ _ Hc)].
  - by apply (cf_rng _ _ _ _ Hc).
  - destruct (cf_queue _ _ _ _ Hc) as (es & Hq & Hes). unfold on_time. rewrite Hq, (cf_now _ _ _ _ Hc).
    apply Forall_app. split; [done|]. eapply Forall_impl; [exact Hes|]. by intros e [? _].
Qed.

Lemma sched_at_steady time ev w id sched :
  world_ok w -> sched_at time ev (wd_sched w) = Some (id, sched) -> steady w (w ⟨ wd_sched := sched ⟩).
Proof.
  intros [Hr Ht] (Hle & _ & ->)%sched_at_spec. split; [split; [done|]|done..].
  apply Forall_app. split; [exact Ht|by apply Forall_singleton].
Qed.

Lemma sched_retain_time keep s : on_time s -> on_time (sched_retain keep s).
Proof.
  unfold on_time. rewrite !Forall_forall. simpl. intros H e He%list_elem_of_In.
  apply filter_In in He as [He _]. by apply H, list_elem_of_In.
Qed.

Lemma sched_next_time s o s' :
  on_time s -> sched_next s = Some (o, s') ->
  on_time s' /\ sc_now s <= sc_now s' /\ match o with Some f => fd_time f = sc_now s' | None => True end.
Proof.
  unfold sched_next. generalize (S (length (sc_queue s))) as fuel. intros fuel.
  revert s. induction fuel as [|fuel IH]; intros s Ht; simpl; [done|].
  destruct (pop_least (sc_queue s)) as [[e rest]|] eqn:E; [|by intros [= <- <-]].
  apply pop_least_spec in E as [Hq Hleast]. unfold on_time in *. rewrite Hq in Ht. apply Forall_cons in Ht as [He Hrest].
  destruct (is_cancelled _ _).
  - intros H. apply IH in H; [done|]. exact Hrest.
  - destruct (u64_add _ 1); [|done]. intros [= <- <-]. simpl. split; [|done].
    eapply Forall_impl; [exact Hleast|]. cbv beta. intros x Hx. rewrite entry_before_spec in Hx. lia.
Qed.

(** ** Computations that keep an invariant *)

Lemma dbind_Some {A B} (m : Driver A) (k : A -> Driver B) c b c' :
  (m ≫= k) c = Some (b, c') -> exists a c1, m c = Some (a, c1) /\ k a c1 = Some (b, c').
Proof. unfold mbind, Driver_bind. destruct (m c) as [[a c1]|]; [eauto|done]. Qed.
Lemma dlift_Some {A} (o : option A) c a c' : dlift o c = Some (a, c') -> o = Some a /\ c' = c.
Proof. unfold dlift. destruct o; [|done]. by intros [= <- <-]. Qed.
Lemma ask_Some {A} (f : World -> option A) c a c' : ask_world f c = Some (a, c') -> f (cs_world c) = Some a /\ c' = c.
Proof. unfold ask_world. intros (? & ? & [= <- <-] & H)%dbind_Some. by apply dlift_Some in H. Qed.
Lemma on_world_Some {A} (f : World -> option (A * World)) c a c' :
  on_world f c = Some (a, c') -> exists w, f (cs_world c) = Some (a, w) /\ c' = c ⟨ cs_world := w ⟩.
Proof.
  unfold on_world. intros (? & ? & [= <- <-] & H)%dbind_Some. apply dbind_Some in H as ([b w] & ? & [H ->]%dlift_Some & H2).
  apply dbind_Some in H2 as (? & ? & [= _ <-] & [= <- <-]). eauto.
Qed.
Lemma on_world__Some (f : World -> option World) c a c' :
  on_world_ f c = Some (a, c') -> exists w, f (cs_world c) = Some w /\ c' = c ⟨ cs_world := w ⟩.
Proof.
  unfold on_world_. intros (w & H & ->)%on_world_Some. destruct (f (cs_world c)) as [w1|]; [|done].
  injection H as _ <-. eauto.
Qed.

Section Keeps.
Context (I : Cluster -> Prop).

Definition dkeeps {A} (m : Driver A) : Prop := forall c a c', I c -> m c = Some (a, c') -> I c'.

Lemma dkeeps_ret {A} (a : A) : dkeeps (mret a).
Proof. by intros c b c' Hc [= _ <-]. Qed.
Lemma dkeeps_bind {A B} (m : Driver A) (k : A -> Driver B) : dkeeps m -> (forall a, dkeeps (k a)) -> dkeeps (m ≫= k).
Proof.
  intros Hm Hk c b c' Hc. unfold mbind, Driver_bind. destruct (m c) as [[a c1]|] eqn:E; [|done].
  apply Hk. by eapply Hm.
Qed.
Lemma dkeeps_get : dkeeps dget.
Proof. by intros c b c' Hc [= _ <-]. Qed.
Lemma dkeeps_lift {A} (o : option A) : dkeeps (dlift o).
Proof. intros c b c' Hc. unfold dlift. destruct o; [|done]. by intros [= _ <-]. Qed.
Lemma dkeeps_modify f : (forall c, I c -> I (f c)) -> dkeeps (dmodify f).
Proof. intros Hf c b c' Hc [= _ <-]. auto. Qed.
Lemma dkeeps_when b m : dkeeps m -> dkeeps (dwhen b m).
Proof. intros Hm. destruct b; [done|apply dkeeps_ret]. Qed.
Lemma dkeeps_for_each {A} (l : list A) (f : A -> Driver unit) : (forall a, dkeeps (f a)) -> dkeeps (dfor_each l f).
Proof.
  intros Hf. induction l as [|a l IH]; [apply dkeeps_ret|]. apply dkeeps_bind; [apply Hf|]. by intros _.
Qed.
Lemma dkeeps_on_world {A} (f : World -> option (A * World)) :
  (forall c a w, I c -> f (cs_world c) = Some (a, w) -> I (c ⟨ cs_world := w ⟩)) -> dkeeps (on_world f).
Proof.
  intros Hf c b c' Hc. unfold on_world, mbind, Driver_bind. simpl.
  destruct (f (cs_world c)) as [[a w]|] eqn:E; [|done]. simpl. intros [= _ <-]. by eapply Hf.
Qed.
End Keeps.

(** A draw keeps a generator of 64-bit words. *)
Definition plain {A} (m : Draw A) : Prop := draws m (fun _ => True).
Lemma plain_of {A} (m : Draw A) P : draws m P -> plain m.
Proof. apply draws_true. Qed.
Lemma plain_bind {A B} (m : Draw A) (k : A -> Draw B) : plain m -> (forall a, plain (k a)) -> plain (m ≫= k).
Proof. apply draws_skip. Qed.
Lemma plain_ret {A} (a : A) : plain (mret a).
Proof. by apply draws_ret. Qed.
Lemma plain_ensure {A} (o : option A) : plain (ensure o).
Proof. by apply draws_ensure. Qed.
Lemma plain_below n : plain (below n).
Proof. by apply draws_below. Qed.
Lemma plain_range lo hi : plain (range lo hi).
Proof. by apply draws_range. Qed.
Lemma plain_chance ppm : plain (chance ppm).
Proof. by apply draws_chance. Qed.
Lemma plain_choose {A} (l : list A) : plain (choose l).
Proof. by apply draws_choose. Qed.
Lemma plain_shuffle {A} (l : list A) : plain (shuffle l).
Proof. by apply draws_shuffle. Qed.
Lemma plain_fi_count (f : FaultStats -> Z) `{!Setter f} i : plain (fi_count f i).
Proof. eapply plain_of, draws_fi_count. Qed.
Create HintDb plain discriminated.
#[export] Hint Resolve plain_ret plain_ensure plain_below plain_range plain_chance plain_choose plain_shuffle
  plain_fi_count : plain.
Ltac plain_step :=
  first
    [ solve [auto with plain]
    | simple apply plain_bind; [|intro]
    | match goal with
      | |- plain (match ?x with _ => _ end) => destruct x
      | |- plain ?m => let h := head_of m in progress unfold h
      end ].
Ltac plain := intros; repeat (cbv beta zeta; plain_step).

Lemma plain_disk_crash d : plain (disk_crash d).
Proof.
  eapply plain_of. apply (draws_disk_crash (fun _ _ _ => True)). intros i f st _.
  eapply draws_mono; [apply (draws_crash_file _ _ _ 0 0); [|lia]|done].
  apply Forall_true. intros [|]; simpl; lia.
Qed.
Lemma plain_fault_decide i now up hint : plain (fault_decide i now up hint).
Proof. plain. Qed.
Lemma plain_place_clients clients groups : plain (place_clients clients groups).
Proof.
  unfold place_clients. revert groups. induction clients as [|cl clients IH]; intros groups; simpl; [plain|].
  apply plain_bind; [plain|apply IH].
Qed.
#[export] Hint Resolve plain_fault_decide plain_place_clients : plain.

(** ** The invariant of the driver *)

Record cluster_ok (cfg : SimConfig) (ev n : Z) (now : Nanos) (c : Cluster) : Prop := {
  kc_cfg : cs_cfg c = cfg;
  kc_events : cs_events c = ev;
  kc_complete : cs_incomplete c = (sx_max_events cfg <? ev);
  kc_world : world_ok (cs_world c);
  kc_now : world_now (cs_world c) = now;
  kc_slots : length (cs_servers c) = cs_slots c;
  kc_config : cs_slots c = config_slots cfg;
  kc_running : forall i s, cs_servers c !! i = Some s -> wd_up (cs_world c) !! i = Some (bool_decide (is_Some s));
  kc_raft : cfg_bug (sx_raft cfg) = BugNone -> forall i s, cs_servers c !! i = Some (Some s) -> Inv (sv_raft s);
  kc_hist : history_ok now (cs_history c);
  kc_bound : n < 2 ^ 32;
  kc_count : length (cs_clients c) = sx_clients cfg;
  kc_owners : forall o, o ∈ h_ops (cs_history c) -> 0 <= lo_client o < Z.of_nat (sx_clients cfg);
  kc_clients : forall j cl, cs_clients c !! j = Some cl -> exists tr arrived,
    client_inv (Z.of_nat j) (node_id <$> seq 0 (config_slots cfg)) (sx_workload cfg)
      (fun d => own d (cs_history c)) arrived n now cl (cs_history c) tr;
}.

(** What the invariant speaks of. *)
Definition vitals (c : Cluster) := (cs_cfg c, cs_events c, cs_incomplete c, cs_world c, cs_slots c, cs_servers c, cs_clients c, cs_history c).

Lemma cluster_ok_vitals cfg ev n now c c' : vitals c' = vitals c -> cluster_ok cfg ev n now c -> cluster_ok cfg ev n now c'.
Proof.
  unfold vitals. intros [= E1 E2 E3 E4 E5 E6 E7 E8] []. split; rewrite ?E1, ?E2, ?E3, ?E4, ?E5, ?E6, ?E7, ?E8; done.
Qed.

Lemma cluster_ok_steady cfg ev n now c w :
  cluster_ok cfg ev n now c -> steady (cs_world c) w -> cluster_ok cfg ev n now (c ⟨ cs_world := w ⟩).
Proof. intros [] [Hok Hnow Hup]. split; simpl; rewrite ?Hnow, ?Hup; done. Qed.

Lemma cluster_ok_weaken cfg ev n now c : n + 1 < 2 ^ 32 -> cluster_ok cfg ev n now c -> cluster_ok cfg ev (n + 1) now c.
Proof.
  intros Hn []. split; try done. intros j cl Hj. destruct (kc_clients0 j cl Hj) as (tr & arr & Hi).
  exists tr, arr. by apply client_inv_weaken.
Qed.

(** Time passes between two events. *)
Lemma cluster_ok_later cfg ev n now now' c sched :
  cluster_ok cfg ev n now c -> on_time sched -> sc_now sched = now' -> now <= now' ->
  cluster_ok cfg ev n now' (c ⟨ cs_world := (cs_world c) ⟨ wd_sched := sched ⟩ ⟩).
Proof.
  intros [? ? ? [Hr Ht]] Hs Hnow Hle. split; try done; simpl.
  - by eapply history_ok_later.
  - intros j cl Hj. destruct (kc_clients0 j cl Hj) as (tr & arr & Hi).
    exists tr, arr. by eapply client_inv_later.
Qed.

(** A server replaced by a server. *)
Lemma cluster_ok_server cfg ev n now c i s s' :
  cluster_ok cfg ev n now c -> cs_servers c !! i = Some (Some s) -> (Inv (sv_raft s) -> Inv (sv_raft s')) ->
  cluster_ok cfg ev n now (c ⟨ cs_servers := <[i := Some s']> (cs_servers c) ⟩).
Proof.
  intros [] Hi HI. split; try done; simpl; [by rewrite length_insert| |].
  - intros k t. destruct (decide (k = i)) as [->|Hne].
    + rewrite list_lookup_insert_eq by (by eapply lookup_lt_Some). intros [= <-]. by apply (kc_running0 i (Some s)).
    + rewrite list_lookup_insert_ne by done. apply kc_running0.
  - intros Hb k t. destruct (decide (k = i)) as [->|Hne].
    + rewrite list_lookup_insert_eq by (by eapply lookup_lt_Some). intros [= <-]. eapply HI, kc_raft0; done.
    + rewrite list_lookup_insert_ne by done. by apply kc_raft0.
Qed.

(** A server's handler keeps its Raft node well formed. *)
Definition raft_kept {A} (m : M SimIo KvServer A) : Prop :=
  forall s e, Inv (sv_raft s) -> wp m (fun _ s' _ => Inv (sv_raft s')) s e.

Lemma raft_kept_handle ev : raft_kept (server_handle ev).
Proof.
  intros s e Hi. eapply wp_mono; [apply (keeps_server_handle (option_list (event_ticket ev) ++ open_tickets s) e ev [])|].
  - split; [done|]. exists []. split; [by rewrite app_nil_r|]. unfold within. by rewrite app_nil_r.
  - by intros a s' e' [Hi' _].
Qed.
Lemma raft_kept_membership members : raft_kept (server_propose_membership members).
Proof.
  intros s e Hi. pose proof (raft_kept_handle (SvMembership members) s e Hi) as Hw. unfold wp in *.
  simpl in Hw. unfold mbind, M_bind in Hw. by destruct (server_propose_membership _ _ _) as [[[]]|].
Qed.

(** Bookkeeping that touches none of it. *)
Definition quiet {A} (m : Driver A) : Prop := forall v, dkeeps (fun c => vitals c = v) m.

Lemma quiet_of {A} (m : Driver A) c a c' : quiet m -> m c = Some (a, c') -> vitals c' = vitals c.
Proof. intros Hm H. by eapply (Hm (vitals c)). Qed.
Lemma quiet_modify f : (forall c, vitals (f c) = vitals c) -> quiet (dmodify f).
Proof. intros Hf v. apply dkeeps_modify. intros c <-. apply Hf. Qed.
Lemma quiet_bind {A B} (m : Driver A) (k : A -> Driver B) : quiet m -> (forall a, quiet (k a)) -> quiet (m ≫= k).
Proof. intros Hm Hk v. apply dkeeps_bind; [apply Hm|]. intros a. apply Hk. Qed.
Lemma quiet_report kind time node : quiet (add_report kind time node).
Proof. by apply quiet_modify. Qed.
Lemma quiet_extend vs : quiet (extend_report vs).
Proof. by apply quiet_modify. Qed.
Lemma quiet_ret {A} (a : A) : quiet (mret a).
Proof. intros v. apply dkeeps_ret. Qed.
Lemma quiet_get : quiet dget.
Proof. intros v. apply dkeeps_get. Qed.
Lemma quiet_lift {A} (o : option A) : quiet (dlift o).
Proof. intros v. apply dkeeps_lift. Qed.
Lemma quiet_when b m : quiet m -> quiet (dwhen b m).
Proof. intros Hm v. by apply dkeeps_when. Qed.
Lemma quiet_for_each {A} (l : list A) (f : A -> Driver unit) : (forall a, quiet (f a)) -> quiet (dfor_each l f).
Proof. intros Hf v. apply dkeeps_for_each. intros a. apply Hf. Qed.
Lemma quiet_ask {A} (f : World -> option A) : quiet (ask_world f).
Proof. apply quiet_bind; [apply quiet_get|]. intros c. apply quiet_lift. Qed.
Lemma quiet_dbump (f : RunStats -> Z) `{!Setter f} : quiet (dbump f).
Proof.
  apply quiet_bind; [apply quiet_get|]. intros c. apply quiet_bind; [apply quiet_lift|]. intros v.
  by apply quiet_modify.
Qed.
Create HintDb quiet discriminated.
#[export] Hint Resolve quiet_ret quiet_get quiet_lift quiet_report quiet_extend quiet_ask quiet_dbump : quiet.
(** Walk through code that only keeps books. *)
Ltac quiet_step :=
  first
    [ solve [auto with quiet]
    | simple apply quiet_bind; [|intro]
    | simple apply quiet_when
    | simple apply quiet_for_each; intro
    | simple apply quiet_modify; intro; reflexivity
    | match goal with
      | |- quiet (match ?x with _ => _ end) => destruct x
      | |- quiet ?m => let h := head_of m in progress unfold h
      end ].
Ltac quiet := intros; repeat (cbv beta zeta; quiet_step).

Section DriverKeeps.
Context (cfg : SimConfig) (count n : Z) (now : Nanos).

Abbreviation kept_by m := (dkeeps (cluster_ok cfg count n now) m).

Lemma kept_quiet {A} (m : Driver A) : quiet m -> kept_by m.
Proof. intros Hm c a c' Hc E. eapply cluster_ok_vitals; [by eapply quiet_of|done]. Qed.
Lemma kept_ask {A} (f : World -> option A) : kept_by (ask_world f).
Proof. apply dkeeps_bind; [apply dkeeps_get|]. intros c. apply dkeeps_lift. Qed.

(** Operations of the world that leave it steady. *)
Lemma kept_steady {A} (f : World -> option (A * World)) :
  (forall w a w', world_ok w -> f w = Some (a, w') -> steady w w') -> kept_by (on_world f).
Proof.
  intros Hf. apply dkeeps_on_world. intros c a w Hc E. apply cluster_ok_steady; [done|].
  eapply Hf; [apply Hc|exact E].
Qed.
Lemma kept_steady_ (f : World -> option World) :
  (forall w w', world_ok w -> f w = Some w' -> steady w w') -> kept_by (on_world_ f).
Proof.
  intros Hf. apply kept_steady. intros w [] w' Hw. destruct (f w) as [w1|] eqn:E; [|done].
  intros [= <-]. by apply Hf.
Qed.
Lemma kept_on_net f : kept_by (on_net f).
Proof. apply kept_steady_. intros w w' [] [= <-]. done. Qed.
Lemma kept_on_rng {A} (m : Draw A) : plain m -> kept_by (on_rng m).
Proof.
  intros Hm. apply kept_steady. intros w a w' [Hr Ht]. destruct (m (wd_rng w)) as [[b r]|] eqn:E; [|done].
  intros [= _ <-]. apply Hm in E as [_ Hr']; [|done]. done.
Qed.
Lemma kept_sched_at time ev : kept_by (on_sched (sched_at time ev)).
Proof.
  apply kept_steady_. intros w w' Hw. destruct (sched_at _ _ _) as [[id s]|] eqn:E; [|done].
  intros [= <-]. by eapply sched_at_steady.
Qed.
Lemma kept_sched_after delay ev : kept_by (on_sched (sched_after delay ev)).
Proof.
  apply kept_steady_. intros w w' Hw. destruct (sched_after _ _ _) as [[id s]|] eqn:E; [|done].
  intros [= <-]. by eapply sched_at_steady.
Qed.
Lemma observe_steady node tag args w w' : world_ok w -> world_observe node tag args w = Some w' -> steady w w'.
Proof. intros Hw Ho. eapply (confined_steady 0); [done|]. by eapply observe_confined. Qed.
Lemma kept_observe node tag args : kept_by (on_world_ (world_observe node tag args)).
Proof. apply kept_steady_, observe_steady. Qed.
Lemma kept_log level node cat msg : kept_by (on_world_ (world_log level node cat msg)).
Proof.
  apply kept_steady_. intros w w' []. unfold world_log. destruct (trace_log _ _ _ _ _ _); [|done]. by intros [= <-].
Qed.
Lemma kept_clock_jump node delta : kept_by (on_world_ (clock_jump node delta)).
Proof.
  apply kept_steady_. intros w w' [Hr Ht]. unfold clock_jump. destruct (_ !! _) as [s|]; [|done]. simpl.
  destruct (i64_checked _) as [o|]; [|done]. simpl. intros Ho. apply observe_steady in Ho as [H1 H2 H3]; done.
Qed.
Lemma kept_accept from to : kept_by (on_world (world_accept from to)).
Proof.
  apply kept_steady. intros w ok w' Hw. unfold world_accept. destruct (is_up to w) as [[]|]; [|by intros [= _ <-]|done].
  simpl. destruct (accept_delivery _ _ _ _) as [[[b net] r]|] eqn:E; [|done]. simpl. intros [= _ <-].
  assert (Hp : plain (accept_delivery from to (wd_net w))) by (unfold accept_delivery, net_count; plain).
  destruct Hw as [Hr Ht]. apply Hp in E as [_ Hr']; done.
Qed.
Lemma kept_decide t up hint :
  kept_by (on_world (fun w =>
    '((action, i), rng) ← fault_decide (wd_faults w) t up hint (wd_rng w);
    Some (action, w ⟨ wd_rng := rng ⟩ ⟨ wd_faults := i ⟩))).
Proof.
  apply kept_steady. intros w a w' [Hr Ht]. destruct (fault_decide _ _ _ _ _) as [[[b i] r]|] eqn:E; [|done].
  simpl. intros [= _ <-]. apply plain_fault_decide in E as [_ Hr']; done.
Qed.

(** A server's handler. *)
Lemma kept_at_server {A} node (m : M SimIo KvServer A) : regular m -> raft_kept m -> kept_by (at_server node m).
Proof.
  intros Hm Hk c a c' Hc. unfold at_server, mbind, Driver_bind. simpl.
  destruct (cs_servers c !! node_idx node) as [[s|]|] eqn:Es; [| |done]; simpl; [|by intros [= _ <-]].
  destruct (lend node m s (cs_world c)) as [[[b s'] w]|] eqn:El; [|done]. simpl. intros [= _ <-].
  destruct (lend_confined node m s (cs_world c) b s' w Hm ltac:(apply Hc) El) as (evs & e & Hrun & Hconf).
  assert (Hw : cluster_ok cfg count n now (c ⟨ cs_world := w ⟩)).
  { apply cluster_ok_steady; [done|]. eapply confined_steady; [apply Hc|exact Hconf]. }
  refine (cluster_ok_server _ _ _ _ _ _ s s' Hw Es _). intros Hi. exact (wp_Some _ _ _ _ _ _ _ (Hk _ _ Hi) Hrun).
Qed.

(** ** Crashes and restarts *)

Lemma crash_node_steady node w w' :
  world_ok w -> is_up node w = Some true -> crash_node node w = Some w' ->
  world_ok w' /\ world_now w' = world_now w /\ wd_up w' = <[node_idx node := false]> (wd_up w).
Proof.
  intros [Hr Ht] Hup. unfold crash_node. rewrite Hup. simpl. destruct (wd_disks w !! node_idx node) as [d|]; [|done]. simpl.
  destruct (disk_crash d (wd_rng w)) as [[d' r]|] eqn:Ec; [|done]. simpl.
  destruct (wd_incarnation w !! node_idx node) as [inc|]; [|done]. simpl. destruct (u64_add inc 1); [|done]. simpl.
  apply plain_disk_crash in Ec as [_ Hr']; [|done].
  intros Ho. apply observe_steady in Ho as [H1 H2 H3].
  - by rewrite H2, H3.
  - split; [done|]. by apply sched_retain_time.
Qed.


(** The slot of a node that is down runs no server, and the other way round. *)
Lemma cluster_ok_slot c i slot w :
  cluster_ok cfg count n now c -> world_ok w -> world_now w = world_now (cs_world c) ->
  wd_up w = <[i := bool_decide (is_Some slot)]> (wd_up (cs_world c)) ->
  (cfg_bug (sx_raft cfg) = BugNone -> forall s, slot = Some s -> Inv (sv_raft s)) ->
  cluster_ok cfg count n now (c ⟨ cs_world := w ⟩ ⟨ cs_servers := <[i := slot]> (cs_servers c) ⟩).
Proof.
  intros [] Hw Hnow Hup HI. split; simpl; rewrite ?Hnow, ?Hup, ?length_insert; try done.
  - intros k t Hk. destruct (decide (k = i)) as [->|Hne].
    + assert (Hlt : (i < length (cs_servers c))%nat).
      { apply lookup_lt_Some in Hk. by rewrite length_insert in Hk. }
      rewrite list_lookup_insert_eq in Hk by done. injection Hk as <-.
      destruct (lookup_lt_is_Some_2 _ _ Hlt) as [s0 Hs0]. apply kc_running0, lookup_lt_Some in Hs0.
      by rewrite list_lookup_insert_eq.
    + rewrite list_lookup_insert_ne in Hk by done. rewrite list_lookup_insert_ne by done. by apply kc_running0.
  - intros Hb k t Hk. destruct (decide (k = i)) as [->|Hne].
    + rewrite list_lookup_insert_eq in Hk by (apply lookup_lt_Some in Hk; by rewrite length_insert in Hk).
      injection Hk as ->. by apply HI.
    + rewrite list_lookup_insert_ne in Hk by done. by eapply kc_raft0.
Qed.

Lemma cluster_crash_spec node c a c' :
  cluster_crash node c = Some (a, c') ->
  is_up node (cs_world c) = Some false /\ c' = c \/
  exists c1 w, is_up node (cs_world c) = Some true /\ vitals c1 = vitals c /\
    crash_node node (cs_world c1) = Some w /\
    c' = c1 ⟨ cs_world := w ⟩ ⟨ cs_servers := <[node_idx node := None]> (cs_servers c1) ⟩.
Proof.
  unfold cluster_crash, ask_world, on_world_, on_world, mbind, Driver_bind. simpl.
  destruct (is_up node (cs_world c)) as [[]|] eqn:Hup; [|intros [= _ <-]; auto|done]. simpl.
  destruct (cs_servers c !! node_idx node) as [[s|]|]; [| |done]; simpl;
    (destruct (crash_node node (cs_world c)) as [w|] eqn:Ew; [|done]); simpl; intros [= _ <-]; right.
  - eexists (c ⟨ cs_pre_crash_log := _ ⟩ ⟨ cs_retired := _ ⟩), w. done.
  - by exists c, w.
Qed.

Lemma kept_cluster_crash node : kept_by (cluster_crash node).
Proof.
  intros c a c' Hc [[_ ->]|(c1 & w & Hup & Hv & Ew & ->)]%cluster_crash_spec; [done|].
  assert (Hc1 : cluster_ok cfg count n now c1) by (by eapply cluster_ok_vitals).
  assert (E1 : cs_world c1 = cs_world c) by (unfold vitals in Hv; congruence).
  destruct (crash_node_steady node (cs_world c1) w) as (Hw & Hnow & Hu); [apply Hc1|by rewrite E1|done|].
  by refine (cluster_ok_slot c1 (node_idx node) None w Hc1 Hw Hnow Hu _).
Qed.

(** The first step of a restart: the node is up, its slot still empty. *)
Lemma restart_node_steady node w w' :
  world_ok w -> is_up node w = Some false -> restart_node node w = Some w' ->
  world_ok w' /\ world_now w' = world_now w /\ wd_up w' = <[node_idx node := true]> (wd_up w).
Proof.
  intros Hw Hup. unfold restart_node. rewrite Hup. simpl. intros Ho.
  apply observe_steady in Ho as [H1 H2 H3]; [|by destruct Hw]. by rewrite H2, H3.
Qed.


Lemma kept_cluster_restart node t : kept_by (cluster_restart node t).
Proof.
  intros c a c' Hc. unfold cluster_restart. intros (up & ? & [Hup ->]%ask_Some & H)%dbind_Some.
  destruct up; [by injection H as _ <-|]. simpl in H.
  apply dbind_Some in H as (? & ? & (w1 & Ew1 & ->)%on_world__Some & H).
  apply dbind_Some in H as (? & ? & [= <- <-] & H). apply dbind_Some in H as (inc & ? & [_ ->]%dlift_Some & H).
  apply dbind_Some in H as ([[server []] w2] & ? & [Hl ->]%dlift_Some & H). simpl in Hl.
  apply dbind_Some in H as (? & ? & [= _ <-] & H).
  assert (Hq : exists c1 c2, vitals c1 = vitals (c ⟨ cs_world := w1 ⟩ ⟨ cs_world := w2 ⟩) /\
    c2 = c1 ⟨ cs_servers := <[node_idx node := Some server]> (cs_servers c1) ⟩ /\ dbump ru_restarts c2 = Some (a, c')).
  { apply dbind_Some in H as (? & c1 & Hq1%quiet_of & H); [|quiet].
    apply dbind_Some in H as (? & c2 & Hq2%quiet_of & H); [|quiet].
    apply dbind_Some in H as (? & ? & [_ ->]%dlift_Some & H). apply dbind_Some in H as (? & ? & [= _ <-] & H).
    exists c2. eexists. split; [by rewrite Hq2|]. split; [|exact H]. done. }
  destruct Hq as (c1 & c2 & Hv & -> & Hb%quiet_of); [|quiet].
  eapply cluster_ok_vitals; [exact Hb|].
  apply restart_node_steady in Ew1 as (Hw1 & Hn1 & Hu1); [|apply Hc|done].
  destruct (lend_confined _ _ _ _ _ _ _ (regular_server_recover _ _ _ _) (wo_rng _ Hw1) Hl) as (evs & e & Hrun & Hconf).
  apply confined_steady in Hconf as [Hw2 Hn2 Hu2]; [|done].
  unfold vitals in Hv. injection Hv as E1 E2 E3 E4 E5 E6 E7 E8. simpl in *.
  eapply (cluster_ok_vitals cfg count n now (c ⟨ cs_world := w2 ⟩ ⟨ cs_servers := <[node_idx node := Some server]> (cs_servers c) ⟩)).
  { unfold vitals. simpl. by rewrite E1, E2, E3, E4, E5, E6, E7, E8. }
  apply cluster_ok_slot; [done|done|by rewrite Hn2|by rewrite Hu2|].
  intros Hbug s [= <-]. rewrite <-(kc_cfg _ _ _ _ _ Hc) in Hbug.
  by destruct (wp_Some _ _ _ _ _ _ _ (keeps_server_recover _ _ _ _ [] _ Hbug) Hrun) as [Hi _].
Qed.

(** A client's handler: the other clients do not notice. *)
Lemma client_slot_ok c i cl cl' w h' tr' arrived' :
  cluster_ok cfg count n now c -> cs_clients c !! i = Some cl -> steady (cs_world c) w -> n + 1 < 2 ^ 32 ->
  client_inv (Z.of_nat i) (node_id <$> seq 0 (config_slots cfg)) (sx_workload cfg) (fun d => own d (cs_history c)) arrived' (n + 1) now cl' h' tr' ->
  cluster_ok cfg count (n + 1) now (c ⟨ cs_world := w ⟩ ⟨ cs_clients := <[i := cl']> (cs_clients c) ⟩ ⟨ cs_history := h' ⟩).
Proof.
  intros [] Hi [Hw Hnow Hup] Hn Hinv. pose proof (ci_base _ _ _ _ _ _ _ _ _ _ Hinv) as Hb.
  split; simpl; rewrite ?Hnow, ?Hup, ?length_insert; try done; [apply Hb| |].
  { intros o Ho. destruct (decide (lo_client o = Z.of_nat i)) as [->|Hne].
    - apply lookup_lt_Some in Hi. lia.
    - apply (kc_owners0 o). assert (Hin : o ∈ own (lo_client o) h') by by apply own_elem.
      rewrite (cb_others _ _ _ _ _ _ _ _ _ _ Hb _ Hne) in Hin. by apply own_elem in Hin as [? _]. }
  intros j cl1. destruct (decide (j = i)) as [->|Hne].
  - rewrite list_lookup_insert_eq by (by eapply lookup_lt_Some). intros [= <-].
    exists tr', arrived'. destruct Hinv as [[] Ha Hk]. split; [|done..]. by split.
  - rewrite list_lookup_insert_ne by done. intros Hj.
    destruct (kc_clients0 j cl1 Hj) as (tr1 & arr1 & Hi1). exists tr1, arr1.
    apply client_inv_weaken; [done|]. eapply client_inv_frame; [|apply Hb|exact Hi1].
    eapply (cb_others _ _ _ _ _ _ _ _ _ _ Hb). lia.
Qed.

(** What a client's handler needs to be run by the driver. *)
Definition client_handler (m : M SimIo (Client * History) unit) : Prop :=
  regular m /\
  exists arrived0, forall id servers cfg others arrived pre cl h (e : Env SimIo),
    0 < (wl_retry_backoff cfg).1 -> n + 1 < 2 ^ 32 -> arrived0 ⊆ arrived ->
    client_inv id servers cfg others arrived n now cl h (pre ++ env_trace e) ->
    wp m (fun _ s e' => client_inv id servers cfg others arrived (n + 1) now s.1 s.2 (pre ++ env_trace e')) (cl, h) e.

Lemma handler_on_bytes bytes : client_handler (client_on_bytes now bytes).
Proof.
  split; [apply regular_client_on_bytes|]. exists [(now, bytes)]. intros. eapply wp_client_on_bytes; try done. set_solver.
Qed.
Lemma handler_on_timer tag : client_handler (client_on_timer now tag).
Proof. split; [apply regular_client_on_timer|]. exists []. intros. by eapply wp_client_on_timer. Qed.

(** Steps in which one client event may happen. *)
Definition grows {A} (m : Driver A) : Prop :=
  n + 1 < 2 ^ 32 -> 0 < (wl_retry_backoff (sx_workload cfg)).1 ->
  forall c a c', cluster_ok cfg count n now c -> m c = Some (a, c') -> cluster_ok cfg count (n + 1) now c'.

Lemma grows_kept {A} (m : Driver A) : kept_by m -> grows m.
Proof. intros Hm Hn _ c a c' Hc E. apply cluster_ok_weaken; [done|]. by eapply Hm. Qed.
Lemma grows_bind {A B} (m : Driver A) (k : A -> Driver B) : kept_by m -> (forall a, grows (k a)) -> grows (m ≫= k).
Proof. intros Hm Hk Hn Hp c b c' Hc (a & c1 & E & H)%dbind_Some. eapply Hk; [done|done| |exact H]. by eapply Hm. Qed.

Lemma grows_at_client node m : client_handler m -> grows (at_client node m).
Proof.
  intros [Hf (arr0 & Hm)] Hn Hp c a c' Hc. unfold at_client.
  intros (? & ? & [= <- <-] & H)%dbind_Some. apply dbind_Some in H as (cl & ? & [Hcl ->]%dlift_Some & H).
  apply dbind_Some in H as ([[u [cl' h']] w] & ? & [Hl ->]%dlift_Some & [= <- <-]).
  destruct (kc_clients _ _ _ _ _ Hc _ _ Hcl) as (tr & arr & Hi).
  destruct (lend_confined _ _ _ _ _ _ _ Hf (wo_rng _ (kc_world _ _ _ _ _ Hc)) Hl) as (evs & e & Hrun & Hconf).
  apply confined_steady in Hconf; [|apply Hc].
  eapply (client_inv_arrived _ _ _ _ _ (arr ++ arr0)) in Hi; [|set_solver].
  refine (client_slot_ok c _ cl cl' w h' (tr ++ evs) (arr ++ arr0) Hc Hcl Hconf Hn _).
  refine (wp_Some _ _ _ _ _ _ _ (Hm _ _ (sx_workload cfg) _ (arr ++ arr0) tr _ _ _ Hp Hn _ _) Hrun); [set_solver|].
  simpl. by rewrite app_nil_r.
Qed.

(** ** The rest of an event *)

Lemma kept_bind {A B} (m : Driver A) (k : A -> Driver B) : kept_by m -> (forall a, kept_by (k a)) -> kept_by (m ≫= k).
Proof. apply dkeeps_bind. Qed.
Lemma kept_when b m : kept_by m -> kept_by (dwhen b m).
Proof. apply dkeeps_when. Qed.
Lemma kept_for_each {A} (l : list A) (f : A -> Driver unit) : (forall a, kept_by (f a)) -> kept_by (dfor_each l f).
Proof. apply dkeeps_for_each. Qed.
End DriverKeeps.

Create HintDb kept discriminated.
#[export] Hint Resolve kept_on_net kept_sched_at kept_sched_after kept_observe kept_log kept_clock_jump kept_accept
  kept_decide kept_cluster_crash kept_cluster_restart : kept.
Ltac kept_step :=
  first
    [ solve [auto with kept]
    | simple apply kept_quiet; solve [auto with quiet | simple apply quiet_modify; intro; reflexivity]
    | simple apply kept_bind; [|intro]
    | simple apply kept_when
    | simple apply kept_for_each; intro
    | simple apply kept_on_rng; plain
    | simple apply kept_at_server; [solve [regular]|solve [apply raft_kept_membership | apply (raft_kept_handle (SvTimer _))
        | apply (raft_kept_handle (SvBytes _ _)) | apply (raft_kept_handle (SvStorage _ _))]]
    | match goal with
      | |- dkeeps _ (match ?x with _ => _ end) => destruct x
      | |- dkeeps _ ?m => let h := head_of m in progress unfold h
      end ].
Ltac kept := intros; repeat (cbv beta zeta; kept_step).

Section DriverEvents.
Context (cfg : SimConfig) (count n : Z) (now : Nanos).
Abbreviation kept_by m := (dkeeps (cluster_ok cfg count n now) m).

Lemma kept_reconfigure : kept_by reconfigure.
Proof. kept. Qed.
#[local] Hint Resolve kept_reconfigure : kept.
Lemma kept_schedule_heal : kept_by schedule_heal.
Proof. kept. Qed.
#[local] Hint Resolve kept_schedule_heal : kept.
Lemma kept_apply_fault action t : kept_by (apply_fault action t).
Proof. kept. Qed.
#[local] Hint Resolve kept_apply_fault : kept.
Lemma kept_reap_failed : kept_by reap_failed.
Proof. kept. Qed.
Lemma kept_fault_tick t : kept_by (fault_tick t).
Proof. kept. Qed.
#[local] Hint Resolve kept_fault_tick : kept.
Lemma kept_stop_clients : kept_by (dmodify (fun c => c ⟨ cs_clients := client_stop <$> cs_clients c ⟩)).
Proof.
  apply dkeeps_modify. intros c []. split; try done; simpl; [by rewrite length_fmap|]. intros j cl. rewrite list_lookup_fmap.
  destruct (cs_clients c !! j) as [cl0|] eqn:Ej; [|done]. intros [= <-].
  destruct (kc_clients0 j cl0 Ej) as (tr & arr & ?). exists tr, arr.
  by apply client_inv_stop.
Qed.
#[local] Hint Resolve kept_stop_clients : kept.
Lemma kept_on_app tag arg t : kept_by (cluster_on_app tag arg t).
Proof. kept. Qed.
Lemma kept_check_reads_of t committed node : kept_by (check_reads_of t committed node).
Proof.
  intros c a c' Hc. unfold check_reads_of. intros (? & ? & [= <- <-] & H)%dbind_Some.
  apply dbind_Some in H as ([s|] & ? & [Hs ->]%dlift_Some & H); [|by injection H as _ <-].
  destruct (take_read_events (sv_raft s)) as [evs r] eqn:Er. injection Er as <- <-.
  apply dbind_Some in H as (? & ? & [= _ <-] & H%quiet_of).
  - eapply cluster_ok_vitals; [exact H|]. eapply cluster_ok_server; [done|done|]. intros []. by split.
  - quiet.
Qed.
#[local] Hint Resolve kept_check_reads_of : kept.
Lemma kept_check_reads : kept_by check_reads.
Proof. kept. Qed.
Lemma kept_check_durable_claims : kept_by check_durable_claims.
Proof. kept. Qed.
Lemma kept_check_invariants : kept_by check_invariants.
Proof. kept. Qed.

Lemma grows_at_server {A} node (m : M SimIo KvServer A) :
  regular m -> raft_kept m -> grows cfg count n now (_ ← at_server node m; mret tt).
Proof. intros. apply grows_kept. by apply kept_bind; [apply kept_at_server|intros; apply dkeeps_ret]. Qed.
Lemma grows_when b m : grows cfg count n now m -> grows cfg count n now (dwhen b m).
Proof. intros Hm. destruct b; [done|]. apply grows_kept, dkeeps_ret. Qed.

Lemma grows_dispatch f : fd_time f = now -> grows cfg count n now (dispatch f).
Proof.
  intros Ht. unfold dispatch. rewrite Ht. destruct (fd_event f) as [node timer|from to payload k|node op result|action|tag arg].
  - unfold cluster_on_timer. apply grows_bind; [kept|]. intros c. destruct (is_client c node).
    { apply grows_at_client, handler_on_timer. }
    apply grows_bind; [kept|]. intros up. apply grows_when, grows_at_server; [apply regular_server_on_timer|].
    apply (raft_kept_handle (SvTimer _)).
  - unfold cluster_on_deliver. apply grows_bind; [kept|]. intros c. apply grows_bind; [kept|]. intros _.
    apply grows_bind; [kept|]. intros ok. apply grows_when, grows_bind; [kept|]. intros _. apply grows_bind; [kept|].
    intros _. destruct (is_client c to); [apply grows_at_client, handler_on_bytes|].
    apply grows_at_server; [apply regular_on_bytes|]. apply (raft_kept_handle (SvBytes _ _)).
  - unfold cluster_on_storage. apply grows_bind; [kept|]. intros up. apply grows_when, grows_at_server;
      [apply regular_server_on_storage|]. apply (raft_kept_handle (SvStorage _ _)).
  - apply grows_kept, kept_apply_fault.
  - apply grows_kept, kept_on_app.
Qed.
End DriverEvents.

#[export] Hint Resolve kept_check_reads kept_reap_failed kept_check_invariants kept_check_durable_claims : kept.

Lemma grows_cluster_step cfg count n now f : fd_time f = now -> grows cfg count n now (cluster_step f).
Proof.
  intros Ht Hn Hp c a c' Hc. unfold cluster_step. intros (? & c1 & E & H)%dbind_Some.
  apply (grows_dispatch cfg count n now f Ht Hn Hp) in E; [|done]. revert H.
  enough (Hk : forall m : Driver unit, dkeeps (cluster_ok cfg count (n + 1) now) m -> m c1 = Some (a, c') ->
    cluster_ok cfg count (n + 1) now c') by (apply Hk; kept).
  intros m Hm. by apply Hm.
Qed.

(** ** The loop *)

(** One turn of the loop: the clock moves to the next event, which is counted. *)
Lemma loop_turn cfg count now c fired sched :
  cluster_ok cfg count count now c -> sched_next (wd_sched (cs_world c)) = Some (fired, sched) ->
  let c1 := c ⟨ cs_world := (cs_world c) ⟨ wd_sched := sched ⟩ ⟩ in
  cluster_ok cfg count count (sc_now sched) c1 /\
  match fired with
  | None => True
  | Some f => fd_time f = sc_now sched /\
      (count + 1 <= sx_max_events cfg ->
       cluster_ok cfg (count + 1) count (sc_now sched) (c1 ⟨ cs_events := count + 1 ⟩)) /\
      (sx_max_events cfg < count + 1 ->
       cluster_ok cfg (count + 1) count (sc_now sched) (c1 ⟨ cs_events := count + 1 ⟩ ⟨ cs_incomplete := true ⟩))
  end.
Proof.
  intros Hc Es. destruct (sched_next_time _ _ _ (wo_time _ (kc_world _ _ _ _ _ Hc)) Es) as (Ht & Hnow & Hf).
  apply (cluster_ok_later _ _ _ _ (sc_now sched) _ sched) in Hc; [|done|done|by rewrite <-(kc_now _ _ _ _ _ Hc)].
  split; [done|]. destruct fired as [f|]; [|done]. split; [done|].
  destruct Hc. split; intros Hle; split; try done; simpl in *.
  - rewrite kc_complete0. by rewrite !(proj2 (Z.ltb_ge _ _)) by lia.
  - by rewrite (proj2 (Z.ltb_lt _ _)).
Qed.

Lemma cluster_loop_ok cfg fuel count now c c' :
  sx_max_events cfg < 2 ^ 32 -> 0 < (wl_retry_backoff (sx_workload cfg)).1 ->
  cluster_ok cfg count count now c -> count <= sx_max_events cfg -> cluster_loop fuel c = Some (Some c') ->
  exists count' n' now', cluster_ok cfg count' n' now' c' /\ count' <= sx_max_events cfg + 1.
Proof.
  intros Hmax Hp. revert count now c. induction fuel as [|fuel IH]; intros count now c Hc Hle; simpl; [done|].
  destruct (cs_finished c); [intros [= <-]; exists count, count, now; split; [done|lia]|].
  destruct (sched_next _) as [[fired sched]|] eqn:Es; [|done]. simpl.
  pose proof (kc_events _ _ _ _ _ Hc) as Hev. pose proof (kc_cfg _ _ _ _ _ Hc) as Hcfg.
  apply (loop_turn _ _ _ _ _ _ Hc) in Es as [Hc1 Hf].
  destruct fired as [f|]; [|intros [= <-]; exists count, count, (sc_now sched); split; [done|lia]].
  destruct Hf as (Hf & Hgo & Hstop).
  rewrite Hev. destruct (u64_add count 1) as [e|] eqn:Ee; [|done]. apply u64_add_Some in Ee as [-> _].
  simpl. rewrite Hcfg. destruct (Z.ltb_spec (sx_max_events cfg) (count + 1)) as [Hlt|Hlt].
  - intros [= <-]. exists (count + 1), count, (sc_now sched). split; [by apply Hstop|lia].
  - destruct (cluster_step f _) as [[u c2]|] eqn:E; [|done]. simpl. assert (Hn : count + 1 < 2 ^ 32) by lia.
    pose proof (grows_cluster_step _ _ _ _ f Hf Hn Hp _ _ _ (Hgo Hlt) E) as Hc2. apply (IH (count + 1) _ _ Hc2). lia.
Qed.

(** Fuel beyond the budget is not used. *)
Lemma cluster_loop_fuel cfg fuel count now c :
  sx_max_events cfg < 2 ^ 32 -> 0 < (wl_retry_backoff (sx_workload cfg)).1 ->
  cluster_ok cfg count count now c -> count <= sx_max_events cfg -> sx_max_events cfg - count < Z.of_nat fuel ->
  cluster_loop fuel c <> Some None /\ cluster_loop (S fuel) c = cluster_loop fuel c.
Proof.
  intros Hmax Hp. revert count now c. induction fuel as [|fuel IH]; intros count now c Hc Hle Hfuel; [lia|].
  cbn [cluster_loop]. destruct (cs_finished c); [done|].
  destruct (sched_next _) as [[fired sched]|] eqn:Es; [|done]. simpl mbind.
  pose proof (kc_events _ _ _ _ _ Hc) as Hev. pose proof (kc_cfg _ _ _ _ _ Hc) as Hcfg.
  apply (loop_turn _ _ _ _ _ _ Hc) in Es as [Hc1 Hf].
  destruct fired as [f|]; [|done]. destruct Hf as (Hf & Hgo & _).
  simpl cs_events. rewrite Hev. destruct (u64_add count 1) as [e|] eqn:Ee; [|done]. apply u64_add_Some in Ee as [-> _].
  simpl cs_cfg. rewrite Hcfg. cbn beta iota delta [mbind option_bind].
  destruct (Z.ltb_spec (sx_max_events cfg) (count + 1)) as [Hlt|Hlt]; [done|].
  destruct (cluster_step f _) as [[u c2]|] eqn:E; [|done]. assert (Hn : count + 1 < 2 ^ 32) by lia.
  pose proof (grows_cluster_step _ _ _ _ f Hf Hn Hp _ _ _ (Hgo Hlt) E) as Hc2. apply (IH (count + 1) _ _ Hc2); lia.
Qed.

(** ** Construction *)

Lemma plain_repeat {A} k (m : Draw A) : plain m -> plain (repeat_draw k m).
Proof. intros Hm. induction k as [|k IH]; simpl; [plain|]. apply plain_bind; [done|]. intros a. apply plain_bind; [done|]. plain. Qed.

Lemma world_new_ok cfg w :
  world_new cfg = Some w -> world_ok w /\ world_now w = 0 /\ wd_up w = replicate (wc_nodes cfg) true.
Proof.
  unfold world_new. match goal with |- context [repeat_draw _ ?d] => set (m := d) end.
  assert (Hm : plain m) by (subst m; plain).
  destruct (repeat_draw _ _ _) as [[skews rng]|] eqn:E; [|done]. simpl. intros [= <-].
  apply (plain_repeat _ _ Hm) in E as [_ Hr]; [|apply rng_new_ok]. split; [split; [done|constructor]|done].
Qed.

Lemma start_servers_ok members cfg nodes w l w' :
  world_ok w -> start_servers members cfg nodes w = Some (l, w') ->
  steady w w' /\ length l = length nodes /\
  Forall (fun slot => exists s, slot = Some s /\ (cfg_bug (sx_raft cfg) = BugNone -> Inv (sv_raft s))) l.
Proof.
  revert w l. induction nodes as [|node nodes IH]; intros w l Hw; simpl; [by intros [= <- <-]|].
  destruct (lend _ _ _ _) as [[[s []] w1]|] eqn:El; [|done]. simpl.
  destruct (start_servers _ _ _ _) as [[rest w2]|] eqn:Es; [|done]. simpl. intros [= <- <-].
  destruct (lend_confined _ _ _ _ _ _ _ (regular_server_recover _ _ _ _) (wo_rng _ Hw) El) as (evs & e & Hrun & Hconf).
  apply confined_steady in Hconf as [Hw1 Hn1 Hu1]; [|done].
  apply IH in Es as ([Hw2 Hn2 Hu2] & Hlen & Hall); [|done]. simpl. split.
  - split; [done|congruence|congruence].
  - split; [congruence|]. constructor; [|done]. exists s. split; [done|]. intros Hb.
    by destruct (wp_Some _ _ _ _ _ _ _ (keeps_server_recover _ _ _ _ [] _ Hb) Hrun) as [Hi _].
Qed.

Lemma cluster_new_ok cfg c :
  cluster_new cfg = Some c -> Z.of_nat (sx_clients cfg) <= 2 ^ 32 -> 0 <= sx_max_events cfg ->
  cluster_ok cfg 0 0 0 c.
Proof.
  unfold cluster_new. destruct (world_new _) as [w|] eqn:Ew; [|done]. simpl.
  apply world_new_ok in Ew as (Hw & Hn & Hu).
  destruct (start_servers _ _ _ _) as [[servers w1]|] eqn:Es; [|done]. simpl.
  apply start_servers_ok in Es as ([Hw1 Hn1 Hu1] & Hlen & Hall); [|done].
  destruct (mapM _ _) as [clients|] eqn:Ec; [|done]. simpl. intros [= <-] Hcl Hev. apply mapM_Some in Ec.
  rewrite length_fmap, length_seq in Hlen. rewrite Forall_lookup in Hall.
  split; simpl; try done; [by rewrite (proj2 (Z.ltb_ge _ _)) by lia|congruence| | |apply history_new_ok| |by intros o ?%elem_of_nil|].
  - intros i s Hs. destruct (Hall _ _ Hs) as (t & -> & _). rewrite bool_decide_eq_true_2 by eauto.
    rewrite Hu1, Hu. apply lookup_replicate_2. apply lookup_lt_Some in Hs. simpl. lia.
  - intros Hb i s Hs. destruct (Hall _ _ Hs) as (t & [= ->] & Hi). auto.
  - apply Forall2_length in Ec. by rewrite length_seq in Ec.
  - intros j cl Hj. destruct (Forall2_lookup_r _ _ _ _ _ Ec Hj) as (k & Hk & Hnew).
    apply lookup_seq in Hk as [-> Hk]. simpl in Hnew. exists [], [].
    assert (Hid : node_id j = Z.of_nat j) by (unfold node_id, wrap32; apply Z.mod_small; lia).
    unfold new_client in Hnew. rewrite Hid in Hnew.
    eapply client_new_inv; [exact Hnew|split; lia|apply history_new_ok|done].
Qed.

Lemma kept_first_timer cfg count n now node delay tag :
  dkeeps (cluster_ok cfg count n now) (on_world_ (fun w => '(_, w) ← world_set_timer node delay tag w; Some w)).
Proof.
  apply kept_steady_. intros w w' Hw. unfold world_set_timer, sched_after.
  destruct (sched_at _ _ _) as [[id sched]|] eqn:E; [|done]. simpl. intros [= <-]. by eapply sched_at_steady.
Qed.
#[export] Hint Resolve kept_first_timer : kept.
Lemma kept_bootstrap cfg count n now : dkeeps (cluster_ok cfg count n now) bootstrap.
Proof. kept. Qed.

(** ** A whole run *)

Lemma kept_finalize cfg count n now : dkeeps (cluster_ok cfg count n now) finalize.
Proof. unfold finalize. kept. Qed.

(** The cluster a run ends with, before and after its last checks. *)
Lemma cluster_run_inv cfg c o :
  cluster_new cfg = Some c -> cluster_run c = Some o ->
  exists u c1 c2 v c3 c4, bootstrap c = Some (u, c1) /\
    cluster_loop (Z.to_nat (sx_max_events cfg) + 2) c1 = Some (Some c2) /\
    check_invariants c2 = Some (v, c3) /\ finalize c3 = Some (o, c4).
Proof.
  intros Hc. assert (Ecfg : cs_cfg c = cfg).
  { unfold cluster_new in Hc. destruct (world_new _); [|done]. simpl in Hc.
    destruct (start_servers _ _ _ _) as [[]|]; [|done]. simpl in Hc. destruct (mapM _ _); [|done]. by injection Hc as <-. }
  unfold cluster_run, cluster_run_fuel. rewrite Ecfg.
  destruct (bootstrap c) as [[u c1]|] eqn:Eb; [|done]. simpl.
  destruct (cluster_loop _ _) as [[c2|]|] eqn:El; [|done..]. simpl.
  destruct (check_invariants c2) as [[v c3]|] eqn:Ei; [|done]. simpl.
  destruct (finalize c3) as [[o' c4]|] eqn:Ef; [|done]. simpl. intros [= <-].
  exists u, c1, c2, v, c3, c4. done.
Qed.
