(* ===== verification/RunRules.v ===== *)
(** * RunRules: what a run of the simulator shows ([harness/cluster.rs])

    The states a run passes through, the end of its loop within the event budget,
    the history it hands to the checker, and what the pass or failure of a
    run stands for. *)
From Stdlib Require Import String.
From S2P Require Import Prelude Codec Crc LogFormat RaftLog Recovery Durable Messages Config StateMachine Io Rng Draw.
From S2P Require Import Disk Faults Scheduler Net Trace World WorldRules Oracle RaftState Raft RaftInv History Linearizability Locality.
From S2P Require Import Server Invariants Durability Harness Client ClientRules Cluster ClusterRun ClusterRules.
From Stdlib.Init Require Import Byte.
Local Open Scope Z_scope.

(** What the command line and the default configurations provide: a back-off that
    is never zero, and events and clients that fit 32 bits. *)
Record runnable (cfg : SimConfig) : Prop := {
  rn_backoff : 0 < (wl_retry_backoff (sx_workload cfg)).1;
  rn_events : 0 <= sx_max_events cfg < 2 ^ 32;
  rn_clients : Z.of_nat (sx_clients cfg) <= 2 ^ 32;
}.

(** The states a run is in before each turn of its loop. *)
Inductive reached (cfg : SimConfig) : Cluster -> Prop :=
| reached_start c u c1 : cluster_new cfg = Some c -> bootstrap c = Some (u, c1) -> reached cfg c1
| reached_event c f sched u c2 :
    reached cfg c -> cs_finished c = false ->
    sched_next (wd_sched (cs_world c)) = Some (Some f, sched) ->
    cs_events c + 1 <= sx_max_events cfg ->
    cluster_step f (c ⟨ cs_world := (cs_world c) ⟨ wd_sched := sched ⟩ ⟩ ⟨ cs_events := cs_events c + 1 ⟩) = Some (u, c2) ->
    reached cfg c2.

Lemma start_ok cfg c u c1 :
  runnable cfg -> cluster_new cfg = Some c -> bootstrap c = Some (u, c1) -> cluster_ok cfg 0 0 0 c1.
Proof.
  intros [Hp [Hm _] Hcl] Hc Hb. eapply kept_bootstrap; [|exact Hb]. by apply cluster_new_ok.
Qed.

Lemma reached_ok cfg c :
  runnable cfg -> reached cfg c ->
  cluster_ok cfg (cs_events c) (cs_events c) (world_now (cs_world c)) c /\ cs_events c <= sx_max_events cfg.
Proof.
  intros Hcfg. induction 1 as [c u c1 Hc Hb|c f sched u c2 _ [Hc Hle] _ Hs He Hstep].
  - pose proof (start_ok _ _ _ _ Hcfg Hc Hb) as Hok.
    pose proof (kc_events _ _ _ _ _ Hok) as ->. pose proof (kc_now _ _ _ _ _ Hok) as ->.
    split; [done|apply Hcfg].
  - apply (loop_turn _ _ _ _ _ _ Hc) in Hs as [_ (Hf & Hgo & _)].
    assert (Hn : cs_events c + 1 < 2 ^ 32) by (destruct Hcfg; lia).
    pose proof (grows_cluster_step _ _ _ _ f Hf Hn (rn_backoff _ Hcfg) _ _ _ (Hgo He) Hstep) as Hok.
    rewrite (kc_events _ _ _ _ _ Hok), (kc_now _ _ _ _ _ Hok). done.
Qed.

(** C33. At every moment of a run a server runs on exactly the slots whose node is up;
    each of them, if no bug was injected, has a well-formed log, applies no more
    than it committed and holds what it committed and what it calls durable; and
    the history is well formed. *)
Theorem run_keeps_cluster_consistent cfg c :
  runnable cfg -> reached cfg c ->
  length (cs_servers c) = config_slots cfg /\
  (forall i slot, cs_servers c !! i = Some slot -> (is_Some slot <-> is_up (Z.of_nat i) (cs_world c) = Some true)) /\
  (cfg_bug (sx_raft cfg) = BugNone -> forall i s, cs_servers c !! i = Some (Some s) ->
     log_wf (r_log (sv_raft s)) /\ r_last_applied (sv_raft s) <= r_commit_index (sv_raft s) /\
     r_durable_term (sv_raft s) <= r_term (sv_raft s) /\
     r_durable_index (sv_raft s) <= log_last_index (r_log (sv_raft s)) /\
     (st_truncated_committed (r_stats (sv_raft s)) = 0 ->
        r_commit_index (sv_raft s) <= log_last_index (r_log (sv_raft s)))) /\
  history_well_formed (cs_history c) = Ok tt.
Proof.
  intros Hcfg [[] _]%reached_ok; [|done]. split; [congruence|]. split; [|split].
  - intros i slot Hi. unfold is_up. rewrite node_idx_of_nat, (kc_running _ _ Hi). split.
    + intros H. by rewrite bool_decide_eq_true_2.
    + by intros [= H%bool_decide_eq_true].
  - intros Hb i s Hs. destruct (kc_raft Hb i s Hs). auto.
  - by eapply history_ok_well_formed.
Qed.

(** ** The loop ends *)

Lemma finalize_stats c o c' :
  finalize c = Some (o, c') ->
  oc_history o = cs_history c /\ oc_incomplete o = cs_incomplete c /\ ru_events (oc_stats o) = cs_events c /\
  oc_config o = cs_cfg c /\ oc_seed o = sx_seed (cs_cfg c).
Proof.
  unfold finalize. intros (? & ? & [= <- <-] & H)%dbind_Some.
  apply dbind_Some in H as (? & c1 & H1%quiet_of & H); [|quiet].
  apply dbind_Some in H as (? & c2 & H2%quiet_of & H); [|quiet].
  apply dbind_Some in H as (? & c3 & H3%quiet_of & H); [|quiet].
  apply dbind_Some in H as (? & c4 & H4%quiet_of & H); [|quiet].
  apply dbind_Some in H as (? & c5 & H5%quiet_of & H); [|quiet].
  apply dbind_Some in H as ([v steps] & c6 & H6%quiet_of & H); [|quiet].
  apply dbind_Some in H as (? & ? & [= <- <-] & H).
  apply dbind_Some in H as (stats & ? & [Hs ->]%dlift_Some & [= <- <-]). simpl.
  rewrite H1 in H2. rewrite H2 in H3. rewrite H3 in H4. rewrite H4 in H5. rewrite H5 in H6.
  assert (E : ru_events stats = cs_events c6).
  { unfold final_stats in Hs.
    repeat match type of Hs with (?o ≫= _) = _ => destruct o; [cbn [mbind option_bind] in Hs|done] end.
    by injection Hs as <-. }
  unfold vitals in H6. rewrite E. injection H6 as E1 E2 E3 _ _ _ _ E8. by rewrite E1.
Qed.

(** What a run leaves in its outcome. *)
Lemma outcome_ok cfg o :
  runnable cfg -> run cfg = Some o ->
  exists ev n now c, cluster_ok cfg ev n now c /\ ev <= sx_max_events cfg + 1 /\
    oc_history o = cs_history c /\ oc_incomplete o = cs_incomplete c /\ ru_events (oc_stats o) = ev /\
    oc_seed o = sx_seed cfg.
Proof.
  intros Hcfg. unfold run. destruct (cluster_new cfg) as [c|] eqn:Hc; [|done]. simpl. intros Hr.
  destruct (cluster_run_inv cfg c o Hc Hr) as (u & c1 & c2 & v & c3 & c4 & Hb & Hl & Hi & Hf).
  pose proof (start_ok _ _ _ _ Hcfg Hc Hb) as H1.
  destruct (cluster_loop_ok _ _ _ _ _ _ (proj2 (rn_events _ Hcfg)) (rn_backoff _ Hcfg) H1 (proj1 (rn_events _ Hcfg)) Hl)
    as (ev & n & now & H2 & Hle).
  apply (kept_check_invariants _ _ _ _ _ _ _ H2) in Hi as H3.
  destruct (finalize_stats _ _ _ Hf) as (E1 & E2 & E3 & _ & E5). exists ev, n, now, c3.
  rewrite E3, E5, (kc_events _ _ _ _ _ H3), (kc_cfg _ _ _ _ _ H3). done.
Qed.

Lemma run_seed cfg o : runnable cfg -> run cfg = Some o -> oc_seed o = sx_seed cfg.
Proof. intros Hcfg Ho. by destruct (outcome_ok cfg o Hcfg Ho) as (? & ? & ? & ? & _ & _ & _ & _ & _ & ?). Qed.

(** C34. The loop stops by itself: whatever happens in a run, fuel for the event budget
    and two more turns is enough and more changes nothing, so a run panics or
    hands over an outcome; one that is called complete counted no more events than
    the budget, one that is called incomplete exactly one more. *)
Theorem run_ends_within_budget cfg c fuel :
  runnable cfg -> cluster_new cfg = Some c -> (Z.to_nat (sx_max_events cfg) + 2 <= fuel)%nat ->
  cluster_run_fuel fuel c = fmap Some (cluster_run c) /\
  forall o, cluster_run c = Some o ->
    ru_events (oc_stats o) <= sx_max_events cfg + 1 /\
    oc_incomplete o = (sx_max_events cfg <? ru_events (oc_stats o)).
Proof.
  intros Hcfg Hc Hfuel. assert (Ecfg : cs_cfg c = cfg).
  { apply (kc_cfg cfg 0 0 0), cluster_new_ok; [done|apply Hcfg..]. }
  split.
  - unfold cluster_run, cluster_run_fuel. rewrite Ecfg. destruct (bootstrap c) as [[u c1]|] eqn:Hb; [|done]. simpl.
    pose proof (start_ok _ _ _ _ Hcfg Hc Hb) as H1.
    assert (E : cluster_loop fuel c1 = cluster_loop (Z.to_nat (sx_max_events cfg) + 2) c1 /\
      cluster_loop (Z.to_nat (sx_max_events cfg) + 2) c1 <> Some None).
    { pose proof (fun k Hk => cluster_loop_fuel cfg k 0 0 c1 (proj2 (rn_events _ Hcfg)) (rn_backoff _ Hcfg) H1
        (proj1 (rn_events _ Hcfg)) Hk) as Hk. destruct (rn_events _ Hcfg) as [Hm _].
      split; [|apply Hk; lia]. induction Hfuel as [|k Hle IH]; [done|]. rewrite <-IH. apply Hk. lia. }
    destruct E as [-> Hne]. destruct (cluster_loop _ c1) as [[c2|]|]; [|done..]. simpl.
    destruct (check_invariants c2) as [[v c3]|]; [|done]. simpl. by destruct (finalize c3) as [[o c4]|].
  - intros o Ho. destruct (outcome_ok cfg o Hcfg) as (ev & n & now & c2 & Hok & Hle & _ & Hi & He & _).
    { unfold run. by rewrite Hc. }
    rewrite He, Hi. split; [done|]. apply (kc_complete _ _ _ _ _ Hok).
Qed.

(** ** The history *)

(** C35. The history a run hands to the checker is a real one.  It is well formed;
    every operation in it is one of the configured clients'; a client's operations
    carry the keys 1, 2, ... in the order it asked them, each asked only after the
    one before it was answered or given up; and whatever was answered was answered
    with a definite outcome, no earlier than it was asked. *)
Theorem run_history_is_sequential_per_client cfg o :
  runnable cfg -> run cfg = Some o ->
  history_well_formed (oc_history o) = Ok tt /\
  (forall p, p ∈ h_ops (oc_history o) -> 0 <= lo_client p < Z.of_nat (sx_clients cfg) /\
     match lo_completed p, lo_outcome p with
     | Some t, Some out => lo_invoked p <= t /\ outcome_is_definite out = true
     | None, None => True
     | _, _ => False
     end) /\
  (forall i, (i < sx_clients cfg)%nat ->
     StronglySorted one_by_one (own (Z.of_nat i) (oc_history o)) /\
     exists k, lo_id <$> own (Z.of_nat i) (oc_history o) = history_key (Z.of_nat i) <$> seqZ 1 k).
Proof.
  intros Hcfg Ho. destruct (outcome_ok _ _ Hcfg Ho) as (ev & n & now & c & [] & _ & -> & _).
  split; [by eapply history_ok_well_formed|]. split.
  - intros p Hp. split; [by apply kc_owners|]. destruct (ho_times _ _ kc_hist p Hp) as [_ Ht].
    destruct (lo_completed p), (lo_outcome p); try done. destruct Ht. split; [lia|done].
  - intros i Hi. rewrite <-kc_count in Hi. apply lookup_lt_is_Some_2 in Hi as [cl Hcl].
    destruct (kc_clients _ _ Hcl) as (tr & arr & Hinv). apply ci_base in Hinv as []. eauto.
Qed.

(** ** The report *)

Lemma report_add_nonempty r v : report_add r v <> [].
Proof.
  unfold report_add. destruct r as [|v0 r]; [done|]. by destruct (_ <? _)%nat.
Qed.
Lemma report_extend_nil r vs : report_extend r vs = [] <-> r = [] /\ vs = [].
Proof.
  unfold report_extend. revert r. induction vs as [|v vs IH]; intros r; simpl; [naive_solver|].
  rewrite IH. split; [intros [H _]; by apply report_add_nonempty in H|by intros [_ ?]].
Qed.

(** A step that adds to the report exactly unless [P] holds of the cluster. *)
Definition judges (m : Driver unit) (P : Cluster -> Prop) : Prop :=
  forall c u c', m c = Some (u, c') ->
    exists vs, c' = c ⟨ cs_report := report_extend (cs_report c) vs ⟩ /\ (vs = [] <-> P c).

Lemma judges_ret (P : Cluster -> Prop) : (forall c, P c) -> judges (mret tt) P.
Proof. intros HP c u c' [= _ <-]. exists []. destruct c. done. Qed.

Lemma judge_history_spec now : judges (judge_history now) (fun c => history_well_formed (cs_history c) = Ok tt).
Proof.
  intros c u c'. unfold judge_history. intros (? & ? & [= <- <-] & H)%dbind_Some.
  destruct (history_well_formed (cs_history c)) as [[]|e].
  - injection H as _ <-. exists []. destruct c. done.
  - injection H as _ <-. exists [mkViolation "history_malformed" now None]. done.
Qed.

(** Every live server that has applied as much as the first live one holds the first
    one's data; those that have applied more, or less, are not looked at. *)
Definition first_is_matched (c : Cluster) : Prop :=
  exists states, live_states c = Some states /\ agree_with_first states.
Lemma judge_states_spec now : judges (judge_states now) first_is_matched.
Proof.
  intros c u c'. unfold judge_states. intros (? & ? & [= <- <-] & H)%dbind_Some.
  apply dbind_Some in H as (states & ? & [Hs ->]%dlift_Some & [= _ <-]). eexists. split; [done|].
  rewrite convergence_spec. unfold first_is_matched. rewrite Hs. naive_solver.
Qed.

(** Every entry seen committed is held by a majority of the members it was
    committed under, on disk. *)
Definition commits_on_disk (c : Cluster) : Prop :=
  exists disks recovered, mapM (fun n => disk_view n (cs_world c)) (server_slots c) = Some disks /\
    disks_recovered disks = Some recovered /\
    forall e, e ∈ committed_entries (cs_invariants c) -> on_majority (cs_slots c) recovered e.
Lemma judge_disks_spec now : judges (judge_disks now) commits_on_disk.
Proof.
  intros c u c'. unfold judge_disks. intros (? & ? & [= <- <-] & H)%dbind_Some.
  apply dbind_Some in H as (disks & ? & [Hd ->]%dlift_Some & H).
  apply dbind_Some in H as (found & ? & [Hf ->]%dlift_Some & [= _ <-]). eexists. split; [done|].
  destruct (disks_recovered disks) as [recovered|] eqn:Hr.
  - destruct (committed_durable_spec now (committed_entries (cs_invariants c)) disks (cs_slots c) recovered Hr)
      as (vs & E & Hvs). rewrite E in Hf. injection Hf as <-. rewrite Hvs. unfold commits_on_disk. rewrite Hd.
    split; [intros H; exists disks, recovered; done|]. intros (d & r & [= <-] & Hr' & H).
    rewrite Hr in Hr'. by injection Hr' as <-.
  - unfold check_committed_durable in Hf. unfold disks_recovered in Hr. by rewrite Hr in Hf.
Qed.

(** At most forty events for each slot and completed operation, if that is judged. *)
Definition no_message_storm (c : Cluster) : Prop :=
  let completed := Z.of_nat (history_completed (cs_history c)) in
  sx_check_efficiency (cs_cfg c) = true -> cs_incomplete c = false -> 100 <= completed ->
  cs_events c / completed <= 40 * Z.of_nat (Nat.max (cs_slots c) 1).
Lemma judge_efficiency_spec now : judges (judge_efficiency now) no_message_storm.
Proof.
  intros c u c'. unfold judge_efficiency, no_message_storm. intros (? & ? & [= <- <-] & H)%dbind_Some.
  set (completed := Z.of_nat _) in *.
  destruct (sx_check_efficiency _), (cs_incomplete c); try (injection H as _ <-; exists []; destruct c; done).
  simpl in H. destruct (Z.leb_spec 100 completed); [|injection H as _ <-; exists []; split; [by destruct c|split; [lia|done]]].
  apply dbind_Some in H as (bound & ? & [Hb ->]%dlift_Some & H). apply u64_add_Some in Hb as [-> _].
  rewrite Z.add_0_r in H. destruct (Z.ltb_spec (40 * Z.of_nat (Nat.max (cs_slots c) 1)) (cs_events c / completed)).
  - injection H as _ <-. exists [mkViolation "message_storm" now None]. split; [done|]. split; [done|].
    intros Hle. specialize (Hle eq_refl eq_refl ltac:(done)). lia.
  - injection H as _ <-. exists []. destruct c. done.
Qed.

(** Once recovered, the cluster answered something more. *)
Definition progress_after_recovery (c : Cluster) : Prop :=
  sx_check_liveness (cs_cfg c) = true -> cs_incomplete c = false -> cs_clients c <> [] ->
  is_Some (cs_recovered_at c) -> (cs_completed_at_recovery c < history_completed (cs_history c))%nat.
Lemma judge_liveness_spec now : judges (judge_liveness now) progress_after_recovery.
Proof.
  intros c u c'. unfold judge_liveness, progress_after_recovery. intros (? & ? & [= <- <-] & H)%dbind_Some.
  destruct (sx_check_liveness _), (cs_incomplete c); try (injection H as _ <-; exists []; destruct c; done).
  simpl in H. case_bool_decide as Hcl; simpl in H.
  { injection H as _ <-. exists []. split; [by destruct c|]. naive_solver. }
  destruct (cs_recovered_at c) eqn:Er.
  - destruct (Nat.ltb_spec (history_completed (cs_history c)) (cs_completed_at_recovery c)); [done|].
    destruct (Nat.eqb_spec (history_completed (cs_history c) - cs_completed_at_recovery c) 0).
    + injection H as _ <-. exists [mkViolation "no_progress_after_recovery" now None]. split; [done|].
      split; [done|]. intros Hp. specialize (Hp eq_refl eq_refl Hcl ltac:(done)). lia.
    + injection H as _ <-. exists []. split; [by destruct c|]. split; [|done]. intros. lia.
  - injection H as _ <-. exists []. split; [by destruct c|]. split; [|done]. intros _ _ _ _ [? [=]].
Qed.

Lemma judge_answers_spec now c verdict steps c' :
  judge_answers now c = Some ((verdict, steps), c') ->
  exists k, check_keys (sx_linearizability_budget (cs_cfg c)) (partitions (cs_history c)) 0 = Some (verdict, k) /\
    exists vs, c' = c ⟨ cs_report := report_extend (cs_report c) vs ⟩ /\ (vs = [] <-> is_violation verdict = false).
Proof.
  unfold judge_answers, check. intros (? & ? & [= <- <-] & H)%dbind_Some.
  apply dbind_Some in H as ([v lin] & ? & [Hv ->]%dlift_Some & H). cbn [ck_budget ck_stats] in Hv.
  destruct (check_keys _ _ _) as [[v0 k]|] eqn:Ek; [|done]. simpl in Hv. injection Hv as -> <-.
  apply dbind_Some in H as (? & c1 & H & [= -> _ <-]). exists k. split; [done|].
  destruct (is_violation verdict).
  - injection H as _ <-. by exists [mkViolation "linearizability" now None].
  - injection H as _ <-. exists []. by destruct c.
Qed.

(** The report is empty exactly when it was before the last checks and each of them
    finds what it looks for. *)
Lemma clean_report_iff c o c' :
  finalize c = Some (o, c') ->
  exists vs : list (list Oracle.Violation),
    (run_failed o = false <-> Forall (eq []) vs) /\
    Forall2 (fun v P => v = [] <-> P) vs
      [cs_report c = []; history_well_formed (cs_history c) = Ok tt; first_is_matched c; commits_on_disk c;
       no_message_storm c; progress_after_recovery c; is_violation (oc_verdict o) = false].
Proof.
  unfold finalize. intros (? & ? & [= <- <-] & H)%dbind_Some.
  apply dbind_Some in H as (? & ? & (v1 & -> & H1)%judge_history_spec & H).
  apply dbind_Some in H as (? & ? & (v2 & -> & H2)%judge_states_spec & H).
  apply dbind_Some in H as (? & ? & (v3 & -> & H3)%judge_disks_spec & H).
  apply dbind_Some in H as (? & ? & (v4 & -> & H4)%judge_efficiency_spec & H).
  apply dbind_Some in H as (? & ? & (v5 & -> & H5)%judge_liveness_spec & H).
  apply dbind_Some in H as ([v steps] & ? & (k & _ & v6 & -> & H6)%judge_answers_spec & H).
  apply dbind_Some in H as (? & ? & [= <- <-] & H).
  apply dbind_Some in H as (stats & ? & _ & [= <- _]). simpl in *.
  exists [cs_report c; v1; v2; v3; v4; v5; v6]. split; [|repeat (constructor; [done|]); constructor].
  unfold run_failed. simpl. rewrite negb_false_iff.
  set (r := report_extend _ v6). assert (E : report_is_empty r = true <-> r = []) by (unfold report_is_empty; by case_match).
  rewrite E. unfold r. rewrite !report_extend_nil, !Forall_cons, Forall_nil. naive_solver.
Qed.

Lemma passes_when_all_hold c o c' :
  finalize c = Some (o, c') ->
  (run_failed o = false ->
     cs_report c = [] /\ history_well_formed (cs_history c) = Ok tt /\ first_is_matched c /\ commits_on_disk c /\
     no_message_storm c /\ progress_after_recovery c /\ is_violation (oc_verdict o) = false) /\
  (run_failed o = true ->
     cs_report c <> [] \/ history_well_formed (cs_history c) <> Ok tt \/ ~ first_is_matched c \/ ~ commits_on_disk c \/
     ~ no_message_storm c \/ ~ progress_after_recovery c \/ is_violation (oc_verdict o) = true).
Proof.
  intros (vs & Hr & Hvs)%clean_report_iff.
  repeat match type of Hvs with Forall2 _ _ (_ :: _) => let v := fresh "v" in let H := fresh "H" in
    apply Forall2_cons_inv_r in Hvs as (v & ? & H & Hvs & ->) end.
  apply Forall2_nil_inv_r in Hvs as ->. rewrite !Forall_cons, Forall_nil in Hr. split; intros Hf.
  - apply Hr in Hf as (<- & <- & <- & <- & <- & <- & <- & _). tauto.
  - repeat match goal with H : ?v = [] <-> ?P |- ~ ?P \/ _ => destruct v; [right|left; by intros ?%H] end.
    destruct (is_violation _); [done|]. exfalso. rewrite (proj2 Hr) in Hf; [done|].
    repeat split. symmetry. by apply H5.
Qed.

(** ** The verdict *)

Lemma run_verdict cfg o :
  run cfg = Some o ->
  (exists k, check_keys (sx_linearizability_budget (oc_config o)) (partitions (oc_history o)) 0 = Some (oc_verdict o, k)) /\
  (is_violation (oc_verdict o) = true -> run_failed o = true) /\ (runnable cfg -> oc_config o = cfg).
Proof.
  unfold run. destruct (cluster_new cfg) as [c|] eqn:Hc; [|done]. simpl. intros Hr.
  destruct (cluster_run_inv cfg c o Hc Hr) as (u & c1 & c2 & v & c3 & c4 & Hb & Hl & Hi & Hf). split; [|split].
  - unfold finalize in Hf. apply dbind_Some in Hf as (? & ? & [= <- <-] & H).
    apply dbind_Some in H as (? & ? & (v1 & -> & _)%judge_history_spec & H).
    apply dbind_Some in H as (? & ? & (v2 & -> & _)%judge_states_spec & H).
    apply dbind_Some in H as (? & ? & (v3 & -> & _)%judge_disks_spec & H).
    apply dbind_Some in H as (? & ? & (v4 & -> & _)%judge_efficiency_spec & H).
    apply dbind_Some in H as (? & ? & (v5 & -> & _)%judge_liveness_spec & H).
    apply dbind_Some in H as ([w steps] & ? & (k & Hk & v6 & -> & _)%judge_answers_spec & H).
    apply dbind_Some in H as (? & ? & [= <- <-] & H).
    apply dbind_Some in H as (stats & ? & _ & [= <- _]). exists k. exact Hk.
  - intros Hv. apply not_false_iff_true. intros Hfail. destruct (passes_when_all_hold _ _ _ Hf) as [Hpass _].
    destruct (Hpass Hfail) as (_ & _ & _ & _ & _ & _ & H). by rewrite H in Hv.
  - intros Hcfg. pose proof (start_ok _ _ _ _ Hcfg Hc Hb) as H1.
    destruct (cluster_loop_ok _ _ _ _ _ _ (proj2 (rn_events _ Hcfg)) (rn_backoff _ Hcfg) H1 (proj1 (rn_events _ Hcfg)) Hl)
      as (ev & n & now & H2 & Hle).
    apply (kept_check_invariants _ _ _ _ _ _ _ H2) in Hi as H3.
    rewrite <-(kc_cfg _ _ _ _ _ H3). by apply finalize_stats in Hf as (_ & _ & _ & ? & _).
Qed.

(** What a verdict says of a history. *)
Definition verdict_holds (h : History) (v : Verdict) : Prop :=
  match v with
  | Linearizable =>
      (forall k, ops_of (h_ops h) k <> [] -> exists l, linearization (ops_of (h_ops h) k) l) /\
      (well_timed (h_ops h) -> exists l, store_linearization (h_ops h) l)
  | Violation k =>
      ~ completes (ops_of (h_ops h) k) ∅ Absent /\
      (well_timed (h_ops h) -> ~ exists l, store_linearization (h_ops h) l)
  | Unknown k => ops_of (h_ops h) k <> []
  end.

Lemma run_verdict_holds cfg o :
  runnable cfg -> 0 <= sx_linearizability_budget cfg -> run cfg = Some o -> verdict_holds (oc_history o) (oc_verdict o).
Proof.
  intros Hcfg Hb Ho. destruct (run_verdict cfg o Ho) as ((k & Hk) & _ & Hc). rewrite (Hc Hcfg) in Hk.
  apply check_keys_sound in Hk; [|done]. destruct (oc_verdict o) as [|key|key]; simpl in Hk.
  - split; [|by intros Hw; apply keys_linearizable].
    intros key Hne. by apply completes_linearization, (Hk key), partitions_elem.
  - destruct Hk as (l0 & [-> _]%partitions_elem & Hn). split; [exact Hn|]. intros Hw [l Hl].
    apply (store_to_key _ key) in Hl. apply key_view_2 in Hl as [l' Hl].
    by eapply Hn, linearization_completes, Hl; apply well_timed_sub.
  - by destruct Hk as (l & [-> Hne]%partitions_elem).
Qed.

(** C36. What a run says of its clients' answers is true.  Called linearizable, the
    operations on each key can be put in an order that respects real time and that
    the register accepts; and if every answer came strictly after its request, so
    can all operations together on the replicated store.  Called a violation, no
    such order exists, and the run has failed. *)
Theorem run_verdict_is_true cfg o :
  runnable cfg -> 0 <= sx_linearizability_budget cfg -> run cfg = Some o ->
  match oc_verdict o with
  | Linearizable =>
      (forall k, ops_of (h_ops (oc_history o)) k <> [] -> exists l, linearization (ops_of (h_ops (oc_history o)) k) l) /\
      (well_timed (h_ops (oc_history o)) -> exists l, store_linearization (h_ops (oc_history o)) l)
  | Violation k =>
      run_failed o = true /\
      (well_timed (h_ops (oc_history o)) -> ~ exists l, store_linearization (h_ops (oc_history o)) l)
  | Unknown k => ops_of (h_ops (oc_history o)) k <> []
  end.
Proof.
  intros Hcfg Hb Ho. destruct (run_verdict cfg o Ho) as (_ & Hfail & _).
  pose proof (run_verdict_holds cfg o Hcfg Hb Ho) as H. destruct (oc_verdict o); [done| |done]. split; [by apply Hfail|apply H].
Qed.

(** The state the last checks are made on: what the loop ended in, looked at once more. *)
Definition judged (cfg : SimConfig) (c : Cluster) : Prop :=
  exists c0 u c1 c2 v, cluster_new cfg = Some c0 /\ bootstrap c0 = Some (u, c1) /\
    cluster_loop (Z.to_nat (sx_max_events cfg) + 2) c1 = Some (Some c2) /\ check_invariants c2 = Some (v, c).

Lemma outcome_well_formed cfg o : runnable cfg -> run cfg = Some o -> history_well_formed (oc_history o) = Ok tt.
Proof.
  intros Hcfg Ho. destruct (outcome_ok _ _ Hcfg Ho) as (ev & n & now & c & [] & _ & -> & _).
  by eapply history_ok_well_formed.
Qed.

Lemma run_judged cfg o :
  run cfg = Some o -> exists c u, judged cfg c /\ finalize c = Some (o, u) /\ oc_history o = cs_history c.
Proof.
  unfold run. destruct (cluster_new cfg) as [c0|] eqn:E0; [|done]. simpl. intros Hr.
  destruct (cluster_run_inv cfg c0 o E0 Hr) as (u & c1 & c2 & v & c & c4 & E1 & E2 & E3 & E4).
  exists c, c4. split; [by exists c0, u, c1, c2, v|]. split; [done|]. by apply finalize_stats in E4 as [? _].
Qed.

(** C37. What a run's pass or failure stands for.  Of the state the run ended in, a
    run that passes shows that every entry seen committed is on the disks of a
    majority of the members it was committed under; that each live server that
    applied as much as the first live one holds the same data (the others are not
    compared); that, in a complete run that asks for it, a hundred answers or more
    took at most forty events for each slot and answer, and something was answered
    after the last fault; and that the clients' answers
    are those of one store, if each came strictly after its request, or could not be
    decided within the budget.  A run that fails was reported on before it ended, or
    one of these is false of it, the last for a key whose operations cannot be
    completed one after the other: a failure is never an accident of the checks. *)
Theorem passing_run_means cfg o :
  runnable cfg -> 0 <= sx_linearizability_budget cfg -> run cfg = Some o ->
  exists c, judged cfg c /\ cs_history c = oc_history o /\
    (run_failed o = false ->
       cs_report c = [] /\ commits_on_disk c /\ first_is_matched c /\ no_message_storm c /\ progress_after_recovery c /\
       match oc_verdict o with
       | Linearizable => well_timed (h_ops (oc_history o)) -> exists l, store_linearization (h_ops (oc_history o)) l
       | Violation _ => False
       | Unknown k => ops_of (h_ops (oc_history o)) k <> []
       end) /\
    (run_failed o = true ->
       cs_report c <> [] \/ ~ commits_on_disk c \/ ~ first_is_matched c \/ ~ no_message_storm c \/
       ~ progress_after_recovery c \/
       exists k, oc_verdict o = Violation k /\ ~ completes (ops_of (h_ops (oc_history o)) k) ∅ Absent /\
         (well_timed (h_ops (oc_history o)) -> ~ exists l, store_linearization (h_ops (oc_history o)) l)).
Proof.
  intros Hcfg Hb Ho. pose proof (run_verdict_holds cfg o Hcfg Hb Ho) as Hv.
  pose proof (outcome_well_formed cfg o Hcfg Ho) as Hwf.
  destruct (run_judged cfg o Ho) as (c & u & Hc & Hf & Hh). exists c. rewrite Hh in Hwf.
  split; [done|]. split; [done|]. destruct (passes_when_all_hold _ _ _ Hf) as [Hpass Hfail]. split.
  - intros (? & _ & ? & ? & ? & ? & Hn)%Hpass. repeat (split; [done|]). destruct (oc_verdict o); [apply Hv|done|done].
  - intros [?|[?|[?|[?|[?|[?|Hn]]]]]]%Hfail; [by left|done|tauto..|]. do 5 right. destruct (oc_verdict o) as [|k|]; [done| |done].
    by exists k.
Qed.

(** ** Witness: one server and one client for 400 ms *)

Definition demo_config : SimConfig :=
  (sim_config_benign 7) ⟨ sx_servers := 1%nat ⟩ ⟨ sx_clients := 1%nat ⟩ ⟨ sx_duration := 400 * MILLIS ⟩
    ⟨ sx_settle := 0 ⟩ ⟨ sx_drain := MILLIS ⟩ ⟨ sx_raft := raft_config_default ⟨ cfg_pre_vote := false ⟩ ⟩
    ⟨ sx_max_events := 60 ⟩ ⟨ sx_linearizability_budget := 40 ⟩.

Lemma demo_runnable : runnable demo_config.
Proof. split; [done|by split|done]. Qed.

(** Some turns of the loop. *)
Fixpoint turns (n : nat) (c : Cluster) : option Cluster :=
  match n with
  | O => Some c
  | S n =>
      '(fired, sched) ← sched_next (wd_sched (cs_world c));
      f ← fired;
      if cs_finished c || (sx_max_events (cs_cfg c) <? cs_events c + 1) then None
      else
        '(_, c) ← cluster_step f
          (c ⟨ cs_world := (cs_world c) ⟨ wd_sched := sched ⟩ ⟩ ⟨ cs_events := cs_events c + 1 ⟩);
        turns n c
  end.

Lemma turns_reached cfg n c c' : runnable cfg -> reached cfg c -> turns n c = Some c' -> reached cfg c'.
Proof.
  intros Hcfg. revert c. induction n as [|n IH]; intros c Hc; simpl; [by intros [= <-]|].
  destruct (sched_next _) as [[[f|] sched]|] eqn:Es; [|done..]. simpl.
  destruct (cs_finished c) eqn:Ef; [done|]. simpl.
  destruct (Z.ltb_spec (sx_max_events (cs_cfg c)) (cs_events c + 1)) as [|Hle]; [done|].
  destruct (cluster_step _ _) as [[u c2]|] eqn:E; [|done]. simpl. intros Ht. refine (IH c2 _ Ht).
  destruct (reached_ok _ _ Hcfg Hc) as [Hok _]. rewrite (kc_cfg _ _ _ _ _ Hok) in Hle.
  by eapply reached_event.
Qed.

(** After thirty events the server leads and has applied an entry. *)
Definition demo_server (c : Cluster) : option (bool * Z) :=
  match cs_servers c !! 0%nat with
  | Some (Some s) => Some (RaftState.is_leader (sv_raft s), r_last_applied (sv_raft s))
  | _ => None
  end.
Lemma reached_by_turns cfg n x :
  runnable cfg ->
  (c ← cluster_new cfg; '(_, c) ← bootstrap c; c ← turns n c; demo_server c) = Some x ->
  exists c, reached cfg c /\ demo_server c = Some x.
Proof.
  intros Hcfg E. destruct (cluster_new cfg) as [c0|] eqn:E0; [|done]. simpl in E.
  destruct (bootstrap c0) as [[u c1]|] eqn:E1; [|done]. simpl in E.
  destruct (turns n c1) as [c2|] eqn:E2; [|done]. exists c2. split; [|done].
  eapply turns_reached; [done| |exact E2]. by eapply reached_start.
Qed.
Lemma demo_reached : exists c, reached demo_config c /\ demo_server c = Some (true, 1).
Proof. apply (reached_by_turns _ 30); [apply demo_runnable|]. vm_compute. reflexivity. Qed.

Definition run_summary (o : RunOutcome) : bool * Verdict * nat :=
  (run_failed o, oc_verdict o, length (h_ops (oc_history o))).
Lemma run_summary_inv cfg x :
  run_summary <$> run cfg = Some x -> exists c o, cluster_new cfg = Some c /\ cluster_run c = Some o /\ run_summary o = x.
Proof.
  unfold run. intros E. destruct (cluster_new cfg) as [c|]; [|done]. simpl in E.
  destruct (cluster_run c) as [o|] eqn:Er; [|done]. injection E as E. by exists c, o.
Qed.
Lemma demo_run : exists c o, cluster_new demo_config = Some c /\ cluster_run c = Some o /\
  run_summary o = (false, Linearizable, 2%nat).
Proof. apply run_summary_inv. vm_compute. reflexivity. Qed.

Lemma run_keeps_cluster_consistent_witness :
  exists c, reached demo_config c /\ demo_server c = Some (true, 1) /\ history_well_formed (cs_history c) = Ok tt.
Proof.
  destruct demo_reached as (c & Hc & Hs). exists c. split; [exact Hc|]. split; [exact Hs|].
  by destruct (run_keeps_cluster_consistent demo_config c demo_runnable Hc) as (_ & _ & _ & Hh).
Defined.

Lemma run_ends_within_budget_witness :
  exists c o, cluster_new demo_config = Some c /\ cluster_run_fuel 100 c = Some (Some o).
Proof.
  destruct demo_run as (c & o & Hc & Ho & _). exists c, o. split; [exact Hc|].
  destruct (run_ends_within_budget demo_config c 100 demo_runnable Hc) as [E _]; [vm_compute; lia|].
  by rewrite E, Ho.
Defined.

Lemma run_history_is_sequential_per_client_witness :
  exists o, run demo_config = Some o /\ length (h_ops (oc_history o)) = 2%nat /\
    StronglySorted one_by_one (own 0 (oc_history o)).
Proof.
  destruct demo_run as (c & o & Hc & Ho & [= Hf Hv Hl]). exists o.
  assert (Hr : run demo_config = Some o) by (unfold run; by rewrite Hc).
  split; [exact Hr|]. split; [exact Hl|].
  destruct (run_history_is_sequential_per_client demo_config o demo_runnable Hr) as (_ & _ & Hs).
  apply (Hs 0%nat). vm_compute. lia.
Defined.

Lemma run_verdict_is_true_witness :
  exists o, run demo_config = Some o /\ length (h_ops (oc_history o)) = 2%nat /\
    forall k, ops_of (h_ops (oc_history o)) k <> [] -> exists l, linearization (ops_of (h_ops (oc_history o)) k) l.
Proof.
  destruct demo_run as (c & o & Hc & Ho & [= Hf Hv Hl]). exists o.
  assert (Hr : run demo_config = Some o) by (unfold run; by rewrite Hc).
  split; [exact Hr|]. split; [exact Hl|].
  pose proof (run_verdict_is_true demo_config o demo_runnable ltac:(done) Hr) as H. rewrite Hv in H. apply H.
Defined.

Lemma passing_run_means_witness :
  exists c o, run demo_config = Some o /\ judged demo_config c /\ run_failed o = false /\
    length (h_ops (oc_history o)) = 2%nat /\ commits_on_disk c.
Proof.
  destruct demo_run as (c0 & o & Hc & Ho & [= Hf Hv Hl]).
  assert (Hr : run demo_config = Some o) by (unfold run; by rewrite Hc).
  destruct (passing_run_means demo_config o demo_runnable ltac:(done) Hr) as (c & Hj & _ & Hpass & _).
  exists c, o. repeat (split; [done|]). by destruct (Hpass Hf) as (_ & Hd & _).
Defined.
