(* ===== verification/Elected.v ===== *)
(** * Elected: one leader for each term of a simulated run ([harness/cluster.rs])

    [Election] lets any number of nodes run over an arbitrary network and assumes
    that a crash leaves the last durable hard state or a later one.  Here the
    nodes are the servers of the driver, with the simulated network, disks, faults
    and restarts it puts them through; that assumption is proved for disks that do
    not tear writes, so election safety holds for every run on such disks. *)
From Stdlib Require Import String.
From S2P Require Import Prelude Codec Crc LogFormat RaftLog Recovery Durable Messages Config StateMachine Io Rng Draw.
From S2P Require Import Disk DiskSafety Faults FaultRules Scheduler Net Trace World WorldRules Oracle Persister RaftState Raft RaftInv.
From S2P Require Import RaftRecover RaftSafety Ballot Election History Server ServerRules Invariants Durability Harness Client IoRules.
From S2P Require Import Cluster ClusterRun ClusterRules RunRules Slots Journal Lent Served.
From Stdlib.Init Require Import Byte.
Local Open Scope Z_scope.

(** ** What a handler puts on the network *)

Lemma heard_copy k from to payload bytes : payload_fact k from to payload -> copy_of payload bytes -> heard k from to bytes.
Proof.
  intros Hp [->|(i & x & y & Hx & Hne & ->)]; [by left|right]. destruct Hp as (msg & -> & _). exists BadChecksum.
  unfold message_decode, message_encode in *. by rewrite (unframe_corrupted _ _ _ _ Hx Hne).
Qed.
Lemma heard_mono k k' from to bytes : ledger_le k k' -> heard k from to bytes -> heard k' from to bytes.
Proof. intros Hle [?|?]; [left; by eapply payload_fact_mono|by right]. Qed.

(** Every delivery queued by [me] is a copy of what it sent. *)
Definition deliveries (me : NodeId) (evs : list IoEvent) (w w' : World) : Prop :=
  forall e from to bytes id, e ∈ sc_queue (wd_sched w') -> se_event e = SeDeliver from to bytes id ->
    e ∈ sc_queue (wd_sched w) \/ from = me /\ exists payload, EvSend to payload ∈ evs /\ copy_of payload bytes.

Lemma deliveries_quiet me evs w w' es :
  sc_queue (wd_sched w') = sc_queue (wd_sched w) ++ es ->
  Forall (fun e => match se_event e with SeDeliver _ _ _ _ => False | _ => True end) es -> deliveries me evs w w'.
Proof.
  intros Hq Hes e from to bytes id He Ee. rewrite Hq in He. apply elem_of_app in He as [He|He]; [by left|].
  rewrite Forall_forall in Hes. specialize (Hes e He). by rewrite Ee in Hes.
Qed.
Lemma deliveries_same me evs w w' : sc_queue (wd_sched w') = sc_queue (wd_sched w) -> deliveries me evs w w'.
Proof. intros Hq. by apply (deliveries_quiet me evs w w' []); [rewrite app_nil_r|]. Qed.
Lemma deliveries_request me evs f w op w' : disk_request me f w = Some (op, w') -> deliveries me evs w w'.
Proof.
  unfold disk_request. destruct (wd_disks w !! node_idx me) as [d|]; [|done]. simpl.
  destruct (f d (wd_rng w)) as [[[iss d'] r]|]; [|done]. simpl. unfold complete_storage. simpl.
  destruct (sched_after _ _ _) as [[i s]|] eqn:Es; [|done]. simpl. intros [= _ <-].
  apply sched_after_queued in Es as (e & (_ & _ & Hq) & _ & He). eapply deliveries_quiet; [exact Hq|].
  apply Forall_singleton. by rewrite He.
Qed.

Lemma io_step_deliveries ev s s' w w' :
  io_step ev s s' -> rng_ok (wd_rng w) -> si_world s = Some w -> si_world s' = Some w' -> deliveries (si_node s) [ev] w w'.
Proof.
  intros Hs Hr Hw Hw'. destruct ev as [to payload|op file off bs|op file len|op file|h delay tag|h|tag args]; simpl in Hs.
  - subst s'. apply sim_do_some in Hw' as (w1 & [] & Hw1 & E). rewrite Hw in Hw1. injection Hw1 as <-.
    unfold sim_send in E. destruct (to =? si_node s); [injection E as <-; by apply deliveries_same|].
    unfold world_send in E. destruct (is_up _ w) as [[]|]; [| |done]; simpl in E; [|injection E as <-; by apply deliveries_same].
    destruct (net_send _ _ _ _ _ _) as [[[c [n sched]] r]|] eqn:En; [|done]. simpl in E. injection E as <-.
    apply draws_net_send in En as [(_ & _ & _ & es & (_ & _ & Hq) & _ & Hes) _]; [|done].
    intros e from to' bytes id He Ee. simpl in *. rewrite Hq in He. apply elem_of_app in He as [He|He]; [by left|right].
    rewrite Forall_forall in Hes. destruct (Hes e He) as (_ & b & msg & Eb & Hc). rewrite Eb in Ee. injection Ee as <- <- <- <-.
    split; [done|]. exists payload. split; [left|done].
  - assert (Hd : si_world (sim_do 0 (fun me => world_write_at me file off bs) s).2 = Some w') by (simpl in Hs; by rewrite Hs).
    apply sim_do_some in Hd as (w1 & b & Hw1 & E). rewrite Hw in Hw1. injection Hw1 as <-. by eapply deliveries_request.
  - assert (Hd : si_world (sim_do 0 (fun me => world_set_len me file len) s).2 = Some w') by (simpl in Hs; by rewrite Hs).
    apply sim_do_some in Hd as (w1 & b & Hw1 & E). rewrite Hw in Hw1. injection Hw1 as <-. by eapply deliveries_request.
  - assert (Hd : si_world (sim_do 0 (fun me => world_sync me file) s).2 = Some w') by (simpl in Hs; by rewrite Hs).
    apply sim_do_some in Hd as (w1 & b & Hw1 & E). rewrite Hw in Hw1. injection Hw1 as <-. by eapply deliveries_request.
  - assert (Hd : si_world (sim_do 0 (fun me => world_set_timer me delay tag) s).2 = Some w') by (simpl in Hs; by rewrite Hs).
    apply sim_do_some in Hd as (w1 & b & Hw1 & E). rewrite Hw in Hw1. injection Hw1 as <-.
    unfold world_set_timer in E. destruct (sched_after _ _ _) as [[i sc]|] eqn:Es; [|done]. injection E as _ <-.
    apply sched_after_queued in Es as (e & (_ & _ & Hq) & _ & He). eapply deliveries_quiet; [exact Hq|].
    apply Forall_singleton. by rewrite He.
  - subst s'. apply sim_do_some in Hw' as (w1 & [] & Hw1 & E). rewrite Hw in Hw1. injection Hw1 as <-.
    injection E as <-. by apply deliveries_same.
  - subst s'. apply sim_do_some in Hw' as (w1 & [] & Hw1 & E). rewrite Hw in Hw1. injection Hw1 as <-.
    unfold world_observe in E. destruct (trace_observe _ _ _ _ _); [|done]. injection E as <-. by apply deliveries_same.
Qed.
Lemma io_steps_live evs (s s' : SimIo) w' : io_steps evs s s' -> si_world s' = Some w' -> is_Some (si_world s).
Proof.
  revert s. induction evs as [|ev evs IH]; intros s; simpl; [intros -> E; by exists w'|].
  intros (s1 & Hs%io_step_sim & H) E. destruct (IH s1 H E) as [w1 E1]. subst s1. by eapply sim_step_live.
Qed.
Lemma io_steps_deliveries evs (s s' : SimIo) w w' :
  io_steps evs s s' -> rng_ok (wd_rng w) -> si_world s = Some w -> si_world s' = Some w' -> deliveries (si_node s) evs w w'.
Proof.
  revert s w. induction evs as [|ev evs IH]; intros s w; simpl.
  - intros -> _ E E'. replace w' with w by congruence. by apply deliveries_same.
  - intros (s1 & Hs & H) Hr E E'. destruct (io_steps_live _ _ _ _ H E') as [w1 E1].
    pose proof (io_step_deliveries ev s s1 w w1 Hs Hr E E1) as Hd. pose proof (io_step_sim _ _ _ Hs) as Hsim.
    assert (Hr1 : rng_ok (wd_rng w1)).
    { rewrite Hsim in E1. apply (cf_rng _ _ _ _ (sim_step_confined _ _ _ _ Hr E E1)), Hr. }
    specialize (IH s1 w1 H Hr1 E1 E'). rewrite Hsim, sim_step_node in IH.
    intros e from to bytes id He Ee. destruct (IH e from to bytes id He Ee) as [He1|(-> & p & Hp & Hc)].
    + destruct (Hd e from to bytes id He1 Ee) as [?|(-> & p & Hp%list_elem_of_singleton & Hc)]; [by left|right].
      split; [done|]. exists p. subst ev. split; [left|done].
    + right. split; [done|]. exists p. split; [by right|done].
Qed.

Lemma lend_lent {S A} node (m : M SimIo S A) s w a s' w' :
  regular m -> rng_ok (wd_rng w) -> lend node m s w = Some (a, s', w') ->
  exists e', m s (mkEnv (mkSimIo (Some w) node) []) = Some (a, s', e') /\ si_world (env_world e') = Some w' /\
    confined node (cancelled_by (env_trace e')) w w' /\ deliveries node (env_trace e') w w'.
Proof.
  intros Hm Hr. unfold lend. destruct (m s _) as [[[b t] e]|] eqn:E; [|done]. simpl.
  destruct (si_world (env_world e)) as [w1|] eqn:Ew; [|done]. simpl. intros [= <- <- <-].
  destruct (regular_faithful m Hm _ _ _ _ _ E) as (evs & Ht & Hw). simpl in Ht, Hw. exists e. rewrite Ht.
  split; [done|]. split; [done|]. split.
  - apply io_steps_sim in Hw. rewrite Hw in Ew. exact (sim_run_confined (sim_op <$> evs) (mkSimIo (Some w) node) w w1 Hr eq_refl Ew).
  - exact (io_steps_deliveries evs (mkSimIo (Some w) node) _ w w1 Hw Hr eq_refl Ew).
Qed.

(** ** A client speaks only as a client *)

Definition client_request (ev : IoEvent) : Prop :=
  match ev with EvSend _ bytes => exists m, bytes = message_encode (MClient m) | _ => True end.
Definition speaks {S A} (h : M SimIo S A) : Prop :=
  forall s e, Forall client_request (env_trace e) -> wp h (fun _ _ e' => Forall client_request (env_trace e')) s e.

Lemma speaks_bind {S A B} (h : M SimIo S A) (k : A -> M SimIo S B) : speaks h -> (forall a, speaks (k a)) -> speaks (h ≫= k).
Proof. intros Hh Hk s e He. apply wp_bind. eapply wp_mono; [by apply Hh|]. intros a s' e'. apply Hk. Qed.
Lemma speaks_ret {S A} (a : A) : speaks (S := S) (mret a).
Proof. by intros s e He. Qed.
Lemma speaks_get {S} : speaks (S := S) get.
Proof. by intros s e He. Qed.
Lemma speaks_modify {S} (f : S -> S) : speaks (modify f).
Proof. by intros s e He. Qed.
Lemma speaks_lift {S A} (o : option A) : speaks (S := S) (lift o).
Proof. intros s e He. apply wp_lift. by intros. Qed.
Lemma speaks_request {S A} (f : SimIo -> A * SimIo) ev : (forall a, client_request (ev a)) -> speaks (S := S) (request f ev).
Proof. intros Hev s e He. apply wp_request. intros a w _. simpl. apply Forall_app. split; [done|]. by apply Forall_singleton. Qed.
Lemma speaks_send {S} to m : speaks (S := S) (send_bytes to (message_encode (MClient m))).
Proof. apply speaks_request. intros _. by exists m. Qed.
Lemma speaks_set_timer {S} delay tag : speaks (S := S) (set_timer delay tag).
Proof. by apply speaks_request. Qed.
Lemma speaks_cancel_timer {S} h : speaks (S := S) (cancel_timer h).
Proof. by apply speaks_request. Qed.
Lemma speaks_observe {S} tag args : speaks (S := S) (observe tag args).
Proof. by apply speaks_request. Qed.
Lemma speaks_add64 {S} a b : speaks (S := S) (add64 a b).
Proof. apply speaks_lift. Qed.
Create HintDb speaks discriminated.
#[export] Hint Resolve speaks_ret speaks_get speaks_modify speaks_lift speaks_send speaks_set_timer speaks_cancel_timer
  speaks_observe speaks_add64 : speaks.
Ltac speaks_step :=
  first
    [ solve [auto with speaks]
    | simple apply speaks_bind; [|intro]
    | match goal with
      | |- speaks (match ?x with _ => _ end) => destruct x
      | |- speaks ?m => let h := head_of m in progress unfold h
      end ].
Ltac speaks := intros; repeat (cbv beta zeta; speaks_step).

Lemma speaks_attempt : speaks attempt.
Proof. speaks. Qed.
#[export] Hint Resolve speaks_attempt : speaks.
Lemma speaks_think now : speaks (think now).
Proof. speaks. Qed.
#[export] Hint Resolve speaks_think : speaks.
Lemma speaks_on_bytes now bytes : speaks (client_on_bytes now bytes).
Proof. speaks. Qed.
Lemma speaks_on_timer now tag : speaks (client_on_timer now tag).
Proof. speaks. Qed.

(** ** The invariant of the driver *)

Definition seat_ok (k : Ledger) (w : World) (v : NodeId) (slot : option KvServer) : Prop :=
  match slot with
  | Some s => voter k v (sv_raft s) /\ rests known v (sv_raft s) w
  | None => stopped k v w
  end.

Record seated (cfg : SimConfig) (k : Ledger) (c : Cluster) : Prop := {
  se_cfg : cs_cfg c = cfg;
  se_ledger : ledger_ok k;
  se_rng : rng_ok (wd_rng (cs_world c));
  se_length : length (cs_servers c) = cs_slots c;
  se_slots : cs_slots c = config_slots cfg;
  se_small : Z.of_nat (cs_slots c) <= U32_MAX;
  se_seats : forall i slot, cs_servers c !! i = Some slot -> seat_ok k (cs_world c) (Z.of_nat i) slot;
  se_up : forall i slot, cs_servers c !! i = Some slot -> wd_up (cs_world c) !! i = Some (bool_decide (is_Some slot));
  se_heard : forall e from to bytes id, e ∈ sc_queue (wd_sched (cs_world c)) -> se_event e = SeDeliver from to bytes id ->
    heard k from to bytes;
}.

(** The world changed, but no disk, and no delivery or completion was added. *)
Definition idle_event (e : SchedEntry) : Prop :=
  match se_event e with SeDeliver _ _ _ _ | SeStorage _ _ _ => False | _ => True end.
Record calm (w w' : World) : Prop := {
  ca_rng : rng_ok (wd_rng w) -> rng_ok (wd_rng w');
  ca_disks : wd_disks w' = wd_disks w;
  ca_up : wd_up w' = wd_up w;
  ca_queue : forall e, e ∈ sc_queue (wd_sched w') -> e ∈ sc_queue (wd_sched w) \/ idle_event e;
}.
Lemma calm_refl w : calm w w.
Proof. split; auto. Qed.
Lemma calm_trans w1 w2 w3 : calm w1 w2 -> calm w2 w3 -> calm w1 w3.
Proof. intros [] []. split; try congruence; auto. intros e [?|?]%ca_queue1; auto. Qed.

Lemma seat_ok_elsewhere k w w' v slot :
  rng_ok (wd_rng w') -> wd_disks w' !! node_idx v = wd_disks w !! node_idx v ->
  (forall e op, e ∈ sc_queue (wd_sched w') -> succeeded v op (se_event e) -> e ∈ sc_queue (wd_sched w)) ->
  seat_ok k w v slot -> seat_ok k w' v slot.
Proof.
  intros Hr Hd Hq. destruct slot as [s|]; simpl.
  - intros [Hv Hs]. split; [done|]. by eapply rests_elsewhere.
  - by apply stopped_elsewhere.
Qed.
Lemma seat_ok_other k k' w v slot :
  ledger_le k k' -> (forall t c, k' v t c -> k v t c) -> seat_ok k w v slot -> seat_ok k' w v slot.
Proof.
  intros Hle Hb. destruct slot as [s|]; simpl.
  - intros [Hv Hs]. split; [|done]. by eapply voter_other.
  - intros (dk & G & d & Hs & Hset). exists dk, G, d. split; [done|]. intros t c Hk. apply Hset. auto.
Qed.

Lemma calm_succeeded w w' v : calm w w' ->
  forall e op, e ∈ sc_queue (wd_sched w') -> succeeded v op (se_event e) -> e ∈ sc_queue (wd_sched w).
Proof. intros Hc e op He Hs. destruct (ca_queue _ _ Hc e He) as [?|Hi]; [done|]. unfold idle_event in Hi. by rewrite Hs in Hi. Qed.

Lemma seated_calm cfg k c w : calm (cs_world c) w -> seated cfg k c -> seated cfg k (c ⟨ cs_world := w ⟩).
Proof.
  intros Hc []. split; simpl; try done; [by apply Hc| | |].
  - intros i slot Hi. eapply seat_ok_elsewhere; [by apply Hc|by rewrite (ca_disks _ _ Hc)|by apply calm_succeeded|auto].
  - intros i slot Hi. rewrite (ca_up _ _ Hc). auto.
  - intros e from to bytes id He Ee. destruct (ca_queue _ _ Hc e He) as [?|Hi]; [by eapply se_heard0|].
    unfold idle_event in Hi. by rewrite Ee in Hi.
Qed.

(** A server ran, or was started, in the world [w1]. *)
Lemma seats_lend k k' servers i w0 w1 w' hs evs s' :
  (forall j slot, servers !! j = Some slot -> seat_ok k w0 (Z.of_nat j) slot) -> (i < length servers)%nat ->
  rng_ok (wd_rng w1) -> wd_disks w1 = wd_disks w0 -> sc_queue (wd_sched w1) = sc_queue (wd_sched w0) ->
  confined (Z.of_nat i) hs w1 w' -> advances k k' (Z.of_nat i) evs ->
  voter k' (Z.of_nat i) (sv_raft s') -> rests known (Z.of_nat i) (sv_raft s') w' ->
  forall j slot, <[i := Some s']> servers !! j = Some slot -> seat_ok k' w' (Z.of_nat j) slot.
Proof.
  intros Hseats Hi Hr Hd Hq Hc [] Hv Hrest j slot Hj. destruct (decide (j = i)) as [->|Hne].
  { rewrite list_lookup_insert_eq in Hj by done. by injection Hj as <-. }
  rewrite list_lookup_insert_ne in Hj by done. apply (seat_ok_other k); [done|intros t x; apply ad_back; lia|].
  eapply seat_ok_elsewhere; [by apply Hc| | |by apply Hseats].
  - rewrite (cf_disks _ _ _ _ Hc) by (rewrite !node_idx_of_nat; done). by rewrite Hd.
  - intros e op He Hs. destruct (cf_queue _ _ _ _ Hc) as (es & Hq' & Hes). rewrite Hq', Hq in He.
    apply elem_of_app in He as [He|He]; [done|]. rewrite Forall_forall in Hes. destruct (Hes e He) as [_ Ho].
    unfold succeeded in Hs. rewrite Hs in Ho. simpl in Ho. lia.
Qed.
(** Every queued delivery is heard of in the ledger. *)
Definition all_heard (k : Ledger) (w : World) : Prop :=
  forall e from to bytes id, e ∈ sc_queue (wd_sched w) -> se_event e = SeDeliver from to bytes id -> heard k from to bytes.
Lemma heard_lend k k' i w0 w1 w' evs :
  all_heard k w0 -> sc_queue (wd_sched w1) = sc_queue (wd_sched w0) ->
  deliveries (Z.of_nat i) evs w1 w' -> advances k k' (Z.of_nat i) evs -> all_heard k' w'.
Proof.
  intros Hh Hq Hdel [] e from to bytes id He Ee. destruct (Hdel e from to bytes id He Ee) as [Hold|(-> & p & Hp & Hcp)].
  - rewrite Hq in Hold. eapply heard_mono; [done|by eapply Hh].
  - eapply heard_copy; [by apply ad_sent|done].
Qed.
Lemma seated_lend cfg k k' c i slot w1 w' hs evs s' :
  seated cfg k c -> cs_servers c !! i = Some slot ->
  rng_ok (wd_rng w1) -> wd_disks w1 = wd_disks (cs_world c) -> wd_up w1 = <[i := true]> (wd_up (cs_world c)) ->
  sc_queue (wd_sched w1) = sc_queue (wd_sched (cs_world c)) ->
  confined (Z.of_nat i) hs w1 w' -> deliveries (Z.of_nat i) evs w1 w' ->
  advances k k' (Z.of_nat i) evs -> voter k' (Z.of_nat i) (sv_raft s') -> rests known (Z.of_nat i) (sv_raft s') w' ->
  seated cfg k' (c ⟨ cs_world := w' ⟩ ⟨ cs_servers := <[i := Some s']> (cs_servers c) ⟩).
Proof.
  intros [] Hi Hr Hd Hu Hq Hc Hdel Ha Hv Hrest. pose proof (lookup_lt_Some _ _ _ Hi) as Hlt.
  split; simpl; rewrite ?length_insert; try done; [by apply Ha|by apply Hc|by eapply seats_lend| |by eapply heard_lend].
  intros j slot' Hj. rewrite (cf_up _ _ _ _ Hc), Hu. destruct (decide (j = i)) as [->|Hne].
  - rewrite list_lookup_insert_eq in Hj by done. injection Hj as <-. rewrite list_lookup_insert_eq; [done|].
    by eapply lookup_lt_Some, se_up0.
  - rewrite list_lookup_insert_ne in Hj by done. rewrite list_lookup_insert_ne by done. by apply se_up0.
Qed.

(** A slot whose server leads the term. *)
Definition leads_term (slot : option (option KvServer)) (t : Z) : Prop :=
  exists s, slot = Some (Some s) /\ r_role (sv_raft s) = Leader /\ r_term (sv_raft s) = t.
(** Who leads led the same term in [c0] already, or, once an event was handled, won an election. *)
Definition led (fresh : bool) (k : Ledger) (c0 c : Cluster) : Prop :=
  forall i s, cs_servers c !! i = Some (Some s) -> r_role (sv_raft s) = Leader ->
    leads_term (cs_servers c0 !! i) (r_term (sv_raft s)) \/
    fresh = true /\ won k (r_members (sv_raft s)) (r_term (sv_raft s)) (Z.of_nat i).

Section Electing.
Context (cfg : SimConfig) (k0 : Ledger) (c0 : Cluster).

Definition elected (fresh : bool) (c : Cluster) : Prop :=
  exists k, ledger_le k0 k /\ seated cfg k c /\ led fresh k c0 c.
(** What leaves every leader as it is, and what may make one. *)
Definition stays {A} (m : Driver A) : Prop := forall fresh, dkeeps (elected fresh) m.
Definition elects {A} (m : Driver A) : Prop := forall c a c', elected false c -> m c = Some (a, c') -> elected true c'.

Lemma elected_fresh fresh c : elected fresh c -> elected true c.
Proof.
  intros (k & Hle & Hs & Hl). exists k. split; [done|]. split; [done|]. intros i s Hi Hr.
  destruct (Hl i s Hi Hr) as [?|[_ ?]]; auto.
Qed.
Lemma elects_stays {A} (m : Driver A) : stays m -> elects m.
Proof. intros Hm c a c' Hc E. eapply elected_fresh. by eapply (Hm false). Qed.
Lemma elects_settled {A} (m : Driver A) : dkeeps (elected true) m -> elects m.
Proof. intros Hm c a c' Hc E. eapply Hm; [|done]. by eapply elected_fresh. Qed.
Lemma elects_before {A B} (m : Driver A) (f : A -> Driver B) : stays m -> (forall a, elects (f a)) -> elects (m ≫= f).
Proof. intros Hm Hf c b c' Hc (a & c1 & E & H)%dbind_Some. eapply Hf; [|exact H]. by eapply (Hm false). Qed.
Lemma elects_after {A B} (m : Driver A) (f : A -> Driver B) : elects m -> (forall a, stays (f a)) -> elects (m ≫= f).
Proof. intros Hm Hf c b c' Hc (a & c1 & E & H)%dbind_Some. eapply (Hf a true); [|exact H]. by eapply Hm. Qed.
Lemma elects_when b m : elects m -> elects (dwhen b m).
Proof. intros Hm. destruct b; [done|]. apply elects_stays. intros fresh. apply dkeeps_ret. Qed.

Lemma stays_bind {A B} (m : Driver A) (f : A -> Driver B) : stays m -> (forall a, stays (f a)) -> stays (m ≫= f).
Proof. intros Hm Hf fresh. apply dkeeps_bind; [apply Hm|]. intros a. apply Hf. Qed.
Lemma stays_ret {A} (a : A) : stays (mret a).
Proof. intros fresh. apply dkeeps_ret. Qed.
Lemma stays_get : stays dget.
Proof. intros fresh. apply dkeeps_get. Qed.
Lemma stays_lift {A} (o : option A) : stays (dlift o).
Proof. intros fresh. apply dkeeps_lift. Qed.
Lemma stays_when b m : stays m -> stays (dwhen b m).
Proof. intros Hm fresh. by apply dkeeps_when. Qed.
Lemma stays_for_each {A} (l : list A) (f : A -> Driver unit) : (forall a, stays (f a)) -> stays (dfor_each l f).
Proof. intros Hf fresh. apply dkeeps_for_each. intros a. apply Hf. Qed.
Lemma stays_ask {A} (f : World -> option A) : stays (ask_world f).
Proof. apply stays_bind; [apply stays_get|]. intros c. apply stays_lift. Qed.

(** Bookkeeping. *)
Definition seats_view (c : Cluster) := (cs_cfg c, cs_world c, cs_slots c, cs_servers c).
Lemma elected_view fresh c c' : seats_view c' = seats_view c -> elected fresh c -> elected fresh c'.
Proof.
  unfold seats_view. intros [= E1 E2 E3 E4] (k & Hle & [] & Hl). exists k. split; [done|].
  split; [|unfold led; by rewrite E4]. split; rewrite ?E1, ?E2, ?E3, ?E4; done.
Qed.
Lemma stays_modify f : (forall c, seats_view (f c) = seats_view c) -> stays (dmodify f).
Proof. intros Hf fresh. apply dkeeps_modify. intros c. by apply elected_view. Qed.
Lemma stays_quiet {A} (m : Driver A) : quiet m -> stays m.
Proof.
  intros Hm fresh c a c' Hc E. apply (quiet_of _ _ _ _ Hm) in E. eapply elected_view; [|exact Hc].
  unfold vitals in E. unfold seats_view. congruence.
Qed.

(** Operations of the world. *)
Lemma elected_calm fresh c w : calm (cs_world c) w -> elected fresh c -> elected fresh (c ⟨ cs_world := w ⟩).
Proof. intros Hc (k & Hle & Hs & Hl). exists k. split; [done|]. split; [by apply seated_calm|done]. Qed.
Lemma stays_calm {A} (f : World -> option (A * World)) : (forall w a w', f w = Some (a, w') -> calm w w') -> stays (on_world f).
Proof. intros Hf fresh. apply dkeeps_on_world. intros c a w Hc E. apply elected_calm; [by eapply Hf|done]. Qed.
Lemma stays_calm_ (f : World -> option World) : (forall w w', f w = Some w' -> calm w w') -> stays (on_world_ f).
Proof.
  intros Hf. apply stays_calm. intros w [] w'. destruct (f w) as [w1|] eqn:E; [|done]. intros [= <-]. by apply Hf.
Qed.
Lemma stays_on_net f : stays (on_net f).
Proof. apply stays_calm_. intros w w' [= <-]. split; auto. Qed.
Lemma stays_on_rng {A} (m : Draw A) : plain m -> stays (on_rng m).
Proof.
  intros Hm. apply stays_calm. intros w a w'. destruct (m (wd_rng w)) as [[b r]|] eqn:E; [|done].
  intros [= _ <-]. split; simpl; auto. intros Hr. by apply Hm in E as [_ ?].
Qed.
Lemma calm_queued w s es : queued (wd_sched w) s es -> Forall idle_event es -> calm w (w ⟨ wd_sched := s ⟩).
Proof.
  intros (_ & _ & Hq) Hes. split; simpl; auto. intros e. rewrite Hq, elem_of_app. intros [?|He]; [by left|right].
  rewrite Forall_forall in Hes. auto.
Qed.
Lemma stays_sched_app f tag arg :
  (forall s id s', f s = Some (id, s') -> exists e, queued s s' [e] /\ se_event e = SeApp tag arg) -> stays (on_sched f).
Proof.
  intros Hf. apply stays_calm_. intros w w'. destruct (f (wd_sched w)) as [[id s]|] eqn:E; [|done]. intros [= <-].
  destruct (Hf _ _ _ E) as (e & Hq & He). eapply calm_queued; [exact Hq|]. apply Forall_singleton. unfold idle_event. by rewrite He.
Qed.
Lemma stays_sched_after delay tag arg : stays (on_sched (sched_after delay (SeApp tag arg))).
Proof.
  apply (stays_sched_app _ tag arg). intros s id s' E. apply sched_after_queued in E as (e & ? & _ & ?). eauto.
Qed.
Lemma stays_sched_at time tag arg : stays (on_sched (sched_at time (SeApp tag arg))).
Proof.
  apply (stays_sched_app _ tag arg). intros s id s' (_ & _ & ->)%sched_at_spec. eexists. split; [by repeat split|done].
Qed.
Lemma calm_observe node tag args w w' : world_observe node tag args w = Some w' -> calm w w'.
Proof. unfold world_observe. destruct (trace_observe _ _ _ _ _); [|done]. intros [= <-]. split; auto. Qed.
Lemma stays_observe node tag args : stays (on_world_ (world_observe node tag args)).
Proof. apply stays_calm_. intros w w'. apply calm_observe. Qed.
Lemma stays_log level node cat msg : stays (on_world_ (world_log level node cat msg)).
Proof.
  apply stays_calm_. intros w w'. unfold world_log. destruct (trace_log _ _ _ _ _ _); [|done]. intros [= <-]. split; auto.
Qed.
Lemma stays_clock_jump node delta : stays (on_world_ (clock_jump node delta)).
Proof.
  apply stays_calm_. intros w w'. unfold clock_jump. destruct (_ !! _) as [s|]; [|done]. simpl.
  destruct (i64_checked _) as [o|]; [|done]. simpl. intros Ho%calm_observe. destruct Ho. by split.
Qed.
Lemma stays_accept from to : stays (on_world (world_accept from to)).
Proof.
  apply stays_calm. intros w ok w'. unfold world_accept. destruct (is_up to w) as [[]|]; [|intros [= _ <-]; apply calm_refl|done].
  simpl. destruct (accept_delivery _ _ _ _) as [[[b net] r]|] eqn:E; [|done]. simpl. intros [= _ <-].
  assert (Hp : plain (accept_delivery from to (wd_net w))) by (unfold accept_delivery, net_count; plain).
  split; simpl; auto. intros Hr. by apply Hp in E as [_ ?].
Qed.
Lemma stays_decide t up hint :
  stays (on_world (fun w =>
    '((action, i), rng) ← fault_decide (wd_faults w) t up hint (wd_rng w);
    Some (action, w ⟨ wd_rng := rng ⟩ ⟨ wd_faults := i ⟩))).
Proof.
  apply stays_calm. intros w a w'. destruct (fault_decide _ _ _ _ _) as [[[b i] r]|] eqn:E; [|done].
  simpl. intros [= _ <-]. split; simpl; auto. intros Hr. by apply plain_fault_decide in E as [_ ?].
Qed.
Lemma stays_first_timer node delay tag :
  stays (on_world_ (fun w => '(_, w) ← world_set_timer node delay tag w; Some w)).
Proof.
  apply stays_calm_. intros w w'. unfold world_set_timer. destruct (sched_after _ _ _) as [[id s]|] eqn:E; [|done]. simpl.
  intros [= <-]. apply sched_after_queued in E as (e & Hq & _ & He). eapply calm_queued; [exact Hq|].
  apply Forall_singleton. unfold idle_event. by rewrite He.
Qed.

(** ** Crashes and clients *)

Lemma votable_slot c i slot : Z.of_nat (cs_slots c) <= U32_MAX -> length (cs_servers c) = cs_slots c ->
  cs_servers c !! i = Some slot -> Z.of_nat i < U32_MAX.
Proof. intros Hs Hl Hi%lookup_lt_Some. lia. Qed.

Lemma led_drop fresh k c w i : led fresh k c0 c -> led fresh k c0 (c ⟨ cs_world := w ⟩ ⟨ cs_servers := <[i := None]> (cs_servers c) ⟩).
Proof.
  intros Hl j s Hj. simpl in Hj. destruct (decide (j = i)) as [->|Hne]; [|rewrite list_lookup_insert_ne in Hj by done; by apply Hl].
  destruct (decide (i < length (cs_servers c))%nat); [by rewrite list_lookup_insert_eq in Hj|].
  rewrite lookup_ge_None_2 in Hj by (rewrite length_insert; lia). done.
Qed.

Lemma votable_small i : Z.of_nat i < U32_MAX -> votable (Z.of_nat i).
Proof. unfold votable, is_u32, NO_VOTE, U32_MAX. lia. Qed.

(** What a crash leaves of the world beside its node. *)
Lemma crash_node_beside v w w' :
  rng_ok (wd_rng w) -> is_up v w = Some true -> crash_node v w = Some w' ->
  rng_ok (wd_rng w') /\ (forall i, i <> node_idx v -> wd_disks w' !! i = wd_disks w !! i) /\
  wd_up w' = <[node_idx v := false]> (wd_up w) /\
  (forall e, e ∈ sc_queue (wd_sched w') -> e ∈ sc_queue (wd_sched w)).
Proof.
  intros Hr Hup. unfold crash_node. rewrite Hup. simpl. destruct (wd_disks w !! node_idx v) as [d|]; [|done]. simpl.
  destruct (disk_crash d (wd_rng w)) as [[d' r]|] eqn:Ec; [|done]. simpl.
  destruct (wd_incarnation w !! node_idx v) as [inc|]; [|done]. simpl. destruct (u64_add inc 1); [|done]. simpl.
  unfold world_observe. destruct (trace_observe _ _ _ _ _); [|done]. intros [= <-]. simpl.
  apply plain_disk_crash in Ec as [_ ?]; [|done]. split; [done|]. split; [|split; [done|]].
  - intros i Hi. by rewrite list_lookup_insert_ne.
  - intros e [He _]%list_elem_of_In%filter_In. by apply list_elem_of_In.
Qed.

Lemma stays_crash node : stays (cluster_crash node).
Proof.
  intros fresh c a c' Hc [[_ ->]|(c1 & w & Hup & Hv & Ew & ->)]%cluster_crash_spec; [done|].
  assert (Hc1 : elected fresh c1) by (eapply elected_view; [|exact Hc]; unfold vitals in Hv; unfold seats_view; congruence).
  replace (cs_world c) with (cs_world c1) in Hup by (unfold vitals in Hv; congruence). clear Hc Hv.
  destruct Hc1 as (k & Hle & Hs & Hl). exists k. split; [done|]. split; [|by apply led_drop].
  destruct (crash_node_beside node _ _ (se_rng _ _ _ Hs) Hup Ew) as (Hr & Hd & Hu & Hq).
  pose proof Hs as []. set (i := node_idx node) in *.
  split; simpl; rewrite ?length_insert; try done.
  - intros j slot Hj. destruct (decide (j = i)) as [->|Hne].
    + pose proof (lookup_lt_Some _ _ _ Hj) as Hlt. rewrite length_insert in Hlt.
      rewrite list_lookup_insert_eq in Hj by done. injection Hj as <-. simpl.
      destruct (lookup_lt_is_Some_2 _ _ Hlt) as [slot Hslot]. pose proof (se_up0 _ _ Hslot) as Hup'.
      unfold is_up in Hup. change (node_idx node) with i in Hup.
      rewrite Hup in Hup'. injection Hup' as Hsome. symmetry in Hsome. apply bool_decide_eq_true_1 in Hsome as [s ->].
      destruct (se_seats0 _ _ Hslot) as [Hv Hrest].
      assert (En : node = Z.of_nat i) by (apply node_idx_inv; [done|lia]). rewrite En in Ew.
      eapply rests_crash; [exact se_rng0| |exact Ew|exact Hrest|exact Hv]. unfold is_up. by rewrite node_idx_of_nat.
    + rewrite list_lookup_insert_ne in Hj by done. eapply (seat_ok_elsewhere _ (cs_world c1)); [done| |by eauto|by apply se_seats0].
      apply Hd. by rewrite node_idx_of_nat.
  - intros j slot Hj. rewrite Hu. destruct (decide (j = i)) as [->|Hne].
    + pose proof (lookup_lt_Some _ _ _ Hj) as Hlt. rewrite length_insert in Hlt.
      rewrite list_lookup_insert_eq in Hj by done. injection Hj as <-. rewrite list_lookup_insert_eq; [done|]. by eapply lookup_lt_Some.
    + rewrite list_lookup_insert_ne in Hj by done. rewrite list_lookup_insert_ne by done. by apply se_up0.
  - intros e from to bytes id He. by eapply se_heard0, Hq.
Qed.

(** A client has no seat. *)
Lemma client_calm c node evs hs w k :
  seated cfg k c -> (config_slots cfg <= node_idx node)%nat -> confined node hs (cs_world c) w ->
  deliveries node evs (cs_world c) w -> Forall client_request evs -> seated cfg k (c ⟨ cs_world := w ⟩).
Proof.
  intros [] Hn Hc Hdel Hsay. assert (Hother : forall i slot, cs_servers c !! i = Some slot -> i <> node_idx node).
  { intros i slot Hi%lookup_lt_Some. lia. }
  split; simpl; try done; [by apply Hc| | |].
  - intros i slot Hi. eapply seat_ok_elsewhere; [by apply Hc| | |by apply se_seats0].
    + apply (cf_disks _ _ _ _ Hc). rewrite node_idx_of_nat. by eapply Hother.
    + intros e op He Hs. destruct (cf_queue _ _ _ _ Hc) as (es & Hq & Hes). rewrite Hq in He.
      apply elem_of_app in He as [?|He]; [done|]. rewrite Forall_forall in Hes. destruct (Hes e He) as [_ Ho].
      unfold succeeded in Hs. rewrite Hs in Ho. simpl in Ho. destruct (Hother i slot Hi). subst node. by rewrite node_idx_of_nat.
  - intros i slot Hi. rewrite (cf_up _ _ _ _ Hc). auto.
  - intros e from to bytes id He Ee. destruct (Hdel e from to bytes id He Ee) as [?|(-> & p & Hp & Hcp)]; [by eapply se_heard0|].
    rewrite Forall_forall in Hsay. destruct (Hsay _ Hp) as [m ->]. eapply heard_copy; [|done]. by exists (MClient m).
Qed.
Lemma stays_at_client node m :
  (config_slots cfg <= node_idx node)%nat -> regular m -> speaks m -> stays (at_client node m).
Proof.
  intros Hn Hm Hsp fresh c a c' (k & Hle & Hs & Hl). unfold at_client.
  intros (? & ? & [= <- <-] & H)%dbind_Some. apply dbind_Some in H as (cl & ? & [Hcl ->]%dlift_Some & H).
  apply dbind_Some in H as ([[u [cl' h']] w] & ? & [Hlend ->]%dlift_Some & [= <- <-]).
  destruct (lend_lent _ _ _ _ _ _ _ Hm (se_rng _ _ _ Hs) Hlend) as (e' & Hrun & Ew & Hconf & Hdel).
  assert (Hsay : Forall client_request (env_trace e')) by (refine (wp_Some _ _ _ _ _ _ _ (Hsp _ _ _) Hrun); apply Forall_nil_2).
  eapply (elected_view _ (c ⟨ cs_world := w ⟩)); [done|]. exists k. split; [done|]. split; [|done].
  by eapply client_calm.
Qed.

(** ** Servers *)

Lemma led_server k k' c i s s' w :
  ledger_le k k' -> led false k c0 c -> cs_servers c !! i = Some (Some s) -> leads_fairly k' (Z.of_nat i) (sv_raft s) (sv_raft s') ->
  led true k' c0 (c ⟨ cs_world := w ⟩ ⟨ cs_servers := <[i := Some s']> (cs_servers c) ⟩).
Proof.
  intros Hle Hl Hi Hlead j t Hj Hr. simpl in Hj. destruct (decide (j = i)) as [->|Hne].
  - rewrite list_lookup_insert_eq in Hj by (by eapply lookup_lt_Some). injection Hj as <-.
    destruct (Hlead Hr) as [[Hrole Hterm]|Hwon]; [left|by right]. rewrite Hterm.
    destruct (Hl i s Hi Hrole) as [?|[? _]]; done.
  - rewrite list_lookup_insert_ne in Hj by done. destruct (Hl j t Hj Hr) as [?|[? _]]; [by left|done].
Qed.

(** An event of a server: what it hears is in the ledger, and what it is told succeeded did. *)
Lemma elects_at_server {A} node (m : M SimIo KvServer A) ev c a c' :
  (forall s e Q, wp (server_handle ev) (fun _ s' e' => Q s' e') s e -> wp m (fun _ s' e' => Q s' e') s e) -> regular m ->
  elected false c -> (forall k, ledger_le k0 k -> event_heard k node ev) ->
  (forall s, cs_servers c !! node_idx node = Some (Some s) -> rests known node (sv_raft s) (cs_world c) ->
     rests (event_known ev) node (sv_raft s) (cs_world c)) ->
  at_server node m c = Some (a, c') -> elected true c'.
Proof.
  intros Hm Hreg (k & Hle & Hs & Hl) Hheard Hknown. unfold at_server, mbind, Driver_bind. simpl.
  destruct (cs_servers c !! node_idx node) as [[s|]|] eqn:Es; [| |done]; simpl.
  2: { intros [= _ <-]. eapply elected_fresh. by exists k. }
  destruct (lend node m s (cs_world c)) as [[[b s'] w]|] eqn:El; [|done]. simpl. intros [= _ <-].
  pose proof Hs as []. set (i := node_idx node) in *.
  assert (En : node = Z.of_nat i) by (apply node_idx_inv; [done|by eapply votable_slot]).
  destruct (lend_lent _ _ _ _ _ _ _ Hreg se_rng0 El) as (e' & Hrun & Ew & Hconf & Hdel).
  destruct (se_seats0 _ _ Es) as [Hv Hrest]. rewrite En in *.
  assert (Hw : wp m (fun _ s' e' => exists k', advances k k' (Z.of_nat i) (env_trace e') /\ voter k' (Z.of_nat i) (sv_raft s') /\
      leads_fairly k' (Z.of_nat i) (sv_raft s) (sv_raft s') /\
      forall w', si_world (env_world e') = Some w' -> rests known (Z.of_nat i) (sv_raft s') w')
    s (mkEnv (mkSimIo (Some (cs_world c)) (Z.of_nat i)) [])).
  { apply (Hm _ _ (fun s' e' => exists k', advances k k' (Z.of_nat i) (env_trace e') /\ _)).
    apply server_event_lifts; auto. }
  destruct (wp_Some _ _ _ _ _ _ _ Hw Hrun) as (k' & Ha & Hv' & Hlead & Hrest').
  exists k'. split; [by etrans; [|apply Ha]|]. split.
  - eapply (seated_lend cfg k k' c i (Some s) (cs_world c)); try done; [|by apply Hrest'].
    symmetry. apply list_insert_id. by apply (se_up0 _ (Some s)).
  - eapply led_server; [apply Ha|done|done|done].
Qed.

(** Emptying the list of reads to report changes nothing here. *)
Lemma seat_read_events k w v s :
  seat_ok k w v (Some s) -> seat_ok k w v (Some (s ⟨ sv_raft := (take_read_events (sv_raft s)).2 ⟩)).
Proof.
  intros [[Hid Hvt Hi Hb Hset Hsame Hfit] (dk & G & d & l & Done & HL & Hch & Hok)]. simpl. split.
  - split; simpl; try done.
    + pose proof (Good_refl _ (mkEnv tt []) Hi) as HG.
      assert (HG' : Good (sv_raft s) (mkEnv tt []) ((sv_raft s) ⟨ r_read_events := [] ⟩) (mkEnv tt [])) by good_tac. apply HG'.
    + pose proof (Fair_refl (asked_in k) (got_in k v) _ (mkEnv tt []) Hb) as HF.
      assert (HF' : Fair (asked_in k) (got_in k v) (sv_raft s) (mkEnv tt []) ((sv_raft s) ⟨ r_read_events := [] ⟩) (mkEnv tt [])) by fair_tac.
      apply HF'.
  - exists dk, G, d, l, Done. split; [|done]. eapply link_view_eq; [|exact HL]. done.
Qed.
Lemma stays_check_reads_of t committed node : stays (check_reads_of t committed node).
Proof.
  intros fresh c a c' Hc. unfold check_reads_of. intros (? & ? & [= <- <-] & H)%dbind_Some.
  apply dbind_Some in H as ([s|] & ? & [Hs ->]%dlift_Some & H); [|by injection H as _ <-].
  destruct (take_read_events (sv_raft s)) as [evs r] eqn:Er. apply dbind_Some in H as (? & ? & [= _ <-] & H).
  refine (stays_quiet _ _ fresh _ _ _ _ H); [quiet|]. clear H.
  assert (Er2 : r = (take_read_events (sv_raft s)).2) by by rewrite Er.
  destruct Hc as (k & Hle & [] & Hl). exists k. split; [done|]. pose proof (lookup_lt_Some _ _ _ Hs) as Hlt. split.
  - split; simpl; rewrite ?length_insert; try done.
    + intros j slot Hj. destruct (decide (j = node_idx node)) as [->|Hne].
      * rewrite list_lookup_insert_eq in Hj by done. injection Hj as <-. rewrite Er2. apply seat_read_events. by apply se_seats0.
      * rewrite list_lookup_insert_ne in Hj by done. by apply se_seats0.
    + intros j slot Hj. destruct (decide (j = node_idx node)) as [->|Hne].
      * rewrite list_lookup_insert_eq in Hj by done. injection Hj as <-. by apply (se_up0 _ (Some s)).
      * rewrite list_lookup_insert_ne in Hj by done. by apply se_up0.
  - intros j t' Hj Hr. simpl in Hj. destruct (decide (j = node_idx node)) as [->|Hne].
    + rewrite list_lookup_insert_eq in Hj by done. injection Hj as <-. rewrite Er2 in *. by apply (Hl _ s Hs).
    + rewrite list_lookup_insert_ne in Hj by done. by apply Hl.
Qed.

(** A restart reads back what the disk holds. *)
Lemma restart_node_beside v w w' :
  is_up v w = Some false -> restart_node v w = Some w' ->
  wd_rng w' = wd_rng w /\ wd_disks w' = wd_disks w /\ wd_up w' = <[node_idx v := true]> (wd_up w) /\
  sc_queue (wd_sched w') = sc_queue (wd_sched w).
Proof.
  intros Hup. unfold restart_node. rewrite Hup. simpl. unfold world_observe. destruct (trace_observe _ _ _ _ _); [|done].
  by intros [= <-].
Qed.

Lemma settles_restart node t : cfg_bug (sx_raft cfg) = BugNone -> dkeeps (elected true) (cluster_restart node t).
Proof.
  intros Hbug c a c' Hc. unfold cluster_restart. intros (up & ? & [Hup ->]%ask_Some & H)%dbind_Some.
  destruct up; [by injection H as _ <-|]. simpl in H.
  apply dbind_Some in H as (? & ? & (w1 & Ew1 & ->)%on_world__Some & H).
  apply dbind_Some in H as (? & ? & [= <- <-] & H). apply dbind_Some in H as (inc & ? & [_ ->]%dlift_Some & H).
  apply dbind_Some in H as ([[server []] w2] & ? & [Hl ->]%dlift_Some & H). simpl in Hl.
  apply dbind_Some in H as (? & ? & [= _ <-] & H).
  apply dbind_Some in H as (? & c1 & Hq1%quiet_of & H); [|quiet].
  apply dbind_Some in H as (? & c2 & Hq2%quiet_of & H); [|quiet].
  apply dbind_Some in H as (slot & ? & [Hslot ->]%dlift_Some & H). apply dbind_Some in H as (? & ? & [= _ <-] & H%quiet_of); [|quiet].
  unfold vitals in Hq1, Hq2, H. rewrite Hq1 in Hq2. injection Hq2 as E1 _ _ E4 E5 E6 _ _. simpl in *.
  set (i := node_idx node) in *. apply (elected_view true (c ⟨ cs_world := w2 ⟩ ⟨ cs_servers := <[i := Some server]> (cs_servers c) ⟩)).
  { unfold seats_view. simpl in *. injection H as F1 _ _ F4 F5 F6 _ _. congruence. }
  clear H. destruct Hc as (k & Hle & Hs & Hlead). pose proof Hs as [].
  apply restart_node_beside in Ew1 as (Hr1 & Hd1 & Hu1 & Hq); [|done].
  assert (En : node = Z.of_nat i) by (apply node_idx_inv; [done|by eapply votable_slot]).
  assert (slot = None) as ->.
  { pose proof (se_up0 _ _ Hslot) as Hu. unfold is_up in Hup. change (node_idx node) with i in Hup. rewrite Hup in Hu.
    injection Hu as Hu. symmetry in Hu. apply bool_decide_eq_false_1 in Hu. by apply eq_None_not_Some. }
  pose proof (se_seats0 _ _ Hslot) as Hst. simpl in Hst.
  destruct (lend_lent _ _ _ _ _ _ _ (regular_server_recover _ _ _ _) ltac:(by rewrite Hr1) Hl) as (e' & Hrun & Ew & Hconf & Hdel).
  rewrite En in *.
  assert (Hst1 : stopped k (Z.of_nat i) w1).
  { eapply stopped_elsewhere; [by rewrite Hd1| |exact Hst]. intros e op. by rewrite Hq. }
  assert (Hvt : votable (Z.of_nat i)).
  { by eapply votable_small, votable_slot. }
  rewrite se_cfg0 in Hrun.
  destruct (wp_Some _ _ _ _ _ _ _ (server_restart_lifts k _ _ _ _ w1 se_ledger0 Hvt Hbug Hst1 ltac:(by rewrite Hr1)) Hrun)
    as (k' & Ha & Hv' & Hwon & Hrest).
  exists k'. split; [by etrans; [|apply Ha]|]. split.
  - eapply (seated_lend cfg k k' c i None w1); try done; [by rewrite Hr1| |by apply Hrest]. rewrite Hu1. by rewrite node_idx_of_nat.
  - intros j s Hj Hr. simpl in Hj. destruct (decide (j = i)) as [->|Hne].
    + rewrite list_lookup_insert_eq in Hj by (by eapply lookup_lt_Some). injection Hj as <-. right. split; [done|]. by apply Hwon.
    + rewrite list_lookup_insert_ne in Hj by done. destruct (Hlead j s Hj Hr) as [?|[_ Hw]]; [by left|right].
      split; [done|]. eapply won_mono; [apply Ha|done].
Qed.
End Electing.

(** Walk through code that makes no leader. *)
Create HintDb stays discriminated.
#[export] Hint Resolve stays_ret stays_get stays_lift stays_ask stays_on_net stays_sched_after stays_sched_at stays_observe
  stays_log stays_clock_jump stays_accept stays_decide stays_crash stays_check_reads_of stays_first_timer : stays.
Ltac stays_step :=
  first
    [ solve [auto with stays]
    | simple apply stays_quiet; solve [auto with quiet | simple apply quiet_modify; intro; reflexivity]
    | simple apply stays_modify; intro; reflexivity
    | simple apply stays_bind; [|intro]
    | simple apply stays_when
    | simple apply stays_for_each; intro
    | simple apply stays_on_rng; plain
    | match goal with
      | |- stays _ _ _ (match ?x with _ => _ end) => destruct x
      | |- stays _ _ _ ?m => let h := head_of m in progress unfold h
      end ].
Ltac stays := intros; repeat (cbv beta zeta; stays_step).
(** One part of it may make one. *)
Create HintDb elects discriminated.
Ltac elects_step :=
  first
    [ solve [auto with elects]
    | simple apply elects_stays; solve [stays]
    | simple apply elects_before; [solve [stays]|intro]
    | simple apply elects_after; [|intro; solve [stays]]
    | simple apply elects_when
    | match goal with
      | |- elects _ _ _ (match ?x with _ => _ end) => destruct x
      | |- elects _ _ _ ?m => let h := head_of m in progress unfold h
      end ].
Ltac elects := intros; repeat (cbv beta zeta; elects_step).

Section Events.
Context (cfg : SimConfig) (k0 : Ledger) (c0 : Cluster) (Hbug : cfg_bug (sx_raft cfg) = BugNone).
Abbreviation stays m := (stays cfg k0 c0 m).
Abbreviation elects m := (elects cfg k0 c0 m).

(** ** The driver's events *)

Lemma elects_membership node members : elects (at_server node (server_propose_membership members)).
Proof.
  intros c a c' Hc. apply (elects_at_server cfg k0 c0 node _ (SvMembership members)); try done; [|apply regular_server_propose_membership].
  intros s e Q Hw. simpl in Hw. unfold wp, mbind, M_bind in *. by destruct (server_propose_membership _ _ _) as [[[]]|].
Qed.
Lemma elects_timer node tag : elects (at_server node (server_on_timer tag)).
Proof.
  intros c a c' Hc. apply (elects_at_server cfg k0 c0 node _ (SvTimer tag)); try done. apply regular_server_on_timer.
Qed.
Lemma elects_bytes node from bytes : heard k0 from node bytes -> elects (at_server node (on_bytes from bytes)).
Proof.
  intros Hh c a c' Hc. apply (elects_at_server cfg k0 c0 node _ (SvBytes from bytes)); try done; [apply regular_on_bytes|].
  intros k Hle. by eapply heard_mono.
Qed.
Lemma elects_restart node t : elects (cluster_restart node t).
Proof. by apply elects_settled, settles_restart. Qed.
#[local] Hint Resolve elects_membership elects_timer elects_bytes elects_restart : elects.

Lemma elects_reconfigure : elects reconfigure.
Proof. elects. Qed.
#[local] Hint Resolve elects_reconfigure : elects.
Lemma elects_apply_fault action t : elects (apply_fault action t).
Proof.
  unfold apply_fault. apply elects_before; [stays|]. intros c. destruct action; try solve [elects].
  apply elects_before; [stays|intros _]. apply elects_before; [stays|intros c1].
  apply elects_before; [stays|intros down]. apply elects_after; [|intros _; stays].
  apply elects_settled, dkeeps_for_each. intros n. by apply settles_restart.
Qed.
#[local] Hint Resolve elects_apply_fault : elects.
Lemma elects_fault_tick t : elects (fault_tick t).
Proof. elects. Qed.
#[local] Hint Resolve elects_fault_tick : elects.
Lemma elects_on_app tag arg t : elects (cluster_on_app tag arg t).
Proof. elects. Qed.
#[local] Hint Resolve elects_on_app : elects.

Lemma elected_slots fresh c : elected cfg k0 c0 fresh c -> cs_slots c = config_slots cfg.
Proof. by intros (k & _ & [] & _). Qed.
(** Whether a node is a client's is read off the cluster. *)
Lemma elects_reader {B} (f : Cluster -> Driver B) :
  (forall c, cs_slots c = config_slots cfg -> elects (f c)) -> elects (dget ≫= f).
Proof.
  intros Hf c b c' Hc (? & ? & [= <- <-] & H)%dbind_Some. by eapply (Hf c); [eapply elected_slots| |exact H].
Qed.
Lemma elects_at_client c node m :
  cs_slots c = config_slots cfg -> is_client c node = true -> regular m -> speaks m -> elects (at_client node m).
Proof.
  intros Hs Hn%Nat.leb_le Hm Hsp. apply elects_stays, stays_at_client; [by rewrite <-Hs|done..].
Qed.

Lemma elects_on_timer node timer t : elects (cluster_on_timer node timer t).
Proof.
  unfold cluster_on_timer. apply elects_reader. intros c Hs. destruct (is_client c node) eqn:Hn; [|elects].
  eapply elects_at_client; [done..|apply regular_client_on_timer|apply speaks_on_timer].
Qed.
Lemma elects_on_deliver from to bytes t : heard k0 from to bytes -> elects (cluster_on_deliver from to bytes t).
Proof.
  intros Hh. pose proof (elects_bytes to from bytes Hh) as Hb. unfold cluster_on_deliver.
  apply elects_reader. intros c Hs. apply elects_before; [stays|intros _].
  apply elects_before; [stays|intros ok]. apply elects_when, elects_before; [stays|intros _].
  apply elects_before; [stays|intros _]. destruct (is_client c to) eqn:Hn; [|elects].
  eapply elects_at_client; [done..|apply regular_client_on_bytes|apply speaks_on_bytes].
Qed.

(** What the scheduler hands to the driver. *)
Definition fair_event (c : Cluster) (ev : Event) : Prop :=
  match ev with
  | SeDeliver from to bytes _ => heard k0 from to bytes
  | SeStorage v op IoOk => forall s, cs_servers c !! node_idx v = Some (Some s) -> rests (eq op) v (sv_raft s) (cs_world c)
  | _ => True
  end.
Lemma elects_dispatch f c u c' :
  elected cfg k0 c0 false c -> fair_event c (fd_event f) -> dispatch f c = Some (u, c') -> elected cfg k0 c0 true c'.
Proof.
  intros Hc Hev. unfold dispatch. destruct (fd_event f) as [node timer|from to bytes id|node op result|action|tag arg].
  - by apply elects_on_timer.
  - by apply elects_on_deliver.
  - unfold cluster_on_storage. intros (up & ? & [_ ->]%ask_Some & H)%dbind_Some.
    destruct up; [|injection H as _ <-; by eapply elected_fresh]. simpl in H.
    apply dbind_Some in H as (a & c1 & H & [= _ <-]). revert H.
    apply (elects_at_server cfg k0 c0 node _ (SvStorage op (io_is_ok result))); try done; [apply regular_server_on_storage|].
    intros s Hs Hr. destruct result; [|done]. by apply Hev.
  - by apply elects_apply_fault.
  - by apply elects_on_app.
Qed.

Lemma elects_step f c u c' :
  elected cfg k0 c0 false c -> fair_event c (fd_event f) -> cluster_step f c = Some (u, c') -> elected cfg k0 c0 true c'.
Proof.
  intros Hc Hev. unfold cluster_step. intros (? & c1 & E & H)%dbind_Some.
  eapply elects_dispatch in E; [|done..]. revert H.
  enough (Hk : forall m : Driver unit, stays m -> m c1 = Some (u, c') -> elected cfg k0 c0 true c') by (apply Hk; stays).
  intros m Hm. by apply (Hm true).
Qed.
End Events.

(** ** A turn of the loop *)

Lemma sched_next_fired s o s' :
  sched_next s = Some (o, s') ->
  (forall e, e ∈ sc_queue s' -> e ∈ sc_queue s) /\
  forall f, o = Some f -> exists e, e ∈ sc_queue s /\ se_event e = fd_event f.
Proof.
  unfold sched_next. generalize (S (length (sc_queue s))) as fuel. intros fuel.
  revert s. induction fuel as [|fuel IH]; intros s; simpl; [done|].
  destruct (pop_least (sc_queue s)) as [[e rest]|] eqn:E; [|by intros [= <- <-]].
  apply pop_least_spec in E as [Hq _]. assert (Hsub : forall x, x ∈ rest -> x ∈ sc_queue s) by (intros x; rewrite Hq; by right).
  destruct (is_cancelled _ _).
  - intros [H1 H2]%IH. simpl in *. split; [auto|]. intros f Hf. destruct (H2 f Hf) as (x & Hx & Ex). eauto.
  - destruct (u64_add _ 1); [|done]. intros [= <- <-]. simpl. split; [done|]. intros f [= <-]. exists e.
    split; [|done]. rewrite Hq. left.
Qed.

Lemma seated_turn cfg k c sched :
  seated cfg k c -> (forall e, e ∈ sc_queue sched -> e ∈ sc_queue (wd_sched (cs_world c))) ->
  seated cfg k (c ⟨ cs_world := (cs_world c) ⟨ wd_sched := sched ⟩ ⟩ ⟨ cs_events := cs_events c + 1 ⟩).
Proof.
  intros Hs Hq. assert (Hc : calm (cs_world c) ((cs_world c) ⟨ wd_sched := sched ⟩)) by (split; simpl; auto).
  apply (seated_calm _ _ _ _ Hc) in Hs. by destruct Hs.
Qed.
Lemma led_already k c : led false k c c.
Proof. intros i s Hi Hr. left. by exists s. Qed.

(** An event is fair to a cluster whose servers rest. *)
Lemma turn_fair cfg k c f sched :
  seated cfg k c -> sched_next (wd_sched (cs_world c)) = Some (Some f, sched) ->
  fair_event k (c ⟨ cs_world := (cs_world c) ⟨ wd_sched := sched ⟩ ⟩ ⟨ cs_events := cs_events c + 1 ⟩) (fd_event f).
Proof.
  intros [] Hn. apply sched_next_fired in Hn as [Hsub Hf]. destruct (Hf f eq_refl) as (e & He & <-).
  destruct (se_event e) as [node timer|from to bytes id|node op [|]|action|tag arg] eqn:Ee; try done; simpl.
  - by eapply se_heard0.
  - intros s Hs. pose proof (se_seats0 _ _ Hs) as [_ Hr].
    assert (En : node = Z.of_nat (node_idx node)).
    { apply node_idx_inv; [done|by eapply votable_slot]. }
    rewrite <-En in Hr. apply (rests_known _ _ _ op e He) in Hr; [|by rewrite Ee].
    refine (rests_elsewhere _ _ _ _ (cs_world c) _ _ _ _ _ Hr); try done. intros x o Hx _. by apply Hsub.
Qed.

(** ** The start *)

Lemma start_seats members cfg m a w slots k l w' :
  cfg_bug (sx_raft cfg) = BugNone ->
  start_servers members cfg (node_id <$> seq a m) w = Some (l, w') ->
  (a + m)%nat = length slots -> Z.of_nat (length slots) <= U32_MAX ->
  rng_ok (wd_rng w) -> ledger_ok k -> all_heard k w ->
  (forall j slot, slots !! j = Some slot -> seat_ok k w (Z.of_nat j) slot) ->
  (forall j, (a <= j < a + m)%nat -> slots !! j = Some None) ->
  (forall j s, slots !! j = Some (Some s) -> r_role (sv_raft s) = Leader ->
     won k (r_members (sv_raft s)) (r_term (sv_raft s)) (Z.of_nat j)) ->
  exists k', let slots' := take a slots ++ l in
    length slots' = length slots /\ rng_ok (wd_rng w') /\ wd_up w' = wd_up w /\ ledger_ok k' /\ all_heard k' w' /\
    (forall j slot, slots' !! j = Some slot -> is_Some slot \/ (j < a)%nat) /\
    (forall j slot, slots' !! j = Some slot -> seat_ok k' w' (Z.of_nat j) slot) /\
    (forall j s, slots' !! j = Some (Some s) -> r_role (sv_raft s) = Leader ->
       won k' (r_members (sv_raft s)) (r_term (sv_raft s)) (Z.of_nat j)).
Proof.
  intros Hbug. revert a w slots k l. induction m as [|m IH]; intros a w slots k l; simpl.
  - intros [= <- <-] Ha _ Hr Hk Hh Hseats _ Hlead. exists k. rewrite app_nil_r, take_ge by lia.
    split_and!; try done. intros j slot Hj%lookup_lt_Some. right. lia.
  - destruct (lend _ _ _ _) as [[[s []] w1]|] eqn:El; [|done]. simpl.
    destruct (start_servers _ _ _ _) as [[rest w2]|] eqn:Es; [|done]. simpl.
    intros [= <- <-] Ha Hsmall Hr Hk Hh Hseats Hnone Hlead.
    assert (Hid : node_id a = Z.of_nat a) by (unfold node_id, wrap32; apply Z.mod_small; unfold U32_MAX in *; lia).
    rewrite Hid in El.
    assert (Hslot : slots !! a = Some None) by (apply Hnone; lia). pose proof (Hseats _ _ Hslot) as Hst. simpl in Hst.
    assert (Hvt : votable (Z.of_nat a)) by (apply votable_small; lia).
    destruct (lend_lent _ _ _ _ _ _ _ (regular_server_recover _ _ _ _) Hr El) as (e' & Hrun & Ew & Hconf & Hdel).
    destruct (wp_Some _ _ _ _ _ _ _ (server_restart_lifts k _ _ _ _ w Hk Hvt Hbug Hst Hr) Hrun)
      as (k1 & Ha1 & Hv & Hwon & Hrest).
    assert (Hlt : (a < length slots)%nat) by lia.
    destruct (IH (S a) w1 (<[a := Some s]> slots) k1 rest Es) as (k' & Hlen & Hr' & Hu & Hk' & Hh' & Hsome & Hseats' & Hlead').
    + rewrite length_insert. lia.
    + by rewrite length_insert.
    + by apply Hconf.
    + by apply Ha1.
    + by eapply heard_lend.
    + eapply seats_lend; try done. by apply Hrest.
    + intros j Hj. rewrite list_lookup_insert_ne by lia. apply Hnone. lia.
    + intros j t Hj Hl. destruct (decide (j = a)) as [->|Hne].
      * rewrite list_lookup_insert_eq in Hj by done. injection Hj as <-. by apply Hwon.
      * rewrite list_lookup_insert_ne in Hj by done. eapply won_mono; [apply Ha1|by apply Hlead].
    + rewrite length_insert in Hlen. exists k'. simpl.
      assert (E : take (S a) (<[a := Some s]> slots) ++ rest = take a slots ++ Some s :: rest).
      { rewrite (take_S_r _ _ (Some s)) by (by apply list_lookup_insert_eq).
        rewrite take_insert_ge by lia. by rewrite <-app_assoc. }
      rewrite E in *. split_and!; try done; [by rewrite Hu, (cf_up _ _ _ _ Hconf)|].
      intros j slot Hj. destruct (Hsome j slot Hj) as [?|Hja]; [by left|]. destruct (decide (j = a)) as [->|]; [left|right; lia].
      rewrite lookup_app_r in Hj by (rewrite length_take; lia). rewrite length_take, Nat.min_l, Nat.sub_diag in Hj by lia.
      injection Hj as <-. by exists s.
Qed.

Lemma stopped_new cfg w v :
  world_new cfg = Some w -> dc_torn_write_ppm (wc_disk cfg) = 0 -> (node_idx v < wc_nodes cfg)%nat ->
  stopped (fun _ _ _ => False) v w.
Proof.
  unfold world_new. destruct (repeat_draw _ _ _) as [[skews rng]|]; [|done]. simpl. intros [= <-] Htorn Hv.
  exists (disk_new (wc_disk cfg)), [hard_state_default], hard_state_default. split; [|by intros ? ? []].
  split; simpl; try done.
  - by apply lookup_replicate_2.
  - by apply image_empty.
  - left.
  - left.
  - by apply Forall_singleton.
  - by intros a b ->%list_elem_of_singleton ->%list_elem_of_singleton _.
  - by intros e op ?%elem_of_nil.
Qed.

Lemma cluster_new_seated cfg c :
  cfg_bug (sx_raft cfg) = BugNone -> dc_torn_write_ppm (sx_disk cfg) = 0 -> Z.of_nat (config_slots cfg) <= U32_MAX ->
  cluster_new cfg = Some c -> elected cfg (fun _ _ _ => False) (c ⟨ cs_servers := [] ⟩) true c.
Proof.
  intros Hbug Htorn Hsmall. unfold cluster_new. destruct (world_new _) as [w|] eqn:Ew; [|done]. simpl.
  pose proof (world_new_ok _ _ Ew) as ([Hr _] & _ & Hu).
  destruct (start_servers _ _ _ _) as [[servers w1]|] eqn:Es; [|done]. simpl.
  pose proof Es as Es'. apply start_servers_ok in Es' as (_ & Hlen & Hall); [|by eapply world_new_ok].
  rewrite length_fmap, length_seq in Hlen.
  destruct (mapM _ _) as [clients|]; [|done]. simpl. intros [= <-].
  destruct (start_seats _ cfg (config_slots cfg) 0 w (replicate (config_slots cfg) None) (fun _ _ _ => False) servers w1 Hbug Es)
    as (k & _ & Hr1 & Hu1 & Hk & Hh & _ & Hseats & Hlead).
  - by rewrite length_replicate.
  - by rewrite length_replicate.
  - done.
  - split; by intros ? ? ? *.
  - unfold world_new in Ew. destruct (repeat_draw _ _ _) as [[]|]; [|done]. injection Ew as <-. by intros ? ? ? ? ? ?%elem_of_nil.
  - intros j slot [-> Hj]%lookup_replicate. eapply stopped_new; [exact Ew|done|]. rewrite node_idx_of_nat. simpl. lia.
  - intros j Hj. apply lookup_replicate_2. lia.
  - intros j s [? _]%lookup_replicate. done.
  - simpl in *. exists k. split; [by intros ? ? ?|]. split.
    + split; simpl; try done. intros i slot Hi. rewrite Forall_lookup in Hall. destruct (Hall _ _ Hi) as (s & -> & _).
      rewrite Hu1, Hu. apply lookup_replicate_2. apply lookup_lt_Some in Hi. simpl. lia.
    + intros i s Hi Hl. right. split; [done|]. by apply Hlead.
Qed.
Lemma stays_bootstrap cfg k0 c0 : stays cfg k0 c0 bootstrap.
Proof. stays. Qed.

(** ** Properties *)

Definition leads_in (slot : option (option KvServer)) (t : Z) : bool :=
  match slot with Some (Some s) => bool_decide (r_role (sv_raft s) = Leader) && (r_term (sv_raft s) =? t) | _ => false end.
(** Who leads now and led no such term [before]: node, term and the membership it led with. *)
Definition new_leader (before : list (option KvServer)) (i : nat) (slot : option KvServer) : option (NodeId * Z * list NodeId) :=
  s ← slot;
  if bool_decide (r_role (sv_raft s) = Leader) && negb (leads_in (before !! i) (r_term (sv_raft s)))
  then Some (Z.of_nat i, r_term (sv_raft s), r_members (sv_raft s)) else None.
Definition elections (before : list (option KvServer)) (c : Cluster) : list (NodeId * Z * list NodeId) :=
  omap id (imap (new_leader before) (cs_servers c)).

(** The states of a run, each with the elections up to it, as they show between events. *)
Inductive run_to (cfg : SimConfig) : Cluster -> list (NodeId * Z * list NodeId) -> Prop :=
| run_start c u c1 : cluster_new cfg = Some c -> bootstrap c = Some (u, c1) -> run_to cfg c1 (elections [] c1)
| run_event c won f sched u c2 :
    run_to cfg c won -> cs_finished c = false ->
    sched_next (wd_sched (cs_world c)) = Some (Some f, sched) ->
    cs_events c + 1 <= sx_max_events cfg ->
    cluster_step f (c ⟨ cs_world := (cs_world c) ⟨ wd_sched := sched ⟩ ⟩ ⟨ cs_events := cs_events c + 1 ⟩) = Some (u, c2) ->
    run_to cfg c2 (elections (cs_servers c) c2 ++ won).

Lemma run_to_reached cfg c : (exists won, run_to cfg c won) <-> reached cfg c.
Proof.
  split.
  - intros [won H]. induction H as [|]; [by eapply reached_start|by eapply reached_event].
  - induction 1 as [|c f sched u c2 _ [won IH]]; [eexists; by eapply run_start|]. eexists. by eapply run_event.
Qed.

Lemma elections_elem before c i t m :
  (i, t, m) ∈ elections before c <->
  exists j s, i = Z.of_nat j /\ cs_servers c !! j = Some (Some s) /\ r_role (sv_raft s) = Leader /\
    r_term (sv_raft s) = t /\ r_members (sv_raft s) = m /\ leads_in (before !! j) t = false.
Proof.
  unfold elections. rewrite list_elem_of_omap. split.
  - intros (x & Hx & E). simpl in E. subst x. apply elem_of_lookup_imap in Hx as (j & slot & E & Hj). destruct slot as [s|]; [|done].
    unfold new_leader in E. simpl in E. case_bool_decide as Hrole; [|done].
    destruct (leads_in _ _) eqn:El; [done|]. injection E as -> -> ->. exists j, s. done.
  - intros (j & s & -> & Hj & Hr & <- & <- & El). eexists. split; [|done].
    apply elem_of_lookup_imap. exists j, (Some s). split; [|done]. unfold new_leader. simpl.
    rewrite bool_decide_eq_true_2 by done. by rewrite El.
Qed.
Lemma leads_in_spec slot t : leads_in slot t = true <-> leads_term slot t.
Proof.
  unfold leads_in, leads_term. destruct slot as [[s|]|].
  - rewrite andb_true_iff, bool_decide_eq_true, Z.eqb_eq. split; [intros []; by exists s|by intros (x & [= <-] & ? & ?)].
  - split; [done|by intros (x & ? & _)].
  - split; [done|by intros (x & ? & _)].
Qed.

Record ruled (cfg : SimConfig) (c : Cluster) (es : list (NodeId * Z * list NodeId)) (k : Ledger) : Prop := {
  ru_seated : seated cfg k c;
  ru_won : forall v t m, (v, t, m) ∈ es -> won k m t v;
  ru_listed : forall i s, cs_servers c !! i = Some (Some s) -> r_role (sv_raft s) = Leader ->
    exists m, (Z.of_nat i, r_term (sv_raft s), m) ∈ es;
}.

(** The list after an event: who leads it led before, or is new in it. *)
Lemma ruled_after cfg k k' c0 c es :
  ledger_le k k' -> seated cfg k' c -> led true k' c0 c -> (forall v t m, (v, t, m) ∈ es -> won k m t v) ->
  (forall i s, cs_servers c0 !! i = Some (Some s) -> r_role (sv_raft s) = Leader ->
     exists m, (Z.of_nat i, r_term (sv_raft s), m) ∈ es) ->
  ruled cfg c (elections (cs_servers c0) c ++ es) k'.
Proof.
  intros Hle Hs Hl Hwon Hlisted. split; [done| |].
  - intros v t m [Hin|Hin]%elem_of_app; [|by eapply won_mono, Hwon].
    apply elections_elem in Hin as (j & s & -> & Hj & Hr & <- & <- & El).
    destruct (Hl j s Hj Hr) as [Hold%leads_in_spec|[_ Hw]]; [congruence|done].
  - intros i s Hi Hr. destruct (leads_in (cs_servers c0 !! i) (r_term (sv_raft s))) eqn:El.
    + apply leads_in_spec in El as (s0 & H0 & Hr0 & <-). destruct (Hlisted _ _ H0 Hr0) as [m Hm].
      exists m. apply elem_of_app. by right.
    + exists (r_members (sv_raft s)). apply elem_of_app. left. apply elections_elem. by exists i, s.
Qed.

Lemma run_to_ruled cfg c es :
  cfg_bug (sx_raft cfg) = BugNone -> dc_torn_write_ppm (sx_disk cfg) = 0 -> Z.of_nat (config_slots cfg) <= U32_MAX ->
  run_to cfg c es -> exists k, ruled cfg c es k.
Proof.
  intros Hbug Htorn Hsmall. induction 1 as [c u c1 Hc Hb|c es f sched u c2 _ [k IH] _ Hn _ Hstep].
  - apply (stays_bootstrap cfg (fun _ _ _ => False) (c ⟨ cs_servers := [] ⟩) true) in Hb as (k & Hle & Hs & Hl);
      [|by apply cluster_new_seated].
    exists k. rewrite <-(app_nil_r (elections [] c1)). apply (ruled_after cfg _ k (c ⟨ cs_servers := [] ⟩) c1 [] Hle Hs Hl).
    + by intros ? ? ? ?%elem_of_nil.
    + by intros i s.
  - destruct IH as [Hs Hwon Hlisted]. pose proof (turn_fair _ _ _ _ _ Hs Hn) as Hev.
    apply sched_next_fired in Hn as [Hsub _]. apply (elects_step cfg k c Hbug) in Hstep as (k' & Hle & Hs' & Hl); [| |exact Hev].
    + exists k'. by eapply ruled_after.
    + exists k. split; [done|]. split; [by apply seated_turn|]. apply (led_already k c).
Qed.

(** C2. Election safety of the simulated store.  In every state of a run without
    injected bugs and on disks that do not tear writes, whatever messages are lost,
    repeated, corrupted or cut off, whatever nodes crash and restart and whatever
    memberships are proposed, every server that leads won an election of its term,
    and two elections of one term whose memberships have no disjoint majorities
    were won by the same server. *)
Theorem simulated_election_safety cfg c es :
  cfg_bug (sx_raft cfg) = BugNone -> dc_torn_write_ppm (sx_disk cfg) = 0 -> Z.of_nat (config_slots cfg) <= U32_MAX ->
  run_to cfg c es ->
  (forall i s, cs_servers c !! i = Some (Some s) -> r_role (sv_raft s) = Leader ->
     exists members, (Z.of_nat i, r_term (sv_raft s), members) ∈ es) /\
  (forall a b t m m', (a, t, m) ∈ es -> (b, t, m') ∈ es -> majorities_meet m m' -> a = b).
Proof.
  intros Hbug Htorn Hsmall Hr. destruct (run_to_ruled _ _ _ Hbug Htorn Hsmall Hr) as [k [Hs Hwon Hlisted]].
  split; [done|]. intros a b t m m' Ha Hb. apply (won_once k m m' t); [apply Hs|auto..].
Qed.

(** ** Witness *)

(** Some turns of the loop, with their elections. *)
Fixpoint turns_to (n : nat) (c : Cluster) (es : list (NodeId * Z * list NodeId)) : option (Cluster * list (NodeId * Z * list NodeId)) :=
  match n with
  | O => Some (c, es)
  | S n =>
      '(fired, sched) ← sched_next (wd_sched (cs_world c));
      f ← fired;
      if cs_finished c || (sx_max_events (cs_cfg c) <? cs_events c + 1) then None
      else
        '(_, c') ← cluster_step f
          (c ⟨ cs_world := (cs_world c) ⟨ wd_sched := sched ⟩ ⟩ ⟨ cs_events := cs_events c + 1 ⟩);
        turns_to n c' (elections (cs_servers c) c' ++ es)
  end.
Lemma turns_to_run cfg n c es c' es' :
  runnable cfg -> run_to cfg c es -> turns_to n c es = Some (c', es') -> run_to cfg c' es'.
Proof.
  intros Hcfg. revert c es. induction n as [|n IH]; intros c es Hc; simpl; [by intros [= <- <-]|].
  destruct (sched_next _) as [[[f|] sched]|] eqn:Es; [|done..]. simpl.
  destruct (cs_finished c) eqn:Ef; [done|]. simpl.
  destruct (Z.ltb_spec (sx_max_events (cs_cfg c)) (cs_events c + 1)) as [|Hle]; [done|].
  destruct (cluster_step _ _) as [[u c2]|] eqn:E; [|done]. simpl. intros Ht. refine (IH c2 _ _ Ht).
  destruct (reached_ok _ c Hcfg) as [Hok _]; [apply run_to_reached; by exists es|]. rewrite (kc_cfg _ _ _ _ _ Hok) in Hle.
  by eapply run_event.
Qed.
(** The elections of some turns, and how many crashes and restarts lie between them. *)
Definition elections_by (cfg : SimConfig) (n : nat) : option (list (NodeId * Z * list NodeId) * Z * Z) :=
  c ← cluster_new cfg; '(_, c) ← bootstrap c; '(c, es) ← turns_to n c (elections [] c);
  Some (es, ru_crashes (cs_run_stats c), ru_restarts (cs_run_stats c)).
Lemma elections_by_run cfg n es crashes restarts :
  runnable cfg -> elections_by cfg n = Some (es, crashes, restarts) ->
  exists c, run_to cfg c es /\ ru_crashes (cs_run_stats c) = crashes /\ ru_restarts (cs_run_stats c) = restarts.
Proof.
  intros Hcfg E. unfold elections_by in E. destruct (cluster_new cfg) as [c0|] eqn:E0; [|done]. simpl in E.
  destruct (bootstrap c0) as [[u c1]|] eqn:E1; [|done]. simpl in E.
  destruct (turns_to n c1 _) as [[c2 es2]|] eqn:E2; [|done]. injection E as -> <- <-. exists c2. split; [|done].
  eapply turns_to_run; [done| |exact E2]. by eapply run_start.
Qed.

(** Three servers on disks that lose and reorder unsynced writes; nodes crash after 330 ms. *)
Definition crashing_config : SimConfig :=
  (sim_config_benign 3) ⟨ sx_servers := 3%nat ⟩ ⟨ sx_clients := 0%nat ⟩ ⟨ sx_duration := 4000 * MILLIS ⟩
    ⟨ sx_raft := raft_config_default ⟨ cfg_pre_vote := false ⟩ ⟩
    ⟨ sx_disk := mkDiskConfig (20000, 500000) (200000, 8000000) 0 0 300000 true 0 20 ⟩
    ⟨ sx_faults := fault_config_default ⟨ fc_enable_partitions := false ⟩ ⟨ fc_enable_clock_skew := false ⟩
        ⟨ fc_enable_slow_links := false ⟩ ⟨ fc_window := (330 * MILLIS, 4000 * MILLIS) ⟩ ⟩
    ⟨ sx_max_events := 400 ⟩ ⟨ sx_linearizability_budget := 40 ⟩.
Lemma crashing_runnable : runnable crashing_config.
Proof. split; [done|by split|done]. Qed.
Lemma crashing_run :
  exists c, run_to crashing_config c [(1, 2, [0; 1; 2]); (0, 1, [0; 1; 2])] /\
    ru_crashes (cs_run_stats c) = 1 /\ ru_restarts (cs_run_stats c) = 1.
Proof. apply (elections_by_run _ 32); [apply crashing_runnable|]. vm_compute. reflexivity. Qed.

Lemma simulated_election_safety_witness :
  exists c es, run_to crashing_config c es /\ ru_crashes (cs_run_stats c) = 1 /\ (0, 1, [0; 1; 2]) ∈ es /\
    (1, 2, [0; 1; 2]) ∈ es /\ forall b m, (b, 2, m) ∈ es -> majorities_meet [0; 1; 2] m -> 1 = b.
Proof.
  destruct crashing_run as (c & Hr & Hc & _). exists c, [(1, 2, [0; 1; 2]); (0, 1, [0; 1; 2])].
  split; [exact Hr|]. split; [exact Hc|]. split; [right; left|]. split; [left|]. intros b m Hb.
  refine (proj2 (simulated_election_safety crashing_config c _ _ _ _ Hr) 1 b 2 [0; 1; 2] m _ Hb); [done..|left].
Defined.
