(* ===== verification/Blind.v ===== *)
(** * Blind: nothing a run does depends on what is logged

    [erase_world] drops what a world has logged.  Handlers, operations of the world
    and the whole driver do on an erased state what they do on the full one: that
    is why a silent run and a fully traced run of a seed agree. *)
From Stdlib Require Import String.
From S2P Require Import Prelude Codec Crc LogFormat RaftLog Recovery Durable Messages Config StateMachine Io Rng Draw.
From S2P Require Import Disk Faults Scheduler Net Trace World Oracle RaftState Raft History Server Invariants Durability.
From S2P Require Import Harness Client IoRules Cluster ClusterRun ClusterRules.
From Stdlib.Init Require Import Byte.
Local Open Scope Z_scope.

(** ** Handlers commute with maps of the world *)

Section Commute.
Context {W : Type} `{Io W} (h : W -> W).

(** A result carried over, world and all. *)
Definition carry {A} (r : A * W) : A * W := (r.1, h r.2).
Definition carry_env (e : Env W) : Env W := mkEnv (h (env_world e)) (env_trace e).
Definition commutes {S A} (m : M W S A) : Prop :=
  forall s e, m s (carry_env e) =
    match m s e with Some (a, s', e') => Some (a, s', carry_env e') | None => None end.

Record io_hom : Prop := {
  ih_now : forall w, io_now (h w) = io_now w;
  ih_read_all : forall w file, io_read_all (h w) file = io_read_all w file;
  ih_set_timer : forall w delay tag, io_set_timer (h w) delay tag = carry (io_set_timer w delay tag);
  ih_cancel_timer : forall w id, io_cancel_timer (h w) id = h (io_cancel_timer w id);
  ih_send : forall w to b, io_send (h w) to b = h (io_send w to b);
  ih_write_at : forall w file off b, io_write_at (h w) file off b = carry (io_write_at w file off b);
  ih_set_len : forall w file len, io_set_len (h w) file len = carry (io_set_len w file len);
  ih_sync : forall w file, io_sync (h w) file = carry (io_sync w file);
  ih_observe : forall w tag args, io_observe (h w) tag args = h (io_observe w tag args);
}.
Context (Hh : io_hom).

Lemma commutes_request {S A} (f : W -> A * W) ev :
  (forall w, f (h w) = carry (f w)) -> commutes (request (S := S) f ev).
Proof. intros Hf s e. unfold request. simpl. rewrite Hf. by destruct (f (env_world e)). Qed.

Lemma commutes_closed : closed (@commutes).
Proof using Hh.
  split; intros; try done.
  - intros s e. unfold mbind, M_bind. rewrite (H0 s e). destruct (m s e) as [[[a s1] e1]|]; [|done]. apply H1.
  - intros s e. unfold lift. by destruct o.
  - intros s e. unfold zoom. rewrite (H0 (proj s) e). by destruct (m (proj s) e) as [[[a t] e1]|].
  - intros s e. unfold with_state. rewrite (H0 t e). by destruct (m t e) as [[[a t'] e1]|].
  - intros s e. unfold read_all. simpl. by rewrite (ih_read_all Hh).
  - intros s e. unfold now. simpl. by rewrite (ih_now Hh).
  - apply commutes_request. intros w. apply (ih_set_timer Hh).
  - apply commutes_request. intros w. unfold carry. simpl. by rewrite (ih_cancel_timer Hh).
  - apply commutes_request. intros w. unfold carry. simpl. by rewrite (ih_send Hh).
  - apply commutes_request. intros w. apply (ih_write_at Hh).
  - apply commutes_request. intros w. apply (ih_set_len Hh).
  - apply commutes_request. intros w. apply (ih_sync Hh).
  - apply commutes_request. intros w. unfold carry. simpl. by rewrite (ih_observe Hh).
Qed.
Lemma regular_commutes {S A} (m : M W S A) : regular m -> commutes m.
Proof using Hh. intros Hm. apply Hm, commutes_closed. Qed.
End Commute.

(** ** A world without its log *)

Definition erase_trace (t : Trace) : Trace :=
  mkTrace LOff [] (tc_max_records t) 0 (tc_fingerprint t) (tc_observed t).
Definition erase_world (w : World) : World := w ⟨ wd_trace := erase_trace (wd_trace w) ⟩.
Definition erase_io (s : SimIo) : SimIo := mkSimIo (erase_world <$> si_world s) (si_node s).

(** An operation of the world that does not read the log, nor write to it. *)
Definition deaf {A} (f : World -> option (A * World)) : Prop :=
  forall w, f (erase_world w) = match f w with Some (a, w') => Some (a, erase_world w') | None => None end.
Definition deaf_ (f : World -> option World) : Prop := forall w, f (erase_world w) = erase_world <$> f w.

Lemma deaf_observe node tag args : deaf_ (world_observe node tag args).
Proof. intros w. unfold world_observe, trace_observe. simpl. by destruct (u64_add (tc_observed _) 1). Qed.
Lemma deaf_send from to payload : deaf (world_send from to payload).
Proof.
  intros w. unfold world_send. change (is_up from (erase_world w)) with (is_up from w).
  destruct (is_up from w) as [[]|]; [|done..]. simpl.
  by destruct (net_send _ _ _ _ _ _) as [[[copies [net sched]] rng]|].
Qed.
Lemma deaf_set_timer node delay timer : deaf (world_set_timer node delay timer).
Proof. intros w. unfold world_set_timer. simpl. by destruct (sched_after _ _ _) as [[id sched]|]. Qed.
Lemma deaf_disk_request node f : deaf (disk_request node f).
Proof.
  intros w. unfold disk_request. simpl. destruct (wd_disks w !! node_idx node) as [d|]; [|done]. simpl.
  destruct (f d (wd_rng w)) as [[[iss d'] rng]|]; [|done]. simpl. unfold complete_storage. simpl.
  by destruct (sched_after _ _ _) as [[id sched]|].
Qed.

Lemma erase_sim_do {A} (dflt : A) f s :
  (forall me, deaf (f me)) -> sim_do dflt f (erase_io s) = carry erase_io (sim_do dflt f s).
Proof.
  intros Hf. unfold sim_do, carry. destruct s as [[w|] me]; [|done]. simpl. rewrite (Hf me w).
  by destruct (f me w) as [[a w']|].
Qed.

Lemma erase_io_hom : io_hom erase_io.
Proof.
  split; intros [[w|] me]; intros; try done; simpl; try (apply (erase_sim_do _ _ (mkSimIo (Some w) me)); intros;
    first [apply deaf_set_timer | apply deaf_disk_request]).
  - f_equal. change (mkSimIo (Some (erase_world w)) me) with (erase_io (mkSimIo (Some w) me)).
    rewrite erase_sim_do; [done|]. intros n w'. unfold sim_send. destruct (to =? n); [done|]. rewrite deaf_send.
    by destruct (world_send n to b w') as [[]|].
  - change (mkSimIo (Some (erase_world w)) me) with (erase_io (mkSimIo (Some w) me)).
    rewrite erase_sim_do; [done|]. intros n w'. rewrite deaf_observe. by destruct (world_observe _ _ _ w').
Qed.

(** A handler lent the world. *)
Lemma erase_lend {S A} node (m : M SimIo S A) s w :
  regular m ->
  lend node m s (erase_world w) =
    match lend node m s w with Some (a, s', w') => Some (a, s', erase_world w') | None => None end.
Proof.
  intros Hm. unfold lend.
  pose proof (regular_commutes erase_io erase_io_hom m Hm s (mkEnv (mkSimIo (Some w) node) [])) as Hc.
  unfold carry_env, erase_io in Hc. simpl in Hc. rewrite Hc.
  destruct (m s (mkEnv (mkSimIo (Some w) node) [])) as [[[a s'] e]|]; simpl; [|done].
  by destruct (si_world (env_world e)).
Qed.

(** ** The driver on an erased cluster *)

Definition quiet_config (cfg : SimConfig) : SimConfig := cfg ⟨ sx_trace_level := LOff ⟩.
Definition erase (c : Cluster) : Cluster :=
  mkCluster (erase_world (cs_world c)) (cs_slots c) (cs_servers c) (cs_clients c) (cs_members c)
    (quiet_config (cs_cfg c)) (cs_history c) (cs_invariants c) (cs_report c) (cs_pre_crash_log c) (cs_retired c)
    (cs_acted_term c) (cs_truncated_committed_seen c) (cs_durable_high_water c) (cs_pending_reads c)
    (cs_max_leader_term c) (cs_probe_acks c) (cs_events c) (cs_incomplete c) (cs_finished c)
    (cs_recovered_at c) (cs_completed_at_recovery c) (cs_run_stats c).

(** [m'] does on the erased cluster what [m] does on the full one; [g] relates the
    results. *)
Definition sim_by {A B} (g : A -> B) (m : Driver A) (m' : Driver B) : Prop :=
  forall c a c', m c = Some (a, c') -> m' (erase c) = Some (g a, erase c').
Abbreviation sim m m' := (sim_by (fun a => a) m m').

Lemma sim_bind {A A' B B'} (g : B -> B') (g1 : A -> A') (m : Driver A) m' (k : A -> Driver B) k' :
  sim_by g1 m m' -> (forall a, sim_by g (k a) (k' (g1 a))) -> sim_by g (m ≫= k) (m' ≫= k').
Proof.
  intros Hm Hk c b c' (a & c1 & E & H)%dbind_Some. unfold mbind, Driver_bind. rewrite (Hm _ _ _ E).
  by apply Hk.
Qed.
Lemma sim_then {A B} (m m' : Driver A) (k k' : A -> Driver B) :
  sim m m' -> (forall a, sim (k a) (k' a)) -> sim (m ≫= k) (m' ≫= k').
Proof. apply (sim_bind (fun a => a) (fun a => a)). Qed.
Lemma sim_get_bind {B B'} (g : B -> B') (k : Cluster -> Driver B) k' :
  (forall c, sim_by g (k c) (k' (erase c))) -> sim_by g (dget ≫= k) (dget ≫= k').
Proof. intros Hk c b c' H. by apply Hk in H. Qed.
Lemma sim_ret {A B} (g : A -> B) a : sim_by g (mret a) (mret (g a)).
Proof. by intros c b c' [= <- <-]. Qed.
Lemma sim_lift {A} (o : option A) : sim (dlift o) (dlift o).
Proof. by intros c a c' [-> ->]%dlift_Some. Qed.
Lemma sim_modify f f' : (forall c, f' (erase c) = erase (f c)) -> sim (dmodify f) (dmodify f').
Proof. intros Hf c a c' [= <- <-]. unfold dmodify. by rewrite Hf. Qed.
Lemma sim_when b m m' : sim m m' -> sim (dwhen b m) (dwhen b m').
Proof. intros Hm. destruct b; [done|apply sim_ret]. Qed.
Lemma sim_for_each {A} (l : list A) f f' : (forall a, sim (f a) (f' a)) -> sim (dfor_each l f) (dfor_each l f').
Proof.
  intros Hf. induction l as [|a l IH]; [apply sim_ret|]. simpl. eapply sim_bind; [apply Hf|]. by intros _.
Qed.

(** Operations of the world. *)
Definition hushed {A} (f : World -> option (A * World)) : Prop :=
  forall w a w', f w = Some (a, w') -> f (erase_world w) = Some (a, erase_world w').
Definition hushed_ (f : World -> option World) : Prop :=
  forall w w', f w = Some w' -> f (erase_world w) = Some (erase_world w').

Lemma deaf_hushed {A} (f : World -> option (A * World)) : deaf f -> hushed f.
Proof. intros Hf w a w' E. by rewrite (Hf w), E. Qed.
Lemma sim_on_world {A} (f : World -> option (A * World)) : hushed f -> sim (on_world f) (on_world f).
Proof.
  intros Hf c a c' (w & E & ->)%on_world_Some. unfold on_world, mbind, Driver_bind. simpl. by rewrite (Hf _ _ _ E).
Qed.
Lemma sim_on_world_ f : hushed_ f -> sim (on_world_ f) (on_world_ f).
Proof.
  intros Hf. apply sim_on_world. intros w [] w' E. destruct (f w) as [w1|] eqn:Ef; [|done].
  injection E as <-. by rewrite (Hf _ _ Ef).
Qed.
Lemma sim_on_net f : sim (on_net f) (on_net f).
Proof. apply sim_on_world_. by intros w w' [= <-]. Qed.
Lemma sim_on_rng {A} (m : Draw A) : sim (on_rng m) (on_rng m).
Proof.
  apply sim_on_world. intros w a w'. simpl. destruct (m (wd_rng w)) as [[b r]|]; [|done]. by intros [= <- <-].
Qed.
Lemma sim_on_sched f : sim (on_sched f) (on_sched f).
Proof. apply sim_on_world_. intros w w'. simpl. destruct (f (wd_sched w)) as [[id s]|]; [|done]. by intros [= <-]. Qed.
Lemma sim_ask {A} (f : World -> option A) : (forall w, f (erase_world w) = f w) -> sim (ask_world f) (ask_world f).
Proof. intros Hf. apply sim_get_bind. intros c. simpl. rewrite Hf. apply sim_lift. Qed.

Lemma hushed_observe node tag args : hushed_ (world_observe node tag args).
Proof. intros w w' E. by rewrite deaf_observe, E. Qed.
Lemma hushed_log level node cat msg : hushed_ (world_log level node cat msg).
Proof.
  intros w w'. unfold world_log, trace_log. simpl. unfold trace_enabled at 2. simpl. rewrite andb_false_r.
  destruct (trace_enabled _ _); [|by intros [= <-]].
  destruct (_ <=? _); [destruct (u64_add _ _); [|done]|]; simpl; by intros [= <-].
Qed.
Lemma hushed_crash node : hushed_ (crash_node node).
Proof.
  intros w w'. unfold crash_node. change (is_up node (erase_world w)) with (is_up node w).
  destruct (is_up node w) as [[]|]; [|by intros [= <-]|done]. simpl.
  destruct (wd_disks w !! node_idx node) as [d|]; [|done]. simpl.
  destruct (disk_crash d (wd_rng w)) as [[d' r]|]; [|done]. simpl.
  destruct (wd_incarnation w !! node_idx node) as [inc|]; [|done]. simpl.
  destruct (u64_add inc 1) as [inc'|]; [|done]. simpl. by intros E%hushed_observe.
Qed.
Lemma hushed_restart node : hushed_ (restart_node node).
Proof.
  intros w w'. unfold restart_node. change (is_up node (erase_world w)) with (is_up node w).
  destruct (is_up node w) as [[]|]; [by intros [= <-]| |done]. simpl. by intros E%hushed_observe.
Qed.
Lemma hushed_clock_jump node delta : hushed_ (clock_jump node delta).
Proof.
  intros w w'. unfold clock_jump. simpl. destruct (wd_skews w !! node_idx node) as [s|]; [|done]. simpl.
  destruct (i64_checked _) as [o|]; [|done]. simpl. by intros E%hushed_observe.
Qed.
Lemma hushed_accept from to : hushed (world_accept from to).
Proof.
  intros w a w'. unfold world_accept. change (is_up to (erase_world w)) with (is_up to w).
  destruct (is_up to w) as [[]|]; [|by intros [= <- <-]|done]. simpl.
  destruct (accept_delivery _ _ _ _) as [[[b net] r]|]; [|done]. simpl. by intros [= <- <-].
Qed.
Lemma hushed_decide t up hint :
  hushed (fun w =>
    '((action, i), rng) ← fault_decide (wd_faults w) t up hint (wd_rng w);
    Some (action, w ⟨ wd_rng := rng ⟩ ⟨ wd_faults := i ⟩)).
Proof.
  intros w a w'. simpl. destruct (fault_decide _ _ _ _ _) as [[[b i] r]|]; [|done]. simpl. by intros [= <- <-].
Qed.
Lemma hushed_timer node delay tag : hushed_ (fun w => '(_, w) ← world_set_timer node delay tag w; Some w).
Proof.
  intros w w'. rewrite deaf_set_timer. destruct (world_set_timer _ _ _ _) as [[id w1]|]; [|done]. simpl. by intros [= <-].
Qed.

(** Handlers. *)
Lemma sim_at_server {A} node (m : M SimIo KvServer A) : regular m -> sim (at_server node m) (at_server node m).
Proof.
  intros Hm. apply sim_get_bind. intros c. eapply sim_bind; [apply (sim_lift (cs_servers c !! node_idx node))|].
  intros [s|]; [|apply (sim_ret (fun a => a))].
  change (cs_world (erase c)) with (erase_world (cs_world c)). rewrite erase_lend by done.
  destruct (lend node m s (cs_world c)) as [[[a s'] w]|]; [|done].
  by intros c1 b c' [= <- <-].
Qed.
Lemma sim_at_client node (m : M SimIo (Client * History) unit) : regular m -> sim (at_client node m) (at_client node m).
Proof.
  intros Hm. apply sim_get_bind. intros c.
  eapply sim_bind; [apply (sim_lift (cs_clients c !! (node_idx node - cs_slots c)%nat))|]. intros cl.
  change (cs_world (erase c)) with (erase_world (cs_world c)). change (cs_history (erase c)) with (cs_history c).
  rewrite erase_lend by done.
  destruct (lend node m (cl, cs_history c) (cs_world c)) as [[[a [cl' h]] w]|]; [|done].
  by intros c1 b c' [= <- <-].
Qed.
Create HintDb sim discriminated.
#[export] Hint Resolve sim_on_net sim_on_rng sim_on_sched : sim.
Create HintDb hushed discriminated.
#[export] Hint Resolve hushed_observe hushed_log hushed_crash hushed_restart hushed_clock_jump hushed_timer
  hushed_accept hushed_decide : hushed.

(** Walk through both sides at once; what does not read the log is the same by
    computation. *)
Ltac sim_step :=
  first
    [ solve [auto with sim]
    | simple apply sim_get_bind; intro
    | simple apply sim_then; [|intro]
    | simple apply (sim_ret (fun a => a))
    | apply sim_lift
    | apply sim_modify; intro; reflexivity
    | apply sim_on_world_; solve [auto with hushed]
    | apply sim_on_world; solve [auto with hushed]
    | apply sim_ask; intro; reflexivity
    | apply sim_on_net
    | apply sim_on_rng
    | apply sim_on_sched
    | simple apply sim_at_server; first [apply regular_on_bytes | apply regular_server_on_timer
        | apply regular_server_on_storage | apply regular_server_propose_membership]
    | simple apply sim_at_client; first [apply regular_client_on_bytes | apply regular_client_on_timer]
    | match goal with
      | |- sim_by _ (dwhen ?b _) (dwhen ?b' _) => change b' with b; simple apply sim_when
      | |- sim_by _ (dfor_each ?l _) (dfor_each ?l' _) => change l' with l; simple apply sim_for_each; intro
      | |- sim_by _ (match ?x with _ => _ end) (match ?y with _ => _ end) => change y with x; destruct x
      | |- sim_by _ ?m ?m' => let h := head_of m in progress unfold h
      end ].
Ltac sim := intros; repeat (cbv beta zeta; sim_step).

Lemma sim_crash node : sim (cluster_crash node) (cluster_crash node).
Proof. sim. Qed.
#[export] Hint Resolve sim_crash : sim.
Lemma sim_reap_failed : sim reap_failed reap_failed.
Proof. sim. Qed.
Lemma sim_reconfigure : sim reconfigure reconfigure.
Proof. sim. Qed.
#[export] Hint Resolve sim_reap_failed sim_reconfigure : sim.

Lemma sim_restart node now : sim (cluster_restart node now) (cluster_restart node now).
Proof.
  unfold cluster_restart. apply sim_then; [sim|]. intros up. apply sim_when, sim_then; [sim|]. intros _.
  apply sim_get_bind. intros c. apply sim_then; [sim|]. intros inc. cbv zeta.
  apply (sim_bind _ (fun r => (r.1, erase_world r.2))).
  - change (cs_world (erase c)) with (erase_world (cs_world c)). intros c1 r c2 [E ->]%dlift_Some.
    unfold dlift. change (cs_members (erase c)) with (cs_members c). change (sx_raft (cs_cfg (erase c))) with (sx_raft (cs_cfg c)).
    change (sx_seed (cs_cfg (erase c))) with (sx_seed (cs_cfg c)).
    rewrite erase_lend by apply regular_server_recover. rewrite E. by destruct r as [[s []] w].
  - intros [[server []] w]. simpl. sim.
Qed.
#[export] Hint Resolve sim_restart : sim.

Lemma sim_apply_fault action now : sim (apply_fault action now) (apply_fault action now).
Proof. sim. Qed.
#[export] Hint Resolve sim_apply_fault : sim.
Lemma sim_fault_tick now : sim (fault_tick now) (fault_tick now).
Proof. sim. Qed.
#[export] Hint Resolve sim_fault_tick : sim.
Lemma sim_on_app tag arg now : sim (cluster_on_app tag arg now) (cluster_on_app tag arg now).
Proof. sim. Qed.
#[export] Hint Resolve sim_on_app : sim.
Lemma sim_dispatch f : sim (dispatch f) (dispatch f).
Proof. sim. Qed.
#[export] Hint Resolve sim_dispatch : sim.
Lemma sim_check_reads : sim check_reads check_reads.
Proof. sim. Qed.
#[export] Hint Resolve sim_check_reads : sim.
Lemma sim_check_invariants : sim check_invariants check_invariants.
Proof. sim. Qed.
#[export] Hint Resolve sim_check_invariants : sim.
Lemma sim_check_durable_claims : sim check_durable_claims check_durable_claims.
Proof. sim. Qed.
#[export] Hint Resolve sim_check_durable_claims : sim.
Lemma sim_cluster_step f : sim (cluster_step f) (cluster_step f).
Proof. sim. Qed.
Lemma sim_bootstrap : sim bootstrap bootstrap.
Proof. sim. Qed.
#[export] Hint Resolve sim_cluster_step sim_bootstrap : sim.

(** ** Whole runs *)

(** The outcome of the silent run of the same seed. *)
Definition quiet_outcome (o : RunOutcome) : RunOutcome :=
  mkRunOutcome (oc_seed o) (quiet_config (oc_config o)) (oc_fingerprint o) (oc_report o) (oc_verdict o) (oc_stats o)
    (oc_incomplete o) (oc_history o).

Lemma sim_finalize : sim_by quiet_outcome finalize finalize.
Proof.
  unfold finalize. apply sim_get_bind. intros c. cbv zeta.
  apply (sim_bind _ (fun a => a)); [sim|]. intros _.
  do 4 (apply (sim_bind _ (fun a => a)); [sim|]; intros _).
  apply (sim_bind _ (fun a => a)); [sim|]. intros [verdict steps]. apply sim_get_bind. intros c1.
  apply (sim_bind _ (fun a => a)); [sim|]. intros stats. apply (sim_ret quiet_outcome).
Qed.

Lemma erase_loop fuel c c' :
  cluster_loop fuel c = Some (Some c') -> cluster_loop fuel (erase c) = Some (Some (erase c')).
Proof.
  revert c. induction fuel as [|fuel IH]; intros c; simpl; [done|].
  destruct (cs_finished c); [by intros [= <-]|].
  destruct (sched_next _) as [[[f|] sched]|]; simpl; [|by intros [= <-]|done].
  destruct (u64_add (cs_events c) 1) as [e|]; [|done]. simpl.
  destruct (sx_max_events (cs_cfg c) <? e); [by intros [= <-]|].
  destruct (cluster_step f _) as [[u c1]|] eqn:E; [|done]. simpl. apply sim_cluster_step in E.
  set (c2 := erase _) in E. change (cluster_step f _) with (cluster_step f c2). rewrite E. apply IH.
Qed.

Lemma erase_start_servers members cfg nodes w l w' :
  start_servers members cfg nodes w = Some (l, w') ->
  start_servers members (quiet_config cfg) nodes (erase_world w) = Some (l, erase_world w').
Proof.
  revert w l. induction nodes as [|node nodes IH]; intros w l; simpl; [by intros [= <- <-]|].
  rewrite erase_lend by apply regular_server_recover.
  destruct (lend _ _ _ w) as [[[s []] w1]|]; [|done]. simpl.
  destruct (start_servers members cfg nodes w1) as [[rest w2]|] eqn:E; [|done]. simpl. intros [= <- <-].
  by rewrite (IH _ _ E).
Qed.

Lemma erase_cluster_new cfg c : cluster_new cfg = Some c -> cluster_new (quiet_config cfg) = Some (erase c).
Proof.
  unfold cluster_new. intros Hc.
  set (w0 := world_new (mkWorldConfig _ _ _ _ _ (sx_trace_level cfg))) in Hc.
  assert (Ew : world_new (mkWorldConfig (config_slots (quiet_config cfg) + sx_clients (quiet_config cfg))
      (sx_seed (quiet_config cfg)) (sx_net (quiet_config cfg)) (sx_disk (quiet_config cfg)) (sx_faults (quiet_config cfg))
      (sx_trace_level (quiet_config cfg))) = erase_world <$> w0).
  { unfold w0, world_new. simpl. by destruct (repeat_draw _ _ _) as [[skews rng]|]. }
  rewrite Ew. destruct w0 as [w|]; [|done]. simpl in *.
  destruct (start_servers _ cfg _ w) as [[servers w1]|] eqn:Es; [|done].
  apply erase_start_servers in Es. simpl in Es. change (config_slots (quiet_config cfg)) with (config_slots cfg).
  rewrite Es. simpl in *. change (mapM (new_client (quiet_config cfg))) with (mapM (new_client cfg)).
  destruct (mapM _ _) as [clients|]; [|done]. simpl in *. by injection Hc as <-.
Qed.

(** A silent run of the same seed has the same outcome. *)
Lemma run_quiet cfg o : run cfg = Some o -> run (quiet_config cfg) = Some (quiet_outcome o).
Proof.
  unfold run. destruct (cluster_new cfg) as [c|] eqn:Hc; [|done]. simpl. rewrite (erase_cluster_new _ _ Hc). simpl.
  unfold cluster_run, cluster_run_fuel. change (sx_max_events (cs_cfg (erase c))) with (sx_max_events (cs_cfg c)).
  destruct (bootstrap c) as [[u c1]|] eqn:Eb; [|done]. simpl. apply sim_bootstrap in Eb. rewrite Eb. simpl.
  destruct (cluster_loop _ c1) as [[c2|]|] eqn:El; [|done..]. simpl. apply erase_loop in El. rewrite El. simpl.
  destruct (check_invariants c2) as [[v c3]|] eqn:Ei; [|done]. simpl. apply sim_check_invariants in Ei. rewrite Ei. simpl.
  destruct (finalize c3) as [[o' c4]|] eqn:Ef; [|done]. simpl. apply sim_finalize in Ef. rewrite Ef. simpl.
  by intros [= <-].
Qed.
