(* ===== verification/Replay.v ===== *)
(** * Replay: running a seed again, and checking that it is the same run
    ([harness/replay.rs])

    The traced run comes first, then silent ones, whose fingerprints must agree with
    it.  The texts and the file written are left out. *)
From Stdlib Require Import String.
From S2P Require Import Prelude Codec Crc LogFormat RaftLog Recovery Durable Messages Config StateMachine Io Rng Draw.
From S2P Require Import Disk Faults Scheduler Net Trace World Oracle RaftState Raft History Server Invariants Durability.
From S2P Require Import Harness Client Cluster ClusterRun ClusterRules RunRules Blind.
Local Open Scope Z_scope.

Record ReplayResult : Type := mkReplayResult {
  rp_outcome : RunOutcome;
  rp_fingerprint : Z;
  rp_fingerprints : list Z;
  rp_divergence : option Divergence;
}.
Definition replay_deterministic (r : ReplayResult) : bool := match rp_divergence r with None => true | Some _ => false end.

(** [verify] runs the seed until a fingerprint differs; those of the runs made are
    kept. *)
Definition replay (cfg : SimConfig) (level : Level) (verify_runs : nat) : option ReplayResult :=
  outcome ← run (normalise (cfg ⟨ sx_trace_level := level ⟩));
  let fingerprint := oc_fingerprint outcome in
  if (0 <? verify_runs)%nat then
    silent ← run (normalise (cfg ⟨ sx_trace_level := LOff ⟩));
    let again := oc_fingerprint silent in
    result ← verify (verify_runs + 1) (fun i => if (i =? 0)%nat then fingerprint else again);
    Some match result with
    | inr _ => mkReplayResult outcome fingerprint (fingerprint :: replicate verify_runs again) None
    | inl d => mkReplayResult outcome fingerprint (fingerprint :: replicate (dv_run d) again) (Some d)
    end
  else Some (mkReplayResult outcome fingerprint [fingerprint] None).

(** How much is traced does not change a run: whatever its trace level, a run that
    hands over an outcome hands over the same one silently, fingerprint, report,
    verdict, statistics and history alike. *)
Theorem tracing_changes_nothing cfg o : run cfg = Some o -> run (quiet_config cfg) = Some (quiet_outcome o).
Proof. apply run_quiet. Qed.

Lemma replay_agrees cfg level n o :
  run (normalise (cfg ⟨ sx_trace_level := level ⟩)) = Some o ->
  exists r, replay cfg level n = Some r /\ rp_outcome r = o /\ replay_deterministic r = true /\
    rp_fingerprints r = replicate (S n) (oc_fingerprint o).
Proof.
  intros Ho. unfold replay. rewrite Ho. cbn [mbind option_bind].
  destruct (Nat.ltb_spec 0 n) as [Hn|Hn].
  - apply run_quiet in Ho.
    change (quiet_config (normalise (cfg ⟨ sx_trace_level := level ⟩))) with (normalise (cfg ⟨ sx_trace_level := LOff ⟩)) in Ho.
    rewrite Ho. cbn [mbind option_bind quiet_outcome oc_fingerprint]. unfold verify.
    rewrite (proj2 (Nat.leb_le 1 (n + 1))) by lia. cbn [mbind option_bind].
    assert (Hv : forall k i, verify_from (fun i => if (i =? 0)%nat then oc_fingerprint o else oc_fingerprint o)
      (oc_fingerprint o) i k = inr (oc_fingerprint o)).
    { induction k as [|k IH]; intros i; [done|]. simpl. rewrite IH. by destruct (i =? 0)%nat; rewrite Z.eqb_refl. }
    rewrite Hv. eexists. split; [done|]. done.
  - assert (n = 0%nat) as -> by lia. eexists. split; [done|]. done.
Qed.

(** A replay never finds a seed irreproducible: at any trace level and for any
    number of silent runs, if the traced run hands over an outcome then so does the
    replay, no divergence is found, and every fingerprint is the traced run's. *)
Theorem replay_is_deterministic cfg level n o :
  run (normalise (cfg ⟨ sx_trace_level := level ⟩)) = Some o ->
  exists r, replay cfg level n = Some r /\ rp_outcome r = o /\ replay_deterministic r = true /\
    rp_fingerprints r = replicate (S n) (oc_fingerprint o).
Proof. apply replay_agrees. Qed.

(** ** Witness: a run too short to make progress, traced and twice silent *)

Definition loud_config : SimConfig := demo_config ⟨ sx_duration := 50 * MILLIS ⟩ ⟨ sx_trace_level := LDebug ⟩.
Lemma loud_run : exists o, run (normalise loud_config) = Some o.
Proof.
  assert (E : (run_summary <$> run (normalise loud_config)) = Some (true, Linearizable, 1%nat)) by (vm_compute; reflexivity).
  revert E. generalize (run (normalise loud_config)). intros [o|]; [by eexists|done].
Qed.

Lemma tracing_changes_nothing_witness :
  exists o, run (normalise loud_config) = Some o /\
    run (quiet_config (normalise loud_config)) = Some (quiet_outcome o).
Proof.
  destruct loud_run as [o Ho]. exists o. split; [exact Ho|]. exact (tracing_changes_nothing _ o Ho).
Defined.

Lemma replay_is_deterministic_witness :
  exists r, replay (demo_config ⟨ sx_duration := 50 * MILLIS ⟩) LDebug 2 = Some r /\
    replay_deterministic r = true /\ length (rp_fingerprints r) = 3%nat.
Proof.
  destruct loud_run as [o Ho].
  destruct (replay_is_deterministic (demo_config ⟨ sx_duration := 50 * MILLIS ⟩) LDebug 2 o Ho) as (r & Hr & _ & Hd & Hf).
  exists r. split; [exact Hr|]. split; [exact Hd|]. by rewrite Hf.
Defined.
