(* ===== verification/Sweep.v ===== *)
(** * Sweep: many seeds on many threads ([harness/sweep.rs])

    The threads share a counter of seeds, a flag to stop and a result under a
    mutex.  Each atomic access and each critical section is one step of one worker,
    and a list of choices is an interleaving.  Loads of the flag are relaxed: a
    worker may still see it unset.  The texts of failures and the elapsed time are
    left out. *)
From Stdlib Require Import String.
From stdpp Require Import strings.
From S2P Require Import Prelude Codec Crc LogFormat RaftLog Recovery Durable Messages Config StateMachine Io Rng Draw.
From S2P Require Import Disk Faults Scheduler Net Trace World Oracle RaftState Raft History Server Invariants Durability.
From S2P Require Import Harness Client Cluster ClusterRun ClusterRules RunRules.
Local Open Scope Z_scope.

Record SweepConfig : Type := mkSweepConfig {
  sw_base : SimConfig;
  sw_start_seed : Z;
  sw_count : Z;
  sw_threads : nat;
  sw_stop_after : nat;
}.
Record Failure : Type := mkFailure { fl_seed : Z; fl_signature : string }.
Record SweepResult : Type := mkSweepResult {
  sr_runs : Z;
  sr_failures : list Failure;
  sr_incomplete : Z;
  sr_undecided : Z;
  sr_ops_completed : Z;
  sr_events : Z;
  sr_by_signature : gmap string Z;
}.
Definition sweep_result_default : SweepResult := mkSweepResult 0 [] 0 0 0 0 ∅.
Definition sweep_passed (r : SweepResult) : bool := bool_decide (sr_failures r = []).

Definition is_unknown (v : Verdict) : bool := match v with Unknown _ => true | _ => false end.

(** One run into the result, and whether that is enough failures. *)
Definition record_run (r : SweepResult) (cfg : SweepConfig) (o : RunOutcome) : option (SweepResult * bool) :=
  runs ← u64_add (sr_runs r) 1;
  ops ← u64_add (sr_ops_completed r) (ru_ops_completed (oc_stats o));
  events ← u64_add (sr_events r) (ru_events (oc_stats o));
  incomplete ← (if oc_incomplete o then u64_add (sr_incomplete r) 1 else Some (sr_incomplete r));
  undecided ← (if is_unknown (oc_verdict o) then u64_add (sr_undecided r) 1 else Some (sr_undecided r));
  if run_failed o then
    let signature := run_signature o in
    n ← u64_add (default 0 (sr_by_signature r !! signature)) 1;
    let failures := sr_failures r ++ [mkFailure (oc_seed o) signature] in
    Some (mkSweepResult runs failures incomplete undecided ops events (<[signature := n]> (sr_by_signature r)),
          (0 <? sw_stop_after cfg)%nat && (sw_stop_after cfg <=? length failures)%nat)
  else Some (mkSweepResult runs (sr_failures r) incomplete undecided ops events (sr_by_signature r), false).

(** The run of the [i]th seed. *)
Definition sweep_outcome (cfg : SweepConfig) (i : Z) : option RunOutcome :=
  seed ← u64_add (sw_start_seed cfg) i;
  run (normalise ((sw_base cfg) ⟨ sx_seed := seed ⟩)).

(** ** Threads *)

(** Before the flag, before the counter, with a seed to run, and returned. *)
Inductive Worker : Type :=
| WkCheck
| WkNext
| WkRun (i : Z)
| WkDone
| WkPanicked (i : Z).

Record SweepState : Type := mkSweepState {
  pw_next : Z;
  pw_stop : bool;
  pw_shared : SweepResult;
  pw_workers : list Worker;
}.

(** One step of worker [j]; [fresh] tells whether it sees the flag if set. *)
Definition worker_step (cfg : SweepConfig) (j : nat) (fresh : bool) (st : SweepState) : option SweepState :=
  let 'mkSweepState next stop shared workers := st in
  w ← workers !! j;
  match w with
  | WkCheck => Some (mkSweepState next stop shared (<[j := if fresh && stop then WkDone else WkNext]> workers))
  | WkNext => Some (mkSweepState (wrap64 (next + 1)) stop shared
      (<[j := if sw_count cfg <=? next then WkDone else WkRun next]> workers))
  | WkRun i => Some
      match o ← sweep_outcome cfg i; record_run shared cfg o with
      | Some (shared, enough) => mkSweepState next (stop || enough) shared (<[j := WkCheck]> workers)
      | None => mkSweepState next stop shared (<[j := WkPanicked i]> workers)
      end
  | WkDone | WkPanicked _ => None
  end.
Definition sweep_steps (cfg : SweepConfig) : list (nat * bool) -> SweepState -> option SweepState :=
  fun choices st => foldl_option (fun st c => worker_step cfg c.1 c.2 st) st choices.

Definition sweep_workers (cfg : SweepConfig) : nat :=
  Nat.min (Nat.max (sw_threads cfg) 1) (Z.to_nat (Z.max (sw_count cfg) 1)).
Definition sweep_start (cfg : SweepConfig) : SweepState :=
  mkSweepState 0 false sweep_result_default (replicate (sweep_workers cfg) WkCheck).

Definition failure_le (a b : Failure) : Prop := fl_seed a <= fl_seed b.
#[export] Instance failure_le_dec a b : Decision (failure_le a b).
Proof. unfold failure_le. apply _. Defined.
#[export] Instance failure_le_total : Total failure_le.
Proof. intros a b. unfold failure_le. lia. Qed.
#[export] Instance failure_le_trans : Transitive failure_le.
Proof. intros a b c. unfold failure_le. lia. Qed.

(** What [sweep] returns once its threads have; a panic of one is a panic of all. *)
Definition sweep_result (st : SweepState) : option SweepResult :=
  if forallb (fun w => match w with WkDone => true | _ => false end) (pw_workers st) then
    let r := pw_shared st in
    Some (mkSweepResult (sr_runs r) (merge_sort failure_le (sr_failures r)) (sr_incomplete r) (sr_undecided r)
      (sr_ops_completed r) (sr_events r) (sr_by_signature r))
  else None.

(** ** What a result should be *)

Definition failure_of (o : RunOutcome) : option Failure :=
  if run_failed o then Some (mkFailure (oc_seed o) (run_signature o)) else None.
Definition how_many (p : RunOutcome -> bool) (os : list RunOutcome) : Z := Z.of_nat (length (List.filter p os)).
Definition total (f : RunOutcome -> Z) (os : list RunOutcome) : Z := foldr (fun o s => f o + s) 0 os.
Definition tally (signatures : list string) : gmap string Z :=
  foldr (fun s m => <[s := default 0 (m !! s) + 1]> m) ∅ signatures.

(** The result of running one after the other. *)
Definition summary (os : list RunOutcome) : SweepResult :=
  mkSweepResult (Z.of_nat (length os)) (omap failure_of os) (how_many oc_incomplete os)
    (how_many (fun o => is_unknown (oc_verdict o)) os) (total (fun o => ru_ops_completed (oc_stats o)) os)
    (total (fun o => ru_events (oc_stats o)) os) (tally (fl_signature <$> omap failure_of os)).

Lemma tally_lookup s l :
  tally l !! s = let n := Z.of_nat (length (List.filter (String.eqb s) l)) in if n =? 0 then None else Some n.
Proof.
  induction l as [|x l IH]; [done|]. simpl. destruct (String.eqb_spec s x) as [->|Hne].
  - rewrite lookup_insert_eq, IH. simpl. destruct (Z.eqb_spec (Z.of_nat (length (List.filter (String.eqb x) l))) 0) as [E|E]; simpl;
      rewrite ?E; f_equal; lia.
  - by rewrite lookup_insert_ne by done.
Qed.

Lemma tally_perm l l' : l ≡ₚ l' -> tally l = tally l'.
Proof.
  intros Hp. apply map_eq. intros s. rewrite !tally_lookup.
  enough (E : length (List.filter (String.eqb s) l) = length (List.filter (String.eqb s) l')) by by rewrite E.
  induction Hp; simpl; repeat case_match; simpl; lia.
Qed.

Lemma how_many_app p a b : how_many p (a ++ b) = how_many p a + how_many p b.
Proof. unfold how_many. rewrite List.filter_app, length_app. lia. Qed.
Lemma total_app f a b : total f (a ++ b) = total f a + total f b.
Proof. induction a as [|o a IH]; simpl; [done|]. rewrite IH. lia. Qed.
Lemma how_many_perm p a b : a ≡ₚ b -> how_many p a = how_many p b.
Proof. unfold how_many. induction 1; simpl; repeat case_match; simpl; lia. Qed.
Lemma total_perm f a b : a ≡ₚ b -> total f a = total f b.
Proof. induction 1; simpl; lia. Qed.

(** Recording a run extends the summary by it. *)
Lemma record_summary cfg os o r enough :
  record_run (summary os) cfg o = Some (r, enough) ->
  r = summary (os ++ [o]) /\
  (enough = true -> (0 < sw_stop_after cfg <= length (omap failure_of (os ++ [o])))%nat).
Proof.
  unfold record_run. cbn [summary sr_runs sr_ops_completed sr_events sr_incomplete sr_undecided sr_failures sr_by_signature].
  destruct (u64_add (Z.of_nat (length os)) 1) as [runs|] eqn:E1; [|done]. apply u64_add_Some in E1 as [-> _].
  cbn [mbind option_bind].
  destruct (u64_add (total _ os) (ru_ops_completed _)) as [ops|] eqn:E2; [|done]. apply u64_add_Some in E2 as [-> _].
  cbn [mbind option_bind].
  destruct (u64_add (total _ os) (ru_events _)) as [evs|] eqn:E3; [|done]. apply u64_add_Some in E3 as [-> _].
  cbn [mbind option_bind].
  destruct (if oc_incomplete o then _ else _) as [inc|] eqn:E4; [|done]. cbn [mbind option_bind].
  destruct (if is_unknown (oc_verdict o) then _ else _) as [und|] eqn:E5; [|done]. cbn [mbind option_bind].
  assert (Ei : inc = how_many oc_incomplete (os ++ [o])).
  { rewrite how_many_app. unfold how_many at 2. simpl. destruct (oc_incomplete o); simpl.
    - by apply u64_add_Some in E4 as [-> _].
    - injection E4 as <-. lia. }
  assert (Eu : und = how_many (fun o => is_unknown (oc_verdict o)) (os ++ [o])).
  { rewrite how_many_app. unfold how_many at 2. simpl. destruct (is_unknown (oc_verdict o)); simpl.
    - by apply u64_add_Some in E5 as [-> _].
    - injection E5 as <-. lia. }
  assert (Er : Z.of_nat (length os) + 1 = Z.of_nat (length (os ++ [o]))) by (rewrite length_app; simpl; lia).
  assert (Ef : omap failure_of (os ++ [o]) =
    omap failure_of os ++ (if run_failed o then [mkFailure (oc_seed o) (run_signature o)] else [])).
  { rewrite omap_app. simpl. unfold failure_of at 2. by destruct (run_failed o). }
  unfold summary. rewrite Er, Ei, Eu, Ef, !total_app. cbn [total foldr]. rewrite !Z.add_0_r. destruct (run_failed o).
  - destruct (u64_add (default 0 _) 1) as [n|] eqn:E6; [|intros [=]]. cbn [mbind option_bind]. apply u64_add_Some in E6 as [-> _].
    intros [= <- <-]. split.
    + f_equal. rewrite fmap_app. simpl.
      rewrite (tally_perm (_ ++ [_]) (run_signature o :: (fl_signature <$> omap failure_of os))); [done|].
      symmetry. apply Permutation_cons_append.
    + by intros [Ha%Nat.ltb_lt Hb%Nat.leb_le]%andb_true_iff.
  - intros [= <- <-]. by rewrite app_nil_r.
Qed.

(** ** Every interleaving *)

Definition claim (w : Worker) : option Z := match w with WkRun i | WkPanicked i => Some i | _ => None end.
Definition finished (w : Worker) : Prop := match w with WkDone | WkPanicked _ => True | _ => False end.
#[export] Instance finished_dec w : Decision (finished w).
Proof. destruct w; apply _. Defined.
(** Steps left to a worker that finds no more seeds. *)
Definition weight (w : Worker) : nat := match w with WkCheck => 2 | WkNext => 1 | WkRun _ => 3 | _ => 0 end.

(** Replacing a worker, up to the order of the others. *)
Lemma worker_split (ws : list Worker) j w :
  ws !! j = Some w -> exists rest, ws ≡ₚ w :: rest /\ forall w', <[j := w']> ws ≡ₚ w' :: rest.
Proof.
  intros Hj. exists (take j ws ++ drop (S j) ws). split.
  - rewrite <-(take_drop_middle ws j w Hj) at 1. symmetry. apply Permutation_middle.
  - intros w'. rewrite insert_take_drop by (by eapply lookup_lt_Some). symmetry. apply Permutation_middle.
Qed.

Lemma elem_of_perm_cons {A} (l : list A) a rest (Hp : l ≡ₚ a :: rest) x : x ∈ l -> x = a \/ x ∈ rest.
Proof. rewrite Hp. apply elem_of_cons. Qed.

Lemma seqZ_add_one k : 0 <= k -> seqZ 0 (k + 1) = seqZ 0 k ++ [k].
Proof. intros Hk. rewrite seqZ_app by lia. done. Qed.

Record sweep_ok (cfg : SweepConfig) (st : SweepState) (done_seeds : list Z) (os : list RunOutcome) : Prop := {
  so_claims : done_seeds ++ omap claim (pw_workers st) ≡ₚ seqZ 0 (Z.min (pw_next st) (sw_count cfg));
  so_outcomes : mapM (sweep_outcome cfg) done_seeds = Some os;
  so_shared : pw_shared st = summary os;
  so_next : 0 <= pw_next st /\
    pw_next st <= sw_count cfg + Z.of_nat (length (filter finished (pw_workers st)));
  so_stop : pw_stop st = true -> (0 < sw_stop_after cfg <= length (omap failure_of os))%nat;
  so_done : pw_stop st = false -> WkDone ∈ pw_workers st -> sw_count cfg <= pw_next st;
  so_workers : length (pw_workers st) = sweep_workers cfg;
}.

Lemma sweep_start_ok cfg : 0 <= sw_count cfg -> sweep_ok cfg (sweep_start cfg) [] [].
Proof.
  intros Hc. split; try done; simpl; rewrite ?Z.min_l by lia.
  - induction (sweep_workers cfg); [done|]. done.
  - lia.
  - by intros _ [? _]%elem_of_replicate.
  - by rewrite length_replicate.
Qed.

(** The effort still ahead at most. *)
Definition effort (cfg : SweepConfig) (st : SweepState) : nat :=
  (4 * Z.to_nat (sw_count cfg - pw_next st) + sum_list_with weight (pw_workers st))%nat.

Section WorkerStep.
Context (cfg : SweepConfig) (next : Z) (stop : bool) (shared : SweepResult) (ws : list Worker) (j : nat).
Context (seeds : list Z) (os : list RunOutcome).
Context (Hok : sweep_ok cfg (mkSweepState next stop shared ws) seeds os).

(** A worker that moves on without a seed, or keeps the one it has. *)
Lemma sweep_ok_swap w w' :
  ws !! j = Some w -> claim w' = claim w -> (finished w -> finished w') -> (w' = WkDone -> stop = true) ->
  sweep_ok cfg (mkSweepState next stop shared (<[j := w']> ws)) seeds os.
Proof using Hok.
  intros Hj Hc Hf Hd. destruct (worker_split ws j w Hj) as (rest & Hp & Hins). destruct Hok. simpl in *.
  split; simpl; try done.
  - rewrite <-so_claims0, Hins, Hp. simpl. by rewrite Hc.
  - split; [lia|]. rewrite Hins. rewrite Hp in so_next0. rewrite !filter_cons in *. destruct so_next0 as [_ Hn].
    repeat case_decide; simpl in *; try lia. tauto.
  - intros Hs [H|H]%(elem_of_perm_cons _ _ _ (Hins w')); [by rewrite Hd in Hs|]. apply so_done0; [done|].
    rewrite Hp. by right.
  - by rewrite length_insert.
Qed.

(** A worker that asks for the next seed: it gets one, or there is none left. *)
Lemma sweep_ok_next :
  ws !! j = Some WkNext ->
  let w' := if sw_count cfg <=? next then WkDone else WkRun next in
  sweep_ok cfg (mkSweepState (next + 1) stop shared (<[j := w']> ws)) seeds os.
Proof using Hok.
  intros Hj w'. destruct (worker_split ws j _ Hj) as (rest & Hp & Hins). destruct Hok. simpl in *.
  rewrite Hp, filter_cons in so_next0. simpl in so_next0. unfold w'.
  destruct (Z.leb_spec (sw_count cfg) next) as [Hle|Hle]; split; simpl; rewrite ?length_insert; try done.
  - rewrite Z.min_r by lia. rewrite Z.min_r in so_claims0 by lia. rewrite <-so_claims0, Hins, Hp. done.
  - rewrite Hins, filter_cons. simpl. lia.
  - lia.
  - rewrite Z.min_l by lia. rewrite Z.min_l in so_claims0 by lia. rewrite seqZ_add_one, <-so_claims0, Hins, Hp by lia. simpl.
    rewrite <-app_assoc. f_equiv. apply Permutation_cons_append.
  - rewrite Hins, filter_cons. simpl. lia.
  - intros Hs [[=]|H]%(elem_of_perm_cons _ _ _ (Hins _)). exfalso.
    assert (H' : WkDone ∈ ws) by (rewrite Hp; by right). specialize (so_done0 Hs H'). lia.
Qed.

(** A worker that records the run of its seed. *)
Lemma sweep_ok_record i o r enough :
  ws !! j = Some (WkRun i) -> sweep_outcome cfg i = Some o -> record_run shared cfg o = Some (r, enough) ->
  sweep_ok cfg (mkSweepState next (stop || enough) r (<[j := WkCheck]> ws)) (seeds ++ [i]) (os ++ [o]).
Proof using Hok.
  intros Hj Eo Er. destruct (worker_split ws j _ Hj) as (rest & Hp & Hins). destruct Hok. simpl in *.
  rewrite so_shared0 in Er. apply record_summary in Er as [-> He].
  split; simpl; rewrite ?length_insert; try done.
  - rewrite <-so_claims0, Hins, Hp. simpl. by rewrite <-app_assoc.
  - apply mapM_Some_2, Forall2_app; [by apply mapM_Some|]. by constructor.
  - rewrite Hins, filter_cons. rewrite Hp, filter_cons in so_next0. done.
  - intros [Hs|Hs]%orb_true_iff; [|by apply He]. specialize (so_stop0 Hs). rewrite omap_app, length_app. lia.
  - intros [Hs _]%orb_false_iff [[=]|H]%(elem_of_perm_cons _ _ _ (Hins _)). apply so_done0; [done|]. rewrite Hp. by right.
Qed.
End WorkerStep.

Lemma effort_swap cfg next next' stop stop' shared shared' ws j w w' :
  ws !! j = Some w ->
  (4 * Z.to_nat (sw_count cfg - next') + weight w' < 4 * Z.to_nat (sw_count cfg - next) + weight w)%nat ->
  (effort cfg (mkSweepState next' stop' shared' (<[j := w']> ws)) < effort cfg (mkSweepState next stop shared ws))%nat.
Proof.
  intros Hj Hw. destruct (worker_split ws j _ Hj) as (rest & Hp & Hins). unfold effort. simpl.
  rewrite Hins. rewrite Hp. simpl. lia.
Qed.

Lemma worker_step_ok cfg j fresh st st' seeds os :
  sw_count cfg + Z.of_nat (sweep_workers cfg) < 2 ^ 64 ->
  sweep_ok cfg st seeds os -> worker_step cfg j fresh st = Some st' ->
  (exists seeds' os', sweep_ok cfg st' seeds' os') /\ (effort cfg st' < effort cfg st)%nat.
Proof.
  intros Hmax Hok. destruct st as [next stop shared ws]. simpl.
  destruct (ws !! j) as [w|] eqn:Hj; [|done]. simpl.
  destruct w as [| |i| |i]; [intros [= <-]..| |done|done].
  - split; [exists seeds, os; eapply sweep_ok_swap; try done|].
    + by destruct (fresh && stop).
    + by destruct fresh, stop.
    + eapply effort_swap; [done|]. destruct (fresh && stop); simpl; lia.
  - assert (Hn : 0 <= next < 2 ^ 64 - 1).
    { destruct (so_next _ _ _ _ Hok) as [H0 Hn]. simpl in *. split; [done|].
      enough (length (filter finished ws) < sweep_workers cfg)%nat by lia.
      rewrite <-(so_workers _ _ _ _ Hok). simpl. destruct (worker_split ws j _ Hj) as (rest & -> & _).
      rewrite filter_cons. simpl. pose proof (length_filter finished rest). lia. }
    assert (Hwrap : wrap64 (next + 1) = next + 1) by (unfold wrap64; apply Z.mod_small; lia).
    rewrite Hwrap. split; [exists seeds, os; by apply sweep_ok_next|].
    eapply effort_swap; [done|]. destruct (Z.leb_spec (sw_count cfg) next); simpl; lia.
  - intros [= <-]. destruct (sweep_outcome cfg i) as [o|] eqn:Eo; simpl;
      [destruct (record_run shared cfg o) as [[r enough]|] eqn:Er|]; simpl.
    + split; [exists (seeds ++ [i]), (os ++ [o]); by eapply sweep_ok_record|]. eapply effort_swap; [done|]. simpl. lia.
    + split; [exists seeds, os; by eapply sweep_ok_swap|]. eapply effort_swap; [done|]. simpl. lia.
    + split; [exists seeds, os; by eapply sweep_ok_swap|]. eapply effort_swap; [done|]. simpl. lia.
Qed.

#[local] Opaque worker_step.
Lemma sweep_steps_ok cfg choices st st' seeds os :
  sw_count cfg + Z.of_nat (sweep_workers cfg) < 2 ^ 64 ->
  sweep_ok cfg st seeds os -> sweep_steps cfg choices st = Some st' ->
  (exists seeds' os', sweep_ok cfg st' seeds' os') /\ (length choices + effort cfg st' <= effort cfg st)%nat.
Proof.
  intros Hmax. revert st seeds os. induction choices as [|[j fresh] choices IH]; intros st seeds os Hok;
    unfold sweep_steps in *; cbn [foldl_option fst snd length].
  { intros [= <-]. split; [by exists seeds, os|done]. }
  destruct (worker_step cfg j fresh st) as [st1|] eqn:E; [|done]. simpl. intros Hs.
  destruct (worker_step_ok _ _ _ _ _ _ _ Hmax Hok E) as [(seeds1 & os1 & H1) Hlt].
  destruct (IH _ _ _ H1 Hs) as [Hex Hle]. split; [done|lia].
Qed.
#[local] Transparent worker_step.

Lemma sweep_effort cfg : 0 <= sw_count cfg -> effort cfg (sweep_start cfg) = (4 * Z.to_nat (sw_count cfg) + 2 * sweep_workers cfg)%nat.
Proof.
  intros Hc. unfold effort. simpl. rewrite Z.sub_0_r. f_equal. induction (sweep_workers cfg) as [|k IH]; [done|]. simpl. lia.
Qed.

(** Every interleaving ends: no order of the threads' steps is longer than four for
    each seed and two for each thread, and as long as some thread has neither
    returned nor panicked one of them can go on.  So however the threads are
    scheduled, a sweep returns or panics. *)
Theorem sweep_interleavings_end cfg choices st :
  0 <= sw_count cfg -> sw_count cfg + Z.of_nat (sweep_workers cfg) < 2 ^ 64 ->
  sweep_steps cfg choices (sweep_start cfg) = Some st ->
  Z.of_nat (length choices) <= 4 * sw_count cfg + 2 * Z.of_nat (sweep_workers cfg) /\
  (Forall finished (pw_workers st) \/ exists j st', worker_step cfg j true st = Some st').
Proof.
  intros Hc Hmax Hs. destruct (sweep_steps_ok _ _ _ _ _ _ Hmax (sweep_start_ok cfg Hc) Hs) as [_ Hle].
  rewrite sweep_effort in Hle by done. split; [lia|].
  destruct (decide (Forall finished (pw_workers st))) as [|Hn]; [by left|right].
  apply not_Forall_Exists in Hn; [|apply _]. apply Exists_exists in Hn as (w & [j Hj]%list_elem_of_lookup & Hw).
  destruct st as [next stop shared ws]. simpl in *. exists j. rewrite Hj. simpl.
  destruct w; try (by exfalso; apply Hw); eauto.
Qed.

Lemma outcome_seed cfg i o :
  runnable (sw_base cfg) -> sweep_outcome cfg i = Some o -> oc_seed o = sw_start_seed cfg + i.
Proof.
  intros Hcfg. unfold sweep_outcome. destruct (u64_add _ i) as [seed|] eqn:E; [|done]. simpl.
  apply u64_add_Some in E as [-> _]. intros Ho. apply run_seed in Ho; [done|].  destruct Hcfg. by split.
Qed.

#[local] Opaque sweep_outcome.
Lemma failures_cons o os :
  omap failure_of (o :: os) =
  if run_failed o then mkFailure (oc_seed o) (run_signature o) :: omap failure_of os else omap failure_of os.
Proof. simpl. unfold failure_of at 1. by destruct (run_failed o). Qed.

(** In the order of their seeds failures come as they were run. *)
Lemma failures_sorted cfg k m os :
  runnable (sw_base cfg) -> mapM (sweep_outcome cfg) (seqZ k m) = Some os ->
  StronglySorted failure_le (omap failure_of os) /\
  Forall (fun f => sw_start_seed cfg + k <= fl_seed f) (omap failure_of os).
Proof.
  intros Hcfg. assert (Hm : m <= 0 \/ 0 <= m) by lia. destruct Hm as [Hm|Hm].
  { rewrite seqZ_nil by done. intros [= <-]. split; constructor. }
  rewrite <-(Z2Nat.id m) by done. clear Hm. generalize (Z.to_nat m) as n. intros n. revert k os.
  induction n as [|n IH]; intros k os; [by intros [= <-]; split; constructor|].
  rewrite seqZ_cons by lia. replace (Z.pred (Z.of_nat (S n))) with (Z.of_nat n) by lia. simpl.
  destruct (sweep_outcome cfg k) as [o|] eqn:Eo; [|done]. simpl.
  destruct (mapM _ _) as [os1|] eqn:Em; [|done]. simpl. intros [= <-].
  apply IH in Em as [Hs Hall]. apply outcome_seed in Eo; [|done]. rewrite failures_cons.
  assert (Hall' : Forall (fun f => sw_start_seed cfg + k <= fl_seed f) (omap failure_of os1)).
  { eapply Forall_impl; [exact Hall|]. cbv beta. intros f Hf. lia. }
  destruct (run_failed o); [|done]. split; [|constructor; [simpl; lia|done]].
  apply StronglySorted_cons. split; [|done]. eapply Forall_impl; [exact Hall'|]. cbv beta. intros f Hf.
  unfold failure_le. simpl. lia.
Qed.

Lemma failure_seeds cfg seeds os :
  runnable (sw_base cfg) -> mapM (sweep_outcome cfg) seeds = Some os -> NoDup seeds ->
  NoDup (fl_seed <$> omap failure_of os) /\ forall f, f ∈ omap failure_of os -> fl_seed f - sw_start_seed cfg ∈ seeds.
Proof.
  intros Hcfg. revert os. induction seeds as [|i seeds IH]; intros os; simpl.
  { intros [= <-] _. split; [constructor|]. by intros f ?%elem_of_nil. }
  destruct (sweep_outcome cfg i) as [o|] eqn:Eo; [|done]. simpl.
  destruct (mapM _ _) as [os1|] eqn:Em; [|done]. simpl. intros [= <-] [Hi Hnd]%NoDup_cons.
  destruct (IH _ eq_refl Hnd) as [H1 H2]. apply outcome_seed in Eo; [|done]. rewrite failures_cons.
  destruct (run_failed o); simpl; [split|split; [done|]].
  - apply NoDup_cons. split; [|done]. intros (f & Ef & Hf)%list_elem_of_fmap. apply H2 in Hf. simpl in Ef.
    apply Hi. by replace i with (fl_seed f - sw_start_seed cfg) by lia.
  - intros f [->|Hf]%elem_of_cons; [|right; by apply H2]. apply elem_of_cons. left. simpl. lia.
  - intros f Hf. right. by apply H2.
Qed.

(** The order in which seeds were recorded is gone once failures are sorted. *)
Lemma summary_sorted cfg m seeds os :
  runnable (sw_base cfg) -> seeds ≡ₚ seqZ 0 m -> mapM (sweep_outcome cfg) seeds = Some os ->
  exists os', mapM (sweep_outcome cfg) (seqZ 0 m) = Some os' /\ os ≡ₚ os' /\
    merge_sort failure_le (omap failure_of os) = omap failure_of os'.
Proof.
  intros Hcfg Hp Hos. assert (Hex : exists os', mapM (sweep_outcome cfg) (seqZ 0 m) = Some os' /\ os ≡ₚ os').
  { clear Hcfg. revert os Hos. induction Hp as [|x l l' Hp IH|x y l|l1 l2 l3 H1 IH1 H2 IH2]; intros os; simpl.
    - eauto.
    - destruct (sweep_outcome cfg x) as [o|]; [|done]. simpl. destruct (mapM _ l) as [os1|]; [|done]. simpl. intros [= <-].
      destruct (IH _ eq_refl) as (os' & -> & H). simpl. eexists. split; [done|]. by constructor.
    - destruct (sweep_outcome cfg y) as [o2|]; [|done]. simpl. destruct (sweep_outcome cfg x) as [o1|]; [|done]. simpl.
      destruct (mapM _ l) as [os1|]; [|done]. simpl. intros [= <-]. eexists. split; [done|]. constructor.
    - intros H. destruct (IH1 _ H) as (os2 & Ho2 & Hp2). destruct (IH2 _ Ho2) as (os3 & Ho3 & Hp3).
      exists os3. split; [done|]. by etrans. }
  destruct Hex as (os' & Hos' & Hpo). exists os'. split; [done|]. split; [done|].
  assert (Hpf : omap failure_of os ≡ₚ omap failure_of os') by by rewrite Hpo.
  destruct (failure_seeds cfg _ _ Hcfg Hos') as [Hnd _]; [apply NoDup_seqZ|].
  apply (StronglySorted_unique_strong failure_le).
  - intros a b Ha Hb Hab Hba. rewrite merge_sort_Permutation, Hpf in Ha.
    assert (E : fl_seed a = fl_seed b) by (unfold failure_le in *; lia).
    apply list_elem_of_lookup in Ha as [i Hi], Hb as [j Hj].
    assert (i = j) as ->; [|congruence]. eapply NoDup_lookup; [exact Hnd| |].
    + rewrite list_lookup_fmap, Hi. done.
    + rewrite list_lookup_fmap, Hj. simpl. by rewrite E.
  - apply StronglySorted_merge_sort; apply _.
  - by eapply failures_sorted.
  - by rewrite merge_sort_Permutation.
Qed.

Lemma sweep_sequential cfg choices st r :
  runnable (sw_base cfg) -> 0 <= sw_count cfg -> sw_count cfg + Z.of_nat (sweep_workers cfg) < 2 ^ 64 ->
  sweep_steps cfg choices (sweep_start cfg) = Some st -> sweep_result st = Some r ->
  exists m os, 0 <= m <= sw_count cfg /\ mapM (sweep_outcome cfg) (seqZ 0 m) = Some os /\ r = summary os /\
    (m < sw_count cfg -> (0 < sw_stop_after cfg <= length (sr_failures r))%nat).
Proof.
  intros Hcfg Hc Hmax Hs Hr. destruct (sweep_steps_ok _ _ _ _ _ _ Hmax (sweep_start_ok cfg Hc) Hs) as [(seeds & os & []) _].
  unfold sweep_result in Hr. destruct (forallb _ _) eqn:Hall; [|done]. injection Hr as <-.
  assert (Hdone : Forall (fun w => w = WkDone) (pw_workers st)).
  { apply Forall_forall. intros w Hw%list_elem_of_In. rewrite forallb_forall in Hall. specialize (Hall w Hw). by destruct w. }
  assert (Hcl : omap claim (pw_workers st) = []).
  { clear -Hdone. induction Hdone as [|w ws -> _ IH]; [done|]. exact IH. }
  rewrite Hcl, app_nil_r in so_claims0.
  destruct (summary_sorted cfg _ _ _ Hcfg so_claims0 so_outcomes0) as (os' & Hos' & Hp & Hsort).
  exists (Z.min (pw_next st) (sw_count cfg)), os'. split; [lia|]. split; [done|].
  rewrite so_shared0. cbn [summary sr_runs sr_failures sr_incomplete sr_undecided sr_ops_completed sr_events sr_by_signature].
  rewrite Hsort. split.
  - unfold summary. rewrite (Permutation_length Hp), (how_many_perm _ _ _ Hp), (how_many_perm (fun o => is_unknown _) _ _ Hp),
      (total_perm _ _ _ Hp), (total_perm (fun o => ru_events _) _ _ Hp).
    f_equal. apply tally_perm. by rewrite Hp.
  - intros Hlt. rewrite <-Hsort, merge_sort_Permutation. apply so_stop0.
    destruct (pw_stop st); [done|]. exfalso.
    assert (Hw : WkDone ∈ pw_workers st).
    { destruct (pw_workers st) as [|w ws]; [|apply Forall_cons in Hdone as [-> _]; by left].
      exfalso. unfold sweep_workers in so_workers0. simpl in so_workers0. lia. }
    specialize (so_done0 eq_refl Hw). lia.
Qed.

(** C38. The result of a sweep does not depend on its threads.  However many there are
    and however their steps interleave, a sweep that returns has run the first
    seeds of its range without a gap, each once, and its result is what running
    them one after the other gives, failures in the order of their seeds; it left
    seeds out only when asked to stop and enough had failed. *)
Theorem sweep_is_sequential cfg choices st r :
  runnable (sw_base cfg) -> 0 <= sw_count cfg -> sw_count cfg + Z.of_nat (sweep_workers cfg) < 2 ^ 64 ->
  sweep_steps cfg choices (sweep_start cfg) = Some st -> sweep_result st = Some r ->
  exists m os, 0 <= m <= sw_count cfg /\ mapM (sweep_outcome cfg) (seqZ 0 m) = Some os /\ r = summary os /\
    (m < sw_count cfg -> (0 < sw_stop_after cfg <= length (sr_failures r))%nat).
Proof. apply sweep_sequential. Qed.

(** ** Witness: two threads share three short runs *)

Definition demo_sweep : SweepConfig :=
  mkSweepConfig (demo_config ⟨ sx_duration := 50 * MILLIS ⟩) 7 3 2 0.
(** The second thread overtakes the first. *)
Definition demo_choices : list (nat * bool) :=
  [(0%nat, true); (0%nat, true); (1%nat, true); (1%nat, true); (1%nat, true); (1%nat, true); (1%nat, true);
   (0%nat, true); (1%nat, true); (0%nat, false); (0%nat, true); (1%nat, true); (1%nat, true)].

Lemma demo_sweep_runs :
  exists st r, sweep_steps demo_sweep demo_choices (sweep_start demo_sweep) = Some st /\ sweep_result st = Some r /\
    sr_runs r = 3.
Proof.
  assert (E : (st ← sweep_steps demo_sweep demo_choices (sweep_start demo_sweep); r ← sweep_result st; Some (sr_runs r)) = Some 3)
    by (vm_compute; reflexivity).
  revert E. generalize (sweep_steps demo_sweep demo_choices (sweep_start demo_sweep)) as o. intros [st|]; [|done]. simpl.
  destruct (sweep_result st) as [r|] eqn:Er; [|done]. simpl. intros [= Hr]. by exists st, r.
Qed.

Lemma demo_sweep_runnable : runnable (sw_base demo_sweep).
Proof. split; [done|by split|done]. Qed.

Lemma sweep_is_sequential_witness :
  exists st r os, sweep_steps demo_sweep demo_choices (sweep_start demo_sweep) = Some st /\ sweep_result st = Some r /\
    r = summary os /\ length os = 3%nat.
Proof.
  destruct demo_sweep_runs as (st & r & Hs & Hr & H3).
  destruct (sweep_is_sequential demo_sweep demo_choices st r demo_sweep_runnable ltac:(done) ltac:(done) Hs Hr)
    as (m & os & _ & _ & E & _).
  exists st, r, os. split; [exact Hs|]. split; [exact Hr|]. split; [exact E|].
  rewrite E in H3. simpl in H3. lia.
Defined.

Lemma sweep_interleavings_end_witness :
  exists st, sweep_steps demo_sweep demo_choices (sweep_start demo_sweep) = Some st /\
    Z.of_nat (length demo_choices) <= 4 * sw_count demo_sweep + 2 * Z.of_nat (sweep_workers demo_sweep).
Proof.
  destruct demo_sweep_runs as (st & r & Hs & _ & _). exists st. split; [exact Hs|].
  destruct (sweep_interleavings_end demo_sweep demo_choices st ltac:(done) ltac:(done) Hs) as [H _]. exact H.
Defined.
