(* ===== verification/Shrink.v ===== *)
(** * Shrink: cutting a failing configuration down ([harness/shrink.rs])

    A list of simplifications, each tried on the current configuration and kept
    when the run still fails the same way, until a whole pass changes nothing or
    the budget is spent.  The log lines are left out. *)
From Stdlib Require Import String.
From S2P Require Import Prelude Codec LogFormat Config Io Rng Disk Faults Net Trace Oracle History Linearizability Harness.
From S2P Require Import ClusterRun.
Local Open Scope Z_scope.

(** ** Field updates *)

Definition net_config_eta (c : NetConfig) : NetConfig :=
  mkNetConfig (nc_latency c) (nc_drop_ppm c) (nc_duplicate_ppm c) (nc_corrupt_ppm c) (nc_slow_ppm c)
    (nc_slow_factor c).
#[export] Instance set_nc_drop_ppm : Setter nc_drop_ppm. Proof. build_setter net_config_eta. Defined.
#[export] Instance set_nc_duplicate_ppm : Setter nc_duplicate_ppm. Proof. build_setter net_config_eta. Defined.
#[export] Instance set_nc_corrupt_ppm : Setter nc_corrupt_ppm. Proof. build_setter net_config_eta. Defined.
Definition disk_config_eta (c : DiskConfig) : DiskConfig :=
  mkDiskConfig (dc_write_latency c) (dc_sync_latency c) (dc_io_error_ppm c) (dc_torn_write_ppm c)
    (dc_lost_write_ppm c) (dc_reorder_unsynced c) (dc_slow_ppm c) (dc_slow_factor c).
#[export] Instance set_dc_io_error_ppm : Setter dc_io_error_ppm. Proof. build_setter disk_config_eta. Defined.
#[export] Instance set_dc_torn_write_ppm : Setter dc_torn_write_ppm. Proof. build_setter disk_config_eta. Defined.
#[export] Instance set_dc_lost_write_ppm : Setter dc_lost_write_ppm. Proof. build_setter disk_config_eta. Defined.
#[export] Instance set_dc_reorder_unsynced : Setter dc_reorder_unsynced. Proof. build_setter disk_config_eta. Defined.
Definition workload_config_eta (c : WorkloadConfig) : WorkloadConfig :=
  mkWorkloadConfig (wl_read_weight c) (wl_write_weight c) (wl_cas_weight c) (wl_delete_weight c)
    (wl_keys c) (wl_think_time c) (wl_request_timeout c) (wl_retry_backoff c) (wl_max_attempts c).
#[export] Instance set_wl_keys : Setter wl_keys. Proof. build_setter workload_config_eta. Defined.
#[export] Instance set_wl_cas_weight : Setter wl_cas_weight. Proof. build_setter workload_config_eta. Defined.
#[export] Instance set_wl_delete_weight : Setter wl_delete_weight. Proof. build_setter workload_config_eta. Defined.
#[export] Instance set_wl_read_weight : Setter wl_read_weight. Proof. build_setter workload_config_eta. Defined.

(** ** Candidates *)

Record Candidate : Type := mkCandidate { cd_label : string; cd_apply : SimConfig -> option SimConfig }.

(** [b.then(|| n)] *)
Definition if_then {A} (b : bool) (n : A) : option A := if b then Some n else None.

Definition c_faults (label : string) (b : SimConfig -> bool) (f : FaultConfig -> FaultConfig) : Candidate :=
  mkCandidate label (fun cfg => if_then (b cfg) (cfg ⟨ sx_faults := f (sx_faults cfg) ⟩)).
Definition c_net (label : string) (ppm : NetConfig -> Z) (f : NetConfig -> NetConfig) : Candidate :=
  mkCandidate label (fun cfg => if_then (0 <? ppm (sx_net cfg)) (cfg ⟨ sx_net := f (sx_net cfg) ⟩)).
Definition c_disk (label : string) (b : DiskConfig -> bool) (f : DiskConfig -> DiskConfig) : Candidate :=
  mkCandidate label (fun cfg => if_then (b (sx_disk cfg)) (cfg ⟨ sx_disk := f (sx_disk cfg) ⟩)).
Definition c_workload (label : string) (b : WorkloadConfig -> bool) (f : WorkloadConfig -> WorkloadConfig)
  : Candidate :=
  mkCandidate label (fun cfg => if_then (b (sx_workload cfg)) (cfg ⟨ sx_workload := f (sx_workload cfg) ⟩)).
Definition c_raft (label : string) (b : RaftConfig -> bool) (f : RaftConfig -> RaftConfig) : Candidate :=
  mkCandidate label (fun cfg => if_then (b (sx_raft cfg)) (cfg ⟨ sx_raft := f (sx_raft cfg) ⟩)).

Definition candidates : list Candidate := [
  c_faults "crashes disabled" (fun c => fc_enable_crashes (sx_faults c))
    (fun f => f ⟨ fc_enable_crashes := false ⟩);
  c_faults "partitions disabled" (fun c => fc_enable_partitions (sx_faults c))
    (fun f => f ⟨ fc_enable_partitions := false ⟩);
  c_faults "clock skew disabled" (fun c => fc_enable_clock_skew (sx_faults c))
    (fun f => f ⟨ fc_enable_clock_skew := false ⟩);
  c_faults "slow links disabled" (fun c => fc_enable_slow_links (sx_faults c))
    (fun f => f ⟨ fc_enable_slow_links := false ⟩);
  c_net "message loss disabled" nc_drop_ppm (fun n => n ⟨ nc_drop_ppm := 0 ⟩);
  c_net "message duplication disabled" nc_duplicate_ppm (fun n => n ⟨ nc_duplicate_ppm := 0 ⟩);
  c_net "message corruption disabled" nc_corrupt_ppm (fun n => n ⟨ nc_corrupt_ppm := 0 ⟩);
  c_disk "disk io errors disabled" (fun d => 0 <? dc_io_error_ppm d) (fun d => d ⟨ dc_io_error_ppm := 0 ⟩);
  c_disk "torn writes disabled" (fun d => 0 <? dc_torn_write_ppm d) (fun d => d ⟨ dc_torn_write_ppm := 0 ⟩);
  c_disk "lost writes disabled" (fun d => 0 <? dc_lost_write_ppm d) (fun d => d ⟨ dc_lost_write_ppm := 0 ⟩);
  c_disk "unsynced write reordering disabled" dc_reorder_unsynced (fun d => d ⟨ dc_reorder_unsynced := false ⟩);
  mkCandidate "fewer servers" (fun cfg => if_then (1 <? sx_servers cfg)%nat
    (cfg ⟨ sx_servers := if (3 <? sx_servers cfg)%nat then 3%nat else 1%nat ⟩));
  mkCandidate "fewer clients" (fun cfg => if_then (1 <? sx_clients cfg)%nat
    (cfg ⟨ sx_clients := Nat.max (sx_clients cfg / 2) 1 ⟩));
  c_workload "fewer keys" (fun w => (1 <? wl_keys w)%nat) (fun w => w ⟨ wl_keys := Nat.max (wl_keys w / 2) 1 ⟩);
  mkCandidate "shorter run" (fun cfg => if_then (500 * MILLIS <? sx_duration cfg)
    (normalise (cfg ⟨ sx_duration := Z.max (sx_duration cfg / 2) (500 * MILLIS) ⟩)));
  mkCandidate "shorter settle" (fun cfg => if_then (5 * SECONDS <? sx_settle cfg)
    (cfg ⟨ sx_settle := Z.max (sx_settle cfg / 2) (5 * SECONDS) ⟩));
  c_faults "no peer isolation (cut from servers, not clients)"
    (fun c => fc_enable_partitions (sx_faults c) && (0 <? fc_peer_isolate_weight (sx_faults c)))
    (fun f => f ⟨ fc_peer_isolate_weight := 0 ⟩);
  c_raft "elections without pre-vote" cfg_pre_vote (fun r => r ⟨ cfg_pre_vote := false ⟩);
  c_faults "membership changes only at random times"
    (fun c => fc_enable_reconfig (sx_faults c) && (0 <? fc_fresh_leader_reconfig_ppm (sx_faults c)))
    (fun f => f ⟨ fc_fresh_leader_reconfig_ppm := 0 ⟩);
  mkCandidate "no membership changes" (fun cfg =>
    if_then (fc_enable_reconfig (sx_faults cfg) || (0 <? sx_spares cfg)%nat)
      (cfg ⟨ sx_faults := (sx_faults cfg) ⟨ fc_enable_reconfig := false ⟩ ⟩ ⟨ sx_spares := 0%nat ⟩));
  c_raft "reads through the log instead of ReadIndex"
    (fun r => bool_decide (cfg_read_mode r = ReadIndex)) (fun r => r ⟨ cfg_read_mode := ReadLog ⟩);
  c_workload "no compare-and-set" (fun w => 0 <? wl_cas_weight w) (fun w => w ⟨ wl_cas_weight := 0 ⟩);
  c_workload "no deletes" (fun w => 0 <? wl_delete_weight w) (fun w => w ⟨ wl_delete_weight := 0 ⟩);
  c_workload "no reads" (fun w => (0 <? wl_read_weight w) && (0 <? wl_write_weight w))
    (fun w => w ⟨ wl_read_weight := 0 ⟩)
].

(** ** The search *)

Record ShrinkResult : Type := mkShrinkResult {
  sk_original : SimConfig;
  sk_minimal : SimConfig;
  sk_signature : string;
  sk_attempts : nat;
  sk_steps : nat;
  sk_removed : list string;
  sk_outcome : RunOutcome;
}.

(** What the loop changes. *)
Record Shrinking : Type := mkShrinking {
  sg_current : SimConfig;
  sg_best : RunOutcome;
  sg_attempts : nat;
  sg_steps : nat;
  sg_removed : list string;
}.

Definition still_fails (signature : string) (o : RunOutcome) : bool :=
  run_failed o && (run_signature o =? signature)%string.

(** The search over any way of running a configuration; [None] is a run that
    panics. *)
Section Search.
Context (exec : SimConfig -> option RunOutcome).

(** One pass: [inl] when the budget ran out, else whether anything was kept. *)
Fixpoint shrink_pass (budget : nat) (signature : string) (cs : list Candidate) (progressed : bool)
  (s : Shrinking) : option (Shrinking + Shrinking * bool) :=
  match cs with
  | [] => Some (inr (s, progressed))
  | cand :: cs =>
      if (budget <=? sg_attempts s)%nat then Some (inl s)
      else
        match cd_apply cand (sg_current s) with
        | None => shrink_pass budget signature cs progressed s
        | Some next =>
            outcome ← exec next;
            if still_fails signature outcome then
              shrink_pass budget signature cs true
                (mkShrinking next outcome (S (sg_attempts s)) (S (sg_steps s))
                   (sg_removed s ++ [cd_label cand]))
            else
              shrink_pass budget signature cs progressed
                (mkShrinking (sg_current s) (sg_best s) (S (sg_attempts s)) (sg_steps s) (sg_removed s))
        end
  end.

(** [Some None] when the fuel runs out. *)
Fixpoint shrink_loop (fuel budget : nat) (signature : string) (s : Shrinking) : option (option Shrinking) :=
  match fuel with
  | O => Some None
  | S fuel =>
      r ← shrink_pass budget signature candidates false s;
      match r with
      | inl s => Some (Some s)
      | inr (s, true) => shrink_loop fuel budget signature s
      | inr (s, false) => Some (Some s)
      end
  end.

(** Nothing to shrink is [Some None]. *)
Definition shrink_with (cfg : SimConfig) (budget : nat) : option (option ShrinkResult) :=
  let current := normalise cfg in
  first ← exec current;
  if negb (run_failed first) then Some None
  else
    let signature := run_signature first in
    s ← mjoin (shrink_loop (S (S budget)) budget signature (mkShrinking current first 0 0 []));
    Some (Some (mkShrinkResult cfg (sg_current s) signature (sg_attempts s) (sg_steps s)
      (sg_removed s) (sg_best s))).
End Search.
Definition shrink : SimConfig -> nat -> option (option ShrinkResult) := shrink_with run.

(** Up to the next multiple of 100 ms. *)
Definition round_duration (d : Nanos) : option Nanos :=
  let unit := 100 * MILLIS in
  let r := (d + unit - 1) / unit * unit in
  if r <=? U64_MAX then Some r else None.

(** ** Every candidate simplifies *)

Definition b2n (b : bool) : nat := if b then 1 else 0.

(** What is left to remove. *)
Definition size_faults (f : FaultConfig) : nat :=
  b2n (fc_enable_crashes f) + b2n (fc_enable_partitions f) + b2n (fc_enable_clock_skew f) +
  b2n (fc_enable_slow_links f) + Z.to_nat (fc_peer_isolate_weight f) +
  b2n (fc_enable_reconfig f) + Z.to_nat (fc_fresh_leader_reconfig_ppm f).
Definition size_net (n : NetConfig) : nat :=
  Z.to_nat (nc_drop_ppm n) + Z.to_nat (nc_duplicate_ppm n) + Z.to_nat (nc_corrupt_ppm n).
Definition size_disk (d : DiskConfig) : nat :=
  Z.to_nat (dc_io_error_ppm d) + Z.to_nat (dc_torn_write_ppm d) + Z.to_nat (dc_lost_write_ppm d) +
  b2n (dc_reorder_unsynced d).
Definition size_workload (w : WorkloadConfig) : nat :=
  wl_keys w + Z.to_nat (wl_cas_weight w) + Z.to_nat (wl_delete_weight w) + Z.to_nat (wl_read_weight w).
Definition size_raft (r : RaftConfig) : nat :=
  b2n (cfg_pre_vote r) + b2n (bool_decide (cfg_read_mode r = ReadIndex)).
Definition config_size (c : SimConfig) : nat :=
  size_faults (sx_faults c) + size_net (sx_net c) + size_disk (sx_disk c) +
  size_workload (sx_workload c) + size_raft (sx_raft c) + sx_servers c + sx_clients c + sx_spares c +
  Z.to_nat (sx_duration c) + Z.to_nat (sx_settle c).

Lemma half_lt n : (1 < n -> Nat.max (n / 2) 1 < n)%nat.
Proof. intros Hn. pose proof (Nat.div_lt n 2). lia. Qed.

Lemma half_Z_lt x b : 0 < b -> b < x -> Z.max (x / 2) b < x.
Proof. intros. pose proof (Z.div_lt x 2). lia. Qed.

Definition simplifies (cand : Candidate) : Prop :=
  forall c c', cd_apply cand c = Some c' -> (config_size c' < config_size c)%nat.

Lemma c_faults_simplifies l b f :
  (forall c, b c = true -> (size_faults (f (sx_faults c)) < size_faults (sx_faults c))%nat) ->
  simplifies (c_faults l b f).
Proof.
  intros H c c'. unfold c_faults, if_then. simpl. destruct (b c) eqn:E; [|done]. intros [= <-].
  specialize (H c E). unfold config_size. simpl. lia.
Qed.
Lemma c_net_simplifies l p f :
  (forall n, 0 < p n -> (size_net (f n) < size_net n)%nat) -> simplifies (c_net l p f).
Proof.
  intros H c c'. unfold c_net, if_then. simpl. destruct (Z.ltb_spec 0 (p (sx_net c))) as [E|]; [|done].
  intros [= <-]. specialize (H _ E). unfold config_size. simpl. lia.
Qed.
Lemma c_disk_simplifies l b f :
  (forall d, b d = true -> (size_disk (f d) < size_disk d)%nat) -> simplifies (c_disk l b f).
Proof.
  intros H c c'. unfold c_disk, if_then. simpl. destruct (b (sx_disk c)) eqn:E; [|done].
  intros [= <-]. specialize (H _ E). unfold config_size. simpl. lia.
Qed.
Lemma c_workload_simplifies l b f :
  (forall w, b w = true -> (size_workload (f w) < size_workload w)%nat) -> simplifies (c_workload l b f).
Proof.
  intros H c c'. unfold c_workload, if_then. simpl. destruct (b (sx_workload c)) eqn:E; [|done].
  intros [= <-]. specialize (H _ E). unfold config_size. simpl. lia.
Qed.
Lemma c_raft_simplifies l b f :
  (forall r, b r = true -> (size_raft (f r) < size_raft r)%nat) -> simplifies (c_raft l b f).
Proof.
  intros H c c'. unfold c_raft, if_then. simpl. destruct (b (sx_raft c)) eqn:E; [|done].
  intros [= <-]. specialize (H _ E). unfold config_size. simpl. lia.
Qed.

Lemma candidates_simplify : Forall simplifies candidates.
Proof.
  unfold candidates.
  repeat (apply Forall_cons; split); [..|by apply Forall_nil].
  all: first [apply c_faults_simplifies; intros c | apply c_net_simplifies; intros n
    | apply c_disk_simplifies; intros d | apply c_workload_simplifies; intros w
    | apply c_raft_simplifies; intros r | intros c c'; unfold if_then; simpl].
  all: unfold size_faults, size_net, size_disk, size_workload, size_raft; simpl;
    rewrite ?andb_true_iff, ?Z.ltb_lt, ?Nat.ltb_lt.
  all: try (intros E; rewrite ?E; simpl; lia).
  all: try (intros [E1 E2]; rewrite ?E1, ?E2; simpl; lia).
  - destruct (Nat.ltb_spec 1 (sx_servers c)); [|done]. intros [= <-]. unfold config_size. simpl.
    destruct (Nat.ltb_spec 3 (sx_servers c)); lia.
  - destruct (Nat.ltb_spec 1 (sx_clients c)) as [H|]; [|done]. intros [= <-]. unfold config_size. simpl sx_clients.
    pose proof (half_lt _ H). simpl in *. lia.
  - intros H. pose proof (half_lt _ H). simpl in *. lia.
  - destruct (Z.ltb_spec (500 * MILLIS) (sx_duration c)) as [H|]; [|done]. intros [= <-].
    pose proof (half_Z_lt (sx_duration c) (500 * MILLIS) eq_refl H) as Hlt.
    assert (H0 : 0 < 500 * MILLIS) by reflexivity.
    revert H0 H Hlt. generalize (Z.max (sx_duration c / 2) (500 * MILLIS)) as m.
    generalize (500 * MILLIS) as b. intros b m Hb H Hlt. unfold config_size, size_faults. simpl. lia.
  - destruct (Z.ltb_spec (5 * SECONDS) (sx_settle c)) as [H|]; [|done]. intros [= <-].
    pose proof (half_Z_lt (sx_settle c) (5 * SECONDS) eq_refl H) as Hlt.
    assert (H0 : 0 < 5 * SECONDS) by reflexivity.
    revert H0 H Hlt. generalize (Z.max (sx_settle c / 2) (5 * SECONDS)) as m.
    generalize (5 * SECONDS) as b. intros b m Hb H Hlt. unfold config_size. simpl. lia.
  - destruct (_ || _) eqn:E; [|done]. intros [= <-]. unfold config_size, size_faults. simpl.
    apply orb_true_iff in E as [E|E%Nat.ltb_lt]; [rewrite E; simpl|]; lia.
Qed.

Lemma length_candidates : length candidates = 24%nat.
Proof. reflexivity. Qed.

(** ** The search *)

#[local] Opaque candidates.

(** What is left of a configuration after the candidates with these labels. *)
Inductive cut_down (c0 : SimConfig) : list string -> SimConfig -> Prop :=
| cut_none : cut_down c0 [] c0
| cut_step labels c cand next :
    cut_down c0 labels c -> In cand candidates -> cd_apply cand c = Some next ->
    cut_down c0 (labels ++ [cd_label cand]) next.

(** No simplification of [cs] fails the same way. *)
Definition minimal_for (exec : SimConfig -> option RunOutcome) (signature : string) (cs : list Candidate)
  (c : SimConfig) : Prop :=
  Forall (fun cand => forall next, cd_apply cand c = Some next ->
    exists o, exec next = Some o /\ still_fails signature o = false) cs.

(** Some configuration the search tries panics. *)
Definition panics_below (exec : SimConfig -> option RunOutcome) (c0 : SimConfig) : Prop :=
  exists labels c, cut_down c0 labels c /\ exec c = None.

Section ShrinkRules.
Context (exec : SimConfig -> option RunOutcome) (budget : nat) (signature : string) (c0 : SimConfig).
#[local] Notation many := (length candidates).

(** What the loop maintains, from [c0]. *)
Record shrinking_ok (s : Shrinking) : Prop := {
  sh_best : exec (sg_current s) = Some (sg_best s);
  sh_fails : still_fails signature (sg_best s) = true;
  sh_attempts : (sg_attempts s <= budget)%nat;
  sh_steps : (sg_steps s <= sg_attempts s)%nat;
  sh_length : length (sg_removed s) = sg_steps s;
  sh_removed : cut_down c0 (sg_removed s) (sg_current s);
  sh_size : (config_size (sg_current s) + sg_steps s <= config_size c0)%nat;
}.

Lemma minimal_cons cand cs c o :
  (forall next, cd_apply cand c = Some next -> exec next = Some o /\ still_fails signature o = false) ->
  minimal_for exec signature cs c -> minimal_for exec signature (cand :: cs) c.
Proof. intros H Hcs. apply Forall_cons. split; [|exact Hcs]. intros n Hn. exists o. by apply H. Qed.

Lemma keep_ok cand next o s :
  shrinking_ok s -> In cand candidates -> (sg_attempts s < budget)%nat ->
  cd_apply cand (sg_current s) = Some next -> exec next = Some o -> still_fails signature o = true ->
  shrinking_ok (mkShrinking next o (S (sg_attempts s)) (S (sg_steps s)) (sg_removed s ++ [cd_label cand])).
Proof.
  intros [H1 H2 H3 H4 H5 H6 H7] Hin Hb E Eo Ef.
  pose proof (proj1 (List.Forall_forall _ _) candidates_simplify cand Hin _ _ E) as Hsize.
  split; simpl; try assumption; try lia.
  - rewrite length_app. simpl. lia.
  - by eapply cut_step.
Qed.

Lemma drop_ok s :
  shrinking_ok s -> (sg_attempts s < budget)%nat ->
  shrinking_ok (mkShrinking (sg_current s) (sg_best s) (S (sg_attempts s)) (sg_steps s) (sg_removed s)).
Proof. intros [H1 H2 H3 H4 H5 H6 H7] Hb. split; simpl; try assumption; lia. Qed.

(** What a pass over [k] candidates that started in [s] gives. *)
Definition pass_result (cs : list Candidate) (p : bool) (s : Shrinking) (r : option (Shrinking + Shrinking * bool))
  : Prop :=
  match r with
  | None => panics_below exec c0
  | Some (inl s') => shrinking_ok s' /\ (budget <= sg_attempts s')%nat /\
      (sg_attempts s' <= sg_attempts s + length cs)%nat /\ (sg_steps s <= sg_steps s')%nat
  | Some (inr (s', p')) => shrinking_ok s' /\ (sg_attempts s' <= sg_attempts s + length cs)%nat /\
      (sg_steps s <= sg_steps s')%nat /\
      (p' = true -> p = true \/ (sg_steps s < sg_steps s')%nat) /\
      (p' = false -> p = false /\ sg_current s' = sg_current s /\ minimal_for exec signature cs (sg_current s))
  end.

Lemma shrink_pass_ok cs p s :
  incl cs candidates -> shrinking_ok s -> pass_result cs p s (shrink_pass exec budget signature cs p s).
Proof.
  revert p s. induction cs as [|cand cs IH]; intros p s Hcs Hs; simpl.
  - split; [done|]. split; [lia|]. split; [lia|]. split; [auto|]. intros ->. split; [done|]. split; [done|].
    by apply Forall_nil.
  - apply incl_cons_inv in Hcs as [Hcand Hcs].
    destruct (Nat.leb_spec budget (sg_attempts s)) as [Hb|Hb]; [simpl; split; [done|]; lia|].
    destruct (cd_apply cand (sg_current s)) as [next|] eqn:E.
    + destruct (exec next) as [o|] eqn:Eo; simpl.
      2: { exists (sg_removed s ++ [cd_label cand]), next. split; [|done].
           eapply cut_step; [apply Hs|done|done]. }
      destruct (still_fails signature o) eqn:Ef.
      * specialize (IH true _ Hcs (keep_ok _ _ _ _ Hs Hcand Hb E Eo Ef)).
        destruct (shrink_pass _ _ _ cs _ _) as [[s'|[s' p']]|]; simpl in IH |- *; [| |done].
        -- destruct IH as (? & ? & ? & ?). split; [done|]. lia.
        -- destruct IH as (? & ? & ? & ? & Hno). split; [done|]. split; [lia|]. split; [lia|].
           split; [right; lia|]. intros Hp. by destruct (Hno Hp).
      * specialize (IH p _ Hcs (drop_ok _ Hs Hb)).
        destruct (shrink_pass _ _ _ cs _ _) as [[s'|[s' p']]|]; simpl in IH |- *; [| |done].
        -- destruct IH as (? & ? & ? & ?). split; [done|]. lia.
        -- destruct IH as (? & ? & ? & ? & Hno). split; [done|]. split; [lia|]. split; [lia|].
           split; [done|]. intros Hp. destruct (Hno Hp) as (? & ? & Hm). split; [done|]. split; [done|].
           apply (minimal_cons _ _ _ o); [|done]. intros n En. rewrite E in En. by injection En as <-.
    + specialize (IH p s Hcs Hs).
      destruct (shrink_pass _ _ _ cs _ _) as [[s'|[s' p']]|]; simpl in IH |- *; [| |done].
      * destruct IH as (? & ? & ? & ?). split; [done|]. lia.
      * destruct IH as (? & ? & ? & ? & Hno). split; [done|]. split; [lia|]. split; [lia|].
        split; [done|]. intros Hp. destruct (Hno Hp) as (? & ? & Hm). split; [done|]. split; [done|].
        apply (minimal_cons _ _ _ (sg_best s)); [|done]. intros n En. by rewrite E in En.
Qed.

(** What the loop ends with. *)
Definition loop_result (r : option (option Shrinking)) : Prop :=
  match r with
  | None => panics_below exec c0
  | Some None => False
  | Some (Some s') => shrinking_ok s' /\ (sg_attempts s' <= many * S (sg_steps s'))%nat /\
      ((sg_attempts s' < budget)%nat -> minimal_for exec signature candidates (sg_current s'))
  end.

Lemma shrink_loop_ok fuel s :
  shrinking_ok s -> (budget - sg_steps s < fuel)%nat -> (sg_attempts s <= many * sg_steps s)%nat ->
  loop_result (shrink_loop exec fuel budget signature s).
Proof.
  revert s. induction fuel as [|fuel IH]; intros s Hs Hf Ha; [lia|]. simpl.
  pose proof (shrink_pass_ok candidates false s (incl_refl _) Hs) as Hp.
  destruct (shrink_pass exec budget signature candidates false s) as [[s'|[s' [|]]]|]; simpl in Hp |- *; [| | |done].
  - destruct Hp as (Hs' & Hb & Hle & Hst). split; [done|].
    split; [|lia]. clear -Ha Hle Hst. revert Ha Hle. generalize many. intros m Ha Hle. nia.
  - destruct Hp as (Hs' & Hle & Hst & Hprog & _). destruct (Hprog eq_refl) as [|Hlt]; [done|].
    apply IH; [done| |].
    + pose proof (sh_steps _ Hs'). pose proof (sh_attempts _ Hs'). lia.
    + clear -Ha Hle Hlt. revert Ha Hle. generalize many. intros m Ha Hle. nia.
  - destruct Hp as (Hs' & Hle & Hst & _ & Hno). destruct (Hno eq_refl) as (_ & Hc & Hmin).
    split; [done|]. split; [|intros _; by rewrite Hc].
    clear -Ha Hle Hst. revert Ha Hle. generalize many. intros m Ha Hle. nia.
Qed.
End ShrinkRules.

Lemma shrink_from_start exec budget c o :
  exec c = Some o -> run_failed o = true ->
  loop_result exec budget (run_signature o) c
    (shrink_loop exec (S (S budget)) budget (run_signature o) (mkShrinking c o 0 0 [])).
Proof.
  intros Ho Hf. apply shrink_loop_ok.
  - split; cbn [sg_best sg_current sg_attempts sg_steps sg_removed];
      [done| |apply Nat.le_0_l..|done|constructor|].
    + unfold still_fails. rewrite Hf. apply String.eqb_refl.
    + by rewrite Nat.add_0_r.
  - cbn [sg_steps]. rewrite Nat.sub_0_r. auto.
  - apply Nat.le_0_l.
Qed.

(** ** Properties *)

(** C31. Shrinking ends at a smallest failing configuration.  Unless a run it makes
    panics, [shrink] terminates within its budget of runs.  Nothing to shrink means
    the original passes.  Otherwise what it returns fails with the signature the
    original had, the labels it reports are those of the candidates that lead from
    the original to it, each made the configuration strictly simpler, and, unless
    the budget ran out, every single simplification of it runs and does not fail
    the same way; a budget above 24 runs per unit of the original's size is never
    exhausted. *)
Theorem shrink_finds_minimal cfg budget :
  match shrink cfg budget with
  | None => panics_below run (normalise cfg)
  | Some None => exists o, run (normalise cfg) = Some o /\ run_failed o = false
  | Some (Some k) => exists o,
      run (normalise cfg) = Some o /\ run_failed o = true /\ sk_signature k = run_signature o /\
      sk_original k = cfg /\ run (sk_minimal k) = Some (sk_outcome k) /\
      still_fails (sk_signature k) (sk_outcome k) = true /\
      (sk_attempts k <= budget)%nat /\ length (sk_removed k) = sk_steps k /\
      cut_down (normalise cfg) (sk_removed k) (sk_minimal k) /\
      (config_size (sk_minimal k) + sk_steps k <= config_size (normalise cfg))%nat /\
      ((sk_attempts k < budget \/ 24 * S (config_size (normalise cfg)) < budget)%nat ->
       minimal_for run (sk_signature k) candidates (sk_minimal k))
  end.
Proof.
  unfold shrink, shrink_with. generalize run as exec. intros exec.
  destruct (exec (normalise cfg)) as [o|] eqn:Ho; cbn [mbind option_bind].
  2: { exists [], (normalise cfg). split; [constructor|done]. }
  destruct (run_failed o) eqn:Ef; cbn [negb]; [|by exists o].
  pose proof (shrink_from_start exec budget _ _ Ho Ef) as Hl.
  destruct (shrink_loop _ _ _ _ _) as [[s|]|]; cbn [mjoin option_join mbind option_bind loop_result] in Hl |- *;
    [|done|done].
  destruct Hl as ([H1 H2 H3 H4 H5 H6 H7] & Ha & Hmin). exists o.
  cbn [sk_original sk_outcome sk_minimal sk_signature sk_attempts sk_removed sk_steps].
  revert H7 Ha. generalize (config_size (normalise cfg)), (config_size (sg_current s)).
  intros size size' H7 Ha. split_and!; try assumption; try reflexivity. intros Hb. apply Hmin.
  rewrite length_candidates in Ha. lia.
Qed.

(** ** A search to look at: runs that fail whenever torn writes are possible *)

Definition demo_run_outcome (c : SimConfig) : RunOutcome :=
  mkRunOutcome (sx_seed c) c 0
    (if 0 <? dc_torn_write_ppm (sx_disk c) then [mkViolation "committed_not_durable" 1 None] else [])
    Linearizable (mkRunStats 0 0 0 0 0 0 0 0 0 0 0 0 0 0 0 0 0 0 0 0 0 0 0) false history_new.

Example shrink_demo :
  match shrink_with (fun c => Some (demo_run_outcome c)) sim_config_default 200 with
  | Some (Some k) => (sx_servers (sk_minimal k), sx_clients (sk_minimal k), sk_signature k,
      dc_torn_write_ppm (sx_disk (sk_minimal k)), sx_duration (sk_minimal k), sk_steps k)
  | _ => (0%nat, 0%nat, ""%string, 0, 0, 0%nat)
  end = (1%nat, 1%nat, "committed_not_durable"%string, 150000, 500 * MILLIS, 28%nat).
Proof. vm_compute. reflexivity. Qed.
