(* ===== verification/Cli.v ===== *)
(** * Cli: the command line ([harness/main.rs])

    Arguments become a map of options, options a configuration, and a command runs
    it and ends with an exit status.  What is printed and the trace file are left
    out.  A command that sweeps is given the interleaving of its threads. *)
From Stdlib Require Import String Ascii.
From stdpp Require Import strings pretty.
From S2P Require Import Prelude Codec Crc LogFormat RaftLog Recovery Durable Messages Config StateMachine Io Rng Draw.
From S2P Require Import Disk Faults Scheduler Net Trace World Oracle RaftState Raft History Server Invariants Durability.
From S2P Require Import Harness Client Cluster ClusterRun ClusterRules RunRules Blind Replay Sweep Shrink.
Local Open Scope Z_scope.

(** ** How a command stops early *)

(** [std::process::exit(2)], a panic, and threads that have not all returned: the
    interleaving given is not a whole one. *)
Inductive Stop : Type :=
| UsageError
| Panicked
| Unfinished.
Notation Cmd := (Result Stop).

Definition or_panic {A} (o : option A) : Cmd A := match o with Some a => Ok a | None => Err Panicked end.
Definition or_usage {A} (o : option A) : Cmd A := match o with Some a => Ok a | None => Err UsageError end.

Definition u64_mul (a b : Z) : option Z := if a * b <=? U64_MAX then Some (a * b) else None.

(** ** Strings *)

(** [strip_prefix("--")] *)
Definition strip_dashes (s : string) : option string :=
  match s with String "-" (String "-" name) => Some name | _ => None end.
Definition starts_with_dashes (s : string) : bool := bool_decide (is_Some (strip_dashes s)).

(** [split_once('=')] *)
Fixpoint split_once (s : string) : option (string * string) :=
  match s with
  | EmptyString => None
  | String c s =>
      if Ascii.eqb c "=" then Some (EmptyString, s)
      else '(k, v) ← split_once s; Some (String c k, v)
  end.

(** [replace('_', "")] *)
Fixpoint remove_underscores (s : string) : string :=
  match s with
  | EmptyString => EmptyString
  | String c s => if Ascii.eqb c "_" then remove_underscores s else String c (remove_underscores s)
  end.

(** [str::parse::<u64>]: an optional plus sign and at least one digit, and the value
    has to fit. *)
Definition digit (c : ascii) : option Z :=
  let n := Z.of_N (N_of_ascii c) - 48 in if (0 <=? n) && (n <=? 9) then Some n else None.
Fixpoint parse_digits (acc : Z) (s : string) : option Z :=
  match s with
  | EmptyString => Some acc
  | String c s =>
      d ← digit c;
      let acc := acc * 10 + d in
      if acc <=? U64_MAX then parse_digits acc s else None
  end.
Definition u64_from_str (s : string) : option Z :=
  match s with
  | EmptyString | String "+" EmptyString => None
  | String "+" s => parse_digits 0 s
  | s => parse_digits 0 s
  end.

(** ** Arguments *)

Notation Args := (gmap string string).

(** [i] moves over one argument or two; what is left of them is the list. *)
Fixpoint args_parse_from (flags : Args) (argv : list string) : Result string Args :=
  match argv with
  | [] => Ok flags
  | arg :: rest =>
      match strip_dashes arg with
      | None => Err arg
      | Some name =>
          match split_once name with
          | Some (k, v) => args_parse_from (<[k := v]> flags) rest
          | None =>
              match rest with
              | next :: rest' =>
                  if starts_with_dashes next
                  then args_parse_from (<[name := "true"%string]> flags) rest
                  else args_parse_from (<[name := next]> flags) rest'
              | [] => args_parse_from (<[name := "true"%string]> flags) rest
              end
          end
      end
  end.
Definition args_parse (argv : list string) : Result string Args := args_parse_from ∅ argv.

Definition args_get (args : Args) (key : string) : option string := args !! key.
Definition args_has (args : Args) (key : string) : bool := bool_decide (is_Some (args !! key)).
Definition args_opt_u64 (args : Args) (key : string) : Cmd (option Z) :=
  match args_get args key with
  | None => Ok None
  | Some raw => v ← or_usage (u64_from_str (remove_underscores raw)); Ok (Some v)
  end.
Definition args_u64 (args : Args) (key : string) (dflt : Z) : Cmd Z :=
  o ← args_opt_u64 args key; Ok (default dflt o).
Definition args_usize (args : Args) (key : string) (dflt : nat) : Cmd nat :=
  o ← args_opt_u64 args key; Ok (from_option Z.to_nat dflt o).
Definition args_level (args : Args) : Cmd (option Level) :=
  match args_get args "trace" with
  | None => Ok None
  | Some raw => l ← or_usage (level_parse raw); Ok (Some l)
  end.

(** ** The configuration *)

(** A duration in milliseconds. *)
Definition args_millis (args : Args) (key : string) (dflt : Nanos) : Cmd Nanos :=
  ms ← args_u64 args key (dflt / MILLIS); or_panic (u64_mul ms MILLIS).

Definition config_switches (args : Args) (cfg : SimConfig) : SimConfig :=
  let cfg :=
    if args_has args "reconfig"
    then with_reconfig (if (sx_spares cfg =? 0)%nat then 2%nat else sx_spares cfg) cfg else cfg in
  let cfg :=
    if args_has args "no-stickiness"
    then cfg ⟨ sx_raft := (sx_raft cfg) ⟨ cfg_leader_stickiness := false ⟩ ⟩ else cfg in
  let cfg :=
    if args_has args "no-peer-isolation"
    then cfg ⟨ sx_faults := (sx_faults cfg) ⟨ fc_peer_isolate_weight := 0 ⟩ ⟩ else cfg in
  let cfg :=
    if args_has args "no-prevote" then cfg ⟨ sx_raft := (sx_raft cfg) ⟨ cfg_pre_vote := false ⟩ ⟩ else cfg in
  if args_has args "no-fresh-leader-reconfig"
  then cfg ⟨ sx_faults := (sx_faults cfg) ⟨ fc_fresh_leader_reconfig_ppm := 0 ⟩ ⟩ else cfg.

(** An option that names a value, if it is there. *)
Definition set_named {A} (args : Args) (key : string) (parse : string -> option A)
  (set : A -> SimConfig -> SimConfig) (cfg : SimConfig) : Cmd SimConfig :=
  match args_get args key with
  | None => Ok cfg
  | Some raw => a ← or_usage (parse raw); Ok (set a cfg)
  end.
(** An option that is a number, if it is there. *)
Definition set_number (args : Args) (key : string) (set : Z -> SimConfig -> SimConfig) (cfg : SimConfig)
  : Cmd SimConfig :=
  o ← args_opt_u64 args key; Ok (from_option (fun n => set n cfg) cfg o).

Definition config (args : Args) : Cmd SimConfig :=
  seed ← args_u64 args "seed" 1;
  let cfg := if args_has args "benign" then sim_config_benign seed else with_seed seed in
  servers ← args_usize args "servers" (sx_servers cfg);
  clients ← args_usize args "clients" (sx_clients cfg);
  keys ← args_usize args "keys" (wl_keys (sx_workload cfg));
  duration ← args_millis args "duration" (sx_duration cfg);
  settle ← args_millis args "settle" (sx_settle cfg);
  drain ← args_millis args "drain" (sx_drain cfg);
  let cfg := cfg ⟨ sx_servers := servers ⟩ ⟨ sx_clients := clients ⟩
    ⟨ sx_workload := (sx_workload cfg) ⟨ wl_keys := keys ⟩ ⟩ ⟨ sx_duration := duration ⟩ ⟨ sx_settle := settle ⟩
    ⟨ sx_drain := drain ⟩ in
  level ← args_level args;
  let cfg := match level with Some l => cfg ⟨ sx_trace_level := l ⟩ | None => cfg end in
  let cfg := if args_has args "no-liveness" then cfg ⟨ sx_check_liveness := false ⟩ else cfg in
  cfg ← set_number args "spares" (fun n c => c ⟨ sx_spares := Z.to_nat n ⟩) cfg;
  let cfg := config_switches args cfg in
  cfg ← set_named args "reads" read_mode_parse (fun m c => c ⟨ sx_raft := (sx_raft c) ⟨ cfg_read_mode := m ⟩ ⟩) cfg;
  cfg ← set_named args "bug" bug_parse with_bug cfg;
  let cfg :=
    if args_has args "quorum-loss"
    then cfg ⟨ sx_faults := (sx_faults cfg) ⟨ fc_allow_quorum_loss := true ⟩ ⟩ ⟨ sx_check_liveness := false ⟩
    else cfg in
  cfg ← set_number args "max-events" (fun n c => c ⟨ sx_max_events := n ⟩) cfg;
  cfg ← set_number args "snapshot-threshold"
    (fun n c => c ⟨ sx_raft := (sx_raft c) ⟨ cfg_snapshot_threshold := n ⟩ ⟩) cfg;
  cfg ← set_number args "max-batch"
    (fun n c => c ⟨ sx_raft := (sx_raft c) ⟨ cfg_max_batch := Nat.max (Z.to_nat n) 1 ⟩ ⟩) cfg;
  cfg ← set_number args "check-durability-every" (fun n c => c ⟨ sx_check_durability_every := Z.max n 1 ⟩) cfg;
  Ok (normalise cfg).

(** ** Commands *)

(** A whole sweep, the threads interleaved as the choices say. *)
Definition sweep (choices : list (nat * bool)) (cfg : SweepConfig) : Cmd SweepResult :=
  match sweep_steps cfg choices (sweep_start cfg) with
  | Some st =>
      if bool_decide (Forall finished (pw_workers st)) then or_panic (sweep_result st) else Err Unfinished
  | None => Err Unfinished
  end.

(** [i32::from] *)
Definition i32_from (b : bool) : Z := if b then 1 else 0.

Definition cmd_run (args : Args) : Cmd Z :=
  cfg ← config args;
  outcome ← or_panic (run cfg);
  Ok (i32_from (run_failed outcome)).

(** Threads the machine has ([available_parallelism]) and how they interleave in the
    [n]th sweep of the command. *)
Section Machine.
Context (default_threads : nat) (choices : nat -> list (nat * bool)).

Definition cmd_sweep (args : Args) : Cmd Z :=
  base ← config args;
  start_seed ← args_u64 args "from" 1;
  count ← args_u64 args "seeds" 200;
  threads ← args_usize args "threads" default_threads;
  stop_after ← args_usize args "stop-after" 0;
  let cfg := mkSweepConfig base start_seed count threads stop_after in
  past ← or_panic (u64_add start_seed count);
  (** The last seed of the range, for the heading. *)
  _ ← or_panic (if past =? 0 then None else Some (past - 1));
  result ← sweep (choices 0%nat) cfg;
  Ok (i32_from (negb (sweep_passed result))).

Definition cmd_replay (args : Args) : Cmd Z :=
  cfg ← config args;
  level ← args_level args;
  runs ← args_usize args "runs" 2;
  result ← or_panic (replay cfg (default LInfo level) runs);
  Ok (if negb (replay_deterministic result) then 1 else i32_from (run_failed (rp_outcome result))).

Definition cmd_shrink (args : Args) : Cmd Z :=
  cfg ← config args;
  budget ← args_usize args "budget" 120;
  result ← or_panic (shrink cfg budget);
  Ok (match result with None => 0 | Some _ => 1 end).

(** The [i]th sweep of [bugs]. *)
Definition measure (args : Args) (seeds : Z) (threads : nat) (i : nat) (base : SimConfig) : Cmd SweepResult :=
  start_seed ← args_u64 args "from" 1;
  sweep (choices i) (mkSweepConfig base start_seed seeds threads 0).

(** The configuration a defect is measured with. *)
Definition bug_config (args : Args) (bug : InjectedBug) : Cmd SimConfig :=
  cfg ← config args;
  let base := with_bug bug cfg in
  Ok (if bool_decide (bug = ConfigBeforeTermCommit) && negb (fc_enable_reconfig (sx_faults base))
      then with_reconfig (if (sx_spares base =? 0)%nat then 2%nat else sx_spares base) base
      else base).

(** Nothing caught, or only runs that stopped making progress. *)
Definition unseen (result : SweepResult) : bool :=
  let caught := length (sr_failures result) in
  let only_stalls := (0 <? caught)%nat &&
    forallb (fun kv : string * Z => (kv.1 =? "no_progress_after_recovery")%string)
      (map_to_list (sr_by_signature result)) in
  (caught =? 0)%nat || only_stalls.

Fixpoint measure_bugs (args : Args) (seeds : Z) (threads : nat) (i : nat) (bugs : list InjectedBug) (ok : bool)
  : Cmd bool :=
  match bugs with
  | [] => Ok ok
  | bug :: bugs =>
      base ← bug_config args bug;
      result ← measure args seeds threads i base;
      measure_bugs args seeds threads (S i) bugs (if unseen result then false else ok)
  end.

Definition cmd_bugs (args : Args) : Cmd Z :=
  seeds ← args_u64 args "seeds" 300;
  threads ← args_usize args "threads" default_threads;
  ok ← measure_bugs args seeds threads 0 all_bugs true;
  cfg ← config args;
  control ← measure args seeds threads (length all_bugs) (with_bug BugNone cfg);
  let ok := if negb (sweep_passed control) then false else ok in
  Ok (i32_from (negb ok)).

Definition cmd_demo : Cmd Z :=
  clean ← or_panic (run (sim_config_benign 1));
  let hostile := normalise ((with_seed 1) ⟨ sx_duration := 8 * SECONDS ⟩ ⟨ sx_settle := 10 * SECONDS ⟩
    ⟨ sx_drain := 3 * SECONDS ⟩) in
  chaos ← or_panic (run hostile);
  r ← or_panic (replay hostile LOff 2);
  result ← sweep (choices 0%nat) (mkSweepConfig hostile 1 24 default_threads 0);
  Ok (i32_from (run_failed clean || run_failed chaos || negb (sweep_passed result) ||
                negb (replay_deterministic r))).

Definition command (name : string) (args : Args) : Cmd Z :=
  if (name =? "run")%string then cmd_run args
  else if (name =? "sweep")%string then cmd_sweep args
  else if (name =? "replay")%string then cmd_replay args
  else if (name =? "shrink")%string then cmd_shrink args
  else if (name =? "bugs")%string then cmd_bugs args
  else if (name =? "demo")%string then cmd_demo
  else if (name =? "-h")%string || (name =? "--help")%string || (name =? "help")%string then Ok 0
  else Ok 2.

(** The exit status; a usage error found inside a command exits with 2. *)
Definition main (argv : list string) : Cmd Z :=
  match argv with
  | [] => Ok 2
  | name :: rest =>
      match args_parse rest with
      | Err _ => Ok 2
      | Ok args =>
          match command name args with
          | Err UsageError => Ok 2
          | r => r
          end
      end
  end.
End Machine.
