(* ===== verification/CliRules.v ===== *)
(** * CliRules: options are read as written, and exit statuses are true

    The parser of arguments accepts exactly the lists of options; the
    configuration is what the options ask for; and the commands that repeat, sweep
    or measure runs end with the status that single runs of the same seeds end
    with. *)
From Stdlib Require Import String Ascii.
From stdpp Require Import strings pretty.
From S2P Require Import Prelude Codec Crc LogFormat RaftLog Recovery Durable Messages Config StateMachine Io Rng Draw.
From S2P Require Import Disk Faults Scheduler Net Trace World Oracle RaftState Raft History Server Invariants Durability.
From S2P Require Import Harness Client Cluster ClusterRun ClusterRules RunRules Blind Replay Sweep Shrink Cli.
Local Open Scope Z_scope.

(** ** Options as they are written *)

(** [--k=v], [--k v] and [--k]. *)
Inductive Opt : Type :=
| OptIs (k v : string)
| OptValue (k v : string)
| OptFlag (k : string).
Definition opt_key (o : Opt) : string := match o with OptIs k _ | OptValue k _ | OptFlag k => k end.
Definition opt_value (o : Opt) : string := match o with OptIs _ v | OptValue _ v => v | OptFlag _ => "true" end.
Definition dashed (s : string) : string := String "-" (String "-" s).
Definition opt_print (o : Opt) : list string :=
  match o with
  | OptIs k v => [dashed (k ++ String "=" v)]
  | OptValue k v => [dashed k; v]
  | OptFlag k => [dashed k]
  end.
(** The name holds no equals sign, and a value apart is not itself an option. *)
Definition opt_ok (o : Opt) : Prop :=
  split_once (opt_key o) = None /\ match o with OptValue _ v => starts_with_dashes v = false | _ => True end.
Definition opts_print (opts : list Opt) : list string := mjoin (opt_print <$> opts).
(** The last of the options with one name counts. *)
Definition opts_map (flags : Args) (opts : list Opt) : Args :=
  foldl (fun m o => <[opt_key o := opt_value o]> m) flags opts.

Lemma strip_dashes_Some s name : strip_dashes s = Some name <-> s = dashed name.
Proof.
  split; [|by intros ->]. unfold strip_dashes, dashed.
  repeat case_match; try done. by intros [= ->].
Qed.

Lemma split_once_app k v : split_once k = None -> split_once (k ++ String "=" v) = Some (k, v).
Proof.
  induction k as [|c k IH]; [done|]. simpl. destruct (Ascii.eqb_spec c "="); [done|].
  destruct (split_once k) as [[]|]; [done|]. intros _. by rewrite IH.
Qed.

Lemma split_once_Some s k v : split_once s = Some (k, v) -> s = (k ++ String "=" v)%string /\ split_once k = None.
Proof.
  revert k. induction s as [|c s IH]; intros k; [done|]. simpl. destruct (Ascii.eqb_spec c "=") as [->|Hc].
  { by intros [= <- <-]. }
  destruct (split_once s) as [[k' v']|]; [|done]. simpl. intros [= <- <-].
  destruct (IH k' eq_refl) as [-> Hk]. split; [done|]. simpl.
  destruct (Ascii.eqb_spec c "="); [done|]. by rewrite Hk.
Qed.

Lemma starts_dashed s : starts_with_dashes (dashed s) = true.
Proof. done. Qed.

Lemma opts_print_cons o opts : opts_print (o :: opts) = opt_print o ++ opts_print opts.
Proof. done. Qed.

(** Every printed option list is empty or begins with dashes. *)
Lemma opts_print_head opts : opts_print opts = [] \/ exists s rest, opts_print opts = dashed s :: rest.
Proof. destruct opts as [|[k v|k v|k] opts]; [by left|right; by do 2 eexists..]. Qed.

Lemma args_parse_print flags opts :
  Forall opt_ok opts -> args_parse_from flags (opts_print opts) = Ok (opts_map flags opts).
Proof.
  intros Hok. revert flags. induction Hok as [|o opts [Hk Hv] _ IH]; intros flags; [done|].
  rewrite opts_print_cons. destruct o as [k v|k v|k]; simpl in Hk |- *.
  - rewrite (split_once_app k v Hk). apply IH.
  - rewrite Hk, Hv. apply IH.
  - rewrite Hk. destruct (opts_print_head opts) as [E|(s & rest & E)].
    + specialize (IH (<[k := "true"%string]> flags)). rewrite E in *. apply IH.
    + specialize (IH (<[k := "true"%string]> flags)). rewrite E in *. rewrite starts_dashed. apply IH.
Qed.

(** What was read so far is a list of options in every case. *)
Lemma args_parse_inv n flags argv :
  (length argv <= n)%nat ->
  exists opts, Forall opt_ok opts /\
    match args_parse_from flags argv with
    | Ok flags' => argv = opts_print opts /\ flags' = opts_map flags opts
    | Err arg => strip_dashes arg = None /\ exists rest, argv = opts_print opts ++ arg :: rest
    end.
Proof.
  revert flags argv. induction n as [|n IH]; intros flags argv Hn.
  { destruct argv; [|simpl in Hn; lia]. by exists []. }
  (** One option [o] before a rest that is shorter. *)
  assert (Hstep : forall o rest, opt_ok o -> (length rest <= n)%nat ->
    exists opts, Forall opt_ok opts /\
      match args_parse_from (<[opt_key o := opt_value o]> flags) rest with
      | Ok flags' => opt_print o ++ rest = opts_print opts /\ flags' = opts_map flags opts
      | Err arg => strip_dashes arg = None /\ exists rest', opt_print o ++ rest = opts_print opts ++ arg :: rest'
      end).
  { intros o rest Ho Hl. destruct (IH (<[opt_key o := opt_value o]> flags) rest Hl) as (opts & Hok & H).
    exists (o :: opts). split; [by constructor|]. rewrite opts_print_cons.
    destruct (args_parse_from _ rest) as [flags'|arg].
    - destruct H as [-> ->]. done.
    - destruct H as (Ha & rest' & ->). split; [done|]. exists rest'. by rewrite <-app_assoc. }
  destruct argv as [|arg rest]; [by exists []|]. simpl in Hn |- *.
  destruct (strip_dashes arg) as [name|] eqn:Ea.
  2: { exists []. split; [done|]. split; [done|]. by exists rest. }
  apply strip_dashes_Some in Ea as ->. destruct (split_once name) as [[k v]|] eqn:Es.
  { apply split_once_Some in Es as [-> Hk]. apply (Hstep (OptIs k v) rest); [done|lia]. }
  destruct rest as [|next rest'].
  { apply (Hstep (OptFlag name) []); [done|simpl; lia]. }
  destruct (starts_with_dashes next) eqn:En.
  - apply (Hstep (OptFlag name) (next :: rest')); [done|simpl in *; lia].
  - apply (Hstep (OptValue name next) rest'); [done|simpl in *; lia].
Qed.

(** ** Numbers *)

Lemma digit_pretty r : (r < 10)%N -> digit (pretty_N_char r) = Some (Z.of_N r).
Proof.
  intros Hr. assert (Hc : r = 0%N \/ r = 1%N \/ r = 2%N \/ r = 3%N \/ r = 4%N \/ r = 5%N \/ r = 6%N \/ r = 7%N \/ r = 8%N \/ r = 9%N)
    by lia.
  by repeat destruct Hc as [->|Hc]; subst.
Qed.

Lemma parse_pretty x s :
  Z.of_N x <= U64_MAX -> parse_digits 0 (pretty_N_go x s) = parse_digits (Z.of_N x) s.
Proof.
  revert s. induction (N.lt_wf_0 x) as [x _ IH]; intros s Hx. destruct (decide (x = 0%N)) as [->|Hne].
  { by rewrite pretty_N_go_0. }
  rewrite pretty_N_go_step by lia. pose proof (N.div_mod x 10 ltac:(done)) as Hdiv.
  pose proof (N.mod_lt x 10 ltac:(done)) as Hmod. rewrite IH.
  2: { apply N.div_lt; lia. }
  2: { etrans; [|exact Hx]. apply N2Z.inj_le, N.Div0.div_le_upper_bound. clear. lia. }
  cbn [parse_digits]. rewrite digit_pretty by done. cbn [mbind option_bind].
  replace (Z.of_N (x / 10) * 10 + Z.of_N (x mod 10)) with (Z.of_N x) by lia.
  by rewrite (proj2 (Z.leb_le _ _) Hx).
Qed.

(** A decimal numeral begins with a digit. *)
Lemma pretty_head x s : (0 < x)%N -> exists c rest, pretty_N_go x s = String c rest /\ is_Some (digit c).
Proof.
  revert s. induction (N.lt_wf_0 x) as [x _ IH]; intros s Hx. rewrite pretty_N_go_step by done.
  destruct (decide (x / 10 = 0)%N) as [E|E].
  - rewrite E, pretty_N_go_0. do 2 eexists. split; [done|]. rewrite digit_pretty; [done|]. by apply N.mod_lt.
  - apply IH; [by apply N.div_lt|]. by apply N.neq_0_lt_0.
Qed.

Lemma decimal_parsed n : 0 <= n <= U64_MAX -> u64_from_str (decimal n) = Some n.
Proof.
  intros Hn. unfold decimal, pretty, pretty_N. case_decide as E.
  { by assert (n = 0) as -> by lia. }
  destruct (pretty_head (Z.to_N n) "" ltac:(lia)) as (c & rest & Eg & [d Hd]).
  transitivity (parse_digits 0 (pretty_N_go (Z.to_N n) "")).
  - rewrite Eg. unfold u64_from_str. by repeat (case_match; try done).
  - rewrite parse_pretty; simpl; [f_equal|]; lia.
Qed.

(** Digits have no underscores. *)
Lemma pretty_underscores x s : remove_underscores (pretty_N_go x s) = pretty_N_go x (remove_underscores s).
Proof.
  revert s. induction (N.lt_wf_0 x) as [x _ IH]; intros s. destruct (decide (x = 0%N)) as [->|Hne].
  { by rewrite !pretty_N_go_0. }
  rewrite !(pretty_N_go_step x) by lia. rewrite IH by (apply N.div_lt; lia). f_equal. cbn [remove_underscores].
  pose proof (N.mod_lt x 10 ltac:(done)) as Hmod. revert Hmod. generalize (x mod 10)%N as r. intros r Hr.
  assert (Hc : r = 0%N \/ r = 1%N \/ r = 2%N \/ r = 3%N \/ r = 4%N \/ r = 5%N \/ r = 6%N \/ r = 7%N \/ r = 8%N \/ r = 9%N)
    by lia.
  by repeat destruct Hc as [->|Hc]; subst.
Qed.

Lemma decimal_underscores n : remove_underscores (decimal n) = decimal n.
Proof. unfold decimal, pretty, pretty_N. case_decide; [done|]. by rewrite pretty_underscores. Qed.

(** ** Options one by one *)

Lemma Result_bind_Ok {E A B} (m : Result E A) (f : A -> Result E B) b :
  m ≫= f = Ok b <-> exists a, m = Ok a /\ f a = Ok b.
Proof. destruct m as [a|e]; simpl; naive_solver. Qed.
Lemma or_panic_Ok {A} (o : option A) a : or_panic o = Ok a <-> o = Some a.
Proof. destruct o; simpl; naive_solver. Qed.
Lemma or_usage_Ok {A} (o : option A) a : or_usage o = Ok a <-> o = Some a.
Proof. destruct o; simpl; naive_solver. Qed.

Section Options.
Context (args : Args) (key s : string).

Lemma get_other k : k <> key -> args_get (<[key := s]> args) k = args_get args k.
Proof. intros. by apply lookup_insert_ne. Qed.
Lemma has_other k : k <> key -> args_has (<[key := s]> args) k = args_has args k.
Proof. intros. unfold args_has. by rewrite lookup_insert_ne. Qed.
Lemma opt_u64_other k : k <> key -> args_opt_u64 (<[key := s]> args) k = args_opt_u64 args k.
Proof. intros. unfold args_opt_u64. by rewrite get_other. Qed.
Lemma u64_other k d : k <> key -> args_u64 (<[key := s]> args) k d = args_u64 args k d.
Proof. intros. unfold args_u64. by rewrite opt_u64_other. Qed.
Lemma usize_other k d : k <> key -> args_usize (<[key := s]> args) k d = args_usize args k d.
Proof. intros. unfold args_usize. by rewrite opt_u64_other. Qed.
Lemma millis_other k d : k <> key -> args_millis (<[key := s]> args) k d = args_millis args k d.
Proof. intros. unfold args_millis. by rewrite u64_other. Qed.
Lemma level_other : key <> "trace"%string -> args_level (<[key := s]> args) = args_level args.
Proof. intros. unfold args_level. by rewrite get_other. Qed.

Lemma opt_u64_decimal n :
  0 <= n <= U64_MAX -> remove_underscores s = decimal n -> args_opt_u64 (<[key := s]> args) key = Ok (Some n).
Proof.
  intros Hn Hs. unfold args_opt_u64, args_get. rewrite lookup_insert_eq, Hs, decimal_parsed; done.
Qed.
End Options.

(** ** The seed changes nothing but the seed *)

Definition reseed (n : Z) (c : SimConfig) : SimConfig := c ⟨ sx_seed := n ⟩.

Section Seed.
Context (args : Args) (s : string) (n : Z) (Hn : 0 <= n <= U64_MAX) (Hs : remove_underscores s = decimal n).
Notation args' := (<["seed"%string := s]> args).

Lemma set_number_seed key set c c' :
  key <> "seed"%string -> (forall x c, set x (reseed n c) = reseed n (set x c)) ->
  set_number args key set c = Ok c' -> set_number args' key set (reseed n c) = Ok (reseed n c').
Proof using.
  intros Hk Hset. unfold set_number. rewrite opt_u64_other by done. intros (o & -> & [= <-])%Result_bind_Ok.
  simpl. destruct o; [|done]. simpl. by rewrite Hset.
Qed.

Lemma set_named_seed {A} key (parse : string -> option A) set c c' :
  key <> "seed"%string -> (forall x c, set x (reseed n c) = reseed n (set x c)) ->
  set_named args key parse set c = Ok c' -> set_named args' key parse set (reseed n c) = Ok (reseed n c').
Proof using.
  intros Hk Hset. unfold set_named. rewrite get_other by done. destruct (args_get args key) as [raw|].
  - intros (a & -> & [= <-])%Result_bind_Ok. simpl. by rewrite Hset.
  - by intros [= <-].
Qed.

Lemma config_switches_seed c : config_switches args' (reseed n c) = reseed n (config_switches args c).
Proof using.
  unfold config_switches. rewrite !has_other by done.
  by destruct (args_has args "reconfig"), (args_has args "no-stickiness"), (args_has args "no-peer-isolation"),
    (args_has args "no-prevote"), (args_has args "no-fresh-leader-reconfig").
Qed.

(** [sim … --seed N] runs what [sim …] runs, from another seed. *)
Lemma config_reseed cfg : config args = Ok cfg -> config args' = Ok (reseed n cfg).
Proof using Hn Hs.
  unfold config. intros (old & _ & H)%Result_bind_Ok.
  assert (Eseed : args_u64 args' "seed" 1 = Ok n).
  { unfold args_u64. by rewrite (opt_u64_decimal _ _ _ n). }
  rewrite Eseed. cbn [mbind Result_bind]. rewrite !has_other, !usize_other, !millis_other, level_other by done.
  assert (Ecfg : (if args_has args "benign" then sim_config_benign n else with_seed n) =
    reseed n (if args_has args "benign" then sim_config_benign old else with_seed old)) by by destruct (args_has args "benign").
  rewrite Ecfg. clear Eseed Ecfg. revert H.
  generalize (if args_has args "benign" then sim_config_benign old else with_seed old) as c. intros c.
  change (sx_servers (reseed n c)) with (sx_servers c). change (sx_clients (reseed n c)) with (sx_clients c).
  change (sx_workload (reseed n c)) with (sx_workload c). change (sx_duration (reseed n c)) with (sx_duration c).
  change (sx_settle (reseed n c)) with (sx_settle c). change (sx_drain (reseed n c)) with (sx_drain c).
  intros (servers & -> & H)%Result_bind_Ok. apply Result_bind_Ok in H as (clients & -> & H).
  apply Result_bind_Ok in H as (keys & -> & H). apply Result_bind_Ok in H as (duration & -> & H).
  apply Result_bind_Ok in H as (settle & -> & H). apply Result_bind_Ok in H as (drain & -> & H).
  apply Result_bind_Ok in H as (level & -> & H). cbn [mbind Result_bind]. revert H.
  intros (c1 & H1 & H)%Result_bind_Ok. apply Result_bind_Ok in H as (c2 & H2 & H).
  apply Result_bind_Ok in H as (c3 & H3 & H). apply Result_bind_Ok in H as (c4 & H4 & H).
  apply Result_bind_Ok in H as (c5 & H5 & H). apply Result_bind_Ok in H as (c6 & H6 & H).
  apply Result_bind_Ok in H as (c7 & H7 & H). injection H as <-.
  apply Result_bind_Ok. exists (reseed n c1). split.
  { eapply (set_number_seed _ _ _ c1) in H1; [|done..]. rewrite <-H1. f_equal. by destruct (args_has args "no-liveness"), level. }
  rewrite config_switches_seed. apply Result_bind_Ok. exists (reseed n c2). split; [by apply set_named_seed|].
  apply Result_bind_Ok. exists (reseed n c3). split; [by apply set_named_seed|].
  apply Result_bind_Ok. exists (reseed n c4). split.
  { eapply (set_number_seed _ _ _ c4) in H4; [|done..]. rewrite <-H4. f_equal. by destruct (args_has args "quorum-loss"). }
  apply Result_bind_Ok. exists (reseed n c5). split; [by apply set_number_seed|].
  apply Result_bind_Ok. exists (reseed n c6). split; [by apply set_number_seed|].
  apply Result_bind_Ok. exists (reseed n c7). split; [by apply set_number_seed|]. done.
Qed.
End Seed.

(** ** The configuration is what the options ask for *)

Lemma set_number_Ok args key set c c' :
  set_number args key set c = Ok c' ->
  exists o, args_opt_u64 args key = Ok o /\ c' = from_option (fun n => set n c) c o.
Proof. unfold set_number. by intros (o & Ho & [= <-])%Result_bind_Ok; eauto. Qed.

Lemma set_named_Ok {A} args key (parse : string -> option A) set c c' :
  set_named args key parse set c = Ok c' ->
  match args_get args key with None => c' = c | Some raw => exists a, parse raw = Some a /\ c' = set a c end.
Proof.
  unfold set_named. destruct (args_get args key); [|by intros [= <-]].
  intros (a & Ha%or_usage_Ok & [= <-])%Result_bind_Ok. eauto.
Qed.

(** A field that an option does not touch. *)
Lemma set_number_same {B} (f : SimConfig -> B) {args key set c c'} :
  set_number args key set c = Ok c' -> (forall n c, f (set n c) = f c) -> f c' = f c.
Proof. intros (o & _ & ->)%set_number_Ok Hf. destruct o; [apply Hf|done]. Qed.
Lemma set_named_same {A B} (f : SimConfig -> B) {args key} {parse : string -> option A} {set c c'} :
  set_named args key parse set c = Ok c' -> (forall n c, f (set n c) = f c) -> f c' = f c.
Proof. intros H%set_named_Ok Hf. case_match; [destruct H as (a & _ & ->); apply Hf|by subst]. Qed.

(** A number option sets its field. *)
Lemma set_number_field (f : SimConfig -> Z) {args key set c c'} :
  set_number args key set c = Ok c' -> (forall n c, f (set n c) = n) ->
  args_u64 args key (f c) = Ok (f c').
Proof.
  intros (o & Ho & ->)%set_number_Ok Hf. unfold args_u64. rewrite Ho. destruct o; simpl; by rewrite ?Hf.
Qed.

Lemma parse_digits_range acc s n : 0 <= acc <= U64_MAX -> parse_digits acc s = Some n -> 0 <= n <= U64_MAX.
Proof.
  revert acc. induction s as [|c s IH]; intros acc Hacc; simpl; [by intros [= <-]|].
  destruct (digit c) as [d|] eqn:Ed; [|done]. simpl.
  assert (Hd : 0 <= d).
  { unfold digit in Ed. case_match eqn:E; [|done]. injection Ed as <-. by apply andb_true_iff in E as [?%Z.leb_le _]. }
  destruct (Z.leb_spec (acc * 10 + d) U64_MAX); [|done]. apply IH. lia.
Qed.

Lemma u64_from_str_range s n : u64_from_str s = Some n -> 0 <= n <= U64_MAX.
Proof. unfold u64_from_str. repeat case_match; try done; by apply parse_digits_range. Qed.

Lemma args_u64_range args key d n : 0 <= d <= U64_MAX -> args_u64 args key d = Ok n -> 0 <= n <= U64_MAX.
Proof.
  intros Hd (o & Ho & [= <-])%Result_bind_Ok. revert Ho. unfold args_opt_u64. case_match; [|by intros [= <-]].
  intros (v & Hv%or_usage_Ok & [= <-])%Result_bind_Ok. by apply u64_from_str_range in Hv.
Qed.

Lemma args_millis_Ok args key d x :
  args_millis args key d = Ok x <->
  exists ms, args_u64 args key (d / MILLIS) = Ok ms /\ x = ms * MILLIS /\ ms * MILLIS <= U64_MAX.
Proof.
  unfold args_millis. rewrite Result_bind_Ok. apply exist_proper. intros ms. rewrite or_panic_Ok. unfold u64_mul.
  destruct (Z.leb_spec (ms * MILLIS) U64_MAX); naive_solver lia.
Qed.

(** What an option that names a value has to say. *)
Definition named {A} (args : Args) (key : string) (parse : string -> option A) (dflt : A) : option A :=
  from_option parse (Some dflt) (args_get args key).

(** The values a configuration takes from the options directly. *)
Record config_values (args : Args) (cfg : SimConfig) : Prop := {
  cv_seed : args_u64 args "seed" 1 = Ok (sx_seed cfg);
  cv_servers : args_usize args "servers" 3 = Ok (sx_servers cfg);
  cv_clients : args_usize args "clients" 4 = Ok (sx_clients cfg);
  cv_keys : args_usize args "keys" 6 = Ok (wl_keys (sx_workload cfg));
  cv_max_events : args_u64 args "max-events" 4000000 = Ok (sx_max_events cfg);
  cv_threshold : args_u64 args "snapshot-threshold" 400 = Ok (cfg_snapshot_threshold (sx_raft cfg));
  cv_level : named args "trace" level_parse LOff = Some (sx_trace_level cfg);
  cv_reads : named args "reads" read_mode_parse ReadIndex = Some (cfg_read_mode (sx_raft cfg));
  cv_bug : named args "bug" bug_parse BugNone = Some (cfg_bug (sx_raft cfg));
}.

(** Times, in milliseconds; the faults end with their window. *)
Record config_times (args : Args) (cfg : SimConfig) : Prop := {
  ct_duration : args_millis args "duration" (if args_has args "benign" then 5 * SECONDS else 20 * SECONDS)
    = Ok (sx_duration cfg);
  ct_settle : args_millis args "settle" (if args_has args "benign" then 2 * SECONDS else 15 * SECONDS)
    = Ok (sx_settle cfg);
  ct_drain : args_millis args "drain" (if args_has args "benign" then 2 * SECONDS else 5 * SECONDS)
    = Ok (sx_drain cfg);
  ct_window : fc_window (sx_faults cfg) =
    (if args_has args "benign" then sx_duration cfg else Z.min (500 * MILLIS) (sx_duration cfg), sx_duration cfg);
}.

(** Switches. *)
Record config_flags (args : Args) (cfg : SimConfig) : Prop := {
  cg_net : sx_net cfg = if args_has args "benign" then net_config_reliable else net_config_hostile;
  cg_disk : sx_disk cfg = if args_has args "benign" then disk_config_reliable else disk_config_hostile;
  cg_faults : any_enabled (sx_faults cfg) = negb (args_has args "benign") || args_has args "reconfig";
  cg_reconfig : fc_enable_reconfig (sx_faults cfg) = args_has args "reconfig";
  cg_quorum : fc_allow_quorum_loss (sx_faults cfg) = args_has args "quorum-loss";
  cg_liveness : sx_check_liveness cfg = negb (args_has args "no-liveness" || args_has args "quorum-loss");
  cg_prevote : cfg_pre_vote (sx_raft cfg) = negb (args_has args "no-prevote");
  cg_stickiness : cfg_leader_stickiness (sx_raft cfg) = negb (args_has args "no-stickiness");
  cg_spares : args_has args "reconfig" = true -> (0 < sx_spares cfg)%nat;
  cg_batch : (1 <= cfg_max_batch (sx_raft cfg))%nat;
  cg_every : 1 <= sx_check_durability_every cfg;
}.

(** The switches reach nothing else. *)
Lemma config_switches_same {B} (f : SimConfig -> B) args c :
  (forall spares faults raft, f (c ⟨ sx_spares := spares ⟩ ⟨ sx_faults := faults ⟩ ⟨ sx_raft := raft ⟩) = f c) ->
  f (config_switches args c) = f c.
Proof.
  intros Hf.
  assert (H : exists spares faults raft,
    config_switches args c = c ⟨ sx_spares := spares ⟩ ⟨ sx_faults := faults ⟩ ⟨ sx_raft := raft ⟩).
  { set (c' := config_switches args c). exists (sx_spares c'), (sx_faults c'), (sx_raft c').
    unfold c', config_switches. destruct c.
    by destruct (args_has args "reconfig"), (args_has args "no-stickiness"), (args_has args "no-peer-isolation"),
      (args_has args "no-prevote"), (args_has args "no-fresh-leader-reconfig"). }
  destruct H as (spares & faults & raft & ->). apply Hf.
Qed.

Lemma config_switches_flags args c :
  let c' := config_switches args c in
  sx_spares c' = (if args_has args "reconfig" then if (sx_spares c =? 0)%nat then 2 else sx_spares c
                  else sx_spares c)%nat /\
  fc_enable_reconfig (sx_faults c') = args_has args "reconfig" || fc_enable_reconfig (sx_faults c) /\
  any_enabled (sx_faults c') = any_enabled (sx_faults c) || args_has args "reconfig" /\
  fc_allow_quorum_loss (sx_faults c') = fc_allow_quorum_loss (sx_faults c) /\
  fc_window (sx_faults c') = fc_window (sx_faults c) /\
  sx_raft c' = (sx_raft c)
    ⟨ cfg_leader_stickiness := negb (args_has args "no-stickiness") && cfg_leader_stickiness (sx_raft c) ⟩
    ⟨ cfg_pre_vote := negb (args_has args "no-prevote") && cfg_pre_vote (sx_raft c) ⟩.
Proof.
  destruct c as [? ? ? ? ? ? ? ? ? ? ? ? ? ? ? faults raft ? ?], raft. unfold config_switches, any_enabled. simpl.
  destruct (args_has args "reconfig"), (args_has args "no-stickiness"), (args_has args "no-peer-isolation"),
    (args_has args "no-prevote"), (args_has args "no-fresh-leader-reconfig"); simpl; rewrite ?orb_true_r, ?orb_false_r;
    split_and!; done.
Qed.

(** The stages of [config]: the options read first, and the configuration after each
    of the later ones. *)
Record config_stages (args : Args) (cfg : SimConfig) (c0 c1 c2 c3 c4 c5 c6 c7 : SimConfig) : Prop := {
  st_start : exists seed servers clients keys duration settle drain level,
    let benign := args_has args "benign" in
    args_u64 args "seed" 1 = Ok seed /\ args_usize args "servers" 3 = Ok servers /\
    args_usize args "clients" 4 = Ok clients /\ args_usize args "keys" 6 = Ok keys /\
    args_millis args "duration" (if benign then 5 * SECONDS else 20 * SECONDS) = Ok duration /\
    args_millis args "settle" (if benign then 2 * SECONDS else 15 * SECONDS) = Ok settle /\
    args_millis args "drain" (if benign then 2 * SECONDS else 5 * SECONDS) = Ok drain /\
    named args "trace" level_parse LOff = Some level /\
    c0 = (if benign then sim_config_benign seed else with_seed seed)
      ⟨ sx_servers := servers ⟩ ⟨ sx_clients := clients ⟩ ⟨ sx_workload := workload_config_default ⟨ wl_keys := keys ⟩ ⟩
      ⟨ sx_duration := duration ⟩ ⟨ sx_settle := settle ⟩ ⟨ sx_drain := drain ⟩ ⟨ sx_trace_level := level ⟩
      ⟨ sx_check_liveness := negb (args_has args "no-liveness") ⟩;
  st_spares : set_number args "spares" (fun n c => c ⟨ sx_spares := Z.to_nat n ⟩) c0 = Ok c1;
  st_reads : set_named args "reads" read_mode_parse
    (fun m c => c ⟨ sx_raft := (sx_raft c) ⟨ cfg_read_mode := m ⟩ ⟩) (config_switches args c1) = Ok c2;
  st_bug : set_named args "bug" bug_parse with_bug c2 = Ok c3;
  st_events : set_number args "max-events" (fun n c => c ⟨ sx_max_events := n ⟩)
    (if args_has args "quorum-loss"
     then c3 ⟨ sx_faults := (sx_faults c3) ⟨ fc_allow_quorum_loss := true ⟩ ⟩ ⟨ sx_check_liveness := false ⟩
     else c3) = Ok c4;
  st_threshold : set_number args "snapshot-threshold"
    (fun n c => c ⟨ sx_raft := (sx_raft c) ⟨ cfg_snapshot_threshold := n ⟩ ⟩) c4 = Ok c5;
  st_batch : set_number args "max-batch"
    (fun n c => c ⟨ sx_raft := (sx_raft c) ⟨ cfg_max_batch := Nat.max (Z.to_nat n) 1 ⟩ ⟩) c5 = Ok c6;
  st_every : set_number args "check-durability-every"
    (fun n c => c ⟨ sx_check_durability_every := Z.max n 1 ⟩) c6 = Ok c7;
  st_end : cfg = normalise c7;
}.

Lemma config_staged args cfg :
  config args = Ok cfg -> exists c0 c1 c2 c3 c4 c5 c6 c7, config_stages args cfg c0 c1 c2 c3 c4 c5 c6 c7.
Proof.
  unfold config. intros (seed & Hseed & H)%Result_bind_Ok. cbv zeta in H.
  apply Result_bind_Ok in H as (servers & E1 & H). apply Result_bind_Ok in H as (clients & E2 & H).
  apply Result_bind_Ok in H as (keys & E3 & H). apply Result_bind_Ok in H as (duration & E4 & H).
  apply Result_bind_Ok in H as (settle & E5 & H). apply Result_bind_Ok in H as (drain & E6 & H).
  apply Result_bind_Ok in H as (level & E7 & H).
  apply Result_bind_Ok in H as (c1 & H1 & H).
  apply Result_bind_Ok in H as (c2 & H2 & H). apply Result_bind_Ok in H as (c3 & H3 & H).
  apply Result_bind_Ok in H as (c4 & H4 & H). apply Result_bind_Ok in H as (c5 & H5 & H).
  apply Result_bind_Ok in H as (c6 & H6 & H). apply Result_bind_Ok in H as (c7 & H7 & H). injection H as <-.
  do 8 eexists. split; [|exact H1|exact H2|exact H3|exact H4|exact H5|exact H6|exact H7|done].
  exists seed, servers, clients, keys, duration, settle, drain, (default LOff level). split; [done|].
  assert (El : named args "trace" level_parse LOff = Some (default LOff level)).
  { unfold named, args_level in *. destruct (args_get args "trace"); [|by injection E7 as <-].
    apply Result_bind_Ok in E7 as (l & Hl%or_usage_Ok & [= <-]). exact Hl. }
  revert E1 E2 E3 E4 E5 E6 El. clear.
  destruct (args_has args "benign"), (args_has args "no-liveness"), level; intros; split_and!; try eassumption; done.
Qed.

Section Fields.
Context (args : Args) (cfg c0 c1 c2 c3 c4 c5 c6 c7 : SimConfig).
Context (St : config_stages args cfg c0 c1 c2 c3 c4 c5 c6 c7).

(** The configuration on which the switch [--quorum-loss] has been looked at. *)
Let c3' := if args_has args "quorum-loss"
  then c3 ⟨ sx_faults := (sx_faults c3) ⟨ fc_allow_quorum_loss := true ⟩ ⟩ ⟨ sx_check_liveness := false ⟩ else c3.

(** Fields only the first options set. *)
Lemma first_fields {B} (f : SimConfig -> B) :
  (forall spares faults raft c, f (c ⟨ sx_spares := spares ⟩ ⟨ sx_faults := faults ⟩ ⟨ sx_raft := raft ⟩) = f c) ->
  (forall n c, f (c ⟨ sx_spares := n ⟩) = f c) -> (forall n c, f (c ⟨ sx_raft := n ⟩) = f c) ->
  (forall n c, f (c ⟨ sx_max_events := n ⟩) = f c) -> (forall n c, f (c ⟨ sx_check_durability_every := n ⟩) = f c) ->
  (forall w b c, f (c ⟨ sx_faults := w ⟩ ⟨ sx_check_liveness := b ⟩) = f c) ->
  f c7 = f c0.
Proof using St.
  intros Hs Hp Hr He Hd Hl. destruct St.
  rewrite (set_number_same f st_every0 (fun _ _ => Hd _ _)),
    (set_number_same f st_batch0 (fun _ _ => Hr _ _)),
    (set_number_same f st_threshold0 (fun _ _ => Hr _ _)),
    (set_number_same f st_events0 (fun _ _ => He _ _)).
  transitivity (f c3); [destruct (args_has args "quorum-loss"); [apply Hl|done]|].
  rewrite (set_named_same f st_bug0 (fun _ _ => Hr _ _)),
    (set_named_same f st_reads0 (fun _ _ => Hr _ _)), config_switches_same by (intros; apply Hs).
  exact (set_number_same f st_spares0 (fun _ _ => Hp _ _)).
Qed.

(** Faults, apart from what the switches set. *)
Lemma late_faults : sx_faults c7 = sx_faults c3' /\ sx_faults c3 = sx_faults (config_switches args c1) /\
  sx_faults c1 = sx_faults c0 /\ sx_check_liveness c7 = sx_check_liveness c3' /\ sx_check_liveness c3 = sx_check_liveness c0.
Proof using St.
  destruct St. split_and!.
  - rewrite (set_number_same sx_faults st_every0 (fun _ _ => eq_refl)),
      (set_number_same sx_faults st_batch0 (fun _ _ => eq_refl)),
      (set_number_same sx_faults st_threshold0 (fun _ _ => eq_refl)).
    exact (set_number_same sx_faults st_events0 (fun _ _ => eq_refl)).
  - rewrite (set_named_same sx_faults st_bug0 (fun _ _ => eq_refl)).
    exact (set_named_same sx_faults st_reads0 (fun _ _ => eq_refl)).
  - exact (set_number_same sx_faults st_spares0 (fun _ _ => eq_refl)).
  - rewrite (set_number_same sx_check_liveness st_every0 (fun _ _ => eq_refl)),
      (set_number_same sx_check_liveness st_batch0 (fun _ _ => eq_refl)),
      (set_number_same sx_check_liveness st_threshold0 (fun _ _ => eq_refl)).
    exact (set_number_same sx_check_liveness st_events0 (fun _ _ => eq_refl)).
  - rewrite (set_named_same sx_check_liveness st_bug0 (fun _ _ => eq_refl)),
      (set_named_same sx_check_liveness st_reads0 (fun _ _ => eq_refl)), config_switches_same by done.
    exact (set_number_same sx_check_liveness st_spares0 (fun _ _ => eq_refl)).
Qed.

(** Raft settings: what the last stages leave of those before. *)
Lemma late_raft {B} (f : RaftConfig -> B) :
  (forall n r, f (r ⟨ cfg_snapshot_threshold := n ⟩) = f r) -> (forall n r, f (r ⟨ cfg_max_batch := n ⟩) = f r) ->
  f (sx_raft c7) = f (sx_raft c3).
Proof using St.
  intros H1 H2. destruct St.
  rewrite (set_number_same sx_raft st_every0 (fun _ _ => eq_refl)),
    (set_number_same (fun c => f (sx_raft c)) st_batch0 (fun _ _ => H2 _ _)),
    (set_number_same (fun c => f (sx_raft c)) st_threshold0 (fun _ _ => H1 _ _)),
    (set_number_same sx_raft st_events0 (fun _ _ => eq_refl)).
  by destruct (args_has args "quorum-loss").
Qed.
Lemma early_raft {B} (f : RaftConfig -> B) :
  (forall m r, f (r ⟨ cfg_read_mode := m ⟩) = f r) -> (forall b r, f (r ⟨ cfg_bug := b ⟩) = f r) ->
  f (sx_raft c3) = f (sx_raft (config_switches args c1)).
Proof using St.
  intros H1 H2. destruct St. rewrite (set_named_same (fun c => f (sx_raft c)) st_bug0 (fun _ _ => H2 _ _)).
  exact (set_named_same (fun c => f (sx_raft c)) st_reads0 (fun _ _ => H1 _ _)).
Qed.
Lemma first_raft : sx_raft c1 = raft_config_default.
Proof using St.
  destruct St. rewrite (set_number_same sx_raft st_spares0 (fun _ _ => eq_refl)).
  destruct st_start0 as (? & ? & ? & ? & ? & ? & ? & ? & _ & _ & _ & _ & _ & _ & _ & _ & ->).
  by destruct (args_has args "benign").
Qed.

Lemma switched_raft :
  sx_raft (config_switches args c1) = raft_config_default
    ⟨ cfg_leader_stickiness := negb (args_has args "no-stickiness") ⟩ ⟨ cfg_pre_vote := negb (args_has args "no-prevote") ⟩.
Proof using St.
  destruct (config_switches_flags args c1) as (_ & _ & _ & _ & _ & ->). rewrite first_raft. simpl. by rewrite !andb_true_r.
Qed.

Lemma events_ok : args_u64 args "max-events" 4000000 = Ok (sx_max_events c7).
Proof using St.
  pose proof St as []. destruct st_start0 as (? & ? & ? & ? & ? & ? & ? & ? & _ & _ & _ & _ & _ & _ & _ & _ & Ec).
  assert (Hd : sx_max_events c0 = 4000000) by (rewrite Ec; by destruct (args_has args "benign")).
  rewrite (set_number_same sx_max_events st_every0 (fun _ _ => eq_refl)),
    (set_number_same sx_max_events st_batch0 (fun _ _ => eq_refl)),
    (set_number_same sx_max_events st_threshold0 (fun _ _ => eq_refl)).
  rewrite <-(set_number_field sx_max_events st_events0 (fun _ _ => eq_refl)), <-Hd.
  f_equal. symmetry. transitivity (sx_max_events c3); [by destruct (args_has args "quorum-loss")|].
  rewrite (set_named_same sx_max_events st_bug0 (fun _ _ => eq_refl)),
    (set_named_same sx_max_events st_reads0 (fun _ _ => eq_refl)), config_switches_same by done.
  by rewrite (set_number_same sx_max_events st_spares0 (fun _ _ => eq_refl)).
Qed.

Lemma threshold_ok : args_u64 args "snapshot-threshold" 400 = Ok (cfg_snapshot_threshold (sx_raft c7)).
Proof using St.
  pose proof St as []. rewrite (set_number_same sx_raft st_every0 (fun _ _ => eq_refl)),
    (set_number_same (fun c => cfg_snapshot_threshold (sx_raft c)) st_batch0 (fun _ _ => eq_refl)).
  rewrite <-(set_number_field (fun c => cfg_snapshot_threshold (sx_raft c)) st_threshold0 (fun _ _ => eq_refl)).
  f_equal. symmetry. rewrite (set_number_same sx_raft st_events0 (fun _ _ => eq_refl)).
  transitivity (cfg_snapshot_threshold (sx_raft c3)); [by destruct (args_has args "quorum-loss")|].
  by rewrite (early_raft cfg_snapshot_threshold), switched_raft by done.
Qed.

Lemma named_ok :
  named args "reads" read_mode_parse ReadIndex = Some (cfg_read_mode (sx_raft c7)) /\
  named args "bug" bug_parse BugNone = Some (cfg_bug (sx_raft c7)).
Proof using St.
  pose proof St as []. pose proof switched_raft as Hr. unfold named. split.
  - rewrite (late_raft cfg_read_mode) by done.
    rewrite (set_named_same (fun c => cfg_read_mode (sx_raft c)) st_bug0 (fun _ _ => eq_refl)).
    apply set_named_Ok in st_reads0. destruct (args_get args "reads"); simpl.
    + by destruct st_reads0 as (m & -> & ->).
    + by rewrite st_reads0, Hr.
  - rewrite (late_raft cfg_bug) by done.
    pose proof (set_named_same (fun c => cfg_bug (sx_raft c)) st_reads0 (fun _ _ => eq_refl)) as E2. simpl in E2.
    apply set_named_Ok in st_bug0. destruct (args_get args "bug"); simpl.
    + by destruct st_bug0 as (m & -> & ->).
    + by rewrite st_bug0, E2, Hr.
Qed.

Lemma values_ok : config_values args cfg.
Proof using St.
  pose proof events_ok as Hev. pose proof threshold_ok as Hth. pose proof named_ok as [Hrd Hbug].
  pose proof (first_fields sx_seed) as F1. pose proof (first_fields sx_servers) as F2.
  pose proof (first_fields sx_clients) as F3. pose proof (first_fields sx_workload) as F4.
  pose proof (first_fields sx_trace_level) as F5. pose proof St as [].
  destruct st_start0 as (seed & servers & clients & keys & duration & settle & drain & level
    & E1 & E2 & E3 & E4 & _ & _ & _ & El & Ec). subst cfg. clear St.
  split; [change (args_u64 args "seed" 1 = Ok (sx_seed c7)); rewrite F1|
    change (args_usize args "servers" 3 = Ok (sx_servers c7)); rewrite F2|
    change (args_usize args "clients" 4 = Ok (sx_clients c7)); rewrite F3|
    change (args_usize args "keys" 6 = Ok (wl_keys (sx_workload c7))); rewrite F4|
    exact Hev|exact Hth|
    change (named args "trace" level_parse LOff = Some (sx_trace_level c7)); rewrite F5|exact Hrd|exact Hbug]; try done.
  all: rewrite Ec; by destruct (args_has args "benign").
Qed.

Lemma times_ok : config_times args cfg.
Proof using St.
  pose proof (first_fields sx_duration) as F1. pose proof (first_fields sx_settle) as F2.
  pose proof (first_fields sx_drain) as F3. pose proof late_faults as (L1 & L2 & L3 & _ & _).
  destruct (config_switches_flags args c1) as (_ & _ & _ & _ & Hw & _). pose proof St as [].
  destruct st_start0 as (seed & servers & clients & keys & duration & settle & drain & level
    & _ & _ & _ & _ & E5 & E6 & E7 & _ & Ec).
  assert (Ed : sx_duration c7 = duration) by (rewrite F1 by done; by rewrite Ec).
  assert (E : sx_duration cfg = duration) by (rewrite st_end0; exact Ed).
  split; rewrite ?E.
  - exact E5.
  - rewrite st_end0. change (sx_settle (normalise c7)) with (sx_settle c7). rewrite F2 by done. by rewrite Ec.
  - rewrite st_end0. change (sx_drain (normalise c7)) with (sx_drain c7). rewrite F3 by done. by rewrite Ec.
  - rewrite st_end0. unfold normalise. simpl. rewrite Ed. f_equal.
    assert (Ewin : fc_window (sx_faults c7) = fc_window (sx_faults c0)).
    { rewrite <-L3, <-Hw, <-L2, L1. by destruct (args_has args "quorum-loss"). }
    rewrite Ewin, Ec. apply args_millis_Ok in E5 as (ms & _ & Hd & Hmax).
    destruct (args_has args "benign"); [|done]. apply Z.min_r. simpl. lia.
Qed.

Lemma batch_ok : (1 <= cfg_max_batch (sx_raft c7))%nat.
Proof using St.
  pose proof switched_raft as Hr. pose proof (early_raft cfg_max_batch) as Hearly. pose proof St as [].
  rewrite (set_number_same sx_raft st_every0 (fun _ _ => eq_refl)).
  apply set_number_Ok in st_batch0 as ([n|] & _ & ->); simpl; [lia|].
  rewrite (set_number_same (fun c => cfg_max_batch (sx_raft c)) st_threshold0 (fun _ _ => eq_refl)),
    (set_number_same sx_raft st_events0 (fun _ _ => eq_refl)).
  assert (H : cfg_max_batch (sx_raft c3) = 64%nat) by (by rewrite Hearly, Hr by done).
  destruct (args_has args "quorum-loss"); simpl; lia.
Qed.

Lemma every_ok : 1 <= sx_check_durability_every c7.
Proof using St.
  pose proof St as []. destruct st_start0 as (? & ? & ? & ? & ? & ? & ? & ? & _ & _ & _ & _ & _ & _ & _ & _ & Ec).
  assert (Hd : sx_check_durability_every c0 = 200) by (rewrite Ec; by destruct (args_has args "benign")).
  apply set_number_Ok in st_every0 as ([n|] & _ & ->); simpl; [lia|].
  rewrite (set_number_same sx_check_durability_every st_batch0 (fun _ _ => eq_refl)),
    (set_number_same sx_check_durability_every st_threshold0 (fun _ _ => eq_refl)),
    (set_number_same sx_check_durability_every st_events0 (fun _ _ => eq_refl)).
  enough (H : sx_check_durability_every c3 = 200) by (destruct (args_has args "quorum-loss"); simpl; lia).
  rewrite (set_named_same sx_check_durability_every st_bug0 (fun _ _ => eq_refl)),
    (set_named_same sx_check_durability_every st_reads0 (fun _ _ => eq_refl)), config_switches_same by done.
  by rewrite (set_number_same sx_check_durability_every st_spares0 (fun _ _ => eq_refl)).
Qed.

Lemma flags_ok : config_flags args cfg.
Proof using St.
  pose proof (first_fields sx_net) as F1. pose proof (first_fields sx_disk) as F2.
  pose proof late_faults as (L1 & L2 & L3 & L4 & L5).
  destruct (config_switches_flags args c1) as (Hsp & Hrec & Hany & Hq & _ & _).
  pose proof (late_raft cfg_pre_vote) as R1. pose proof (late_raft cfg_leader_stickiness) as R2.
  pose proof (early_raft cfg_pre_vote) as R3. pose proof (early_raft cfg_leader_stickiness) as R4.
  pose proof switched_raft as Hr. pose proof batch_ok as Hbatch. pose proof every_ok as Hevery. pose proof St as [].
  destruct st_start0 as (seed & servers & clients & keys & duration & settle & drain & level
    & _ & _ & _ & _ & _ & _ & _ & _ & Ec).
  assert (Hl0 : sx_check_liveness c0 = negb (args_has args "no-liveness")) by by rewrite Ec.
  assert (H0 : fc_enable_reconfig (sx_faults c0) = false /\ fc_allow_quorum_loss (sx_faults c0) = false /\
    any_enabled (sx_faults c0) = negb (args_has args "benign")).
  { rewrite Ec. by destruct (args_has args "benign"). }
  rewrite L3 in Hrec, Hany, Hq. destruct H0 as (H0a & H0b & H0c). rewrite H0a, orb_false_r in Hrec.
  rewrite H0c in Hany. rewrite H0b in Hq. rewrite <-L2 in Hrec, Hany, Hq.
  rewrite st_end0. clear St.
  assert (Ef : sx_faults (normalise c7) = (sx_faults c7) ⟨ fc_window := (Z.min (fc_window (sx_faults c7)).1 (sx_duration c7), sx_duration c7) ⟩)
    by done.
  split; rewrite ?Ef, ?L1.
  - change (sx_net c7 = if args_has args "benign" then net_config_reliable else net_config_hostile).
    rewrite F1 by done. rewrite Ec. by destruct (args_has args "benign").
  - change (sx_disk c7 = if args_has args "benign" then disk_config_reliable else disk_config_hostile).
    rewrite F2 by done. rewrite Ec. by destruct (args_has args "benign").
  - rewrite <-Hany. by destruct (args_has args "quorum-loss").
  - rewrite <-Hrec. by destruct (args_has args "quorum-loss").
  - simpl. destruct (args_has args "quorum-loss"); [done|]. exact Hq.
  - change (sx_check_liveness c7 = negb (args_has args "no-liveness" || args_has args "quorum-loss")).
    rewrite L4. destruct (args_has args "quorum-loss"); [by rewrite orb_true_r|]. rewrite orb_false_r.
    exact (eq_trans L5 Hl0).
  - change (cfg_pre_vote (sx_raft c7) = negb (args_has args "no-prevote")). by rewrite R1, R3, Hr by done.
  - change (cfg_leader_stickiness (sx_raft c7) = negb (args_has args "no-stickiness")). by rewrite R2, R4, Hr by done.
  - change (args_has args "reconfig" = true -> (0 < sx_spares c7)%nat). intros E. rewrite E in Hsp.
    rewrite (set_number_same sx_spares st_every0 (fun _ _ => eq_refl)),
      (set_number_same sx_spares st_batch0 (fun _ _ => eq_refl)),
      (set_number_same sx_spares st_threshold0 (fun _ _ => eq_refl)),
      (set_number_same sx_spares st_events0 (fun _ _ => eq_refl)).
    assert (E3 : sx_spares c3 = sx_spares (config_switches args c1)).
    { rewrite (set_named_same sx_spares st_bug0 (fun _ _ => eq_refl)).
      exact (set_named_same sx_spares st_reads0 (fun _ _ => eq_refl)). }
    enough (0 < sx_spares c3)%nat by by destruct (args_has args "quorum-loss").
    rewrite E3, Hsp. destruct (Nat.eqb_spec (sx_spares c1) 0); lia.
  - exact Hbatch.
  - exact Hevery.
Qed.

Lemma backoff_ok : wl_retry_backoff (sx_workload cfg) = (10 * MILLIS, 80 * MILLIS).
Proof using St.
  pose proof (first_fields sx_workload) as F. pose proof St as [].
  destruct st_start0 as (? & ? & ? & ? & ? & ? & ? & ? & _ & _ & _ & _ & _ & _ & _ & _ & Ec).
  rewrite st_end0. change (sx_workload (normalise c7)) with (sx_workload c7). rewrite F by done. rewrite Ec.
  by destruct (args_has args "benign").
Qed.
End Fields.

Lemma config_runnable args cfg :
  config args = Ok cfg -> sx_max_events cfg < 2 ^ 32 -> Z.of_nat (sx_clients cfg) <= 2 ^ 32 -> runnable cfg.
Proof.
  intros (c0 & c1 & c2 & c3 & c4 & c5 & c6 & c7 & St)%config_staged He Hc. split; [|split; [|done]|done].
  - by rewrite (backoff_ok _ _ _ _ _ _ _ _ _ _ St).
  - apply values_ok in St. by apply (cv_max_events _ _) in St as [? _]%args_u64_range.
Qed.

(** A configuration is normalised. *)
Lemma normalise_idem c : normalise (normalise c) = normalise c.
Proof. unfold normalise. destruct c as [? ? ? ? ? ? ? ? ? ? ? ? ? ? ? [] ? ? ?]. simpl. by rewrite Z.min_l by lia. Qed.
Lemma config_normalised args cfg : config args = Ok cfg -> normalise cfg = cfg.
Proof.
  intros (c0 & c1 & c2 & c3 & c4 & c5 & c6 & c7 & St)%config_staged. rewrite (st_end _ _ _ _ _ _ _ _ _ _ St).
  apply normalise_idem.
Qed.

(** ** Properties *)

(** C39. Arguments are read as they are written.  The parser accepts exactly the lists
    that print some options, each of them as [--k=v], as [--k v] with a value that
    is no option, or as [--k], and what it returns maps every name to the last
    value given; it refuses a list exactly for the first argument that is neither
    an option nor the value of one. *)
Theorem args_parse_exact argv :
  (forall flags, args_parse argv = Ok flags <->
    exists opts, Forall opt_ok opts /\ argv = opts_print opts /\ flags = opts_map ∅ opts) /\
  (forall arg, args_parse argv = Err arg ->
    strip_dashes arg = None /\ exists opts rest, Forall opt_ok opts /\ argv = opts_print opts ++ arg :: rest).
Proof.
  split.
  - intros flags. split.
    + intros H. destruct (args_parse_inv _ ∅ argv (le_n _)) as (opts & Hok & Hp). unfold args_parse in H.
      rewrite H in Hp. exists opts. naive_solver.
    + intros (opts & Hok & -> & ->). by apply args_parse_print.
  - intros arg H. destruct (args_parse_inv _ ∅ argv (le_n _)) as (opts & Hok & Hp). unfold args_parse in H.
    rewrite H in Hp. destruct Hp as (Ha & rest & ->). eauto.
Qed.

(** A configuration is what the options ask for.  When [config] returns one, each
    value in it is the option's, or else the default of a hostile or a benign world;
    durations are in milliseconds and never wrap around; the fault window ends with
    the run; the switches are on where they were asked for; a batch and the interval
    of durability checks are at least one; and within limits on the events and the
    clients it can be run. *)
Theorem config_follows_options args cfg :
  config args = Ok cfg ->
  config_values args cfg /\ config_times args cfg /\ config_flags args cfg /\
  (sx_max_events cfg < 2 ^ 32 -> Z.of_nat (sx_clients cfg) <= 2 ^ 32 -> runnable cfg).
Proof.
  intros Hc. pose proof Hc as (c0 & c1 & c2 & c3 & c4 & c5 & c6 & c7 & St)%config_staged.
  split_and!; [by eapply values_ok|by eapply times_ok|by eapply flags_ok|by apply (config_runnable args)].
Qed.

(** ** Witness *)

Definition demo_opts : list Opt :=
  [OptValue "seed" "1_7"; OptFlag "benign"; OptIs "duration" "250"; OptFlag "reconfig"; OptValue "bug" "no-dedup";
   OptIs "max-batch" "0"; OptFlag "no-prevote"].
Example demo_args_print :
  opts_print demo_opts =
    ["--seed"; "1_7"; "--benign"; "--duration=250"; "--reconfig"; "--bug"; "no-dedup"; "--max-batch=0"; "--no-prevote"]%string.
Proof. reflexivity. Qed.

Definition demo_args : Args := opts_map ∅ demo_opts.
Lemma demo_config_Ok : exists cfg, config demo_args = Ok cfg.
Proof. destruct (config demo_args) as [cfg|e] eqn:E; [by eexists|]. vm_compute in E. discriminate E. Qed.

Lemma config_follows_options_witness :
  exists cfg, config demo_args = Ok cfg /\ sx_seed cfg = 17 /\ sx_duration cfg = 250 * MILLIS.
Proof.
  destruct demo_config_Ok as [cfg Hc]. exists cfg. split; [exact Hc|].
  destruct (config_follows_options demo_args cfg Hc) as (Hv & Ht & _).
  pose proof (cv_seed _ _ Hv) as E1. pose proof (ct_duration _ _ Ht) as E2.
  assert (E1' : args_u64 demo_args "seed" 1 = Ok 17) by (vm_compute; reflexivity).
  assert (E2' : args_millis demo_args "duration" (5 * SECONDS) = Ok (250 * MILLIS)) by (vm_compute; reflexivity).
  assert (Eb : args_has demo_args "benign" = true) by (vm_compute; reflexivity).
  rewrite Eb, E2' in E2. rewrite E1' in E1. injection E1 as <-. injection E2 as <-. split; reflexivity.
Defined.
