(* ===== verification/CliStatus.v ===== *)
(** * CliStatus: what an exit status says

    A replay, a sweep and the measurement of the defects end with the status that
    [sim run] ends with on the same seeds. *)
From Stdlib Require Import String Ascii.
From stdpp Require Import strings pretty.
From S2P Require Import Prelude Codec Crc LogFormat RaftLog Recovery Durable Messages Config StateMachine Io Rng Draw.
From S2P Require Import Disk Faults Scheduler Net Trace World Oracle RaftState Raft History Server Invariants Durability.
From S2P Require Import Harness Client Cluster ClusterRun ClusterRules RunRules Blind Replay Sweep Shrink Cli CliRules.
Local Open Scope Z_scope.

(** ** One more option *)

Lemma args_parse_app argv flags o :
  args_parse argv = Ok flags -> opt_ok o ->
  args_parse (argv ++ opt_print o) = Ok (<[opt_key o := opt_value o]> flags).
Proof.
  intros H Ho. destruct (args_parse_inv _ ∅ argv (le_n _)) as (opts & Hok & Hp). unfold args_parse in *.
  rewrite H in Hp. destruct Hp as [-> ->].
  replace (opts_print opts ++ opt_print o) with (opts_print (opts ++ [o])).
  - rewrite args_parse_print by (by apply Forall_app_2; [|constructor]). f_equal. unfold opts_map. by rewrite foldl_app.
  - clear. induction opts as [|o' opts IH]; [exact (app_nil_r (opt_print o))|].
    cbn [app]. rewrite !opts_print_cons, IH. by rewrite <-app_assoc.
Qed.

(** [--seed=N] *)
Definition seed_opt (n : Z) : Opt := OptIs "seed" (decimal n).

Lemma config_seed_opt argv args cfg n :
  args_parse argv = Ok args -> config args = Ok cfg -> 0 <= n <= U64_MAX ->
  exists args', args_parse (argv ++ opt_print (seed_opt n)) = Ok args' /\ config args' = Ok (reseed n cfg).
Proof.
  intros Ha Hc Hn. eexists. split; [by apply args_parse_app|].
  apply config_reseed; [done|apply decimal_underscores|done].
Qed.

(** ** Statuses *)

Lemma cmd_run_Ok args cfg o code :
  config args = Ok cfg -> run cfg = Some o -> cmd_run args = Ok code <-> code = i32_from (run_failed o).
Proof. intros Hc Ho. unfold cmd_run. rewrite Hc. simpl. rewrite Ho. simpl. naive_solver. Qed.

(** ** Sweeps *)

Lemma sweep_Ok choices cfg r :
  runnable (sw_base cfg) -> 0 <= sw_count cfg < 2 ^ 63 -> sweep choices cfg = Ok r ->
  exists m os, 0 <= m <= sw_count cfg /\ mapM (sweep_outcome cfg) (seqZ 0 m) = Some os /\ r = summary os /\
    (m < sw_count cfg -> sw_stop_after cfg <> 0%nat /\ sr_failures r <> []).
Proof.
  intros Hcfg Hc. unfold sweep. destruct (sweep_steps cfg choices (sweep_start cfg)) as [st|] eqn:Hs; [|done].
  case_bool_decide; [|done]. intros Hr%or_panic_Ok.
  destruct (sweep_sequential cfg choices st r Hcfg ltac:(lia)) as (m & os & Hm & Hos & E & Hlt); [|done..|].
  { unfold sweep_workers. lia. }
  exists m, os. split_and!; try done; try lia. intros H'. apply Hlt in H'. split; [lia|].
  intros E'. rewrite E' in H'. simpl in H'. lia.
Qed.

Lemma summary_passed os : sweep_passed (summary os) = forallb (fun o => negb (run_failed o)) os.
Proof.
  unfold sweep_passed. cbn [summary sr_failures]. induction os as [|o os IH]; [done|].
  rewrite failures_cons. cbn [forallb].
  destruct (run_failed o); cbn [negb andb]; [by apply bool_decide_eq_false_2|exact IH].
Qed.

(** The runs of a sweep that failed. *)
Lemma summary_failed os : sweep_passed (summary os) = false -> exists j o, os !! j = Some o /\ run_failed o = true.
Proof.
  rewrite summary_passed. intros H. assert (Hex : Exists (fun o => run_failed o = true) os).
  { induction os as [|o os IH]; [done|]. simpl in H. destruct (run_failed o) eqn:E; [by left|right; by apply IH]. }
  apply Exists_exists in Hex as (o & [j Hj]%list_elem_of_lookup & Ho). eauto.
Qed.

(** What the runs of a sweep are runs of. *)
Lemma sweep_seed cfg m os j o :
  normalise (sw_base cfg) = sw_base cfg -> mapM (sweep_outcome cfg) (seqZ 0 m) = Some os -> os !! j = Some o ->
  Z.of_nat j < m /\ sw_start_seed cfg + Z.of_nat j <= U64_MAX /\
  run (reseed (sw_start_seed cfg + Z.of_nat j) (sw_base cfg)) = Some o.
Proof.
  intros Hn Hos Hj. apply mapM_Some in Hos. destruct (Forall2_lookup_r _ _ _ _ _ Hos Hj) as (i & Hi & Ho).
  apply lookup_seqZ in Hi as [-> Hlt]. split; [done|]. unfold sweep_outcome in Ho.
  apply bind_Some in Ho as (seed & [-> Hmax]%u64_add_Some & Ho). split; [done|].
  rewrite <-Ho. f_equal. rewrite <-Hn at 1. done.
Qed.

(** A sweep passes exactly when every run of its range does. *)
Lemma sweep_status choices cfg r :
  runnable (sw_base cfg) -> normalise (sw_base cfg) = sw_base cfg -> 0 <= sw_count cfg < 2 ^ 63 ->
  sweep choices cfg = Ok r ->
  if sweep_passed r
  then forall n, sw_start_seed cfg <= n < sw_start_seed cfg + sw_count cfg ->
    exists o, run (reseed n (sw_base cfg)) = Some o /\ run_failed o = false
  else exists n o, sw_start_seed cfg <= n < sw_start_seed cfg + sw_count cfg /\ n <= U64_MAX /\
    run (reseed n (sw_base cfg)) = Some o /\ run_failed o = true.
Proof.
  intros Hcfg Hn Hc Hr. destruct (sweep_Ok _ _ _ Hcfg Hc Hr) as (m & os & Hm & Hos & -> & Hlt).
  destruct (sweep_passed (summary os)) eqn:Hp.
  - assert (m = sw_count cfg) as ->.
    { destruct (decide (m < sw_count cfg)) as [H|]; [|lia]. apply Hlt in H as [_ H]. unfold sweep_passed in Hp.
      by apply bool_decide_eq_true in Hp. }
    intros n Hrange. assert (Hlen : length os = Z.to_nat (sw_count cfg)).
    { apply length_mapM in Hos. by rewrite <-Hos, length_seqZ. }
    destruct (lookup_lt_is_Some_2 os (Z.to_nat (n - sw_start_seed cfg))) as [o Ho]; [lia|].
    destruct (sweep_seed _ _ _ _ _ Hn Hos Ho) as (_ & _ & Hrun). exists o.
    replace (sw_start_seed cfg + _) with n in Hrun by lia. split; [done|].
    rewrite summary_passed, forallb_forall in Hp. apply negb_true_iff, Hp, list_elem_of_In.
    by eapply list_elem_of_lookup_2.
  - apply summary_failed in Hp as (j & o & Hj & Hf). destruct (sweep_seed _ _ _ _ _ Hn Hos Hj) as (Hlt' & Hmax & Hrun).
    eexists _, o. split; [|done]. lia.
Qed.

(** ** Defects *)

Definition STALL : string := "no_progress_after_recovery".

(** A run that shows a defect: it fails, and not only by standing still. *)
Definition shows (o : RunOutcome) : Prop := run_failed o = true /\ run_signature o <> STALL.

Lemma tally_keys (l : list string) s : is_Some (tally l !! s) <-> s ∈ l.
Proof.
  rewrite tally_lookup. cbv zeta.
  assert (E : Z.of_nat (length (List.filter (String.eqb s) l)) = 0 <-> s ∉ l).
  { induction l as [|x l IH]; [by split; [intros _ ?%elem_of_nil|]|]. simpl. rewrite not_elem_of_cons.
    destruct (String.eqb_spec s x); simpl; [split; [lia|tauto]|]. tauto. }
  destruct (Z.eqb_spec (Z.of_nat (length (List.filter (String.eqb s) l))) 0) as [H|H].
  - split; [by intros [? [=]]|]. intros Hs. by apply E in H.
  - split; [intros _|by eexists]. destruct (decide (s ∈ l)); [done|]. by apply E in n.
Qed.

Lemma elem_of_failures (os : list RunOutcome) (f : Failure) :
  f ∈ omap failure_of os <-> exists o, o ∈ os /\ run_failed o = true /\ f = mkFailure (oc_seed o) (run_signature o).
Proof.
  rewrite list_elem_of_omap. apply exist_proper. intros o. unfold failure_of.
  destruct (run_failed o); naive_solver.
Qed.

Lemma unseen_summary (os : list RunOutcome) : unseen (summary os) = false <-> exists o, o ∈ os /\ shows o.
Proof.
  unfold unseen. cbn [summary sr_failures sr_by_signature]. split.
  - intros [Hne Hs]%orb_false_iff. apply Nat.eqb_neq in Hne.
    rewrite (proj2 (Nat.ltb_lt 0 _)) in Hs by lia. cbn [andb] in Hs.
    apply not_true_iff_false in Hs. rewrite forallb_forall in Hs.
    destruct (decide (Exists (fun o => run_failed o = true /\ run_signature o <> STALL) os)) as [Hex|Hno].
    { apply Exists_exists in Hex as (o & Ho & Hshow). by exists o. }
    exfalso. apply Hs. intros [s v] Hsv%list_elem_of_In%elem_of_map_to_list. simpl. apply String.eqb_eq.
    assert (Hin : is_Some (tally (fl_signature <$> omap failure_of os) !! s)) by by eexists.
    apply tally_keys, list_elem_of_fmap in Hin as (f & -> & (o & Ho & Hf & ->)%elem_of_failures). simpl.
    apply dec_stable. intros Hd. apply Hno, Exists_exists. by exists o.
  - intros (o & Ho & Hf & Hsig). assert (Hin : mkFailure (oc_seed o) (run_signature o) ∈ omap failure_of os).
    { apply elem_of_failures. by exists o. }
    apply orb_false_iff. split; [apply Nat.eqb_neq; intros E%nil_length_inv; rewrite E in Hin; by apply elem_of_nil in Hin|].
    apply andb_false_iff. right. apply not_true_iff_false. rewrite forallb_forall. intros Hall.
    assert (Hk : is_Some (tally (fl_signature <$> omap failure_of os) !! run_signature o)).
    { apply tally_keys, list_elem_of_fmap. eexists; split; [|exact Hin]; done. }
    destruct Hk as [v Hv%elem_of_map_to_list%list_elem_of_In]. apply Hall in Hv. simpl in Hv.
    by apply String.eqb_eq in Hv.
Qed.

(** A defect is seen exactly when some run of the range shows it. *)
Lemma sweep_seen choices cfg r :
  runnable (sw_base cfg) -> normalise (sw_base cfg) = sw_base cfg -> 0 <= sw_count cfg < 2 ^ 63 ->
  sw_stop_after cfg = 0%nat -> sweep choices cfg = Ok r ->
  unseen r = false <-> exists n o, sw_start_seed cfg <= n < sw_start_seed cfg + sw_count cfg /\
    run (reseed n (sw_base cfg)) = Some o /\ shows o.
Proof.
  intros Hcfg Hn Hc Hstop Hr. destruct (sweep_Ok _ _ _ Hcfg Hc Hr) as (m & os & Hm & Hos & -> & Hlt).
  assert (m = sw_count cfg) as ->.
  { destruct (decide (m < sw_count cfg)) as [H|]; [|lia]. by apply Hlt in H as [H _]. }
  rewrite unseen_summary. split.
  - intros (o & [j Hj]%list_elem_of_lookup & Hs). destruct (sweep_seed _ _ _ _ _ Hn Hos Hj) as (Hlt' & _ & Hrun).
    eexists _, o. split; [|done]. lia.
  - intros (n & o & Hrange & Ho & Hs). exists o. split; [|done].
    assert (Hlen : length os = Z.to_nat (sw_count cfg)) by (apply length_mapM in Hos; by rewrite <-Hos, length_seqZ).
    destruct (lookup_lt_is_Some_2 os (Z.to_nat (n - sw_start_seed cfg))) as [o' Ho']; [lia|].
    destruct (sweep_seed _ _ _ _ _ Hn Hos Ho') as (_ & _ & Hrun).
    replace (sw_start_seed cfg + _) with n in Hrun by lia. rewrite Ho in Hrun. injection Hrun as ->.
    by eapply list_elem_of_lookup_2.
Qed.

(** Some run of [seeds] seeds from [start] with the defect shows it. *)
Definition defect_seen (args : Args) (start seeds : Z) (bug : InjectedBug) : Prop :=
  exists base n o, bug_config args bug = Ok base /\ start <= n < start + seeds /\
    run (reseed n base) = Some o /\ shows o.

Lemma bug_config_runnable args cfg bug base :
  config args = Ok cfg -> runnable cfg -> bug_config args bug = Ok base -> runnable base /\ normalise base = base.
Proof.
  intros Hc [H1 H2 H3]. unfold bug_config. rewrite Hc. intros [= <-]. apply config_normalised in Hc.
  rewrite <-Hc. destruct (_ && _); (split; [by split|]); [|exact (f_equal (with_bug bug) (normalise_idem cfg))].
  exact (f_equal (fun c => with_reconfig _ (with_bug bug c)) (normalise_idem cfg)).
Qed.

Lemma measure_bugs_Ok choices args cfg start seeds threads i bugs ok ok' :
  config args = Ok cfg -> runnable cfg -> args_u64 args "from" 1 = Ok start -> 0 <= seeds < 2 ^ 63 ->
  measure_bugs choices args seeds threads i bugs ok = Ok ok' ->
  ok' = true <-> ok = true /\ Forall (defect_seen args start seeds) bugs.
Proof.
  intros Hc Hrn Hstart Hseeds. revert i ok. induction bugs as [|bug bugs IH]; intros i ok; simpl.
  { intros [= <-]. split; [by intros ->|by intros []]. }
  intros (base & Hbase & (r & Hr & H)%Result_bind_Ok)%Result_bind_Ok. rewrite (IH _ _ H), Forall_cons.
  destruct (bug_config_runnable _ _ _ _ Hc Hrn Hbase) as [Hb Hn].
  unfold measure in Hr. rewrite Hstart in Hr. simpl in Hr.
  apply sweep_seen in Hr; [|done..]. simpl in Hr.
  assert (E : unseen r = false <-> defect_seen args start seeds bug).
  { rewrite Hr. unfold defect_seen. rewrite Hbase. naive_solver. }
  destruct (unseen r); [|tauto]. split; [by intros []|]. intros (_ & Hd & _). by apply E in Hd.
Qed.

(** Not more events, clients and seeds than a run and a sweep can count. *)
Record within_limits (args : Args) : Prop := {
  wl_runs : forall cfg, config args = Ok cfg -> sx_max_events cfg < 2 ^ 32 /\ Z.of_nat (sx_clients cfg) <= 2 ^ 32;
  wl_seeds : forall n, (args_u64 args "seeds" 200 = Ok n \/ args_u64 args "seeds" 300 = Ok n) -> n < 2 ^ 63;
}.

Section Status.
Context (default_threads : nat) (choices : nat -> list (nat * bool)).
#[local] Notation sim := (Cli.main default_threads choices).

Lemma main_Ok name rest code :
  sim (name :: rest) = Ok code -> code <> 2 ->
  exists args, args_parse rest = Ok args /\ command default_threads choices name args = Ok code.
Proof.
  simpl. destruct (args_parse rest) as [args|]; [|by intros [= <-]].
  intros H Hne. exists args. split; [done|]. destruct (command _ _ name args) as [c|[]]; congruence.
Qed.

Lemma main_run rest args code : args_parse rest = Ok args -> cmd_run args = Ok code -> sim ("run"%string :: rest) = Ok code.
Proof. intros Ha Hc. unfold Cli.main. rewrite Ha. unfold command. simpl. by rewrite Hc. Qed.

(** A replay ends as the run does: with the same options, if [sim replay] ends with
    a status other than a usage error's, [sim run] ends with that status too; a
    status of 1 is never the replay's own doing. *)
Theorem replay_status_is_the_runs rest code :
  sim ("replay"%string :: rest) = Ok code -> code <> 2 -> sim ("run"%string :: rest) = Ok code.
Proof.
  intros H Hne. apply main_Ok in H as (args & Ha & H); [|done]. apply (main_run _ args); [done|]. clear Ha Hne.
  change (cmd_replay args = Ok code) in H. unfold cmd_replay in H.
  apply Result_bind_Ok in H as (cfg & Hc & H). apply Result_bind_Ok in H as (level & Hl & H).
  apply Result_bind_Ok in H as (runs & _ & H). apply Result_bind_Ok in H as (r & Hr%or_panic_Ok & [= <-]).
  assert (Ho : exists o, run (normalise (cfg ⟨ sx_trace_level := default LInfo level ⟩)) = Some o).
  { unfold replay in Hr. apply bind_Some in Hr as (o & Ho & _). by exists o. }
  destruct Ho as [o Ho]. destruct (replay_agrees cfg (default LInfo level) runs o Ho) as (r' & Hr' & Eo & Hd & _).
  rewrite Hr in Hr'. injection Hr' as <-. rewrite Hd, Eo. cbn [negb].
  assert (Hn : normalise (cfg ⟨ sx_trace_level := default LInfo level ⟩) = cfg ⟨ sx_trace_level := default LInfo level ⟩).
  { transitivity ((normalise cfg) ⟨ sx_trace_level := default LInfo level ⟩); [reflexivity|].
    by rewrite (config_normalised _ _ Hc). }
  rewrite Hn in Ho.
  assert (Hlevel : sx_trace_level cfg = default LOff level).
  { destruct (config_staged _ _ Hc) as (c0 & c1 & c2 & c3 & c4 & c5 & c6 & c7 & St). apply values_ok in St.
    apply cv_level in St. unfold named, args_level in *. destruct (args_get args "trace").
    - apply Result_bind_Ok in Hl as (l & Hl%or_usage_Ok & [= <-]). simpl in *. congruence.
    - injection Hl as <-. simpl in *. congruence. }
  destruct level as [l|]; simpl in Ho, Hlevel.
  - assert (E : cfg ⟨ sx_trace_level := l ⟩ = cfg) by (rewrite <-Hlevel; by destruct cfg).
    rewrite E in Ho. by apply (cmd_run_Ok args cfg o).
  - apply run_quiet in Ho. assert (E : quiet_config (cfg ⟨ sx_trace_level := LInfo ⟩) = cfg).
    { unfold quiet_config. destruct cfg. simpl in Hlevel. by rewrite Hlevel. }
    rewrite E in Ho. by apply (cmd_run_Ok args cfg (quiet_outcome o)).
Qed.

(** C40. A sweep ends as its runs do.  With whatever threads and however they take
    turns, if [sim sweep] ends with 0 then [sim run] with the same options and
    [--seed=N] ends with 0 for every seed of the range, and if it ends with 1 then
    for one of them it ends with 1: what a sweep reports can be run again. *)
Theorem sweep_status_is_the_runs rest args code :
  args_parse rest = Ok args -> within_limits args ->
  sim ("sweep"%string :: rest) = Ok code -> code <> 2 ->
  exists start count, args_u64 args "from" 1 = Ok start /\ args_u64 args "seeds" 200 = Ok count /\
    let run_seed n := sim ("run"%string :: rest ++ opt_print (seed_opt n)) in
    (code = 0 /\ forall n, start <= n < start + count -> run_seed n = Ok 0) \/
    (code = 1 /\ exists n, start <= n < start + count /\ run_seed n = Ok 1).
Proof.
  intros Ha [Hruns Hseeds] H Hne. apply main_Ok in H as (args' & Ha' & H); [|done].
  rewrite Ha in Ha'. injection Ha' as <-. change (cmd_sweep default_threads choices args = Ok code) in H.
  unfold cmd_sweep in H.
  apply Result_bind_Ok in H as (base & Hb & H). apply Result_bind_Ok in H as (start & Hstart & H).
  apply Result_bind_Ok in H as (count & Hcount & H). apply Result_bind_Ok in H as (threads & _ & H).
  apply Result_bind_Ok in H as (stop_after & _ & H).
  apply Result_bind_Ok in H as (past & [-> Hpast]%or_panic_Ok%u64_add_Some & H).
  apply Result_bind_Ok in H as (_u & _ & H). apply Result_bind_Ok in H as (r & Hr & [= <-]).
  exists start, count. split; [done|]. split; [done|]. intros run_seed.
  assert (Hrange : 0 <= start /\ 0 <= count).
  { apply args_u64_range in Hstart; [|done]. apply args_u64_range in Hcount; [|done]. lia. }
  destruct (Hruns _ Hb) as [H1 H2].
  assert (Hrun : forall n o, start <= n < start + count -> run (reseed n base) = Some o ->
    run_seed n = Ok (i32_from (run_failed o))).
  { intros n o Hn Ho. destruct (config_seed_opt rest args base n Ha Hb ltac:(lia)) as (args' & Ha' & Hc').
    apply (main_run _ args'); [done|]. by apply (cmd_run_Ok args' (reseed n base) o). }
  apply sweep_status in Hr; simpl in Hr |- *;
    [|by apply (config_runnable args)|by eapply config_normalised|split; [lia|by apply Hseeds; left]].
  destruct (sweep_passed r); [left|right]; (split; [done|]).
  - intros n Hn. destruct (Hr n Hn) as (o & Ho & Hf). rewrite (Hrun n o Hn Ho). by rewrite Hf.
  - destruct Hr as (n & o & Hn & _ & Ho & Hf). exists n. split; [done|]. rewrite (Hrun n o Hn Ho). by rewrite Hf.
Qed.

(** [sim bugs] succeeds exactly when the checkers earn their keep.  It ends with 0
    if for each of the eight defects some seed of the range gives a run that fails
    otherwise than by standing still, and every run without a defect passes; when
    one defect goes unseen or the control fails it ends with 1. *)
Theorem bugs_status_is_the_runs rest args code :
  args_parse rest = Ok args -> within_limits args ->
  sim ("bugs"%string :: rest) = Ok code -> code <> 2 ->
  exists cfg start seeds, config args = Ok cfg /\ args_u64 args "from" 1 = Ok start /\
    args_u64 args "seeds" 300 = Ok seeds /\ (code = 0 \/ code = 1) /\
    (code = 0 <-> Forall (defect_seen args start seeds) all_bugs /\
      forall n, start <= n < start + seeds ->
        exists o, run (reseed n (with_bug BugNone cfg)) = Some o /\ run_failed o = false).
Proof.
  intros Ha [Hruns Hseeds] H Hne. apply main_Ok in H as (args' & Ha' & H); [|done].
  rewrite Ha in Ha'. injection Ha' as <-. change (cmd_bugs default_threads choices args = Ok code) in H.
  unfold cmd_bugs in H.
  apply Result_bind_Ok in H as (seeds & Hs & H). apply Result_bind_Ok in H as (threads & _ & H).
  apply Result_bind_Ok in H as (ok & Hok & H). apply Result_bind_Ok in H as (cfg & Hc & H).
  apply Result_bind_Ok in H as (control & Hctl & [= <-]).
  unfold measure in Hctl. apply Result_bind_Ok in Hctl as (start & Hstart & Hctl).
  exists cfg, start, seeds. do 3 (split; [done|]). destruct (Hruns _ Hc) as [H1 H2].
  pose proof (config_runnable _ _ Hc H1 H2) as Hrn.
  assert (Hr : 0 <= seeds < 2 ^ 63).
  { apply args_u64_range in Hs as Hs'; [|done]. split; [lia|]. apply Hseeds. by right. }
  apply (measure_bugs_Ok _ _ _ _ _ _ _ _ _ _ Hc Hrn Hstart Hr) in Hok.
  apply sweep_status in Hctl; [|by destruct Hrn; split|exact (f_equal (with_bug BugNone) (config_normalised _ _ Hc))|done].
  cbn [sw_base sw_start_seed sw_count] in Hctl. destruct (sweep_passed control); cbn [negb].
  - split; [destruct ok; auto|]. transitivity (ok = true); [by destruct ok|]. rewrite Hok. tauto.
  - split; [by right|]. split; [done|]. intros [_ Hall]. destruct Hctl as (n & o & Hn & _ & Ho & Hf).
    destruct (Hall n Hn) as (o' & Ho' & Hf'). congruence.
Qed.
End Status.

(** ** Witnesses: runs of twelve events, one thread and one seed *)

Definition short_opts (events : string) : list Opt :=
  [OptFlag "benign"; OptIs "servers" "1"; OptIs "clients" "1"; OptIs "max-events" events; OptIs "seeds" "1"].
Definition one_by_one (n : nat) : list (nat * bool) := replicate 5 (0%nat, true).

Lemma short_parse events : args_parse (opts_print (short_opts events)) = Ok (opts_map ∅ (short_opts events)).
Proof. apply args_parse_print. by repeat constructor. Qed.

Lemma short_within events n :
  u64_from_str (remove_underscores events) = Some n -> n < 2 ^ 32 -> within_limits (opts_map ∅ (short_opts events)).
Proof.
  intros Hn Hlt. split.
  - intros cfg (c0 & c1 & c2 & c3 & c4 & c5 & c6 & c7 & St)%config_staged. apply values_ok in St as [].
    change (args_u64 (<["seeds"%string := "1"%string]> (<["max-events"%string := events]> (opts_map ∅ (take 3 (short_opts events)))))
      "max-events" 4000000 = Ok (sx_max_events cfg)) in cv_max_events.
    rewrite u64_other in cv_max_events by done. unfold args_u64, args_opt_u64, args_get in cv_max_events.
    rewrite lookup_insert_eq, Hn in cv_max_events. injection cv_max_events as <-. split; [done|].
    assert (E : args_usize (opts_map ∅ (short_opts events)) "clients" 4 = Ok 1%nat).
    { change (args_usize (<["seeds"%string := "1"%string]> (<["max-events"%string := events]> (opts_map ∅ (take 3 (short_opts events)))))
        "clients" 4 = Ok 1%nat). rewrite !usize_other by done. vm_compute. reflexivity. }
    rewrite E in cv_clients. injection cv_clients as <-. done.
  - intros k Hk. assert (E : forall d, args_u64 (opts_map ∅ (short_opts events)) "seeds" d = Ok 1).
    { intros d. change (args_u64 (<["seeds"%string := "1"%string]> (opts_map ∅ (take 4 (short_opts events)))) "seeds" d = Ok 1).
      unfold args_u64, args_opt_u64, args_get. by rewrite lookup_insert_eq. }
    rewrite !E in Hk. destruct Hk as [[= <-]|[= <-]]; done.
Qed.

Definition demo_rest : list string := opts_print (short_opts "12").
Lemma demo_replay : main 1 one_by_one ("replay"%string :: demo_rest) = Ok 0.
Proof. vm_compute. reflexivity. Qed.
Lemma demo_sweep_status : main 1 one_by_one ("sweep"%string :: demo_rest) = Ok 0.
Proof. vm_compute. reflexivity. Qed.
Lemma demo_bugs : main 1 one_by_one ("bugs"%string :: opts_print (short_opts "3")) = Ok 1.
Proof. vm_compute. reflexivity. Qed.

Lemma replay_status_is_the_runs_witness : main 1 one_by_one ("run"%string :: demo_rest) = Ok 0.
Proof. exact (replay_status_is_the_runs 1 one_by_one demo_rest 0 demo_replay ltac:(discriminate)). Defined.

Lemma sweep_status_is_the_runs_witness :
  exists start count, args_u64 (opts_map ∅ (short_opts "12")) "from" 1 = Ok start /\
    args_u64 (opts_map ∅ (short_opts "12")) "seeds" 200 = Ok count /\
    forall n, start <= n < start + count -> main 1 one_by_one ("run"%string :: demo_rest ++ opt_print (seed_opt n)) = Ok 0.
Proof.
  destruct (sweep_status_is_the_runs 1 one_by_one demo_rest (opts_map ∅ (short_opts "12")) 0
    (short_parse "12") (short_within "12" 12 eq_refl eq_refl) demo_sweep_status ltac:(discriminate))
    as (start & count & H1 & H2 & [[_ H]|[[=] _]]).
  exists start, count. split; [exact H1|]. split; [exact H2|]. exact H.
Defined.

Lemma bugs_status_is_the_runs_witness :
  exists cfg start seeds, config (opts_map ∅ (short_opts "3")) = Ok cfg /\
    ~ (Forall (defect_seen (opts_map ∅ (short_opts "3")) start seeds) all_bugs /\
       forall n, start <= n < start + seeds ->
         exists o, run (reseed n (with_bug BugNone cfg)) = Some o /\ run_failed o = false).
Proof.
  destruct (bugs_status_is_the_runs 1 one_by_one (opts_print (short_opts "3")) (opts_map ∅ (short_opts "3")) 1
    (short_parse "3") (short_within "3" 3 eq_refl eq_refl) demo_bugs ltac:(discriminate))
    as (cfg & start & seeds & H1 & _ & _ & _ & H).
  exists cfg, start, seeds. split; [exact H1|]. intros Hall. apply H in Hall. discriminate Hall.
Defined.

(** A sweep of no seeds from zero panics on the heading it prints. *)
Example sweep_of_nothing_panics : main 1 one_by_one ["sweep"; "--from=0"; "--seeds=0"]%string = Err Panicked.
Proof. vm_compute. reflexivity. Qed.
